(* ===== verification/_CoqProject ===== *)
-Q . S2P
Prelude.v
AddSigned.v
CodeAddress.v
Error.v
Arch.v
X86UnwindRegs.v
X86RegisterOrdering.v
X86UnwindRule.v
RuleCache.v
A64UnwindRegs.v
A64UnwindRule.v
Slices.v
Modules.v
Dwarf.v
DwarfCfiIndex.v
GimliExample.v
DwarfCfiIndexSpec.v
X86Dwarf.v
A64Dwarf.v
InstructionAnalysis.v
X86InstructionAnalysis.v
A64InstructionAnalysis.v
A64InstructionAnalysisSpec.v
Macho.v
X86Macho.v
A64Macho.v
Pe.v
PeExample.v
X86Pe.v
A64Pe.v
UnwindData.v
Unwinder.v
UnwinderSpec.v
UnwindFrame.v
X86Unwinder.v
A64Unwinder.v
Iterator.v
X86Api.v
A64Api.v
RuleFrames.v
StackWalk.v
Sessions.v
A64Iterator.v
A64StackWalk.v
X86StackWalk.v
X86Iterator.v
X86Termination.v
X86Sessions.v
ErrorDisplay.v
UnitTests.v
