(* ===== verification/Prelude.v ===== *)
(** * Framehop: a verified model of the stack unwinder

    framehop ([src/src]) turns registers, stack memory and unwind data into a list of
    return addresses, on x86_64 and aarch64, from DWARF CFI, Apple compact unwind info and
    Windows PE unwind info.  This development is a shallow embedding of its
    implementation: Rust functions are functions of the same name that return a value, a
    Rust [Result] or a fault, and mutable state is passed explicitly.

    ** How the program fits together, and where each part is

    A client asks the iterator ([UnwindIterator] in [unwinder.rs]) for the next frame; the
    iterator calls [unwind_frame], which looks the address up in the rule cache
    ([rule_cache.rs]).  A hit is executed ([exec] of [x86_64/unwind_rule.rs] or
    [aarch64/unwind_rule.rs]).  A miss finds the module of the address, and its unwind
    data, chosen when the module was created ([ModuleUnwindDataInternal::new]), selects the
    DWARF unwinder ([dwarf.rs]), the compact unwind info unwinder ([macho.rs]) or the PE
    unwinder ([pe.rs]), each with a part per architecture.  These return a cacheable rule,
    which is stored and executed, or the return address itself.

    - [Prelude]: Rust outcomes ([may], [result]), the state and error monad [M] with its
      weakest preconditions ([wp]), integers at their width, slices, and the [StackReader]
      interface of the [read_stack] callback.
    - [AddSigned], [CodeAddress], [Error], [Arch]: [add_signed.rs], [code_address.rs],
      [error.rs], [arch.rs] with [unwind_rule.rs].
    - [X86UnwindRegs], [X86RegisterOrdering], [X86UnwindRule]: [x86_64/unwindregs.rs],
      [x86_64/register_ordering.rs], [x86_64/unwind_rule.rs].
    - [A64UnwindRegs], [A64UnwindRule]: [aarch64/unwindregs.rs], [aarch64/unwind_rule.rs].
    - [RuleCache]: [rule_cache.rs].
    - [Slices]: what the crate uses of the standard library's sorted slices and vectors;
      [BinarySearch] is the documented contract of [binary_search_by_key], whose choice
      among equal keys is unspecified, and [scan_search] an implementation of it.
    - [Modules]: the module list of [UnwinderInternal] with the process-wide generation
      counter ([unwinder.rs]), and the process as a transition system.
    - [Dwarf], [DwarfCfiIndex], [DwarfCfiIndexSpec], [X86Dwarf], [A64Dwarf]: [dwarf.rs],
      [x86_64/dwarf.rs], [aarch64/dwarf.rs].
    - [InstructionAnalysis], [X86InstructionAnalysis], [A64InstructionAnalysis] and
      [A64InstructionAnalysisSpec]: [instruction_analysis.rs] and the two
      [instruction_analysis] directories.
    - [Macho], [X86Macho], [A64Macho]: [macho.rs], [x86_64/macho.rs], [aarch64/macho.rs].
    - [Pe], [X86Pe], [A64Pe]: [pe.rs], [x86_64/pe.rs], [aarch64/pe.rs].
    - [UnwindData]: [ModuleUnwindDataInternal::new], [Module::new],
      [ExplicitModuleSectionInfo] ([unwinder.rs]) and the functions of [dwarf.rs] they
      call.
    - [Unwinder]: [with_cache], [unwind_frame_impl] and [unwind_frame] ([unwinder.rs]).
      [UnwinderSpec] states what an architecture owes the generic code
      ([UnwindingSpec]) and proves the generic code against it; [X86Unwinder] and
      [A64Unwinder] discharge it.  [UnwindFrame] has the theorems on one frame.
    - [Iterator], [A64Iterator], [X86Iterator]: [UnwindIterator], its protocol and whether
      it ends.  [RuleFrames] and [X86Termination]: unwinders all of whose frames have
      rules.
    - [X86Api], [A64Api]: the public types, [x86_64/unwinder.rs], [x86_64/cache.rs] and
      the aarch64 twins.
    - [StackWalk], [X86StackWalk], [A64StackWalk]: whole stacks, against a description of
      the call stack that knows neither modules nor caches.
    - [Sessions], [X86Sessions]: a process that loads and unloads modules and shares one
      cache between its unwinders, as a transition system over that of [Modules].
    - [ErrorDisplay]: the [Display] texts and sources of the errors and the [Debug] texts
      of the registers, with [display_utils.rs].
    - [UnitTests]: the unit tests of the crate, run on the model.
    - [GimliExample], [PeExample]: small executable parsers that meet the interfaces, for
      the witnesses.

    ** Code that is not under [src/]

    gimli, macho-unwind-info and pe-unwind-info are the classes [Gimli],
    [MachoUnwindInfo] and [PeUnwindInfo]: the functions and types the crate calls, with the
    ranges their Rust types give.  Further documented behaviour is in classes of its own,
    used only by the theorems that name them: [GimliEntries] (parsing an FDE asks for the
    CIE at its offset), [MachoLookup] (a function found for an address contains it),
    [PeOperations] (what stack allocations and pops do), [ContextReuse] (an unwind context
    is reusable scratch space).

    ** What the theorems show

    - Rules: executing a rule refines its documented meaning ([exec_refines_denotation] and
      the aarch64 twin); register orderings round-trip
      ([encode_decode_bijection]); a rule built from an epilogue restores what the epilogue
      restores ([for_sequence_runs_epilogue]).
    - Cache: [RuleCache] refines a lossy map ([cache_refines_lossy_map]), the whole cached
      unwinder is equivalent to one without a cache ([cache_transparent]), also when several
      unwinders share the cache while modules come and go ([shared_cache_never_stale], up
      to the documented [2^16] generations), errors of the slow path apart
      ([slow_path_error_is_cached]).
    - Modules: sortedness is an invariant of every reachable process state
      ([reachable_unwinders_safe]), and lookups find exactly the covering module.
    - Unwind data: a module's data is chosen as documented ([explicit_module_new]), the FDE
      index is that of the section ([try_new_correct]) and its lookups find the last FDE
      not above the address ([fde_lookup_correct]).
    - Slow paths: whenever the slow path has a cacheable rule, executing the rule agrees
      with the generic computation (DWARF: [x86_translation_agrees],
      [a64_translation_agrees]; PE: [epilog_rule_agrees], [operations_rule_agrees]); the
      instruction analyses recover the caller's registers from partly run prologues and
      epilogues, against machine semantics of their instructions, and the opcodes of
      compact unwind info from function bodies ([frameless_correct],
      [compact_frame_correct_aarch64]).
    - Frames and stacks: one call returns, without a panic, and keeps registers and cache
      well formed ([unwind_frame_returns]); a caller it finds without PE data is another
      frame, not below the callee's ([x86_frame_advances], [a64_frame_advances]); the
      iterator follows its protocol ([iterator_protocol]); where each frame has a rule, it yields exactly the
      call stack that the rules denote ([iterator_yields_call_stack] and its aarch64 twin),
      in particular the linked list of frame pointers where no module covers the code
      ([iterator_follows_frame_pointers], [iterator_follows_frame_records]); on aarch64
      every stack ends if the DWARF expressions do ([iteration_terminates]), on x86_64
      every stack whose frames have rules ([x86_iteration_terminates]), but not every stack
      ([x86_iteration_diverges]).
    - Limits the theorems state: frames too large for a rule ([frameless_correct]), the
      root of the stack and frame records that point down
      ([compact_frame_correct_aarch64]), pops with a redundant prefix
      ([detected_epilogue_correct]), no modules to deduce a pointer authentication mask
      from ([from_max_known_address_keeps]).

    - Texts: different errors have different texts ([UnwinderError_display_inj]), and an
      error with a source ends in the text of its source ([source_text]).

    ** Integers, faults and fuel

    Integers are [Z] with explicit ranges.  Plain [+] and [-] go through [uarith] and
    [sarith], which panic in a build with overflow checks and wrap in a release build; the
    class [Profile] is the build, and every theorem holds for both unless it says
    otherwise.  Slices are indexed with Rust's bounds checks.

    A loop that the code does not bound takes fuel, and running out of it is a fault,
    [Diverge], which no theorem counts as a result: [EntriesFuel] (entries of a section;
    enough when it exceeds their number, [try_new_correct]), [ExprFuel] (register requests
    of a DWARF expression; a hypothesis of the theorems, [exprs_ok], that expressions finish
    within it), [ChainFuel] (chained PE unwind infos; the length of the chain is enough,
    [chained_info_correct]).  The x86_64 prologue loop and [collect_frames] take fuel too:
    the first gets the length of its slice, which the theorems show is enough, the second
    is the caller's loop, and [iteration_terminates] says that some amount is enough.

    ** Not modelled

    The derived [Debug] implementations and the [eprintln!] of [add_module] have no effect
    on unwinding.  The integration tests run over recorded binaries, which only the parsers
    outside this repository can read.  The allocation policies of [cache.rs] are
    storage type parameters of gimli.  The accessors of [Module] and [RuleCache::stats]
    return fields, [FallibleIterator] forwards to [next].  Atomicity of the generation counter is taken from
    [AtomicU16::fetch_add]: concurrent draws are interleaved steps of the transition system
    in [Modules]. *)

From stdpp Require Export prelude.
From Stdlib Require Export ZArith Lia.

Global Set Default Goal Selector "!".
Global Open Scope Z_scope.

(** * Rust outcomes

    [may A] is the outcome of evaluating a Rust expression of type [A]: a value,
    or a fault, which is a panic or a loop that outlives the fuel its definition was
    given.  [result A E] is Rust's [Result]. *)

Inductive fault : Type := Panicking | Diverging.

Inductive may (A : Type) : Type :=
| Val (a : A)
| Fault (f : fault).
Arguments Val {A} a.
Arguments Fault {A} f.

Abbreviation Panic := (Fault Panicking).
Abbreviation Diverge := (Fault Diverging).

#[export] Instance fault_eq_dec : EqDecision fault.
Proof. solve_decision. Defined.

Inductive result (A E : Type) : Type :=
| Ok (a : A)
| Err (e : E).
Arguments Ok {A E} a.
Arguments Err {A E} e.

#[export] Instance may_ret : MRet may := λ A a, Val a.
#[export] Instance may_bind : MBind may := λ A B f m,
  match m with Val a => f a | Fault k => Fault k end.

#[export] Instance result_eq_dec {A E} `{EqDecision A, EqDecision E} :
  EqDecision (result A E).
Proof. solve_decision. Defined.
#[export] Instance may_eq_dec {A} `{EqDecision A} : EqDecision (may A).
Proof. solve_decision. Defined.

(** [Option::ok_or], [Result::ok], [Result::map_err]. *)
Definition ok_or {A E} (o : option A) (e : E) : result A E :=
  match o with Some a => Ok a | None => Err e end.
Definition result_ok {A E} (r : result A E) : option A :=
  match r with Ok a => Some a | Err _ => None end.
Definition map_err {A E F} (f : E → F) (r : result A E) : result A F :=
  match r with Ok a => Ok a | Err e => Err (f e) end.

(** A computation over a mutable state [S] (what the code reaches through
    [&mut] parameters) that returns [Result<A, E>] or panics.  Writes made before
    an [Err] is returned stay in the state, as they do in the code. *)
Definition M (S E A : Type) : Type := S → may (result A E * S).

#[export] Instance M_ret {S E} : MRet (M S E) := λ A a s, Val (Ok a, s).
#[export] Instance M_bind {S E} : MBind (M S E) := λ A B f m s,
  match m s with
  | Val (Ok a, s') => f a s'
  | Val (Err e, s') => Val (Err e, s')
  | Fault k => Fault k
  end.

Definition throw {S E A} (e : E) : M S E A := λ s, Val (Err e, s).
Definition get_state {S E} : M S E S := λ s, Val (Ok s, s).
Definition put_state {S E} (s : S) : M S E () := λ _, Val (Ok (), s).
(** A pure expression that may panic. *)
Definition lift {S E A} (m : may A) : M S E A := λ s,
  match m with Val a => Val (Ok a, s) | Fault k => Fault k end.
(** The [?] operator on a [Result] computed without touching the state. *)
Definition try_ {S E A} (r : result A E) : M S E A := λ s, Val (r, s).
(** A call that uses one component of the state. *)
Definition zoom_snd {C S E A} (m : M S E A) : M (C * S) E A := λ cs,
  match m cs.2 with
  | Val (r, s') => Val (r, (cs.1, s'))
  | Fault k => Fault k
  end.

(** * Machine integers

    A [w]-bit integer is a [Z]; [is_uint w] and [is_sint w] are the ranges of the
    unsigned and signed types, [wrap w] is the reduction an unsigned [as] cast or a
    wrapping operation performs, [sext w] the one a signed [as] cast performs. *)

Definition is_uint (w z : Z) : Prop := 0 ≤ z < 2 ^ w.
Definition is_sint (w z : Z) : Prop := - 2 ^ (w - 1) ≤ z < 2 ^ (w - 1).
Definition in_uint (w z : Z) : bool := (0 <=? z) && (z <? 2 ^ w).
Definition in_sint (w z : Z) : bool := (- 2 ^ (w - 1) <=? z) && (z <? 2 ^ (w - 1)).
Definition wrap (w z : Z) : Z := z mod 2 ^ w.
Definition sext (w z : Z) : Z :=
  let u := wrap w z in if u <? 2 ^ (w - 1) then u else u - 2 ^ w.

Abbreviation is_u64 := (is_uint 64).
Abbreviation is_u32 := (is_uint 32).
Abbreviation is_u16 := (is_uint 16).
Abbreviation is_u8 := (is_uint 8).
Abbreviation is_i64 := (is_sint 64).
Abbreviation is_i32 := (is_sint 32).
Abbreviation is_i16 := (is_sint 16).

(** Whether the crate is built with overflow checks (a debug build) or without
    (a release build, where arithmetic wraps). *)
Class Profile : Type := overflow_checks : bool.
Definition debug_profile : Profile := true.
Definition release_profile : Profile := false.

(** The value of an unsigned, or signed, [w]-bit operator whose exact result is
    [z]. *)
Definition uarith `{Profile} (w z : Z) : may Z :=
  if in_uint w z then Val z else if overflow_checks then Panic else Val (wrap w z).
Definition sarith `{Profile} (w z : Z) : may Z :=
  if in_sint w z then Val z else if overflow_checks then Panic else Val (sext w z).

(** [uN::checked_add], [iN::checked_add], [uN::checked_sub], and [try_from]. *)
Definition checked_uint (w z : Z) : option Z := if in_uint w z then Some z else None.
Definition checked_sint (w z : Z) : option Z := if in_sint w z then Some z else None.

(** * Slices

    A byte slice is a list of [Z]; offsets are [usize], written as [Z]. *)

Definition slice_from {A} (l : list A) (i : Z) : may (list A) :=
  if (0 <=? i) && (i <=? Z.of_nat (length l)) then Val (drop (Z.to_nat i) l) else Panic.
Definition slice_to {A} (l : list A) (i : Z) : may (list A) :=
  if (0 <=? i) && (i <=? Z.of_nat (length l)) then Val (take (Z.to_nat i) l) else Panic.
(** [l.get(i..j)]. *)
Definition slice_get {A} (l : list A) (i j : Z) : option (list A) :=
  if (0 <=? i) && (i <=? j) && (j <=? Z.of_nat (length l))
  then Some (take (Z.to_nat (j - i)) (drop (Z.to_nat i) l)) else None.
(** [l\[i..j\]]. *)
Definition slice_range {A} (l : list A) (i j : Z) : may (list A) :=
  match slice_get l i j with Some r => Val r | None => Panic end.
Definition index {A} (l : list A) (i : Z) : may A :=
  if 0 <=? i then match l !! Z.to_nat i with Some x => Val x | None => Panic end
  else Panic.
Definition split_at {A} (l : list A) (i : Z) : may (list A * list A) :=
  if (0 <=? i) && (i <=? Z.of_nat (length l))
  then Val (take (Z.to_nat i) l, drop (Z.to_nat i) l) else Panic.

(** [u32::from_le_bytes]. *)
Definition u32_from_le_bytes (b0 b1 b2 b3 : Z) : Z :=
  b0 + 2 ^ 8 * b1 + 2 ^ 16 * b2 + 2 ^ 24 * b3.

(** The successful outcome of a computation, if that is how it ends. *)
Definition run_ok {S E A} (m : M S E A) (s : S) : option (A * S) :=
  match m s with Val (Ok a, s') => Some (a, s') | _ => None end.

(** * Reading the stack

    [read_stack] is the caller's [FnMut(u64) -> Result<u64, ()>]: it may change its
    own state [St], and its result type makes every value it yields a [u64]. *)
Class StackReader (St : Type) : Type := {
  read_stack : Z → St → result Z () * St;
  read_stack_u64 a s v s' : read_stack a s = (Ok v, s') → is_u64 v;
}.

(** A reader that answers from an unchanging memory. *)
Class PureReader (St : Type) `{StackReader St} : Prop :=
  read_stack_pure a s : (read_stack a s).2 = s.

(** [read_stack(addr).map_err(|_| err)?] and a plain [read_stack(addr)], in a
    computation over some registers and the reader's state. *)
Definition read_or {R St E} `{StackReader St} (addr : Z) (err : E) : M (R * St) E Z :=
  λ s, let '(r, st) := read_stack addr s.2 in
       Val (map_err (λ _, err) r, (s.1, st)).
Definition read_raw {R St E} `{StackReader St} (addr : Z) :
  M (R * St) E (result Z ()) :=
  λ s, let '(r, st) := read_stack addr s.2 in Val (Ok r, (s.1, st)).
Definition get_regs {R St E} : M (R * St) E R := λ s, Val (Ok s.1, s).
Definition put_regs {R St E} (r : R) : M (R * St) E () := λ s, Val (Ok (), (r, s.2)).

(** * Reasoning about the integers *)

Ltac unfold_ranges :=
  unfold is_uint, is_sint in *;
  change (64 - 1) with 63 in *; change (32 - 1) with 31 in *;
  change (16 - 1) with 15 in *; change (8 - 1) with 7 in *.

(** Closes a goal about the ranges of machine integers. *)
Ltac range := unfold_ranges; lia.

Lemma in_uint_spec w z : BoolSpec (is_uint w z) (¬ is_uint w z) (in_uint w z).
Proof.
  unfold in_uint, is_uint.
  destruct (Z.leb_spec 0 z), (Z.ltb_spec z (2 ^ w)); constructor; lia.
Qed.

Lemma in_sint_spec w z : BoolSpec (is_sint w z) (¬ is_sint w z) (in_sint w z).
Proof.
  unfold in_sint, is_sint.
  destruct (Z.leb_spec (- 2 ^ (w - 1)) z), (Z.ltb_spec z (2 ^ (w - 1)));
    constructor; lia.
Qed.

Lemma in_uint_true w z : is_uint w z → in_uint w z = true.
Proof. by destruct (in_uint_spec w z). Qed.
Lemma in_uint_false w z : ¬ is_uint w z → in_uint w z = false.
Proof. by destruct (in_uint_spec w z). Qed.

Lemma wrap_range w z : 0 ≤ w → is_uint w (wrap w z).
Proof. intros Hw. apply Z.mod_pos_bound. by apply Z.pow_pos_nonneg. Qed.

Lemma wrap_id w z : is_uint w z → wrap w z = z.
Proof. apply Z.mod_small. Qed.

Lemma wrap_wrap_add w a b : wrap w (a + wrap w b) = wrap w (a + b).
Proof. unfold wrap. apply Zplus_mod_idemp_r. Qed.

(** Adding one modulus at most brings an out-of-range sum back. *)
Lemma wrap_above w z : 2 ^ w ≤ z < 2 * 2 ^ w → wrap w z = z - 2 ^ w.
Proof. intros Hz. symmetry. apply (Zmod_unique _ _ 1); lia. Qed.
Lemma wrap_below w z : - 2 ^ w ≤ z < 0 → wrap w z = z + 2 ^ w.
Proof. intros Hz. symmetry. apply (Zmod_unique _ _ (-1)); lia. Qed.

Lemma sext_id w z : 0 < w → is_sint w z → sext w z = z.
Proof.
  intros Hw Hz. unfold sext, is_sint in *.
  assert (Hp : 2 ^ w = 2 * 2 ^ (w - 1)).
  { rewrite <- Z.pow_succ_r by lia. f_equal. lia. }
  destruct (decide (0 ≤ z)) as [Hs|Hs].
  - rewrite wrap_id by (unfold is_uint; lia). destruct (Z.ltb_spec z (2 ^ (w - 1))); lia.
  - rewrite wrap_below by lia. destruct (Z.ltb_spec (z + 2 ^ w) (2 ^ (w - 1))); lia.
Qed.

Lemma sext_range w z : 0 < w → is_sint w (sext w z).
Proof.
  intros Hw. pose proof (wrap_range w z ltac:(lia)) as Hr.
  unfold sext, is_sint, is_uint in *.
  assert (Hp : 2 ^ w = 2 * 2 ^ (w - 1)).
  { rewrite <- Z.pow_succ_r by lia. f_equal. lia. }
  destruct (Z.ltb_spec (wrap w z) (2 ^ (w - 1))); lia.
Qed.

Lemma uarith_ok `{Profile} w z : is_uint w z → uarith w z = Val z.
Proof. intros Hz. unfold uarith. by rewrite in_uint_true. Qed.
Lemma sarith_ok `{Profile} w z : is_sint w z → sarith w z = Val z.
Proof. intros Hz. unfold sarith. by destruct (in_sint_spec w z). Qed.

(** Whatever the profile, an operator yields a value of its type. *)
Lemma uarith_range `{Profile} w z v : 0 ≤ w → uarith w z = Val v → is_uint w v.
Proof.
  intros Hw. unfold uarith.
  destruct (in_uint_spec w z), overflow_checks; intros [= <-]; auto using wrap_range.
Qed.

Lemma checked_uint_Some w z v : checked_uint w z = Some v ↔ v = z ∧ is_uint w z.
Proof. unfold checked_uint. destruct (in_uint_spec w z); split; intros; by simplify_eq; destruct_and?; simplify_eq. Qed.
Lemma checked_uint_None w z : checked_uint w z = None ↔ ¬ is_uint w z.
Proof. unfold checked_uint. by destruct (in_uint_spec w z). Qed.
Lemma checked_sint_Some w z v : checked_sint w z = Some v ↔ v = z ∧ is_sint w z.
Proof. unfold checked_sint. destruct (in_sint_spec w z); split; intros; by simplify_eq; destruct_and?; simplify_eq. Qed.
Lemma checked_sint_None w z : checked_sint w z = None ↔ ¬ is_sint w z.
Proof. unfold checked_sint. by destruct (in_sint_spec w z). Qed.
Lemma checked_uint_ok w z : is_uint w z → checked_uint w z = Some z.
Proof. intros. by apply checked_uint_Some. Qed.
Lemma checked_sint_ok w z : is_sint w z → checked_sint w z = Some z.
Proof. intros. by apply checked_sint_Some. Qed.

(** * Computations that return *)


(** A computation that yields a value. *)
Definition returns {A} (m : may A) : Prop := ∃ a, m = Val a.

Lemma returns_val {A} (a : A) : returns (Val a).
Proof. by eexists. Qed.
Lemma returns_bind {A B} (m : may A) (k : A → may B) :
  returns m → (∀ a, m = Val a → returns (k a)) → returns (m ≫= k).
Proof. intros [a Hm] Hk. rewrite Hm. by apply Hk. Qed.
Lemma uarith_returns `{Profile} w z : overflow_checks = false → returns (uarith w z).
Proof. intros Hrel. unfold uarith. rewrite Hrel. by case_match; eexists. Qed.
Lemma sarith_returns `{Profile} w z : overflow_checks = false → returns (sarith w z).
Proof. intros Hrel. unfold sarith. rewrite Hrel. by case_match; eexists. Qed.
Lemma slice_range_returns {A} (l : list A) i j :
  0 ≤ i ≤ j → j ≤ Z.of_nat (length l) → returns (slice_range l i j).
Proof.
  intros Hij Hj. unfold slice_range, slice_get.
  destruct (Z.leb_spec 0 i), (Z.leb_spec i j), (Z.leb_spec j (Z.of_nat (length l))); try lia.
  by eexists.
Qed.
Lemma index_returns {A} (l : list A) i :
  0 ≤ i < Z.of_nat (length l) → returns (index l i).
Proof.
  intros Hi. unfold index. destruct (Z.leb_spec 0 i); [|lia].
  destruct (lookup_lt_is_Some_2 l (Z.to_nat i)) as [x ->]; [lia|]. by eexists.
Qed.
Lemma split_at_returns {A} (l : list A) i :
  0 ≤ i ≤ Z.of_nat (length l) →
  split_at l i = Val (take (Z.to_nat i) l, drop (Z.to_nat i) l).
Proof.
  intros Hi. unfold split_at.
  destruct (Z.leb_spec 0 i), (Z.leb_spec i (Z.of_nat (length l))); try lia. done.
Qed.
Lemma slice_from_returns {A} (l : list A) i :
  0 ≤ i ≤ Z.of_nat (length l) → slice_from l i = Val (drop (Z.to_nat i) l).
Proof.
  intros Hi. unfold slice_from.
  destruct (Z.leb_spec 0 i), (Z.leb_spec i (Z.of_nat (length l))); try lia. done.
Qed.

Create HintDb returns.
#[export] Hint Resolve returns_val uarith_returns sarith_returns slice_range_returns
  index_returns : returns.
(** One step of showing that a computation returns. *)
Ltac returns_step :=
  lazymatch goal with
  | |- returns (_ ≫= _) => apply returns_bind; [|intros ? ?]
  | |- returns (match ?x with _ => _ end) => destruct x eqn:?
  | |- returns _ => solve [auto with returns]
  end.

(** * Weakest preconditions of computations

    [wp pan m Q s]: run from [s], [m] ends in a result and state satisfying [Q];
    [pan] is [False] where a fault must be excluded and the condition for one where it
    may happen. *)

Definition wp {S E A} (pan : Prop) (m : M S E A) (Q : result A E → S → Prop)
    (s : S) : Prop :=
  match m s with Val (r, s') => Q r s' | Fault _ => pan end.

Section Wp.
Context {S E : Type} (pan : Prop).

Lemma wp_ret {A} (a : A) (Q : result A E → S → Prop) s :
  Q (Ok a) s → wp pan (mret a) Q s.
Proof. done. Qed.

Lemma wp_bind {A B} (m : M S E A) (f : A → M S E B) Q s :
  wp pan m (λ r s', match r with
                    | Ok a => wp pan (f a) Q s'
                    | Err e => Q (Err e) s' end) s →
  wp pan (m ≫= f) Q s.
Proof. unfold wp, mbind, M_bind. by destruct (m s) as [[[a|e] s']|]. Qed.

Lemma wp_throw {A} (e : E) (Q : result A E → S → Prop) s :
  Q (Err e) s → wp pan (throw e) Q s.
Proof. done. Qed.

Lemma wp_try {A} (r : result A E) (Q : result A E → S → Prop) s :
  Q r s → wp pan (try_ r) Q s.
Proof. done. Qed.

Lemma wp_lift {A} (m : may A) (Q : result A E → S → Prop) s :
  (∀ a, m = Val a → Q (Ok a) s) → (∀ k, m = Fault k → pan) → wp pan (lift m) Q s.
Proof. unfold wp, lift. destruct m; eauto. Qed.

Lemma wp_mono {A} (m : M S E A) (Q Q' : result A E → S → Prop) s :
  (∀ r s', Q r s' → Q' r s') → wp pan m Q s → wp pan m Q' s.
Proof. unfold wp. destruct (m s) as [[r s']|]; auto. Qed.

Lemma wp_and {A} (m : M S E A) (Q Q' : result A E → S → Prop) s :
  wp pan m Q s → wp pan m Q' s → wp pan m (λ r s', Q r s' ∧ Q' r s') s.
Proof. unfold wp. destruct (m s) as [[r s']|]; auto. Qed.

(** From a weakest precondition to a fact about one run. *)
Lemma wp_run {A} (m : M S E A) (Q : result A E → S → Prop) s r s' :
  wp pan m Q s → m s = Val (r, s') → Q r s'.
Proof. unfold wp. intros Hwp Hm. by rewrite Hm in Hwp. Qed.

Lemma wp_zoom_snd {C A} (m : M S E A) (Q : result A E → C * S → Prop) cs :
  wp pan m (λ r s', Q r (cs.1, s')) cs.2 → wp pan (zoom_snd m) Q cs.
Proof. unfold wp, zoom_snd. by destruct (m cs.2) as [[r s']|]. Qed.
End Wp.

(** The rule of consequence. *)
Lemma wp_conseq {S E A} (pan pan' : Prop) (m : M S E A) (Q Q' : result A E → S → Prop) s :
  (pan → pan') → (∀ r s', Q r s' → Q' r s') → wp pan m Q s → wp pan' m Q' s.
Proof. unfold wp. destruct (m s) as [[r s']|]; auto. Qed.

Lemma wp_no_panic {S E A} (m : M S E A) Q s :
  wp False m Q s → ∃ r s', m s = Val (r, s') ∧ Q r s'.
Proof. unfold wp. destruct (m s) as [[r s']|]; [eauto|done]. Qed.

Section WpRead.
Context {R St E : Type} `{StackReader St} (pan : Prop).

Lemma wp_read_or addr (err : E) (Q : result Z E → R * St → Prop) s :
  (∀ v st, read_stack addr s.2 = (Ok v, st) → is_u64 v → Q (Ok v) (s.1, st)) →
  (∀ st, read_stack addr s.2 = (Err tt, st) → Q (Err err) (s.1, st)) →
  wp pan (read_or addr err) Q s.
Proof.
  unfold wp, read_or. intros Hok Herr.
  destruct (read_stack addr s.2) as [[v|[]] st] eqn:Hr; simpl; eauto using read_stack_u64.
Qed.

Lemma wp_read_raw addr (Q : result (result Z ()) E → R * St → Prop) s :
  (∀ v st, read_stack addr s.2 = (Ok v, st) → is_u64 v → Q (Ok (Ok v)) (s.1, st)) →
  (∀ st, read_stack addr s.2 = (Err tt, st) → Q (Ok (Err tt)) (s.1, st)) →
  wp pan (read_raw addr) Q s.
Proof.
  unfold wp, read_raw. intros Hok Herr.
  destruct (read_stack addr s.2) as [[v|[]] st] eqn:Hr; simpl; eauto using read_stack_u64.
Qed.

Lemma wp_get_regs (Q : result R E → R * St → Prop) s :
  Q (Ok s.1) s → wp pan get_regs Q s.
Proof. done. Qed.
Lemma wp_put_regs (r : R) (Q : result () E → R * St → Prop) s :
  Q (Ok ()) (r, s.2) → wp pan (put_regs r) Q s.
Proof. done. Qed.
End WpRead.

(** One step of symbolic execution of a computation. *)
Ltac wp_step :=
  lazymatch goal with
  | |- wp _ (_ ≫= _) _ _ => apply wp_bind
  | |- wp _ (mret _) _ _ => apply wp_ret
  | |- wp _ (throw _) _ _ => apply wp_throw
  | |- wp _ get_regs _ _ => apply wp_get_regs
  | |- wp _ (put_regs _) _ _ => apply wp_put_regs
  | |- wp _ (try_ _) _ _ => apply wp_try
  | |- wp _ (read_or _ _) _ _ => apply wp_read_or; intros
  | |- wp _ (read_raw _) _ _ => apply wp_read_raw; intros
  | |- wp _ (lift _) _ _ => apply wp_lift; intros
  | |- wp _ (zoom_snd _) _ _ => apply wp_zoom_snd
  | |- wp _ (match ?x with _ => _ end) _ _ => destruct x eqn:?
  end; cbn [fst snd] in *.
Ltac wp_steps := repeat (wp_step; simpl).

(** * Successful runs *)

Section RunOk.
Context {S E : Type}.

Lemma run_ok_Some {A} (m : M S E A) s a s' :
  run_ok m s = Some (a, s') ↔ m s = Val (Ok a, s').
Proof. unfold run_ok. split; [|by intros ->]. repeat case_match; by intros [= <- <-]. Qed.
Lemma run_ok_bind {A B} (m : M S E A) (k : A → M S E B) s :
  run_ok (m ≫= k) s = run_ok m s ≫= λ p, run_ok (k p.1) p.2.
Proof. unfold run_ok, mbind, M_bind. by destruct (m s) as [[[a|e] s']|]. Qed.
Lemma run_ok_ret {A} (a : A) s : run_ok (mret a : M S E A) s = Some (a, s).
Proof. done. Qed.
Lemma run_ok_throw {A} (e : E) s : run_ok (throw e : M S E A) s = None.
Proof. done. Qed.
Lemma run_ok_try {A} (o : option A) (e : E) (s : S) :
  run_ok (try_ (ok_or o e)) s = (λ a, (a, s)) <$> o.
Proof. by destruct o. Qed.
Lemma run_ok_lift {A} (m : may A) (s : S) :
  run_ok (lift m : M S E A) s =
    match m with Val a => Some (a, s) | Fault _ => None end.
Proof. unfold run_ok, lift. by destruct m. Qed.
End RunOk.

Create Rewrite HintDb run_ok.
#[export] Hint Rewrite @run_ok_bind @run_ok_ret @run_ok_throw @run_ok_try @run_ok_lift
  : run_ok.

(** * Memory seen through a pure reader *)

Section Memory.
Context {St : Type} `{PureReader St}.

(** The contents of the stack memory: defined only at 64-bit addresses. *)
Definition memory (st : St) (a : Z) : option Z :=
  if in_uint 64 a then result_ok (read_stack a st).1 else None.

Lemma memory_u64 st a v : memory st a = Some v → is_u64 a ∧ is_u64 v.
Proof.
  unfold memory. destruct (in_uint_spec 64 a) as [Ha|]; [|done].
  destruct (read_stack a st) as [[w|e] st'] eqn:Hr; simpl; [|done].
  intros [= ->]. eauto using read_stack_u64.
Qed.

Lemma memory_addr st a v : memory st a = Some v → is_u64 a.
Proof. intros Hm. by apply memory_u64 in Hm as [? _]. Qed.
Lemma memory_val st a v : memory st a = Some v → is_u64 v.
Proof. intros Hm. by apply memory_u64 in Hm as [_ ?]. Qed.

Lemma read_stack_memory st a :
  is_u64 a →
  read_stack a st = (match memory st a with Some v => Ok v | None => Err tt end, st).
Proof.
  intros Ha. unfold memory. rewrite in_uint_true by done.
  pose proof (read_stack_pure a st).
  destruct (read_stack a st) as [[v|[]] st']; simpl in *; by subst.
Qed.

Lemma read_or_memory {R E} (r : R) st a (err : E) :
  is_u64 a →
  read_or a err (r, st) =
    Val (match memory st a with Some v => Ok v | None => Err err end, (r, st)).
Proof.
  intros Ha. unfold read_or; simpl. rewrite read_stack_memory by done.
  by destruct (memory st a).
Qed.

Lemma run_ok_read_or {R E} (r : R) st a (err : E) :
  is_u64 a →
  run_ok (read_or a err) (r, st) = (λ v, (v, (r, st))) <$> memory st a.
Proof.
  intros Ha. unfold run_ok. rewrite read_or_memory by done. by destruct (memory st a).
Qed.
Lemma run_ok_get_regs {R E} (r : R) st :
  run_ok (get_regs : M (R * St) E R) (r, st) = Some (r, (r, st)).
Proof. done. Qed.
Lemma run_ok_put_regs {R E} (r r' : R) st :
  run_ok (put_regs r' : M (R * St) E ()) (r, st) = Some ((), (r', st)).
Proof. done. Qed.

Lemma read_raw_memory {R E} (r : R) st a :
  is_u64 a →
  read_raw (E := E) a (r, st) =
    Val (Ok (match memory st a with Some v => Ok v | None => Err tt end), (r, st)).
Proof.
  intros Ha. unfold read_raw; simpl. by rewrite read_stack_memory by done.
Qed.
End Memory.

#[export] Hint Rewrite @run_ok_get_regs @run_ok_put_regs : run_ok.

(** Replaces a memory access by the value a hypothesis gives it. *)
Ltac rewrite_memory :=
  repeat match goal with Hm : memory _ _ = _ |- _ => rewrite Hm; simpl end.

(** * Concrete readers

    A stack given as a list of words at addresses [0, 8, 16, ...] (the tests of the
    crate read [stack\[addr / 8\]]), and an arbitrary partial memory. *)

Definition read_words (a : Z) (stack : list Z) : result Z () * list Z :=
  (match stack !! Z.to_nat (a / 8) with Some v => Ok (wrap 64 v) | None => Err tt end,
   stack).

#[export] Instance words_reader : StackReader (list Z).
Proof.
  refine {| read_stack := read_words |}.
  intros a s v s'. unfold read_words. destruct (s !! _); intros [= <- <-].
  by apply wrap_range.
Defined.
#[export] Instance words_pure : PureReader (list Z).
Proof. done. Qed.

Definition read_map (a : Z) (m : Z → option Z) : result Z () * (Z → option Z) :=
  (match m a with Some v => Ok (wrap 64 v) | None => Err tt end, m).

#[export] Instance map_reader : StackReader (Z → option Z).
Proof.
  refine {| read_stack := read_map |}.
  intros a s v s'. unfold read_map. destruct (s a); intros [= <- <-].
  by apply wrap_range.
Defined.
#[export] Instance map_pure : PureReader (Z → option Z).
Proof. done. Qed.
