(* ===== verification/AddSigned.v ===== *)
(** Unsigned plus signed addition ([src/add_signed.rs]).  The crate implements the
    trait [AddSigned] for [u64] and for [u32] with the same two bodies; the
    definitions take the width as an argument. *)

From S2P Require Import Prelude.

(** [self.wrapping_add(rhs as uN)]. *)
Definition wrapping_add_signed (w lhs rhs : Z) : Z := wrap w (lhs + wrap w rhs).

Definition checked_add_signed (w lhs rhs : Z) : option Z :=
  let res := wrapping_add_signed w lhs rhs in
  if ((0 <=? rhs) && (lhs <=? res)) || ((rhs <? 0) && (res <? lhs))
  then Some res else None.

Lemma wrapping_add_signed_range w a b :
  0 ≤ w → is_uint w (wrapping_add_signed w a b).
Proof. apply wrap_range. Qed.

(** The comparison of the wrapped sum with the first operand detects exactly the
    sums that leave the range of the type. *)
Lemma checked_add_signed_checked w a b :
  0 < w → is_uint w a → is_sint w b →
  checked_add_signed w a b = checked_uint w (a + b).
Proof.
  intros Hw Ha Hb. unfold checked_add_signed, wrapping_add_signed, checked_uint.
  rewrite wrap_wrap_add. unfold is_uint, is_sint in *.
  assert (Hp : 2 ^ w = 2 * 2 ^ (w - 1)).
  { rewrite <- Z.pow_succ_r by lia. f_equal. lia. }
  destruct (in_uint_spec w (a + b)) as [Hr|Hr]; unfold is_uint in Hr.
  - rewrite wrap_id by done.
    destruct (Z.leb_spec 0 b), (Z.leb_spec a (a + b)), (Z.ltb_spec b 0),
      (Z.ltb_spec (a + b) a); simpl; done || lia.
  - destruct (decide (a + b < 0)).
    + rewrite wrap_below by lia.
      destruct (Z.leb_spec 0 b), (Z.leb_spec a (a + b + 2 ^ w)), (Z.ltb_spec b 0),
        (Z.ltb_spec (a + b + 2 ^ w) a); simpl; done || lia.
    + rewrite wrap_above by lia.
      destruct (Z.leb_spec 0 b), (Z.leb_spec a (a + b - 2 ^ w)), (Z.ltb_spec b 0),
        (Z.ltb_spec (a + b - 2 ^ w) a); simpl; done || lia.
Qed.

(** The comparison form of the code is specific to one machine word; callers use
    these two facts at 64 bits. *)
Lemma checked_add_signed_64_Some a b v :
  is_u64 a → is_i64 b → checked_add_signed 64 a b = Some v → v = a + b ∧ is_u64 v.
Proof.
  intros Ha Hb. rewrite checked_add_signed_checked by done.
  intros [-> ?]%checked_uint_Some. done.
Qed.
Lemma checked_add_signed_64_ok a b :
  is_u64 a → is_i64 b → is_u64 (a + b) → checked_add_signed 64 a b = Some (a + b).
Proof. intros. rewrite checked_add_signed_checked by done. by apply checked_uint_ok. Qed.

(** Checked addition of a signed offset to an unsigned word, which the code
    decides by comparing the wrapped sum with the first operand, returns the exact
    sum when it fits the word and [None] otherwise, at the two widths of the crate. *)
Lemma checked_add_signed_exact (w a b : Z) :
  w = 32 ∨ w = 64 → is_uint w a → is_sint w b →
  checked_add_signed w a b = (if in_uint w (a + b) then Some (a + b) else None).
Proof. intros [-> | ->]; intros; by apply checked_add_signed_checked. Qed.

Lemma checked_add_signed_exact_witness :
  checked_add_signed 64 (2 ^ 64 - 6) 6 = None ∧
  checked_add_signed 64 (2 ^ 64 - 6) (-5) = Some (2 ^ 64 - 11).
Proof.
  split.
  - refine (eq_trans (checked_add_signed_exact 64 _ 6 (or_intror eq_refl) _ _) _);
      [range|range|reflexivity].
  - refine (eq_trans (checked_add_signed_exact 64 _ (-5) (or_intror eq_refl) _ _) _);
      [range|range|reflexivity].
Defined.
