(* ===== verification/CodeAddress.v ===== *)
(** Code addresses of frames ([src/code_address.rs]). *)

From S2P Require Import Prelude.

(** [ReturnAddress] carries a [NonZeroU64]; [wf_frame_address] is that invariant of
    the type. *)
Inductive FrameAddress : Type :=
| InstructionPointer (address : Z)
| ReturnAddress (address : Z).

#[export] Instance FrameAddress_eq_dec : EqDecision FrameAddress.
Proof. solve_decision. Defined.

Definition wf_frame_address (a : FrameAddress) : Prop :=
  match a with
  | InstructionPointer ip => is_u64 ip
  | ReturnAddress ra => is_u64 ra ∧ ra ≠ 0
  end.

Definition from_instruction_pointer (ip : Z) : FrameAddress := InstructionPointer ip.

(** [NonZeroU64::new] is [None] at zero. *)
Definition from_return_address (return_address : Z) : option FrameAddress :=
  if return_address =? 0 then None else Some (ReturnAddress return_address).

Definition address (self : FrameAddress) : Z :=
  match self with InstructionPointer a => a | ReturnAddress a => a end.

Definition address_for_lookup `{Profile} (self : FrameAddress) : may Z :=
  match self with
  | InstructionPointer a => Val a
  | ReturnAddress a => uarith 64 (a - 1)
  end.

Definition is_return_address (self : FrameAddress) : bool :=
  match self with InstructionPointer _ => false | ReturnAddress _ => true end.

Lemma from_return_address_wf ra a :
  is_u64 ra → from_return_address ra = Some a →
  a = ReturnAddress ra ∧ wf_frame_address a.
Proof.
  intros Hra. unfold from_return_address.
  destruct (Z.eqb_spec ra 0); intros [= <-]; done.
Qed.

(** The subtraction in the lookup address never overflows on a value of the type. *)
Lemma address_for_lookup_wf `{Profile} a :
  wf_frame_address a →
  address_for_lookup a =
    Val (match a with InstructionPointer ip => ip | ReturnAddress ra => ra - 1 end)
  ∧ is_u64 (match a with InstructionPointer ip => ip | ReturnAddress ra => ra - 1 end).
Proof.
  destruct a as [ip|ra]; simpl; intros Ha; [done|].
  split; [apply uarith_ok|]; range.
Qed.
