(* ===== verification/Error.v ===== *)
(** Error types and their conversions ([src/error.rs], and the error enums of
    [src/dwarf.rs], [src/macho.rs] and [src/pe.rs]).  An error of a third-party
    parser that a variant carries is a value of the parameter type [gimli_error] or
    [macho_error]. *)

From S2P Require Import Prelude.

Inductive Error : Type :=
| CouldNotReadStack (addr : Z)
| FramepointerUnwindingMovedBackwards
| DidNotAdvance
| IntegerOverflow
| ReturnAddressIsNull.

#[export] Instance Error_eq_dec : EqDecision Error.
Proof. solve_decision. Defined.

Section ForeignErrors.
Context {gimli_error macho_error : Type}.

Inductive DwarfUnwinderError : Type :=
| FdeFromOffsetFailed (e : gimli_error)
| UnwindInfoForAddressFailed (e : gimli_error)
| DwarfStackPointerMovedBackwards
| DwarfDidNotAdvance
| CouldNotRecoverCfa
| CouldNotRecoverReturnAddress
| CouldNotRecoverFramePointer.

Inductive CompactUnwindInfoUnwinderError : Type :=
| BadFormat (e : macho_error)
| AddressOutsideRange (address : Z)
| CallerCannotBeFrameless
| FunctionHasNoInfo
| BpOffsetDoesNotFit
| BadOpcodeKind (kind : Z)
| BadDwarfUnwinding (e : DwarfUnwinderError)
| NoTextBytesToLookUpIndirectStackOffset
| IndirectStackOffsetOutOfBounds
| StackAdjustOverflow
| StackSizeDoesNotFit
| StubFunctionCannotBeCaller
| InvalidFrameless.

Inductive PeUnwinderError : Type :=
| MissingUnwindInfoData (rva : Z)
| MissingInstructionData (rva : Z)
| MissingStackData (addr : option Z)
| UnwindInfoParseError
| Aarch64Unsupported.

Inductive UnwinderError : Type :=
| CompactUnwindInfo (e : CompactUnwindInfoUnwinderError)
| Dwarf (e : DwarfUnwinderError)
| Pe (e : PeUnwinderError)
| NoDwarfData
| NoModuleUnwindData
| EhFrameHdrCouldNotFindAddress
| DwarfCfiIndexCouldNotFindAddress.

(** The [From] implementations. *)
Definition UnwinderError_from_dwarf (e : DwarfUnwinderError) : UnwinderError := Dwarf e.
Definition UnwinderError_from_pe (e : PeUnwinderError) : UnwinderError := Pe e.
Definition UnwinderError_from_cui (e : CompactUnwindInfoUnwinderError) : UnwinderError :=
  match e with
  | BadDwarfUnwinding e => Dwarf e
  | e => CompactUnwindInfo e
  end.
End ForeignErrors.

Arguments DwarfUnwinderError : clear implicits.
Arguments CompactUnwindInfoUnwinderError : clear implicits.
Arguments UnwinderError : clear implicits.

(** [ConversionError] of [src/dwarf.rs]: why a DWARF row has no cacheable rule. *)
Inductive ConversionError : Type :=
| CfaIsExpression
| CfaIsOffsetFromUnknownRegister
| ReturnAddressRuleWithUnexpectedOffset
| ReturnAddressRuleWasWeird
| SpOffsetDoesNotFit
| RegisterNotStoredRelativeToCfa
| RestoringFpButNotLr
| LrStorageOffsetDoesNotFit
| FpStorageOffsetDoesNotFit
| SpOffsetFromFpDoesNotFit
| FramePointerRuleDoesNotRestoreLr
| FramePointerRuleDoesNotRestoreFp
| FramePointerRuleDoesNotRestoreBp
| FramePointerRuleHasStrangeBpOffset.
