(* ===== verification/Arch.v ===== *)
(** The interface between an architecture and the generic unwinder: the traits [Arch]
    ([src/arch.rs]) and [UnwindRule] ([src/unwind_rule.rs]). *)

From S2P Require Import Prelude Error.

Class Arch : Type := {
  UnwindRegs : Type;
  UnwindRule : Type;
  exec `{Profile} {St : Type} `{StackReader St} :
    UnwindRule → bool → M (UnwindRegs * St) Error (option Z);
  rule_for_stub_functions : UnwindRule;
  rule_for_function_start : UnwindRule;
  fallback_rule : UnwindRule;
}.
