(* ===== verification/X86UnwindRegs.v ===== *)
(** The x86_64 unwind registers ([src/x86_64/unwindregs.rs]). *)

From stdpp Require Import vector fin.
From S2P Require Import Prelude.

Inductive Reg : Type :=
| RAX | RDX | RCX | RBX | RSI | RDI | RBP | RSP
| R8 | R9 | R10 | R11 | R12 | R13 | R14 | R15.

#[export] Instance Reg_eq_dec : EqDecision Reg.
Proof. solve_decision. Defined.

(** [reg as usize]: an index into [\[u64; 16\]]. *)
Definition reg_index (r : Reg) : fin 16 :=
  match r with
  | RAX => 0%fin | RDX => 1%fin | RCX => 2%fin | RBX => 3%fin
  | RSI => 4%fin | RDI => 5%fin | RBP => 6%fin | RSP => 7%fin
  | R8 => 8%fin | R9 => 9%fin | R10 => 10%fin | R11 => FS 10%fin
  | R12 => FS (FS 10%fin) | R13 => FS (FS (FS 10%fin))
  | R14 => FS (FS (FS (FS 10%fin))) | R15 => FS (FS (FS (FS (FS 10%fin))))
  end.

#[export] Instance reg_index_inj : Inj (=) (=) reg_index.
Proof. intros [] []; vm_compute; congruence. Qed.

Record UnwindRegsX86_64 : Type := mk_regs { ip : Z; regs : vec Z 16 }.

Definition get (self : UnwindRegsX86_64) (reg : Reg) : Z :=
  regs self !!! reg_index reg.
Definition set (self : UnwindRegsX86_64) (reg : Reg) (value : Z) : UnwindRegsX86_64 :=
  mk_regs (ip self) (vinsert (reg_index reg) value (regs self)).
Definition set_ip (self : UnwindRegsX86_64) (v : Z) : UnwindRegsX86_64 :=
  mk_regs v (regs self).
Definition sp (self : UnwindRegsX86_64) : Z := get self RSP.
Definition set_sp (self : UnwindRegsX86_64) (v : Z) : UnwindRegsX86_64 := set self RSP v.
Definition bp (self : UnwindRegsX86_64) : Z := get self RBP.
Definition set_bp (self : UnwindRegsX86_64) (v : Z) : UnwindRegsX86_64 := set self RBP v.

Definition new (ip sp bp : Z) : UnwindRegsX86_64 :=
  set_bp (set_sp (mk_regs ip (vreplicate 16 0)) sp) bp.

(** Every register holds a [u64]. *)
Definition wf_regs (r : UnwindRegsX86_64) : Prop :=
  is_u64 (ip r) ∧ ∀ reg, is_u64 (get r reg).

Lemma get_set r reg reg' v :
  get (set r reg v) reg' = if decide (reg = reg') then v else get r reg'.
Proof.
  unfold get, set; simpl. case_decide as Heq; [subst; apply vlookup_insert|].
  apply vlookup_insert_ne. by intros ?%(inj reg_index).
Qed.
Lemma get_set_eq r reg v : get (set r reg v) reg = v.
Proof. rewrite get_set. by rewrite decide_True. Qed.
Lemma get_set_ne r reg reg' v : reg ≠ reg' → get (set r reg v) reg' = get r reg'.
Proof. intros. rewrite get_set. by rewrite decide_False. Qed.
Lemma ip_set r reg v : ip (set r reg v) = ip r.
Proof. done. Qed.
Lemma get_set_ip r v reg : get (set_ip r v) reg = get r reg.
Proof. done. Qed.

(** Two register files are equal when the instruction pointer and every register
    agree. *)
Lemma regs_ext r r' : ip r = ip r' → (∀ reg, get r reg = get r' reg) → r = r'.
Proof.
  destruct r as [i v], r' as [i' v']; simpl. intros -> Hget. f_equal.
  apply vec_eq. intros k.
  assert (∃ reg, reg_index reg = k) as [reg <-]; [|apply Hget].
  clear. repeat (inv_fin k; [by (exists RAX + exists RDX + exists RCX + exists RBX
    + exists RSI + exists RDI + exists RBP + exists RSP + exists R8 + exists R9
    + exists R10 + exists R11 + exists R12 + exists R13 + exists R14 + exists R15)|intros k]).
  inv_fin k.
Qed.

Lemma wf_set r reg v : wf_regs r → is_u64 v → wf_regs (set r reg v).
Proof.
  intros [Hip Hr] Hv. split; [done|]. intros reg'. rewrite get_set. by case_decide.
Qed.
Lemma wf_set_ip r v : wf_regs r → is_u64 v → wf_regs (set_ip r v).
Proof. intros [Hip Hr] Hv. by split. Qed.
Lemma wf_new i s b : is_u64 i → is_u64 s → is_u64 b → wf_regs (new i s b).
Proof.
  intros Hi Hs Hb. unfold new, set_bp, set_sp. do 2 (apply wf_set; [|done]).
  split; [done|]. intros reg. unfold get; cbn [regs]. rewrite vlookup_replicate. range.
Qed.

Create HintDb x86wf.
#[export] Hint Resolve wf_set wf_set_ip wf_new : x86wf.
Create Rewrite HintDb x86regs.
#[export] Hint Rewrite get_set_eq ip_set get_set_ip : x86regs.
#[export] Hint Rewrite get_set_ne using done : x86regs.

(** Computes the registers of an updated file. *)
Ltac simpl_regs :=
  unfold sp, bp, set_sp, set_bp in *; cbn [ip set_ip] in *; autorewrite with x86regs in *.
