(* ===== verification/X86RegisterOrdering.v ===== *)
(** The compressed ordering of callee-saved registers
    ([src/x86_64/register_ordering.rs]): a mixed-radix number that says in which order
    up to eight registers are popped. *)

From S2P Require Import Prelude X86UnwindRegs.
Local Open Scope Z_scope.

Definition ENCODE_REGISTERS : list Reg := [RBX; RBP; RDI; RSI; R12; R13; R14; R15].

(** [slice.swap(a, b)], and the same on the subslice [l\[k..\]]. *)
Definition swap {A} (l : list A) (a b : nat) : may (list A) :=
  match l !! a, l !! b with
  | Some x, Some y => Val (<[a := y]> (<[b := x]> l))
  | _, _ => Panic
  end.
Definition swap_from {A} (k : nat) (l : list A) (a b : nat) : may (list A) :=
  t ← slice_from l (Z.of_nat k);
  t' ← swap t a b;
  Val (take k l ++ t').

(** [slice.iter().position(|r| r == reg)]. *)
Definition position (reg : Reg) (l : list Reg) : option nat :=
  fst <$> list_find (eq reg) l.

(** The [while r != 0] loop; [n] counts down from 8 and the remainder by a zero [n]
    panics. *)
Fixpoint decode_loop (n : nat) (regs : list Reg) (r : Z) : may (list Reg) :=
  if r =? 0 then Val regs else
  match n with
  | O => Panic
  | S n' =>
      let index := r mod Z.of_nat n in
      regs ← (if negb (index =? 0) then swap_from (8 - n) regs (Z.to_nat index) 0
              else Val regs);
      decode_loop n' regs (r / Z.of_nat n)
  end.

Definition decode (count encoded_ordering : Z) : may (list Reg) :=
  regs ← decode_loop 8 ENCODE_REGISTERS encoded_ordering;
  Val (take (Z.to_nat count) regs).

(** The [for (i, reg) in registers.iter().enumerate()] loop. *)
Fixpoint encode_loop `{Profile} (i : nat) (registers reg_order : list Reg)
    (r scale : Z) : may (option Z) :=
  match registers with
  | [] => Val (Some r)
  | reg :: registers' =>
      t ← slice_from reg_order (Z.of_nat i);
      match position reg t with
      | None => Val None
      | Some index =>
          reg_order ← (if negb (Z.of_nat index =? 0) then swap_from i reg_order index 0
                       else Val reg_order);
          product ← uarith 16 (Z.of_nat index * scale);
          r ← uarith 16 (r + product);
          radix ← uarith 16 (8 - Z.of_nat i);
          scale ← uarith 16 (scale * radix);
          encode_loop (S i) registers' reg_order r scale
      end
  end.

Definition encode `{Profile} (registers : list Reg) : may (option (Z * Z)) :=
  if (length ENCODE_REGISTERS <? length registers)%nat then Val None else
  r ← encode_loop 0 registers ENCODE_REGISTERS 0 1;
  match r with
  | Some r => Val (Some (Z.of_nat (length registers), r))
  | None => Val None
  end.

(** * The mixed-radix reading of the two loops *)

(** What swapping position [idx] to the front of the remaining registers does. *)
Definition pull {A} (idx : nat) (rest : list A) : list A :=
  match rest !! idx, rest !! 0%nat with
  | Some x, Some y => <[idx := y]> (<[0%nat := x]> rest)
  | _, _ => rest
  end.

Fixpoint enc (rest regs : list Reg) : option Z :=
  match regs with
  | [] => Some 0
  | reg :: regs' =>
      idx ← position reg rest;
      e ← enc (drop 1 (pull idx rest)) regs';
      Some (Z.of_nat idx + Z.of_nat (length rest) * e)
  end.

Fixpoint dec (n : nat) (rest : list Reg) (r : Z) : list Reg :=
  match n with
  | O => []
  | S n' =>
      let p := pull (Z.to_nat (r mod Z.of_nat n)) rest in
      take 1 p ++ dec n' (drop 1 p) (r / Z.of_nat n)
  end.

Arguments dec : simpl never.

(** The number of ways to draw [k] registers in order from [n]: the bound on the
    encoding. *)
Fixpoint falling (n k : nat) : Z :=
  match k, n with
  | O, _ => 1
  | S k', O => 1
  | S k', S n' => Z.of_nat n * falling n' k'
  end.
Arguments falling : simpl never.

Section Pull.
Context {A : Type}.
Implicit Types (rest : list A) (idx : nat).

Lemma swap_pull rest idx : (idx < length rest)%nat → swap rest idx 0 = Val (pull idx rest).
Proof.
  intros Hi. unfold swap, pull.
  destruct (lookup_lt_is_Some_2 rest idx Hi) as [x ->].
  destruct (lookup_lt_is_Some_2 rest 0%nat ltac:(lia)) as [y ->]. done.
Qed.

Lemma length_pull rest idx : length (pull idx rest) = length rest.
Proof. unfold pull. repeat case_match; by rewrite ?length_insert. Qed.

Lemma pull_0 rest : pull 0 rest = rest.
Proof. destruct rest; done. Qed.

(** Pulling moves the chosen element to the front and permutes the others. *)
Lemma pull_spec rest idx x :
  rest !! idx = Some x →
  ∃ t, pull idx rest = x :: t ∧ rest ≡ₚ x :: t.
Proof.
  destruct rest as [|y rest]; [done|]. unfold pull. destruct idx as [|k]; simpl.
  { intros [= ->]. eauto. }
  intros Hx. rewrite Hx. eexists; split; [done|].
  rewrite <- (take_drop_middle rest k x Hx) at 1.
  rewrite insert_take_drop by eauto using lookup_lt_Some.
  rewrite <- !Permutation_middle. by rewrite Permutation_swap.
Qed.

Lemma swap_from_pull k (pre rest : list A) idx :
  length pre = k → (idx < length rest)%nat →
  swap_from k (pre ++ rest) idx 0 = Val (pre ++ pull idx rest).
Proof.
  intros <- Hi. unfold swap_from, slice_from.
  rewrite length_app, Nat2Z.id. rewrite drop_app_length, take_app_length.
  destruct (Z.leb_spec 0 (Z.of_nat (length pre))); [|lia].
  destruct (Z.leb_spec (Z.of_nat (length pre)) (Z.of_nat (length pre + length rest)));
    [|lia]; simpl.
  by rewrite swap_pull.
Qed.
End Pull.

Lemma position_Some reg l i : position reg l = Some i → l !! i = Some reg.
Proof.
  unfold position. intros [[j x] [Hf ->]]%fmap_Some_1.
  by apply list_find_Some in Hf as (Hx & <- & _).
Qed.
Lemma position_NoDup reg l i : NoDup l → l !! i = Some reg → position reg l = Some i.
Proof.
  intros Hnd Hi. unfold position.
  destruct (list_find (eq reg) l) as [[j x]|] eqn:Hf; simpl.
  - apply list_find_Some in Hf as (Hj & <- & _). f_equal.
    by eapply (NoDup_lookup l).
  - apply list_find_None in Hf. rewrite Forall_forall in Hf.
    destruct (Hf reg); [|done]. by eapply list_elem_of_lookup_2.
Qed.
Lemma position_None reg l : position reg l = None ↔ reg ∉ l.
Proof.
  unfold position. rewrite fmap_None, list_find_None, Forall_forall. naive_solver.
Qed.

Lemma falling_pos n k : 0 < falling n k.
Proof.
  revert n. induction k as [|k IH]; intros [|n]; try done.
  change (falling (S n) (S k)) with (Z.of_nat (S n) * falling n k). specialize (IH n). lia.
Qed.

Lemma falling_succ_r n k : (k < n)%nat → falling n (S k) = falling n k * Z.of_nat (n - k).
Proof.
  revert n. induction k as [|k IH]; intros [|n] Hk; try lia.
  { destruct n; unfold falling; lia. }
  change (falling (S n) (S (S k))) with (Z.of_nat (S n) * falling n (S k)).
  change (falling (S n) (S k)) with (Z.of_nat (S n) * falling n k).
  rewrite IH by lia. replace (S n - S k)%nat with (n - k)%nat by lia. lia.
Qed.

Lemma falling_8 k : (k ≤ 8)%nat → falling 8 k ≤ 40320.
Proof. intros Hk. do 9 (destruct k as [|k]; [vm_compute; congruence|]). lia. Qed.

Lemma falling_mono n k : (k < n)%nat → falling n k ≤ falling n (S k).
Proof. intros Hk. rewrite falling_succ_r by done. pose proof (falling_pos n k). nia. Qed.

Lemma enc_bound rest regs e :
  enc rest regs = Some e →
  0 ≤ e < falling (length rest) (length regs) ∧ (length regs ≤ length rest)%nat.
Proof.
  revert rest e. induction regs as [|reg regs IH]; intros rest e; simpl.
  { intros [= <-]. destruct (length rest); unfold falling; lia. }
  destruct (position reg rest) as [idx|] eqn:Hp; simpl; [|done].
  apply position_Some in Hp. apply lookup_lt_Some in Hp as Hlt.
  destruct (pull_spec rest idx reg Hp) as (t & -> & Hperm). simpl.
  rewrite drop_0. destruct (enc t regs) as [e'|] eqn:He; simpl; [|done].
  intros [= <-]. apply IH in He as [He Hl].
  apply Permutation_length in Hperm. simpl in Hperm. rewrite Hperm in *.
  change (falling (S (length t)) (S (length regs)))
    with (Z.of_nat (S (length t)) * falling (length t) (length regs)). nia.
Qed.

(** The accumulating loop of [encode] computes the mixed-radix number, without any
    16-bit overflow. *)
Lemma encode_loop_enc `{Profile} (registers pre rest : list Reg) (r : Z) :
  (length pre + length rest = 8)%nat → (length registers ≤ length rest)%nat →
  0 ≤ r < falling 8 (length pre) →
  encode_loop (length pre) registers (pre ++ rest) r (falling 8 (length pre)) =
    Val ((λ e, r + falling 8 (length pre) * e) <$> enc rest registers).
Proof.
  revert pre rest r. induction registers as [|reg registers IH];
    intros pre rest r H8 Hl Hr; simpl in *.
  { do 2 f_equal. lia. }
  unfold slice_from. rewrite Nat2Z.id, drop_app_length, length_app.
  destruct (Z.leb_spec 0 (Z.of_nat (length pre))); [|lia].
  destruct (Z.leb_spec (Z.of_nat (length pre)) (Z.of_nat (length pre + length rest)));
    [|lia]; simpl.
  destruct (position reg rest) as [idx|] eqn:Hp; simpl; [|done].
  apply position_Some in Hp. apply lookup_lt_Some in Hp as Hlt.
  set (k := length pre) in *.
  assert (Hk : (k < 8)%nat) by lia.
  pose proof (falling_pos 8 k) as Hpos.
  pose proof (falling_succ_r 8 k Hk) as HS.
  pose proof (falling_8 (S k) ltac:(lia)) as HB.
  assert (Hidx : Z.of_nat idx + 1 ≤ Z.of_nat (8 - k)) by lia.
  assert (Hprod : Z.of_nat idx * falling 8 k + falling 8 k ≤ falling 8 (S k)).
  { rewrite HS. transitivity ((Z.of_nat idx + 1) * falling 8 k); [lia|].
    rewrite (Z.mul_comm (falling 8 k)). apply Z.mul_le_mono_nonneg_r; lia. }
  replace (if negb (Z.of_nat idx =? 0) then swap_from k (pre ++ rest) idx 0
           else Val (pre ++ rest)) with (Val (pre ++ pull idx rest)).
  2:{ destruct (Z.eqb_spec (Z.of_nat idx) 0) as [Hz|Hz]; simpl.
      - replace idx with 0%nat by lia. by rewrite pull_0.
      - by rewrite swap_from_pull. }
  simpl. rewrite (uarith_ok 16 (Z.of_nat idx * _)) by (unfold is_uint; lia). simpl.
  rewrite (uarith_ok 16 (r + _)) by (unfold is_uint; lia). simpl.
  rewrite (uarith_ok 16 (8 - _)) by range. simpl.
  replace (falling 8 k * (8 - Z.of_nat k)) with (falling 8 (S k)) by (rewrite HS; lia).
  rewrite (uarith_ok 16 (falling _ _)) by (unfold is_uint; lia). simpl.
  destruct (pull_spec rest idx reg Hp) as (t & -> & Hperm). simpl. rewrite drop_0.
  apply Permutation_length in Hperm. simpl in Hperm.
  specialize (IH (pre ++ [reg]) t (r + Z.of_nat idx * falling 8 k)).
  rewrite length_app in IH; simpl in IH.
  replace (length pre + 1)%nat with (S k) in IH by (unfold k; lia).
  rewrite <- app_assoc in IH; simpl in IH.
  rewrite IH by lia.
  destruct (enc t registers); simpl; [|done]. do 2 f_equal. rewrite HS.
  rewrite Hperm. replace (8 - k)%nat with (S (length t)) by lia. ring.
Qed.

(** The loop of [decode], early exit included, reads the digits back. *)
Lemma dec_zero n rest : length rest = n → dec n rest 0 = rest.
Proof.
  revert rest. induction n as [|n IH]; intros [|x rest] Hl; try done.
  change (dec (S n) (x :: rest) 0) with
    (take 1 (pull (Z.to_nat (0 mod Z.of_nat (S n))) (x :: rest)) ++
     dec n (drop 1 (pull (Z.to_nat (0 mod Z.of_nat (S n))) (x :: rest)))
       (0 / Z.of_nat (S n))).
  rewrite Z.mod_0_l, Z.div_0_l by lia. simpl. rewrite drop_0, IH; [done|].
  simpl in Hl. lia.
Qed.

Lemma decode_loop_dec n pre rest r :
  length rest = n → (length pre + n = 8)%nat → 0 ≤ r < falling n n →
  decode_loop n (pre ++ rest) r = Val (pre ++ dec n rest r).
Proof.
  revert pre rest r. induction n as [|n IH]; intros pre rest r Hl Hp Hr.
  { unfold falling in Hr. replace r with 0 by lia. destruct rest; [|done]. done. }
  cbn [decode_loop]. destruct (Z.eqb_spec r 0) as [-> | Hz].
  { by rewrite dec_zero. }
  set (idx := r mod Z.of_nat (S n)).
  assert (Hidx : 0 ≤ idx < Z.of_nat (S n)) by (apply Z.mod_pos_bound; lia).
  replace (if negb (idx =? 0) then swap_from (8 - S n) (pre ++ rest) (Z.to_nat idx) 0
           else Val (pre ++ rest)) with (Val (pre ++ pull (Z.to_nat idx) rest)).
  2:{ destruct (Z.eqb_spec idx 0) as [-> | Hi]; simpl; [by rewrite pull_0|].
      rewrite swap_from_pull by lia. done. }
  cbn [mbind may_bind].
  destruct (lookup_lt_is_Some_2 rest (Z.to_nat idx) ltac:(lia)) as [x Hx].
  destruct (pull_spec rest _ x Hx) as (t & Ht & Hperm).
  apply Permutation_length in Hperm. simpl in Hperm.
  change (dec (S n) rest r) with
    (take 1 (pull (Z.to_nat idx) rest) ++
     dec n (drop 1 (pull (Z.to_nat idx) rest)) (r / Z.of_nat (S n))).
  rewrite Ht. simpl. rewrite drop_0.
  rewrite (cons_middle x), app_assoc. rewrite IH; [|lia|rewrite length_app; simpl; lia|].
  - by rewrite <- app_assoc.
  - change (falling (S n) (S n)) with (Z.of_nat (S n) * falling n n) in Hr.
    split; [apply Z.div_pos; lia|]. apply Z.div_lt_upper_bound; lia.
Qed.

Lemma dec_S n rest r x t :
  pull (Z.to_nat (r mod Z.of_nat (S n))) rest = x :: t →
  dec (S n) rest r = x :: dec n t (r / Z.of_nat (S n)).
Proof.
  intros Hp.
  change (dec (S n) rest r) with
    (take 1 (pull (Z.to_nat (r mod Z.of_nat (S n))) rest) ++
     dec n (drop 1 (pull (Z.to_nat (r mod Z.of_nat (S n))) rest)) (r / Z.of_nat (S n))).
  by rewrite Hp.
Qed.

Lemma dec_enc regs rest e :
  enc rest regs = Some e → take (length regs) (dec (length rest) rest e) = regs.
Proof.
  revert rest e. induction regs as [|reg regs IH]; intros rest e; simpl; [done|].
  destruct (position reg rest) as [idx|] eqn:Hp; simpl; [|done].
  apply position_Some in Hp. apply lookup_lt_Some in Hp as Hlt.
  destruct (pull_spec rest idx reg Hp) as (t & Ht & Hperm).
  rewrite Ht. simpl. rewrite drop_0.
  apply Permutation_length in Hperm. simpl in Hperm. rewrite Hperm in *.
  destruct (enc t regs) as [e'|] eqn:He; simpl; [|done]. intros [= <-].
  assert (Hmod : (Z.of_nat idx + Z.of_nat (S (length t)) * e') mod Z.of_nat (S (length t))
                 = Z.of_nat idx).
  { rewrite (Z.mul_comm (Z.of_nat (S _))), Z.mod_add by lia. apply Z.mod_small. lia. }
  assert (Hdiv : (Z.of_nat idx + Z.of_nat (S (length t)) * e') / Z.of_nat (S (length t))
                 = e').
  { rewrite (Z.mul_comm (Z.of_nat (S _))), Z.div_add by lia.
    rewrite Z.div_small by lia. lia. }
  rewrite (dec_S _ _ _ reg t) by (by rewrite Hmod, Nat2Z.id).
  simpl. by rewrite Hdiv, (IH _ _ He).
Qed.

Lemma enc_dec k rest e :
  NoDup rest → (k ≤ length rest)%nat → 0 ≤ e < falling (length rest) k →
  enc rest (take k (dec (length rest) rest e)) = Some e.
Proof.
  revert rest e. induction k as [|k IH]; intros rest e Hnd Hk He.
  { destruct (length rest); unfold falling in He; simpl; f_equal; lia. }
  destruct (length rest) as [|n] eqn:Hlen; [lia|].
  change (falling (S n) (S k)) with (Z.of_nat (S n) * falling n k) in He.
  set (idx := e mod Z.of_nat (S n)).
  assert (Hidx : 0 ≤ idx < Z.of_nat (S n)) by (apply Z.mod_pos_bound; lia).
  destruct (lookup_lt_is_Some_2 rest (Z.to_nat idx) ltac:(lia)) as [x Hx].
  destruct (pull_spec rest _ x Hx) as (t & Ht & Hperm).
  rewrite (dec_S _ _ _ x t Ht). simpl.
  rewrite (position_NoDup _ _ _ Hnd Hx). simpl. rewrite Ht. simpl. rewrite drop_0.
  rewrite Hperm in Hnd. apply NoDup_cons in Hnd as [_ Hnd].
  apply Permutation_length in Hperm. rewrite Hlen in Hperm. simpl in Hperm.
  injection Hperm as Hn. specialize (IH t (e / Z.of_nat (S n)) Hnd). rewrite <- Hn in IH.
  rewrite IH; [|lia|].
  - simpl. f_equal. rewrite Z2Nat.id by lia. rewrite Hlen.
    pose proof (Z.div_mod e (Z.of_nat (S n))). unfold idx. lia.
  - split; [apply Z.div_pos; lia|]. apply Z.div_lt_upper_bound; lia.
Qed.

Lemma enc_Some regs rest :
  NoDup rest → NoDup regs → regs ⊆ rest → is_Some (enc rest regs).
Proof.
  revert rest. induction regs as [|reg regs IH]; intros rest Hr Hnd Hsub; simpl; [by eexists|].
  apply NoDup_cons in Hnd as [Hni Hnd].
  destruct (position reg rest) as [idx|] eqn:Hp; simpl.
  2:{ apply position_None in Hp. set_solver. }
  apply position_Some in Hp.
  destruct (pull_spec rest idx reg Hp) as (t & Ht & Hperm). rewrite Ht; simpl. rewrite drop_0.
  rewrite Hperm in Hr. apply NoDup_cons in Hr as [_ Hr].
  destruct (IH t Hr Hnd) as [e ->]; [|by eexists].
  intros y Hy. assert (Hy2 : y ∈ rest) by (apply Hsub; by right).
  rewrite Hperm in Hy2. by apply elem_of_cons in Hy2 as [->|?].
Qed.

Lemma enc_None_sub regs rest e :
  NoDup rest → enc rest regs = Some e → NoDup regs ∧ regs ⊆ rest.
Proof.
  revert rest e. induction regs as [|reg regs IH]; intros rest e Hr; simpl.
  { intros _. split; [constructor|set_solver]. }
  destruct (position reg rest) as [idx|] eqn:Hp; simpl; [|done].
  apply position_Some in Hp.
  destruct (pull_spec rest idx reg Hp) as (t & Ht & Hperm). rewrite Ht; simpl. rewrite drop_0.
  assert (Hr' := Hr). rewrite Hperm in Hr'. apply NoDup_cons in Hr' as [Hni Hr'].
  destruct (enc t regs) as [e'|] eqn:He; simpl; [|done]. intros _.
  destruct (IH t e' Hr' He) as [Hnd Hsub].
  split; [constructor; [intros ?%Hsub|]; done|].
  intros y Hy. rewrite Hperm. apply elem_of_cons in Hy as [->|Hy]; [by left|].
  right. by apply Hsub.
Qed.

Lemma NoDup_ENCODE_REGISTERS : NoDup ENCODE_REGISTERS.
Proof. apply (bool_decide_unpack _). by vm_compute. Qed.

Lemma encode_enc `{Profile} registers :
  encode registers =
    Val ((λ r, (Z.of_nat (length registers), r)) <$> enc ENCODE_REGISTERS registers).
Proof.
  unfold encode.
  destruct (Nat.ltb_spec (length ENCODE_REGISTERS) (length registers)) as [Hl|Hl].
  - destruct (enc ENCODE_REGISTERS registers) as [e|] eqn:He; [|done].
    apply enc_bound in He. lia.
  - change (encode_loop 0 registers ENCODE_REGISTERS 0 1) with
      (encode_loop (length (@nil Reg)) registers ([] ++ ENCODE_REGISTERS) 0
         (falling 8 (length (@nil Reg)))).
    rewrite encode_loop_enc; [|done|done|by vm_compute].
    destruct (enc ENCODE_REGISTERS registers) as [e|]; [|done].
    change (falling 8 (length (@nil Reg))) with 1. cbn [mbind may_bind fmap option_fmap option_map].
    do 3 f_equal. lia.
Qed.

Lemma decode_dec count r :
  0 ≤ r < 40320 →
  decode count r = Val (take (Z.to_nat count) (dec 8 ENCODE_REGISTERS r)).
Proof.
  intros Hr. unfold decode.
  change ENCODE_REGISTERS with ([] ++ ENCODE_REGISTERS) at 1.
  by rewrite (decode_loop_dec 8 [] ENCODE_REGISTERS r eq_refl eq_refl Hr).
Qed.

Lemma dec_length n rest r : length rest = n → length (dec n rest r) = n.
Proof.
  revert rest r. induction n as [|n IH]; intros rest r Hl; [done|].
  assert (Hm : 0 ≤ r mod Z.of_nat (S n) < Z.of_nat (S n)) by (apply Z.mod_pos_bound; lia).
  destruct (lookup_lt_is_Some_2 rest (Z.to_nat (r mod Z.of_nat (S n))) ltac:(lia)) as [x Hx].
  destruct (pull_spec rest _ x Hx) as (t & Ht & Hperm).
  apply Permutation_length in Hperm. simpl in Hperm.
  rewrite (dec_S _ _ _ x t Ht). simpl. rewrite IH by lia. done.
Qed.

(** An encoding beyond the number of orderings runs the radix down to zero, and the
    remainder operation panics. *)
Lemma decode_loop_panic n pre rest r :
  length rest = n → (length pre + n = 8)%nat → falling n n ≤ r →
  decode_loop n (pre ++ rest) r = Panic.
Proof.
  revert pre rest r. induction n as [|n IH]; intros pre rest r Hl Hp Hr.
  { unfold falling in Hr. cbn [decode_loop]. destruct (Z.eqb_spec r 0); [lia|done]. }
  pose proof (falling_pos (S n) (S n)) as Hpos.
  cbn [decode_loop]. destruct (Z.eqb_spec r 0) as [-> | Hz]; [lia|].
  set (idx := r mod Z.of_nat (S n)).
  assert (Hidx : 0 ≤ idx < Z.of_nat (S n)) by (apply Z.mod_pos_bound; lia).
  replace (if negb (idx =? 0) then swap_from (8 - S n) (pre ++ rest) (Z.to_nat idx) 0
           else Val (pre ++ rest)) with (Val (pre ++ pull (Z.to_nat idx) rest)).
  2:{ destruct (Z.eqb_spec idx 0) as [-> | Hi]; simpl; [by rewrite pull_0|].
      rewrite swap_from_pull by lia. done. }
  cbn [mbind may_bind].
  destruct (lookup_lt_is_Some_2 rest (Z.to_nat idx) ltac:(lia)) as [x Hx].
  destruct (pull_spec rest _ x Hx) as (t & Ht & Hperm).
  apply Permutation_length in Hperm. simpl in Hperm.
  rewrite Ht, (cons_middle x), app_assoc.
  apply IH; [lia|rewrite length_app; simpl; lia|].
  change (falling (S n) (S n)) with (Z.of_nat (S n) * falling n n) in Hr.
  apply Z.div_le_lower_bound; lia.
Qed.

(** What a successful encoding tells, and when there is one. *)
Lemma encode_sound `{Profile} registers count r :
  encode registers = Val (Some (count, r)) →
  count = Z.of_nat (length registers) ∧ (length registers ≤ 8)%nat ∧
  0 ≤ r < falling 8 (length registers) ∧ decode count r = Val registers.
Proof.
  rewrite encode_enc. destruct (enc ENCODE_REGISTERS registers) as [e|] eqn:He; [|done].
  intros [= <- <-]. pose proof (enc_bound _ _ _ He) as [Hb Hl].
  pose proof (falling_8 (length registers) Hl) as H8.
  split_and!; [done|done|apply Hb|apply Hb|].
  rewrite decode_dec by (simpl in Hb; lia).
  rewrite Nat2Z.id. f_equal. by apply (dec_enc registers ENCODE_REGISTERS).
Qed.

Lemma enc_domain registers :
  is_Some (enc ENCODE_REGISTERS registers) ↔ NoDup registers ∧ registers ⊆ ENCODE_REGISTERS.
Proof.
  split.
  - intros [e He]. by eapply enc_None_sub; [apply NoDup_ENCODE_REGISTERS|].
  - intros [Hnd Hsub]. by apply enc_Some; [apply NoDup_ENCODE_REGISTERS| |].
Qed.

(** C15.  The compressed register ordering is a bijection: [encode] yields
    [(count, r)] exactly when [count] is the number of registers, at most eight, [r] is
    one of the [8! / (8 - count)!] orderings of that many registers, and [decode] turns
    the pair back into the registers.  It holds in both build profiles: no step of the
    encoder overflows its 16-bit accumulators. *)
Theorem encode_decode_bijection `{Profile} (registers : list Reg) (count r : Z) :
  encode registers = Val (Some (count, r)) ↔
  count = Z.of_nat (length registers) ∧ (length registers ≤ 8)%nat ∧
  0 ≤ r < falling 8 (length registers) ∧ decode count r = Val registers.
Proof.
  split; [apply encode_sound|]. rewrite encode_enc.
  - intros (-> & Hl & Hr & Hd). pose proof (falling_8 (length registers) Hl) as H8.
    rewrite decode_dec in Hd by lia. rewrite Nat2Z.id in Hd. injection Hd as Hd.
    pose proof (enc_dec (length registers) ENCODE_REGISTERS r
                  NoDup_ENCODE_REGISTERS Hl Hr) as He.
    change (length ENCODE_REGISTERS) with 8%nat in He. rewrite Hd in He. by rewrite He.
Qed.

(** [encode] never panics, and it has an encoding exactly for the lists of
    distinct callee-saved registers. *)
Lemma encode_domain `{Profile} (registers : list Reg) :
  ∃ o, encode registers = Val o ∧
       (is_Some o ↔ NoDup registers ∧ registers ⊆ ENCODE_REGISTERS).
Proof.
  rewrite encode_enc. eexists; split; [done|]. rewrite fmap_is_Some. apply enc_domain.
Qed.

(** [decode] panics, dividing by zero, exactly on the encodings that are not below
    [8! = 40320], the part of the [u16] range that [encode] never produces. *)
Lemma decode_panics_iff (count r : Z) :
  is_u16 r → (decode count r = Panic ↔ 40320 ≤ r).
Proof.
  intros Hr. destruct (decide (40320 ≤ r)) as [H|H].
  - split; [done|]. intros _. unfold decode.
    change ENCODE_REGISTERS with ([] ++ ENCODE_REGISTERS) at 1.
    by rewrite (decode_loop_panic 8 [] ENCODE_REGISTERS r eq_refl eq_refl H).
  - rewrite decode_dec by (unfold is_uint in Hr; lia). split; [done|lia].
Qed.

Lemma decode_panics_iff_witness :
  decode 3 40320 = Panic ∧ decode 3 40319 ≠ Panic.
Proof.
  split.
  - apply (proj2 (decode_panics_iff 3 40320 ltac:(range))). lia.
  - intros H. apply (proj1 (decode_panics_iff 3 40319 ltac:(range))) in H. lia.
Defined.
