(* ===== verification/X86UnwindRule.v ===== *)
(** The x86_64 unwind rules and their execution ([src/x86_64/unwind_rule.rs]). *)

From S2P Require Import Prelude AddSigned Error Arch X86UnwindRegs X86RegisterOrdering.
Local Open Scope Z_scope.

Inductive UnwindRuleX86_64 : Type :=
| EndOfStack
| JustReturn
| JustReturnIfFirstFrameOtherwiseFp
| OffsetSp (sp_offset_by_8 : Z)
| OffsetSpAndRestoreBp (sp_offset_by_8 bp_storage_offset_from_sp_by_8 : Z)
| UseFramePointer
| OffsetSpAndPopRegisters (sp_offset_by_8 register_count encoded_registers_to_pop : Z).

#[export] Instance UnwindRuleX86_64_eq_dec : EqDecision UnwindRuleX86_64.
Proof. solve_decision. Defined.

(** The field types: [u16], [i16], [u8]; the register ordering is one [encode] can
    produce. *)
Definition wf_rule (rule : UnwindRuleX86_64) : Prop :=
  match rule with
  | OffsetSp x => is_u16 x
  | OffsetSpAndRestoreBp x y => is_u16 x ∧ is_i16 y
  | OffsetSpAndPopRegisters x c e => is_u16 x ∧ is_u8 c ∧ 0 ≤ e < 40320
  | _ => True
  end.

(** [OffsetOrPop::None] is [NotOffsetOrPop]. *)
Inductive OffsetOrPop : Type :=
| NotOffsetOrPop
| OffsetBy8 (offset : Z)
| Pop (reg : Reg).

(** The loop that pushes popped registers into an [ArrayVec<Reg, 8>]; [None] is the
    early return, on anything but a pop or on a ninth register. *)
Fixpoint collect_pops (regs : list Reg) (ops : list OffsetOrPop) : option (list Reg) :=
  match ops with
  | [] => Some regs
  | Pop reg :: ops' =>
      if (length regs <? 8)%nat then collect_pops (regs ++ [reg]) ops' else None
  | _ :: _ => None
  end.

Definition for_sequence_of_offset_or_pop `{Profile} (ops : list OffsetOrPop) :
    may (option UnwindRuleX86_64) :=
  let '(sp_offset_by_8, rest) :=
    match ops with
    | OffsetBy8 offset :: rest => (offset, rest)
    | _ => (0, ops)
    end in
  match collect_pops [] rest with
  | None => Val None
  | Some regs =>
      if match regs with [] => sp_offset_by_8 =? 0 | _ => false end
      then Val (Some JustReturn)
      else
        e ← encode regs;
        match e with
        | None => Val None
        | Some (register_count, encoded_registers_to_pop) =>
            Val (Some (OffsetSpAndPopRegisters sp_offset_by_8 register_count
                         encoded_registers_to_pop))
        end
  end.

Definition rule_for_stub_functions : UnwindRuleX86_64 := JustReturn.
Definition rule_for_function_start : UnwindRuleX86_64 := JustReturn.
Definition fallback_rule : UnwindRuleX86_64 := UseFramePointer.

Section Exec.
Context `{Profile} {St : Type} `{StackReader St}.

Abbreviation X := (M (UnwindRegsX86_64 * St) Error).

(** [a.checked_add(b).ok_or(Error::IntegerOverflow)?] on [u64]. *)
Definition checked_add (a b : Z) : X Z :=
  try_ (ok_or (checked_uint 64 (a + b)) IntegerOverflow).

(** The [for reg in register_ordering::decode(..)] loop. *)
Fixpoint pop_registers (to_pop : list Reg) (sp : Z) : X Z :=
  match to_pop with
  | [] => mret sp
  | reg :: to_pop' =>
      value ← read_or sp (CouldNotReadStack sp);
      sp ← checked_add sp 8;
      regs ← get_regs;
      put_regs (set regs reg value) ;;
      pop_registers to_pop' sp
  end.

(** The frame pointer step shared by two rules. *)
Definition use_frame_pointer (regs : UnwindRegsX86_64) : X (option (Z * Z)) :=
  new_sp ← checked_add (bp regs) 16;
  if new_sp <=? sp regs then throw FramepointerUnwindingMovedBackwards
  else
    new_bp ← read_or (bp regs) (CouldNotReadStack (bp regs));
    mret (Some (new_sp, new_bp)).

(** The [match self] that computes [(new_sp, new_bp)]; [None] is the early
    [return Ok(None)]. *)
Definition new_sp_and_bp (self : UnwindRuleX86_64) (is_first_frame : bool) :
    X (option (Z * Z)) :=
  regs ← get_regs;
  match self with
  | EndOfStack => mret None
  | JustReturn =>
      new_sp ← checked_add (sp regs) 8;
      mret (Some (new_sp, bp regs))
  | JustReturnIfFirstFrameOtherwiseFp =>
      if is_first_frame then
        new_sp ← checked_add (sp regs) 8;
        mret (Some (new_sp, bp regs))
      else use_frame_pointer regs
  | OffsetSp sp_offset_by_8 =>
      new_sp ← checked_add (sp regs) (sp_offset_by_8 * 8);
      mret (Some (new_sp, bp regs))
  | OffsetSpAndRestoreBp sp_offset_by_8 bp_storage_offset_from_sp_by_8 =>
      new_sp ← checked_add (sp regs) (sp_offset_by_8 * 8);
      bp_location ← try_ (ok_or
        (checked_add_signed 64 (sp regs) (bp_storage_offset_from_sp_by_8 * 8))
        IntegerOverflow);
      r ← read_raw bp_location;
      match r with
      | Ok new_bp => mret (Some (new_sp, new_bp))
      | Err _ =>
          if is_first_frame && (bp_location <? sp regs)
          then mret (Some (new_sp, bp regs))
          else throw (CouldNotReadStack bp_location)
      end
  | UseFramePointer =>
      if bp regs =? 0 then mret None else use_frame_pointer regs
  | OffsetSpAndPopRegisters sp_offset_by_8 register_count encoded_registers_to_pop =>
      sp ← checked_add (sp regs) (sp_offset_by_8 * 8);
      to_pop ← lift (decode register_count encoded_registers_to_pop);
      sp ← pop_registers to_pop sp;
      new_sp ← checked_add sp 8;
      regs ← get_regs;
      mret (Some (new_sp, bp regs))
  end.

Definition exec (self : UnwindRuleX86_64) (is_first_frame : bool) : X (option Z) :=
  regs ← get_regs;
  let old_sp := sp regs in
  r ← new_sp_and_bp self is_first_frame;
  match r with
  | None => mret None
  | Some (new_sp, new_bp) =>
      addr ← lift (uarith 64 (new_sp - 8));
      return_address ← read_or addr (CouldNotReadStack addr);
      if return_address =? 0 then mret None
      else
        regs ← get_regs;
        if (new_sp =? old_sp) && (return_address =? ip regs) then throw DidNotAdvance
        else
          put_regs (set_bp (set_sp (set_ip regs return_address) new_sp) new_bp) ;;
          mret (Some return_address)
  end.
End Exec.

#[export] Instance ArchX86_64 : Arch := {
  Arch.UnwindRegs := UnwindRegsX86_64;
  Arch.UnwindRule := UnwindRuleX86_64;
  Arch.exec := @exec;
  Arch.rule_for_stub_functions := rule_for_stub_functions;
  Arch.rule_for_function_start := rule_for_function_start;
  Arch.fallback_rule := fallback_rule;
}.

(** * What the rules mean

    The documentation of the enum as a function: from a memory and the callee's
    registers to the caller's stack pointer and registers, over unbounded integers and
    without the machine's checks.  The return address is then the word below the new
    stack pointer. *)

Fixpoint pop_all (mem : Z → option Z) (to_pop : list Reg) (sp : Z)
    (r : UnwindRegsX86_64) : option (Z * UnwindRegsX86_64) :=
  match to_pop with
  | [] => Some (sp, r)
  | reg :: to_pop' =>
      v ← mem sp;
      pop_all mem to_pop' (sp + 8) (set r reg v)
  end.

Definition denote (mem : Z → option Z) (rule : UnwindRuleX86_64) (is_first_frame : bool)
    (r : UnwindRegsX86_64) : option (Z * UnwindRegsX86_64) :=
  let follow_bp :=
    if bp r + 16 <=? sp r then None
    else v ← mem (bp r); Some (bp r + 16, set_bp r v) in
  match rule with
  | EndOfStack => None
  | JustReturn => Some (sp r + 8, r)
  | JustReturnIfFirstFrameOtherwiseFp =>
      if is_first_frame then Some (sp r + 8, r) else follow_bp
  | OffsetSp x => Some (sp r + x * 8, r)
  | OffsetSpAndRestoreBp x y =>
      match mem (sp r + y * 8) with
      | Some v => Some (sp r + x * 8, set_bp r v)
      | None =>
          if is_first_frame && (y <? 0) && (0 <=? sp r + y * 8)
          then Some (sp r + x * 8, r) else None
      end
  | UseFramePointer => if bp r =? 0 then None else follow_bp
  | OffsetSpAndPopRegisters x c e =>
      match decode c e with
      | Val to_pop =>
          '(sp', r') ← pop_all mem to_pop (sp r + x * 8) r;
          Some (sp' + 8, r')
      | Fault _ => None
      end
  end.

Section ExecLemmas.
Context `{Profile} {St : Type} `{PureReader St}.
Implicit Types (r : UnwindRegsX86_64) (st : St).

Lemma checked_add_run r st a b :
  checked_add a b (r, st) =
    Val (if in_uint 64 (a + b) then Ok (a + b) else Err IntegerOverflow, (r, st)).
Proof. unfold checked_add, try_, checked_uint. by destruct (in_uint 64 (a + b)). Qed.

Lemma pop_all_sp mem to_pop sp r sp' r' :
  pop_all mem to_pop sp r = Some (sp', r') → sp' = sp + 8 * Z.of_nat (length to_pop).
Proof.
  revert sp r. induction to_pop as [|reg to_pop IH]; intros sp r; simpl.
  { intros [= -> ->]. lia. }
  destruct (mem sp); simpl; [|done]. intros ->%IH. lia.
Qed.

(** The popping loop reads the words the specification reads, and stops where the
    stack pointer leaves the address space. *)
Lemma pop_registers_run to_pop sp r st res s :
  is_u64 sp → pop_registers to_pop sp (r, st) = Val (Ok res, s) ↔
  is_u64 res ∧ s.2 = st ∧ pop_all (memory st) to_pop sp r = Some (res, s.1).
Proof.
  revert sp r. induction to_pop as [|reg to_pop IH]; intros sp r Hsp; simpl.
  { split; [intros [= <- <-]; done|]. destruct s; simpl. by intros (? & -> & [= -> ->]). }
  unfold mbind at 1, M_bind. rewrite read_or_memory by done.
  destruct (memory st sp) as [v|] eqn:Hm; simpl; [|by split; [|intros (? & ? & ?)]].
  unfold mbind, M_bind. rewrite checked_add_run.
  destruct (in_uint_spec 64 (sp + 8)) as [Hi|Hi]; simpl.
  - by apply IH.
  - split; [done|]. intros (Hr & _ & Hp%pop_all_sp). exfalso. range.
Qed.

(** One frame-pointer step against its specification. *)
Lemma use_frame_pointer_run r st nsp nbp s :
  wf_regs r →
  use_frame_pointer r (r, st) = Val (Ok (Some (nsp, nbp)), s) ↔
  s = (r, st) ∧ nsp = bp r + 16 ∧ nsp < 2 ^ 64 ∧ sp r < nsp ∧
  memory st (bp r) = Some nbp.
Proof.
  intros [_ Hr]. pose proof (Hr RBP) as Hbp. fold (bp r) in Hbp.
  unfold use_frame_pointer, mbind, M_bind. rewrite checked_add_run.
  destruct (in_uint_spec 64 (bp r + 16)) as [Hi|Hi]; simpl.
  2:{ split; [done|]. intros (_ & -> & ? & _). destruct Hi. range. }
  destruct (Z.leb_spec (bp r + 16) (sp r)) as [Hle|Hle]; simpl.
  { split; [done|]. intros (_ & -> & _ & ? & _). lia. }
  rewrite read_or_memory by done. destruct (memory st (bp r)) as [v|]; simpl.
  - split; [intros [= <- <- <-]; split_and!; try done; range|].
    intros (-> & -> & _ & _ & [= ->]). done.
  - split; [done|]. by intros (_ & _ & _ & _ & ?).
Qed.

Lemma set_bp_id r : set_bp r (bp r) = r.
Proof.
  apply regs_ext; [done|]. intros reg. unfold set_bp, bp. rewrite get_set.
  by case_decide as Heq; [rewrite <- Heq|].
Qed.

Lemma pop_all_ip mem to_pop sp r sp' r' :
  pop_all mem to_pop sp r = Some (sp', r') → ip r' = ip r.
Proof.
  revert sp r. induction to_pop as [|reg to_pop IH]; intros sp r; simpl.
  { by intros [= _ ->]. }
  destruct (mem sp); simpl; [|done]. by intros ->%IH.
Qed.

(** Where the rule denotes a frame whose stack pointer is a machine word,
    [new_sp_and_bp] computes it. *)
Lemma new_sp_and_bp_complete rule first r st nsp r1 :
  wf_regs r → wf_rule rule →
  denote (memory st) rule first r = Some (nsp, r1) → nsp < 2 ^ 64 →
  ∃ r0, new_sp_and_bp rule first (r, st) = Val (Ok (Some (nsp, bp r1)), (r0, st)) ∧
        set_bp r0 (bp r1) = r1 ∧ ip r0 = ip r.
Proof.
  intros Hwf Hrule Hd Hlt. pose proof Hwf as [_ Hr].
  pose proof (Hr RSP) as Hsp. fold (sp r) in Hsp.
  assert (Hfp : ∀ v, memory st (bp r) = Some v → sp r < bp r + 16 → bp r + 16 < 2 ^ 64 →
    use_frame_pointer r (r, st) = Val (Ok (Some (bp r + 16, v)), (r, st))).
  { intros v Hm ??. by apply use_frame_pointer_run. }
  assert (Hbp : ∀ v, bp (set_bp r v) = v) by (intros; apply get_set_eq).
  unfold new_sp_and_bp. unfold mbind at 1, M_bind, get_regs. cbn [fst snd].
  destruct rule as [| | |x|x y| |x c e]; simpl in Hd, Hrule; repeat case_match;
    simplify_eq/=; unfold mbind, M_bind; rewrite ?checked_add_run.
  all: try (rewrite in_uint_true by range).
  all: try (eexists; split_and!; [done|apply set_bp_id|done]).
  - (* frame pointer, not the first frame *)
    destruct (memory st (bp r)) as [v|] eqn:Hm; simplify_eq/=.
    eexists; split_and!; [rewrite Hbp; apply Hfp; [done|lia|done]| |done].
    by rewrite Hbp.
  - (* OffsetSpAndRestoreBp, the slot is readable *)
    unfold try_. rewrite checked_add_signed_64_ok; [|done|range|by eapply memory_addr].
    simpl. rewrite read_raw_memory by (by eapply memory_addr). rewrite_memory.
    eexists; split_and!; [by rewrite Hbp|by rewrite Hbp|done].
  - (* OffsetSpAndRestoreBp, the tolerated unreadable slot *)
    destruct first; [|done]. simpl in *.
    assert (is_u64 (sp r1 + y * 8)) by range.
    unfold try_. rewrite checked_add_signed_64_ok; [|done|range|done].
    simpl. rewrite read_raw_memory by done. rewrite_memory.
    destruct (Z.ltb_spec (sp r1 + y * 8) (sp r1)); [|lia].
    eexists; split_and!; [done|apply set_bp_id|done].
  - (* UseFramePointer *)
    destruct (memory st (bp r)) as [v|] eqn:Hm; simplify_eq/=.
    eexists; split_and!; [rewrite Hbp; apply Hfp; [done|lia|done]| |done].
    by rewrite Hbp.
  - (* OffsetSpAndPopRegisters *)
    destruct (pop_all (memory st) a (sp r + x * 8) r) as [[sp' r']|] eqn:Hp;
      simplify_eq/=.
    pose proof (pop_all_sp _ _ _ _ _ _ Hp) as Hl. destruct Hrule as (Hx & _ & _).
    rewrite in_uint_true by range. unfold lift.
    rewrite (proj2 (pop_registers_run a (sp r + x * 8) r st sp' (r1, st) ltac:(range)))
      by (split_and!; [range|done|done]). simpl.
    rewrite checked_uint_ok by range.
    exists r1. split_and!; [done|apply set_bp_id|by eapply pop_all_ip].
Qed.

(** It succeeds nowhere else. *)
Lemma new_sp_and_bp_sound rule first r st nsp nbp s :
  wf_regs r → wf_rule rule →
  new_sp_and_bp rule first (r, st) = Val (Ok (Some (nsp, nbp)), s) →
  ∃ r1, denote (memory st) rule first r = Some (nsp, r1) ∧ is_u64 nsp.
Proof.
  intros Hwf Hrule. pose proof Hwf as [_ Hr].
  pose proof (Hr RSP) as Hsp. fold (sp r) in Hsp.
  assert (Hfp : use_frame_pointer r (r, st) = Val (Ok (Some (nsp, nbp)), s) →
    ∃ r1, (if bp r + 16 <=? sp r then None
           else v ← memory st (bp r); Some (bp r + 16, set_bp r v)) = Some (nsp, r1) ∧
          is_u64 nsp).
  { intros (_ & -> & ? & ? & ->)%use_frame_pointer_run; [|done].
    destruct (Z.leb_spec (bp r + 16) (sp r)); [lia|]. simpl.
    eexists; split; [done|]. range. }
  unfold new_sp_and_bp. unfold mbind at 1, M_bind, get_regs. cbn [fst snd].
  destruct rule as [| | |x|x y| |x c e]; simpl in Hrule; unfold denote;
    [done| | | | | |]; unfold mbind at 1, M_bind; rewrite ?checked_add_run.
  - destruct (in_uint_spec 64 (sp r + 8)); intros [= <- <- <-]. eauto.
  - destruct first; [|exact Hfp]. unfold mbind, M_bind. rewrite checked_add_run.
    destruct (in_uint_spec 64 (sp r + 8)); intros [= <- <- <-]. eauto.
  - destruct (in_uint_spec 64 (sp r + x * 8)); intros [= <- <- <-]. eauto.
  - destruct (in_uint_spec 64 (sp r + x * 8)); [|done]. unfold mbind, M_bind, try_.
    destruct (checked_add_signed 64 (sp r) (y * 8)) as [loc|] eqn:Hloc; simpl; [|done].
    apply checked_add_signed_64_Some in Hloc as [-> Hloc]; [|done|range].
    rewrite read_raw_memory by done.
    destruct (memory st (sp r + y * 8)) as [v|] eqn:Hm.
    { intros [= <- <- <-]. eauto. }
    destruct first; simpl; [|done].
    destruct (Z.ltb_spec (sp r + y * 8) (sp r)); [|done]. intros [= <- <- <-].
    destruct (Z.ltb_spec y 0), (Z.leb_spec 0 (sp r + y * 8)); simpl; eauto; range.
  - destruct (bp r =? 0); [done|exact Hfp].
  - destruct (in_uint_spec 64 (sp r + x * 8)) as [Hi|]; [|done].
    unfold mbind, M_bind, lift. destruct (decode c e) as [to_pop|]; [|done].
    destruct (pop_registers to_pop (sp r + x * 8) (r, st)) as [[[sp'|e'] s']|] eqn:Hp;
      [|done|done].
    apply pop_registers_run in Hp as (Hu & _ & Hp); [|done]. destruct s' as [r' st'].
    rewrite checked_add_run. destruct (in_uint_spec 64 (sp' + 8)); [|done].
    intros [= <- <- <-]. simpl in Hp. rewrite Hp. simpl. eauto.
Qed.
End ExecLemmas.

(** * Execution against the specification *)

Section ExecWp.
Context `{Profile} {St : Type} `{StackReader St}.
Implicit Types (r : UnwindRegsX86_64) (st : St).

Lemma wp_checked_add {A} pan a b (k : Z → M (UnwindRegsX86_64 * St) Error A) Q s :
  (is_u64 (a + b) → wp pan (k (a + b)) Q s) → Q (Err IntegerOverflow) s →
  wp pan (checked_add a b ≫= k) Q s.
Proof.
  intros Hk He. apply wp_bind. unfold wp at 1, checked_add, try_, checked_uint.
  destruct (in_uint_spec 64 (a + b)); simpl; auto.
Qed.

(** Popping keeps the registers well formed, the instruction pointer untouched, and
    moves the stack pointer up. *)
Lemma wp_pop_registers to_pop lo r st :
  is_u64 lo → wf_regs r →
  wp False (pop_registers to_pop lo)
    (λ res s, wf_regs s.1 ∧ ip s.1 = ip r ∧
       match res with Ok hi => lo ≤ hi ∧ is_u64 hi | Err _ => True end) (r, st).
Proof.
  revert lo r st. induction to_pop as [|reg to_pop IH]; intros lo r st Hlo Hr; simpl.
  { apply wp_ret. split_and!; [done|done|lia|done]. }
  apply wp_bind, wp_read_or; [|done]. intros v st' _ Hv. apply wp_checked_add; [|done].
  intros Hhi. do 2 (apply wp_bind; first [apply wp_get_regs|apply wp_put_regs]). simpl.
  eapply wp_mono; [|by apply IH; auto with x86wf].
  intros res s (Hs & Hi & Hres). split_and!; [done|done|].
  destruct res; [split; [range|by apply Hres]|done].
Qed.

(** What [new_sp_and_bp] guarantees for every rule and every reader: the registers
    stay well formed, only the popping rule has touched them, and a new stack pointer
    is never below the old one. *)
Definition new_sp_and_bp_post (rule : UnwindRuleX86_64) r
    (res : result (option (Z * Z)) Error) (s : UnwindRegsX86_64 * St) : Prop :=
  wf_regs s.1 ∧ ip s.1 = ip r ∧
  (match rule with OffsetSpAndPopRegisters _ _ _ => True | _ => s.1 = r end) ∧
  match res with
  | Ok (Some (nsp, nbp)) => is_u64 nsp ∧ is_u64 nbp ∧ sp r ≤ nsp
  | _ => True
  end.

Lemma wp_use_frame_pointer rule r st :
  wf_regs r →
  wp False (use_frame_pointer r) (new_sp_and_bp_post rule r) (r, st).
Proof.
  intros Hr. pose proof Hr as [_ Hget].
  assert (Hsame : ∀ res st', match res with Ok _ => False | Err _ => True end →
    new_sp_and_bp_post rule r res (r, st')).
  { intros [|] st' ?; [done|]. unfold new_sp_and_bp_post. by destruct rule. }
  unfold use_frame_pointer. apply wp_checked_add; [|by apply Hsame]. intros Hn.
  destruct (Z.leb_spec (bp r + 16) (sp r)); [by apply wp_throw, Hsame|].
  apply wp_bind, wp_read_or; [|by intros; apply Hsame]. intros v st' _ Hv.
  apply wp_ret. unfold new_sp_and_bp_post; simpl.
  split_and!; [done|done|by destruct rule|done|done|lia].
Qed.

Lemma wp_new_sp_and_bp rule first r st :
  wf_regs r → wf_rule rule →
  wp False (new_sp_and_bp rule first) (new_sp_and_bp_post rule r) (r, st).
Proof.
  intros Hr Hrule. pose proof Hr as [_ Hget].
  pose proof (Hget RSP) as Hsp. fold (sp r) in Hsp.
  pose proof (Hget RBP) as Hbp. fold (bp r) in Hbp.
  assert (Hsame : ∀ res st', match res with Ok (Some _) => False | _ => True end →
    new_sp_and_bp_post rule r res (r, st')).
  { intros [[|]|] st' ?; try done; unfold new_sp_and_bp_post; by destruct rule. }
  assert (Hjust : ∀ d st' v, 0 ≤ d → is_u64 (sp r + d) → is_u64 v →
    new_sp_and_bp_post rule r (Ok (Some (sp r + d, v))) (r, st')).
  { intros. unfold new_sp_and_bp_post; simpl.
    split_and!; [done|done|by destruct rule|done|done|lia]. }
  unfold new_sp_and_bp. apply wp_bind, wp_get_regs. cbn [fst].
  destruct rule as [| | |x|x y| |x c e]; simpl in Hrule.
  - by apply wp_ret, Hsame.
  - apply wp_checked_add; [|by apply Hsame]. intros. by apply wp_ret, Hjust.
  - destruct first; [|by apply wp_use_frame_pointer].
    apply wp_checked_add; [|by apply Hsame]. intros. by apply wp_ret, Hjust.
  - apply wp_checked_add; [|by apply Hsame]. intros. apply wp_ret, Hjust; [range|done|done].
  - apply wp_checked_add; [|by apply Hsame]. intros Hn. apply wp_bind, wp_try.
    destruct (checked_add_signed 64 (sp r) (y * 8)) as [loc|]; simpl; [|by apply Hsame].
    apply wp_bind, wp_read_raw.
    + intros. apply wp_ret, Hjust; [range|done|done].
    + intros. case_match; [apply wp_ret, Hjust; [range|done|done]|by apply wp_throw, Hsame].
  - destruct (bp r =? 0); [by apply wp_ret, Hsame|by apply wp_use_frame_pointer].
  - apply wp_checked_add; [|by apply Hsame]. intros Hn. apply wp_bind.
    rewrite decode_dec by apply Hrule. apply wp_lift; [|done]. intros to_pop _.
    apply wp_bind. eapply wp_mono; [|by apply wp_pop_registers].
    intros [hi|] [r' st'] (Hr' & Hip & Hhi); simpl in *; [|by (unfold new_sp_and_bp_post; split_and!)].
    apply wp_checked_add; [|by (unfold new_sp_and_bp_post; split_and!)]. intros Hn'.
    apply wp_bind, wp_get_regs. apply wp_ret. unfold new_sp_and_bp_post; simpl.
    split_and!; [done|done|done|done|apply (proj2 Hr' RBP)|range].
Qed.

(** The same for a whole execution.  A panic needs overflow checks and a stack
    pointer below 8. *)
Lemma wp_exec rule first r st :
  wf_regs r → wf_rule rule →
  wp (overflow_checks = true ∧ sp r < 8) (exec rule first)
    (λ res s, wf_regs s.1 ∧
       match res with
       | Ok (Some ra) => is_u64 ra ∧ ra ≠ 0 ∧ ip s.1 = ra ∧ sp r ≤ sp s.1 ∧
           (sp s.1 = sp r → ra ≠ ip r)
       | _ => match rule with OffsetSpAndPopRegisters _ _ _ => True | _ => s.1 = r end
       end) (r, st).
Proof.
  intros Hr Hrule. unfold exec. apply wp_bind, wp_get_regs. apply wp_bind. cbn [fst].
  pose proof (wp_new_sp_and_bp rule first r st Hr Hrule) as Hwp.
  unfold wp at 1. unfold wp in Hwp.
  destruct (new_sp_and_bp rule first (r, st)) as [[res [r' st']]|]; [|done].
  destruct Hwp as (Hr' & Hip & Hsame & Hres). simpl in Hip, Hsame.
  destruct res as [[[nsp nbp]|]|e]; [|apply wp_ret; by split|by split].
  destruct Hres as (Hnsp & Hnbp & Hle).
  apply wp_bind, wp_lift.
  2:{ unfold uarith. destruct (in_uint_spec 64 (nsp - 8)) as [|Hlow]; [done|].
      destruct overflow_checks; [|done]. intros k _. split; [done|]. range. }
  intros a _. apply wp_bind, wp_read_or; [|by split]. intros ra st2 _ Hra.
  destruct (Z.eqb_spec ra 0) as [->|Hnz]; [by apply wp_ret|].
  apply wp_bind, wp_get_regs. cbn [fst].
  destruct (Z.eqb_spec nsp (sp r)) as [Heq|Hne], (Z.eqb_spec ra (ip r')) as [Heq'|Hne'];
    simpl; try (by apply wp_throw); apply wp_bind, wp_put_regs, wp_ret;
    cbn [fst snd]; (split; [unfold set_sp, set_bp; auto with x86wf|]);
    simpl_regs; split_and!; (done || congruence).
Qed.
End ExecWp.

Section ExecRefinement.
Context `{Profile} {St : Type} `{PureReader St}.
Implicit Types (r : UnwindRegsX86_64) (st : St).

(** The stack pointer a rule denotes is not below the old one. *)
Lemma denote_sp_le rule first r st nsp r1 :
  wf_regs r → wf_rule rule →
  denote (memory st) rule first r = Some (nsp, r1) → nsp < 2 ^ 64 → sp r ≤ nsp.
Proof.
  intros Hr Hrule Hd Hlt.
  destruct (new_sp_and_bp_complete rule first r st nsp r1 Hr Hrule Hd Hlt)
    as (r0 & Hrun & _ & _).
  pose proof (wp_run _ _ _ _ _ _ (wp_new_sp_and_bp rule first r st Hr Hrule) Hrun)
    as (_ & _ & _ & _ & _ & Hle). done.
Qed.

Lemma exec_denote rule first r st nsp r1 :
  wf_regs r → wf_rule rule → 8 ≤ sp r →
  denote (memory st) rule first r = Some (nsp, r1) → nsp < 2 ^ 64 →
  ∃ r0, exec rule first (r, st) =
    Val (match memory st (nsp - 8) with
         | None => (Err (CouldNotReadStack (nsp - 8)), (r0, st))
         | Some ra =>
             if ra =? 0 then (Ok None, (r0, st))
             else if (nsp =? sp r) && (ra =? ip r) then (Err DidNotAdvance, (r0, st))
             else (Ok (Some ra), (set_sp (set_ip r1 ra) nsp, st))
         end).
Proof.
  intros Hr Hrule H8 Hd Hlt.
  pose proof (denote_sp_le rule first r st nsp r1 Hr Hrule Hd Hlt) as Hle.
  destruct (new_sp_and_bp_complete rule first r st nsp r1 Hr Hrule Hd Hlt)
    as (r0 & Hrun & Hset & Hip).
  exists r0. unfold exec. unfold mbind at 1, M_bind, get_regs at 1. cbn [fst].
  unfold mbind at 1, M_bind. rewrite Hrun. unfold mbind at 1, M_bind, lift.
  rewrite uarith_ok by range. unfold mbind at 1, M_bind.
  rewrite read_or_memory by range. destruct (memory st (nsp - 8)) as [ra|]; [|done].
  destruct (ra =? 0); [done|]. unfold mbind, M_bind, get_regs. cbn [fst]. rewrite Hip.
  destruct ((nsp =? sp r) && (ra =? ip r)); [done|].
  unfold put_regs, mret, M_ret; simpl.
  assert (Hfin : set_bp (set_sp (set_ip r0 ra) nsp) (bp r1) = set_sp (set_ip r1 ra) nsp);
    [|by rewrite Hfin].
  rewrite <- Hset at 2. apply regs_ext; [done|]. intros reg.
  destruct (decide (reg = RSP)) as [->|Hne1]; [by simpl_regs|].
  destruct (decide (reg = RBP)) as [->|Hne2]; [by simpl_regs|].
  unfold set_sp, set_bp. rewrite !get_set_ne, !get_set_ip, !get_set_ne by done. done.
Qed.

Lemma exec_only_denote rule first r st ra s :
  wf_regs r → wf_rule rule →
  exec rule first (r, st) = Val (Ok (Some ra), s) →
  ∃ nsp r1, denote (memory st) rule first r = Some (nsp, r1) ∧ nsp < 2 ^ 64.
Proof.
  intros Hr Hrule. unfold exec. unfold mbind at 1, M_bind, get_regs at 1. cbn [fst].
  unfold mbind at 1, M_bind.
  destruct (new_sp_and_bp rule first (r, st)) as [[[[[nsp nbp]|]|e] s']|] eqn:Hrun; try done.
  intros _. destruct (new_sp_and_bp_sound rule first r st nsp nbp s' Hr Hrule Hrun)
    as (r1 & Hd & Hn). exists nsp, r1. split; [done|range].
Qed.
End ExecRefinement.

(** C5.  Executing an x86_64 rule refines the documented meaning of the rule: for a stack
    pointer of at least 8 it yields the return address [ra] with the registers [r'] exactly
    when the rule denotes a caller frame [(nsp, r1)] whose stack pointer is a machine word,
    [ra] is the non-zero word below it, the frame differs from the callee's, and [r'] is
    [r1] with the new instruction and stack pointers.  The stack memory is only read.
    (Below 8, reading the word under the new stack pointer may underflow.) *)
Theorem exec_refines_denotation `{Profile} {St} `{PureReader St}
    (rule : UnwindRuleX86_64) (first : bool) (r r' : UnwindRegsX86_64) (st st' : St)
    (ra : Z) :
  wf_regs r → wf_rule rule → 8 ≤ sp r →
  exec rule first (r, st) = Val (Ok (Some ra), (r', st')) ↔
  st' = st ∧
  ∃ nsp r1,
    denote (memory st) rule first r = Some (nsp, r1) ∧ nsp < 2 ^ 64 ∧
    memory st (nsp - 8) = Some ra ∧ ra ≠ 0 ∧ (nsp = sp r → ra ≠ ip r) ∧
    r' = set_sp (set_ip r1 ra) nsp.
Proof.
  intros Hr Hrule H8. split.
  - intros Hrun.
    destruct (exec_only_denote rule first r st ra _ Hr Hrule Hrun) as (nsp & r1 & Hd & Hlt).
    destruct (exec_denote rule first r st nsp r1 Hr Hrule H8 Hd Hlt) as [r0 He].
    rewrite He in Hrun. destruct (memory st (nsp - 8)) as [ra'|] eqn:Hm; [|done].
    destruct (Z.eqb_spec ra' 0); [done|].
    destruct (Z.eqb_spec nsp (sp r)), (Z.eqb_spec ra' (ip r)); simplify_eq/=;
      (split; [done|]); eexists _, _; (split; [exact Hd|]); split_and!; done.
  - intros (-> & nsp & r1 & Hd & Hlt & Hm & Hnz & Hadv & ->).
    destruct (exec_denote rule first r st nsp r1 Hr Hrule H8 Hd Hlt) as [r0 ->].
    rewrite Hm. destruct (Z.eqb_spec ra 0); [done|].
    destruct (Z.eqb_spec nsp (sp r)), (Z.eqb_spec ra (ip r)); simpl; done || naive_solver.
Qed.

Definition example_stack : list Z :=
  [1; 2; 0x100300; 4; 0x40; 0x100200; 5; 6; 0x70; 0x100100; 7; 8; 9; 10; 0; 0].

Lemma exec_refines_denotation_witness :
  @exec debug_profile _ words_reader UseFramePointer true
    (new 0x100300 0x18 0x20, example_stack) =
  Val (Ok (Some 0x100200), (new 0x100200 0x30 0x40, example_stack)).
Proof.
  apply (proj2 (@exec_refines_denotation debug_profile (list Z) words_reader words_pure
    UseFramePointer true (new 0x100300 0x18 0x20) (new 0x100200 0x30 0x40)
    example_stack example_stack 0x100200
    ltac:(apply wf_new; range) I ltac:(vm_compute; congruence))).
  split; [reflexivity|]. exists 0x30, (new 0x100300 0x18 0x40). split_and!.
  - reflexivity.
  - reflexivity.
  - reflexivity.
  - discriminate.
  - intros _. discriminate.
  - apply regs_ext; [reflexivity|]. intros []; reflexivity.
Defined.

(** Executing an x86_64 rule never panics in a release build, and in a debug build
    only when the stack pointer is below 8: no addition, no register access and no
    register ordering produced by the encoder can. *)
Lemma exec_never_panics `{Profile} {St} `{StackReader St}
    (rule : UnwindRuleX86_64) (first : bool) (r : UnwindRegsX86_64) (st : St) :
  wf_regs r → wf_rule rule → overflow_checks = false ∨ 8 ≤ sp r →
  exec rule first (r, st) ≠ Panic.
Proof.
  intros Hr Hrule Hp Hpanic. pose proof (wp_exec rule first r st Hr Hrule) as Hwp.
  unfold wp in Hwp. rewrite Hpanic in Hwp. destruct Hwp as [Hc Hlt].
  destruct Hp as [Hf|H8]; [congruence|lia].
Qed.

Lemma exec_never_panics_witness :
  @exec debug_profile _ words_reader (OffsetSpAndPopRegisters 0 2 9) false
    (new 0x100300 8 0x20, example_stack) ≠ Panic.
Proof.
  apply (@exec_never_panics debug_profile (list Z) words_reader).
  - apply wf_new; range.
  - simpl; unfold_ranges; lia.
  - right. vm_compute. congruence.
Defined.

(** In a debug build a rule that leaves a stack pointer below 8 in place makes the
    execution panic, on the unchecked [new_sp - 8], for every reader. *)
Lemma exec_debug_panic {St} `{StackReader St} (i s b : Z) (first : bool) (st : St) :
  is_u64 i → is_u64 b → 0 ≤ s < 8 →
  @exec debug_profile St _ (OffsetSp 0) first (new i s b, st) = Panic.
Proof.
  intros Hi Hb Hs.
  assert (Hsp : sp (new i s b) = s) by (unfold new; by simpl_regs).
  unfold exec, new_sp_and_bp, mbind, M_bind, get_regs, checked_add, try_, checked_uint.
  cbn [fst snd]. rewrite Hsp, in_uint_true by range. simpl.
  unfold lift, uarith. rewrite in_uint_false by range. done.
Qed.

Lemma exec_debug_panic_witness :
  @exec debug_profile _ words_reader (OffsetSp 0) true (new 0x100300 0 0, example_stack)
    = Panic.
Proof.
  apply (@exec_debug_panic (list Z) words_reader 0x100300 0 0 true example_stack);
    unfold_ranges; lia.
Defined.

(** Every successful step of an x86_64 rule makes progress: it yields a non-zero
    return address, which is the new instruction pointer, the stack pointer does not
    move down, and if it stays in place the instruction pointer changes.  The registers
    stay machine words on every outcome, and an unsuccessful execution leaves them
    unchanged unless the rule pops registers. *)
Lemma exec_outcomes `{Profile} {St} `{StackReader St}
    (rule : UnwindRuleX86_64) (first : bool) (r r' : UnwindRegsX86_64) (st st' : St)
    (res : result (option Z) Error) :
  wf_regs r → wf_rule rule →
  exec rule first (r, st) = Val (res, (r', st')) →
  wf_regs r' ∧
  match res with
  | Ok (Some ra) =>
      ra ≠ 0 ∧ ip r' = ra ∧ sp r ≤ sp r' ∧ (sp r' = sp r → ra ≠ ip r)
  | _ =>
      match rule with OffsetSpAndPopRegisters _ _ _ => True | _ => r' = r end
  end.
Proof.
  intros Hr Hrule Hrun. pose proof (wp_run _ _ _ _ _ _ (wp_exec rule first r st Hr Hrule) Hrun)
    as [Hr' Hres]. split; [done|]. destruct res as [[ra|]|e]; [|done|done].
  destruct Hres as (_ & ? & ? & ? & ?). done.
Qed.

Lemma exec_outcomes_witness :
  wf_regs (new 0x100300 0x18 0x20) ∧
  0x100300 ≠ 0 ∧ ip (new 0x100300 0x18 0x20) = 0x100300 ∧
  sp (new 0x100400 0x10 0x20) ≤ sp (new 0x100300 0x18 0x20) ∧
  (sp (new 0x100300 0x18 0x20) = sp (new 0x100400 0x10 0x20) →
   0x100300 ≠ ip (new 0x100400 0x10 0x20)).
Proof.
  apply (@exec_outcomes release_profile (list Z) words_reader JustReturn true
    (new 0x100400 0x10 0x20) (new 0x100300 0x18 0x20) example_stack example_stack
    (Ok (Some 0x100300))).
  - apply wf_new; range.
  - exact I.
  - vm_compute. reflexivity.
Defined.

(** * Rules for epilogues

    The machine reading of a sequence of stack adjustments and pops, the instructions
    that precede a [ret]. *)

Definition run_op (mem : Z → option Z) (op : OffsetOrPop) (r : UnwindRegsX86_64) :
    option UnwindRegsX86_64 :=
  match op with
  | NotOffsetOrPop => None
  | OffsetBy8 n => Some (set_sp r (sp r + n * 8))
  | Pop reg => v ← mem (sp r); Some (set_sp (set r reg v) (sp r + 8))
  end.

Fixpoint run_ops (mem : Z → option Z) (ops : list OffsetOrPop) (r : UnwindRegsX86_64) :
    option UnwindRegsX86_64 :=
  match ops with
  | [] => Some r
  | op :: ops' => r' ← run_op mem op r; run_ops mem ops' r'
  end.

(** The sequences that have a rule: an optional adjustment, then pops of distinct
    callee-saved registers. *)
Definition encodable (ops : list OffsetOrPop) : Prop :=
  ∃ to_pop, NoDup to_pop ∧ to_pop ⊆ ENCODE_REGISTERS ∧
    (ops = Pop <$> to_pop ∨ ∃ n, ops = OffsetBy8 n :: (Pop <$> to_pop)).

Lemma set_sp_set r reg v x : reg ≠ RSP → set (set_sp r x) reg v = set_sp (set r reg v) x.
Proof.
  intros Hne. apply regs_ext; [done|]. intros reg'. unfold set_sp. rewrite !get_set.
  by repeat case_decide; subst.
Qed.
Lemma set_sp_set_sp r x y : set_sp (set_sp r x) y = set_sp r y.
Proof.
  apply regs_ext; [done|]. intros reg. unfold set_sp. rewrite !get_set.
  by repeat case_decide.
Qed.
Lemma set_sp_id r : set_sp r (sp r) = r.
Proof.
  apply regs_ext; [done|]. intros reg. unfold set_sp, sp. rewrite get_set.
  by case_decide; subst.
Qed.

Lemma pop_all_set_sp mem to_pop lo r x :
  RSP ∉ to_pop →
  pop_all mem to_pop lo (set_sp r x) =
    (λ p, (p.1, set_sp p.2 x)) <$> pop_all mem to_pop lo r.
Proof.
  revert lo r. induction to_pop as [|reg to_pop IH]; intros lo r Hni; simpl; [done|].
  apply not_elem_of_cons in Hni as [Hne Hni].
  destruct (mem lo); simpl; [|done]. rewrite set_sp_set by done. by apply IH.
Qed.

Lemma run_pops mem to_pop r :
  RSP ∉ to_pop →
  run_ops mem (Pop <$> to_pop) r =
    (λ p, set_sp p.2 p.1) <$> pop_all mem to_pop (sp r) r.
Proof.
  revert r. induction to_pop as [|reg to_pop IH]; intros r Hni; simpl.
  { by rewrite set_sp_id. }
  apply not_elem_of_cons in Hni as [Hne Hni].
  destruct (mem (sp r)) as [v|]; simpl; [|done].
  rewrite IH by done. replace (sp (set_sp (set r reg v) (sp r + 8))) with (sp r + 8)
    by (by simpl_regs).
  rewrite pop_all_set_sp by done. rewrite <- option_fmap_compose.
  apply option_fmap_ext. intros [hi r']; simpl. by rewrite set_sp_set_sp.
Qed.

Lemma pop_all_sp_reg mem to_pop lo r hi r' :
  RSP ∉ to_pop → pop_all mem to_pop lo r = Some (hi, r') → sp r' = sp r.
Proof.
  revert lo r. induction to_pop as [|reg to_pop IH]; intros lo r Hni; simpl.
  { by intros [= _ ->]. }
  apply not_elem_of_cons in Hni as [Hne Hni].
  destruct (mem lo); simpl; [|done]. intros ->%IH; [|done].
  unfold sp. by rewrite get_set_ne by done.
Qed.

Lemma collect_pops_Some acc ops regs :
  collect_pops acc ops = Some regs →
  ∃ l, ops = Pop <$> l ∧ regs = acc ++ l.
Proof.
  revert acc. induction ops as [|op ops IH]; intros acc; simpl.
  { intros [= ->]. exists []. by rewrite app_nil_r. }
  destruct op as [| |reg]; try done. destruct (length acc <? 8)%nat; [|done].
  intros (l & -> & ->)%IH. exists (reg :: l). split; [done|]. by rewrite <- app_assoc.
Qed.
Lemma collect_pops_complete acc l :
  (length acc + length l ≤ 8)%nat → collect_pops acc (Pop <$> l) = Some (acc ++ l).
Proof.
  revert acc. induction l as [|reg l IH]; intros acc Hl; simpl in *.
  { by rewrite app_nil_r. }
  destruct (Nat.ltb_spec (length acc) 8); [|lia].
  rewrite IH by (rewrite length_app; simpl; lia). by rewrite <- app_assoc.
Qed.

(** The rule of a sequence of pops behind an adjustment, whichever way the adjustment
    was written. *)
Lemma denote_pops `{Profile} mem first n to_pop r rule :
  NoDup to_pop → to_pop ⊆ ENCODE_REGISTERS →
  (if match to_pop with [] => n =? 0 | _ => false end then Val (Some JustReturn)
   else e ← encode to_pop;
        match e with
        | None => Val None
        | Some (c, e) => Val (Some (OffsetSpAndPopRegisters n c e))
        end) = Val (Some rule) →
  denote mem rule first r =
    (λ r', (sp r' + 8, set_sp r' (sp r))) <$>
      run_ops mem (Pop <$> to_pop) (set_sp r (sp r + n * 8)).
Proof.
  intros Hnd Hsub.
  assert (Hni : RSP ∉ to_pop).
  { intros Hin%Hsub. revert Hin. apply (bool_decide_unpack _). by vm_compute. }
  assert (Hsp : sp (set_sp r (sp r + n * 8)) = sp r + n * 8) by (by simpl_regs).
  rewrite run_pops by done. rewrite Hsp.
  rewrite pop_all_set_sp by done. rewrite <- !option_fmap_compose.
  destruct (proj2 (enc_domain to_pop) (conj Hnd Hsub)) as [e He].
  pose proof (encode_enc to_pop) as Ho. rewrite He in Ho. simpl in Ho.
  set (c := Z.of_nat (length to_pop)) in Ho.
  pose proof (encode_sound _ _ _ Ho) as (_ & _ & _ & Hdec).
  rewrite Ho. cbn [mbind may_bind].
  assert (Hgen : Val (Some (OffsetSpAndPopRegisters n c e)) = Val (Some rule) →
    denote mem rule first r =
      (λ r', (sp r' + 8, set_sp r' (sp r))) ∘ (λ p, set_sp p.2 p.1) ∘
      (λ p, (p.1, set_sp p.2 (sp r + n * 8))) <$> pop_all mem to_pop (sp r + n * 8) r).
  { intros [= <-]. unfold denote. rewrite Hdec.
    destruct (pop_all mem to_pop (sp r + n * 8) r) as [[hi r']|] eqn:Hp; simpl; [|done].
    do 2 f_equal; [by simpl_regs|]. rewrite !set_sp_set_sp.
    rewrite <- (pop_all_sp_reg _ _ _ _ _ _ Hni Hp). by rewrite set_sp_id. }
  destruct to_pop as [|reg to_pop]; [|exact Hgen].
  destruct (Z.eqb_spec n 0) as [->|]; [|exact Hgen].
  intros [= <-]. simpl. do 2 f_equal; [simpl_regs; lia|]. by rewrite !set_sp_set_sp, set_sp_id.
Qed.

Lemma pops_rule_total `{Profile} (n : Z) (to_pop : list Reg) :
  ∃ o, (if match to_pop with [] => n =? 0 | _ => false end then Val (Some JustReturn)
        else e ← encode to_pop;
             match e with
             | None => Val None
             | Some (c, e) => Val (Some (OffsetSpAndPopRegisters n c e))
             end) = Val o ∧
       (is_Some o ↔ NoDup to_pop ∧ to_pop ⊆ ENCODE_REGISTERS).
Proof.
  rewrite encode_enc. pose proof (enc_domain to_pop) as Hdom.
  rewrite <- (fmap_is_Some (λ e, (Z.of_nat (length to_pop), e))) in Hdom.
  set (e := _ <$> enc _ _) in *. cbn [mbind may_bind].
  assert (Hgen : ∃ o, match e with
      | None => Val None
      | Some (c, e) => Val (Some (OffsetSpAndPopRegisters n c e)) end = Val o ∧
      (is_Some o ↔ NoDup to_pop ∧ to_pop ⊆ ENCODE_REGISTERS)).
  { destruct e as [[c e]|]; eexists; (split; [done|]); rewrite <- Hdom;
      split; intros [? [=]]; by eexists. }
  destruct to_pop as [|reg to_pop]; [|exact Hgen].
  destruct (n =? 0); [|exact Hgen]. eexists; split; [done|]. split; [|by eexists].
  intros _. split; [constructor|set_solver].
Qed.

(** Splitting off the adjustment does not change what a sequence does. *)
Definition split_offset (ops : list OffsetOrPop) : Z * list OffsetOrPop :=
  match ops with OffsetBy8 n :: rest => (n, rest) | _ => (0, ops) end.

Lemma run_ops_split mem ops r :
  run_ops mem ops r =
    run_ops mem (split_offset ops).2 (set_sp r (sp r + (split_offset ops).1 * 8)).
Proof.
  unfold split_offset. destruct ops as [|[] ops]; simpl; try done;
    by rewrite Z.add_0_r, set_sp_id.
Qed.

(** The rule of a sequence denotes what the sequence does. *)
Lemma for_sequence_denotes `{Profile} ops rule mem first r :
  for_sequence_of_offset_or_pop ops = Val (Some rule) →
  denote mem rule first r =
    (λ r', (sp r' + 8, set_sp r' (sp r))) <$> run_ops mem ops r.
Proof.
  unfold for_sequence_of_offset_or_pop. fold (split_offset ops). rewrite run_ops_split.
  destruct (split_offset ops) as [n rest]. cbn [fst snd].
  destruct (collect_pops [] rest) as [to_pop|] eqn:Hc; [|done].
  apply collect_pops_Some in Hc as (l & -> & ->). rewrite app_nil_l. intros Hrule.
  destruct (pops_rule_total n l) as (o & Ho & Hdom).
  assert (Heq : o = Some rule) by congruence. subst o.
  destruct Hdom as [[Hnd Hsub] _]; [by eexists|]. by apply denote_pops.
Qed.

Lemma for_sequence_wf `{Profile} ops rule :
  (∀ n, OffsetBy8 n ∈ ops → is_u16 n) →
  for_sequence_of_offset_or_pop ops = Val (Some rule) → wf_rule rule.
Proof.
  intros Hops. unfold for_sequence_of_offset_or_pop. fold (split_offset ops).
  assert (Hn : is_u16 (split_offset ops).1).
  { unfold split_offset. destruct ops as [|[| |] ops]; try (by vm_compute).
    apply Hops. by left. }
  destruct (split_offset ops) as [n rest]. simpl in Hn.
  destruct (collect_pops [] rest) as [to_pop|]; [|done].
  destruct (match to_pop with [] => n =? 0 | _ => false end); [by intros [= <-]|].
  destruct (encode to_pop) as [[[c e]|]|] eqn:He; cbn [mbind may_bind]; [|done|done].
  apply encode_sound in He as (-> & Hl & He & _). intros [= <-].
  pose proof (falling_8 (length to_pop) Hl). simpl. split_and!; [done|range|lia|lia].
Qed.

(** C22.  [for_sequence_of_offset_or_pop] never panics; it has a rule exactly for an
    optional stack adjustment followed by pops of distinct callee-saved registers, and
    that rule denotes the frame reached by running the adjustment, the pops and a [ret]
    on the machine. *)
Theorem for_sequence_runs_epilogue `{Profile} (ops : list OffsetOrPop) :
  ∃ o, for_sequence_of_offset_or_pop ops = Val o ∧
    (is_Some o ↔ encodable ops) ∧
    ∀ rule, o = Some rule → ∀ mem first r,
      denote mem rule first r =
        (λ r', (sp r' + 8, set_sp r' (sp r))) <$> run_ops mem ops r.
Proof.
  assert (Henc : encodable ops ↔ ∃ to_pop, NoDup to_pop ∧ to_pop ⊆ ENCODE_REGISTERS ∧
    (split_offset ops).2 = Pop <$> to_pop).
  { unfold split_offset, encodable. split.
    - intros (l & ? & ? & [->|[n ->]]); exists l; [|done].
      split_and!; [done|done|]. by destruct l.
    - intros (l & ? & ? & Hl). exists l. split_and!; [done|done|].
      destruct ops as [|[|n|reg] ops]; simpl in *; (by left) || (right; exists n; by rewrite Hl). }
  assert (Hmain : ∃ o, for_sequence_of_offset_or_pop ops = Val o ∧ (is_Some o ↔ encodable ops)).
  { setoid_rewrite Henc. unfold for_sequence_of_offset_or_pop. fold (split_offset ops).
    destruct (split_offset ops) as [n rest]. cbn [snd].
    destruct (collect_pops [] rest) as [to_pop|] eqn:Hc.
    - apply collect_pops_Some in Hc as (l & -> & ->). rewrite app_nil_l.
      destruct (pops_rule_total n l) as (o & Ho & Hdom). exists o. split; [exact Ho|].
      rewrite Hdom. split; [by intros [??]; exists l|]. intros (l' & ? & ? & Heq).
      apply list_fmap_eq_inj in Heq as ->; [done|]. by intros ?? [= ->].
    - exists None. split; [done|]. split; [by intros [??]|].
      intros (l & Hnd & Hsub & ->). rewrite (collect_pops_complete [] l) in Hc; [done|].
      simpl. destruct (proj2 (enc_domain l) (conj Hnd Hsub)) as [e He].
      pose proof (encode_enc l) as Ho. rewrite He in Ho.
      by apply encode_sound in Ho as (_ & Hl & _). }
  destruct Hmain as (o & Ho & Hdom). exists o. split_and!; [done|done|].
  intros rule -> mem first r. by apply for_sequence_denotes.
Qed.
