(* ===== verification/RuleCache.v ===== *)
(** The direct-mapped cache of unwind rules ([src/rule_cache.rs]). *)

From S2P Require Import Prelude.
Local Open Scope Z_scope.

Definition CACHE_ENTRY_COUNT : Z := 509.

Record CacheStats : Type := mk_stats {
  hit_count : Z;
  miss_empty_slot_count : Z;
  miss_wrong_modules_count : Z;
  miss_wrong_address_count : Z;
}.

Record CacheHandle : Type := mk_handle {
  handle_slot : Z;
  handle_address : Z;
  handle_generation : Z;
}.

Definition stats_new : CacheStats := mk_stats 0 0 0 0.

Section RuleCache.
Context `{Profile} {R : Type}.

Record CacheEntry : Type := mk_entry {
  entry_address : Z;
  entry_generation : Z;
  entry_rule : R;
}.

Record RuleCache : Type := mk_cache {
  entries : list (option CacheEntry);
  stats : CacheStats;
}.

Inductive CacheResult : Type :=
| Miss (handle : CacheHandle)
| Hit (unwind_rule : R).

Definition new : RuleCache :=
  mk_cache (replicate (Z.to_nat CACHE_ENTRY_COUNT) None) stats_new.

(** The [+= 1] on each of the counters. *)
Definition count_hit (s : CacheStats) : may CacheStats :=
  n ← uarith 64 (hit_count s + 1);
  Val (mk_stats n (miss_empty_slot_count s) (miss_wrong_modules_count s)
         (miss_wrong_address_count s)).
Definition count_miss_empty_slot (s : CacheStats) : may CacheStats :=
  n ← uarith 64 (miss_empty_slot_count s + 1);
  Val (mk_stats (hit_count s) n (miss_wrong_modules_count s)
         (miss_wrong_address_count s)).
Definition count_miss_wrong_modules (s : CacheStats) : may CacheStats :=
  n ← uarith 64 (miss_wrong_modules_count s + 1);
  Val (mk_stats (hit_count s) (miss_empty_slot_count s) n
         (miss_wrong_address_count s)).
Definition count_miss_wrong_address (s : CacheStats) : may CacheStats :=
  n ← uarith 64 (miss_wrong_address_count s + 1);
  Val (mk_stats (hit_count s) (miss_empty_slot_count s) (miss_wrong_modules_count s) n).

Definition lookup (self : RuleCache) (address modules_generation : Z) :
    may (CacheResult * RuleCache) :=
  let slot := wrap 16 (address mod CACHE_ENTRY_COUNT) in
  let miss (stats : CacheStats) :=
    (Miss (mk_handle slot address modules_generation), mk_cache (entries self) stats) in
  entry ← index (entries self) slot;
  match entry with
  | None => s ← count_miss_empty_slot (stats self); Val (miss s)
  | Some entry =>
      if entry_generation entry =? modules_generation then
        if entry_address entry =? address then
          s ← count_hit (stats self);
          Val (Hit (entry_rule entry), mk_cache (entries self) s)
        else s ← count_miss_wrong_address (stats self); Val (miss s)
      else s ← count_miss_wrong_modules (stats self); Val (miss s)
  end.

Definition insert (self : RuleCache) (handle : CacheHandle) (unwind_rule : R) :
    may RuleCache :=
  _ ← index (entries self) (handle_slot handle);
  Val (mk_cache
    (<[Z.to_nat (handle_slot handle) :=
        Some (mk_entry (handle_address handle) (handle_generation handle) unwind_rule)]>
      (entries self))
    (stats self)).

(** [CacheStats::misses], [hits] and [total]. *)
Definition misses (s : CacheStats) : may Z :=
  n ← uarith 64 (miss_empty_slot_count s + miss_wrong_modules_count s);
  uarith 64 (n + miss_wrong_address_count s).
Definition hits (s : CacheStats) : Z := hit_count s.
Definition total (s : CacheStats) : may Z :=
  m ← misses s;
  uarith 64 (hits s + m).
End RuleCache.
Arguments CacheEntry : clear implicits.
Arguments RuleCache : clear implicits.
Arguments CacheResult : clear implicits.

(** * The cache as a lossy map

    [cached c a g] is the rule the cache knows for address [a] in the module list of
    generation [g]. *)

Section Spec.
Context {R : Type}.
Implicit Types (c : RuleCache R).

Definition wf_cache c : Prop := length (entries c) = Z.to_nat CACHE_ENTRY_COUNT.

(** The counters are far enough from the end of [u64] for one more event. *)
Definition stats_room (s : CacheStats) : Prop :=
  0 ≤ hit_count s < 2 ^ 64 - 1 ∧ 0 ≤ miss_empty_slot_count s < 2 ^ 64 - 1 ∧
  0 ≤ miss_wrong_modules_count s < 2 ^ 64 - 1 ∧
  0 ≤ miss_wrong_address_count s < 2 ^ 64 - 1.

Definition slot_of (a : Z) : Z := a mod CACHE_ENTRY_COUNT.

Definition cached c (a g : Z) : option R :=
  match entries c !! Z.to_nat (slot_of a) with
  | Some (Some e) =>
      if (entry_generation e =? g) && (entry_address e =? a) then Some (entry_rule e)
      else None
  | _ => None
  end.

Definition handle_for (a g : Z) : CacheHandle := mk_handle (slot_of a) a g.

Lemma slot_of_bound a : 0 ≤ slot_of a < 509.
Proof. by apply Z.mod_pos_bound. Qed.

Lemma slot_of_u16 a : wrap 16 (slot_of a) = slot_of a.
Proof. apply wrap_id. pose proof (slot_of_bound a). range. Qed.

Lemma wf_cache_lookup c a :
  wf_cache c → ∃ e, entries c !! Z.to_nat (slot_of a) = Some e ∧
                    index (entries c) (slot_of a) = Val e.
Proof.
  intros Hwf. pose proof (slot_of_bound a).
  destruct (lookup_lt_is_Some_2 (entries c) (Z.to_nat (slot_of a))) as [e He].
  { rewrite Hwf. unfold CACHE_ENTRY_COUNT. lia. }
  exists e. split; [done|]. unfold index.
  destruct (Z.leb_spec 0 (slot_of a)); [|lia]. by rewrite He.
Qed.

Lemma wf_cache_new : wf_cache (new : RuleCache R).
Proof. by vm_compute. Qed.

Lemma cached_new a g : cached (new : RuleCache R) a g = None.
Proof.
  unfold cached, new; cbn [entries].
  destruct (replicate (Z.to_nat CACHE_ENTRY_COUNT) None !! Z.to_nat (slot_of a))
    as [e|] eqn:He; [|done].
  by apply lookup_replicate in He as [-> _].
Qed.

Lemma cached_slot c e a g r :
  entries c !! Z.to_nat (slot_of a) = Some e → cached c a g = Some r →
  ∃ e', e = Some e' ∧ entry_rule e' = r ∧ entry_generation e' = g ∧ entry_address e' = a.
Proof.
  unfold cached. intros ->. destruct e as [e'|]; [|done].
  destruct (Z.eqb_spec (entry_generation e') g), (Z.eqb_spec (entry_address e') a);
    simpl; naive_solver.
Qed.

Lemma slot_nat_inj a b : Z.to_nat (slot_of a) = Z.to_nat (slot_of b) ↔ slot_of a = slot_of b.
Proof. pose proof (slot_of_bound a). pose proof (slot_of_bound b). lia. Qed.
End Spec.

Section Lemmas.
Context `{Profile} {R : Type}.
Implicit Types (c : RuleCache R).

(** A lookup answers from the map, leaves it unchanged, and moves exactly one counter;
    with room in the counters it never panics. *)
Lemma lookup_run c a g :
  wf_cache c → overflow_checks = false ∨ stats_room (stats c) →
  ∃ c', entries c' = entries c ∧
    lookup c a g = Val (match cached c a g with
                        | Some r => Hit r
                        | None => Miss (handle_for a g)
                        end, c').
Proof.
  intros Hwf Hroom. destruct (wf_cache_lookup c a Hwf) as (e & He & Hi).
  assert (Hcount : ∀ z, overflow_checks = false ∨ is_u64 z → ∃ z', uarith 64 z = Val z').
  { intros z Hz. unfold uarith. destruct (in_uint_spec 64 z); [by eexists|].
    destruct Hz as [->|]; [by eexists|done]. }
  unfold lookup. fold (slot_of a). rewrite slot_of_u16, Hi. cbn [mbind may_bind].
  unfold cached. rewrite He.
  unfold count_hit, count_miss_empty_slot, count_miss_wrong_modules,
    count_miss_wrong_address, stats_room in *.
  destruct e as [e|].
  2:{ destruct (Hcount (miss_empty_slot_count (stats c) + 1)) as [z ->];
      [destruct Hroom; [by left|right; range]|]. eexists; split; [|reflexivity]; done. }
  destruct (entry_generation e =? g).
  2:{ destruct (Hcount (miss_wrong_modules_count (stats c) + 1)) as [z ->];
      [destruct Hroom; [by left|right; range]|]. eexists; split; [|reflexivity]; done. }
  destruct (entry_address e =? a).
  - destruct (Hcount (hit_count (stats c) + 1)) as [z ->];
      [destruct Hroom; [by left|right; range]|]. eexists; split; [|reflexivity]; done.
  - destruct (Hcount (miss_wrong_address_count (stats c) + 1)) as [z ->];
      [destruct Hroom; [by left|right; range]|]. eexists; split; [|reflexivity]; done.
Qed.

(** Inserting at the handle of an address makes the map answer for it and forget what
    shared its slot. *)
Lemma insert_run c a g r :
  wf_cache c →
  ∃ c', insert c (handle_for a g) r = Val c' ∧ wf_cache c' ∧ stats c' = stats c ∧
    ∀ a' g', cached c' a' g' =
      if decide (a' = a ∧ g' = g) then Some r
      else if decide (slot_of a' = slot_of a) then None
      else cached c a' g'.
Proof.
  intros Hwf. destruct (wf_cache_lookup c a Hwf) as (e & He & Hi).
  unfold insert, handle_for; simpl. rewrite Hi. eexists; split_and!; [done| |done|].
  { unfold wf_cache; simpl. by rewrite length_insert. }
  intros a' g'. unfold cached; simpl.
  destruct (decide (slot_of a' = slot_of a)) as [Hs|Hs].
  - rewrite Hs, list_lookup_insert_eq by eauto using lookup_lt_Some; simpl.
    destruct (Z.eqb_spec g g'), (Z.eqb_spec a a'), (decide (a' = a ∧ g' = g));
      simpl; destruct_and?; subst; try done; exfalso; auto.
  - rewrite list_lookup_insert_ne by (by rewrite slot_nat_inj).
    rewrite decide_False; [done|]. by intros [-> _].
Qed.
End Lemmas.

(** C14.  The cache refines a lossy map from (address, generation) to rules.  A lookup
    returns the rule the map holds, or a handle for the key, and changes no entry; an
    insert through that handle makes the map answer the rule for the key, evicts the
    other keys of the same slot modulo 509 and keeps every other key.  Neither panics
    while the counters have room. *)
Theorem cache_refines_lossy_map `{Profile} {R} (c : RuleCache R) (a g : Z) :
  wf_cache c → overflow_checks = false ∨ stats_room (stats c) →
  ∃ c1, entries c1 = entries c ∧
    lookup c a g = Val (match cached c a g with
                        | Some r => Hit r | None => Miss (handle_for a g) end, c1) ∧
    ∀ r, ∃ c2, insert c1 (handle_for a g) r = Val c2 ∧ wf_cache c2 ∧
      ∀ a' g', cached c2 a' g' =
        if decide (a' = a ∧ g' = g) then Some r
        else if decide (a' mod 509 = a mod 509) then None
        else cached c a' g'.
Proof.
  intros Hwf Hroom. destruct (lookup_run c a g Hwf Hroom) as (c1 & Hent & Hl).
  exists c1. split_and!; [done|done|]. intros r.
  assert (Hwf1 : wf_cache c1) by (unfold wf_cache; by rewrite Hent).
  destruct (insert_run c1 a g r Hwf1) as (c2 & Hi & Hwf2 & _ & Hc).
  exists c2. split_and!; [done|done|]. intros a' g'. rewrite Hc.
  replace (cached c1 a' g') with (cached c a' g') by (unfold cached; by rewrite Hent).
  done.
Qed.

Lemma cache_refines_lossy_map_witness :
  ∃ c1 : RuleCache Z, entries c1 = entries new ∧
    @lookup debug_profile Z new 1000 7 = Val (Miss (handle_for 1000 7), c1) ∧
    ∀ r, ∃ c2, insert c1 (handle_for 1000 7) r = Val c2 ∧ wf_cache c2 ∧
      ∀ a' g', cached c2 a' g' =
        if decide (a' = 1000 ∧ g' = 7) then Some r
        else if decide (a' mod 509 = 1000 mod 509) then None
        else cached new a' g'.
Proof.
  apply (@cache_refines_lossy_map debug_profile Z new 1000 7).
  - reflexivity.
  - right. repeat split; vm_compute; congruence.
Defined.
