(* ===== verification/A64UnwindRegs.v ===== *)
(** The aarch64 unwind registers and the pointer authentication mask
    ([src/aarch64/unwindregs.rs]). *)

From S2P Require Import Prelude.
Local Open Scope Z_scope.

(** [PtrAuthMask(pub u64)]. *)
Record PtrAuthMask : Type := mk_mask { mask : Z }.

Definition u64_max : Z := 2 ^ 64 - 1.

(** [u64::leading_zeros]. *)
Definition leading_zeros (a : Z) : Z := if a =? 0 then 64 else 63 - Z.log2 a.

(** The [>>] operator on [u64]: a shift amount of 64 or more is an overflow, which
    panics under overflow checks and is reduced modulo 64 otherwise. *)
Definition shr64 `{Profile} (a n : Z) : may Z :=
  if n <? 64 then Val (Z.shiftr a n)
  else if overflow_checks then Panic else Val (Z.shiftr a (n mod 64)).

Definition new_no_strip : PtrAuthMask := mk_mask u64_max.
Definition new_24_40 `{Profile} : may PtrAuthMask := m ← shr64 u64_max 24; Val (mk_mask m).
Definition from_max_known_address `{Profile} (address : Z) : may PtrAuthMask :=
  m ← shr64 u64_max (leading_zeros address); Val (mk_mask m).
Definition strip_ptr_auth (self : PtrAuthMask) (ptr : Z) : Z := Z.land ptr (mask self).

Record UnwindRegsAarch64 : Type := mk_regs {
  lr_mask : PtrAuthMask;
  lr : Z;
  sp : Z;
  fp : Z;
}.

Definition new (lr sp fp : Z) : UnwindRegsAarch64 := mk_regs new_no_strip lr sp fp.
Definition new_with_ptr_auth_mask (code_ptr_auth_mask : PtrAuthMask) (lr sp fp : Z) :
    UnwindRegsAarch64 :=
  mk_regs code_ptr_auth_mask (strip_ptr_auth code_ptr_auth_mask lr) sp fp.
Definition set_sp (self : UnwindRegsAarch64) (v : Z) : UnwindRegsAarch64 :=
  mk_regs (lr_mask self) (lr self) v (fp self).
Definition set_fp (self : UnwindRegsAarch64) (v : Z) : UnwindRegsAarch64 :=
  mk_regs (lr_mask self) (lr self) (sp self) v.
Definition set_lr (self : UnwindRegsAarch64) (v : Z) : UnwindRegsAarch64 :=
  mk_regs (lr_mask self) (strip_ptr_auth (lr_mask self) v) (sp self) (fp self).

Definition wf_regs (r : UnwindRegsAarch64) : Prop :=
  is_u64 (mask (lr_mask r)) ∧ is_u64 (lr r) ∧ is_u64 (sp r) ∧ is_u64 (fp r).

Lemma strip_u64 m p : is_u64 (mask m) → is_u64 p → is_u64 (strip_ptr_auth m p).
Proof.
  unfold strip_ptr_auth, is_uint. intros Hm Hp. split; [apply Z.land_nonneg; lia|].
  destruct (decide (Z.land p (mask m) = 0)) as [->|Hnz]; [lia|].
  apply Z.log2_lt_pow2.
  { pose proof (proj2 (Z.land_nonneg p (mask m)) (or_introl (proj1 Hp))). lia. }
  eapply Z.le_lt_trans; [apply Z.log2_land; lia|].
  apply Z.min_lt_iff. left. destruct (decide (p = 0)) as [->|]; [done|].
  apply Z.log2_lt_pow2; lia.
Qed.

Lemma strip_strip m p : strip_ptr_auth m (strip_ptr_auth m p) = strip_ptr_auth m p.
Proof. unfold strip_ptr_auth. by rewrite <- Z.land_assoc, Z.land_diag. Qed.

Lemma wf_set_sp r v : wf_regs r → is_u64 v → wf_regs (set_sp r v).
Proof. unfold wf_regs; simpl. tauto. Qed.
Lemma wf_set_fp r v : wf_regs r → is_u64 v → wf_regs (set_fp r v).
Proof. unfold wf_regs; simpl. tauto. Qed.
Lemma wf_set_lr r v : wf_regs r → is_u64 v → wf_regs (set_lr r v).
Proof.
  intros (? & ? & ? & ?) ?. unfold wf_regs; simpl. split_and!; auto using strip_u64.
Qed.
Lemma wf_new_aarch64 l s f : is_u64 l → is_u64 s → is_u64 f → wf_regs (new l s f).
Proof. intros. unfold wf_regs; simpl. split_and!; done. Qed.

Create HintDb a64wf.
#[export] Hint Resolve wf_set_sp wf_set_fp wf_set_lr wf_new_aarch64 strip_u64 : a64wf.

(** A mask of [n] low bits keeps the pointer modulo [2 ^ n]. *)
Lemma strip_ones n p : 0 ≤ n → strip_ptr_auth (mk_mask (Z.ones n)) p = p mod 2 ^ n.
Proof. intros Hn. unfold strip_ptr_auth; simpl. by apply Z.land_ones. Qed.

Lemma u64_max_shr n : 0 ≤ n ≤ 64 → Z.shiftr u64_max n = Z.ones (64 - n).
Proof.
  intros Hn. change u64_max with (Z.ones 64). apply Z.bits_inj'. intros i Hi.
  rewrite Z.shiftr_spec by done.
  destruct (decide (i < 64 - n)).
  - rewrite !Z.ones_spec_low by lia. done.
  - rewrite !Z.ones_spec_high by lia. done.
Qed.

Lemma new_24_40_mask `{Profile} : new_24_40 = Val (mk_mask (2 ^ 40 - 1)).
Proof. done. Qed.

(** The mask of a non-zero highest address. *)
Lemma deduced_mask `{Profile} (a : Z) :
  0 < a < 2 ^ 64 →
  ∃ m, from_max_known_address a = Val m ∧
    (∀ p, 0 ≤ p ≤ a → strip_ptr_auth m p = p) ∧
    (∀ p, strip_ptr_auth m p = p mod 2 ^ (Z.log2 a + 1)).
Proof.
  intros Ha. unfold from_max_known_address, leading_zeros, shr64.
  pose proof (Z.log2_nonneg a).
  assert (Hlog : Z.log2 a < 64) by (apply Z.log2_lt_pow2; lia).
  destruct (Z.eqb_spec a 0); [lia|]. destruct (Z.ltb_spec (63 - Z.log2 a) 64); [|lia].
  rewrite u64_max_shr by lia. replace (64 - (63 - Z.log2 a)) with (Z.log2 a + 1) by lia.
  eexists; split; [done|].
  assert (Hstrip : ∀ p, strip_ptr_auth (mk_mask (Z.ones (Z.log2 a + 1))) p
                        = p mod 2 ^ (Z.log2 a + 1)) by (intros; apply strip_ones; lia).
  split; [|done]. intros p Hp. rewrite Hstrip. apply Z.mod_small.
  pose proof (Z.log2_spec a ltac:(lia)). replace (Z.log2 a + 1) with (Z.succ (Z.log2 a)) by lia.
  lia.
Qed.

(** C38.  The mask deduced from the highest known address keeps every code address up to
    it and reduces any pointer to as many low bits as that address has.  The address 0,
    which [max_known_code_address] returns when there are no modules, has no such mask:
    the shift by 64 bits panics in a build with overflow checks and strips nothing in a
    release build. *)
Theorem from_max_known_address_keeps `{Profile} (a : Z) :
  is_u64 a →
  if a =? 0 then
    from_max_known_address a = if overflow_checks then Panic else Val new_no_strip
  else
    ∃ m, from_max_known_address a = Val m ∧
      (∀ p, 0 ≤ p ≤ a → strip_ptr_auth m p = p) ∧
      (∀ p, strip_ptr_auth m p = p mod 2 ^ (Z.log2 a + 1)).
Proof.
  intros Ha. destruct (Z.eqb_spec a 0) as [->|]; [|apply deduced_mask; range].
  unfold from_max_known_address, leading_zeros, shr64. by destruct overflow_checks.
Qed.

Lemma from_max_known_address_keeps_witness :
  ∃ m, @from_max_known_address debug_profile 0x55ba9f07e000 = Val m ∧
    (∀ p, 0 ≤ p ≤ 0x55ba9f07e000 → strip_ptr_auth m p = p) ∧
    (∀ p, strip_ptr_auth m p = p mod 2 ^ (Z.log2 0x55ba9f07e000 + 1)).
Proof. apply (@from_max_known_address_keeps debug_profile 0x55ba9f07e000). range. Defined.
