(* ===== verification/A64UnwindRule.v ===== *)
(** The aarch64 unwind rules and their execution ([src/aarch64/unwind_rule.rs]). *)

From S2P Require Import Prelude AddSigned Error Arch A64UnwindRegs.
Local Open Scope Z_scope.

Inductive UnwindRuleAarch64 : Type :=
| NoOp
| NoOpIfFirstFrameOtherwiseFp
| OffsetSp (sp_offset_by_16 : Z)
| OffsetSpIfFirstFrameOtherwiseStackEndsHere (sp_offset_by_16 : Z)
| OffsetSpAndRestoreLr (sp_offset_by_16 lr_storage_offset_from_sp_by_8 : Z)
| OffsetSpAndRestoreFpAndLr
    (sp_offset_by_16 fp_storage_offset_from_sp_by_8 lr_storage_offset_from_sp_by_8 : Z)
| UseFramePointer
| UseFramepointerWithOffsets
    (sp_offset_from_fp_by_8 fp_storage_offset_from_fp_by_8
     lr_storage_offset_from_fp_by_8 : Z).

#[export] Instance UnwindRuleAarch64_eq_dec : EqDecision UnwindRuleAarch64.
Proof. solve_decision. Defined.

(** The field types, [u16] and [i16]. *)
Definition wf_rule (rule : UnwindRuleAarch64) : Prop :=
  match rule with
  | OffsetSp x | OffsetSpIfFirstFrameOtherwiseStackEndsHere x => is_u16 x
  | OffsetSpAndRestoreLr x y => is_u16 x ∧ is_i16 y
  | OffsetSpAndRestoreFpAndLr x y z | UseFramepointerWithOffsets x y z =>
      is_u16 x ∧ is_i16 y ∧ is_i16 z
  | _ => True
  end.

Definition rule_for_stub_functions : UnwindRuleAarch64 := NoOp.
Definition rule_for_function_start : UnwindRuleAarch64 := NoOp.
Definition fallback_rule : UnwindRuleAarch64 := UseFramePointer.

Section Exec.
Context `{Profile} {St : Type} `{StackReader St}.

Abbreviation X := (M (UnwindRegsAarch64 * St) Error).

Definition checked_add (a b : Z) : X Z :=
  try_ (ok_or (checked_uint 64 (a + b)) IntegerOverflow).

(** [checked_add_signed(base, i64::from(by_8) * 8).ok_or(IntegerOverflow)?] and the
    read at that location. *)
Definition read_slot (base by_8 : Z) : X Z :=
  location ← try_ (ok_or (checked_add_signed 64 base (by_8 * 8)) IntegerOverflow);
  read_or location (CouldNotReadStack location).

(** The match that computes [(new_lr, new_sp, new_fp)]; [None] is the early
    [return Ok(None)]. *)
Definition new_regs (self : UnwindRuleAarch64) (is_first_frame : bool) :
    X (option (Z * Z * Z)) :=
  regs ← get_regs;
  let lr := lr regs in
  let sp := sp regs in
  let fp := fp regs in
  match self with
  | NoOp =>
      if negb is_first_frame then throw DidNotAdvance else mret (Some (lr, sp, fp))
  | NoOpIfFirstFrameOtherwiseFp =>
      if is_first_frame then mret (Some (lr, sp, fp))
      else
        new_sp ← checked_add fp 16;
        lr_location ← lift (uarith 64 (fp + 8));
        new_lr ← read_or lr_location (CouldNotReadStack lr_location);
        new_fp ← read_or fp (CouldNotReadStack fp);
        if new_sp <=? sp then throw FramepointerUnwindingMovedBackwards
        else mret (Some (new_lr, new_sp, new_fp))
  | OffsetSpIfFirstFrameOtherwiseStackEndsHere sp_offset_by_16 =>
      if negb is_first_frame then mret None
      else
        new_sp ← checked_add sp (sp_offset_by_16 * 16);
        mret (Some (lr, new_sp, fp))
  | OffsetSp sp_offset_by_16 =>
      if negb is_first_frame then throw DidNotAdvance
      else
        new_sp ← checked_add sp (sp_offset_by_16 * 16);
        mret (Some (lr, new_sp, fp))
  | OffsetSpAndRestoreLr sp_offset_by_16 lr_storage_offset_from_sp_by_8 =>
      new_sp ← checked_add sp (sp_offset_by_16 * 16);
      new_lr ← read_slot sp lr_storage_offset_from_sp_by_8;
      mret (Some (new_lr, new_sp, fp))
  | OffsetSpAndRestoreFpAndLr sp_offset_by_16 fp_storage_offset_from_sp_by_8
      lr_storage_offset_from_sp_by_8 =>
      new_sp ← checked_add sp (sp_offset_by_16 * 16);
      new_lr ← read_slot sp lr_storage_offset_from_sp_by_8;
      new_fp ← read_slot sp fp_storage_offset_from_sp_by_8;
      mret (Some (new_lr, new_sp, new_fp))
  | UseFramePointer =>
      new_sp ← checked_add fp 16;
      lr_location ← lift (uarith 64 (fp + 8));
      new_lr ← read_or lr_location (CouldNotReadStack lr_location);
      new_fp ← read_or fp (CouldNotReadStack fp);
      if new_fp =? 0 then mret None
      else if (new_fp <=? fp) || (new_sp <=? sp)
      then throw FramepointerUnwindingMovedBackwards
      else mret (Some (new_lr, new_sp, new_fp))
  | UseFramepointerWithOffsets sp_offset_from_fp_by_8 fp_storage_offset_from_fp_by_8
      lr_storage_offset_from_fp_by_8 =>
      new_sp ← checked_add fp (sp_offset_from_fp_by_8 * 8);
      new_lr ← read_slot fp lr_storage_offset_from_fp_by_8;
      new_fp ← read_slot fp fp_storage_offset_from_fp_by_8;
      if new_fp =? 0 then mret None
      else if (new_fp <=? fp) || (new_sp <=? sp)
      then throw FramepointerUnwindingMovedBackwards
      else mret (Some (new_lr, new_sp, new_fp))
  end.

Definition exec (self : UnwindRuleAarch64) (is_first_frame : bool) : X (option Z) :=
  regs ← get_regs;
  let old_sp := sp regs in
  r ← new_regs self is_first_frame;
  match r with
  | None => mret None
  | Some (new_lr, new_sp, new_fp) =>
      let return_address := strip_ptr_auth (lr_mask regs) new_lr in
      if return_address =? 0 then mret None
      else if negb is_first_frame && (new_sp =? old_sp) then throw DidNotAdvance
      else
        put_regs (set_fp (set_sp (set_lr regs new_lr) new_sp) new_fp) ;;
        mret (Some return_address)
  end.
End Exec.

#[export] Instance ArchAarch64 : Arch := {
  Arch.UnwindRegs := UnwindRegsAarch64;
  Arch.UnwindRule := UnwindRuleAarch64;
  Arch.exec := @exec;
  Arch.rule_for_stub_functions := rule_for_stub_functions;
  Arch.rule_for_function_start := rule_for_function_start;
  Arch.fallback_rule := fallback_rule;
}.

(** * What the rules mean

    The documentation of the enum as a function from a memory and the callee's
    registers to the caller's [(lr, sp, fp)], over unbounded integers.  A rule that is
    only possible in the first frame denotes nothing elsewhere, and a frame-pointer
    step must move both pointers up. *)

Definition denote (mem : Z → option Z) (rule : UnwindRuleAarch64) (is_first_frame : bool)
    (r : UnwindRegsAarch64) : option (Z * Z * Z) :=
  match rule with
  | NoOp => if is_first_frame then Some (lr r, sp r, fp r) else None
  | OffsetSp x | OffsetSpIfFirstFrameOtherwiseStackEndsHere x =>
      if is_first_frame then Some (lr r, sp r + x * 16, fp r) else None
  | NoOpIfFirstFrameOtherwiseFp =>
      if is_first_frame then Some (lr r, sp r, fp r)
      else
        l ← mem (fp r + 8); f ← mem (fp r);
        if fp r + 16 <=? sp r then None else Some (l, fp r + 16, f)
  | OffsetSpAndRestoreLr x y =>
      l ← mem (sp r + y * 8); Some (l, sp r + x * 16, fp r)
  | OffsetSpAndRestoreFpAndLr x y z =>
      l ← mem (sp r + z * 8); f ← mem (sp r + y * 8); Some (l, sp r + x * 16, f)
  | UseFramePointer =>
      l ← mem (fp r + 8); f ← mem (fp r);
      if (f =? 0) || (f <=? fp r) || (fp r + 16 <=? sp r) then None
      else Some (l, fp r + 16, f)
  | UseFramepointerWithOffsets x y z =>
      l ← mem (fp r + z * 8); f ← mem (fp r + y * 8);
      if (f =? 0) || (f <=? fp r) || (fp r + x * 8 <=? sp r) then None
      else Some (l, fp r + x * 8, f)
  end.

(** * Every execution *)

Section ExecWp.
Context `{Profile} {St : Type} `{StackReader St}.
Implicit Types (r : UnwindRegsAarch64) (st : St).

Lemma wp_checked_add_aarch64 {A} pan a b (k : Z → M (UnwindRegsAarch64 * St) Error A) Q s :
  (is_u64 (a + b) → wp pan (k (a + b)) Q s) → Q (Err IntegerOverflow) s →
  wp pan (checked_add a b ≫= k) Q s.
Proof.
  intros Hk He. apply wp_bind. unfold wp at 1, checked_add, try_, checked_uint.
  destruct (in_uint_spec 64 (a + b)); simpl; auto.
Qed.

Lemma wp_read_slot {A} pan base y (k : Z → M (UnwindRegsAarch64 * St) Error A) Q s :
  (∀ v st', is_u64 v → wp pan (k v) Q (s.1, st')) →
  (∀ e st', Q (Err e) (s.1, st')) →
  wp pan (read_slot base y ≫= k) Q s.
Proof.
  intros Hk He. apply wp_bind. unfold read_slot. apply wp_bind, wp_try.
  destruct (checked_add_signed 64 base (y * 8)); simpl; [|destruct s; apply He].
  apply wp_read_or; auto.
Qed.

Definition new_regs_post r (first : bool) (res : result (option (Z * Z * Z)) Error)
    (s : UnwindRegsAarch64 * St) : Prop :=
  s.1 = r ∧
  match res with
  | Ok (Some (l, nsp, f)) => is_u64 l ∧ is_u64 nsp ∧ is_u64 f ∧ sp r ≤ nsp
  | _ => True
  end.

Lemma wp_new_regs rule first r st :
  wf_regs r → wf_rule rule →
  wp False (new_regs rule first) (new_regs_post r first) (r, st).
Proof.
  intros (Hm & Hl & Hs & Hf) Hrule.
  assert (Hno : ∀ res st', match res with Ok (Some _) => False | _ => True end →
    new_regs_post r first res (r, st')) by (by intros [[|]|]).
  assert (Hyes : ∀ l s f st', is_u64 l → is_u64 s → is_u64 f → sp r ≤ s →
    new_regs_post r first (Ok (Some (l, s, f))) (r, st')) by done.
  unfold new_regs. apply wp_bind, wp_get_regs. cbn [fst].
  destruct rule as [| |x|x|x y|x y z| |x y z]; simpl in Hrule.
  - destruct first; [apply wp_ret, Hyes|apply wp_throw, Hno]; done || lia.
  - destruct first; [apply wp_ret, Hyes; done || lia|].
    apply wp_checked_add_aarch64; [|by apply Hno]. intros Hn. apply wp_bind, wp_lift.
    2:{ by rewrite uarith_ok by range. }
    intros a _. do 2 (apply wp_bind, wp_read_or; [|intros; by apply Hno]; intros ? ? _ ?).
    destruct (Z.leb_spec (fp r + 16) (sp r)); [by apply wp_throw, Hno|].
    apply wp_ret, Hyes; done || lia.
  - destruct first; [|by apply wp_throw, Hno]. apply wp_checked_add_aarch64; [|by apply Hno].
    intros. apply wp_ret, Hyes; done || range.
  - destruct first; [|by apply wp_ret, Hno]. apply wp_checked_add_aarch64; [|by apply Hno].
    intros. apply wp_ret, Hyes; done || range.
  - apply wp_checked_add_aarch64; [|by apply Hno]. intros.
    apply wp_read_slot; [|intros; by apply Hno]. intros. apply wp_ret, Hyes; done || range.
  - apply wp_checked_add_aarch64; [|by apply Hno]. intros.
    do 2 (apply wp_read_slot; [|intros; by apply Hno]; intros).
    apply wp_ret, Hyes; done || range.
  - apply wp_checked_add_aarch64; [|by apply Hno]. intros Hn. apply wp_bind, wp_lift.
    2:{ by rewrite uarith_ok by range. }
    intros a _. do 2 (apply wp_bind, wp_read_or; [|intros; by apply Hno]; intros ? ? _ ?).
    case_match; [by apply wp_ret, Hno|].
    case_match eqn:Hb; [by apply wp_throw, Hno|]. apply orb_false_iff in Hb as [_ ?].
    apply wp_ret, Hyes; done || lia.
  - apply wp_checked_add_aarch64; [|by apply Hno]. intros Hn.
    do 2 (apply wp_read_slot; [|intros; by apply Hno]; intros).
    case_match; [by apply wp_ret, Hno|].
    case_match eqn:Hb; [by apply wp_throw, Hno|]. apply orb_false_iff in Hb as [_ ?].
    apply wp_ret, Hyes; done || lia.
Qed.

(** An execution never panics, in either profile, and only a success changes the
    registers. *)
Lemma wp_exec_aarch64 rule first r st :
  wf_regs r → wf_rule rule →
  wp False (exec rule first)
    (λ res s,
       match res with
       | Ok (Some ra) =>
           wf_regs s.1 ∧ is_u64 ra ∧ ra ≠ 0 ∧ lr s.1 = ra ∧ lr_mask s.1 = lr_mask r ∧
           sp r ≤ sp s.1 ∧ (first = false → sp r < sp s.1) ∧
           strip_ptr_auth (lr_mask r) ra = ra
       | _ => s.1 = r
       end) (r, st).
Proof.
  intros Hr Hrule. unfold exec. apply wp_bind, wp_get_regs. apply wp_bind.
  eapply wp_mono; [|by apply wp_new_regs].
  intros res [r0 st0] [Hsame Hres]. simpl in Hsame. subst r0. cbn [fst].
  destruct res as [[[[l nsp] f]|]|e]; [|by apply wp_ret|done].
  destruct Hres as (Hl & Hnsp & Hf & Hle).
  destruct (Z.eqb_spec (strip_ptr_auth (lr_mask r) l) 0); [by apply wp_ret|].
  destruct (negb first && (nsp =? sp r)) eqn:Hadv; [by apply wp_throw|].
  apply wp_bind, wp_put_regs, wp_ret. cbn [fst].
  split_and!; auto with a64wf.
  - by apply strip_u64; [apply Hr|].
  - intros ->. simpl in *. apply Z.eqb_neq in Hadv. lia.
  - apply strip_strip.
Qed.
End ExecWp.

(** * Execution against the specification *)

Section ExecRefinement.
Context `{Profile} {St : Type} `{PureReader St}.
Implicit Types (r : UnwindRegsAarch64) (st : St).

Lemma run_ok_checked_add r st a b :
  run_ok (checked_add a b) (r, st) = (λ v, (v, (r, st))) <$> checked_uint 64 (a + b).
Proof. unfold checked_add. apply run_ok_try. Qed.

Lemma run_ok_read_slot r st base y :
  is_u64 base → is_i16 y →
  run_ok (read_slot base y) (r, st) =
    (λ v, (v, (r, st))) <$> memory st (base + y * 8).
Proof.
  intros Hb Hy. unfold read_slot. rewrite run_ok_bind, run_ok_try.
  rewrite checked_add_signed_checked by range. unfold checked_uint.
  destruct (in_uint_spec 64 (base + y * 8)) as [Hi|Hi]; simpl.
  - by apply run_ok_read_or.
  - unfold memory. by rewrite in_uint_false.
Qed.

(** A frame computation that starts by adding to a pointer succeeds where the rest
    denotes a frame and the sum is a machine word. *)
Lemma run_frame a b (k : Z → M (UnwindRegsAarch64 * St) Error (option (Z * Z * Z)))
    r st x s (D : option (Z * Z * Z)) :
  0 ≤ a + b → (∀ y, D = Some y → y.1.2 = a + b) →
  (is_u64 (a + b) →
   run_ok (k (a + b)) (r, st) = Some (Some x, s) ↔ s = (r, st) ∧ D = Some x) →
  run_ok (checked_add a b ≫= k) (r, st) = Some (Some x, s) ↔
  s = (r, st) ∧ D = Some x ∧ x.1.2 < 2 ^ 64.
Proof.
  intros Hpos HD Hk. rewrite run_ok_bind, run_ok_checked_add. unfold checked_uint.
  destruct (in_uint_spec 64 (a + b)) as [Hi|Hi]; simpl.
  - rewrite (Hk Hi). split; [intros [? HDx]|tauto].
    split_and!; try done. rewrite (HD _ HDx). range.
  - split; [done|]. intros (_ & HDx & Hlt). rewrite (HD _ HDx) in Hlt. destruct Hi. range.
Qed.

Lemma run_new_regs rule first r st x s :
  wf_regs r → wf_rule rule →
  run_ok (new_regs rule first) (r, st) = Some (Some x, s) ↔
  s = (r, st) ∧ denote (memory st) rule first r = Some x ∧ x.1.2 < 2 ^ 64.
Proof.
  intros (Hm & Hl & Hs & Hf) Hrule. unfold new_regs.
  rewrite run_ok_bind, run_ok_get_regs. simpl.
  assert (Hkeep : (Some (Some (lr r, sp r, fp r), (r, st)) = Some (Some x, s)) ↔
    s = (r, st) ∧ Some (lr r, sp r, fp r) = Some x ∧ x.1.2 < 2 ^ 64).
  { split; [intros [= <- <-]|by intros (-> & [= ->] & _)].
    split_and!; [done|done|simpl; range]. }
  destruct rule as [| |x0|x0|x0 y|x0 y z| |x0 y z]; simpl in Hrule; unfold denote.
  all: try (destruct first; simpl; [|by split; [|intros (_ & ? & _)]]).
  all: try exact Hkeep.
  1: destruct first; [exact Hkeep|].
  all: apply run_frame; [range| |intros Hi].
  all: try (intros ? Hy; repeat (case_match || (apply bind_Some in Hy as (? & _ & Hy)));
            by simplify_eq/=).
  all: autorewrite with run_ok; rewrite ?uarith_ok by range; simpl;
    autorewrite with run_ok; rewrite ?run_ok_read_or, ?run_ok_read_slot by range.
  all: repeat (match goal with |- context [memory ?m ?a] => destruct (memory m a) end;
    simpl; autorewrite with run_ok; rewrite ?run_ok_read_or, ?run_ok_read_slot by range;
    simpl).
  all: try destruct (_ =? 0); simpl; try destruct (_ || _); try destruct (_ <=? _);
    (split; [by intros [= <- <-]|by intros [-> [= ->]]]).
Qed.

(** What a rule denotes is what executing it does. *)
Lemma exec_of_denote_aarch64 rule first r st l s f :
  wf_regs r → wf_rule rule →
  denote (memory st) rule first r = Some (l, s, f) → s < 2 ^ 64 →
  strip_ptr_auth (lr_mask r) l ≠ 0 → (first = false → s ≠ sp r) →
  exec rule first (r, st) =
    Val (Ok (Some (strip_ptr_auth (lr_mask r) l)), (set_fp (set_sp (set_lr r l) s) f, st)).
Proof.
  intros Hr Hrule Hd Hlt Hnz Hadv. apply run_ok_Some. unfold exec.
  rewrite run_ok_bind, run_ok_get_regs; simpl. rewrite run_ok_bind.
  rewrite (proj2 (run_new_regs rule first r st (l, s, f) (r, st) Hr Hrule)) by done. simpl.
  destruct (Z.eqb_spec (strip_ptr_auth (lr_mask r) l) 0); [done|].
  replace (negb first && (s =? sp r)) with false; [done|].
  destruct first; [done|]. simpl. symmetry. apply Z.eqb_neq. auto.
Qed.
End ExecRefinement.

(** C6.  Executing an aarch64 rule refines the documented meaning of the rule: it yields
    the return address [ra] with the registers [r'] exactly when the rule denotes a
    caller [(lr, sp, fp)] whose stack pointer is a machine word, [ra] is the link
    register with the authentication bits stripped and is not zero, outside the first
    frame the stack pointer has moved, and [r'] holds the three.  The stack memory is
    only read. *)
Theorem exec_refines_denotation_aarch64 `{Profile} {St} `{PureReader St}
    (rule : UnwindRuleAarch64) (first : bool) (r r' : UnwindRegsAarch64) (st st' : St)
    (ra : Z) :
  wf_regs r → wf_rule rule →
  exec rule first (r, st) = Val (Ok (Some ra), (r', st')) ↔
  st' = st ∧
  ∃ l s f,
    denote (memory st) rule first r = Some (l, s, f) ∧ s < 2 ^ 64 ∧
    ra = strip_ptr_auth (lr_mask r) l ∧ ra ≠ 0 ∧ (first = false → s ≠ sp r) ∧
    r' = mk_regs (lr_mask r) ra s f.
Proof.
  intros Hr Hrule. split.
  - rewrite <- run_ok_Some. unfold exec.
    rewrite run_ok_bind, run_ok_get_regs; simpl. rewrite run_ok_bind, bind_Some.
    intros ([[[[l s] f]|] s0] & Hnew & Hrest); [|done]. simpl in Hrest.
    apply run_new_regs in Hnew as (-> & Hd & Hlt); [|done|done]. simpl in Hlt.
    destruct (Z.eqb_spec (strip_ptr_auth (lr_mask r) l) 0) as [|Hnz]; [done|].
    destruct (negb first && (s =? sp r)) eqn:Hadv; [done|].
    autorewrite with run_ok in Hrest. simpl in Hrest. injection Hrest as <- <- <-.
    split; [done|]. exists l, s, f. split_and!; try done.
    intros ->. simpl in Hadv. by apply Z.eqb_neq.
  - intros (-> & l & s & f & Hd & Hlt & -> & Hnz & Hadv & ->).
    by rewrite (exec_of_denote_aarch64 rule first r st l s f).
Qed.

Definition example_stack : list Z :=
  [1; 2; 3; 4; 0x40; 0x100200; 5; 6; 0x70; 0x100100; 7; 8; 9; 10; 0; 0].

Lemma exec_refines_denotation_aarch64_witness :
  @exec debug_profile _ words_reader UseFramePointer false
    (new 0x100300 0x10 0x20, example_stack) =
  Val (Ok (Some 0x100200), (new 0x100200 0x30 0x40, example_stack)).
Proof.
  apply (proj2 (@exec_refines_denotation_aarch64 debug_profile (list Z) words_reader
    words_pure UseFramePointer false (new 0x100300 0x10 0x20) (new 0x100200 0x30 0x40)
    example_stack example_stack 0x100200 ltac:(apply wf_new_aarch64; range) I)).
  split; [reflexivity|]. exists 0x100200, 0x30, 0x40.
  repeat split; try reflexivity; intros; discriminate.
Defined.

(** Executing an aarch64 rule never panics, in a debug or a release build.  A
    success yields a non-zero address, which is the new link register, keeps the mask
    and the word size of the registers, never moves the stack pointer down, and outside
    the first frame moves it strictly up; any other outcome leaves the registers
    unchanged. *)
Lemma exec_outcomes_aarch64 `{Profile} {St} `{StackReader St}
    (rule : UnwindRuleAarch64) (first : bool) (r : UnwindRegsAarch64) (st : St) :
  wf_regs r → wf_rule rule →
  ∃ res r' st', exec rule first (r, st) = Val (res, (r', st')) ∧
    match res with
    | Ok (Some ra) =>
        wf_regs r' ∧ ra ≠ 0 ∧ lr r' = ra ∧ lr_mask r' = lr_mask r ∧ sp r ≤ sp r' ∧
        (first = false → sp r < sp r')
    | _ => r' = r
    end.
Proof.
  intros Hr Hrule.
  destruct (wp_no_panic _ _ _ (wp_exec_aarch64 rule first r st Hr Hrule)) as (res & [r' st'] & Hrun & Hq).
  exists res, r', st'. split; [done|]. destruct res as [[ra|]|e]; [|done|done].
  destruct Hq as (? & _ & ? & ? & ? & ? & ? & _). done.
Qed.

Lemma exec_outcomes_aarch64_witness :
  ∃ res r' st',
    @exec debug_profile _ words_reader (OffsetSpAndRestoreLr 1 1) false
      (new 0x100300 0x20 0x20, example_stack) = Val (res, (r', st')) ∧
    match res with
    | Ok (Some ra) =>
        wf_regs r' ∧ ra ≠ 0 ∧ lr r' = ra ∧ lr_mask r' = new_no_strip ∧ 0x20 ≤ sp r' ∧
        (false = false → 0x20 < sp r')
    | _ => r' = new 0x100300 0x20 0x20
    end.
Proof.
  apply (@exec_outcomes_aarch64 debug_profile (list Z) words_reader
    (OffsetSpAndRestoreLr 1 1) false (new 0x100300 0x20 0x20) example_stack).
  - apply wf_new_aarch64; range.
  - simpl; range.
Defined.
