(* ===== verification/Slices.v ===== *)
(** What the crate uses of the standard library's sorted slices and vectors:
    [binary_search(_by_key)], [Vec::insert], [Vec::remove], [sort_by_key], and the lemmas
    on sorted lists the components share. *)

From S2P Require Import Prelude.
From stdpp Require Import list sorting.
Local Open Scope Z_scope.

(** * Vectors *)

(** [Vec::insert] panics past the end, [Vec::remove] at or past it. *)
Definition vec_insert {A} (l : list A) (i : nat) (x : A) : may (list A) :=
  if decide (i ≤ length l)%nat then Val (take i l ++ x :: drop i l) else Panic.
Definition vec_remove {A} (l : list A) (i : nat) : may (list A) :=
  if decide (i < length l)%nat then Val (delete i l) else Panic.

(** [slice::sort_by_key] is a stable sort. *)
Definition key_le {A} (key : A → Z) : relation A := λ x y, key x ≤ key y.
#[export] Instance key_le_dec {A} (key : A → Z) : RelDecision (key_le key) :=
  λ x y, decide (key x ≤ key y).
Definition sort_by_key {A} (key : A → Z) (l : list A) : list A :=
  merge_sort (key_le key) l.

(** * Sorted slices *)

Section Sorted.
Context {A : Type} (key : A → Z).

Definition sorted_by (l : list A) : Prop :=
  ∀ i j x y, (i < j)%nat → l !! i = Some x → l !! j = Some y → key x ≤ key y.

Lemma sorted_by_nil : sorted_by [].
Proof. by intros i j x y _. Qed.

Lemma sorted_by_StronglySorted l :
  StronglySorted (key_le key) l → sorted_by l.
Proof.
  induction 1 as [|x l Hs IH Hall]; [apply sorted_by_nil|].
  intros [|i] [|j] a b Hij; simpl; try lia.
  - intros [= ->] Hb. rewrite Forall_lookup in Hall. by apply (Hall j).
  - intros. apply (IH i j); auto with lia.
Qed.

Lemma sorted_by_sort l : sorted_by (sort_by_key key l).
Proof.
  apply sorted_by_StronglySorted, StronglySorted_merge_sort.
  - intros x y z. unfold key_le. lia.
  - intros x y. unfold key_le. lia.
Qed.

Lemma sorted_by_delete l i : sorted_by l → sorted_by (delete i l).
Proof.
  intros Hs j k x y Hjk. rewrite !list_lookup_delete.
  repeat case_decide; intros Hx Hy; refine (Hs _ _ x y _ Hx Hy); lia.
Qed.

(** A key goes in at its insertion point. *)
Definition insertion_point (l : list A) (k : Z) (i : nat) : Prop :=
  (i ≤ length l)%nat ∧
  (∀ j x, (j < i)%nat → l !! j = Some x → key x ≤ k) ∧
  (∀ j x, (i ≤ j)%nat → l !! j = Some x → k ≤ key x).

Lemma sorted_by_insert l i x :
  sorted_by l → insertion_point l (key x) i → sorted_by (take i l ++ x :: drop i l).
Proof.
  intros Hs (Hi & Hlt & Hge) j k a b Hjk.
  assert (Hlook : ∀ n, (take i l ++ x :: drop i l) !! n =
    if decide (n < i)%nat then l !! n else if decide (n = i) then Some x else l !! pred n).
  { intros n. destruct (decide (n < i)%nat).
    { rewrite lookup_app_l by (rewrite length_take; lia). by rewrite lookup_take_lt. }
    rewrite lookup_app_r by (rewrite length_take; lia). rewrite length_take_le by lia.
    destruct (decide (n = i)) as [->|]; [by rewrite Nat.sub_diag|].
    replace (n - i)%nat with (S (n - S i)) by lia. simpl. rewrite lookup_drop. f_equal. lia. }
  rewrite !Hlook. repeat case_decide; intros Ha Hb; simplify_eq; try lia.
  - apply (Hs j k); auto.
  - by apply (Hlt j).
  - apply (Hs j (pred k)); auto. lia.
  - apply (Hge (pred k)); auto. lia.
  - apply (Hs (pred j) (pred k)); auto. lia.
Qed.
End Sorted.

(** * Binary search

    The contract [slice::binary_search] documents for sorted slices: the index of some
    matching element, or else the index at which a matching element could be inserted.
    Which match it finds is unspecified, so the crate's theorems hold for any of them. *)

Class BinarySearch : Type := {
  binary_search : list Z → Z → result nat nat;
  binary_search_sorted l k : sorted_by id l →
    match binary_search l k with
    | Ok i => l !! i = Some k
    | Err i => (i ≤ length l)%nat ∧
        (∀ j x, (j < i)%nat → l !! j = Some x → x < k) ∧
        (∀ j x, (i ≤ j)%nat → l !! j = Some x → k < x)
    end;
}.

Definition binary_search_by_key `{BinarySearch} {A} (key : A → Z) (l : list A) (k : Z) :
    result nat nat :=
  binary_search (key <$> l) k.

Lemma sorted_by_fmap {A} (key : A → Z) l : sorted_by key l → sorted_by id (key <$> l).
Proof.
  intros Hs i j x y Hij. rewrite !list_lookup_fmap.
  intros (a & Ha & ->)%fmap_Some (b & Hb & ->)%fmap_Some. by apply (Hs i j).
Qed.

Lemma binary_search_by_key_sorted `{BinarySearch} {A} (key : A → Z) l k :
  sorted_by key l →
  match binary_search_by_key key l k with
  | Ok i => ∃ x, l !! i = Some x ∧ key x = k
  | Err i => (i ≤ length l)%nat ∧
      (∀ j x, (j < i)%nat → l !! j = Some x → key x < k) ∧
      (∀ j x, (i ≤ j)%nat → l !! j = Some x → k < key x)
  end.
Proof.
  intros Hs%sorted_by_fmap. pose proof (binary_search_sorted _ k Hs) as Hb.
  unfold binary_search_by_key. destruct (binary_search _ k) as [i|i].
  - rewrite list_lookup_fmap in Hb. apply fmap_Some in Hb as (x & ? & ?). by exists x.
  - rewrite length_fmap in Hb. destruct Hb as (? & Hlt & Hge). split_and!; [done| |];
      intros j x Hj Hx; [apply (Hlt j)|apply (Hge j)]; auto;
      by rewrite list_lookup_fmap, Hx.
Qed.

(** An executable search with the contract: it counts the smaller keys. *)
Fixpoint count_below (l : list Z) (k : Z) : nat :=
  match l with [] => O | x :: l => if x <? k then S (count_below l k) else O end.

#[export] Instance scan_search : BinarySearch.
Proof.
  refine {| binary_search l k :=
    let i := count_below l k in
    if decide (l !! i = Some k) then Ok i else Err i |}.
  intros l k Hs. simpl. destruct (decide _) as [|Hne]; [done|].
  assert (Hpre : (count_below l k ≤ length l)%nat ∧
    (∀ j x, (j < count_below l k)%nat → l !! j = Some x → x < k) ∧
    (∀ x, l !! count_below l k = Some x → k ≤ x)).
  { clear Hs Hne. induction l as [|y l (IHl & IHlt & IHge)]; simpl.
    { split_and!; [done|lia|done]. }
    destruct (Z.ltb_spec y k).
    - split_and!; [lia| |done]. intros [|j] x Hj; simpl; [intros [= <-]; done|].
      apply IHlt. lia.
    - split_and!; [lia|lia|]. intros x [= <-]. lia. }
  destruct Hpre as (Hlen & Hlt & Hge). split_and!; [done|done|].
  intros j x Hj Hx. destruct (lookup_lt_is_Some_2 l (count_below l k)) as [y Hy].
  { apply lookup_lt_Some in Hx. lia. }
  pose proof (Hge y Hy). assert (y ≠ k) by (intros ->; done).
  destruct (decide (j = count_below l k)) as [->|]; [simplify_eq; lia|].
  pose proof (Hs (count_below l k) j y x ltac:(lia) Hy Hx). simpl in *. lia.
Defined.
