(* ===== verification/Modules.v ===== *)
(** The module list of an unwinder and the global generation counter
    ([UnwinderInternal] and [Module] in [src/unwinder.rs]). *)

From S2P Require Import Prelude Slices.
From stdpp Require Import strings list.
Local Open Scope Z_scope.

(** [core::ops::Range<u64>]. *)
Record Range : Type := mk_range { start : Z; end_ : Z }.

(** [D] is what the model keeps of the unwind data behind the module's [Arc]. *)
Record Module {D : Type} : Type := mk_module {
  name : string;
  avma_range : Range;
  base_avma : Z;
  base_svma : Z;
  unwind_data : D;
}.
Arguments Module : clear implicits.

(** [GLOBAL_MODULES_GENERATION.fetch_add(1, _)] on the [AtomicU16]: the old value, and
    the counter's new, wrapped value. *)
Definition next_global_modules_generation (counter : Z) : Z * Z :=
  (counter, wrap 16 (counter + 1)).

Record UnwinderInternal {D : Type} : Type := mk_unwinder {
  modules : list (Module D);
  modules_generation : Z;
}.
Arguments UnwinderInternal : clear implicits.

Section Operations.
Context `{Profile, BinarySearch} {D : Type}.
Implicit Types (self : UnwinderInternal D) (counter : Z).

Definition start_of (m : Module D) : Z := start (avma_range m).

Definition new counter : UnwinderInternal D * Z :=
  let '(g, counter) := next_global_modules_generation counter in
  (mk_unwinder D [] g, counter).

Definition clone self : UnwinderInternal D :=
  mk_unwinder D (modules self) (modules_generation self).

Definition add_module self (module : Module D) counter :
    may (UnwinderInternal D * Z) :=
  let insertion_index :=
    match binary_search_by_key start_of (modules self) (start_of module) with
    | Ok i => i
    | Err i => i
    end in
  ms ← vec_insert (modules self) insertion_index module;
  let '(g, counter) := next_global_modules_generation counter in
  Val (mk_unwinder D ms g, counter).

Definition remove_module self (module_address_range_start : Z) counter :
    may (UnwinderInternal D * Z) :=
  match binary_search_by_key start_of (modules self) module_address_range_start with
  | Ok index =>
      ms ← vec_remove (modules self) index;
      let '(g, counter) := next_global_modules_generation counter in
      Val (mk_unwinder D ms g, counter)
  | Err _ => Val (self, counter)
  end.

Definition max_known_code_address self : Z :=
  match last (modules self) with Some m => end_ (avma_range m) | None => 0 end.

(** The module index and the address relative to the module's base. *)
Definition find_module_for_address self (address : Z) : may (option (nat * Z)) :=
  found ← match binary_search_by_key start_of (modules self) address with
          | Ok i => module ← index (modules self) (Z.of_nat i); Val (Some (i, module))
          | Err O => Val None
          | Err (S i) =>
              module ← index (modules self) (Z.of_nat i);
              if end_ (avma_range module) <=? address then Val None
              else Val (Some (i, module))
          end;
  match found with
  | None => Val None
  | Some (module_index, module) =>
      if address <? base_avma module then Val None
      else
        relative_address ← uarith 64 (address - base_avma module);
        match checked_uint 32 relative_address with
        | Some relative_address => Val (Some (module_index, relative_address))
        | None => Val None
        end
  end.
End Operations.

(** * Invariants *)

Section Invariants.
Context {D : Type}.
Implicit Types (m : Module D) (u : UnwinderInternal D).

(** The ranges of the machine integers of a module. *)
Definition wf_module m : Prop :=
  is_u64 (start_of m) ∧ is_u64 (end_ (avma_range m)) ∧ is_u64 (base_avma m) ∧
  is_u64 (base_svma m).

Definition wf_unwinder u : Prop :=
  Forall wf_module (modules u) ∧ sorted_by start_of (modules u) ∧
  is_u16 (modules_generation u).

(** What a process promises about its address ranges. *)
Definition disjoint_modules (ms : list (Module D)) : Prop :=
  (∀ i m, ms !! i = Some m → start_of m < end_ (avma_range m)) ∧
  (∀ i j m m', (i < j)%nat → ms !! i = Some m → ms !! j = Some m' →
    end_ (avma_range m) ≤ start_of m').
End Invariants.

(** * The state of a process: the counter, and every unwinder that uses it *)

Section System.
Context `{BinarySearch} {D : Type}.

Record system : Type := mk_system {
  counter : Z;
  unwinders : list (UnwinderInternal D);
}.

(** One operation on some unwinder, and the number of generations it drew. *)
Inductive step : nat → system → system → Prop :=
| step_new c us u c' :
    new c = (u, c') → step 1 (mk_system c us) (mk_system c' (u :: us))
| step_clone c us i u :
    us !! i = Some u → step 0 (mk_system c us) (mk_system c (clone u :: us))
| step_add c us i u m u' c' :
    us !! i = Some u → wf_module m → add_module u m c = Val (u', c') →
    step 1 (mk_system c us) (mk_system c' (<[i := u']> us))
| step_remove c us i u a u' c' :
    us !! i = Some u → remove_module u a c = Val (u', c') →
    step (if c' =? c then 0 else 1) (mk_system c us) (mk_system c' (<[i := u']> us)).

(** [reachable n s]: the process can be in [s] after drawing [n] generations. *)
Inductive reachable : nat → system → Prop :=
| reachable_init : reachable 0 (mk_system 0 [])
| reachable_step n k s s' : reachable n s → step k s s' → reachable (k + n) s'.
End System.
Arguments system : clear implicits.

(** * Facts about single operations *)

Section OperationLemmas.
Context `{Profile, BinarySearch} {D : Type}.
Implicit Types (m : Module D) (u : UnwinderInternal D) (c : Z).

Lemma index_Some {A} (l : list A) (i : nat) x :
  l !! i = Some x → index l (Z.of_nat i) = Val x.
Proof.
  intros Hx. unfold index. destruct (Z.leb_spec 0 (Z.of_nat i)); [|lia].
  by rewrite Nat2Z.id, Hx.
Qed.

Lemma vec_insert_ok {A} (l : list A) i x :
  (i ≤ length l)%nat → vec_insert l i x = Val (take i l ++ x :: drop i l).
Proof. intros. unfold vec_insert. by rewrite decide_True. Qed.

Lemma insert_perm {A} (l : list A) i x : take i l ++ x :: drop i l ≡ₚ x :: l.
Proof. by rewrite <- Permutation_middle, take_drop. Qed.

(** [add_module] finds an insertion point and inserts there. *)
Lemma add_module_run u m c :
  sorted_by start_of (modules u) →
  ∃ i, insertion_point start_of (modules u) (start_of m) i ∧
    add_module u m c =
      Val (mk_unwinder D (take i (modules u) ++ m :: drop i (modules u)) c,
           wrap 16 (c + 1)).
Proof.
  intros Hs. pose proof (binary_search_by_key_sorted start_of _ (start_of m) Hs) as Hb.
  unfold add_module. destruct (binary_search_by_key _ _ _) as [i|i].
  - destruct Hb as (x & Hx & Hkey). pose proof (lookup_lt_Some _ _ _ Hx) as Hlen.
    exists i. split.
    + split_and!; [lia| |]; intros j y Hj Hy; rewrite <- Hkey.
      * by apply (Hs j i).
      * destruct (decide (i = j)) as [->|]; [by simplify_eq|]. apply (Hs i j); auto; lia.
    + by rewrite vec_insert_ok by lia.
  - destruct Hb as (Hlen & Hlt & Hge). exists i. split.
    + split_and!; [done| |]; intros j y Hj Hy;
        [by apply Z.lt_le_incl, (Hlt j)|by apply Z.lt_le_incl, (Hge j)].
    + by rewrite vec_insert_ok.
Qed.

(** [remove_module] deletes a module that starts at the address, if there is one. *)
Lemma remove_module_run u a c :
  sorted_by start_of (modules u) →
  (∃ i m, modules u !! i = Some m ∧ start_of m = a ∧
     remove_module u a c =
       Val (mk_unwinder D (delete i (modules u)) c, wrap 16 (c + 1))) ∨
  ((∀ m, m ∈ modules u → start_of m ≠ a) ∧ remove_module u a c = Val (u, c)).
Proof.
  intros Hs. pose proof (binary_search_by_key_sorted start_of _ a Hs) as Hb.
  unfold remove_module. destruct (binary_search_by_key _ _ _) as [i|i].
  - left. destruct Hb as (x & Hx & Hkey). exists i, x. split_and!; [done|done|].
    unfold vec_remove. by rewrite decide_True by eauto using lookup_lt_Some.
  - right. split; [|done]. destruct Hb as (_ & Hlt & Hge).
    intros m (j & Hj)%list_elem_of_lookup. destruct (decide (j < i)%nat) as [Hji|Hji].
    + specialize (Hlt j m Hji Hj). lia.
    + specialize (Hge j m ltac:(lia) Hj). lia.
Qed.
End OperationLemmas.

(** * Address lookup *)

Section Find.
Context `{Profile, BinarySearch} {D : Type}.
Implicit Types (m : Module D) (u : UnwinderInternal D).

(** The relative address of [a] in a module, where it has one. *)
Definition relative_address (a : Z) m : option Z :=
  if base_avma m <=? a then checked_uint 32 (a - base_avma m) else None.

Lemma relative_run u a (i : nat) m :
  Forall wf_module (modules u) → is_u64 a → modules u !! i = Some m →
  (if a <? base_avma m then Val None
   else rel ← uarith 64 (a - base_avma m);
        match checked_uint 32 rel with Some rel => Val (Some (i, rel)) | None => Val None end)
  = Val ((λ rel, (i, rel)) <$> relative_address a m).
Proof.
  rewrite Forall_lookup. intros Hwf Ha Hm. destruct (Hwf i m Hm) as (_ & _ & Hbase & _).
  unfold relative_address.
  destruct (Z.ltb_spec a (base_avma m)), (Z.leb_spec (base_avma m) a); try done; try lia.
  rewrite uarith_ok by range. simpl. by destruct (checked_uint _ _).
Qed.

(** The module an address belongs to in a sorted list: one that starts there, or else
    the last one that starts below, if it does not end first. *)
Lemma find_module_run u a :
  wf_unwinder u → is_u64 a →
  (∃ i m, modules u !! i = Some m ∧
     (start_of m = a ∨ start_of m < a < end_ (avma_range m)) ∧
     find_module_for_address u a = Val ((λ rel, (i, rel)) <$> relative_address a m)) ∨
  ((∀ m, m ∈ modules u → ¬ start_of m = a) ∧
   (∀ m, m ∈ modules u → start_of m < a →
      ∃ i m', modules u !! i = Some m' ∧ start_of m ≤ start_of m' ∧
        start_of m' < a ∧ end_ (avma_range m') ≤ a ∧
        ∀ j m'', (i < j)%nat → modules u !! j = Some m'' → a < start_of m'') ∧
   find_module_for_address u a = Val None).
Proof.
  intros (Hwf & Hs & _) Ha.
  pose proof (binary_search_by_key_sorted start_of _ a Hs) as Hb.
  unfold find_module_for_address. destruct (binary_search_by_key _ _ _) as [i|[|i]].
  - left. destruct Hb as (m & Hm & Hkey). exists i, m. split_and!; [done|by left|].
    rewrite (index_Some _ _ m Hm). simpl. by apply (relative_run u).
  - right. destruct Hb as (_ & _ & Hge). split_and!; [| |done];
      intros m (j & Hj)%list_elem_of_lookup; specialize (Hge j m ltac:(lia) Hj); lia.
  - destruct Hb as (Hlen & Hlt & Hge).
    destruct (lookup_lt_is_Some_2 (modules u) i ltac:(lia)) as [m Hm].
    pose proof (Hlt i m ltac:(lia) Hm) as Hma.
    rewrite (index_Some _ _ m Hm). simpl. destruct (Z.leb_spec (end_ (avma_range m)) a).
    + right. split_and!; [| |done]; intros m' (j & Hj)%list_elem_of_lookup.
      * destruct (decide (j < S i)%nat);
          [specialize (Hlt j m' ltac:(lia) Hj)|specialize (Hge j m' ltac:(lia) Hj)]; lia.
      * intros Hm'. exists i, m. split_and!; [done| |done|done|].
        -- destruct (decide (j = i)) as [->|]; [by simplify_eq|].
           destruct (decide (j < i)%nat); [by apply (Hs j i)|].
           specialize (Hge j m' ltac:(lia) Hj). lia.
        -- intros k m'' Hk Hm''. apply (Hge k); auto.
    + left. exists i, m. split_and!; [done|right; lia|]. by apply (relative_run u).
Qed.

(** In a process whose modules do not overlap, an address is in at most one of them. *)
Lemma disjoint_unique ms i j m m' a :
  disjoint_modules ms → ms !! i = Some m → ms !! j = Some m' →
  start_of m ≤ a < end_ (avma_range m) → start_of m' ≤ a < end_ (avma_range m') →
  i = j.
Proof.
  intros [Hne Hd] Hi Hj Hm Hm'.
  destruct (Nat.lt_trichotomy i j) as [Hij|[->|Hij]]; [|done|].
  - specialize (Hd i j m m' Hij Hi Hj). lia.
  - specialize (Hd j i m' m Hij Hj Hi). lia.
Qed.
End Find.

(** C25.  For modules whose address ranges are non-empty and do not overlap,
    [find_module_for_address] never panics and returns a module's index and a relative
    address exactly when the address is in that module's range, not below its base and
    within 32 bits of it. *)
Theorem find_module_for_address_correct `{Profile, BinarySearch} {D}
    (u : UnwinderInternal D) (a : Z) :
  wf_unwinder u → disjoint_modules (modules u) → is_u64 a →
  ∃ res, find_module_for_address u a = Val res ∧
    ∀ i rel, res = Some (i, rel) ↔
      ∃ m, modules u !! i = Some m ∧ start_of m ≤ a < end_ (avma_range m) ∧
        base_avma m ≤ a ∧ rel = a - base_avma m ∧ rel < 2 ^ 32.
Proof.
  intros Hwf Hd Ha.
  destruct (find_module_run u a Hwf Ha) as [(i & m & Hm & Hin & Hrun)|(Hno & Hlow & Hrun)];
    (eexists; split; [exact Hrun|]); intros j rel.
  - assert (Hrange : start_of m ≤ a < end_ (avma_range m)).
    { pose proof (proj1 Hd i m Hm). lia. }
    unfold relative_address, checked_uint.
    destruct (Z.leb_spec (base_avma m) a), (in_uint_spec 32 (a - base_avma m)); simpl;
      (split; [intros [= <- <-]; exists m; split_and!; (done || range)|]);
      intros (m' & Hm' & Hr' & ? & -> & ?);
      destruct (disjoint_unique _ i j m m' a Hd Hm Hm' Hrange Hr'); simplify_eq;
      (done || lia || (exfalso; range)).
  - split; [done|]. intros (m & Hm & Hr & _). exfalso.
    pose proof (list_elem_of_lookup_2 _ _ _ Hm) as Hin.
    pose proof (Hno m Hin). destruct (Hlow m Hin ltac:(lia)) as (k & m' & Hm' & Hle & Hlt & Hend & Hafter).
    destruct (decide (j = k)) as [->|]; [simplify_eq; lia|].
    destruct (decide (j < k)%nat) as [Hjk|Hjk].
    + pose proof (proj2 Hd j k m m' Hjk Hm Hm'). pose proof (proj1 Hd k m' Hm'). lia.
    + specialize (Hafter j m ltac:(lia) Hm). lia.
Qed.

(** Two modules of a process, the second with a base below its mapped range. *)
Definition example_modules : list (Module ()) :=
  [mk_module _ "a" (mk_range 0x1000 0x3000) 0x1000 0 ();
   mk_module _ "b" (mk_range 0x5000 0x6000) 0x4000 0x100000 ()].
Definition example_unwinder : UnwinderInternal () := mk_unwinder _ example_modules 7.

Lemma example_disjoint : disjoint_modules example_modules.
Proof.
  split.
  - intros [|[|i]] m [= <-]; reflexivity.
  - intros [|[|i]] [|[|j]] m m' Hij; simpl; try lia; intros [= <-] [= <-].
    by vm_compute.
Qed.

Lemma example_wf : wf_unwinder example_unwinder.
Proof.
  split_and!.
  - repeat constructor; by vm_compute.
  - intros [|[|i]] [|[|j]] m m' Hij; simpl; try lia; intros [= <-] [= <-].
    by vm_compute.
  - by vm_compute.
Qed.

Lemma find_module_for_address_correct_witness :
  ∃ res, @find_module_for_address debug_profile scan_search _ example_unwinder 0x5010 =
           Val res ∧
    ∀ i rel, res = Some (i, rel) ↔
      ∃ m, modules example_unwinder !! i = Some m ∧
        start_of m ≤ 0x5010 < end_ (avma_range m) ∧
        base_avma m ≤ 0x5010 ∧ rel = 0x5010 - base_avma m ∧ rel < 2 ^ 32.
Proof.
  apply (@find_module_for_address_correct debug_profile scan_search).
  - exact example_wf.
  - exact example_disjoint.
  - by vm_compute.
Defined.

Example find_module_example :
  @find_module_for_address debug_profile scan_search _ example_unwinder 0x5010 =
    Val (Some (1%nat, 0x1010)).
Proof. reflexivity. Qed.

(** * Module list updates *)

(** C27.  On a sorted module list [add_module] never panics: it inserts the module,
    keeps the list sorted and draws a new generation; [remove_module] deletes exactly
    one module that starts at the given address and draws a new generation, or, when
    no module starts there, changes nothing. *)
Theorem add_remove_module_correct `{BinarySearch} {D}
    (u : UnwinderInternal D) (m : Module D) (a c : Z) :
  sorted_by start_of (modules u) →
  (∃ ms, add_module u m c = Val (mk_unwinder D ms c, wrap 16 (c + 1)) ∧
     ms ≡ₚ m :: modules u ∧ sorted_by start_of ms) ∧
  ((∃ ms m', remove_module u a c = Val (mk_unwinder D ms c, wrap 16 (c + 1)) ∧
      start_of m' = a ∧ modules u ≡ₚ m' :: ms ∧ sorted_by start_of ms) ∨
   (remove_module u a c = Val (u, c) ∧ ∀ m', m' ∈ modules u → start_of m' ≠ a)).
Proof.
  intros Hs. split.
  - destruct (add_module_run u m c Hs) as (i & Hi & Hrun).
    eexists. split_and!; [exact Hrun|apply insert_perm|by apply sorted_by_insert].
  - destruct (remove_module_run u a c Hs) as [(i & m' & Hm' & Ha & Hrun)|[Hno Hrun]].
    + left. eexists _, m'. split_and!; [exact Hrun|done|by apply delete_Permutation|].
      by apply sorted_by_delete.
    + by right.
Qed.

Lemma add_remove_module_correct_witness :
  let u := example_unwinder in
  let m := mk_module _ "c" (mk_range 0x3000 0x4000) 0x3000 0 () in
  (∃ ms, @add_module scan_search _ u m 9 = Val (mk_unwinder _ ms 9, wrap 16 10) ∧
     ms ≡ₚ m :: modules u ∧ sorted_by start_of ms) ∧
  ((∃ ms m', @remove_module scan_search _ u 0x5000 9 =
       Val (mk_unwinder _ ms 9, wrap 16 10) ∧
      start_of m' = 0x5000 ∧ modules u ≡ₚ m' :: ms ∧ sorted_by start_of ms) ∨
   (@remove_module scan_search _ u 0x5000 9 = Val (u, 9) ∧
    ∀ m', m' ∈ modules u → start_of m' ≠ 0x5000)).
Proof.
  apply (@add_remove_module_correct scan_search _ example_unwinder).
  apply example_wf.
Defined.

(** When the modules do not overlap, [max_known_code_address] is an upper bound of
    all their ranges, attained by one of them, and zero without modules. *)
Lemma max_known_code_address_correct {D} (u : UnwinderInternal D) :
  disjoint_modules (modules u) →
  (∀ m, m ∈ modules u → end_ (avma_range m) ≤ max_known_code_address u) ∧
  (if modules u is [] then max_known_code_address u = 0
   else ∃ m, m ∈ modules u ∧ max_known_code_address u = end_ (avma_range m)).
Proof.
  intros [Hne Hd]. unfold max_known_code_address.
  destruct (modules u) as [|m0 ms] eqn:Hms; [split; [|done]; by intros m Hm%elem_of_nil|].
  rewrite <- Hms in *. destruct (last (modules u)) as [ml|] eqn:Hl.
  2:{ rewrite last_None in Hl. congruence. }
  cbv iota.
  pose proof Hl as Hlast. rewrite last_lookup in Hlast. split.
  - intros m (i & Hi)%list_elem_of_lookup.
    pose proof (lookup_lt_Some _ _ _ Hi) as Hlt.
    destruct (decide (i = pred (length (modules u)))) as [->|]; [by simplify_eq|].
    specialize (Hne _ ml Hlast).
    assert (end_ (avma_range m) ≤ start_of ml) by (apply (Hd _ _ m ml) with (2 := Hi) (3 := Hlast); lia).
    unfold start_of in *. lia.
  - exists ml. split; [by apply list_elem_of_lookup_2 in Hlast|done].
Qed.

Lemma max_known_code_address_correct_witness :
  (∀ m, m ∈ modules example_unwinder →
     end_ (avma_range m) ≤ max_known_code_address example_unwinder) ∧
  (if modules example_unwinder is [] then max_known_code_address example_unwinder = 0
   else ∃ m, m ∈ modules example_unwinder ∧
          max_known_code_address example_unwinder = end_ (avma_range m)).
Proof. apply max_known_code_address_correct, example_disjoint. Defined.

(** With overlapping ranges it is not: the end of the last module in start order can
    be far below an address that [find_module_for_address] itself would have covered. *)
Lemma max_known_code_address_overlap :
  let outer := mk_module () "outer" (mk_range 0x1000 0x9000) 0x1000 0 () in
  let inner := mk_module () "inner" (mk_range 0x2000 0x3000) 0x2000 0 () in
  let u := mk_unwinder () [outer; inner] 0 in
  wf_unwinder u ∧ max_known_code_address u = 0x3000 ∧
  @find_module_for_address debug_profile scan_search _ u 0x1800 = Val (Some (0%nat, 0x800)) ∧
  end_ (avma_range outer) = 0x9000.
Proof.
  split_and!; [|done|done|done]. split_and!; [repeat constructor; by vm_compute| |by vm_compute].
  intros [|[|i]] [|[|j]] m m' Hij; simpl; try lia; intros [= <-] [= <-]. by vm_compute.
Qed.

(** * Generations *)

Section Generations.
Context `{BinarySearch} {D : Type}.
Implicit Types (s : system D).

(** After [n] draws the counter is [n] modulo [2^16], every unwinder is well-formed, and
    its generation is one of the values drawn; a generation is drawn for one
    module list only, as long as the counter has not wrapped around. *)
Record generations_ok (n : nat) s : Prop := {
  gen_counter : counter s = wrap 16 (Z.of_nat n);
  gen_wf u : u ∈ unwinders s → wf_unwinder u;
  gen_drawn u : Z.of_nat n ≤ 65536 → u ∈ unwinders s → modules_generation u < Z.of_nat n;
  gen_unique u u' : Z.of_nat n ≤ 65536 → u ∈ unwinders s → u' ∈ unwinders s →
    modules_generation u = modules_generation u' → modules u = modules u';
}.

Lemma generations_init : generations_ok 0 (mk_system (D := D) 0 []).
Proof. split; simpl; [done|set_solver..]. Qed.

(** Every operation replaces or adds one unwinder, which either has the same modules
    and generation as an old one, or the drawn generation. *)
Lemma generations_draw n s u us :
  generations_ok n s → wf_unwinder u → modules_generation u = counter s →
  (∀ u', u' ∈ us → u' = u ∨ u' ∈ unwinders s) →
  generations_ok (S n) (mk_system (D := D) (wrap 16 (counter s + 1)) us).
Proof.
  intros [Hc Hwf Hdrawn Hun] Hu Hg Hus.
  assert (Hsmall : Z.of_nat (S n) ≤ 65536 → counter s = Z.of_nat n).
  { intros. rewrite Hc. apply wrap_id. range. }
  split; simpl.
  - rewrite Hc. unfold wrap. rewrite Zplus_mod_idemp_l. f_equal. lia.
  - intros u' [->|Hu']%Hus; auto.
  - intros u' Hn [->|Hu']%Hus; [rewrite Hg, Hsmall; lia|].
    pose proof (Hdrawn u' ltac:(lia) Hu'). lia.
  - intros u1 u2 Hn [->|H1]%Hus [->|H2]%Hus Heq; [done| | |].
    + pose proof (Hdrawn u2 ltac:(lia) H2). pose proof (Hsmall Hn). lia.
    + pose proof (Hdrawn u1 ltac:(lia) H1). pose proof (Hsmall Hn). lia.
    + apply Hun; auto. lia.
Qed.

Lemma generations_same n s u us :
  generations_ok n s → u ∈ unwinders s → (∀ u', u' ∈ us → u' = u ∨ u' ∈ unwinders s) →
  generations_ok n (mk_system (D := D) (counter s) us).
Proof.
  intros [Hc Hwf Hdrawn Hun] Hu Hus.
  split; simpl; [done| | |]; repeat intros [->|?]%Hus || intro; eauto.
Qed.

Lemma counter_u16 n s : generations_ok n s → is_u16 (counter s).
Proof. intros [-> _ _ _]. by apply wrap_range. Qed.

Lemma elem_of_insert_list {A} (l : list A) i x y : y ∈ <[i:=x]> l → y = x ∨ y ∈ l.
Proof.
  intros (j & Hj)%list_elem_of_lookup. destruct (decide (i = j)) as [->|Hne].
  - apply list_lookup_insert_Some in Hj as [(_ & -> & _)|[Hij _]]; [by left|done].
  - rewrite list_lookup_insert_ne in Hj by done. right. by eapply list_elem_of_lookup_2.
Qed.

Lemma wrap_succ_ne c : is_u16 c → wrap 16 (c + 1) ≠ c.
Proof.
  intros Hc. destruct (decide (c = 65535)) as [->|]; [done|].
  rewrite wrap_id by range. lia.
Qed.

Lemma wf_add u m i c :
  wf_unwinder u → wf_module m → is_u16 c →
  insertion_point start_of (modules u) (start_of m) i →
  wf_unwinder (mk_unwinder D (take i (modules u) ++ m :: drop i (modules u)) c).
Proof.
  intros (Hwf & Hs & _) Hm Hc Hi. split_and!; [|by apply sorted_by_insert|done].
  simpl. rewrite insert_perm. by constructor.
Qed.

Lemma generations_step n k s s' :
  generations_ok n s → step k s s' → generations_ok (k + n) s'.
Proof.
  intros Hok Hstep. pose proof (counter_u16 n s Hok) as Hc16.
  destruct Hstep as [c us u c' Hnew|c us i u Hu|c us i u m u' c' Hu Hm Hadd|c us i u a u' c' Hu Hrem].
  - injection Hnew as <- <-. eapply (generations_draw n (mk_system (D := D) c us) (mk_unwinder D [] c)); [done| |done|].
    + split_and!; [constructor|apply sorted_by_nil|done].
    + intros u'. rewrite elem_of_cons. tauto.
  - apply list_elem_of_lookup_2 in Hu. destruct u as [ms g].
    apply (generations_same n (mk_system (D := D) c us) (mk_unwinder D ms g)); [done|done|].
    intros u'. rewrite elem_of_cons. tauto.
  - apply list_elem_of_lookup_2 in Hu as Hin. pose proof (gen_wf _ _ Hok u Hin) as Hwf.
    destruct (add_module_run u m c (proj1 (proj2 Hwf))) as (j & Hj & Hrun).
    rewrite Hadd in Hrun. injection Hrun as -> ->.
    eapply (generations_draw n (mk_system (D := D) c us)); [done|by apply wf_add| |]; [done|].
    intros u'' Hu''. by apply elem_of_insert_list in Hu''.
  - apply list_elem_of_lookup_2 in Hu as Hin. pose proof (gen_wf _ _ Hok u Hin) as (Hwf & Hs & Hg).
    destruct (remove_module_run u a c Hs) as [(j & m & Hm & _ & Hrun)|[_ Hrun]];
      rewrite Hrem in Hrun; injection Hrun as -> ->.
    + destruct (Z.eqb_spec (wrap 16 (c + 1)) c) as [Heq|_].
      { by apply wrap_succ_ne in Heq. }
      apply (generations_draw n (mk_system (D := D) c us)
               (mk_unwinder D (delete j (modules u)) c)); [done| |done|].
      * split_and!; [by apply Forall_delete|by apply sorted_by_delete|done].
      * intros u'' Hu''. by apply elem_of_insert_list in Hu''.
    + rewrite Z.eqb_refl. apply (generations_same n (mk_system (D := D) c us) u); [done|done|].
      intros u'' Hu''. by apply elem_of_insert_list in Hu''.
Qed.

(** Where an unwinder comes from: it was there before, or it has the drawn generation. *)
Lemma step_origin n k s s' u :
  generations_ok n s → step k s s' → u ∈ unwinders s' →
  u ∈ unwinders s ∨ (k = 1%nat ∧ modules_generation u = counter s).
Proof.
  intros Hok Hstep. pose proof (counter_u16 n s Hok) as Hc16.
  destruct Hstep as [c us u0 c' Hnew|c us i u0 Hu|c us i u0 m u' c' Hu Hm Hadd
    |c us i u0 a u' c' Hu Hrem]; cbn [unwinders counter].
  - injection Hnew as <- <-. intros [->|?]%elem_of_cons; [by right|by left].
  - apply list_elem_of_lookup_2 in Hu. intros [->|?]%elem_of_cons; [left|by left].
    by destruct u0.
  - apply list_elem_of_lookup_2 in Hu. pose proof (gen_wf _ _ Hok u0 Hu) as (_ & Hs & _).
    destruct (add_module_run u0 m c Hs) as (j & Hj & Hrun).
    rewrite Hadd in Hrun. injection Hrun as -> ->.
    intros [->|?]%elem_of_insert_list; [by right|by left].
  - apply list_elem_of_lookup_2 in Hu as Hin. pose proof (gen_wf _ _ Hok u0 Hin) as (_ & Hs & _).
    destruct (remove_module_run u0 a c Hs) as [(j & m & Hm & _ & Hrun)|[_ Hrun]];
      rewrite Hrem in Hrun; injection Hrun as -> ->;
      intros [->|?]%elem_of_insert_list; try by left.
    right. split; [|done]. destruct (Z.eqb_spec (wrap 16 (c + 1)) c) as [Heq|_]; [|done].
    by apply wrap_succ_ne in Heq.
Qed.

Lemma reachable_generations n s : reachable n s → generations_ok n s.
Proof.
  induction 1 as [|n k s s' _ IH Hstep]; [apply generations_init|].
  by eapply generations_step.
Qed.
End Generations.

(** Unwinders that share a cache agree: as long as at most [2^16] generations were
    drawn in the process, two unwinders with the same [modules_generation] have the same
    modules, so a rule cached by one is a rule for the other. *)
Lemma generation_identifies_modules `{BinarySearch} {D} n (s : system D) u u' :
  reachable n s → Z.of_nat n ≤ 65536 → u ∈ unwinders s → u' ∈ unwinders s →
  modules_generation u = modules_generation u' → modules u = modules u'.
Proof. intros Hr. by apply (gen_unique n s (reachable_generations n s Hr)). Qed.

(** An unwinder, a clone of it, and a module added to the original. *)
Lemma example_reachable :
  @reachable scan_search () 2
    (mk_system 2 [mk_unwinder () [] 0; mk_unwinder () [mk_module _ "a" (mk_range 1 2) 1 0 ()] 1]).
Proof.
  apply (reachable_step 1 1 (mk_system 1 [mk_unwinder () [] 0; mk_unwinder () [] 0])).
  - apply (reachable_step 1 0 (mk_system 1 [mk_unwinder () [] 0])).
    + apply (reachable_step 0 1 (mk_system 0 [])); [apply reachable_init|].
      by apply step_new.
    + by apply (step_clone _ _ 0 (mk_unwinder () [] 0)).
  - apply (step_add 1 [mk_unwinder () [] 0; mk_unwinder () [] 0] 1 (mk_unwinder () [] 0)
             (mk_module _ "a" (mk_range 1 2) 1 0 ())
             (mk_unwinder () [mk_module _ "a" (mk_range 1 2) 1 0 ()] 1));
      [done| |done].
    by vm_compute.
Qed.

Lemma generation_identifies_modules_witness :
  modules (mk_unwinder () [] 0) = modules (mk_unwinder () [] 0).
Proof.
  apply (@generation_identifies_modules scan_search () 2 _
           (mk_unwinder () [] 0) (mk_unwinder () [] 0) example_reachable);
    [done|by left|by left|done].
Defined.

(** After [2^16] draws the bound is tight: the counter has wrapped, and the next
    module list shares its generation with an older, different one. *)
Lemma generation_collision :
  ∃ (s : system ()) u u', @reachable scan_search () (Z.to_nat 65537) s ∧
    u ∈ unwinders s ∧ u' ∈ unwinders s ∧
    modules_generation u = modules_generation u' ∧ modules u ≠ modules u'.
Proof.
  assert (Hnew : ∀ n, ∃ us, mk_unwinder () [] 0 ∈ us ∧
    @reachable scan_search () (S n) (mk_system (wrap 16 (Z.of_nat (S n))) us)).
  { induction n as [|n (us & Hin & IH)].
    - eexists [_]. split; [by left|].
      apply (reachable_step 0 1 (mk_system 0 [])); [apply reachable_init|by apply step_new].
    - eexists (_ :: us). split; [by right|].
      apply (reachable_step (S n) 1 _ _ IH).
      replace (wrap 16 (Z.of_nat (S (S n)))) with (wrap 16 (wrap 16 (Z.of_nat (S n)) + 1)).
      { by apply step_new. }
      unfold wrap. rewrite Zplus_mod_idemp_l. f_equal. lia. }
  destruct (Hnew (Z.to_nat 65535)) as (us & Hin & Hr).
  replace (S (Z.to_nat 65535)) with (Z.to_nat 65536) in Hr by lia.
  rewrite Z2Nat.id in Hr by lia. change (wrap 16 65536) with 0 in Hr.
  set (m := mk_module () "a" (mk_range 1 2) 1 0 ()).
  apply list_elem_of_lookup in Hin as Hi. destruct Hi as (i & Hi).
  exists (mk_system 1 (mk_unwinder () [m] 0 :: us)), (mk_unwinder () [m] 0),
    (mk_unwinder () [] 0).
  split_and!; [|by left|by right|done|done].
  replace (Z.to_nat 65537) with (1 + (0 + Z.to_nat 65536))%nat by lia.
  eapply reachable_step; [eapply reachable_step; [exact Hr|by apply (step_clone _ _ i _ Hi)]|].
  apply (step_add 0 (clone (mk_unwinder () [] 0) :: us) 0 (mk_unwinder () [] 0) m
           (mk_unwinder () [m] 0)); [done|by vm_compute|done].
Qed.

(** C26.  In every reachable state of the process all unwinders keep their modules sorted,
    and none of the operations on them panics. *)
Theorem reachable_unwinders_safe `{Profile, BinarySearch} {D} n (s : system D) u :
  reachable n s → u ∈ unwinders s →
  wf_unwinder u ∧
  (∀ m c, ∃ r, add_module u m c = Val r) ∧ (∀ a c, ∃ r, remove_module u a c = Val r) ∧
  (∀ a, is_u64 a → ∃ r, find_module_for_address u a = Val r).
Proof.
  intros Hr Hu. pose proof (gen_wf n s (reachable_generations n s Hr) u Hu) as Hwf.
  pose proof Hwf as (_ & Hs & _). split_and!; [done| | |].
  - intros m c. destruct (add_module_run u m c Hs) as (i & _ & ->). eauto.
  - intros a c. destruct (remove_module_run u a c Hs) as [(i & m & _ & _ & ->)|[_ ->]]; eauto.
  - intros a Ha. destruct (find_module_run u a Hwf Ha) as [(i & m & _ & _ & ->)|(_ & _ & ->)]; eauto.
Qed.

Lemma reachable_unwinders_safe_witness :
  wf_unwinder (mk_unwinder () [] 0) ∧
  (∀ m c, ∃ r, @add_module scan_search _ (mk_unwinder () [] 0) m c = Val r) ∧
  (∀ a c, ∃ r, @remove_module scan_search _ (mk_unwinder () [] 0) a c = Val r) ∧
  (∀ a, is_u64 a →
     ∃ r, @find_module_for_address debug_profile scan_search _ (mk_unwinder () [] 0) a = Val r).
Proof.
  apply (@reachable_unwinders_safe debug_profile scan_search () 2 _ _ example_reachable).
  by left.
Defined.
