(* ===== verification/Dwarf.v ===== *)
(** The generic DWARF CFI unwinder ([src/dwarf.rs]).

    gimli, the DWARF parser, is a parameter: the class [Gimli] has the types and
    functions of its interface that the crate uses, with the ranges their Rust types
    give.  [DwarfUnwinding] is the trait an architecture implements. *)

From S2P Require Import Prelude Error Arch.
Local Open Scope Z_scope.

(** * The interface of gimli *)

(** [gimli::CfaRule] and [gimli::RegisterRule], with [Ex] for [UnwindExpression];
    [OtherRule] is what the code's wildcard arms match. *)
Inductive CfaRule (Ex : Type) : Type :=
| RegisterAndOffset (register offset : Z)
| CfaExpression (expr : Ex).
Inductive RegisterRule (Ex : Type) : Type :=
| Undefined
| SameValue
| Offset (offset : Z)
| ValOffset (offset : Z)
| Register (register : Z)
| RegExpression (expr : Ex)
| ValExpression (expr : Ex)
| Architectural
| OtherRule.
Arguments RegisterAndOffset {Ex}. Arguments CfaExpression {Ex}.
Arguments Undefined {Ex}. Arguments SameValue {Ex}. Arguments Offset {Ex}.
Arguments ValOffset {Ex}. Arguments Register {Ex}. Arguments RegExpression {Ex}.
Arguments ValExpression {Ex}. Arguments Architectural {Ex}. Arguments OtherRule {Ex}.

(** The offsets are [i64]. *)
Definition wf_cfa_rule {Ex} (c : CfaRule Ex) : Prop :=
  match c with RegisterAndOffset _ o => is_i64 o | CfaExpression _ => True end.
Definition wf_register_rule {Ex} (r : RegisterRule Ex) : Prop :=
  match r with Offset o | ValOffset o => is_i64 o | _ => True end.

Inductive EvaluationResult : Type :=
| Complete
| RequiresRegister (register : Z)
| RequiresOther.

(** The location of a piece of an expression's result. *)
Inductive Location : Type :=
| Address (address : Z)
| OtherLocation.

Inductive CieOrFde (Cie PartialFde : Type) : Type :=
| ACie (cie : Cie)
| AFde (partial_fde : PartialFde).
Arguments ACie {_ _}. Arguments AFde {_ _}.

Class Gimli : Type := {
  gimli_error : Type;
  (* Register numbers. *)
  X86_64_RA : Z; X86_64_RBP : Z; X86_64_RSP : Z;
  AArch64_SP : Z; AArch64_X29 : Z; AArch64_X30 : Z;
  (* Section base addresses. *)
  BaseAddresses : Type;
  bases_default : BaseAddresses;
  set_eh_frame : BaseAddresses → Z → BaseAddresses;
  set_eh_frame_hdr : BaseAddresses → Z → BaseAddresses;
  set_text : BaseAddresses → Z → BaseAddresses;
  set_got : BaseAddresses → Z → BaseAddresses;
  (* Sections, entries and rows. *)
  UnwindSection : Type;
  eh_frame_from : list Z → UnwindSection;
  debug_frame_from : list Z → UnwindSection;
  set_address_size : UnwindSection → Z → UnwindSection;
  Cie : Type; Fde : Type; PartialFde : Type; Encoding : Type;
  cie_from_offset : UnwindSection → BaseAddresses → Z → result Cie gimli_error;
  fde_from_offset : UnwindSection → BaseAddresses → Z → result Fde gimli_error;
  cie_offset : Cie → Z;
  cie_encoding : Cie → Encoding;
  fde_cie : Fde → Cie;
  fde_offset : Fde → Z;
  initial_address : Fde → Z;
  CfiEntriesIter : Type;
  entries : UnwindSection → BaseAddresses → CfiEntriesIter;
  entries_next : CfiEntriesIter →
    result (option (CieOrFde Cie PartialFde)) gimli_error * CfiEntriesIter;
  (* [PartialFrameDescriptionEntry::parse] with a callback that has a state. *)
  partial_parse {S} : (Z → S → result Cie gimli_error * S) → PartialFde → S →
    result Fde gimli_error * S;
  (* Rows of the unwind table. *)
  UnwindContext : Type;
  UnwindTableRow : Type;
  UnwindExpression : Type;
  unwind_info_for_address : Fde → UnwindSection → BaseAddresses → UnwindContext → Z →
    result UnwindTableRow gimli_error * UnwindContext;
  row_cfa : UnwindTableRow → CfaRule UnwindExpression;
  row_register : UnwindTableRow → Z → RegisterRule UnwindExpression;
  (* Expressions. *)
  Expression : Type;
  expression_get : UnwindExpression → UnwindSection → result Expression gimli_error;
  Evaluation : Type;
  evaluation_new : Expression → Encoding → Evaluation;
  evaluate : Evaluation → result EvaluationResult gimli_error * Evaluation;
  resume_with_register : Evaluation → Z →
    result EvaluationResult gimli_error * Evaluation;
  as_result : Evaluation → list Location;
  (* The binary search table of [.eh_frame_hdr]. *)
  ParsedEhFrameHdr : Type; EhHdrTable : Type; Pointer : Type;
  eh_frame_hdr_parse : list Z → BaseAddresses → Z → result ParsedEhFrameHdr gimli_error;
  hdr_table : ParsedEhFrameHdr → option EhHdrTable;
  table_lookup : EhHdrTable → Z → BaseAddresses → result Pointer gimli_error;
  pointer_to_offset : EhHdrTable → Pointer → result Z gimli_error;
  (* What the Rust types promise. *)
  row_cfa_wf row : wf_cfa_rule (row_cfa row);
  row_register_wf row reg : wf_register_rule (row_register row reg);
  as_result_u64 ev a : Address a ∈ as_result ev → is_u64 a;
  initial_address_u64 f : is_u64 (initial_address f);
  (* The register constants are different numbers. *)
  X86_64_distinct : NoDup [X86_64_RA; X86_64_RBP; X86_64_RSP];
  AArch64_distinct : NoDup [AArch64_SP; AArch64_X29; AArch64_X30];
}.

(** How often an expression may ask for a register before its evaluation counts as
    diverging. *)
Class ExprFuel : Type := expr_fuel : nat.

Inductive UnwindResult (Rule : Type) : Type :=
| ExecRule (rule : Rule)
| Uncacheable (return_address : Z).
Arguments ExecRule {Rule}. Arguments Uncacheable {Rule}.

(** * Evaluating CFA and register rules *)

(** [u64::try_from(i64::try_from(val).ok()?.checked_add(offset)?).ok()]. *)
Definition i64_plus_offset (val offset : Z) : option Z :=
  v ← checked_sint 64 val; w ← checked_sint 64 (v + offset); checked_uint 64 w.

Section Eval.
Context `{Gimli, ExprFuel} {UR : Type} (get : UR → Z → option Z).

(** The [loop] of [eval_expr]: it answers register requests until the evaluation is
    complete. *)
Fixpoint eval_loop (fuel : nat) (regs : UR) (eval : Evaluation)
    (res : EvaluationResult) : may (option Evaluation) :=
  match res with
  | Complete => Val (Some eval)
  | RequiresRegister register =>
      match get regs register with
      | None => Val None
      | Some value =>
          match resume_with_register eval value with
          | (Err _, _) => Val None
          | (Ok res, eval) =>
              match fuel with
              | O => Diverge
              | S fuel => eval_loop fuel regs eval res
              end
          end
      end
  | RequiresOther => Val None
  end.

Definition eval_expr (expr : Expression) (encoding : Encoding) (regs : UR) :
    may (option Z) :=
  match evaluate (evaluation_new expr encoding) with
  | (Err _, _) => Val None
  | (Ok res, eval) =>
      eval ← eval_loop expr_fuel regs eval res;
      match eval with
      | None => Val None
      | Some eval =>
          match last (as_result eval) with
          | Some (Address address) => Val (Some address)
          | _ => Val None
          end
      end
  end.

Definition eval_cfa_rule (section : UnwindSection) (rule : CfaRule UnwindExpression)
    (encoding : Encoding) (regs : UR) : may (option Z) :=
  match rule with
  | RegisterAndOffset register offset =>
      Val (val ← get regs register; i64_plus_offset val offset)
  | CfaExpression expr =>
      match expression_get expr section with
      | Err _ => Val None
      | Ok expr => eval_expr expr encoding regs
      end
  end.

Definition eval_register_rule {St E} `{StackReader St} (section : UnwindSection)
    (rule : RegisterRule UnwindExpression) (cfa : Z) (encoding : Encoding) (val : Z)
    (regs : UR) : M (UR * St) E (option Z) :=
  match rule with
  | Undefined => mret None
  | SameValue => mret (Some val)
  | Offset offset =>
      match i64_plus_offset cfa offset with
      | None => mret None
      | Some cfa_plus_offset => r ← read_raw cfa_plus_offset; mret (result_ok r)
      end
  | ValOffset offset => mret (i64_plus_offset cfa offset)
  | Register register => mret (get regs register)
  | RegExpression expr =>
      match expression_get expr section with
      | Err _ => mret None
      | Ok expr =>
          val ← lift (eval_expr expr encoding regs);
          match val with
          | None => mret None
          | Some val => r ← read_raw val; mret (result_ok r)
          end
      end
  | ValExpression expr =>
      match expression_get expr section with
      | Err _ => mret None
      | Ok expr => lift (eval_expr expr encoding regs)
      end
  | Architectural => mret None
  | OtherRule => mret None
  end.
End Eval.

(** * The trait, and the unwinder over it *)

(** [unwind_frame] of the trait [DwarfUnwinding], over the registers and the reader,
    with what every implementation owes its caller: well-formed values. *)
Class DwarfUnwinding `{Gimli, Arch} : Type := {
  dwarf_unwind_frame `{Profile, ExprFuel} {St : Type} `{StackReader St} :
    UnwindSection → UnwindTableRow → Encoding → bool →
    M (UnwindRegs * St) (DwarfUnwinderError gimli_error) (UnwindResult UnwindRule);
  rule_if_uncovered_by_fde : UnwindRule;
}.

Inductive UnwindSectionType : Type := EhFrame | DebugFrame.

(** [unwind_context], which the unwinder borrows mutably, is the first component of the
    state of its methods. *)
Record DwarfUnwinder `{Gimli} : Type := mk_dwarf_unwinder {
  unwind_section_data : list Z;
  unwind_section_type : UnwindSectionType;
  eh_frame_hdr : option ParsedEhFrameHdr;
  base_svma : Z;
  bases : BaseAddresses;
}.

Section DwarfUnwinder.
Context `{Profile, Gimli}.

Definition new (unwind_section_data : list Z) (unwind_section_type : UnwindSectionType)
    (eh_frame_hdr_data : option (list Z)) (bases : BaseAddresses) (base_svma : Z) :
    DwarfUnwinder :=
  let eh_frame_hdr :=
    match eh_frame_hdr_data with
    | Some eh_frame_hdr_data =>
        match eh_frame_hdr_parse eh_frame_hdr_data bases 8 with
        | Ok hdr => Some hdr
        | Err _ => None
        end
    | None => None
    end in
  mk_dwarf_unwinder _ unwind_section_data unwind_section_type eh_frame_hdr base_svma bases.

Definition get_fde_offset_for_relative_address (self : DwarfUnwinder)
    (rel_lookup_address : Z) : may (option Z) :=
  lookup_svma ← uarith 64 (base_svma self + rel_lookup_address);
  Val (hdr ← eh_frame_hdr self;
       table ← hdr_table hdr;
       fde_ptr ← result_ok (table_lookup table lookup_svma (bases self));
       fde_offset ← result_ok (pointer_to_offset table fde_ptr);
       checked_uint 32 fde_offset).

(** [unwind_info_for_fde]: the row borrows from the context. *)
Definition unwind_info_for_fde (self : DwarfUnwinder) (unwind_section : UnwindSection)
    (lookup_svma fde_offset : Z) :
    M UnwindContext (DwarfUnwinderError gimli_error) (UnwindTableRow * Encoding) := λ ctx,
  match fde_from_offset unwind_section (bases self) fde_offset with
  | Err e => Val (Err (FdeFromOffsetFailed e), ctx)
  | Ok fde =>
      let encoding := cie_encoding (fde_cie fde) in
      let '(unwind_info, ctx) :=
        unwind_info_for_address fde unwind_section (bases self) ctx lookup_svma in
      Val (match unwind_info with
           | Ok unwind_info => Ok (unwind_info, encoding)
           | Err e => Err (UnwindInfoForAddressFailed e)
           end, ctx)
  end.

Definition unwind_frame_with_fde `{ExprFuel, Arch, !DwarfUnwinding} {St}
    `{StackReader St} (self : DwarfUnwinder) (is_first_frame : bool)
    (rel_lookup_address fde_offset : Z) :
    M (UnwindContext * (UnwindRegs * St)) (DwarfUnwinderError gimli_error)
      (UnwindResult UnwindRule) := λ s,
  match uarith 64 (base_svma self + rel_lookup_address) with
  | Fault k => Fault k
  | Val lookup_svma =>
      let section :=
        match unwind_section_type self with
        | EhFrame => set_address_size (eh_frame_from (unwind_section_data self)) 8
        | DebugFrame => set_address_size (debug_frame_from (unwind_section_data self)) 8
        end in
      match unwind_info_for_fde self section lookup_svma fde_offset s.1 with
      | Fault k => Fault k
      | Val (Err (UnwindInfoForAddressFailed _), ctx) =>
          Val (Ok (ExecRule rule_if_uncovered_by_fde), (ctx, s.2))
      | Val (Err e, ctx) => Val (Err e, (ctx, s.2))
      | Val (Ok (unwind_info, encoding), ctx) =>
          zoom_snd (dwarf_unwind_frame section unwind_info encoding is_first_frame)
            (ctx, s.2)
      end
  end.
End DwarfUnwinder.

(** * Bounds of the evaluated values *)

Section EvalLemmas.
Context `{Gimli, ExprFuel} {UR : Type} (get : UR → Z → option Z).

Lemma i64_plus_offset_Some val offset v :
  i64_plus_offset val offset = Some v ↔
    is_i64 val ∧ v = val + offset ∧ 0 ≤ v < 2 ^ 63.
Proof.
  unfold i64_plus_offset. rewrite bind_Some. setoid_rewrite bind_Some. split.
  - intros (x & [-> Hval]%checked_sint_Some & y & [-> Hy]%checked_sint_Some &
      [-> Hv]%checked_uint_Some). split_and!; range.
  - intros (Hval & -> & Hv). exists val. split; [by apply checked_sint_ok|].
    exists (val + offset). split; [apply checked_sint_ok|apply checked_uint_ok]; range.
Qed.

(** A wrapped sum with a small offset is far outside the [i16] storage slots. *)
Lemma wrapped_slot_too_big off o :
  -16 < off < 2 ^ 20 → is_i64 o → ¬ is_i64 (off + o) →
  ¬ is_i16 (Z.quot (sext 64 (off + o)) 8).
Proof.
  intros Hoff Ho Hover.
  assert (Hs : sext 64 (off + o) = off + o - 2 ^ 64 ∨ sext 64 (off + o) = off + o + 2 ^ 64).
  { unfold sext. destruct (decide (off + o < 0)).
    - right. rewrite wrap_below by range.
      destruct (Z.ltb_spec (off + o + 2 ^ 64) (2 ^ (64 - 1))); range.
    - left. rewrite wrap_id by range.
      destruct (Z.ltb_spec (off + o) (2 ^ (64 - 1))); range. }
  intros Hi. pose proof (Z.quot_rem' (sext 64 (off + o)) 8).
  pose proof (Z.rem_bound_abs (sext 64 (off + o)) 8 ltac:(lia)). range.
Qed.

Lemma i64_plus_offset_u64 val offset v : i64_plus_offset val offset = Some v → is_u64 v.
Proof. intros (_ & _ & Hv)%i64_plus_offset_Some. range. Qed.

Lemma eval_expr_u64 expr enc regs v :
  eval_expr get expr enc regs = Val (Some v) → is_u64 v.
Proof.
  unfold eval_expr. destruct (evaluate _) as [[res|] ev]; [|done].
  destruct (eval_loop _ _ _ _ _) as [[ev'|]|]; simpl; [|done|done].
  destruct (last (as_result ev')) as [[a|]|] eqn:Hl; [|done|done]. intros [= <-].
  apply (as_result_u64 ev'). apply list_elem_of_lookup. rewrite last_lookup in Hl. eauto.
Qed.

(** With register values in range the CFA is a [u64]; one at a register offset is
    even below [2^63]. *)
Lemma eval_cfa_rule_u64 section rule enc regs v :
  eval_cfa_rule get section rule enc regs = Val (Some v) → is_u64 v.
Proof.
  unfold eval_cfa_rule. destruct rule as [r o|e].
  - intros [= Hv]. apply bind_Some in Hv as (x & _ & Hv). by apply i64_plus_offset_u64 in Hv.
  - destruct (expression_get e section); [|done]. apply eval_expr_u64.
Qed.

Lemma wp_eval_register_rule {St E} `{StackReader St} (pan : Prop) section rule cfa enc val
    regs (s : UR * St) :
  is_u64 val → (∀ reg v, get regs reg = Some v → is_u64 v) →
  (∀ e k, eval_expr get e enc regs = Fault k → pan) →
  wp pan (eval_register_rule (E := E) get section rule cfa enc val regs)
    (λ res s', s'.1 = s.1 ∧ ∃ o, res = Ok o ∧ ∀ v, o = Some v → is_u64 v) s.
Proof.
  intros Hval Hget Hpan. unfold eval_register_rule.
  assert (Hread : ∀ a s0, s0.1 = s.1 →
    wp pan (r ← read_raw a; mret (result_ok r))
      (λ (res : result (option Z) E) s', s'.1 = s.1 ∧
         ∃ o, res = Ok o ∧ ∀ v, o = Some v → is_u64 v) s0).
  { intros a s0 Hs0. apply wp_bind, wp_read_raw; intros; apply wp_ret; simpl; (split; [done|]);
      (eexists; split; [done|]); naive_solver. }
  destruct rule; try (by apply wp_ret; split; [done|]; eexists; split; [done|]; naive_solver).
  - destruct (i64_plus_offset cfa offset) eqn:?; [by apply Hread|].
    apply wp_ret. split; [done|]. by eexists.
  - apply wp_ret. split; [done|]. eexists. split; [done|]. intros. by eapply i64_plus_offset_u64.
  - destruct (expression_get _ _); [|apply wp_ret; split; [done|]; by eexists].
    apply wp_bind, wp_lift; [|eauto]. intros [v|] Hv; [by apply Hread|].
    apply wp_ret. split; [done|]. by eexists.
  - destruct (expression_get _ _); [|apply wp_ret; split; [done|]; by eexists].
    apply wp_lift; [|eauto]. intros o Hv. split; [done|]. eexists. split; [done|].
    intros v ->. by eapply eval_expr_u64.
Qed.
End EvalLemmas.

(** * Rules that locate a register in memory *)

Section EvalPure.
Context `{Gimli, ExprFuel} {UR : Type} (get : UR → Z → option Z).
Context {St : Type} `{PureReader St}.

(** What a simple register rule recovers, when it does. *)
Definition recovered (mem : Z → option Z) (rule : RegisterRule UnwindExpression)
    (cfa val : Z) : option Z :=
  match rule with
  | SameValue => Some val
  | Offset o => a ← i64_plus_offset cfa o; mem a
  | _ => None
  end.

Definition simple_rule (rule : RegisterRule UnwindExpression) : Prop :=
  match rule with Undefined | SameValue | Offset _ => True | _ => False end.

Lemma eval_simple_rule {E} section rule cfa enc val regs r (st : St) :
  simple_rule rule →
  eval_register_rule (E := E) get section rule cfa enc val regs (r, st) =
    Val (Ok (recovered (memory st) rule cfa val), (r, st)).
Proof.
  destruct rule; simpl; try done; intros _.
  destruct (i64_plus_offset cfa offset) as [a|] eqn:Ha; [|done]. simpl.
  unfold mbind, M_bind. rewrite read_raw_memory by (by eapply i64_plus_offset_u64). simpl.
  by destruct (memory st a).
Qed.
End EvalPure.
