(* ===== verification/DwarfCfiIndex.v ===== *)
(** The binary search table over FDEs that is built for modules without an
    [.eh_frame_hdr] ([DwarfCfiIndex] and [base_addresses_for_sections] in
    [src/dwarf.rs]). *)

From S2P Require Import Prelude Slices Dwarf.
From stdpp Require Import list sorting.
Local Open Scope Z_scope.

Inductive DwarfCfiIndexError `{Gimli} : Type :=
| GimliError (e : gimli_error)
| CouldNotSubtractBaseAddress
| RelativeAddressTooBig
| FdeOffsetTooBig.

Record DwarfCfiIndex : Type := mk_index {
  sorted_fde_pc_starts : list Z;
  fde_offsets : list Z;
}.

(** How many entries a section may have before building its index counts as
    diverging. *)
Class EntriesFuel : Type := entries_fuel : nat.

Section Build.
Context `{Gimli}.

(** The callback that [partial_fde.parse] gets the CIE from.  It remembers the last
    CIE in [cur_cie]. *)
Definition get_cie (section : UnwindSection) (bases : BaseAddresses) (off : Z)
    (cur_cie : option Cie) : result Cie gimli_error * option Cie :=
  let from_offset :=
    let cie := cie_from_offset section bases off in
    (cie, match cie with Ok cie => Some cie | Err _ => cur_cie end) in
  match cur_cie with
  | Some cie => if cie_offset cie =? off then (Ok cie, cur_cie) else from_offset
  | None => from_offset
  end.

(** The pair pushed for a parsed FDE. *)
Definition pc_and_offset (base_svma : Z) (fde : Fde) :
    result (Z * Z) DwarfCfiIndexError :=
  match checked_uint 64 (initial_address fde - base_svma) with
  | None => Err CouldNotSubtractBaseAddress
  | Some relative_pc =>
      match checked_uint 32 relative_pc with
      | None => Err RelativeAddressTooBig
      | Some relative_pc =>
          match checked_uint 32 (fde_offset fde) with
          | None => Err FdeOffsetTooBig
          | Some fde_offset => Ok (relative_pc, fde_offset)
          end
      end
  end.

(** The [while let Some(entry) = entries_iter.next()?] loop. *)
Fixpoint collect (fuel : nat) (section : UnwindSection) (bases : BaseAddresses)
    (base_svma : Z) (cur_cie : option Cie) (entries_iter : CfiEntriesIter)
    (fde_pc_and_offset : list (Z * Z)) :
    may (result (list (Z * Z)) DwarfCfiIndexError) :=
  match entries_next entries_iter with
  | (Err e, _) => Val (Err (GimliError e))
  | (Ok None, _) => Val (Ok fde_pc_and_offset)
  | (Ok (Some entry), entries_iter) =>
      match fuel with
      | O => Diverge
      | S fuel =>
          match entry with
          | ACie cie =>
              collect fuel section bases base_svma (Some cie) entries_iter fde_pc_and_offset
          | AFde partial_fde =>
              match partial_parse (get_cie section bases) partial_fde cur_cie with
              | (Err e, _) => Val (Err (GimliError e))
              | (Ok fde, cur_cie) =>
                  match pc_and_offset base_svma fde with
                  | Err e => Val (Err e)
                  | Ok p =>
                      collect fuel section bases base_svma cur_cie entries_iter
                        (fde_pc_and_offset ++ [p])
                  end
              end
          end
      end
  end.

(** The index of a list of pairs. *)
Definition index_of_pairs (fde_pc_and_offset : list (Z * Z)) : DwarfCfiIndex :=
  let fde_pc_and_offset := sort_by_key fst fde_pc_and_offset in
  mk_index (fst <$> fde_pc_and_offset) (snd <$> fde_pc_and_offset).

Definition try_new `{EntriesFuel} (section : UnwindSection) (bases : BaseAddresses)
    (base_svma : Z) : may (result DwarfCfiIndex DwarfCfiIndexError) :=
  pairs ← collect entries_fuel section bases base_svma None (entries section bases) [];
  Val (match pairs with Ok pairs => Ok (index_of_pairs pairs) | Err e => Err e end).
End Build.

Definition fde_offset_for_relative_address `{BinarySearch} (self : DwarfCfiIndex)
    (rel_lookup_address : Z) : may (option Z) :=
  match binary_search (sorted_fde_pc_starts self) rel_lookup_address with
  | Err O => Val None
  | Ok i | Err (S i) =>
      off ← index (fde_offsets self) (Z.of_nat i); Val (Some off)
  end.

(** * Specification

    What the index should be: one pair per FDE of the section, its CIE looked up afresh
    each time. *)

(** What gimli documents of an FDE: parsing it asks the callback for the CIE at its CIE
    offset and then depends on that CIE alone; a CIE knows its offset, and iterating
    gives the same CIE as looking it up. *)
Class GimliEntries `{Gimli} : Type := {
  partial_cie_offset : PartialFde → Z;
  parse_with_cie : PartialFde → Cie → result Fde gimli_error;
  partial_parse_get {S} (get : Z → S → result Cie gimli_error * S) p s :
    partial_parse get p s =
      match get (partial_cie_offset p) s with
      | (Ok cie, s') => (parse_with_cie p cie, s')
      | (Err e, s') => (Err e, s')
      end;
  cie_from_offset_offset section bases off cie :
    cie_from_offset section bases off = Ok cie → cie_offset cie = off;
}.

Section Spec.
Context `{GimliEntries}.

(** [yields it l e]: the iterator yields the entries [l] and then ends, with an
    error if [e] is one. *)
Inductive yields : CfiEntriesIter → list (CieOrFde Cie PartialFde) →
    option gimli_error → Prop :=
| yields_end it it' : entries_next it = (Ok None, it') → yields it [] None
| yields_error it it' e : entries_next it = (Err e, it') → yields it [] (Some e)
| yields_entry it it' entry l e :
    entries_next it = (Ok (Some entry), it') → yields it' l e → yields it (entry :: l) e.

Definition cies_consistent (section : UnwindSection) (bases : BaseAddresses)
    (l : list (CieOrFde Cie PartialFde)) : Prop :=
  ∀ cie, ACie cie ∈ l → cie_from_offset section bases (cie_offset cie) = Ok cie.

(** Parsing an FDE without any caching. *)
Definition parse_fde (section : UnwindSection) (bases : BaseAddresses) (p : PartialFde) :
    result Fde gimli_error :=
  match cie_from_offset section bases (partial_cie_offset p) with
  | Ok cie => parse_with_cie p cie
  | Err e => Err e
  end.

Fixpoint reference_pairs (section : UnwindSection) (bases : BaseAddresses)
    (base_svma : Z) (l : list (CieOrFde Cie PartialFde)) (e : option gimli_error) :
    result (list (Z * Z)) DwarfCfiIndexError :=
  match l with
  | [] => match e with None => Ok [] | Some e => Err (GimliError e) end
  | ACie _ :: l => reference_pairs section bases base_svma l e
  | AFde p :: l =>
      match parse_fde section bases p with
      | Err e => Err (GimliError e)
      | Ok fde =>
          match pc_and_offset base_svma fde with
          | Err e => Err e
          | Ok pr =>
              match reference_pairs section bases base_svma l e with
              | Ok pairs => Ok (pr :: pairs)
              | Err e => Err e
              end
          end
      end
  end.

(** The remembered CIE, if any, is the one at its offset. *)
Definition cur_cie_ok (section : UnwindSection) (bases : BaseAddresses)
    (cur_cie : option Cie) : Prop :=
  ∀ cie, cur_cie = Some cie → cie_from_offset section bases (cie_offset cie) = Ok cie.

Lemma get_cie_correct section bases off cur_cie :
  cur_cie_ok section bases cur_cie →
  (get_cie section bases off cur_cie).1 = cie_from_offset section bases off ∧
  cur_cie_ok section bases (get_cie section bases off cur_cie).2.
Proof.
  intros Hcur.
  assert (Hfresh : cur_cie_ok section bases
    (match cie_from_offset section bases off with Ok cie => Some cie | Err _ => cur_cie end)).
  { destruct (cie_from_offset section bases off) as [cie|] eqn:Hc; [|done].
    intros ? [= <-]. by rewrite (cie_from_offset_offset _ _ _ _ Hc). }
  unfold get_cie. destruct cur_cie as [cie|]; [|done].
  destruct (Z.eqb_spec (cie_offset cie) off) as [<-|]; [|done]. simpl.
  split; [|done]. by rewrite Hcur.
Qed.

Lemma parse_get_cie section bases p cur_cie :
  cur_cie_ok section bases cur_cie →
  (partial_parse (get_cie section bases) p cur_cie).1 = parse_fde section bases p ∧
  cur_cie_ok section bases (partial_parse (get_cie section bases) p cur_cie).2.
Proof.
  intros Hcur. rewrite partial_parse_get. unfold parse_fde.
  destruct (get_cie_correct section bases (partial_cie_offset p) cur_cie Hcur) as [Heq Hok].
  destruct (get_cie section bases (partial_cie_offset p) cur_cie) as [[cie|e] cur'];
    simpl in *; by rewrite <- Heq.
Qed.

Lemma collect_reference section bases base_svma l e : ∀ it fuel cur_cie acc,
  yields it l e → cies_consistent section bases l → cur_cie_ok section bases cur_cie →
  (length l ≤ fuel)%nat →
  collect fuel section bases base_svma cur_cie it acc =
    Val (match reference_pairs section bases base_svma l e with
         | Ok pairs => Ok (acc ++ pairs)
         | Err e => Err e
         end).
Proof.
  induction l as [|entry l IH]; intros it fuel cur_cie acc Hy Hcons Hcur Hfuel;
    inversion Hy as [? it' Hn|? it' e' Hn|? it' ? ? ? Hn Hy']; subst.
  - destruct fuel; simpl; rewrite Hn; by rewrite app_nil_r.
  - destruct fuel; simpl; by rewrite Hn.
  - destruct fuel as [|fuel]; simpl in Hfuel; [lia|]. simpl. rewrite Hn.
    assert (Hcons' : cies_consistent section bases l).
    { intros cie Hcie. apply Hcons. by right. }
    destruct entry as [cie|p].
    + apply IH; auto with lia. intros ? [= <-]. apply Hcons. by left.
    + destruct (parse_get_cie section bases p cur_cie Hcur) as [Heq Hok].
      destruct (partial_parse _ p cur_cie) as [[fde|err] cur']; simpl in Heq, Hok;
        rewrite <- Heq; [|done].
      destruct (pc_and_offset base_svma fde) as [pr|err]; [|done].
      rewrite (IH it' fuel cur'); auto with lia.
      destruct (reference_pairs _ _ _ l e); [|done]. by rewrite <- (assoc_L (++)).
Qed.
End Spec.
