(* ===== verification/GimliExample.v ===== *)
(** A small executable DWARF parser with the interface [Gimli], for concrete instances of
    the theorems.  A section is a list of numbers, six per FDE:
    [start; offset; cfa register; cfa offset; ra rule; fp rule]; it has one CIE.  A register
    rule is 0 for "undefined", 1 for "same value", 2 for an expression, 3 and 4 for the
    x86_64 frame pointer and return address registers, and the offset from the CFA
    otherwise.  The one expression adds the stack pointer registers of the
    two architectures, asking for one of them. *)

From S2P Require Import Prelude Dwarf DwarfCfiIndex.
From stdpp Require Import list.
Local Open Scope Z_scope.

Definition toy_rule (n : Z) : RegisterRule () :=
  if n =? 0 then Undefined else if n =? 1 then SameValue
  else if n =? 2 then RegExpression ()
  else if n =? 3 then Register 6 else if n =? 4 then Register 16
  else Offset (sext 64 n).

Definition toy_cfa (reg off : Z) : CfaRule () :=
  if reg <? 0 then CfaExpression () else RegisterAndOffset reg (sext 64 off).

(** One FDE at position [off] of a section. *)
Definition toy_fde (section : list Z) (off : Z) : result (list Z) () :=
  match drop (Z.to_nat off) section with
  | a :: b :: c :: d :: e :: f :: _ => Ok [wrap 64 a; b; c; d; e; f]
  | _ => Err ()
  end.

(** The FDEs of a section in order, after its CIE. *)
Fixpoint toy_entries (n : nat) (section : list Z) : list (CieOrFde Z (list Z)) :=
  match n, section with
  | S n, a :: b :: c :: d :: e :: f :: rest =>
      AFde [wrap 64 a; b; c; d; e; f] :: toy_entries n rest
  | _, _ => []
  end.

#[export] Instance toy_gimli : Gimli.
Proof.
  refine {|
    gimli_error := ();
    X86_64_RA := 16; X86_64_RBP := 6; X86_64_RSP := 7;
    AArch64_SP := 31; AArch64_X29 := 29; AArch64_X30 := 30;
    BaseAddresses := list Z; bases_default := [];
    set_eh_frame b a := b ++ [a]; set_eh_frame_hdr b a := b ++ [a];
    set_text b a := b ++ [a]; set_got b a := b ++ [a];
    UnwindSection := list Z;
    eh_frame_from d := d; debug_frame_from d := d; set_address_size s _ := s;
    Cie := Z; Fde := list Z; PartialFde := list Z; Encoding := ();
    cie_from_offset _ _ off := Ok off;
    fde_from_offset s _ off := toy_fde s off;
    cie_offset c := c; cie_encoding _ := ();
    fde_cie _ := 0;
    fde_offset f := nth 1 f 0;
    initial_address f := wrap 64 (nth 0 f 0);
    CfiEntriesIter := list (CieOrFde Z (list Z));
    entries s _ := ACie 0 :: toy_entries (length s) s;
    entries_next it := match it with [] => (Ok None, []) | e :: it => (Ok (Some e), it) end;
    partial_parse S get p s :=
      match get 0 s with (Ok _, s) => (Ok p, s) | (Err e, s) => (Err e, s) end;
    UnwindContext := nat; UnwindTableRow := list Z; UnwindExpression := ();
    unwind_info_for_address f _ _ ctx a :=
      (if wrap 64 (nth 0 f 0) <=? a then Ok f else Err (), S ctx);
    row_cfa r := toy_cfa (nth 2 r 0) (nth 3 r 0);
    row_register r reg :=
      if (reg =? 16) || (reg =? 30) then toy_rule (nth 4 r 0)
      else if (reg =? 6) || (reg =? 29) then toy_rule (nth 5 r 0) else Undefined;
    Expression := ();
    expression_get _ _ := Ok ();
    Evaluation := option Z;
    evaluation_new _ _ := None;
    evaluate ev := (Ok (RequiresRegister 7), ev);
    resume_with_register _ v := (Ok Complete, Some v);
    as_result ev := match ev with Some v => [Address (wrap 64 (v + 8))] | None => [] end;
    ParsedEhFrameHdr := (); EhHdrTable := (); Pointer := Z;
    eh_frame_hdr_parse d _ _ := match d with [] => Err () | _ => Ok () end;
    hdr_table _ := Some ();
    table_lookup _ _ _ := Ok 0;
    pointer_to_offset _ p := Ok p;
  |}.
  - intros row. unfold toy_cfa. case_match; simpl; [done|by apply sext_range].
  - intros row reg. unfold toy_rule. repeat case_match; simpl; try done; by apply sext_range.
  - intros [v|] a; simpl.
    + intros [= ->]%list_elem_of_singleton. by apply wrap_range.
    + by intros ?%elem_of_nil.
  - intros f. by apply wrap_range.
  - by apply (bool_decide_unpack _).
  - by apply (bool_decide_unpack _).
Defined.

#[export] Instance toy_entries_laws : GimliEntries.
Proof.
  refine {|
    partial_cie_offset _ := 0;
    parse_with_cie p _ := Ok p;
  |}.
  - done.
  - intros section bases off cie [= <-]. done.
Defined.

#[export] Instance toy_fuel : ExprFuel := 10%nat.
#[export] Instance toy_entries_fuel : EntriesFuel := 100%nat.

Lemma toy_yields l : yields (H := toy_gimli) l l None.
Proof.
  induction l as [|e l IH].
  - by apply (@yields_end toy_gimli [] []).
  - by apply (@yields_entry toy_gimli (e :: l) l e l None).
Qed.
