(* ===== verification/DwarfCfiIndexSpec.v ===== *)
(** The theorems on [DwarfCfiIndex]: what [try_new] builds and what a lookup finds. *)

From S2P Require Import Prelude Slices Dwarf DwarfCfiIndex GimliExample.
From stdpp Require Import list sorting.
Local Open Scope Z_scope.

(** * The index of a list of (start, offset) pairs *)

Lemma sort_by_key_perm {A} (key : A → Z) l : sort_by_key key l ≡ₚ l.
Proof. apply merge_sort_Permutation. Qed.

Lemma index_of_pairs_sorted ps : sorted_by id (sorted_fde_pc_starts (index_of_pairs ps)).
Proof. apply sorted_by_fmap, sorted_by_sort. Qed.

(** Position [i] of the two vectors is one of the pairs, and every pair is at one. *)
Lemma index_of_pairs_lookup ps i start off :
  sorted_fde_pc_starts (index_of_pairs ps) !! i = Some start →
  fde_offsets (index_of_pairs ps) !! i = Some off → (start, off) ∈ ps.
Proof.
  simpl. rewrite !list_lookup_fmap.
  intros ([s o] & Hs & ->)%fmap_Some ([s' o'] & Hs' & ->)%fmap_Some. simplify_eq/=.
  rewrite <- (sort_by_key_perm fst ps). by eapply list_elem_of_lookup_2.
Qed.

Lemma index_of_pairs_elem ps start off :
  (start, off) ∈ ps → ∃ i, sorted_fde_pc_starts (index_of_pairs ps) !! i = Some start.
Proof.
  intros Hin. rewrite <- (sort_by_key_perm fst ps) in Hin.
  apply list_elem_of_lookup in Hin as (i & Hi). exists i. simpl.
  by rewrite list_lookup_fmap, Hi.
Qed.

Lemma fde_offset_at ps i start :
  sorted_fde_pc_starts (index_of_pairs ps) !! i = Some start →
  ∃ off, index (fde_offsets (index_of_pairs ps)) (Z.of_nat i) = Val off ∧ (start, off) ∈ ps.
Proof.
  intros Hi. destruct (lookup_lt_is_Some_2 (fde_offsets (index_of_pairs ps)) i) as [off Hoff].
  { apply lookup_lt_Some in Hi. simpl in *. by rewrite !length_fmap in *. }
  exists off. split; [|by eapply index_of_pairs_lookup].
  unfold index. destruct (Z.leb_spec 0 (Z.of_nat i)); [|lia]. by rewrite Nat2Z.id, Hoff.
Qed.

(** C23.  A lookup in the index never panics.  It finds nothing when every FDE starts
    above the address, and otherwise an FDE with the greatest start not above it. *)
Theorem fde_lookup_correct `{BinarySearch} (ps : list (Z * Z)) (a : Z) :
  ∃ res, fde_offset_for_relative_address (index_of_pairs ps) a = Val res ∧
    match res with
    | None => ∀ p, p ∈ ps → a < p.1
    | Some off => ∃ start, (start, off) ∈ ps ∧ start ≤ a ∧
                    ∀ p, p ∈ ps → p.1 ≤ a → p.1 ≤ start
    end.
Proof.
  pose proof (index_of_pairs_sorted ps) as Hs.
  pose proof (binary_search_sorted _ a Hs) as Hb. unfold fde_offset_for_relative_address.
  destruct (binary_search _ a) as [i|[|i]].
  - destruct (fde_offset_at ps i a Hb) as (off & -> & Hin). eexists; split; [done|].
    exists a. split_and!; [done|lia|done].
  - exists None. split; [done|]. intros [s o] Hin.
    destruct (index_of_pairs_elem ps s o Hin) as (j & Hj). simpl.
    destruct Hb as (_ & _ & Hge). apply (Hge j s); [lia|done].
  - destruct Hb as (Hlen & Hlt & Hge).
    destruct (lookup_lt_is_Some_2 (sorted_fde_pc_starts (index_of_pairs ps)) i ltac:(lia))
      as [start Hstart].
    destruct (fde_offset_at ps i start Hstart) as (off & -> & Hin). eexists; split; [done|].
    exists start. pose proof (Hlt i start ltac:(lia) Hstart).
    split_and!; [done|lia|]. intros [s o] Hso Hsa. cbn [fst] in *.
    destruct (index_of_pairs_elem ps s o Hso) as (j & Hj).
    destruct (decide (j < S i)%nat) as [Hji|Hji].
    + destruct (decide (j = i)) as [->|]; [simplify_eq; lia|]. apply (Hs j i s start); [lia|done|done].
    + specialize (Hge j s ltac:(lia) Hj). lia.
Qed.

(** C24.  With fuel for the section's entries, [try_new] builds the index of exactly the
    FDEs of the section, in spite of the remembered CIE, and stops with the first error
    of the parser or of a value that does not fit.  (The parser reads a CIE the same way
    from the entry list and from its offset.) *)
Theorem try_new_correct `{GimliEntries, EntriesFuel} section bases base_svma l e :
  yields (entries section bases) l e → cies_consistent section bases l →
  (length l ≤ entries_fuel)%nat →
  try_new section bases base_svma =
    Val (match reference_pairs section bases base_svma l e with
         | Ok pairs => Ok (index_of_pairs pairs)
         | Err err => Err err
         end).
Proof.
  intros Hy Hcons Hfuel. unfold try_new.
  rewrite (collect_reference _ _ _ l e _ _ None []); [|done|done|done|done].
  simpl. by destruct (reference_pairs _ _ _ _ _).
Qed.

Definition example_section : list Z :=
  [0x1200; 12; 7; 16; -8; 0;
   0x1100; 0; 7; 8; -8; 0].

Lemma try_new_correct_witness :
  try_new (H := toy_gimli) example_section [] 0x1000 =
    Val (match reference_pairs (H := toy_gimli) example_section [] 0x1000
                 (@entries toy_gimli example_section []) None with
         | Ok pairs => Ok (index_of_pairs pairs)
         | Err err => Err err
         end).
Proof.
  apply (@try_new_correct toy_gimli _ _ example_section [] 0x1000
           (@entries toy_gimli example_section []) None).
  - apply toy_yields.
  - intros cie. vm_compute. done.
  - vm_compute. lia.
Defined.

Example try_new_example :
  try_new (H := toy_gimli) example_section [] 0x1000 =
    Val (Ok (mk_index [0x100; 0x200] [0; 12])).
Proof. reflexivity. Qed.
