(* ===== verification/X86Dwarf.v ===== *)
(** DWARF unwinding on x86_64 ([src/x86_64/dwarf.rs]). *)

From S2P Require Import Prelude AddSigned Error Arch Dwarf X86UnwindRegs X86UnwindRule.
From S2P Require Import GimliExample.
Local Open Scope Z_scope.

Section Dwarf.
Context `{Profile, Gimli, ExprFuel}.

(** [DwarfUnwindRegs::get]. *)
Definition dwarf_get (self : UnwindRegsX86_64) (register : Z) : option Z :=
  if register =? X86_64_RA then Some (ip self)
  else if register =? X86_64_RSP then Some (sp self)
  else if register =? X86_64_RBP then Some (bp self)
  else None.

Definition register_rule_to_cfa_offset (rule : RegisterRule UnwindExpression) :
    result (option Z) ConversionError :=
  match rule with
  | Undefined | SameValue => Ok None
  | Offset offset => Ok (Some offset)
  | _ => Err RegisterNotStoredRelativeToCfa
  end.

(** [/] on [i64] rounds towards zero; [+] on [i64] may overflow. *)
Definition translate_into_unwind_rule (cfa_rule : CfaRule UnwindExpression)
    (bp_rule ra_rule : RegisterRule UnwindExpression) :
    may (result UnwindRuleX86_64 ConversionError) :=
  let of_cfa_rule :=
    match cfa_rule with
    | RegisterAndOffset register offset =>
        if register =? X86_64_RSP then
          match checked_uint 16 (Z.quot offset 8) with
          | None => Val (Err SpOffsetDoesNotFit)
          | Some sp_offset_by_8 =>
              match register_rule_to_cfa_offset bp_rule with
              | Err e => Val (Err e)
              | Ok None => Val (Ok (OffsetSp sp_offset_by_8))
              | Ok (Some bp_cfa_offset) =>
                  bp_storage_offset ← sarith 64 (offset + bp_cfa_offset);
                  match checked_sint 16 (Z.quot bp_storage_offset 8) with
                  | None => Val (Err FpStorageOffsetDoesNotFit)
                  | Some bp_storage_offset_from_sp_by_8 =>
                      Val (Ok (OffsetSpAndRestoreBp sp_offset_by_8
                                 bp_storage_offset_from_sp_by_8))
                  end
              end
          end
        else if register =? X86_64_RBP then
          match register_rule_to_cfa_offset bp_rule with
          | Err e => Val (Err e)
          | Ok None => Val (Err FramePointerRuleDoesNotRestoreBp)
          | Ok (Some bp_cfa_offset) =>
              if (offset =? 16) && (bp_cfa_offset =? -16) then Val (Ok UseFramePointer)
              else Val (Err FramePointerRuleHasStrangeBpOffset)
          end
        else Val (Err CfaIsOffsetFromUnknownRegister)
    | CfaExpression _ => Val (Err CfaIsExpression)
    end in
  match ra_rule with
  | Undefined => Val (Ok EndOfStack)
  | Offset offset =>
      if offset =? -8 then of_cfa_rule else Val (Err ReturnAddressRuleWithUnexpectedOffset)
  | _ => Val (Err ReturnAddressRuleWasWeird)
  end.

Context {St : Type} `{StackReader St}.
Abbreviation X := (M (UnwindRegsX86_64 * St) (DwarfUnwinderError gimli_error)).

(** The generic path of [unwind_frame], for rows without a cacheable rule. *)
Definition unwind_frame_slow (section : UnwindSection) (cfa_rule : CfaRule UnwindExpression)
    (bp_rule ra_rule : RegisterRule UnwindExpression) (encoding : Encoding)
    (is_first_frame : bool) : X (UnwindResult UnwindRuleX86_64) :=
  regs ← get_regs;
  cfa ← lift (eval_cfa_rule dwarf_get section cfa_rule encoding regs);
  cfa ← try_ (ok_or cfa CouldNotRecoverCfa);
  let ip := ip regs in
  let bp := bp regs in
  let sp := sp regs in
  new_bp ← eval_register_rule dwarf_get section bp_rule cfa encoding bp regs;
  let new_bp := default bp new_bp in
  return_address ← eval_register_rule dwarf_get section ra_rule cfa encoding ip regs;
  return_address ←
    match return_address with
    | Some ra => mret ra
    | None =>
        ra_location ← lift (uarith 64 (cfa - 8));
        read_or ra_location CouldNotRecoverReturnAddress
    end;
  if (cfa =? sp) && (return_address =? ip) then throw DwarfDidNotAdvance
  else if negb is_first_frame && (cfa <? sp) then throw DwarfStackPointerMovedBackwards
  else
    put_regs (set_sp (set_bp (set_ip regs return_address) new_bp) cfa) ;;
    mret (Uncacheable return_address).

Definition unwind_frame (section : UnwindSection) (unwind_info : UnwindTableRow)
    (encoding : Encoding) (is_first_frame : bool) : X (UnwindResult UnwindRuleX86_64) :=
  let cfa_rule := row_cfa unwind_info in
  let bp_rule := row_register unwind_info X86_64_RBP in
  let ra_rule := row_register unwind_info X86_64_RA in
  translated ← lift (translate_into_unwind_rule cfa_rule bp_rule ra_rule);
  match translated with
  | Ok unwind_rule => mret (ExecRule unwind_rule)
  | Err _ => unwind_frame_slow section cfa_rule bp_rule ra_rule encoding is_first_frame
  end.
End Dwarf.

#[export] Instance DwarfX86_64 `{Gimli} : @DwarfUnwinding _ ArchX86_64 := {|
  dwarf_unwind_frame _ _ _ _ := unwind_frame;
  rule_if_uncovered_by_fde := JustReturnIfFirstFrameOtherwiseFp : @UnwindRule ArchX86_64;
|}.

(** * Translated rules *)

Section Translate.
Context `{Profile, Gimli, ExprFuel}.
Implicit Types (r : UnwindRegsX86_64).

Lemma registers_distinct :
  X86_64_RSP ≠ X86_64_RA ∧ X86_64_RBP ≠ X86_64_RA ∧ X86_64_RBP ≠ X86_64_RSP.
Proof.
  pose proof X86_64_distinct as Hd.
  apply NoDup_cons in Hd as [Hra [Hrbp _]%NoDup_cons].
  rewrite !not_elem_of_cons in Hra. rewrite not_elem_of_cons in Hrbp.
  destruct Hra as (? & ? & _), Hrbp as (? & _). by split_and!.
Qed.

Lemma dwarf_get_rsp r : dwarf_get r X86_64_RSP = Some (sp r).
Proof.
  destruct registers_distinct as (? & _). unfold dwarf_get.
  destruct (Z.eqb_spec X86_64_RSP X86_64_RA); [done|]. by rewrite Z.eqb_refl.
Qed.
Lemma dwarf_get_rbp r : dwarf_get r X86_64_RBP = Some (bp r).
Proof.
  destruct registers_distinct as (_ & ? & ?). unfold dwarf_get.
  destruct (Z.eqb_spec X86_64_RBP X86_64_RA); [done|].
  destruct (Z.eqb_spec X86_64_RBP X86_64_RSP); [done|]. by rewrite Z.eqb_refl.
Qed.
Lemma dwarf_get_u64 r reg v : wf_regs r → dwarf_get r reg = Some v → is_u64 v.
Proof.
  intros [Hip Hr]. unfold dwarf_get. repeat case_match; intros [= <-]; [done|apply Hr..].
Qed.

(** What each translated rule says of its row, the row's offsets being [i64]s. *)
Inductive translated : CfaRule UnwindExpression → RegisterRule UnwindExpression →
    RegisterRule UnwindExpression → UnwindRuleX86_64 → Prop :=
| translated_end c b : translated c b Undefined EndOfStack
| translated_offset_sp off b x :
    b = Undefined ∨ b = SameValue → x = Z.quot off 8 → is_u16 x →
    translated (RegisterAndOffset X86_64_RSP off) b (Offset (-8)) (OffsetSp x)
| translated_restore_bp off o x y :
    x = Z.quot off 8 → is_u16 x → y = Z.quot (off + o) 8 → is_i16 y →
    is_i64 (off + o) →
    translated (RegisterAndOffset X86_64_RSP off) (Offset o) (Offset (-8))
      (OffsetSpAndRestoreBp x y)
| translated_fp :
    translated (RegisterAndOffset X86_64_RBP 16) (Offset (-16)) (Offset (-8))
      UseFramePointer.

Lemma translate_translated c b ra rule :
  wf_cfa_rule c → wf_register_rule b →
  translate_into_unwind_rule c b ra = Val (Ok rule) → translated c b ra rule.
Proof.
  intros Hc Hb. unfold translate_into_unwind_rule.
  destruct ra as [| |o| | | | | |]; try done; [intros [= <-]; apply translated_end|].
  destruct (Z.eqb_spec o (-8)) as [->|]; [|done].
  destruct c as [reg off|e]; [|done]. simpl in Hc.
  destruct (Z.eqb_spec reg X86_64_RSP) as [->|].
  - destruct (checked_uint 16 (Z.quot off 8)) as [x|] eqn:Hx; [|done].
    apply checked_uint_Some in Hx as [-> Hx].
    destruct b as [| |o| | | | | |]; simpl; try done;
      [intros [= <-]; apply translated_offset_sp; auto..|].
    unfold sarith. destruct (in_sint_spec 64 (off + o)) as [Hi|Hi]; simpl.
    + destruct (checked_sint 16 _) as [y|] eqn:Hy; [|done].
      apply checked_sint_Some in Hy as [-> Hy]. intros [= <-]. by apply translated_restore_bp.
    + destruct overflow_checks; [done|]. simpl.
      destruct (checked_sint 16 _) as [y|] eqn:Hy; [|done].
      apply checked_sint_Some in Hy as [-> Hy]. simpl in Hb.
      apply wrapped_slot_too_big in Hy; [done| |done|done].
      pose proof (Z.quot_rem' off 8). pose proof (Z.rem_bound_abs off 8 ltac:(lia)). range.
  - destruct (Z.eqb_spec reg X86_64_RBP) as [->|]; [|done].
    destruct b as [| |o| | | | | |]; simpl; try done.
    destruct (Z.eqb_spec off 16) as [->|], (Z.eqb_spec o (-16)) as [->|]; try done.
    intros [= <-]. apply translated_fp.
Qed.

Lemma translated_wf c b ra rule : translated c b ra rule → wf_rule rule.
Proof. by destruct 1. Qed.
End Translate.

(** * Every outcome *)

Section Outcomes.
Context `{Profile, Gimli, ExprFuel} {St : Type} `{StackReader St}.
Implicit Types (r : UnwindRegsX86_64) (st : St).

(** Expressions finish within the fuel. *)
Definition expressions_terminate : Prop :=
  ∀ expr enc r k, eval_expr dwarf_get expr enc r ≠ Fault k.

Definition dwarf_post (first : bool) r
    (res : result (UnwindResult UnwindRuleX86_64) (DwarfUnwinderError gimli_error))
    (s : UnwindRegsX86_64 * St) : Prop :=
  wf_regs s.1 ∧
  match res with
  | Ok (ExecRule rule) => s.1 = r ∧ wf_rule rule
  | Ok (Uncacheable ra) =>
      is_u64 ra ∧ ip s.1 = ra ∧ (first = false → sp r ≤ sp s.1) ∧
      (sp s.1 = sp r → ra ≠ ip r)
  | Err _ => s.1 = r
  end.

(** The outcome is not a rule. *)
Definition not_a_rule
    (res : result (UnwindResult UnwindRuleX86_64) (DwarfUnwinderError gimli_error)) : Prop :=
  if res is Ok (ExecRule _) then False else True.

Lemma post_err first r e st :
  wf_regs r → dwarf_post first r (Err e) (r, st) ∧ not_a_rule (Err e).
Proof. done. Qed.

Lemma wp_unwind_frame_slow (pan : Prop) section c b ra enc first r st :
  wf_regs r → (∀ expr k, eval_expr dwarf_get expr enc r = Fault k → pan) →
  (overflow_checks = true → pan) →
  wp pan (unwind_frame_slow section c b ra enc first)
    (λ res s, dwarf_post first r res s ∧ not_a_rule res) (r, st).
Proof.
  intros Hr Hexpr Hover.
  assert (Hget : ∀ reg v, dwarf_get r reg = Some v → is_u64 v).
  { intros reg v. by apply dwarf_get_u64. }
  unfold unwind_frame_slow. apply wp_bind, wp_get_regs. cbn [fst].
  apply wp_bind, wp_lift.
  2:{ intros k. unfold eval_cfa_rule. destruct c; [done|].
      destruct (expression_get _ _); [|done]. apply Hexpr. }
  intros cfa Hcfa. apply wp_bind, wp_try. destruct cfa as [cfa|]; simpl; [|by apply post_err].
  apply eval_cfa_rule_u64 in Hcfa.
  apply wp_bind. eapply wp_mono;
    [|apply (wp_eval_register_rule dwarf_get pan); [apply Hr|exact Hget|intros e; apply Hexpr]].
  intros res [r1 st1] (Heq1 & nbp & -> & Hnbp). simpl in Heq1. subst r1.
  apply wp_bind. eapply wp_mono;
    [|apply (wp_eval_register_rule dwarf_get pan); [apply Hr|exact Hget|intros e; apply Hexpr]].
  intros res [r2 st2] (Heq2 & oret & -> & Hret). simpl in Heq2. subst r2.
  assert (Hbp : is_u64 (default (bp r) nbp)).
  { destruct nbp; simpl; [by apply Hnbp|apply Hr]. }
  assert (Hrest : ∀ st3 ret, is_u64 ret →
    wp pan (if (cfa =? sp r) && (ret =? ip r) then throw DwarfDidNotAdvance
            else if negb first && (cfa <? sp r) then throw DwarfStackPointerMovedBackwards
            else put_regs (set_sp (set_bp (set_ip r ret) (default (bp r) nbp)) cfa) ;;
                 mret (Uncacheable ret))
      (λ res s, dwarf_post first r res s ∧ not_a_rule res) (r, st3)).
  { intros st3 ret Hu. destruct (Z.eqb_spec cfa (sp r)), (Z.eqb_spec ret (ip r)); simpl;
      try (by apply wp_throw, post_err);
      (destruct first, (Z.ltb_spec cfa (sp r)); simpl;
       try (by apply wp_throw, post_err);
       apply wp_bind, wp_put_regs, wp_ret; cbn [fst snd];
       (split; [|done]); unfold dwarf_post; cbn [fst];
       (split; [unfold set_sp, set_bp; auto with x86wf|simpl_regs; split_and!; done || lia])). }
  destruct oret as [ret|].
  - apply wp_bind, wp_ret. apply Hrest. by apply Hret.
  - apply wp_bind, wp_bind, wp_lift.
    + intros a Ha. apply wp_read_or.
      * intros v st3 _ Hv. by apply Hrest.
      * intros st3 _. by apply post_err.
    + intros k. unfold uarith. destruct (in_uint 64 (cfa - 8)); [done|].
      destruct overflow_checks; [|done]. auto.
Qed.

Lemma wp_dwarf_unwind_frame (pan : Prop) section row enc first r st :
  wf_regs r → (∀ expr k, eval_expr dwarf_get expr enc r = Fault k → pan) →
  (overflow_checks = true → pan) →
  wp pan (unwind_frame section row enc first) (dwarf_post first r) (r, st).
Proof.
  intros Hr Hexpr Hover. unfold unwind_frame. apply wp_bind, wp_lift.
  - intros [rule|e] Ht.
    + apply wp_ret. split; [done|]. split; [done|].
      by eapply translated_wf, translate_translated; [| |exact Ht];
        [apply row_cfa_wf|apply row_register_wf].
    + eapply wp_mono; [|by apply wp_unwind_frame_slow]. by intros res s [? _].
  - intros k Hk. apply Hover. revert Hk. unfold translate_into_unwind_rule, sarith.
    repeat case_match; simpl; repeat case_match; done.
Qed.
End Outcomes.

(** C28.  Unwinding an x86_64 frame with a DWARF row always returns in a release build
    when its expressions terminate.  It either leaves the registers alone and names
    a well-formed cacheable rule or an error, or it recovers the caller: the return
    address becomes the instruction pointer, all registers are machine words, the stack
    pointer does not move backwards (first frames excepted), and the frame is not the
    same as before. *)
Theorem x86_dwarf_outcomes `{Profile, Gimli, ExprFuel} {St} `{StackReader St}
    section row enc (first : bool) (r : UnwindRegsX86_64) (st : St) :
  wf_regs r → overflow_checks = false → expressions_terminate →
  ∃ res s, unwind_frame section row enc first (r, st) = Val (res, s) ∧
    dwarf_post first r res s.
Proof.
  intros Hr Hrel Hexpr. apply wp_no_panic, wp_dwarf_unwind_frame; [done| |].
  - intros expr k Hk. by apply Hexpr in Hk.
  - rewrite Hrel. done.
Qed.

Lemma toy_expressions_terminate : @expressions_terminate toy_gimli toy_fuel.
Proof. intros e enc r k. unfold eval_expr, dwarf_get. simpl. done. Qed.

Lemma x86_dwarf_outcomes_witness :
  ∃ res s, @unwind_frame release_profile toy_gimli toy_fuel _ words_reader
             [] [0; 0; -1; 0; -8; -16] () false (new 0x100300 0x18 0x20, example_stack) =
           Val (res, s) ∧
    @dwarf_post toy_gimli _ false (new 0x100300 0x18 0x20) res s.
Proof.
  apply (@x86_dwarf_outcomes release_profile toy_gimli toy_fuel).
  - apply wf_new; range.
  - done.
  - apply toy_expressions_terminate.
Defined.

Example x86_dwarf_expression_frame :
  @unwind_frame release_profile toy_gimli toy_fuel _ words_reader
     [] [0; 0; -1; 0; -8; -16] () false (new 0x100300 0x18 0x20, example_stack) =
  Val (Ok (Uncacheable 4), (new 4 0x20 0x100300, example_stack)).
Proof. vm_compute. reflexivity. Qed.

(** * The cacheable rules against the generic path *)

Section Agreement.
Context `{Profile, Gimli, ExprFuel} {St : Type} `{PureReader St}.
Implicit Types (r : UnwindRegsX86_64) (st : St).

Lemma run_ok_simple_rule {E} section rule cfa enc val r0 r st :
  simple_rule rule →
  run_ok (eval_register_rule (E := E) dwarf_get section rule cfa enc val r0) (r, st) =
    Some (recovered (memory st) rule cfa val, (r, st)).
Proof. intros Hrule. apply run_ok_Some. by apply eval_simple_rule. Qed.

(** The generic path on a row with simple rules, as a function of the memory. *)
Lemma slow_simple section reg off b enc first r st base ra r' st' :
  dwarf_get r reg = Some base → wf_regs r → simple_rule b →
  unwind_frame_slow section (RegisterAndOffset reg off) b (Offset (-8)) enc first (r, st) =
    Val (Ok (Uncacheable ra), (r', st')) →
  let cfa := base + off in
  st' = st ∧ 0 ≤ cfa < 2 ^ 63 ∧ (8 ≤ cfa → memory st (cfa - 8) = Some ra) ∧
  (cfa = sp r → ra ≠ ip r) ∧
  r' = set_sp (set_bp (set_ip r ra)
                 (default (bp r) (recovered (memory st) b cfa (bp r)))) cfa.
Proof.
  intros Hbase Hr Hb Hrun%run_ok_Some. revert Hrun. unfold unwind_frame_slow.
  rewrite run_ok_bind, run_ok_get_regs. cbn [mbind option_bind fst snd].
  rewrite run_ok_bind, run_ok_lift. cbn [eval_cfa_rule].
  rewrite Hbase. cbn [mbind option_bind fst snd].
  rewrite run_ok_bind, run_ok_try.
  destruct (i64_plus_offset base off) as [cfa|] eqn:Hcfa; [|done].
  pose proof (i64_plus_offset_u64 _ _ _ Hcfa) as Hcfa64.
  apply i64_plus_offset_Some in Hcfa as (_ & -> & Hcfa).
  cbn [fmap option_fmap option_map mbind option_bind fst snd].
  rewrite run_ok_bind, run_ok_simple_rule by done. cbn [mbind option_bind fst snd].
  rewrite run_ok_bind, run_ok_simple_rule by done. cbn [mbind option_bind fst snd].
  rewrite run_ok_bind. intros ([ret s] & Hret & Hrest)%bind_Some. simpl in Hrest.
  assert (Hs : s = (r, st) ∧ (8 ≤ base + off → memory st (base + off - 8) = Some ret)).
  { revert Hret. unfold recovered.
    destruct (i64_plus_offset (base + off) (-8)) as [a|] eqn:Ha; simpl.
    - apply i64_plus_offset_Some in Ha as (_ & -> & Ha).
      replace (base + off + -8) with (base + off - 8) in * by lia.
      destruct (memory st (base + off - 8)) as [v|] eqn:Hm; [by intros [= <- <-]|].
      rewrite run_ok_bind, run_ok_lift, uarith_ok by range. simpl.
      rewrite run_ok_read_or, Hm by range. done.
    - rewrite run_ok_bind, run_ok_lift. intros (x & Hx & Hv)%bind_Some.
      destruct (decide (8 ≤ base + off)) as [H8|H8].
      + exfalso. rewrite (proj2 (i64_plus_offset_Some (base + off) (-8) (base + off - 8))) in Ha;
          [done|]. split_and!; range.
      + split; [|lia]. destruct (uarith _ _) as [v|] eqn:Hu; [|done]. simplify_eq/=.
        apply uarith_range in Hu; [|lia]. rewrite run_ok_read_or in Hv by done.
        apply fmap_Some in Hv as (v' & _ & [= -> ->]). done. }
  destruct Hs as [-> Hmem]. revert Hrest.
  destruct (Z.eqb_spec (base + off) (sp r)), (Z.eqb_spec ret (ip r)); simpl; try done;
    destruct (negb first && _); try done;
    rewrite run_ok_bind, run_ok_put_regs; simpl; rewrite run_ok_ret;
    intros [= <- <- <-]; split_and!; done || lia || congruence.
Qed.

Definition aligned_row (c : CfaRule UnwindExpression) (b : RegisterRule UnwindExpression) :
    Prop :=
  (if c is RegisterAndOffset _ off then (8 | off) else True) ∧
  (if b is Offset o then (8 | o) else True).

Lemma quot_mul_8 z : (8 | z) → Z.quot z 8 * 8 = z.
Proof. intros [k ->]. by rewrite Z.quot_mul. Qed.

(** From what a rule denotes to one run of it. *)
Lemma exec_of_denote rule first r st nsp nbp ra :
  wf_regs r → wf_rule rule → 8 ≤ sp r →
  denote (memory st) rule first r = Some (nsp, set_bp r nbp) → nsp < 2 ^ 64 →
  memory st (nsp - 8) = Some ra → ra ≠ 0 → (nsp = sp r → ra ≠ ip r) →
  exec rule first (r, st) =
    Val (Ok (Some ra), (set_sp (set_bp (set_ip r ra) nbp) nsp, st)).
Proof.
  intros Hr Hrule H8 Hd Hlt Hm Hnz Hadv.
  destruct (exec_denote rule first r st nsp _ Hr Hrule H8 Hd Hlt) as [r0 ->]. rewrite Hm.
  destruct (Z.eqb_spec ra 0); [done|].
  destruct (Z.eqb_spec nsp (sp r)), (Z.eqb_spec ra (ip r)); simpl; try done.
  exfalso. by apply Hadv.
Qed.

Lemma translated_agrees section c b ra_rule enc first rule r st ra r' st' :
  wf_regs r → 8 ≤ sp r → aligned_row c b → translated c b ra_rule rule →
  rule ≠ EndOfStack →
  unwind_frame_slow section c b ra_rule enc first (r, st) =
    Val (Ok (Uncacheable ra), (r', st')) →
  ra ≠ 0 →
  (if b is Offset _ then is_Some (recovered (memory st) b (sp r') (bp r)) else True) →
  (if rule is UseFramePointer then bp r ≠ 0 ∧ sp r < sp r' else True) →
  exec rule first (r, st) = Val (Ok (Some ra), (r', st')).
Proof.
  intros Hr H8 [Hc Hb] Ht Hend Hslow Hnz Hslot Hfp.
  destruct Ht as [c b|off b x Hbr -> Hx|off o x y -> Hx -> Hy Hi|]; [done|..].
  - pose proof (quot_mul_8 off Hc) as Hq.
    apply slow_simple with (base := sp r) in Hslow; [|apply dwarf_get_rsp|done|by destruct Hbr; subst].
    destruct Hslow as (-> & Hcfa & Hm & Hadv & ->).
    replace (default (bp r) _) with (bp r) by (by destruct Hbr; subst).
    apply exec_of_denote; try done; try (range || (apply Hm; range)).
    simpl. rewrite Hq. by rewrite set_bp_id.
  - pose proof (quot_mul_8 off Hc) as Hq.
    pose proof (quot_mul_8 (off + o) (Z.divide_add_r _ _ _ Hc Hb)) as Hq'.
    apply slow_simple with (base := sp r) in Hslow; [|apply dwarf_get_rsp|done|done].
    destruct Hslow as (-> & Hcfa & Hm & Hadv & ->).
    replace (sp (set_sp _ _)) with (sp r + off) in Hslot by (by simpl_regs).
    destruct Hslot as [v Hv]. rewrite Hv. simpl.
    apply exec_of_denote; try done; try (range || (apply Hm; range)).
    simpl in Hv. apply bind_Some in Hv as (a & Ha & Hv).
    apply i64_plus_offset_Some in Ha as (_ & -> & _).
    simpl. rewrite Hq, Hq'. replace (sp r + (off + o)) with (sp r + off + o) by lia.
    by rewrite Hv.
  - apply slow_simple with (base := bp r) in Hslow; [|apply dwarf_get_rbp|done|done].
    destruct Hslow as (-> & Hcfa & Hm & Hadv & ->).
    replace (sp (set_sp _ _)) with (bp r + 16) in Hslot, Hfp by (by simpl_regs).
    destruct Hslot as [v Hv]. destruct Hfp as [Hbp Hsp]. rewrite Hv. simpl.
    apply exec_of_denote; try done; try (range || (apply Hm; range)).
    simpl in Hv. apply bind_Some in Hv as (a & Ha & Hv).
    apply i64_plus_offset_Some in Ha as (_ & -> & _).
    replace (bp r + 16 + -16) with (bp r) in Hv by lia.
    simpl. destruct (Z.eqb_spec (bp r) 0); [done|].
    destruct (Z.leb_spec (bp r + 16) (sp r)); [lia|]. by rewrite Hv.
Qed.
End Agreement.

(** C16.  The cacheable rule is an optimisation of the generic DWARF path: for a row whose
    offsets are multiples of 8 and a stack pointer of at least 8, when the row translates
    to a rule (other than the end of the stack) and the generic path recovers a caller
    with a non-zero return address from readable slots, executing the rule gives the same
    return address and the same registers.  (For the frame pointer rule the frame pointer
    must not be null and the caller's frame must be above.) *)
Theorem x86_translation_agrees `{Profile, Gimli, ExprFuel} {St} `{PureReader St}
    section c b ra_rule enc (first : bool) rule (r r' : UnwindRegsX86_64) (st st' : St) ra :
  wf_regs r → 8 ≤ sp r → wf_cfa_rule c → wf_register_rule b → aligned_row c b →
  translate_into_unwind_rule c b ra_rule = Val (Ok rule) → rule ≠ EndOfStack →
  unwind_frame_slow section c b ra_rule enc first (r, st) =
    Val (Ok (Uncacheable ra), (r', st')) →
  ra ≠ 0 →
  (if b is Offset _ then is_Some (recovered (memory st) b (sp r') (bp r)) else True) →
  (if rule is UseFramePointer then bp r ≠ 0 ∧ sp r < sp r' else True) →
  exec rule first (r, st) = Val (Ok (Some ra), (r', st')).
Proof.
  intros Hr H8 Hc Hb Hal Ht. apply translated_agrees; [done|done|done|].
  by apply translate_translated.
Qed.

Lemma x86_translation_agrees_witness :
  @exec debug_profile _ words_reader (OffsetSpAndRestoreBp 6 4) false
    (new 0x100300 8 0x20, example_stack) =
  Val (Ok (Some 5), (set_sp (set_bp (new 5 8 0x20) 0x100200) 0x38, example_stack)).
Proof.
  apply (@x86_translation_agrees debug_profile toy_gimli toy_fuel _ words_reader words_pure
    [] (RegisterAndOffset 7 48) (Offset (-16)) (Offset (-8)) () false
    (OffsetSpAndRestoreBp 6 4)).
  - apply wf_new; range.
  - by vm_compute.
  - by vm_compute.
  - by vm_compute.
  - split; [by exists 6|by exists (-2)].
  - reflexivity.
  - discriminate.
  - vm_compute. reflexivity.
  - discriminate.
  - vm_compute. by eexists.
  - done.
Defined.

(** The translation drops the remainder of offsets that are not multiples of 8: the
    row [CFA = rsp + 12] becomes the rule that adds 8, so the rule's caller frame is not
    the row's. *)
Lemma x86_translation_misaligned `{Gimli} :
  @translate_into_unwind_rule debug_profile _ (RegisterAndOffset X86_64_RSP 12) SameValue
    (Offset (-8)) = Val (Ok (OffsetSp 1)) ∧
  ∀ (mem : Z → option Z) (first : bool) (r : UnwindRegsX86_64),
    denote mem (OffsetSp 1) first r = Some (sp r + 8, r) ∧
    (sp r + 8 ≠ sp r + 12).
Proof.
  split; [|intros; split; [done|lia]].
  unfold translate_into_unwind_rule. simpl. by rewrite Z.eqb_refl.
Qed.

(** The translation panics exactly in builds with overflow checks, on a row whose
    frame pointer slot relative to the stack pointer does not fit an [i64]. *)
Lemma x86_translation_panics_iff `{Profile, Gimli} c b ra_rule :
  translate_into_unwind_rule c b ra_rule = Panic ↔
    overflow_checks = true ∧ ra_rule = Offset (-8) ∧
    ∃ off o, c = RegisterAndOffset X86_64_RSP off ∧ b = Offset o ∧
      is_u16 (Z.quot off 8) ∧ ¬ is_i64 (off + o).
Proof.
  split.
  - unfold translate_into_unwind_rule.
    destruct ra_rule as [| |o'| | | | | |]; try done.
    destruct (Z.eqb_spec o' (-8)) as [->|]; [|done].
    destruct c as [reg off|]; [|done].
    destruct (Z.eqb_spec reg X86_64_RSP) as [->|].
    2:{ destruct (Z.eqb_spec reg X86_64_RBP); [|done].
        destruct b as [| |o| | | | | |]; simpl; try done. by case_match. }
    destruct (checked_uint 16 _) eqn:Hx; [|done]. apply checked_uint_Some in Hx as [_ Hx].
    destruct b as [| |o| | | | | |]; simpl; try done.
    unfold sarith. destruct (in_sint_spec 64 (off + o)); [simpl; by case_match|].
    destruct overflow_checks; [|simpl; by case_match]. intros _. eauto 10.
  - intros (Hchk & -> & off & o & -> & -> & Hx & Hn). unfold translate_into_unwind_rule.
    rewrite !Z.eqb_refl. rewrite checked_uint_ok by done. simpl. unfold sarith.
    destruct (in_sint_spec 64 (off + o)); [done|]. by rewrite Hchk.
Qed.
