(* ===== verification/A64Dwarf.v ===== *)
(** DWARF unwinding on aarch64 ([src/aarch64/dwarf.rs]). *)

From S2P Require Import Prelude AddSigned Error Arch Dwarf A64UnwindRegs A64UnwindRule.
From S2P Require Import GimliExample.
Local Open Scope Z_scope.

Section Dwarf.
Context `{Profile, Gimli, ExprFuel}.

(** [DwarfUnwindRegs::get]. *)
Definition dwarf_get (self : UnwindRegsAarch64) (register : Z) : option Z :=
  if register =? AArch64_SP then Some (sp self)
  else if register =? AArch64_X29 then Some (fp self)
  else if register =? AArch64_X30 then Some (lr self)
  else None.

Definition register_rule_to_cfa_offset (rule : RegisterRule UnwindExpression) :
    result (option Z) ConversionError :=
  match rule with
  | Undefined | SameValue => Ok None
  | Offset offset => Ok (Some offset)
  | _ => Err RegisterNotStoredRelativeToCfa
  end.

(** [i16::try_from((offset + cfa_offset) / 8).map_err(|_| err)]. *)
Definition storage_offset (offset cfa_offset : Z) (err : ConversionError) :
    may (result Z ConversionError) :=
  sum ← sarith 64 (offset + cfa_offset);
  Val (ok_or (checked_sint 16 (Z.quot sum 8)) err).

Definition translate_into_unwind_rule (cfa_rule : CfaRule UnwindExpression)
    (fp_rule lr_rule : RegisterRule UnwindExpression) :
    may (result UnwindRuleAarch64 ConversionError) :=
  match cfa_rule with
  | RegisterAndOffset register offset =>
      if register =? AArch64_SP then
        match checked_uint 16 (Z.quot offset 16) with
        | None => Val (Err SpOffsetDoesNotFit)
        | Some sp_offset_by_16 =>
            match register_rule_to_cfa_offset lr_rule with
            | Err e => Val (Err e)
            | Ok lr_cfa_offset =>
                match register_rule_to_cfa_offset fp_rule with
                | Err e => Val (Err e)
                | Ok fp_cfa_offset =>
                    match lr_cfa_offset, fp_cfa_offset with
                    | None, Some _ => Val (Err RestoringFpButNotLr)
                    | None, None =>
                        match lr_rule with
                        | Undefined =>
                            Val (Ok (OffsetSpIfFirstFrameOtherwiseStackEndsHere
                                       sp_offset_by_16))
                        | _ => Val (Ok (OffsetSp sp_offset_by_16))
                        end
                    | Some lr_cfa_offset, None =>
                        l ← storage_offset offset lr_cfa_offset LrStorageOffsetDoesNotFit;
                        match l with
                        | Err e => Val (Err e)
                        | Ok l => Val (Ok (OffsetSpAndRestoreLr sp_offset_by_16 l))
                        end
                    | Some lr_cfa_offset, Some fp_cfa_offset =>
                        l ← storage_offset offset lr_cfa_offset LrStorageOffsetDoesNotFit;
                        match l with
                        | Err e => Val (Err e)
                        | Ok l =>
                            f ← storage_offset offset fp_cfa_offset FpStorageOffsetDoesNotFit;
                            match f with
                            | Err e => Val (Err e)
                            | Ok f =>
                                Val (Ok (OffsetSpAndRestoreFpAndLr sp_offset_by_16 f l))
                            end
                        end
                    end
                end
            end
        end
      else if register =? AArch64_X29 then
        match register_rule_to_cfa_offset lr_rule with
        | Err e => Val (Err e)
        | Ok None => Val (Err FramePointerRuleDoesNotRestoreLr)
        | Ok (Some lr_cfa_offset) =>
            match register_rule_to_cfa_offset fp_rule with
            | Err e => Val (Err e)
            | Ok None => Val (Err FramePointerRuleDoesNotRestoreFp)
            | Ok (Some fp_cfa_offset) =>
                if (offset =? 16) && (fp_cfa_offset =? -16) && (lr_cfa_offset =? -8)
                then Val (Ok UseFramePointer)
                else
                  match checked_uint 16 (Z.quot offset 8) with
                  | None => Val (Err SpOffsetFromFpDoesNotFit)
                  | Some sp_offset_from_fp_by_8 =>
                      l ← storage_offset offset lr_cfa_offset LrStorageOffsetDoesNotFit;
                      match l with
                      | Err e => Val (Err e)
                      | Ok l =>
                          f ← storage_offset offset fp_cfa_offset FpStorageOffsetDoesNotFit;
                          match f with
                          | Err e => Val (Err e)
                          | Ok f =>
                              Val (Ok (UseFramepointerWithOffsets
                                         sp_offset_from_fp_by_8 f l))
                          end
                      end
                  end
            end
        end
      else Val (Err CfaIsOffsetFromUnknownRegister)
  | CfaExpression _ => Val (Err CfaIsExpression)
  end.

Context {St : Type} `{StackReader St}.
Abbreviation X := (M (UnwindRegsAarch64 * St) (DwarfUnwinderError gimli_error)).

(** The generic path of [unwind_frame], for rows without a cacheable rule. *)
Definition unwind_frame_slow (section : UnwindSection) (cfa_rule : CfaRule UnwindExpression)
    (fp_rule lr_rule : RegisterRule UnwindExpression) (encoding : Encoding)
    (is_first_frame : bool) : X (UnwindResult UnwindRuleAarch64) :=
  regs ← get_regs;
  cfa ← lift (eval_cfa_rule dwarf_get section cfa_rule encoding regs);
  cfa ← try_ (ok_or cfa CouldNotRecoverCfa);
  let lr := lr regs in
  let fp := fp regs in
  let sp := sp regs in
  fp_lr ←
    (if negb is_first_frame then
       if cfa <=? sp then throw DwarfStackPointerMovedBackwards
       else
         fp ← eval_register_rule dwarf_get section fp_rule cfa encoding fp regs;
         fp ← try_ (ok_or fp CouldNotRecoverFramePointer);
         lr ← eval_register_rule dwarf_get section lr_rule cfa encoding lr regs;
         lr ← try_ (ok_or lr CouldNotRecoverReturnAddress);
         mret (fp, lr)
     else
       new_fp ← eval_register_rule dwarf_get section fp_rule cfa encoding fp regs;
       new_lr ← eval_register_rule dwarf_get section lr_rule cfa encoding lr regs;
       mret (default fp new_fp, default lr new_lr));
  let '(fp, lr) := fp_lr in
  put_regs (set_lr (set_sp (set_fp regs fp) cfa) lr) ;;
  mret (Uncacheable lr).

Definition unwind_frame (section : UnwindSection) (unwind_info : UnwindTableRow)
    (encoding : Encoding) (is_first_frame : bool) : X (UnwindResult UnwindRuleAarch64) :=
  let cfa_rule := row_cfa unwind_info in
  let fp_rule := row_register unwind_info AArch64_X29 in
  let lr_rule := row_register unwind_info AArch64_X30 in
  translated ← lift (translate_into_unwind_rule cfa_rule fp_rule lr_rule);
  match translated with
  | Ok unwind_rule => mret (ExecRule unwind_rule)
  | Err _ => unwind_frame_slow section cfa_rule fp_rule lr_rule encoding is_first_frame
  end.
End Dwarf.

#[export] Instance DwarfAarch64 `{Gimli} : @DwarfUnwinding _ ArchAarch64 := {|
  dwarf_unwind_frame _ _ _ _ := unwind_frame;
  rule_if_uncovered_by_fde := NoOpIfFirstFrameOtherwiseFp : @UnwindRule ArchAarch64;
|}.

(** * Translated rules *)

Section Translate.
Context `{Profile, Gimli, ExprFuel}.
Implicit Types (r : UnwindRegsAarch64).

Lemma registers_distinct_aarch64 :
  AArch64_X29 ≠ AArch64_SP ∧ AArch64_X30 ≠ AArch64_SP ∧ AArch64_X30 ≠ AArch64_X29.
Proof.
  pose proof AArch64_distinct as Hd.
  apply NoDup_cons in Hd as [Hsp [Hfp _]%NoDup_cons].
  rewrite !not_elem_of_cons in Hsp. rewrite not_elem_of_cons in Hfp.
  destruct Hsp as (? & ? & _), Hfp as (? & _). by split_and!.
Qed.

Lemma dwarf_get_sp r : dwarf_get r AArch64_SP = Some (sp r).
Proof. unfold dwarf_get. by rewrite Z.eqb_refl. Qed.
Lemma dwarf_get_x29 r : dwarf_get r AArch64_X29 = Some (fp r).
Proof.
  destruct registers_distinct_aarch64 as (? & _ & _). unfold dwarf_get.
  destruct (Z.eqb_spec AArch64_X29 AArch64_SP); [done|]. by rewrite Z.eqb_refl.
Qed.
Lemma dwarf_get_u64_aarch64 r reg v : wf_regs r → dwarf_get r reg = Some v → is_u64 v.
Proof.
  intros (_ & Hl & Hs & Hf). unfold dwarf_get. repeat case_match; by intros [= <-].
Qed.

(** A slot at CFA offset [o] of a row whose CFA is at [off] from a register. *)
Definition slot (off o y : Z) : Prop :=
  is_i64 (off + o) ∧ is_i16 y ∧ y = Z.quot (off + o) 8.

Lemma storage_offset_slot off o err y :
  -16 < off < 2 ^ 20 → is_i64 o → storage_offset off o err = Val (Ok y) → slot off o y.
Proof.
  intros Hoff Ho. unfold storage_offset, sarith, slot.
  destruct (in_sint_spec 64 (off + o)) as [Hi|Hi]; simpl.
  - destruct (checked_sint 16 _) as [v|] eqn:Hv; simpl; [|done]. intros [= <-].
    by apply checked_sint_Some in Hv as [-> Hv].
  - destruct overflow_checks; [done|]. simpl.
    destruct (checked_sint 16 _) as [v|] eqn:Hv; simpl; [|done].
    apply checked_sint_Some in Hv as [-> Hv]. by apply wrapped_slot_too_big in Hv.
Qed.

Definition keeps (rule : RegisterRule UnwindExpression) : Prop :=
  rule = Undefined ∨ rule = SameValue.

(** What each translated rule says of its row [(cfa, fp, lr)]. *)
Inductive translated : CfaRule UnwindExpression → RegisterRule UnwindExpression →
    RegisterRule UnwindExpression → UnwindRuleAarch64 → Prop :=
| translated_end off f x :
    keeps f → x = Z.quot off 16 → is_u16 x →
    translated (RegisterAndOffset AArch64_SP off) f Undefined
      (OffsetSpIfFirstFrameOtherwiseStackEndsHere x)
| translated_offset_sp off f x :
    keeps f → x = Z.quot off 16 → is_u16 x →
    translated (RegisterAndOffset AArch64_SP off) f SameValue (OffsetSp x)
| translated_lr off f lo x y :
    keeps f → x = Z.quot off 16 → is_u16 x → slot off lo y →
    translated (RegisterAndOffset AArch64_SP off) f (Offset lo) (OffsetSpAndRestoreLr x y)
| translated_fp_lr off fo lo x y z :
    x = Z.quot off 16 → is_u16 x → slot off fo y → slot off lo z →
    translated (RegisterAndOffset AArch64_SP off) (Offset fo) (Offset lo)
      (OffsetSpAndRestoreFpAndLr x y z)
| translated_fp :
    translated (RegisterAndOffset AArch64_X29 16) (Offset (-16)) (Offset (-8))
      UseFramePointer
| translated_fp_offsets off fo lo x y z :
    x = Z.quot off 8 → is_u16 x → slot off fo y → slot off lo z →
    translated (RegisterAndOffset AArch64_X29 off) (Offset fo) (Offset lo)
      (UseFramepointerWithOffsets x y z).

Lemma quot_bound off k : 0 < k ≤ 16 → is_u16 (Z.quot off k) → - 16 < off < 2 ^ 20.
Proof.
  intros Hk Hq. pose proof (Z.quot_rem' off k). pose proof (Z.rem_bound_abs off k ltac:(lia)).
  unfold is_uint in *. nia.
Qed.

Lemma translate_translated_aarch64 c f l rule :
  wf_register_rule f → wf_register_rule l →
  translate_into_unwind_rule c f l = Val (Ok rule) → translated c f l rule.
Proof.
  intros Hf Hl. unfold translate_into_unwind_rule.
  destruct c as [reg off|e]; [|done].
  destruct (Z.eqb_spec reg AArch64_SP) as [->|].
  - destruct (checked_uint 16 (Z.quot off 16)) as [x|] eqn:Hx; [|done].
    apply checked_uint_Some in Hx as [-> Hx].
    pose proof (quot_bound off 16 ltac:(lia) Hx) as Hoff.
    destruct l as [| |lo| | | | | |], f as [| |fo| | | | | |]; simpl in *; try done;
      try (intros [= <-]; constructor; first [done|by left|by right]).
    all: destruct (storage_offset off lo _) as [[z|]|] eqn:Hz; simpl; try done;
      apply storage_offset_slot in Hz; [|done|done].
    1, 2: intros [= <-]; constructor; first [done|by left|by right].
    destruct (storage_offset off fo _) as [[y|]|] eqn:Hy; simpl; try done.
    apply storage_offset_slot in Hy; [|done|done]. intros [= <-]. by constructor.
  - destruct (Z.eqb_spec reg AArch64_X29) as [->|]; [|done].
    destruct l as [| |lo| | | | | |], f as [| |fo| | | | | |]; simpl in *; try done.
    destruct (Z.eqb_spec off 16), (Z.eqb_spec fo (-16)), (Z.eqb_spec lo (-8)); cbn [andb]; subst;
      try (intros [= <-]; by constructor).
    all: destruct (checked_uint 16 _) as [x|] eqn:Hx; [|done];
      apply checked_uint_Some in Hx as [-> Hx].
    all: match type of Hx with is_uint 16 (Z.quot ?off 8) =>
      pose proof (quot_bound off 8 ltac:(lia) Hx) as Hoff end.
    all: destruct (storage_offset _ _ LrStorageOffsetDoesNotFit) as [[z|]|] eqn:Hz;
      cbn [mbind may_bind];
      try done; apply storage_offset_slot in Hz; [|done|done].
    all: destruct (storage_offset _ _ FpStorageOffsetDoesNotFit) as [[y|]|] eqn:Hy;
      cbn [mbind may_bind]; try done;
      apply storage_offset_slot in Hy; [|done|done].
    all: intros [= <-]; by constructor.
Qed.

Lemma translated_wf_aarch64 c f l rule : translated c f l rule → wf_rule rule.
Proof.
  destruct 1; simpl; repeat match goal with Hs : slot _ _ _ |- _ => destruct Hs as (_ & ? & _) end;
    by split_and?.
Qed.
End Translate.

(** * Every outcome *)

Section Outcomes.
Context `{Profile, Gimli, ExprFuel} {St : Type} `{StackReader St}.
Implicit Types (r : UnwindRegsAarch64) (st : St).

(** Expressions finish within the fuel. *)
Definition expressions_terminate : Prop :=
  ∀ expr enc r k, eval_expr dwarf_get expr enc r ≠ Fault k.

Definition dwarf_post (first : bool) r
    (res : result (UnwindResult UnwindRuleAarch64) (DwarfUnwinderError gimli_error))
    (s : UnwindRegsAarch64 * St) : Prop :=
  wf_regs s.1 ∧ lr_mask s.1 = lr_mask r ∧
  match res with
  | Ok (ExecRule rule) => s.1 = r ∧ wf_rule rule
  | Ok (Uncacheable ra) =>
      is_u64 ra ∧ lr s.1 = strip_ptr_auth (lr_mask r) ra ∧
      (first = false → sp r < sp s.1)
  | Err _ => s.1 = r
  end.

Lemma wp_unwind_frame_slow_aarch64 (pan : Prop) section c f l enc first r st :
  wf_regs r → (∀ expr k, eval_expr dwarf_get expr enc r = Fault k → pan) →
  wp pan (unwind_frame_slow section c f l enc first) (dwarf_post first r) (r, st).
Proof.
  intros Hr Hexpr.
  assert (Hget : ∀ reg v, dwarf_get r reg = Some v → is_u64 v).
  { intros reg v. by apply dwarf_get_u64_aarch64. }
  assert (Herr : ∀ e st', dwarf_post first r (Err e) (r, st')) by done.
  assert (Hreg : ∀ A rule cfa val st' (k : option Z → M (UnwindRegsAarch64 * St) (DwarfUnwinderError gimli_error) A) Q,
    is_u64 val → (∀ o st'', (∀ v, o = Some v → is_u64 v) → wp pan (k o) Q (r, st'')) →
    wp pan (eval_register_rule dwarf_get section rule cfa enc val r ≫= k) Q (r, st')).
  { intros A rule cfa val st' k Q Hval Hk. apply wp_bind. eapply wp_mono;
      [|apply (wp_eval_register_rule dwarf_get pan); [done|exact Hget|intros e; apply Hexpr]].
    intros res [r1 st1] (Heq & o & -> & Ho). simpl in Heq. subst r1. by apply Hk. }
  unfold unwind_frame_slow. apply wp_bind, wp_get_regs. cbn [fst].
  apply wp_bind, wp_lift.
  2:{ intros k. unfold eval_cfa_rule. destruct c; [done|].
      destruct (expression_get _ _); [|done]. apply Hexpr. }
  intros cfa Hcfa. apply wp_bind, wp_try. destruct cfa as [cfa|]; simpl; [|done].
  apply eval_cfa_rule_u64 in Hcfa.
  destruct Hr as (Hm & Hl & Hs & Hf).
  assert (Hend : ∀ f' l' st', is_u64 f' → is_u64 l' → (first = false → sp r < cfa) →
    wp pan (put_regs (set_lr (set_sp (set_fp r f') cfa) l') ;; mret (Uncacheable l'))
      (dwarf_post first r) (r, st')).
  { intros f' l' st' Hf' Hl' Hsp. apply wp_bind, wp_put_regs, wp_ret. cbn [fst snd].
    unfold dwarf_post; cbn [fst]. split_and!; try done.
    apply wf_set_lr, Hl'. by apply wf_set_sp, Hcfa; apply wf_set_fp, Hf'. }
  apply wp_bind. destruct first; cbn [negb].
  - apply Hreg; [done|]. intros nf st1 Hnf. apply Hreg; [done|]. intros nl st2 Hnl.
    apply wp_ret. apply Hend; [destruct nf|destruct nl|]; simpl; (done || auto).
  - destruct (Z.leb_spec cfa (sp r)); [by apply wp_throw|].
    apply Hreg; [done|]. intros nf st1 Hnf. apply wp_bind, wp_try.
    destruct nf; simpl; [|done]. apply Hreg; [done|]. intros nl st2 Hnl.
    apply wp_bind, wp_try. destruct nl; simpl; [|done].
    apply wp_ret. apply Hend; auto.
Qed.

Lemma wp_dwarf_unwind_frame_aarch64 (pan : Prop) section row enc first r st :
  wf_regs r → (∀ expr k, eval_expr dwarf_get expr enc r = Fault k → pan) →
  (overflow_checks = true → pan) →
  wp pan (unwind_frame section row enc first) (dwarf_post first r) (r, st).
Proof.
  intros Hr Hexpr Hover. unfold unwind_frame. apply wp_bind, wp_lift.
  - intros [rule|e] Ht.
    + apply wp_ret. unfold dwarf_post. split_and!; try done.
      by eapply translated_wf_aarch64, translate_translated_aarch64; [| |exact Ht];
        apply row_register_wf.
    + by apply wp_unwind_frame_slow_aarch64.
  - intros k Hk. apply Hover. revert Hk.
    unfold translate_into_unwind_rule, storage_offset, sarith.
    repeat case_match; simpl; repeat case_match; done.
Qed.
End Outcomes.

(** C29.  Unwinding an aarch64 frame with a DWARF row always returns in a release build
    when its expressions terminate.  It either leaves the registers alone and names a
    well-formed cacheable rule or an error, or it recovers the caller: the link register
    is the return address with the authentication bits stripped, all registers are
    machine words, and outside the first frame the stack pointer moves strictly up. *)
Theorem a64_dwarf_outcomes `{Profile, Gimli, ExprFuel} {St} `{StackReader St}
    section row enc (first : bool) (r : UnwindRegsAarch64) (st : St) :
  wf_regs r → overflow_checks = false → expressions_terminate →
  ∃ res s, unwind_frame section row enc first (r, st) = Val (res, s) ∧
    dwarf_post first r res s.
Proof.
  intros Hr Hrel Hexpr. apply wp_no_panic, wp_dwarf_unwind_frame_aarch64; [done| |].
  - intros expr k Hk. by apply Hexpr in Hk.
  - rewrite Hrel. done.
Qed.

Lemma toy_expressions_terminate_aarch64 : @expressions_terminate toy_gimli toy_fuel.
Proof. intros e enc r k. unfold eval_expr, dwarf_get. simpl. done. Qed.

Lemma a64_dwarf_outcomes_witness :
  ∃ res s, @unwind_frame release_profile toy_gimli toy_fuel _ words_reader
             [] [0; 0; 29; 32; 2; -16] () true (new 0x100300 0x18 0x20, example_stack) =
           Val (res, s) ∧
    @dwarf_post toy_gimli _ true (new 0x100300 0x18 0x20) res s.
Proof.
  apply (@a64_dwarf_outcomes release_profile toy_gimli toy_fuel).
  - apply wf_new_aarch64; range.
  - done.
  - apply toy_expressions_terminate_aarch64.
Defined.

(** The generic path reports the return address as it was read: with a pointer
    authentication mask the address it returns can differ from the link register it
    leaves, and from the address a cacheable rule reports for the same frame. *)
Lemma a64_dwarf_return_address_unstripped :
  let mask := mk_mask (2 ^ 40 - 1) in
  let r := new_with_ptr_auth_mask mask 0x100300 0x10 0x20 in
  let signed := 0x12340000100200 + 2 ^ 60 in
  let stack := [0; 0; 0; 0; 0x40; signed; 0; 0] in
  ∃ r', @unwind_frame_slow toy_gimli toy_fuel _ words_reader
          [] (RegisterAndOffset 29 16) (Offset (-16)) (Offset (-8)) () false (r, stack) =
        Val (Ok (Uncacheable signed), (r', stack)) ∧
    lr r' = 0x100200 ∧
    @exec debug_profile _ words_reader UseFramePointer false (r, stack) =
      Val (Ok (Some 0x100200), (r', stack)).
Proof. eexists. split_and!; vm_compute; reflexivity. Qed.

(** * The cacheable rules against the generic path *)

Section Agreement.
Context `{Profile, Gimli, ExprFuel} {St : Type} `{PureReader St}.
Implicit Types (r : UnwindRegsAarch64) (st : St).

Lemma run_ok_simple_rule_aarch64 {E} section rule cfa enc val r0 r st :
  simple_rule rule →
  run_ok (eval_register_rule (E := E) dwarf_get section rule cfa enc val r0) (r, st) =
    Some (recovered (memory st) rule cfa val, (r, st)).
Proof. intros Hrule. apply run_ok_Some. by apply eval_simple_rule. Qed.

(** The generic path on a row with simple rules, as a function of the memory. *)
Lemma slow_simple_aarch64 section reg off f l enc first r st base ra r' st' :
  dwarf_get r reg = Some base → simple_rule f → simple_rule l →
  unwind_frame_slow section (RegisterAndOffset reg off) f l enc first (r, st) =
    Val (Ok (Uncacheable ra), (r', st')) →
  let cfa := base + off in
  let rec_fp := recovered (memory st) f cfa (fp r) in
  let rec_lr := recovered (memory st) l cfa (lr r) in
  ∃ nfp, st' = st ∧ 0 ≤ cfa < 2 ^ 63 ∧
    r' = set_lr (set_sp (set_fp r nfp) cfa) ra ∧
    if first then nfp = default (fp r) rec_fp ∧ ra = default (lr r) rec_lr
    else sp r < cfa ∧ rec_fp = Some nfp ∧ rec_lr = Some ra.
Proof.
  intros Hbase Hf Hl Hrun%run_ok_Some. revert Hrun. unfold unwind_frame_slow.
  rewrite run_ok_bind, run_ok_get_regs. cbn [mbind option_bind fst snd].
  rewrite run_ok_bind, run_ok_lift. cbn [eval_cfa_rule].
  rewrite Hbase. cbn [mbind option_bind fst snd].
  rewrite run_ok_bind, run_ok_try.
  destruct (i64_plus_offset base off) as [cfa|] eqn:Hcfa; [|done].
  apply i64_plus_offset_Some in Hcfa as (_ & -> & Hcfa).
  cbn [fmap option_fmap option_map mbind option_bind fst snd]. intros Hrun.
  rewrite run_ok_bind in Hrun. apply bind_Some in Hrun as ([[nfp nlr] s] & Hpair & Hrest).
  simpl in Hrest. rewrite run_ok_bind in Hrest.
  assert (Hp : s = (r, st) ∧
    if first then nfp = default (fp r) (recovered (memory st) f (base + off) (fp r)) ∧
                  nlr = default (lr r) (recovered (memory st) l (base + off) (lr r))
    else sp r < base + off ∧ recovered (memory st) f (base + off) (fp r) = Some nfp ∧
         recovered (memory st) l (base + off) (lr r) = Some nlr).
  { destruct first; simpl in Hpair.
    - rewrite run_ok_bind, run_ok_simple_rule_aarch64 in Hpair by done. simpl in Hpair.
      rewrite run_ok_bind, run_ok_simple_rule_aarch64 in Hpair by done. simpl in Hpair.
      by injection Hpair as <- <- <-.
    - destruct (Z.leb_spec (base + off) (sp r)); [done|].
      rewrite run_ok_bind, run_ok_simple_rule_aarch64 in Hpair by done. simpl in Hpair.
      rewrite run_ok_bind, run_ok_try in Hpair.
      destruct (recovered _ f _ _); simpl in Hpair; [|done].
      rewrite run_ok_bind, run_ok_simple_rule_aarch64 in Hpair by done. simpl in Hpair.
      rewrite run_ok_bind, run_ok_try in Hpair.
      destruct (recovered _ l _ _); simpl in Hpair; [|done].
      injection Hpair as <- <- <-. by split_and!. }
  destruct Hp as [-> Hp]. rewrite run_ok_put_regs in Hrest. simpl in Hrest.
  injection Hrest as <- <- <-. exists nfp. split_and!; done || lia.
Qed.

Definition aligned_row (c : CfaRule UnwindExpression)
    (f l : RegisterRule UnwindExpression) : Prop :=
  (if c is RegisterAndOffset reg off
   then (if reg =? AArch64_SP then (16 | off) else (8 | off)) else True) ∧
  (if f is Offset o then (8 | o) else True) ∧ (if l is Offset o then (8 | o) else True).

Lemma quot_mul z k : 0 < k → (k | z) → Z.quot z k * k = z.
Proof. intros Hk [m ->]. rewrite Z.quot_mul; lia. Qed.

(** The slot a rule names is the slot of the row. *)
Lemma recovered_slot mem base off o y val v :
  slot off o y → (8 | off) → (8 | o) →
  recovered mem (Offset o) (base + off) val = Some v → mem (base + y * 8) = Some v.
Proof.
  intros (_ & _ & ->) Hoff Ho Hv. simpl in Hv.
  apply bind_Some in Hv as (a & Ha & Hv). apply i64_plus_offset_Some in Ha as (_ & -> & _).
  rewrite quot_mul by (lia || by apply Z.divide_add_r).
  by replace (base + (off + o)) with (base + off + o) by lia.
Qed.

(** The rule needs a frame above the callee's where it follows the frame pointer, and is
    only for the first frame where it restores nothing. *)
Definition rule_applies (rule : UnwindRuleAarch64) (first : bool) (r r' : UnwindRegsAarch64) :
    Prop :=
  match rule with
  | OffsetSp _ | OffsetSpIfFirstFrameOtherwiseStackEndsHere _ => first = true
  | UseFramePointer | UseFramepointerWithOffsets _ _ _ =>
      fp r < fp r' ∧ sp r < sp r'
  | _ => True
  end.

Definition slots_readable (f l : RegisterRule UnwindExpression) r st cfa : Prop :=
  (if f is Offset _ then is_Some (recovered (memory st) f cfa (fp r)) else True) ∧
  (if l is Offset _ then is_Some (recovered (memory st) l cfa (lr r)) else True).

(** The registers the generic path recovers, when all slots can be read. *)
Lemma slow_values section reg off f l enc first r st base ra r' st' :
  dwarf_get r reg = Some base → simple_rule f → simple_rule l →
  unwind_frame_slow section (RegisterAndOffset reg off) f l enc first (r, st) =
    Val (Ok (Uncacheable ra), (r', st')) →
  slots_readable f l r st (sp r') →
  ∃ nfp, st' = st ∧ sp r' = base + off ∧ base + off < 2 ^ 63 ∧
    r' = set_fp (set_sp (set_lr r ra) (base + off)) nfp ∧ (first = false → sp r < base + off) ∧
    (if f is Offset _ then recovered (memory st) f (base + off) (fp r) = Some nfp
     else nfp = fp r) ∧
    (if l is Offset _ then recovered (memory st) l (base + off) (lr r) = Some ra
     else ra = lr r).
Proof.
  intros Hbase Hf Hl Hrun Hread.
  destruct (slow_simple_aarch64 _ _ _ _ _ _ _ _ _ _ _ _ _ Hbase Hf Hl Hrun)
    as (nfp & -> & Hcfa & -> & Hvals).
  simpl in Hread. exists nfp. split_and!; try done; try lia.
  - intros ->. by destruct Hvals.
  - destruct first, f; simpl in *; try done; destruct_and?; simplify_eq; try done.
    destruct Hread as [[v Hv] _]. simpl in Hv. by rewrite Hv.
  - destruct first, l; simpl in *; try done; destruct_and?; simplify_eq; try done.
    destruct Hread as [_ [v Hv]]. simpl in Hv. by rewrite Hv.
Qed.

Lemma keeps_simple f : keeps f → simple_rule f.
Proof. by intros [-> | ->]. Qed.
Lemma keeps_value f (P : Prop) nfp r :
  keeps f → (if f is Offset _ then P else nfp = fp r) → nfp = fp r.
Proof. by intros [-> | ->]. Qed.

(** One run of a rule, from the frame it denotes. *)
Lemma exec_agrees rule first r st l s f :
  wf_regs r → wf_rule rule → strip_ptr_auth (lr_mask r) l ≠ 0 →
  (first = false → sp r < s) → s < 2 ^ 63 →
  denote (memory st) rule first r = Some (l, s, f) →
  exec rule first (r, st) =
    Val (Ok (Some (strip_ptr_auth (lr_mask r) l)), (set_fp (set_sp (set_lr r l) s) f, st)).
Proof.
  intros Hr Hrule Hnz Hsp Hs Hd. apply exec_of_denote_aarch64; try done; try lia.
  intros Hf. specialize (Hsp Hf). lia.
Qed.

Lemma frame_above r f s :
  wf_regs r → fp r < f ∧ sp r < s → (f =? 0) || (f <=? fp r) || (s <=? sp r) = false.
Proof.
  intros (_ & _ & _ & Hf) [? ?].
  destruct (Z.eqb_spec f 0), (Z.leb_spec f (fp r)), (Z.leb_spec s (sp r)); range || done.
Qed.

(** The generic path in terms of the memory, for a CFA relative to [base]. *)
Ltac recovered_values Hslow b Hbase :=
  apply slow_values with (base := b) in Hslow
    as (nfp & -> & Hcfa & Hlt & -> & Hsp & Hfv & Hlv);
  [|apply Hbase|done || by apply keeps_simple|done|done].

Lemma translated_agrees_aarch64 section c f l enc first rule r st ra r' st' :
  wf_regs r → aligned_row c f l → translated c f l rule →
  rule_applies rule first r r' →
  unwind_frame_slow section c f l enc first (r, st) =
    Val (Ok (Uncacheable ra), (r', st')) →
  slots_readable f l r st (sp r') → strip_ptr_auth (lr_mask r) ra ≠ 0 →
  exec rule first (r, st) = Val (Ok (Some (strip_ptr_auth (lr_mask r) ra)), (r', st')).
Proof.
  intros Hr (Hc & Hf & Hl) Ht Happ Hslow Hread Hnz.
  pose proof (translated_wf_aarch64 _ _ _ _ Ht) as Hrule.
  destruct registers_distinct_aarch64 as (Hne & _ & _).
  assert (H16 : ∀ off, (16 | off) → (8 | off)) by (intros off [k ->]; exists (k * 2); lia).
  destruct Ht as [off f x Hk -> Hx|off f x Hk -> Hx|off f lo x y Hk -> Hx Hy
    |off fo lo x y z -> Hx Hy Hz| |off fo lo x y z -> Hx Hy Hz]; simpl in Hc, Happ;
    rewrite ?Z.eqb_refl in Hc; rewrite ?(proj2 (Z.eqb_neq _ _) Hne) in Hc.
  - recovered_values Hslow (sp r) dwarf_get_sp. subst ra.
    apply keeps_value in Hfv as ->; [|done]. apply exec_agrees; try done. simpl.
    by rewrite Happ, quot_mul by (done || lia).
  - recovered_values Hslow (sp r) dwarf_get_sp. subst ra.
    apply keeps_value in Hfv as ->; [|done]. apply exec_agrees; try done. simpl.
    by rewrite Happ, quot_mul by (done || lia).
  - recovered_values Hslow (sp r) dwarf_get_sp.
    apply keeps_value in Hfv as ->; [|done]. apply exec_agrees; try done. simpl.
    rewrite (recovered_slot _ _ off lo y _ ra) by eauto. simpl.
    by rewrite quot_mul by (done || lia).
  - recovered_values Hslow (sp r) dwarf_get_sp.
    apply exec_agrees; try done. simpl.
    rewrite (recovered_slot _ _ off lo z _ ra), (recovered_slot _ _ off fo y _ nfp) by eauto.
    simpl. by rewrite quot_mul by (done || lia).
  - recovered_values Hslow (fp r) dwarf_get_x29.
    apply exec_agrees; try done. simpl in *.
    apply bind_Some in Hfv as (a & Ha & Hfv). apply i64_plus_offset_Some in Ha as (_ & -> & _).
    apply bind_Some in Hlv as (b & Hb & Hlv). apply i64_plus_offset_Some in Hb as (_ & -> & _).
    replace (fp r + 16 + -8) with (fp r + 8) in Hlv by lia.
    replace (fp r + 16 + -16) with (fp r) in Hfv by lia. rewrite Hlv, Hfv. simpl.
    by rewrite frame_above.
  - recovered_values Hslow (fp r) dwarf_get_x29.
    apply exec_agrees; try done. simpl in Happ. simpl.
    rewrite (recovered_slot _ _ off lo z _ ra), (recovered_slot _ _ off fo y _ nfp) by eauto.
    simpl. rewrite quot_mul by (done || lia).
    by rewrite frame_above.
Qed.
End Agreement.

(** C17.  The cacheable rule is an optimisation of the generic DWARF path: for a row whose
    offsets are multiples of the slot sizes, when the row translates to a rule that
    applies to the frame and the generic path recovers a caller from readable slots, with
    a return address that is not null once stripped, executing the rule leaves the same
    registers and returns the same address, with the authentication bits stripped. *)
Theorem a64_translation_agrees `{Profile, Gimli, ExprFuel} {St} `{PureReader St}
    section c f l enc (first : bool) rule (r r' : UnwindRegsAarch64) (st st' : St) ra :
  wf_regs r → wf_register_rule f → wf_register_rule l → aligned_row c f l →
  translate_into_unwind_rule c f l = Val (Ok rule) → rule_applies rule first r r' →
  unwind_frame_slow section c f l enc first (r, st) =
    Val (Ok (Uncacheable ra), (r', st')) →
  slots_readable f l r st (sp r') → strip_ptr_auth (lr_mask r) ra ≠ 0 →
  exec rule first (r, st) = Val (Ok (Some (strip_ptr_auth (lr_mask r) ra)), (r', st')).
Proof.
  intros Hr Hf Hl Hal Ht. apply translated_agrees_aarch64; [done|done|].
  by apply translate_translated_aarch64.
Qed.

Lemma a64_translation_agrees_witness :
  @exec debug_profile _ words_reader (OffsetSpAndRestoreFpAndLr 2 2 3) false
    (new 0x100300 0x10 0x20, example_stack) =
  Val (Ok (Some (strip_ptr_auth new_no_strip 0x100200)),
       (mk_regs new_no_strip 0x100200 0x30 0x40, example_stack)).
Proof.
  apply (@a64_translation_agrees debug_profile toy_gimli toy_fuel _ words_reader words_pure
    [] (RegisterAndOffset 31 32) (Offset (-16)) (Offset (-8)) () false
    (OffsetSpAndRestoreFpAndLr 2 2 3)).
  - apply wf_new_aarch64; range.
  - by vm_compute.
  - by vm_compute.
  - split; [by exists 2|split; [by exists (-2)|by exists (-1)]].
  - reflexivity.
  - done.
  - vm_compute. reflexivity.
  - split; vm_compute; by eexists.
  - done.
Defined.
