(* ===== verification/InstructionAnalysis.v ===== *)
(** The trait an architecture implements to recognise prologues and epilogues
    ([src/instruction_analysis.rs]). *)

From S2P Require Import Prelude Error Arch.
Local Open Scope Z_scope.

Class InstructionAnalysis `{Arch} : Type := {
  rule_from_prologue_analysis `{Profile} : list Z → Z → may (option UnwindRule);
  rule_from_epilogue_analysis `{Profile} : list Z → Z → may (option UnwindRule);
}.

Definition rule_from_instruction_analysis `{Profile, InstructionAnalysis}
    (text_bytes : list Z) (pc_offset : Z) : may (option UnwindRule) :=
  rule ← rule_from_prologue_analysis text_bytes pc_offset;
  match rule with
  | Some rule => Val (Some rule)
  | None => rule_from_epilogue_analysis text_bytes pc_offset
  end.
