(* ===== verification/X86InstructionAnalysis.v ===== *)
(** Recognising x86_64 prologues and epilogues
    ([src/x86_64/instruction_analysis/{mod,prologue,epilogue}.rs]). *)

From S2P Require Import Prelude Error Arch InstructionAnalysis X86UnwindRegs X86UnwindRule.
From stdpp Require Import list.
Local Open Scope Z_scope.

(** * Epilogues *)

Section Epilogue.
Context `{Profile}.

(** The [loop] over the bytes after the program counter, with the loop's two
    accumulators; [Some] is the [break], [None] the [return None]. *)
Fixpoint epilogue_loop (slice_from_start bytes : list Z) (sp_offset_by_8 : Z)
    (bp_offset_by_8 : option Z) : may (option (Z * option Z)) :=
  match bytes with
  | [] => Val None
  | b0 :: bytes1 =>
      if b0 =? 0xc3 then Val (Some (sp_offset_by_8, bp_offset_by_8))
      else if (b0 =? 0xeb) || (b0 =? 0xe9) || (b0 =? 0xff) then
        if negb (sp_offset_by_8 =? 0) then Val (Some (sp_offset_by_8, bp_offset_by_8))
        else
          match last slice_from_start with
          | Some potential_pop_byte =>
              if Z.land potential_pop_byte 0xf8 =? 0x58
              then Val (Some (sp_offset_by_8, bp_offset_by_8)) else Val None
          | None => Val None
          end
      else if b0 =? 0x5d then
        n ← uarith 16 (sp_offset_by_8 + 1);
        epilogue_loop slice_from_start bytes1 n (Some (sext 16 sp_offset_by_8))
      else if (0x58 <=? b0) && (b0 <=? 0x5f) then
        n ← uarith 16 (sp_offset_by_8 + 1);
        epilogue_loop slice_from_start bytes1 n bp_offset_by_8
      else
        match bytes1 with
        | b1 :: bytes2 =>
            if (Z.land b0 0xfe =? 0x40) && (Z.land b1 0xf8 =? 0x58) then
              n ← uarith 16 (sp_offset_by_8 + 1);
              epilogue_loop slice_from_start bytes2 n bp_offset_by_8
            else Val None
        | [] => Val None
        end
  end.

Definition unwind_rule_from_detected_epilogue (text_bytes : list Z) (pc_offset : Z) :
    may (option UnwindRuleX86_64) :=
  '(slice_from_start, slice_to_end) ← split_at text_bytes pc_offset;
  found ← epilogue_loop slice_from_start slice_to_end 0 None;
  match found with
  | None => Val None
  | Some (sp_offset_by_8, bp_offset_by_8) =>
      if sp_offset_by_8 =? 0 then Val (Some JustReturn)
      else
        sp_offset_by_8 ← uarith 16 (sp_offset_by_8 + 1);
        match bp_offset_by_8 with
        | Some bp_storage_offset_from_sp_by_8 =>
            Val (Some (OffsetSpAndRestoreBp sp_offset_by_8 bp_storage_offset_from_sp_by_8))
        | None => Val (Some (OffsetSp sp_offset_by_8))
        end
  end.
End Epilogue.

(** * Prologues *)

Definition is_next_instruction_expected_in_prologue (bytes : list Z) : bool :=
  match bytes with
  | b0 :: b1 :: b2 :: _ :: _ =>
      (Z.land b0 0xf8 =? 0x50)
      || ((Z.land b0 0xfe =? 0x40) && (Z.land b1 0xf8 =? 0x50))
      || ((b0 =? 0x83) && (b1 =? 0xec))
      || ((b0 =? 0x48) && (b1 =? 0x83) && (b2 =? 0xec))
      || ((b0 =? 0x81) && (b1 =? 0xec))
      || ((b0 =? 0x48) && (b1 =? 0x81) && (b2 =? 0xec))
      || ((b0 =? 0x48) && (b1 =? 0x89) && (b2 =? 0xe5))
  | _ => false
  end.

(** [push rbp; mov rbp, rsp]. *)
Definition push_rbp_mov_rbp_rsp : list Z := [0x55; 0x48; 0x89; 0xe5].

Section Prologue.
Context `{Profile}.

(** The loop that walks backwards; [cursor] only goes down, so its start is fuel
    enough. *)
Fixpoint prologue_loop (fuel : nat) (slice_from_start : list Z) (cursor : Z)
    (sp_offset_by_8 : Z) : may (option UnwindRuleX86_64) :=
  let at_break :=
    sp_offset_by_8 ← uarith 16 (sp_offset_by_8 + 1);
    Val (Some (OffsetSp sp_offset_by_8)) in
  frame_setup ←
    (if 4 <=? cursor then
       bytes ← slice_range slice_from_start (cursor - 4) cursor;
       Val (bool_decide (bytes = push_rbp_mov_rbp_rsp))
     else Val false);
  if frame_setup : bool then Val (Some UseFramePointer)
  else if 1 <=? cursor then
    byte ← index slice_from_start (cursor - 1);
    if Z.land byte 0xf8 =? 0x50 then
      sp_offset_by_8 ← uarith 16 (sp_offset_by_8 + 1);
      let cursor := cursor - 1 in
      prefix ←
        (if 1 <=? cursor then
           byte ← index slice_from_start (cursor - 1);
           Val (Z.land byte 0xfe =? 0x40)
         else Val false);
      let cursor := if prefix : bool then cursor - 1 else cursor in
      match fuel with
      | O => Diverge
      | S fuel => prologue_loop fuel slice_from_start cursor sp_offset_by_8
      end
    else at_break
  else at_break.

Definition unwind_rule_from_detected_prologue (text_bytes : list Z) (pc_offset : Z) :
    may (option UnwindRuleX86_64) :=
  '(slice_from_start, slice_to_end) ← split_at text_bytes pc_offset;
  if negb (is_next_instruction_expected_in_prologue slice_to_end) then Val None
  else
    prologue_loop (length slice_from_start) slice_from_start
      (Z.of_nat (length slice_from_start)) 0.
End Prologue.

#[export] Instance InstructionAnalysisX86_64 : @InstructionAnalysis ArchX86_64 := {|
  rule_from_prologue_analysis _ := unwind_rule_from_detected_prologue :
    list Z → Z → may (option (@UnwindRule ArchX86_64));
  rule_from_epilogue_analysis _ := unwind_rule_from_detected_epilogue :
    list Z → Z → may (option (@UnwindRule ArchX86_64));
|}.

(** * The instructions

    The encodings of the instructions a compiler puts in prologues and epilogues. *)

(** The register number of an encoding; 8 and above need a prefix. *)
Definition reg_number (reg : Reg) : Z :=
  match reg with
  | RAX => 0 | RCX => 1 | RDX => 2 | RBX => 3 | RSP => 4 | RBP => 5 | RSI => 6 | RDI => 7
  | R8 => 8 | R9 => 9 | R10 => 10 | R11 => 11 | R12 => 12 | R13 => 13 | R14 => 14 | R15 => 15
  end.

Definition encode_reg_instr (base : Z) (reg : Reg) : list Z :=
  if reg_number reg <? 8 then [base + reg_number reg]
  else [0x41; base + (reg_number reg - 8)].
Definition encode_pop : Reg → list Z := encode_reg_instr 0x58.
Definition encode_push : Reg → list Z := encode_reg_instr 0x50.

(** How the callee leaves: [ret], or a tail call by one of three jumps. *)
Definition leaves (byte : Z) : Prop := byte = 0xc3 ∨ byte = 0xeb ∨ byte = 0xe9 ∨ byte = 0xff.

Definition reg_of_number (n : Z) : Reg :=
  nth (Z.to_nat n)
    [RAX; RCX; RDX; RBX; RSP; RBP; RSI; RDI; R8; R9; R10; R11; R12; R13; R14; R15] RAX.

Lemma reg_of_reg_number reg : reg_of_number (reg_number reg) = reg.
Proof. by destruct reg. Qed.

(** The reference decoder: the pops at the start of some bytes, and the rest.  A pop has
    an optional REX prefix [0x40] or [0x41]; whether it has one is kept beside the
    register, for [pop rbp], which needs none but may have a redundant [0x40]. *)
Fixpoint parse_pops (bytes : list Z) : list (Reg * bool) * list Z :=
  match bytes with
  | [] => ([], [])
  | b0 :: bytes1 =>
      if (0x58 <=? b0) && (b0 <=? 0x5f) then
        let '(pops, rest) := parse_pops bytes1 in
        ((reg_of_number (b0 - 0x58), false) :: pops, rest)
      else
        match bytes1 with
        | b1 :: bytes2 =>
            if ((b0 =? 0x40) || (b0 =? 0x41)) && (0x58 <=? b1) && (b1 <=? 0x5f) then
              let '(pops, rest) := parse_pops bytes2 in
              ((reg_of_number (b1 - 0x58 + 8 * (b0 - 0x40)), true) :: pops, rest)
            else ([], bytes)
        | [] => ([], bytes)
        end
  end.

(** The slot, from the first pop's, of the last [pop rbp] without a prefix. *)
Fixpoint bp_slot (pops : list (Reg * bool)) (n : Z) (slot : option Z) : option Z :=
  match pops with
  | [] => slot
  | pop :: pops =>
      bp_slot pops (n + 1) (if decide (pop = (RBP, false)) then Some n else slot)
  end.

(** Whether the bytes after the pops leave the function: a [ret], or a jump that follows
    a pop. *)
Definition leaves_after (slice_from_start : list Z) (pops : list (Reg * bool))
    (rest : list Z) : bool :=
  match rest with
  | [] => false
  | b :: _ =>
      (b =? 0xc3) ||
      (((b =? 0xeb) || (b =? 0xe9) || (b =? 0xff)) &&
       match pops with
       | [] => match last slice_from_start with
               | Some p => Z.land p 0xf8 =? 0x58
               | None => false
               end
       | _ => true
       end)
  end.

(** * Facts about bytes *)

(** A boolean property of a byte holds if it holds of all 256. *)
Lemma byte_cases (P : Z → bool) :
  forallb (λ n, P (Z.of_nat n)) (seq 0 256) = true → ∀ b, is_u8 b → P b = true.
Proof.
  intros Hall b Hb. rewrite forallb_forall in Hall.
  rewrite <- (Z2Nat.id b) by range. apply Hall, in_seq. range.
Qed.

Lemma rex_byte b : is_u8 b → (Z.land b 0xfe =? 0x40) = (b =? 0x40) || (b =? 0x41).
Proof.
  intros Hb. apply Bool.eqb_prop.
  exact (byte_cases (λ b, Bool.eqb (Z.land b 0xfe =? 0x40) ((b =? 0x40) || (b =? 0x41)))
           eq_refl b Hb).
Qed.
Lemma pop_byte b : is_u8 b → (Z.land b 0xf8 =? 0x58) = (0x58 <=? b) && (b <=? 0x5f).
Proof.
  intros Hb. apply Bool.eqb_prop.
  exact (byte_cases (λ b, Bool.eqb (Z.land b 0xf8 =? 0x58) ((0x58 <=? b) && (b <=? 0x5f)))
           eq_refl b Hb).
Qed.
Lemma push_byte b : is_u8 b → (Z.land b 0xf8 =? 0x50) = (0x50 <=? b) && (b <=? 0x57).
Proof.
  intros Hb. apply Bool.eqb_prop.
  exact (byte_cases (λ b, Bool.eqb (Z.land b 0xf8 =? 0x50) ((0x50 <=? b) && (b <=? 0x57)))
           eq_refl b Hb).
Qed.

(** * Epilogues against the decoder *)

Section EpilogueCorrect.
Context `{Profile}.

Definition pop_opcode (b : Z) : bool := (0x58 <=? b) && (b <=? 0x5f).

Lemma pop_opcode_cases b : pop_opcode b = true →
  b = 0x58 ∨ b = 0x59 ∨ b = 0x5a ∨ b = 0x5b ∨ b = 0x5c ∨ b = 0x5d ∨ b = 0x5e ∨ b = 0x5f.
Proof. unfold pop_opcode. lia. Qed.

Lemma parse_plain b : pop_opcode b = true →
  bool_decide ((reg_of_number (b - 0x58), false) = (RBP, false)) = (b =? 0x5d).
Proof. intros Hb%pop_opcode_cases. by destruct_or! Hb; subst. Qed.

(** What the loop concludes from the pops and the rest. *)
Definition loop_result (pre : list Z) (n : Z) (slot : option Z)
    (parsed : list (Reg * bool) * list Z) : option (Z * option Z) :=
  let m := n + Z.of_nat (length parsed.1) in
  let found := Some (m, bp_slot parsed.1 n slot) in
  match parsed.2 with
  | [] => None
  | b :: _ =>
      if b =? 0xc3 then found
      else if (b =? 0xeb) || (b =? 0xe9) || (b =? 0xff) then
        if negb (m =? 0) then found
        else match last pre with
             | Some p => if Z.land p 0xf8 =? 0x58 then found else None
             | None => None
             end
      else None
  end.

Lemma loop_result_cons pre n slot pop parsed :
  loop_result pre n slot (pop :: parsed.1, parsed.2) =
  loop_result pre (n + 1) (if decide (pop = (RBP, false)) then Some n else slot) parsed.
Proof.
  unfold loop_result. destruct parsed as [pops rest]; cbn [fst snd length bp_slot].
  by replace (n + Z.of_nat (S (length pops))) with (n + 1 + Z.of_nat (length pops)) by lia.
Qed.

(** The first instruction, as the decoder sees it. *)
Definition starts_prefixed (bytes : list Z) : bool :=
  match bytes with
  | b0 :: b1 :: _ =>
      ((b0 =? 0x40) || (b0 =? 0x41)) && pop_opcode b1
  | _ => false
  end.

Lemma parse_plain_step b bytes :
  pop_opcode b = true →
  parse_pops (b :: bytes) =
    ((reg_of_number (b - 0x58), false) :: (parse_pops bytes).1, (parse_pops bytes).2).
Proof.
  intros Hb. simpl. unfold pop_opcode in Hb. rewrite Hb. by destruct (parse_pops bytes).
Qed.

Lemma parse_prefixed_step b0 b1 bytes :
  pop_opcode b0 = false → starts_prefixed (b0 :: b1 :: bytes) = true →
  parse_pops (b0 :: b1 :: bytes) =
    ((reg_of_number (b1 - 0x58 + 8 * (b0 - 0x40)), true) :: (parse_pops bytes).1,
     (parse_pops bytes).2).
Proof.
  intros Hb0 Hpre. cbn [parse_pops]. unfold starts_prefixed, pop_opcode in *. rewrite Hb0.
  rewrite andb_assoc in Hpre. rewrite Hpre. by destruct (parse_pops bytes).
Qed.

Lemma parse_end_step b0 bytes :
  pop_opcode b0 = false → starts_prefixed (b0 :: bytes) = false →
  parse_pops (b0 :: bytes) = ([], b0 :: bytes).
Proof.
  intros Hb0 Hpre. cbn [parse_pops]. unfold starts_prefixed, pop_opcode in *. rewrite Hb0.
  destruct bytes as [|b1 bytes]; [done|]. rewrite andb_assoc in Hpre. by rewrite Hpre.
Qed.

Lemma loop_plain_step pre b bytes n slot :
  pop_opcode b = true → 0 ≤ n ≤ 32766 →
  epilogue_loop pre (b :: bytes) n slot =
    epilogue_loop pre bytes (n + 1)
      (if decide ((reg_of_number (b - 0x58), false) = (RBP, false)) then Some n else slot).
Proof.
  intros Hpop Hn. cbn [epilogue_loop].
  assert (Hne : (b =? 0xc3) = false ∧ (b =? 0xeb) || (b =? 0xe9) || (b =? 0xff) = false)
    by (apply pop_opcode_cases in Hpop; destruct_or! Hpop; by subst).
  destruct Hne as [-> ->]. pose proof (parse_plain b Hpop) as Hp.
  unfold pop_opcode in Hpop. rewrite Hpop.
  rewrite uarith_ok by range. rewrite sext_id by range. cbn [mbind may_bind].
  rewrite <- Hp. rewrite bool_decide_decide. by destruct (decide _).
Qed.

Lemma loop_prefixed_step pre b0 b1 bytes n slot :
  is_u8 b0 → is_u8 b1 → starts_prefixed (b0 :: b1 :: bytes) = true → 0 ≤ n ≤ 32766 →
  epilogue_loop pre (b0 :: b1 :: bytes) n slot =
    epilogue_loop pre bytes (n + 1) slot.
Proof.
  intros H0 H1 Hpre Hn. unfold starts_prefixed in Hpre.
  apply andb_true_iff in Hpre as [Hb0 Hb1].
  cbn [epilogue_loop]. rewrite (rex_byte b0 H0), (pop_byte b1 H1), Hb0.
  unfold pop_opcode in Hb1. rewrite Hb1. rewrite uarith_ok by range.
  apply orb_true_iff in Hb0 as [->%Z.eqb_eq| ->%Z.eqb_eq]; done.
Qed.

Lemma loop_end_step pre b0 bytes n slot :
  is_u8 b0 → Forall is_u8 bytes → pop_opcode b0 = false →
  starts_prefixed (b0 :: bytes) = false →
  epilogue_loop pre (b0 :: bytes) n slot =
    Val (loop_result pre n slot ([], b0 :: bytes)).
Proof.
  intros H0 Hu Hpop Hpre. unfold loop_result; cbn [fst snd length bp_slot epilogue_loop].
  rewrite Z.add_0_r. destruct (b0 =? 0xc3); [done|].
  destruct ((b0 =? 0xeb) || (b0 =? 0xe9) || (b0 =? 0xff)); [by repeat case_match|].
  assert (Hplain : (b0 =? 0x5d) = false) by (unfold pop_opcode in Hpop; lia).
  unfold pop_opcode in Hpop. rewrite Hplain, Hpop.
  destruct bytes as [|b1 bytes]; [done|]. apply Forall_cons in Hu as [H1 _].
  unfold starts_prefixed, pop_opcode in Hpre.
  by rewrite (rex_byte b0 H0), (pop_byte b1 H1), Hpre.
Qed.

Lemma epilogue_loop_parse pre bytes n slot :
  Forall is_u8 bytes → 0 ≤ n → n + Z.of_nat (length (parse_pops bytes).1) ≤ 32767 →
  epilogue_loop pre bytes n slot = Val (loop_result pre n slot (parse_pops bytes)).
Proof.
  remember (length bytes) as k eqn:Hk. revert bytes Hk n slot.
  induction k as [k IH] using lt_wf_ind. intros bytes -> n slot Hu8 Hn Hlen.
  destruct bytes as [|b0 bytes]; [done|]. apply Forall_cons in Hu8 as [Hb0 Hu].
  destruct (pop_opcode b0) eqn:Hpop.
  { rewrite parse_plain_step in * by done. cbn [fst snd length] in *.
    rewrite loop_result_cons, loop_plain_step by (done || lia).
    apply (IH (length bytes)); simpl; auto with lia. }
  destruct (starts_prefixed (b0 :: bytes)) eqn:Hpre.
  - destruct bytes as [|b1 bytes]; [done|]. apply Forall_cons in Hu as [Hb1 Hu].
    rewrite parse_prefixed_step in * by done. cbn [fst snd length] in *.
    rewrite loop_result_cons, loop_prefixed_step, decide_False by (done || lia).
    apply (IH (length bytes)); simpl; auto with lia.
  - rewrite parse_end_step in * by done. by apply loop_end_step.
Qed.
End EpilogueCorrect.

(** * What the detected rule means *)

(** The rule for an epilogue that pops [pops] and leaves. *)
Definition epilogue_rule (pops : list (Reg * bool)) : UnwindRuleX86_64 :=
  match pops with
  | [] => JustReturn
  | _ =>
      let n := Z.of_nat (length pops) + 1 in
      match bp_slot pops 0 None with
      | Some slot => OffsetSpAndRestoreBp n slot
      | None => OffsetSp n
      end
  end.

(** The recorded slot has been read, and if no prefix hides a [pop rbp] it is where the
    last one reads. *)
Lemma pop_all_bp mem pops base n slot r hi r' :
  pop_all mem pops.*1 (base + n * 8) r = Some (hi, r') →
  match slot with Some k => is_Some (mem (base + k * 8)) | None => True end →
  match bp_slot pops n slot with Some k => is_Some (mem (base + k * 8)) | None => True end.
Proof.
  revert n slot r. induction pops as [|[reg b] pops IH]; intros n slot r; simpl; [done|].
  destruct (mem (base + n * 8)) as [v|] eqn:Hm; simpl; [|done].
  replace (base + n * 8 + 8) with (base + (n + 1) * 8) by lia. intros Hp Hslot.
  eapply IH; [exact Hp|]. case_decide; [by exists v|done].
Qed.

Lemma pop_all_last_bp mem pops base n slot r hi r' :
  (RBP, true) ∉ pops → pop_all mem pops.*1 (base + n * 8) r = Some (hi, r') →
  match slot with Some k => mem (base + k * 8) = Some (bp r) | None => True end →
  match bp_slot pops n slot with
  | Some k => mem (base + k * 8) = Some (bp r')
  | None => slot = None ∧ bp r' = bp r
  end.
Proof.
  revert n slot r. induction pops as [|[reg b] pops IH]; intros n slot r; simpl.
  { intros _ [= <- <-]. by destruct slot. }
  intros [Hb Hpops]%not_elem_of_cons.
  destruct (mem (base + n * 8)) as [v|] eqn:Hm; simpl; [|done].
  replace (base + n * 8 + 8) with (base + (n + 1) * 8) by lia. intros Hp Hslot.
  case_decide as Heq.
  - injection Heq as -> ->. specialize (IH _ (Some n) _ Hpops Hp).
    unfold bp in IH at 1. rewrite get_set_eq in IH.
    specialize (IH Hm). revert IH. destruct (bp_slot _ _ _); [done|]. by intros [? _].
  - assert (reg ≠ RBP) by (intros ->; by destruct b).
    specialize (IH _ slot _ Hpops Hp). unfold bp in IH at 1. rewrite get_set_ne in IH by done.
    specialize (IH Hslot). revert IH. destruct (bp_slot _ _ _); [done|].
    unfold bp at 2. by rewrite get_set_ne.
Qed.

(** Running the pops and the return is what the rule denotes. *)
Lemma epilogue_rule_denotes mem first pops r r' :
  RSP ∉ pops.*1 → run_ops mem (Pop <$> pops.*1) r = Some r' →
  ∃ r1, denote mem (epilogue_rule pops) first r = Some (sp r' + 8, r1) ∧
    ((RBP, true) ∉ pops → bp r1 = bp r').
Proof.
  intros Hni. rewrite run_pops by done.
  intros ([hi r2] & Hp & ->)%fmap_Some. cbn [fst snd].
  pose proof (pop_all_sp _ _ _ _ _ _ Hp) as Hhi. rewrite length_fmap in Hhi.
  replace (sp (set_sp r2 hi)) with hi by (by simpl_regs).
  replace (bp (set_sp r2 hi)) with (bp r2) by (by simpl_regs).
  destruct pops as [|pop pops].
  { simpl in Hp, Hhi. simplify_eq. eexists. split; [simpl; do 2 f_equal; lia|done]. }
  replace (sp r) with (sp r + 0 * 8) in Hp by lia.
  pose proof (pop_all_bp _ _ _ _ None _ _ _ Hp I) as Hread.
  pose proof (λ Hno, pop_all_last_bp _ _ _ _ None _ _ _ Hno Hp I) as Hbp.
  unfold epilogue_rule. destruct (bp_slot (pop :: pops) 0 None) as [k|]; unfold denote.
  - destruct Hread as [v Hv]. rewrite Hv. exists (set_bp r v). split; [rewrite Hhi; do 2 f_equal; lia|].
    intros Hno. specialize (Hbp Hno). simpl_regs. congruence.
  - exists r. split; [rewrite Hhi; do 2 f_equal; lia|]. intros Hno. by destruct (Hbp Hno).
Qed.

Lemma bp_slot_bound pops n slot k :
  bp_slot pops n slot = Some k → slot = Some k ∨ n ≤ k < n + Z.of_nat (length pops).
Proof.
  revert n slot. induction pops as [|reg pops IH]; intros n slot; simpl; [by left|].
  intros [Hs|Hk]%IH; [|right; lia]. case_decide; [|by left].
  simplify_eq. right. lia.
Qed.

(** C18.  The x86_64 epilogue detector against a reference decoder.  On bytes that start
    with at most 32767 pops it returns without a panic, and it reports a rule exactly
    when the pops are followed by a [ret] or a jump, where a jump at the program counter
    itself counts only if the byte before it could end a pop.  The rule's fields fit, and,
    unless [rsp] is popped, the rule denotes the caller frame that running the pops and
    the return gives; it also denotes the caller's frame pointer, unless some [pop rbp] has
    a redundant REX prefix ([40 5d]): the detector counts such a pop but does not see that
    it restores the frame pointer. *)
Theorem detected_epilogue_correct `{Profile} (text_bytes : list Z) (pc_offset : Z)
    (pops : list (Reg * bool)) (rest : list Z) :
  Forall is_u8 text_bytes → 0 ≤ pc_offset ≤ Z.of_nat (length text_bytes) →
  parse_pops (drop (Z.to_nat pc_offset) text_bytes) = (pops, rest) →
  Z.of_nat (length pops) ≤ 32767 →
  unwind_rule_from_detected_epilogue text_bytes pc_offset =
    Val (if leaves_after (take (Z.to_nat pc_offset) text_bytes) pops rest
         then Some (epilogue_rule pops) else None) ∧
  wf_rule (epilogue_rule pops) ∧
  (RSP ∉ pops.*1 → ∀ mem first r r', run_ops mem (Pop <$> pops.*1) r = Some r' →
     ∃ r1, denote mem (epilogue_rule pops) first r = Some (sp r' + 8, r1) ∧
       ((RBP, true) ∉ pops → bp r1 = bp r')).
Proof.
  intros Hu8 Hpc Hparse Hlen. split_and!.
  - unfold unwind_rule_from_detected_epilogue, split_at.
    destruct (Z.leb_spec 0 pc_offset), (Z.leb_spec pc_offset (Z.of_nat (length text_bytes)));
      try lia. cbn [mbind may_bind andb].
    rewrite epilogue_loop_parse;
      [|by apply Forall_drop|done|rewrite Hparse; simpl; lia].
    rewrite Hparse. unfold loop_result, leaves_after, epilogue_rule; cbn [fst snd mbind may_bind].
    rewrite Z.add_0_l. destruct rest as [|b rest]; [done|].
    destruct (Z.eqb_spec b 0xc3); cbn [orb]; [|destruct ((b =? 0xeb) || (b =? 0xe9) || (b =? 0xff)); [|done]].
    + destruct pops as [|reg pops]; [done|]. cbn [length] in *.
      destruct (Z.eqb_spec (Z.of_nat (S (length pops))) 0); [lia|].
      rewrite uarith_ok by range. cbn [mbind may_bind]. by destruct (bp_slot _ _ _).
    + destruct pops as [|reg pops]; cbn [length] in *.
      { destruct (last _) as [p|]; [|done]. by destruct (Z.land p 0xf8 =? 0x58). }
      destruct (Z.eqb_spec (Z.of_nat (S (length pops))) 0); [lia|]. cbn [negb andb].
      destruct (Z.eqb_spec (Z.of_nat (S (length pops))) 0); [lia|].
      rewrite uarith_ok by range. cbn [mbind may_bind]. by destruct (bp_slot _ _ _).
  - unfold epilogue_rule. destruct pops as [|reg pops]; [done|].
    destruct (bp_slot (reg :: pops) 0 None) as [k|] eqn:Hk; simpl; cbn [length] in Hlen.
    + apply bp_slot_bound in Hk as [?|Hk]; [done|]. cbn [length] in Hk. split; range.
    + range.
  - intros Hni mem first r r'. by apply epilogue_rule_denotes.
Qed.

(** [pop rbx; pop r14; pop rbp; ret]. *)
Definition example_epilogue : list Z := [0x90; 0x5b; 0x41; 0x5e; 0x5d; 0xc3].

Lemma detected_epilogue_correct_witness :
  @unwind_rule_from_detected_epilogue debug_profile example_epilogue 1 =
    Val (Some (OffsetSpAndRestoreBp 4 2)) ∧
  wf_rule (OffsetSpAndRestoreBp 4 2) ∧
  (RSP ∉ [RBX; R14; RBP] → ∀ mem first r r',
     run_ops mem (Pop <$> [RBX; R14; RBP]) r = Some r' →
     ∃ r1, denote mem (OffsetSpAndRestoreBp 4 2) first r = Some (sp r' + 8, r1) ∧
       ((RBP, true) ∉ [(RBX, false); (R14, true); (RBP, false)] → bp r1 = bp r')).
Proof.
  apply (@detected_epilogue_correct debug_profile example_epilogue 1
    [(RBX, false); (R14, true); (RBP, false)] [0xc3]).
  - repeat constructor; by vm_compute.
  - vm_compute. split; congruence.
  - reflexivity.
  - vm_compute. congruence.
Defined.

(** A redundantly prefixed [pop rbp] is popped but not restored. *)
Example rex_pop_rbp :
  parse_pops [0x40; 0x5d; 0xc3] = ([(RBP, true)], [0xc3]) ∧
  @unwind_rule_from_detected_epilogue debug_profile [0x40; 0x5d; 0xc3] 0 =
    Val (Some (OffsetSp 2)).
Proof. done. Qed.

(** * Prologues on the machine *)

Definition machine : Type := (Z → option Z) * UnwindRegsX86_64.

Definition run_push (s : machine) (reg : Reg) : machine :=
  let a := sp s.2 - 8 in
  (λ b, if b =? a then Some (get s.2 reg) else s.1 b, set_sp s.2 a).
Definition run_mov_rbp_rsp (s : machine) : machine := (s.1, set_bp s.2 (sp s.2)).
Definition run_pushes (pushes : list Reg) (s : machine) : machine :=
  fold_left run_push pushes s.

(** The instructions before the program counter: [push rbp; mov rbp, rsp] or nothing,
    then some pushes. *)
Definition prologue_bytes (framed : bool) (pre : list Z) (pushes : list Reg) : list Z :=
  (if framed then pre ++ push_rbp_mov_rbp_rsp else []) ++ concat (encode_push <$> pushes).
Definition run_prologue (framed : bool) (pushes : list Reg) (s : machine) : machine :=
  run_pushes pushes (if framed then run_mov_rbp_rsp (run_push s RBP) else s).

(** Pushes only write below the stack pointer and only move it. *)
Lemma run_pushes_effect pushes s :
  let s' := run_pushes pushes s in
  sp s'.2 = sp s.2 - 8 * Z.of_nat (length pushes) ∧ bp s'.2 = bp s.2 ∧
  ∀ a, sp s.2 ≤ a → s'.1 a = s.1 a.
Proof.
  revert s. induction pushes as [|reg pushes IH]; intros s; simpl; [split_and!; done || lia|].
  destruct (IH (run_push s reg)) as (Hsp & Hbp & Hmem). unfold run_push in *; simpl in *.
  replace (sp (set_sp s.2 (sp s.2 - 8))) with (sp s.2 - 8) in * by (by simpl_regs).
  replace (bp (set_sp s.2 (sp s.2 - 8))) with (bp s.2) in * by (by simpl_regs).
  split_and!; [lia|done|]. intros a Ha. rewrite Hmem by lia.
  destruct (Z.eqb_spec a (sp s.2 - 8)); [lia|done].
Qed.

Section PrologueLoop.
Context `{Profile}.

Lemma index_last (l tail : list Z) b :
  last l = Some b → index (l ++ tail) (Z.of_nat (length l) - 1) = Val b.
Proof.
  intros Hl. destruct l as [|x l] using rev_ind; [done|].
  rewrite last_snoc in Hl. injection Hl as ->. unfold index.
  rewrite length_app. simpl. destruct (Z.leb_spec 0 (Z.of_nat (length l + 1) - 1)); [|lia].
  rewrite <- app_assoc, lookup_app_r by lia.
  by replace (Z.to_nat (Z.of_nat (length l + 1) - 1) - length l)%nat with 0%nat by lia.
Qed.

(** The four bytes before the cursor. *)
Lemma slice_range_last4 (l tail : list Z) :
  4 ≤ Z.of_nat (length l) →
  slice_range (l ++ tail) (Z.of_nat (length l) - 4) (Z.of_nat (length l)) =
    Val (drop (length l - 4) l).
Proof.
  intros Hl. unfold slice_range, slice_get. rewrite length_app.
  destruct (Z.leb_spec 0 (Z.of_nat (length l) - 4)); [|lia].
  destruct (Z.leb_spec (Z.of_nat (length l) - 4) (Z.of_nat (length l))); [|lia].
  destruct (Z.leb_spec (Z.of_nat (length l)) (Z.of_nat (length l + length tail))); [|lia].
  cbn [andb]. f_equal.
  replace (Z.to_nat (Z.of_nat (length l) - 4)) with (length l - 4)%nat by lia.
  rewrite drop_app_le by lia. rewrite take_app_length'; [done|].
  rewrite length_drop. lia.
Qed.

Definition frame_setup_at (l tail : list Z) : may bool :=
  if 4 <=? Z.of_nat (length l) then
    bytes ← slice_range (l ++ tail) (Z.of_nat (length l) - 4) (Z.of_nat (length l));
    Val (bool_decide (bytes = push_rbp_mov_rbp_rsp))
  else Val false.

Lemma frame_setup_last (l tail : list Z) b :
  last l = Some b → b ≠ 0xe5 → frame_setup_at l tail = Val false.
Proof.
  intros Hl Hb. unfold frame_setup_at. destruct (Z.leb_spec 4 (Z.of_nat (length l))); [|done].
  rewrite slice_range_last4 by done. cbn [mbind may_bind]. f_equal.
  apply bool_decide_eq_false. intros Heq.
  rewrite <- (take_drop (length l - 4) l), Heq in Hl. unfold push_rbp_mov_rbp_rsp in Hl.
  rewrite last_app in Hl. simpl in Hl. congruence.
Qed.

Lemma frame_setup_here (pre tail : list Z) :
  frame_setup_at (pre ++ push_rbp_mov_rbp_rsp) tail = Val true.
Proof.
  unfold frame_setup_at. rewrite length_app. simpl.
  destruct (Z.leb_spec 4 (Z.of_nat (length pre + 4))); [|lia].
  pose proof (slice_range_last4 (pre ++ push_rbp_mov_rbp_rsp) tail) as Hs.
  rewrite length_app in Hs. simpl in Hs. rewrite Hs by lia. cbn [mbind may_bind].
  replace (length pre + 4 - 4)%nat with (length pre) by lia. by rewrite drop_app_length.
Qed.

Lemma encode_push_shape reg :
  ∃ b, 0x50 ≤ b ≤ 0x57 ∧ (encode_push reg = [b] ∨ encode_push reg = [0x41; b]).
Proof.
  exists (0x50 + reg_number reg mod 8).
  destruct reg; (split; [vm_compute; split; congruence|]); by (left; reflexivity) || (right; reflexivity).
Qed.

(** What precedes the pushes does not look like a push prefix. *)
Definition not_a_prefix (base : list Z) : Prop :=
  ∀ b, last base = Some b → (Z.land b 0xfe =? 0x40) = false.

Lemma not_a_prefix_pushes base pushes :
  not_a_prefix base → not_a_prefix (base ++ concat (encode_push <$> pushes)).
Proof.
  intros Hbase. induction pushes as [|reg pushes _] using rev_ind; simpl.
  { by rewrite app_nil_r. }
  rewrite fmap_app, concat_app, app_assoc. simpl. rewrite app_nil_r.
  destruct (encode_push_shape reg) as (b & Hb & Henc). intros b'.
  assert (Hlast : last (encode_push reg) = Some b) by (by destruct Henc as [-> | ->]).
  rewrite last_app, Hlast. intros [= <-].
  assert (Hcases : b = 0x50 ∨ b = 0x51 ∨ b = 0x52 ∨ b = 0x53 ∨ b = 0x54 ∨ b = 0x55 ∨
    b = 0x56 ∨ b = 0x57) by lia.
  by destruct_or! Hcases; subst.
Qed.

Lemma prefix_at (l tail : list Z) :
  (if 1 <=? Z.of_nat (length l) then
     byte ← index (l ++ tail) (Z.of_nat (length l) - 1); Val (Z.land byte 0xfe =? 0x40)
   else Val false) =
  Val (match last l with Some b => Z.land b 0xfe =? 0x40 | None => false end).
Proof.
  destruct (last l) as [b|] eqn:Hl.
  - rewrite (index_last _ _ b) by done.
    destruct (Z.leb_spec 1 (Z.of_nat (length l))); [done|].
    destruct l; [done|simpl in *; lia].
  - by apply last_None in Hl as ->.
Qed.

(** One iteration of the loop steps back over one push. *)
Lemma prologue_loop_push fuel base reg tail n :
  not_a_prefix base → 0 ≤ n < 65535 → 
  prologue_loop (S fuel) ((base ++ encode_push reg) ++ tail)
      (Z.of_nat (length (base ++ encode_push reg))) n =
    prologue_loop fuel (base ++ (encode_push reg ++ tail)) (Z.of_nat (length base)) (n + 1).
Proof.
  intros Hbase Hn. destruct (encode_push_shape reg) as (b & Hb & Henc).
  assert (Hlast : last (base ++ encode_push reg) = Some b)
    by (by rewrite last_app; destruct Henc as [-> | ->]).
  assert (Hland : (Z.land b 0xf8 =? 0x50) = true).
  { rewrite push_byte by range. lia. }
  assert (Hpos : 1 ≤ Z.of_nat (length (base ++ encode_push reg))).
  { rewrite length_app. destruct Henc as [-> | ->]; simpl; lia. }
  cbn [prologue_loop]. fold (frame_setup_at (base ++ encode_push reg) tail).
  rewrite (frame_setup_last _ _ b) by (done || lia). cbn [mbind may_bind].
  destruct (Z.leb_spec 1 (Z.of_nat (length (base ++ encode_push reg)))); [|lia].
  rewrite (index_last _ _ b) by done. cbn [mbind may_bind]. rewrite Hland.
  rewrite uarith_ok by range. cbn [mbind may_bind].
  destruct Henc as [-> | ->]; simpl.
  - replace (Z.of_nat (length (base ++ [b])) - 1) with (Z.of_nat (length base))
      by (rewrite length_app; simpl; lia).
    rewrite <- (app_assoc base [b] tail), prefix_at. cbn [mbind may_bind].
    destruct (last base) as [b'|] eqn:Hb'; [|done]. by rewrite (Hbase b').
  - replace (base ++ [0x41; b]) with ((base ++ [0x41]) ++ [b]) by (by rewrite <- app_assoc).
    replace (Z.of_nat (length ((base ++ [0x41]) ++ [b])) - 1)
      with (Z.of_nat (length (base ++ [0x41]))) by (rewrite !length_app; simpl; lia).
    rewrite <- (app_assoc (base ++ [0x41]) [b] tail), prefix_at, last_snoc.
    cbn [mbind may_bind]. simpl. rewrite length_app, <- app_assoc. simpl.
    by replace (Z.of_nat (length base + 1) - 1) with (Z.of_nat (length base)) by lia.
Qed.

Lemma prologue_loop_pushes base pushes : ∀ fuel tail n,
  not_a_prefix base → 0 ≤ n → n + Z.of_nat (length pushes) ≤ 65535 →
  (length pushes ≤ fuel)%nat →
  let l := base ++ concat (encode_push <$> pushes) in
  prologue_loop fuel (l ++ tail) (Z.of_nat (length l)) n =
    prologue_loop (fuel - length pushes)
      (base ++ concat (encode_push <$> pushes) ++ tail) (Z.of_nat (length base))
      (n + Z.of_nat (length pushes)).
Proof.
  induction pushes as [|reg pushes IH] using rev_ind; intros fuel tail n Hbase Hn Hlen Hfuel; simpl.
  { rewrite !app_nil_r, Nat.sub_0_r. by rewrite Z.add_0_r. }
  assert (Hl : length (pushes ++ [reg]) = S (length pushes))
    by (rewrite length_app; simpl; lia).
  rewrite Hl in *. rewrite fmap_app, concat_app. simpl. rewrite app_nil_r, (app_assoc base).
  destruct fuel as [|fuel]; [lia|].
  rewrite prologue_loop_push by (by apply not_a_prefix_pushes || lia).
  rewrite (IH fuel (encode_push reg ++ tail) (n + 1)) by (done || lia).
  rewrite <- !app_assoc. f_equal; lia.
Qed.

Lemma prologue_loop_frame fuel pre tail n :
  prologue_loop fuel ((pre ++ push_rbp_mov_rbp_rsp) ++ tail)
    (Z.of_nat (length (pre ++ push_rbp_mov_rbp_rsp))) n = Val (Some UseFramePointer).
Proof.
  destruct fuel; cbn [prologue_loop]; fold (frame_setup_at (pre ++ push_rbp_mov_rbp_rsp) tail);
    by rewrite frame_setup_here.
Qed.

Lemma prologue_loop_start fuel tail n :
  0 ≤ n < 65535 → prologue_loop fuel tail 0 n = Val (Some (OffsetSp (n + 1))).
Proof. intros Hn. destruct fuel; simpl; by rewrite uarith_ok by range. Qed.

Lemma split_at_app {A} (l l' : list A) :
  split_at (l ++ l') (Z.of_nat (length l)) = Val (l, l').
Proof.
  unfold split_at. rewrite length_app.
  destruct (Z.leb_spec 0 (Z.of_nat (length l))); [|lia].
  destruct (Z.leb_spec (Z.of_nat (length l)) (Z.of_nat (length l + length l'))); [|lia].
  simpl. by rewrite Nat2Z.id, take_app_length, drop_app_length.
Qed.

Lemma concat_pushes_length pushes :
  (length pushes ≤ length (concat (encode_push <$> pushes)))%nat.
Proof.
  induction pushes as [|reg pushes IH]; csimpl; [lia|]. rewrite length_app.
  destruct (encode_push_shape reg) as (b & _ & [-> | ->]); csimpl; lia.
Qed.

Lemma detected_prologue_run (framed : bool) pre next pushes :
  is_next_instruction_expected_in_prologue next = true →
  Z.of_nat (length pushes) < 65535 →
  let executed := prologue_bytes framed pre pushes in
  unwind_rule_from_detected_prologue (executed ++ next) (Z.of_nat (length executed)) =
    Val (Some (if framed then UseFramePointer
               else OffsetSp (Z.of_nat (length pushes) + 1))).
Proof.
  intros Hnext Hlen executed. unfold unwind_rule_from_detected_prologue.
  rewrite split_at_app. cbn [mbind may_bind]. rewrite Hnext. cbn [negb].
  unfold executed, prologue_bytes.
  set (base := if framed then pre ++ push_rbp_mov_rbp_rsp else []).
  assert (Hbase : not_a_prefix base).
  { unfold base. intros b. destruct framed; [|done]. rewrite last_app. simpl.
    by intros [= <-]. }
  rewrite <- (app_nil_r (base ++ _)) at 2.
  rewrite prologue_loop_pushes; [|done|lia|lia|].
  2:{ rewrite length_app. pose proof (concat_pushes_length pushes). lia. }
  rewrite app_nil_r, Z.add_0_l. unfold base.
  destruct framed; [apply prologue_loop_frame|]. simpl. by rewrite prologue_loop_start by lia.
Qed.
End PrologueLoop.

(** C19.  The x86_64 prologue detector recovers the caller from any point of a prologue.
    The bytes before the program counter are the pushes done so far (fewer than 65535),
    after an optional [push rbp; mov rbp, rsp], and the next instruction is one a prologue
    may have; the machine has run them since the function's entry, where the stack pointer
    was above 8.  Then the detector returns a rule without a panic, and on the machine's
    memory and registers the rule denotes the caller's stack pointer and frame pointer,
    with the return address still in place. *)
Theorem detected_prologue_correct `{Profile} (framed : bool) (pre next : list Z)
    (pushes : list Reg) (s : machine) :
  let executed := prologue_bytes framed pre pushes in
  let s' := run_prologue framed pushes s in
  is_next_instruction_expected_in_prologue next = true →
  Z.of_nat (length pushes) < 65535 → 8 < sp s.2 →
  ∃ rule, unwind_rule_from_detected_prologue (executed ++ next)
            (Z.of_nat (length executed)) = Val (Some rule) ∧
    wf_rule rule ∧ s'.1 (sp s.2) = s.1 (sp s.2) ∧
    ∀ first, ∃ r1, denote s'.1 rule first s'.2 = Some (sp s.2 + 8, r1) ∧ bp r1 = bp s.2.
Proof.
  intros executed s' Hnext Hlen Hsp. eexists.
  split; [by apply detected_prologue_run|]. unfold s', run_prologue. destruct framed.
  - set (s0 := run_mov_rbp_rsp (run_push s RBP)).
    assert (Hs0 : sp s0.2 = sp s.2 - 8 ∧ bp s0.2 = sp s.2 - 8 ∧
      s0.1 (sp s.2 - 8) = Some (bp s.2) ∧ s0.1 (sp s.2) = s.1 (sp s.2)).
    { unfold s0, run_mov_rbp_rsp, run_push; simpl. split_and!; [by simpl_regs|by simpl_regs| |].
      - by rewrite Z.eqb_refl.
      - destruct (Z.eqb_spec (sp s.2) (sp s.2 - 8)); [lia|done]. }
    destruct Hs0 as (Hsp0 & Hbp0 & Hslot & Hra).
    destruct (run_pushes_effect pushes s0) as (Hsp' & Hbp' & Hmem).
    split; [done|]. split; [by rewrite Hmem by lia|]. intros first.
    exists (set_bp (run_pushes pushes s0).2 (bp s.2)). split; [|by simpl_regs].
    unfold denote. rewrite Hbp', Hsp', Hsp0, Hbp0.
    destruct (Z.eqb_spec (sp s.2 - 8) 0); [lia|].
    destruct (Z.leb_spec (sp s.2 - 8 + 16) (sp s.2 - 8 - 8 * Z.of_nat (length pushes))); [lia|].
    rewrite Hmem, Hslot by lia. simpl. do 2 f_equal. lia.
  - destruct (run_pushes_effect pushes s) as (Hsp' & Hbp' & Hmem).
    split; [simpl; range|]. split; [by rewrite Hmem by lia|]. intros first.
    eexists. split; [|exact Hbp']. unfold denote. rewrite Hsp'. do 2 f_equal. lia.
Qed.

(** Inside [push rbp; mov rbp, rsp; push r15; push rbx; sub rsp, 24]. *)
Lemma detected_prologue_correct_witness :
  let s : machine := (λ a, if a =? 0x1000 then Some 0x400 else None, new 0x100 0x1000 0x2000) in
  let s' := run_prologue true [R15; RBX] s in
  ∃ rule, @unwind_rule_from_detected_prologue debug_profile
            [0x55; 0x48; 0x89; 0xe5; 0x41; 0x57; 0x53; 0x48; 0x83; 0xec; 0x18] 7 =
          Val (Some rule) ∧
    wf_rule rule ∧ s'.1 0x1000 = s.1 0x1000 ∧
    ∀ first, ∃ r1, denote s'.1 rule first s'.2 = Some (0x1000 + 8, r1) ∧ bp r1 = 0x2000.
Proof.
  intros s s'.
  apply (@detected_prologue_correct debug_profile true [] [0x48; 0x83; 0xec; 0x18] [R15; RBX] s).
  - reflexivity.
  - reflexivity.
  - reflexivity.
Defined.

(** * Every detected rule is well-formed *)

Section DetectedWf.
Context `{Profile}.

Lemma epilogue_loop_wf pre bytes n slot m k :
  is_u16 n → (∀ s, slot = Some s → is_i16 s) →
  epilogue_loop pre bytes n slot = Val (Some (m, k)) →
  is_u16 m ∧ ∀ s, k = Some s → is_i16 s.
Proof.
  remember (length bytes) as len eqn:Hlen. revert bytes Hlen n slot.
  induction len as [len IH] using lt_wf_ind. intros bytes -> n slot Hn Hslot.
  assert (Hdone : Val (Some (n, slot)) = Val (Some (m, k)) →
    is_u16 m ∧ ∀ s, k = Some s → is_i16 s) by (intros [= <- <-]; done).
  assert (Hrec : ∀ rest slot', (length rest < length bytes)%nat →
    (∀ s, slot' = Some s → is_i16 s) →
    (p ← uarith 16 (n + 1); epilogue_loop pre rest p slot') = Val (Some (m, k)) →
    is_u16 m ∧ ∀ s, k = Some s → is_i16 s).
  { intros rest slot' Hlt Hs. destruct (uarith 16 (n + 1)) as [p|] eqn:Hp; [|done].
    apply uarith_range in Hp; [|done]. simpl. by apply (IH (length rest)). }
  destruct bytes as [|b0 bytes1]; [done|]. cbn [epilogue_loop].
  destruct (b0 =? 0xc3); [exact Hdone|].
  destruct ((b0 =? 0xeb) || (b0 =? 0xe9) || (b0 =? 0xff)); [by repeat case_match|].
  destruct (b0 =? 0x5d).
  { apply Hrec; [simpl; lia|]. intros s [= <-]. by apply sext_range. }
  destruct ((0x58 <=? b0) && (b0 <=? 0x5f)); [apply Hrec; [simpl; lia|done]|].
  destruct bytes1 as [|b1 bytes2]; [done|].
  destruct (_ && _); [apply Hrec; [simpl; lia|done]|done].
Qed.

Lemma detected_epilogue_wf text pc rule :
  unwind_rule_from_detected_epilogue text pc = Val (Some rule) → wf_rule rule.
Proof.
  unfold unwind_rule_from_detected_epilogue.
  destruct (split_at text pc) as [[pre post]|]; [|done]. cbn [mbind may_bind].
  destruct (epilogue_loop pre post 0 None) as [[[n slot]|]|] eqn:Hl; [|done|done].
  apply epilogue_loop_wf in Hl as [Hn Hslot]; [|range|done]. cbn [mbind may_bind].
  destruct (n =? 0); [by intros [= <-]|].
  destruct (uarith 16 (n + 1)) as [m|] eqn:Hm; [|done]. apply uarith_range in Hm; [|done].
  cbn [mbind may_bind]. destruct slot as [s|]; intros [= <-]; simpl; auto.
Qed.

Lemma prologue_loop_wf fuel pre cursor n rule :
  prologue_loop fuel pre cursor n = Val (Some rule) → wf_rule rule.
Proof.
  revert cursor n. induction fuel as [|fuel IH]; intros cursor n; cbn [prologue_loop].
  all: destruct (if 4 <=? cursor then _ else _) as [[|]|]; cbn [mbind may_bind];
    [by intros [= <-]| |done].
  all: assert (Hbreak : (m ← uarith 16 (n + 1); Val (Some (OffsetSp m))) = Val (Some rule) →
      wf_rule rule)
    by (destruct (uarith 16 (n + 1)) as [m|] eqn:Hm; [|done];
        apply uarith_range in Hm; [|done]; by intros [= <-]).
  all: destruct (1 <=? cursor); [|exact Hbreak].
  all: destruct (index pre (cursor - 1)) as [b|]; cbn [mbind may_bind]; [|done].
  all: destruct (Z.land b 0xf8 =? 0x50); [|exact Hbreak].
  all: destruct (uarith 16 (n + 1)) as [m|]; cbn [mbind may_bind]; [|done].
  all: destruct (if 1 <=? cursor - 1 then _ else _) as [p|]; cbn [mbind may_bind]; [|done].
  - done.
  - apply IH.
Qed.

Lemma detected_prologue_wf text pc rule :
  unwind_rule_from_detected_prologue text pc = Val (Some rule) → wf_rule rule.
Proof.
  unfold unwind_rule_from_detected_prologue.
  destruct (split_at text pc) as [[pre post]|]; [|done]. cbn [mbind may_bind].
  destruct (negb _); [done|]. apply prologue_loop_wf.
Qed.

Lemma instruction_analysis_wf text pc rule :
  rule_from_instruction_analysis (H0 := ArchX86_64) text pc = Val (Some rule) →
  wf_rule rule.
Proof.
  unfold rule_from_instruction_analysis. simpl.
  destruct (unwind_rule_from_detected_prologue text pc) as [[r|]|] eqn:Hp;
    cbn [mbind may_bind]; [|apply detected_epilogue_wf|done].
  intros [= <-]. by apply detected_prologue_wf in Hp.
Qed.
End DetectedWf.

(** * Analysis never panics in a release build *)

Section Total.
Context `{Profile} (Hrel : overflow_checks = false).

Lemma epilogue_loop_returns pre bytes n slot : returns (epilogue_loop pre bytes n slot).
Proof.
  revert n slot. induction bytes as [bytes IH] using (induction_ltof1 _ (@length Z)).
  unfold ltof in IH. intros n slot. destruct bytes as [|b0 bytes1]; [by eexists|].
  cbn [epilogue_loop].
  repeat returns_step; apply IH; simpl; lia.
Qed.

Lemma prologue_loop_returns fuel pre cursor n :
  0 ≤ cursor ≤ Z.of_nat fuel → cursor ≤ Z.of_nat (length pre) →
  returns (prologue_loop fuel pre cursor n).
Proof.
  revert cursor n. induction fuel as [|fuel IH]; intros cursor n Hc Hlen; cbn [prologue_loop].
  - assert (cursor = 0) as -> by lia. simpl. repeat returns_step.
  - apply returns_bind.
    { destruct (Z.leb_spec 4 cursor); [|by eexists]. apply returns_bind; [|by eexists].
      apply slice_range_returns; lia. }
    intros [|] _; [by eexists|]. destruct (Z.leb_spec 1 cursor); [|repeat returns_step].
    apply returns_bind; [apply index_returns; lia|]. intros b _.
    destruct (_ =? _); [|repeat returns_step].
    apply returns_bind; [auto with returns|]. intros m _.
    apply returns_bind.
    { destruct (Z.leb_spec 1 (cursor - 1)); [|by eexists]. apply returns_bind; [|by eexists].
      apply index_returns; lia. }
    intros p Hp. apply IH; destruct p; try lia.
    all: revert Hp; destruct (Z.leb_spec 1 (cursor - 1)); [lia|done].
Qed.

Lemma instruction_analysis_returns text pc :
  0 ≤ pc ≤ Z.of_nat (length text) →
  returns (rule_from_instruction_analysis (H0 := ArchX86_64) text pc).
Proof.
  intros Hpc. unfold rule_from_instruction_analysis. simpl.
  unfold unwind_rule_from_detected_prologue, unwind_rule_from_detected_epilogue.
  rewrite split_at_returns by done. cbn [mbind may_bind].
  apply returns_bind.
  - destruct (negb _); [by eexists|]. apply prologue_loop_returns; lia.
  - intros [rule|] _; [by eexists|]. apply returns_bind; [apply epilogue_loop_returns|].
    intros o _. repeat returns_step.
Qed.
End Total.
