(* ===== verification/A64InstructionAnalysis.v ===== *)
(** Recognising aarch64 prologues and epilogues
    ([src/aarch64/instruction_analysis/{mod,prologue,epilogue}.rs]). *)

From S2P Require Import Prelude Error Arch InstructionAnalysis A64UnwindRegs A64UnwindRule.
From stdpp Require Import list.
Local Open Scope Z_scope.

(** [u32::from_le_bytes(\[b\[0\], b\[1\], b\[2\], b\[3\]\])] and the remaining bytes. *)
Definition next_word (bytes : list Z) : option (Z * list Z) :=
  match bytes with
  | b0 :: b1 :: b2 :: b3 :: rest => Some (u32_from_le_bytes b0 b1 b2 b3, rest)
  | _ => None
  end.

(** [(word >> lo) & mask]. *)
Definition field (word lo mask : Z) : Z := Z.land (Z.shiftr word lo) mask.

(** [(((((word >> 15) & 0b1111111) as i16) << 9) >> 6) as i32]: a left shift of an [i16]
    drops the high bits, the right shift copies the sign. *)
Definition imm7_times_8 (word : Z) : Z :=
  Z.shiftr (sext 16 (Z.shiftl (field word 15 0x7f) 9)) 6.

(** The immediate of an [add] or [sub], shifted if bit 22 says so. *)
Definition imm12_shifted (word : Z) : Z :=
  let imm12 := field word 10 0xfff in
  if field word 22 1 =? 1 then Z.shiftl imm12 12 else imm12.

(** * Epilogues *)

Module Epilogue.

Record Detector : Type := mk_detector {
  sp_offset : Z;
  fp_offset_from_initial_sp : option Z;
  lr_offset_from_initial_sp : option Z;
}.

Inductive UnexpectedInstructionType : Type :=
| LoadOfWrongSize
| LoadReferenceRegisterNotSp
| AddSubNotOperatingOnSp
| AutibspNotFollowedByExpectedTailCall
| BranchWithUnadjustedStackPointer
| Unknown.

Inductive StepResult : Type :=
| NeedMore
| FoundBodyInstruction (t : UnexpectedInstructionType)
| FoundReturn
| FoundTailCall
| CouldBeAuthTailCall.

Inductive EpilogueResult : Type :=
| ProbablyStillInBody (t : UnexpectedInstructionType)
| ReachedFunctionEndWithoutReturn
| FoundReturnOrTailCall (sp_offset : Z)
    (fp_offset_from_initial_sp lr_offset_from_initial_sp : option Z).

Inductive InstructionType : Type :=
| NotExpectedInEpilogue
| CouldBeTailCall (offset_of_expected_autibsp : Z)
| CouldBePartOfAuthTailCall (offset_of_expected_autibsp : Z)
| VeryLikelyPartOfEpilogue.

Definition new : Detector := mk_detector 0 None None.

Definition instruction_adjusts_stack_pointer (word : Z) : bool :=
  ((field word 22 0x2fb =? 0x2a3) && (field word 5 0x1f =? 31))
  || ((field word 23 0x1ff =? 0x122) && (Z.land word 0x1f =? 31)
      && (field word 5 0x1f =? 31)).

Definition eor_tbz_brk : list Z :=
  [0xd0; 0x07; 0x1e; 0xca; 0x50; 0x00; 0xf0; 0xb6; 0x20; 0x8e; 0x38; 0xd4].

Definition is_auth_tail_call (bytes_after_autibsp : list Z) : bool :=
  match next_word (drop 12 bytes_after_autibsp) with
  | None => false
  | Some (first_tail_call_instruction_opcode, rest) =>
      if negb (bool_decide (take 12 bytes_after_autibsp = eor_tbz_brk)) then false
      else if Z.shiftr first_tail_call_instruction_opcode 26 =? 0x5 then true
      else
        match next_word rest with
        | None => false
        | Some (braa_opcode, _) =>
            let bits_23_to_32 := Z.shiftr first_tail_call_instruction_opcode 23 in
            let is_64_mov := Z.land bits_23_to_32 0x1c7 =? 0x185 in
            let result_reg := Z.land first_tail_call_instruction_opcode 0x1f in
            if negb is_64_mov || negb (result_reg =? 16) then false
            else
              (Z.land braa_opcode 0xfffffc00 =? 0xd71f0800)
              && (Z.land braa_opcode 0x1f =? 16)
        end
  end.

Definition analyze_instruction (word : Z) : InstructionType :=
  if (word =? 0xd65f03c0) || (word =? 0xd65f0fff) then VeryLikelyPartOfEpilogue
  else if word =? 0xd50323ff then CouldBePartOfAuthTailCall 0
  else if word =? 0xca1e07d0 then CouldBePartOfAuthTailCall 4
  else if word =? 0xb6f00050 then CouldBePartOfAuthTailCall 8
  else if word =? 0xd4388e20 then CouldBePartOfAuthTailCall 12
  else if (Z.shiftr word 26 =? 0x5) || (Z.land word 0xfffffc1f =? 0xd61f0000)
  then CouldBeTailCall 16
  else if (field word 23 0x1c7 =? 0x185) && (Z.land word 0x1f =? 16)
  then CouldBePartOfAuthTailCall 16
  else if (Z.land word 0xfffffc00 =? 0xd71f0800) && (Z.land word 0x1f =? 16)
  then CouldBePartOfAuthTailCall 20
  else if field word 22 0x2f9 =? 0x2a1 then
    if field word 23 0x3 =? 0x0 then NotExpectedInEpilogue
    else if negb (field word 5 0x1f =? 31) then NotExpectedInEpilogue
    else VeryLikelyPartOfEpilogue
  else if field word 23 0x1ff =? 0x122 then
    if negb (Z.land word 0x1f =? 31) || negb (field word 5 0x1f =? 31)
    then NotExpectedInEpilogue
    else VeryLikelyPartOfEpilogue
  else NotExpectedInEpilogue.

Section Analysis.
Context `{Profile}.

(** A register of a load pair: the slot is recorded for [fp] and [lr]. *)
Definition record_load (self : Detector) (reg loc : Z) : Detector :=
  if reg =? 29 then mk_detector (sp_offset self) (Some loc) (lr_offset_from_initial_sp self)
  else if reg =? 30 then
    mk_detector (sp_offset self) (fp_offset_from_initial_sp self) (Some loc)
  else self.

Definition add_sp_offset (self : Detector) (n : Z) : may Detector :=
  sp ← sarith 32 (sp_offset self + n);
  Val (mk_detector sp (fp_offset_from_initial_sp self) (lr_offset_from_initial_sp self)).

(** [reg_loc + 8], which is only computed for [fp] and [lr]. *)
Definition record_second_load (self : Detector) (reg loc : Z) : may Detector :=
  if (reg =? 29) || (reg =? 30) then
    loc ← sarith 32 (loc + 8); Val (record_load self reg loc)
  else Val self.

Definition step_instruction (self : Detector) (word : Z) : may (StepResult * Detector) :=
  if (word =? 0xd65f03c0) || (word =? 0xd65f0fff) then Val (FoundReturn, self)
  else if word =? 0xd50323ff then Val (CouldBeAuthTailCall, self)
  else if Z.shiftr word 26 =? 0x5 then
    if negb (sp_offset self =? 0) then Val (FoundTailCall, self)
    else Val (FoundBodyInstruction BranchWithUnadjustedStackPointer, self)
  else if field word 22 0x2f9 =? 0x2a1 then
    let writeback_bits := field word 23 0x3 in
    if writeback_bits =? 0x0 then Val (FoundBodyInstruction LoadOfWrongSize, self)
    else if negb (field word 5 0x1f =? 31)
    then Val (FoundBodyInstruction LoadReferenceRegisterNotSp, self)
    else
      let is_preindexed_writeback := writeback_bits =? 0x3 in
      let is_postindexed_writeback := writeback_bits =? 0x1 in
      let imm7 := imm7_times_8 word in
      reg_loc ←
        (if is_postindexed_writeback then Val (sp_offset self)
         else sarith 32 (sp_offset self + imm7));
      let self := record_load self (Z.land word 0x1f) reg_loc in
      self ← record_second_load self (field word 10 0x1f) reg_loc;
      self ←
        (if is_preindexed_writeback || is_postindexed_writeback
         then add_sp_offset self imm7 else Val self);
      Val (NeedMore, self)
  else if field word 23 0x1ff =? 0x122 then
    if negb (Z.land word 0x1f =? 31) || negb (field word 5 0x1f =? 31)
    then Val (FoundBodyInstruction AddSubNotOperatingOnSp, self)
    else
      self ← add_sp_offset self (imm12_shifted word);
      Val (NeedMore, self)
  else Val (FoundBodyInstruction Unknown, self).

(** The [loop] of [analyze_slice], at an instruction [word] followed by [bytes];
    every [NeedMore] consumes a word of them. *)
Fixpoint analyze_loop (self : Detector) (word : Z) (bytes : list Z) :
    may EpilogueResult :=
  '(step, self) ← step_instruction self word;
  let found :=
    Val (FoundReturnOrTailCall (sp_offset self) (fp_offset_from_initial_sp self)
           (lr_offset_from_initial_sp self)) in
  match step with
  | NeedMore =>
      match bytes with
      | b0 :: b1 :: b2 :: b3 :: rest =>
          analyze_loop self (u32_from_le_bytes b0 b1 b2 b3) rest
      | _ => Val ReachedFunctionEndWithoutReturn
      end
  | FoundBodyInstruction uit => Val (ProbablyStillInBody uit)
  | FoundReturn | FoundTailCall => found
  | CouldBeAuthTailCall =>
      if negb (is_auth_tail_call bytes)
      then Val (ProbablyStillInBody AutibspNotFollowedByExpectedTailCall) else found
  end.

(** Whether an authenticated tail call starts [offset] bytes before the pc. *)
Definition auth_tail_call_at (function_bytes : list Z) (pc_offset offset : Z) : may bool :=
  if offset <=? pc_offset then
    auth_tail_call_bytes ← slice_from function_bytes (pc_offset - offset);
    autibsp ← slice_range auth_tail_call_bytes 0 4;
    Val (bool_decide (autibsp = [0xff; 0x23; 0x03; 0xd5])
         && is_auth_tail_call (drop 4 auth_tail_call_bytes))
  else Val false.

Definition at_return : EpilogueResult := FoundReturnOrTailCall 0 None None.

Definition analyze_slice (self : Detector) (function_bytes : list Z) (pc_offset : Z) :
    may EpilogueResult :=
  bytes ← slice_from function_bytes pc_offset;
  match next_word bytes with
  | None => Val ReachedFunctionEndWithoutReturn
  | Some (word, bytes) =>
      match analyze_instruction word with
      | NotExpectedInEpilogue => Val (ProbablyStillInBody Unknown)
      | CouldBeTailCall offset_of_expected_autibsp =>
          auth ← auth_tail_call_at function_bytes pc_offset offset_of_expected_autibsp;
          if auth : bool then Val at_return
          else if 4 <=? pc_offset then
            prev_b ← slice_range function_bytes (pc_offset - 4) pc_offset;
            match next_word prev_b with
            | Some (prev_word, _) =>
                if instruction_adjusts_stack_pointer prev_word then Val at_return
                else Val (ProbablyStillInBody Unknown)
            | None => Panic
            end
          else Val (ProbablyStillInBody Unknown)
      | CouldBePartOfAuthTailCall offset_of_expected_autibsp =>
          auth ← auth_tail_call_at function_bytes pc_offset offset_of_expected_autibsp;
          if auth : bool then Val at_return else Val (ProbablyStillInBody Unknown)
      | VeryLikelyPartOfEpilogue => analyze_loop self word bytes
      end
  end.

Definition unwind_rule_from_detected_epilogue (bytes : list Z) (pc_offset : Z) :
    may (option UnwindRuleAarch64) :=
  res ← analyze_slice new bytes pc_offset;
  match res with
  | ProbablyStillInBody _ | ReachedFunctionEndWithoutReturn => Val None
  | FoundReturnOrTailCall sp_offset fp lr =>
      Val (
        sp_offset_by_16 ← checked_uint 16 (Z.quot sp_offset 16);
        match fp, lr with
        | None, None =>
            if sp_offset_by_16 =? 0 then Some NoOp else Some (OffsetSp sp_offset_by_16)
        | None, Some lr_offset =>
            l ← checked_sint 16 (Z.quot lr_offset 8);
            Some (OffsetSpAndRestoreLr sp_offset_by_16 l)
        | Some _, None => None
        | Some fp_offset, Some lr_offset =>
            f ← checked_sint 16 (Z.quot fp_offset 8);
            l ← checked_sint 16 (Z.quot lr_offset 8);
            Some (OffsetSpAndRestoreFpAndLr sp_offset_by_16 f l)
        end)
  end.
End Analysis.
End Epilogue.

(** * Prologues *)

Module Prologue.

Inductive UnexpectedInstructionType : Type :=
| StoreOfWrongSize
| StoreReferenceRegisterNotSp
| AddSubNotOperatingOnSp
| NoNextInstruction
| NoStackPointerSubBeforeStore
| Unknown.

Inductive StepResult : Type :=
| UnexpectedInstruction (t : UnexpectedInstructionType)
| ValidPrologueInstruction.

Inductive PrologueResult : Type :=
| ProbablyAlreadyInBody (t : UnexpectedInstructionType)
| FoundFunctionStart (sp_offset : Z).

Inductive InstructionType : Type :=
| NotExpectedInPrologue
| CouldBePartOfPrologueIfThereIsAlsoAStackPointerSub
| VeryLikelyPartOfPrologue.

Definition analyze_prologue_instruction_type (word : Z) : InstructionType :=
  if (word =? 0xd503237f) || (word =? 0x910003fd) then VeryLikelyPartOfPrologue
  else
    let bits_22_to_32 := Z.shiftr word 22 in
    if Z.land bits_22_to_32 0x2f9 =? 0x2a0 then
      let writeback_bits := Z.land bits_22_to_32 0x6 in
      if (writeback_bits =? 0) || negb (field word 5 0x1f =? 31) then NotExpectedInPrologue
      else if writeback_bits =? 0x4 then CouldBePartOfPrologueIfThereIsAlsoAStackPointerSub
      else VeryLikelyPartOfPrologue
    else if Z.land bits_22_to_32 0x2fe =? 0x244 then
      let result_reg := Z.land word 0x1f in
      let input_reg := field word 5 0x1f in
      let is_sub := field word 30 0x1 =? 1 in
      let expected_result_reg := if is_sub then 31 else 29 in
      if negb (input_reg =? 31) || negb (result_reg =? expected_result_reg)
      then NotExpectedInPrologue else VeryLikelyPartOfPrologue
    else NotExpectedInPrologue.

Section Analysis.
Context `{Profile}.

(** [reverse_step_instruction]: the detector's state is [sp_offset]. *)
Definition reverse_step_instruction (sp_offset word : Z) : may (StepResult * Z) :=
  if word =? 0xd503237f then Val (ValidPrologueInstruction, sp_offset)
  else if field word 22 0x2f9 =? 0x2a0 then
    let writeback_bits := field word 23 0x3 in
    if writeback_bits =? 0 then Val (UnexpectedInstruction StoreOfWrongSize, sp_offset)
    else if negb (field word 5 0x1f =? 31)
    then Val (UnexpectedInstruction StoreReferenceRegisterNotSp, sp_offset)
    else if (writeback_bits =? 0x3) || (writeback_bits =? 0x1) then
      sp_offset ← sarith 32 (sp_offset - imm7_times_8 word);
      Val (ValidPrologueInstruction, sp_offset)
    else Val (ValidPrologueInstruction, sp_offset)
  else if field word 23 0x1ff =? 0x1a2 then
    if negb (Z.land word 0x1f =? 31) || negb (field word 5 0x1f =? 31)
    then Val (UnexpectedInstruction AddSubNotOperatingOnSp, sp_offset)
    else
      sp_offset ← sarith 32 (sp_offset + imm12_shifted word);
      Val (ValidPrologueInstruction, sp_offset)
  else Val (UnexpectedInstruction Unknown, sp_offset).

(** [slice.chunks_exact(4)] read as little-endian words; a shorter last chunk is
    left out. *)
Fixpoint words (bytes : list Z) : list Z :=
  match bytes with
  | b0 :: b1 :: b2 :: b3 :: rest => u32_from_le_bytes b0 b1 b2 b3 :: words rest
  | _ => []
  end.

(** The [for] loop over the instructions in reverse. *)
Fixpoint reverse_steps (sp_offset : Z) (instructions : list Z) : may Z :=
  match instructions with
  | [] => Val sp_offset
  | instruction :: instructions =>
      '(step, sp_offset) ← reverse_step_instruction sp_offset instruction;
      match step with
      | UnexpectedInstruction _ => Val sp_offset
      | ValidPrologueInstruction => reverse_steps sp_offset instructions
      end
  end.

Definition analyze_slices (slice_from_start slice_to_end : list Z) : may PrologueResult :=
  match next_word slice_to_end with
  | None => Val (ProbablyAlreadyInBody NoNextInstruction)
  | Some (next_instruction, _) =>
      match analyze_prologue_instruction_type next_instruction with
      | NotExpectedInPrologue => Val (ProbablyAlreadyInBody Unknown)
      | next_instruction_type =>
          sp_offset ← reverse_steps 0 (rev (words slice_from_start));
          match next_instruction_type with
          | CouldBePartOfPrologueIfThereIsAlsoAStackPointerSub =>
              if sp_offset =? 0
              then Val (ProbablyAlreadyInBody NoStackPointerSubBeforeStore)
              else Val (FoundFunctionStart sp_offset)
          | _ => Val (FoundFunctionStart sp_offset)
          end
      end
  end.

Definition unwind_rule_from_detected_prologue (slice_from_start slice_to_end : list Z) :
    may (option UnwindRuleAarch64) :=
  res ← analyze_slices slice_from_start slice_to_end;
  match res with
  | ProbablyAlreadyInBody _ => Val None
  | FoundFunctionStart sp_offset =>
      Val (
        sp_offset_by_16 ← checked_uint 16 (Z.quot sp_offset 16);
        if sp_offset_by_16 =? 0 then Some NoOp else Some (OffsetSp sp_offset_by_16))
  end.
End Analysis.
End Prologue.

#[export] Instance InstructionAnalysisAarch64 : @InstructionAnalysis ArchAarch64 := {|
  rule_from_prologue_analysis _ text_bytes pc_offset :=
    ('(slice_from_start, slice_to_end) ← split_at text_bytes pc_offset;
     Prologue.unwind_rule_from_detected_prologue slice_from_start slice_to_end) :
      may (option (@UnwindRule ArchAarch64));
  rule_from_epilogue_analysis _ :=
    Epilogue.unwind_rule_from_detected_epilogue :
      list Z → Z → may (option (@UnwindRule ArchAarch64));
|}.

(** * Every detected rule is well-formed *)

Section DetectedWf.
Context `{Profile}.

Lemma detected_epilogue_wf_aarch64 bytes pc rule :
  Epilogue.unwind_rule_from_detected_epilogue bytes pc = Val (Some rule) → wf_rule rule.
Proof.
  unfold Epilogue.unwind_rule_from_detected_epilogue.
  destruct (Epilogue.analyze_slice _ _ _) as [[t| |sp fp lr]|]; cbn [mbind may_bind];
    [done|done| |done].
  intros [= Hrule]. apply bind_Some in Hrule as (x & [-> Hx]%checked_uint_Some & Hrule).
  destruct fp as [fp|], lr as [lr|]; try done.
  - apply bind_Some in Hrule as (f & [-> Hf]%checked_sint_Some & Hrule).
    apply bind_Some in Hrule as (l & [-> Hl]%checked_sint_Some & [= <-]). by split_and!.
  - apply bind_Some in Hrule as (l & [-> Hl]%checked_sint_Some & [= <-]). by split_and!.
  - destruct (_ =? 0); by injection Hrule as <-.
Qed.

Lemma detected_prologue_wf_aarch64 pre post rule :
  Prologue.unwind_rule_from_detected_prologue pre post = Val (Some rule) → wf_rule rule.
Proof.
  unfold Prologue.unwind_rule_from_detected_prologue.
  destruct (Prologue.analyze_slices _ _) as [[t|sp]|]; cbn [mbind may_bind];
    [done| |done].
  intros [= Hrule]. apply bind_Some in Hrule as (x & [-> Hx]%checked_uint_Some & Hrule).
  destruct (_ =? 0); by injection Hrule as <-.
Qed.

Lemma instruction_analysis_wf_aarch64 text pc rule :
  rule_from_instruction_analysis (H0 := ArchAarch64) text pc = Val (Some rule) →
  wf_rule rule.
Proof.
  unfold rule_from_instruction_analysis. simpl.
  destruct (split_at text pc) as [[pre post]|]; cbn [mbind may_bind]; [|done].
  destruct (Prologue.unwind_rule_from_detected_prologue pre post) as [[r|]|] eqn:Hp;
    cbn [mbind may_bind]; [|apply detected_epilogue_wf_aarch64|done].
  intros [= <-]. by apply detected_prologue_wf_aarch64 in Hp.
Qed.
End DetectedWf.

(** * Analysis never panics in a release build *)

Section Total.
Context `{Profile} (Hrel : overflow_checks = false).

Lemma step_instruction_returns d word : returns (Epilogue.step_instruction d word).
Proof.
  unfold Epilogue.step_instruction, Epilogue.record_second_load, Epilogue.add_sp_offset.
  repeat returns_step.
Qed.

Lemma analyze_loop_returns d word bytes : returns (Epilogue.analyze_loop d word bytes).
Proof.
  revert d word. induction bytes as [bytes IH] using (induction_ltof1 _ (@length Z)).
  unfold ltof in IH. intros d word.
  destruct bytes as [|b0 [|b1 [|b2 [|b3 rest]]]]; cbn [Epilogue.analyze_loop];
    (apply returns_bind; [apply step_instruction_returns|]); intros [step d'] _;
    repeat returns_step.
  apply IH. simpl. lia.
Qed.

Lemma auth_tail_call_at_returns bytes pc offset :
  0 ≤ offset → 0 ≤ pc → pc + 4 ≤ Z.of_nat (length bytes) →
  returns (Epilogue.auth_tail_call_at bytes pc offset).
Proof.
  intros Ho Hpc Hlen. unfold Epilogue.auth_tail_call_at.
  destruct (Z.leb_spec offset pc); [|by eexists].
  rewrite slice_from_returns by lia. cbn [mbind may_bind].
  apply returns_bind; [|by eexists]. apply slice_range_returns; [lia|].
  rewrite length_drop. lia.
Qed.

Lemma next_word_length bytes w rest :
  next_word bytes = Some (w, rest) → (4 ≤ length bytes)%nat.
Proof. destruct bytes as [|b0 [|b1 [|b2 [|b3 l]]]]; simpl; try done. lia. Qed.

Lemma analyze_slice_returns d bytes pc :
  0 ≤ pc ≤ Z.of_nat (length bytes) → returns (Epilogue.analyze_slice d bytes pc).
Proof.
  intros Hpc. unfold Epilogue.analyze_slice. rewrite slice_from_returns by done.
  cbn [mbind may_bind]. destruct (next_word (drop _ bytes)) as [[word rest]|] eqn:Hw;
    [|by eexists].
  apply next_word_length in Hw. rewrite length_drop in Hw.
  assert (Hoff : match Epilogue.analyze_instruction word with
    | Epilogue.CouldBeTailCall o | Epilogue.CouldBePartOfAuthTailCall o => 0 ≤ o
    | _ => True end).
  { unfold Epilogue.analyze_instruction.
    repeat match goal with |- context [if ?b then _ else _] => destruct b end; done. }
  destruct (Epilogue.analyze_instruction word) as [|o|o|]; [by eexists| | |
    apply analyze_loop_returns].
  all: apply returns_bind; [apply auth_tail_call_at_returns; lia|]; intros auth _.
  all: repeat returns_step.
  - apply slice_range_returns; lia.
  - exfalso. revert select (slice_range _ _ _ = _). unfold slice_range, slice_get.
    destruct (_ && _); [|done]. intros [= <-].
    revert select (next_word _ = None).
    destruct (take _ _) as [|b0 [|b1 [|b2 [|b3 l]]]] eqn:Ht; try done; intros _;
      apply (f_equal length) in Ht; rewrite length_take, length_drop in Ht; simpl in Ht; lia.
Qed.

Lemma reverse_steps_returns sp ws : returns (Prologue.reverse_steps sp ws).
Proof.
  revert sp. induction ws as [|w ws IH]; intros sp; cbn [Prologue.reverse_steps];
    [by eexists|].
  apply returns_bind.
  - unfold Prologue.reverse_step_instruction. repeat returns_step.
  - intros [step sp'] _. by destruct step; [eexists|apply IH].
Qed.

Lemma instruction_analysis_returns_aarch64 text pc :
  0 ≤ pc ≤ Z.of_nat (length text) →
  returns (rule_from_instruction_analysis (H0 := ArchAarch64) text pc).
Proof.
  intros Hpc. unfold rule_from_instruction_analysis. simpl.
  rewrite split_at_returns by done. cbn [mbind may_bind]. apply returns_bind.
  - unfold Prologue.unwind_rule_from_detected_prologue, Prologue.analyze_slices.
    repeat returns_step; apply reverse_steps_returns.
  - intros [rule|] _; [by eexists|]. unfold Epilogue.unwind_rule_from_detected_epilogue.
    apply returns_bind; [by apply analyze_slice_returns|]. intros res _.
    repeat returns_step.
Qed.
End Total.
