(* ===== verification/A64InstructionAnalysisSpec.v ===== *)
(** The theorems on the aarch64 instruction analysis: the detectors against the encodings
    of the instructions of prologues and epilogues and a machine that runs them. *)

From S2P Require Import Prelude Error Arch InstructionAnalysis A64UnwindRegs A64UnwindRule.
From S2P Require Import A64InstructionAnalysis.
From stdpp Require Import list.
Local Open Scope Z_scope.

(** * Instructions

    The encodings are those of the Arm manual; numbers of registers are those of the
    encodings, 29 for the frame pointer and 30 for the link register. *)

(** Addressing modes of load and store pairs, and their bits 23 and 24. *)
Inductive addressing : Type := PostIndex | SignedOffset | PreIndex.
Definition mode_bits (m : addressing) : Z :=
  match m with PostIndex => 1 | SignedOffset => 2 | PreIndex => 3 end.
Definition writes_back (m : addressing) : bool :=
  match m with SignedOffset => false | _ => true end.

(** [ldp rt, rt2, \[sp\], #imm * 8] and its variants, [add sp, sp, #imm{, lsl #12}]. *)
Inductive epilogue_instr : Type :=
| Ldp (m : addressing) (rt rt2 imm : Z)
| AddSp (imm : Z) (lsl_12 : bool).

Definition pair_word (base : Z) (m : addressing) (rt rt2 imm : Z) : Z :=
  base * 2 ^ 22 + mode_bits m * 2 ^ 23 + (imm mod 128) * 2 ^ 15 + rt2 * 2 ^ 10 + 31 * 2 ^ 5 + rt.
Definition sp_word (base imm : Z) (lsl_12 : bool) (rd : Z) : Z :=
  base * 2 ^ 23 + (if lsl_12 then 1 else 0) * 2 ^ 22 + imm * 2 ^ 10 + 31 * 2 ^ 5 + rd.
Definition immediate (imm : Z) (lsl_12 : bool) : Z := if lsl_12 then imm * 2 ^ 12 else imm.

Definition epilogue_word (i : epilogue_instr) : Z :=
  match i with
  | Ldp m rt rt2 imm => pair_word 0x2a1 m rt rt2 imm
  | AddSp imm lsl_12 => sp_word 0x122 imm lsl_12 31
  end.

(** The operands fit their fields, and the stack pointer stays aligned to 16 bytes. *)
Definition wf_pair (m : addressing) (rt rt2 imm : Z) : Prop :=
  0 ≤ rt < 32 ∧ 0 ≤ rt2 < 32 ∧ -64 ≤ imm < 64 ∧ (writes_back m = true → imm mod 2 = 0).
Definition wf_immediate (imm : Z) (lsl_12 : bool) : Prop :=
  0 ≤ imm < 4096 ∧ (lsl_12 = false → imm mod 16 = 0).
Definition wf_epilogue_instr (i : epilogue_instr) : Prop :=
  match i with
  | Ldp m rt rt2 imm => wf_pair m rt rt2 imm
  | AddSp imm lsl_12 => wf_immediate imm lsl_12
  end.

Definition le_bytes (word : Z) : list Z :=
  [word mod 2 ^ 8; word / 2 ^ 8 mod 2 ^ 8; word / 2 ^ 16 mod 2 ^ 8; word / 2 ^ 24 mod 2 ^ 8].
Definition code (words : list Z) : list Z := concat (le_bytes <$> words).

Lemma le_bytes_word w : is_u32 w →
  match le_bytes w with
  | [b0; b1; b2; b3] => u32_from_le_bytes b0 b1 b2 b3 = w
  | _ => False
  end.
Proof.
  intros Hw. unfold le_bytes, u32_from_le_bytes. unfold_ranges. Z.to_euclidean_division_equations; lia.
Qed.

(** * Fields of the words *)

(** Solves linear goals about a word's quotients and remainders. *)
Ltac word_arith :=
  unfold_ranges; unfold pair_word, sp_word, wf_pair, wf_immediate, mode_bits in *;
  Z.to_euclidean_division_equations; lia.

(** Evaluates the tests of the goal that are closed. *)
Ltac closed_tests :=
  repeat match goal with
  | |- context [?a =? ?b] =>
      let c := eval vm_compute in (a =? b) in
      match c with
      | true => change (a =? b) with true
      | false => change (a =? b) with false
      end
  end; cbn [negb orb andb].

Lemma field_ones w lo n : 0 ≤ lo → 0 ≤ n → field w lo (Z.ones n) = w / 2 ^ lo mod 2 ^ n.
Proof.
  intros Hlo Hn. unfold field. by rewrite Z.land_ones, Z.shiftr_div_pow2.
Qed.
Lemma land_ones_field w n : 0 ≤ n → Z.land w (Z.ones n) = w mod 2 ^ n.
Proof. apply Z.land_ones. Qed.

Section PairFields.
Context (base : Z) (m : addressing) (rt rt2 imm : Z) (Hwf : wf_pair m rt rt2 imm).
Abbreviation w := (pair_word base m rt rt2 imm).

Lemma pair_high k : 22 ≤ k → Z.shiftr w k = (base + 2 * mode_bits m) / 2 ^ (k - 22).
Proof.
  intros Hk. replace k with (22 + (k - 22)) at 1 by lia.
  rewrite <- Z.shiftr_shiftr by lia. rewrite !Z.shiftr_div_pow2 by lia. f_equal.
  destruct Hwf as (? & ? & _). word_arith.
Qed.
Lemma pair_rn : field w 5 0x1f = 31.
Proof.
  change 0x1f with (Z.ones 5) at 1. rewrite field_ones by lia.
  destruct Hwf as (? & ? & _). word_arith.
Qed.
Lemma pair_rt : Z.land w 0x1f = rt.
Proof.
  change 0x1f with (Z.ones 5). rewrite Z.land_ones by lia.
  destruct Hwf as (? & ? & _). word_arith.
Qed.
Lemma pair_rt2 : field w 10 0x1f = rt2.
Proof.
  change 0x1f with (Z.ones 5). rewrite field_ones by lia.
  destruct Hwf as (? & ? & _). word_arith.
Qed.
Lemma pair_imm : field w 15 0x7f = imm mod 128.
Proof.
  change 0x7f with (Z.ones 7). rewrite field_ones by lia.
  destruct Hwf as (? & ? & _). word_arith.
Qed.
End PairFields.

(** The signed 7-bit immediate, times 8: all 128 field values. *)
Lemma imm7_cases :
  forallb (λ n, let u := Z.of_nat n in
    Z.shiftr (sext 16 (Z.shiftl u 9)) 6 =? (if u <? 64 then u else u - 128) * 8)
    (seq 0 128) = true.
Proof. by vm_compute. Qed.

Lemma imm7_times_8_signed w imm :
  field w 15 0x7f = imm mod 128 → -64 ≤ imm < 64 → imm7_times_8 w = imm * 8.
Proof.
  intros Hf Himm. unfold imm7_times_8. rewrite Hf.
  pose proof imm7_cases as Hall. rewrite forallb_forall in Hall.
  specialize (Hall (Z.to_nat (imm mod 128))).
  rewrite Z2Nat.id in Hall by (Z.to_euclidean_division_equations; lia).
  rewrite (proj1 (Z.eqb_eq _ _) (Hall ltac:(apply in_seq; Z.to_euclidean_division_equations; lia))).
  destruct (Z.ltb_spec (imm mod 128) 64); Z.to_euclidean_division_equations; lia.
Qed.

Section SpFields.
Context (base imm : Z) (lsl_12 : bool) (rd : Z).
Context (Hwf : wf_immediate imm lsl_12) (Hrd : 0 ≤ rd < 32).
Abbreviation w := (sp_word base imm lsl_12 rd).

Lemma sp_high k : 23 ≤ k → Z.shiftr w k = base / 2 ^ (k - 23).
Proof.
  intros Hk. replace k with (23 + (k - 23)) at 1 by lia.
  rewrite <- Z.shiftr_shiftr by lia. rewrite !Z.shiftr_div_pow2 by lia. f_equal.
  destruct Hwf as (? & _). destruct lsl_12; word_arith.
Qed.
Lemma sp_shift : Z.shiftr w 22 = base * 2 + (if lsl_12 then 1 else 0).
Proof.
  rewrite Z.shiftr_div_pow2 by lia. destruct Hwf as (? & _). destruct lsl_12; word_arith.
Qed.
Lemma sp_rn : field w 5 0x1f = 31.
Proof.
  change 0x1f with (Z.ones 5) at 1. rewrite field_ones by lia.
  destruct Hwf as (? & _). destruct lsl_12; word_arith.
Qed.
Lemma sp_rd : Z.land w 0x1f = rd.
Proof.
  change 0x1f with (Z.ones 5). rewrite Z.land_ones by lia.
  destruct Hwf as (? & _). destruct lsl_12; word_arith.
Qed.
Lemma sp_immediate : imm12_shifted w = immediate imm lsl_12.
Proof.
  unfold imm12_shifted, immediate. change 0xfff with (Z.ones 12). change 1 with (Z.ones 1) at 1.
  rewrite !field_ones by lia.
  replace (w / 2 ^ 10 mod 2 ^ 12) with imm
    by (destruct Hwf as (? & _); destruct lsl_12; word_arith).
  replace (w / 2 ^ 22 mod 2 ^ 1) with (if lsl_12 then 1 else 0)
    by (destruct Hwf as (? & _); destruct lsl_12; word_arith).
  destruct lsl_12; simpl; [|done]. by rewrite Z.shiftl_mul_pow2.
Qed.
End SpFields.

(** What the detectors look at in a word, which then need not be unfolded again. *)
Record pair_shape (top w : Z) (m : addressing) (rt rt2 imm : Z) : Prop := {
  pair_shape_22 : Z.shiftr w 22 = top + 2 * mode_bits m;
  pair_shape_23 : Z.shiftr w 23 = (top + 2 * mode_bits m) / 2;
  pair_shape_26 : Z.shiftr w 26 = (top + 2 * mode_bits m) / 16;
  pair_shape_rn : field w 5 0x1f = 31;
  pair_shape_rt : Z.land w 0x1f = rt;
  pair_shape_rt2 : field w 10 0x1f = rt2;
  pair_shape_imm : imm7_times_8 w = imm * 8;
}.
Lemma pair_word_shape top m rt rt2 imm :
  wf_pair m rt rt2 imm → pair_shape top (pair_word top m rt rt2 imm) m rt rt2 imm.
Proof.
  intros Hwf. split.
  - rewrite pair_high by (done || lia). apply Z.div_1_r.
  - by rewrite pair_high by (done || lia).
  - by rewrite pair_high by (done || lia).
  - by apply pair_rn.
  - by apply pair_rt.
  - by apply pair_rt2.
  - apply imm7_times_8_signed; [by apply pair_imm|apply Hwf].
Qed.

Record sp_shape (base w imm : Z) (lsl_12 : bool) (rd : Z) : Prop := {
  sp_shape_22 : Z.shiftr w 22 = base * 2 + (if lsl_12 then 1 else 0);
  sp_shape_23 : Z.shiftr w 23 = base;
  sp_shape_26 : Z.shiftr w 26 = base / 8;
  sp_shape_30 : Z.shiftr w 30 = base / 128;
  sp_shape_rn : field w 5 0x1f = 31;
  sp_shape_rd : Z.land w 0x1f = rd;
  sp_shape_imm : imm12_shifted w = immediate imm lsl_12;
}.
Lemma sp_word_shape base imm lsl_12 rd :
  wf_immediate imm lsl_12 → 0 ≤ rd < 32 →
  sp_shape base (sp_word base imm lsl_12 rd) imm lsl_12 rd.
Proof.
  intros Hwf Hrd. split.
  - by apply sp_shift.
  - rewrite sp_high by (done || lia). apply Z.div_1_r.
  - by rewrite sp_high by (done || lia).
  - by rewrite sp_high by (done || lia).
  - by apply sp_rn.
  - by apply sp_rd.
  - by apply sp_immediate.
Qed.

(** * The epilogue detector on one instruction *)

(** What the detector should remember, over unbounded integers. *)
Definition track (d : Epilogue.Detector) (i : epilogue_instr) : Epilogue.Detector :=
  match i with
  | Ldp m rt rt2 imm =>
      let loc :=
        match m with
        | PostIndex => Epilogue.sp_offset d
        | _ => Epilogue.sp_offset d + imm * 8
        end in
      let d := Epilogue.record_load (Epilogue.record_load d rt loc) rt2 (loc + 8) in
      Epilogue.mk_detector
        (if writes_back m then Epilogue.sp_offset d + imm * 8 else Epilogue.sp_offset d)
        (Epilogue.fp_offset_from_initial_sp d) (Epilogue.lr_offset_from_initial_sp d)
  | AddSp imm lsl_12 =>
      Epilogue.mk_detector (Epilogue.sp_offset d + immediate imm lsl_12)
        (Epilogue.fp_offset_from_initial_sp d) (Epilogue.lr_offset_from_initial_sp d)
  end.
Definition track_all (d : Epilogue.Detector) (l : list epilogue_instr) : Epilogue.Detector :=
  fold_left track l d.

Lemma record_load_sp d reg loc :
  Epilogue.sp_offset (Epilogue.record_load d reg loc) = Epilogue.sp_offset d.
Proof. unfold Epilogue.record_load. by repeat case_match. Qed.

Lemma wf_epilogue_word i : wf_epilogue_instr i →
  is_u32 (epilogue_word i) ∧ 0x91000000 ≤ epilogue_word i < 0xaa000000.
Proof.
  destruct i as [m rt rt2 imm|imm sh]; simpl.
  - intros (? & ? & ? & _). destruct m; word_arith.
  - intros (? & _). destruct sh; word_arith.
Qed.

Section Step.
Context `{Profile}.

Lemma record_second_load_track d reg loc :
  - 2 ^ 31 ≤ loc + 8 < 2 ^ 31 →
  Epilogue.record_second_load d reg loc = Val (Epilogue.record_load d reg (loc + 8)).
Proof.
  intros Hloc. unfold Epilogue.record_second_load.
  destruct ((reg =? 29) || (reg =? 30)) eqn:Hreg.
  - rewrite sarith_ok by range. done.
  - apply orb_false_iff in Hreg as [H29 H30]. unfold Epilogue.record_load.
    by rewrite H29, H30.
Qed.

Lemma step_load d w m rt rt2 imm :
  w < 0xaa000000 → wf_pair m rt rt2 imm → pair_shape 0x2a1 w m rt rt2 imm →
  - 2 ^ 31 + 2 ^ 25 ≤ Epilogue.sp_offset d < 2 ^ 31 - 2 ^ 25 →
  Epilogue.step_instruction d w = Val (Epilogue.NeedMore, track d (Ldp m rt rt2 imm)).
Proof.
  intros Hw (_ & _ & Himm & _) [H22 H23 H26 Hrn Hrt Hrt2 Hloc] Hd.
  unfold Epilogue.step_instruction.
  repeat match goal with |- context [w =? ?c] =>
    rewrite (proj2 (Z.eqb_neq w c)) by lia end.
  unfold field in *. rewrite H22, H23, H26, Hrn, Hrt, Hrt2, Hloc.
  destruct m; cbn [mode_bits track writes_back]; closed_tests.
  all: try rewrite sarith_ok by range; cbn [mbind may_bind].
  all: rewrite record_second_load_track by lia; cbn [mbind may_bind].
  all: unfold Epilogue.add_sp_offset; rewrite ?record_load_sp.
  all: try rewrite sarith_ok by range; cbn [mbind may_bind]; try done.
  by destruct d; unfold Epilogue.record_load; repeat case_match.
Qed.

Lemma step_add d w imm lsl_12 :
  w < 0xaa000000 → wf_immediate imm lsl_12 → sp_shape 0x122 w imm lsl_12 31 →
  - 2 ^ 31 + 2 ^ 25 ≤ Epilogue.sp_offset d < 2 ^ 31 - 2 ^ 25 →
  Epilogue.step_instruction d w = Val (Epilogue.NeedMore, track d (AddSp imm lsl_12)).
Proof.
  intros Hw (Himm & _) [H22 H23 H26 _ Hrn Hrd Hval] Hd.
  unfold Epilogue.step_instruction.
  repeat match goal with |- context [w =? ?c] =>
    rewrite (proj2 (Z.eqb_neq w c)) by lia end.
  unfold field in *. rewrite H22, H23, H26, Hrn, Hrd, Hval.
  replace (Z.land (0x122 * 2 + (if lsl_12 then 1 else 0)) 0x2f9 =? 0x2a1) with false
    by (by destruct lsl_12).
  closed_tests. unfold Epilogue.add_sp_offset.
  rewrite sarith_ok; [done|]. unfold immediate. destruct lsl_12; range.
Qed.

Lemma step_epilogue_instr d i :
  wf_epilogue_instr i → - 2 ^ 31 + 2 ^ 25 ≤ Epilogue.sp_offset d < 2 ^ 31 - 2 ^ 25 →
  Epilogue.step_instruction d (epilogue_word i) = Val (Epilogue.NeedMore, track d i).
Proof.
  intros Hwf Hd. pose proof (wf_epilogue_word i Hwf) as [_ [_ Hw]].
  destruct i as [m rt rt2 imm|imm lsl_12]; cbn [wf_epilogue_instr epilogue_word] in *.
  - apply step_load; [done|done|by apply pair_word_shape|done].
  - apply step_add; [done|done|by apply sp_word_shape|done].
Qed.
End Step.

(** * Leaving the function *)

(** A return, a tail call, or an authenticated tail call in one of its two forms. *)
Inductive leaving : Type :=
| Ret
| Retab
| Branch (offset : Z)
| AuthBranch (offset : Z)
| AuthBranchRegister (imm rn : Z).

Definition branch_word (offset : Z) : Z := 0x5 * 2 ^ 26 + offset.
Definition mov_x16_word (imm : Z) : Z := 0x1a5 * 2 ^ 23 + imm * 2 ^ 5 + 16.
Definition braa_x16_word (rn : Z) : Z := 0xd71f0800 + rn * 2 ^ 5 + 16.
(** [autibsp; eor x16, lr, lr, lsl #1; tbz x16, 0x3e, $+0x8; brk #0xc471]. *)
Definition auth_words : list Z := [0xd50323ff; 0xca1e07d0; 0xb6f00050; 0xd4388e20].

Definition leaving_words (l : leaving) : list Z :=
  match l with
  | Ret => [0xd65f03c0]
  | Retab => [0xd65f0fff]
  | Branch offset => [branch_word offset]
  | AuthBranch offset => auth_words ++ [branch_word offset]
  | AuthBranchRegister imm rn => auth_words ++ [mov_x16_word imm; braa_x16_word rn]
  end.
Definition wf_leaving (l : leaving) : Prop :=
  match l with
  | Ret | Retab => True
  | Branch offset | AuthBranch offset => 0 ≤ offset < 2 ^ 26
  | AuthBranchRegister imm rn => 0 ≤ imm < 2 ^ 18 ∧ 0 ≤ rn < 32
  end.

Lemma leaving_words_u32 l : wf_leaving l → Forall is_u32 (leaving_words l).
Proof.
  unfold wf_leaving. destruct l as [| |o|o|imm rn]; intros Hwf;
    cbn [leaving_words auth_words app]; repeat constructor; try range;
    unfold branch_word, mov_x16_word, braa_x16_word; range.
Qed.

Lemma branch_high offset : 0 ≤ offset < 2 ^ 26 → Z.shiftr (branch_word offset) 26 = 0x5.
Proof. intros. rewrite Z.shiftr_div_pow2 by lia. unfold branch_word. word_arith. Qed.

Lemma mov_x16_fields imm : 0 ≤ imm < 2 ^ 18 →
  Z.shiftr (mov_x16_word imm) 23 = 0x1a5 ∧ Z.shiftr (mov_x16_word imm) 26 = 0x34 ∧
  Z.land (mov_x16_word imm) 0x1f = 16 ∧ 0xd2800010 ≤ mov_x16_word imm < 0xd3000000.
Proof.
  intros. change 0x1f with (Z.ones 5). rewrite Z.land_ones, !Z.shiftr_div_pow2 by lia.
  unfold mov_x16_word. split_and!; word_arith.
Qed.

Lemma land_at_most a b : 0 ≤ a → Z.land a b ≤ a.
Proof.
  intros Ha. apply Z.ldiff_le; [done|]. apply Z.bits_inj'. intros n Hn.
  rewrite Z.ldiff_spec, Z.land_spec, Z.bits_0. by destruct (Z.testbit a n), (Z.testbit b n).
Qed.

(** [braa xN, x16], for the 32 registers. *)
Lemma braa_cases rn : 0 ≤ rn < 32 →
  let w := braa_x16_word rn in
  (Z.land w 0xfffffc00 =? 0xd71f0800) && (Z.land w 0x1f =? 16) = true ∧
  Epilogue.analyze_instruction w = Epilogue.CouldBePartOfAuthTailCall 20.
Proof.
  intros Hrn w.
  assert (Hall : forallb (λ n, let w := braa_x16_word (Z.of_nat n) in
    (Z.land w 0xfffffc00 =? 0xd71f0800) && (Z.land w 0x1f =? 16) &&
    match Epilogue.analyze_instruction w with
    | Epilogue.CouldBePartOfAuthTailCall o => o =? 20 | _ => false end) (seq 0 32) = true)
    by (by vm_compute).
  rewrite forallb_forall in Hall. specialize (Hall (Z.to_nat rn)).
  rewrite Z2Nat.id in Hall by lia.
  specialize (Hall ltac:(apply in_seq; lia)). fold w in Hall.
  apply andb_true_iff in Hall as [Hw Ho]. split; [done|].
  destruct (Epilogue.analyze_instruction w) as [| |o|]; try done.
  by apply Z.eqb_eq in Ho as ->.
Qed.

Lemma analyze_branch offset : 0 ≤ offset < 2 ^ 26 →
  Epilogue.analyze_instruction (branch_word offset) = Epilogue.CouldBeTailCall 16.
Proof.
  intros Ho. unfold Epilogue.analyze_instruction. rewrite branch_high by done.
  repeat match goal with |- context [branch_word offset =? ?c] =>
    rewrite (proj2 (Z.eqb_neq (branch_word offset) c)) by (unfold branch_word; lia) end.
  done.
Qed.

Lemma analyze_mov_x16 imm : 0 ≤ imm < 2 ^ 18 →
  Epilogue.analyze_instruction (mov_x16_word imm) = Epilogue.CouldBePartOfAuthTailCall 16.
Proof.
  intros Himm. destruct (mov_x16_fields imm Himm) as (H23 & H26 & Hreg & Hw).
  revert H23 H26 Hreg Hw. generalize (mov_x16_word imm) as w. intros w H23 H26 Hreg Hw.
  pose proof (land_at_most w 0xfffffc1f). unfold Epilogue.analyze_instruction, field.
  rewrite H23, H26, Hreg.
  repeat match goal with |- context [w =? ?c] => rewrite (proj2 (Z.eqb_neq w c)) by lia end.
  rewrite (proj2 (Z.eqb_neq (Z.land w _) 0xd61f0000)) by lia. done.
Qed.

Lemma code_cons w ws : code (w :: ws) = le_bytes w ++ code ws.
Proof. done. Qed.
Lemma code_app ws ws' : code (ws ++ ws') = code ws ++ code ws'.
Proof. unfold code. by rewrite fmap_app, concat_app. Qed.
Lemma length_code ws : Z.of_nat (length (code ws)) = 4 * Z.of_nat (length ws).
Proof. induction ws as [|w ws IH]; [done|]. rewrite code_cons, length_app. simpl length. lia. Qed.

Lemma next_word_code w ws rest : is_u32 w →
  next_word (code (w :: ws) ++ rest) = Some (w, code ws ++ rest).
Proof. intros Hw%le_bytes_word. unfold code, next_word. simpl. simpl in Hw. by rewrite Hw. Qed.

(** The words of an authenticated tail call are recognised. *)
Lemma auth_tail_call_code l tail rest :
  wf_leaving l → leaving_words l = auth_words ++ tail → 
  Epilogue.is_auth_tail_call (code (drop 1 (leaving_words l)) ++ rest) = true.
Proof.
  destruct l as [| |o|o|imm rn]; try done; intros Hwf _; cbn [leaving_words auth_words app drop].
  - unfold Epilogue.is_auth_tail_call.
    change (drop 12 _) with (code [branch_word o] ++ rest).
    rewrite next_word_code by (unfold branch_word; simpl in Hwf; range).
    change (take 12 _) with Epilogue.eor_tbz_brk. rewrite bool_decide_true by done.
    by rewrite branch_high by done.
  - destruct Hwf as [Himm Hrn]. destruct (mov_x16_fields imm Himm) as (H23 & H26 & Hreg & Hw).
    destruct (braa_cases rn Hrn) as [Hbraa _]. unfold Epilogue.is_auth_tail_call.
    change (drop 12 _) with (code [mov_x16_word imm; braa_x16_word rn] ++ rest).
    rewrite next_word_code by range.
    change (take 12 _) with Epilogue.eor_tbz_brk. rewrite bool_decide_true by done.
    rewrite next_word_code by (unfold braa_x16_word; range).
    rewrite H26, H23, Hreg. exact Hbraa.
Qed.

(** * The epilogue detector on a whole epilogue *)

Lemma analyze_epilogue_instr i : wf_epilogue_instr i →
  Epilogue.analyze_instruction (epilogue_word i) = Epilogue.VeryLikelyPartOfEpilogue.
Proof.
  intros Hwf. pose proof (wf_epilogue_word i Hwf) as [_ Hw].
  destruct i as [m rt rt2 imm|imm lsl_12]; cbn [wf_epilogue_instr epilogue_word] in *.
  - pose proof (pair_word_shape 0x2a1 m rt rt2 imm Hwf) as [H22 H23 H26 Hrn Hrt _ _].
    revert Hw H22 H23 H26 Hrn Hrt. generalize (pair_word 0x2a1 m rt rt2 imm) as w.
    intros w Hw H22 H23 H26 Hrn Hrt.
    pose proof (land_at_most w 0xfffffc1f). pose proof (land_at_most w 0xfffffc00).
    unfold Epilogue.analyze_instruction, field in *. rewrite H22, H23, H26, Hrn.
    repeat match goal with |- context [w =? ?c] => rewrite (proj2 (Z.eqb_neq w c)) by lia end.
    rewrite (proj2 (Z.eqb_neq (Z.land w 0xfffffc1f) _)) by lia.
    rewrite (proj2 (Z.eqb_neq (Z.land w 0xfffffc00) _)) by lia.
    destruct m; cbn [mode_bits]; closed_tests; done.
  - pose proof (sp_word_shape 0x122 imm lsl_12 31 Hwf ltac:(lia)) as [H22 H23 H26 _ Hrn Hrd _].
    revert Hw H22 H23 H26 Hrn Hrd. generalize (sp_word 0x122 imm lsl_12 31) as w.
    intros w Hw H22 H23 H26 Hrn Hrd.
    pose proof (land_at_most w 0xfffffc1f). pose proof (land_at_most w 0xfffffc00).
    unfold Epilogue.analyze_instruction, field in *. rewrite H22, H23, H26, Hrn, Hrd.
    repeat match goal with |- context [w =? ?c] => rewrite (proj2 (Z.eqb_neq w c)) by lia end.
    rewrite (proj2 (Z.eqb_neq (Z.land w 0xfffffc1f) _)) by lia.
    rewrite (proj2 (Z.eqb_neq (Z.land w 0xfffffc00) _)) by lia.
    destruct lsl_12; closed_tests; done.
Qed.

Lemma track_bound d i : wf_epilogue_instr i →
  - 2 ^ 24 ≤ Epilogue.sp_offset (track d i) - Epilogue.sp_offset d ≤ 2 ^ 24.
Proof.
  destruct i as [m rt rt2 imm|imm sh]; simpl.
  - intros (_ & _ & ? & _). rewrite !record_load_sp. destruct (writes_back m); lia.
  - intros (? & _). unfold immediate. destruct sh; lia.
Qed.

Section Loop.
Context `{Profile}.

(** The loop from one instruction to the word after the last. *)
Lemma analyze_loop_code d i l w rest :
  Forall wf_epilogue_instr (i :: l) → is_u32 w →
  - 2 ^ 31 + 2 ^ 25 + 2 ^ 24 * Z.of_nat (length l) ≤ Epilogue.sp_offset d
    < 2 ^ 31 - 2 ^ 25 - 2 ^ 24 * Z.of_nat (length l) →
  Epilogue.analyze_loop d (epilogue_word i)
    (code ((epilogue_word <$> l) ++ [w]) ++ rest) =
  Epilogue.analyze_loop (track_all d (i :: l)) w rest.
Proof.
  revert d i. induction l as [|j l IH]; intros d i Hwf Hw Hd.
  - apply Forall_cons in Hwf as [Hi _]. unfold code. cbn [fmap list_fmap app concat].
    pose proof (le_bytes_word w Hw) as Hle. unfold le_bytes in Hle |- *. cbn [app].
    cbn [Epilogue.analyze_loop]. rewrite step_epilogue_instr by (done || (simpl in Hd; lia)).
    cbn [mbind may_bind]. by rewrite Hle.
  - apply Forall_cons in Hwf as [Hi Hl]. pose proof (track_bound d i Hi).
    pose proof Hl as Hl'. apply Forall_cons in Hl' as [Hj _].
    rewrite length_cons in Hd. cbn [fmap list_fmap app]. rewrite code_cons.
    pose proof (le_bytes_word (epilogue_word j) (proj1 (wf_epilogue_word j Hj))) as Hle.
    unfold le_bytes in Hle |- *. cbn [app Epilogue.analyze_loop].
    rewrite step_epilogue_instr by (done || lia). cbn [mbind may_bind]. rewrite Hle.
    by rewrite IH by (done || lia).
Qed.

(** What the detector has found when it reaches the instruction that leaves. *)
Definition found (d : Epilogue.Detector) : Epilogue.EpilogueResult :=
  Epilogue.FoundReturnOrTailCall (Epilogue.sp_offset d)
    (Epilogue.fp_offset_from_initial_sp d) (Epilogue.lr_offset_from_initial_sp d).

Lemma analyze_loop_unfold d w bytes :
  Epilogue.analyze_loop d w bytes =
  ('(step, d) ← Epilogue.step_instruction d w;
   match step with
   | Epilogue.NeedMore =>
       match bytes with
       | b0 :: b1 :: b2 :: b3 :: rest =>
           Epilogue.analyze_loop d (u32_from_le_bytes b0 b1 b2 b3) rest
       | _ => Val Epilogue.ReachedFunctionEndWithoutReturn
       end
   | Epilogue.FoundBodyInstruction uit => Val (Epilogue.ProbablyStillInBody uit)
   | Epilogue.FoundReturn | Epilogue.FoundTailCall => Val (found d)
   | Epilogue.CouldBeAuthTailCall =>
       if negb (Epilogue.is_auth_tail_call bytes)
       then Val (Epilogue.ProbablyStillInBody Epilogue.AutibspNotFollowedByExpectedTailCall)
       else Val (found d)
   end).
Proof. by destruct bytes. Qed.

Lemma analyze_loop_leaving d l w ws rest :
  wf_leaving l → leaving_words l = w :: ws →
  (∀ o, l = Branch o → Epilogue.sp_offset d ≠ 0) →
  Epilogue.analyze_loop d w (code ws ++ rest) = Val (found d).
Proof.
  intros Hwf Hl Hsp. rewrite analyze_loop_unfold.
  destruct l as [| |o|o|imm rn]; simpl in Hl; injection Hl as <- <-.
  - done.
  - done.
  - unfold Epilogue.step_instruction. rewrite branch_high by done.
    repeat match goal with |- context [branch_word o =? ?c] =>
      rewrite (proj2 (Z.eqb_neq (branch_word o) c))
        by (simpl in Hwf; unfold branch_word; lia) end.
    cbn [orb]. rewrite (proj2 (Z.eqb_neq (Epilogue.sp_offset d) 0)) by eauto. done.
  - pose proof (auth_tail_call_code (AuthBranch o) [branch_word o] rest Hwf eq_refl) as Ha.
    cbn [leaving_words auth_words app drop] in Ha. change (Epilogue.step_instruction d _)
      with (Val (Epilogue.CouldBeAuthTailCall, d)). cbn [mbind may_bind]. by rewrite Ha.
  - pose proof (auth_tail_call_code (AuthBranchRegister imm rn)
      [mov_x16_word imm; braa_x16_word rn] rest Hwf eq_refl) as Ha.
    cbn [leaving_words auth_words app drop] in Ha. change (Epilogue.step_instruction d _)
      with (Val (Epilogue.CouldBeAuthTailCall, d)). cbn [mbind may_bind]. by rewrite Ha.
Qed.
End Loop.

(** Whether an instruction moves the stack pointer. *)
Definition adjusts_sp (i : epilogue_instr) : bool :=
  match i with Ldp m _ _ _ => writes_back m | AddSp _ _ => true end.

Lemma adjusts_stack_pointer i : wf_epilogue_instr i → adjusts_sp i = true →
  Epilogue.instruction_adjusts_stack_pointer (epilogue_word i) = true.
Proof.
  destruct i as [m rt rt2 imm|imm lsl_12]; cbn [wf_epilogue_instr epilogue_word adjusts_sp].
  - intros Hwf Hm. pose proof (pair_word_shape 0x2a1 m rt rt2 imm Hwf) as [H22 H23 _ Hrn _ _ _].
    revert H22 H23 Hrn. generalize (pair_word 0x2a1 m rt rt2 imm) as w. intros w H22 H23 Hrn.
    unfold Epilogue.instruction_adjusts_stack_pointer, field in *. rewrite H22, Hrn.
    by destruct m.
  - intros Hwf _.
    pose proof (sp_word_shape 0x122 imm lsl_12 31 Hwf ltac:(lia)) as [_ H23 _ _ Hrn Hrd _].
    revert H23 Hrn Hrd. generalize (sp_word 0x122 imm lsl_12 31) as w. intros w H23 Hrn Hrd.
    unfold Epilogue.instruction_adjusts_stack_pointer, field in *. rewrite H23, Hrn, Hrd.
    apply orb_true_r.
Qed.

Lemma slice_from_code before ws after k : (k ≤ length ws)%nat →
  slice_from (before ++ code ws ++ after) (Z.of_nat (length before) + 4 * Z.of_nat k) =
    Val (code (drop k ws) ++ after).
Proof.
  intros Hk. unfold slice_from. rewrite !length_app. pose proof (length_code ws).
  rewrite (proj2 (Z.leb_le _ _)), (proj2 (Z.leb_le _ _)) by lia. cbn [andb]. f_equal.
  rewrite drop_app_ge by lia.
  rewrite <- (take_drop k ws) at 1. rewrite code_app, <- app_assoc.
  pose proof (length_code (take k ws)) as Hl. rewrite length_take_le in Hl by done.
  rewrite drop_app_length'; [done|lia].
Qed.

Lemma slice_range_code before ws w after :
  slice_range (before ++ code (ws ++ [w]) ++ after)
    (Z.of_nat (length before) + 4 * Z.of_nat (length ws + 1) - 4)
    (Z.of_nat (length before) + 4 * Z.of_nat (length ws + 1)) = Val (le_bytes w).
Proof.
  unfold slice_range, slice_get. rewrite !length_app. pose proof (length_code (ws ++ [w])) as Hc.
  rewrite length_app in Hc. simpl length in Hc.
  rewrite !(proj2 (Z.leb_le _ _)) by lia. cbn [andb]. f_equal.
  rewrite drop_app_ge by lia. rewrite code_app, <- app_assoc.
  pose proof (length_code ws). rewrite drop_app_length' by lia.
  unfold code. simpl concat. rewrite take_app_length'; [done|].
  unfold le_bytes. simpl length. lia.
Qed.

Section Slice.
Context `{Profile}.
Context (before after : list Z) (l : list epilogue_instr) (lv : leaving).
Context (Hl : Forall wf_epilogue_instr l) (Hlv : wf_leaving lv) (Hlen : (length l ≤ 125)%nat).
Abbreviation words := ((epilogue_word <$> l) ++ leaving_words lv).
Abbreviation text := (before ++ code words ++ after).

(** Inside an authenticated tail call, at its [j]-th word. *)
Lemma auth_tail_call_here tail j :
  leaving_words lv = auth_words ++ tail →
  Epilogue.auth_tail_call_at text
    (Z.of_nat (length before) + 4 * Z.of_nat (length l + j)) (4 * Z.of_nat j) = Val true.
Proof.
  intros Hw. unfold Epilogue.auth_tail_call_at.
  rewrite (proj2 (Z.leb_le _ _)) by lia.
  replace (_ + 4 * Z.of_nat (length l + j) - 4 * Z.of_nat j)
    with (Z.of_nat (length before) + 4 * Z.of_nat (length l)) by lia.
  rewrite slice_from_code by (rewrite length_app, length_fmap; lia).
  rewrite drop_app_length' by (by rewrite length_fmap). cbn [mbind may_bind].
  assert (Hs : ∃ rest, code (leaving_words lv) ++ after = [0xff; 0x23; 0x03; 0xd5] ++ rest ∧
    rest = code (drop 1 (leaving_words lv)) ++ after).
  { rewrite Hw. by eexists. }
  destruct Hs as (rest & -> & ->). unfold slice_range, slice_get. rewrite length_app.
  rewrite !(proj2 (Z.leb_le _ _)) by (simpl; lia). cbn [andb].
  change (take _ (drop _ _)) with [0xff; 0x23; 0x03; 0xd5]. cbn [mbind may_bind].
  rewrite bool_decide_true by done. rewrite drop_app_length' by done.
  by rewrite (auth_tail_call_code lv tail).
Qed.

(** What remains of the epilogue after its first [k] instructions. *)
Definition remaining (k : nat) : Epilogue.Detector := track_all Epilogue.new (drop k l).

(** A plain branch leaves the function only if the stack pointer moves before it. *)
Definition tail_call_ok (k : nat) : Prop :=
  ∀ o, lv = Branch o →
    Epilogue.sp_offset (remaining k) ≠ 0 ∨
    (k = length l ∧ ∃ i, last l = Some i ∧ adjusts_sp i = true).

Lemma analyze_slice_instr k : (k < length l)%nat → tail_call_ok k →
  Epilogue.analyze_slice Epilogue.new text (Z.of_nat (length before) + 4 * Z.of_nat k) =
    Val (found (remaining k)).
Proof.
  intros Hk Htail. unfold Epilogue.analyze_slice.
  rewrite slice_from_code by (rewrite length_app, length_fmap; lia).
  rewrite drop_app_le by (rewrite length_fmap; lia). rewrite <- fmap_drop.
  destruct (drop k l) as [|i l'] eqn:Hd.
  { apply (f_equal length) in Hd. rewrite length_drop in Hd. simpl in Hd. lia. }
  assert (Hl' : Forall wf_epilogue_instr (i :: l')) by (rewrite <- Hd; by apply Forall_drop).
  assert (Hlen' : (length l' < 125)%nat).
  { apply (f_equal length) in Hd. rewrite length_drop in Hd. simpl in Hd. lia. }
  apply Forall_cons in Hl' as Hi. destruct Hi as [Hi _].
  cbn [fmap list_fmap app mbind may_bind].
  rewrite next_word_code by (by apply wf_epilogue_word). rewrite analyze_epilogue_instr by done.
  destruct (leaving_words lv) as [|w ws] eqn:Hw; [by destruct lv|].
  assert (Hw32 : is_u32 w).
  { pose proof (leaving_words_u32 lv Hlv) as Hws. rewrite Hw in Hws.
    by apply Forall_cons in Hws as [? _]. }
  change (w :: ws) with ([w] ++ ws). rewrite app_assoc, code_app, <- app_assoc.
  rewrite analyze_loop_code by (done || simpl; lia).
  unfold tail_call_ok, remaining in *. rewrite Hd in *.
  apply (analyze_loop_leaving _ lv w ws); [done|done|].
  intros o Ho. destruct (Htail o Ho) as [Hne|[-> _]]; [done|lia].
Qed.

(** At a return. *)
Lemma analyze_slice_return w :
  leaving_words lv = [w] → lv = Ret ∨ lv = Retab →
  Epilogue.analyze_slice Epilogue.new text
    (Z.of_nat (length before) + 4 * Z.of_nat (length l)) = Val Epilogue.at_return.
Proof.
  intros Hw Hret. unfold Epilogue.analyze_slice.
  rewrite slice_from_code by (rewrite length_app, length_fmap; lia).
  rewrite drop_app_length' by (by rewrite length_fmap). cbn [mbind may_bind].
  pose proof (leaving_words_u32 _ Hlv) as Hu32. rewrite Hw in Hu32 |- *.
  apply Forall_cons in Hu32 as [Hu32 _]. rewrite next_word_code by done.
  rewrite analyze_loop_unfold.
  destruct Hret as [Hret|Hret]; rewrite Hret in Hw; injection Hw as <-; reflexivity.
Qed.

(** At a branch after the stack pointer moved. *)
Lemma analyze_slice_branch o i :
  lv = Branch o → last l = Some i → adjusts_sp i = true →
  Epilogue.analyze_slice Epilogue.new text
    (Z.of_nat (length before) + 4 * Z.of_nat (length l)) = Val Epilogue.at_return.
Proof.
  intros Hb Hlast Hadj. pose proof Hlv as Hwf. rewrite Hb in Hwf. unfold Epilogue.analyze_slice.
  rewrite slice_from_code by (rewrite length_app, length_fmap; lia).
  rewrite drop_app_length' by (by rewrite length_fmap). cbn [mbind may_bind].
  pose proof (leaving_words_u32 _ Hwf) as Hu32. apply Forall_cons in Hu32 as [Hu32 _].
  rewrite Hb. cbn [leaving_words].
  rewrite next_word_code by done. rewrite analyze_branch by done.
  destruct (auth_tail_call_at_returns
    (before ++ code ((epilogue_word <$> l) ++ [branch_word o]) ++ after)
    (Z.of_nat (length before) + 4 * Z.of_nat (length l)) 16) as [auth Hauth];
    [lia|lia| |].
  { pose proof (length_code ((epilogue_word <$> l) ++ [branch_word o])) as Hc.
    rewrite !length_app, length_fmap in *. cbn [length] in *. lia. }
  rewrite Hauth. cbn [mbind may_bind]. destruct auth; [done|].
  apply last_Some in Hlast as [l' Hl']. pose proof Hl as Hi. rewrite Hl' in Hi |- *.
  apply Forall_app in Hi as [_ Hi].
  apply Forall_cons in Hi as [Hi _].
  rewrite (proj2 (Z.leb_le _ _)) by (rewrite length_app; simpl; lia).
  rewrite fmap_app, code_app, <- app_assoc. cbn [fmap list_fmap].
  pose proof (slice_range_code before (epilogue_word <$> l') (epilogue_word i)
    (code [branch_word o] ++ after)) as Hprev.
  rewrite length_fmap in Hprev. rewrite length_app. cbn [length]. rewrite Hprev.
  cbn [mbind may_bind].
  pose proof (next_word_code (epilogue_word i) [] [] (proj1 (wf_epilogue_word i Hi))) as Hnw.
  rewrite app_nil_r in Hnw. cbn [code fmap list_fmap concat] in Hnw. rewrite app_nil_r in Hnw.
  rewrite Hnw. by rewrite adjusts_stack_pointer.
Qed.

Lemma analyze_auth_word tail j w :
  leaving_words lv = auth_words ++ tail → leaving_words lv !! j = Some w →
  Epilogue.analyze_instruction w = Epilogue.CouldBePartOfAuthTailCall (4 * Z.of_nat j) ∨
  Epilogue.analyze_instruction w = Epilogue.CouldBeTailCall (4 * Z.of_nat j).
Proof.
  intros Hw Hj. destruct lv as [| |o|o|imm rn]; simpl in Hw; try done;
    cbn [leaving_words auth_words app] in Hj;
    do 4 (destruct j as [|j]; [injection Hj as <-; by left|]).
  - destruct j as [|j]; [|done]. injection Hj as <-. right. by apply analyze_branch.
  - destruct Hlv as [Himm Hrn]. destruct j as [|[|j]]; [..|done]; injection Hj as <-; left.
    + by apply analyze_mov_x16.
    + by apply braa_cases.
Qed.

(** Anywhere in an authenticated tail call. *)
Lemma analyze_slice_auth tail j :
  leaving_words lv = auth_words ++ tail → (j < length (leaving_words lv))%nat →
  Epilogue.analyze_slice Epilogue.new text
    (Z.of_nat (length before) + 4 * Z.of_nat (length l + j)) = Val Epilogue.at_return.
Proof.
  intros Hw Hj. unfold Epilogue.analyze_slice.
  rewrite slice_from_code by (rewrite length_app, length_fmap; lia).
  rewrite drop_app_ge by (rewrite length_fmap; lia). rewrite length_fmap.
  replace (length l + j - length l)%nat with j by lia. cbn [mbind may_bind].
  destruct (lookup_lt_is_Some_2 _ _ Hj) as [w Hjw].
  pose proof (leaving_words_u32 _ Hlv) as Hu32.
  rewrite (drop_S _ w) by done. rewrite next_word_code by (by eapply Forall_lookup_1).
  destruct (analyze_auth_word tail j w Hw Hjw) as [-> | ->];
    by rewrite (auth_tail_call_here tail j Hw).
Qed.

(** Anywhere in the epilogue. *)
Lemma analyze_slice_epilogue k :
  (k < length l + length (leaving_words lv))%nat → tail_call_ok k →
  Epilogue.analyze_slice Epilogue.new text (Z.of_nat (length before) + 4 * Z.of_nat k) =
    Val (found (remaining k)).
Proof.
  intros Hk Htail. destruct (decide (k < length l)%nat) as [|Hge]; [by apply analyze_slice_instr|].
  replace (found (remaining k)) with Epilogue.at_return
    by (unfold remaining; by rewrite drop_ge by lia).
  assert (Hcases : (lv = Ret ∨ lv = Retab) ∨ (∃ o, lv = Branch o) ∨
    ∃ tail, leaving_words lv = auth_words ++ tail).
  { clear. destruct lv; eauto. }
  destruct Hcases as [Hret|[[o Hb]|[tail Hauth]]].
  - assert (Hw : ∃ w, leaving_words lv = [w]) by (destruct Hret as [-> | ->]; by eexists).
    destruct Hw as [w Hw]. rewrite Hw in Hk. simpl in Hk.
    replace k with (length l) in * by lia. by apply (analyze_slice_return w).
  - rewrite Hb in Hk. simpl in Hk. replace k with (length l) in * by lia.
    destruct (Htail o Hb) as [Hne|(_ & i & Hlast & Hadj)].
    + unfold remaining in Hne. by rewrite drop_all in Hne.
    + by apply (analyze_slice_branch o i).
  - replace k with (length l + (k - length l))%nat by lia.
    apply (analyze_slice_auth tail); [done|lia].
Qed.
End Slice.

(** * Running an epilogue *)

(** A load into a register: of the registers only [fp] and [lr] are followed. *)
Definition load (mem : Z → option Z) (reg a : Z) (r : UnwindRegsAarch64) :
    option UnwindRegsAarch64 :=
  if reg =? 29 then f ← mem a; Some (set_fp r f)
  else if reg =? 30 then l ← mem a; Some (mk_regs (lr_mask r) l (sp r) (fp r))
  else Some r.

Definition run_epilogue_instr (mem : Z → option Z) (i : epilogue_instr)
    (r : UnwindRegsAarch64) : option UnwindRegsAarch64 :=
  match i with
  | Ldp m rt rt2 imm =>
      let a := match m with PostIndex => sp r | _ => sp r + imm * 8 end in
      r1 ← load mem rt a r;
      r2 ← load mem rt2 (a + 8) r1;
      Some (if writes_back m then set_sp r2 (sp r + imm * 8) else r2)
  | AddSp imm lsl_12 => Some (set_sp r (sp r + immediate imm lsl_12))
  end.
Fixpoint run_epilogue (mem : Z → option Z) (l : list epilogue_instr)
    (r : UnwindRegsAarch64) : option UnwindRegsAarch64 :=
  match l with
  | [] => Some r
  | i :: l => r ← run_epilogue_instr mem i r; run_epilogue mem l r
  end.

(** A register that is read from a slot of the initial stack frame, or kept. *)
Definition restored (mem : Z → option Z) (base : Z) (slot : option Z) (old new : Z) : Prop :=
  match slot with Some o => mem (base + o) = Some new | None => new = old end.

(** The detector's offsets describe the machine's registers. *)
Record simulates (mem : Z → option Z) (r0 : UnwindRegsAarch64) (d : Epilogue.Detector)
    (r : UnwindRegsAarch64) : Prop := {
  simulates_sp : sp r = sp r0 + Epilogue.sp_offset d;
  simulates_fp : restored mem (sp r0) (Epilogue.fp_offset_from_initial_sp d) (fp r0) (fp r);
  simulates_lr : restored mem (sp r0) (Epilogue.lr_offset_from_initial_sp d) (lr r0) (lr r);
}.

Lemma simulates_load mem r0 d r reg a r' :
  simulates mem r0 d r → load mem reg a r = Some r' →
  simulates mem r0 (Epilogue.record_load d reg (a - sp r0)) r' ∧ sp r' = sp r.
Proof.
  intros [Hsp Hfp Hlr]. unfold load, Epilogue.record_load.
  destruct (reg =? 29); [|destruct (reg =? 30)].
  - intros (f & Hf & [= <-])%bind_Some. split; [|done].
    split; cbn; [done| |done]. by rewrite Zplus_minus.
  - intros (f & Hf & [= <-])%bind_Some. split; [|done].
    split; cbn; [done|done|]. by rewrite Zplus_minus.
  - by intros [= <-].
Qed.

Lemma simulates_instr mem r0 d r i r' :
  simulates mem r0 d r → run_epilogue_instr mem i r = Some r' →
  simulates mem r0 (track d i) r'.
Proof.
  intros Hsim. pose proof (simulates_sp _ _ _ _ Hsim) as Hsp.
  destruct i as [m rt rt2 imm|imm lsl_12]; cbn [run_epilogue_instr track].
  - set (loc := match m with PostIndex => _ | _ => Epilogue.sp_offset d + _ end).
    replace (match m with PostIndex => sp r | _ => sp r + imm * 8 end) with (sp r0 + loc)
      by (subst loc; destruct m; lia).
    intros (r1 & H1 & (r2 & H2 & [= <-])%bind_Some)%bind_Some.
    destruct (simulates_load _ _ _ _ _ _ _ Hsim H1) as [Hsim1 Hsp1].
    destruct (simulates_load _ _ _ _ _ _ _ Hsim1 H2) as [[Hs Hf Hl] Hsp2].
    replace (sp r0 + loc - sp r0) with loc in * by lia.
    replace (sp r0 + loc + 8 - sp r0) with (loc + 8) in * by lia.
    rewrite !record_load_sp in *. split; destruct (writes_back m); cbn; try done; lia.
  - intros [= <-]. destruct Hsim as [_ Hf Hl]. split; cbn; [lia|done|done].
Qed.

Lemma simulates_run mem r0 l d r r' :
  simulates mem r0 d r → run_epilogue mem l r = Some r' →
  simulates mem r0 (track_all d l) r'.
Proof.
  revert d r. induction l as [|i l IH]; intros d r Hsim; cbn [run_epilogue].
  - by intros [= <-].
  - intros (r1 & H1 & H2)%bind_Some. apply (IH (track d i) r1); [|done].
    by eapply simulates_instr.
Qed.

(** The stack pointer and the slots stay aligned. *)
Definition slot_aligned (slot : option Z) : Prop :=
  match slot with Some o => o mod 8 = 0 | None => True end.
Record aligned (d : Epilogue.Detector) : Prop := {
  aligned_sp : Epilogue.sp_offset d mod 16 = 0;
  aligned_fp : slot_aligned (Epilogue.fp_offset_from_initial_sp d);
  aligned_lr : slot_aligned (Epilogue.lr_offset_from_initial_sp d);
}.

Lemma aligned_load d reg loc : aligned d → loc mod 8 = 0 → aligned (Epilogue.record_load d reg loc).
Proof.
  intros [Hsp Hf Hl] Hloc. unfold Epilogue.record_load.
  destruct (reg =? 29); [by split|]. destruct (reg =? 30); by split.
Qed.

Lemma aligned_track d i : wf_epilogue_instr i → aligned d → aligned (track d i).
Proof.
  intros Hwf Hd. pose proof (aligned_sp _ Hd) as Hsp.
  destruct i as [m rt rt2 imm|imm lsl_12]; cbn [track wf_epilogue_instr] in *.
  - destruct Hwf as (_ & _ & _ & Heven).
    set (loc := match m with PostIndex => _ | _ => _ + _ end).
    assert (Hloc : loc mod 8 = 0)
      by (subst loc; destruct m; Z.to_euclidean_division_equations; lia).
    assert (Hload : aligned (Epilogue.record_load (Epilogue.record_load d rt loc) rt2 (loc + 8))).
    { apply aligned_load; [by apply aligned_load|]. Z.to_euclidean_division_equations; lia. }
    destruct Hload as [_ Hf Hl]. split; cbn; [|done|done]. rewrite ?record_load_sp.
    destruct (writes_back m) eqn:Hwb; [|done].
    specialize (Heven eq_refl). Z.to_euclidean_division_equations; lia.
  - destruct Hd as [_ Hf Hl], Hwf as [_ Himm]. split; cbn; [|done|done]. unfold immediate.
    destruct lsl_12; [Z.to_euclidean_division_equations; lia|].
    specialize (Himm eq_refl). Z.to_euclidean_division_equations; lia.
Qed.

Lemma aligned_track_all l d : Forall wf_epilogue_instr l → aligned d → aligned (track_all d l).
Proof.
  revert d. induction l as [|i l IH]; intros d Hwf Hd; [done|].
  apply Forall_cons in Hwf as [Hi Hl]. apply IH; [done|]. by apply aligned_track.
Qed.

(** Which epilogues have a rule: the stack pointer ends at or above its start and within a
    megabyte, the slots fit, and no epilogue restores only the frame pointer. *)
Definition slot_fits (slot : option Z) : Prop :=
  match slot with Some o => - 2 ^ 18 ≤ o < 2 ^ 18 | None => True end.
Definition representable (d : Epilogue.Detector) : Prop :=
  0 ≤ Epilogue.sp_offset d < 2 ^ 20 ∧
  (Epilogue.lr_offset_from_initial_sp d = None →
   Epilogue.fp_offset_from_initial_sp d = None) ∧
  slot_fits (Epilogue.fp_offset_from_initial_sp d) ∧
  slot_fits (Epilogue.lr_offset_from_initial_sp d).

(** The rule made from what the detector found. *)
Definition rule_of_found (d : Epilogue.Detector) : option UnwindRuleAarch64 :=
  sp_offset_by_16 ← checked_uint 16 (Z.quot (Epilogue.sp_offset d) 16);
  match Epilogue.fp_offset_from_initial_sp d, Epilogue.lr_offset_from_initial_sp d with
  | None, None => if sp_offset_by_16 =? 0 then Some NoOp else Some (OffsetSp sp_offset_by_16)
  | None, Some lr_offset =>
      y ← checked_sint 16 (Z.quot lr_offset 8); Some (OffsetSpAndRestoreLr sp_offset_by_16 y)
  | Some _, None => None
  | Some fp_offset, Some lr_offset =>
      y ← checked_sint 16 (Z.quot fp_offset 8);
      z ← checked_sint 16 (Z.quot lr_offset 8);
      Some (OffsetSpAndRestoreFpAndLr sp_offset_by_16 y z)
  end.

Lemma quot_slot o : slot_aligned (Some o) →
  match checked_sint 16 (Z.quot o 8) with
  | Some y => slot_fits (Some o) ∧ y * 8 = o
  | None => ¬ slot_fits (Some o)
  end.
Proof.
  simpl. intros Ho.
  assert (Hq : Z.quot o 8 = o / 8) by (Z.to_euclidean_division_equations; lia).
  rewrite Hq. unfold checked_sint. destruct (in_sint_spec 16 (o / 8)) as [Hs|Hs]; unfold_ranges.
  - Z.to_euclidean_division_equations; lia.
  - intros Hfit. apply Hs. Z.to_euclidean_division_equations; lia.
Qed.

Lemma quot_sp o : o mod 16 = 0 →
  match checked_uint 16 (Z.quot o 16) with
  | Some x => 0 ≤ o < 2 ^ 20 ∧ x * 16 = o
  | None => ¬ 0 ≤ o < 2 ^ 20
  end.
Proof.
  intros Ho. assert (Hq : Z.quot o 16 = o / 16) by (Z.to_euclidean_division_equations; lia).
  rewrite Hq. unfold checked_uint. destruct (in_uint_spec 16 (o / 16)) as [Hs|Hs]; unfold_ranges.
  - Z.to_euclidean_division_equations; lia.
  - intros Hfit. apply Hs. Z.to_euclidean_division_equations; lia.
Qed.

Lemma rule_of_found_correct d : aligned d →
  match rule_of_found d with
  | None => ¬ representable d
  | Some rule => representable d ∧ ∀ mem r0 r, simulates mem r0 d r →
      denote mem rule true r0 = Some (lr r, sp r, fp r)
  end.
Proof.
  intros [Hsp Hfp Hlr]. unfold rule_of_found, representable.
  pose proof (quot_sp _ Hsp) as Hx. destruct (checked_uint 16 _) as [x|]; [|intros (? & ? & ? & ?); by auto].
  destruct Hx as [Hx Hx16]. cbn [mbind option_bind].
  destruct (Epilogue.fp_offset_from_initial_sp d) as [f|] eqn:Hf,
    (Epilogue.lr_offset_from_initial_sp d) as [l|] eqn:Hl.
  - pose proof (quot_slot f Hfp) as Hy. pose proof (quot_slot l Hlr) as Hz.
    destruct (checked_sint 16 (Z.quot f 8)) as [y|]; [|intros (? & ? & ? & ?); by auto].
    destruct (checked_sint 16 (Z.quot l 8)) as [z|]; [|intros (? & ? & ? & ?); by auto].
    destruct Hy as [Hyf Hy8], Hz as [Hzf Hz8]. cbn [mbind option_bind].
    split; [by repeat (split; [done|])|]. intros mem r0 r [Hs Hrf Hrl]. rewrite Hf, Hl in *. simpl in *.
    rewrite Hy8, Hz8, Hrf, Hrl, Hs, Hx16. done.
  - intros (_ & Hn & _). by specialize (Hn eq_refl).
  - pose proof (quot_slot l Hlr) as Hz.
    destruct (checked_sint 16 (Z.quot l 8)) as [z|]; [|intros (? & ? & ? & ?); by auto].
    destruct Hz as [Hzf Hz8]. cbn [mbind option_bind].
    split; [by repeat (split; [done|])|]. intros mem r0 r [Hs Hrf Hrl]. rewrite Hf, Hl in *. simpl in *.
    by rewrite Hz8, Hrl, Hs, Hx16, Hrf.
  - destruct (Z.eqb_spec x 0).
    + split; [by repeat (split; [done|])|]. intros mem r0 r [Hs Hrf Hrl]. rewrite Hf, Hl in *. simpl in *.
      rewrite Hs, Hrf, Hrl. do 3 f_equal. lia.
    + split; [by repeat (split; [done|])|]. intros mem r0 r [Hs Hrf Hrl]. rewrite Hf, Hl in *. simpl in *.
      by rewrite Hs, Hrf, Hrl, Hx16.
Qed.

(** C20.  The aarch64 epilogue detector at any program counter of an epilogue.  An epilogue is
    a sequence of at most 125 [ldp] from the stack and [add sp, sp] that keep the stack
    pointer aligned, and then [ret], [retab], a branch, or one of the authenticated tail
    calls; a plain branch counts if the stack pointer moves before it.  The detector
    returns without a panic, it has a rule exactly when the frame is representable, and
    the rule denotes, in the first frame, the registers that running the rest of the
    epilogue gives. *)
Theorem detected_epilogue_correct_aarch64 `{Profile} (before after : list Z)
    (l : list epilogue_instr) (lv : leaving) (k : nat) :
  Forall wf_epilogue_instr l → wf_leaving lv → (length l ≤ 125)%nat →
  (k < length l + length (leaving_words lv))%nat → tail_call_ok l lv k →
  ∃ rule,
    Epilogue.unwind_rule_from_detected_epilogue
      (before ++ code ((epilogue_word <$> l) ++ leaving_words lv) ++ after)
      (Z.of_nat (length before) + 4 * Z.of_nat k) = Val rule ∧
    match rule with
    | None => ¬ representable (remaining l k)
    | Some rule =>
        representable (remaining l k) ∧ wf_rule rule ∧
        ∀ mem r r', run_epilogue mem (drop k l) r = Some r' →
          denote mem rule true r = Some (lr r', sp r', fp r')
    end.
Proof.
  intros Hl Hlv Hlen Hk Htail. exists (rule_of_found (remaining l k)).
  assert (Hrun : Epilogue.unwind_rule_from_detected_epilogue
    (before ++ code ((epilogue_word <$> l) ++ leaving_words lv) ++ after)
    (Z.of_nat (length before) + 4 * Z.of_nat k) = Val (rule_of_found (remaining l k))).
  { unfold Epilogue.unwind_rule_from_detected_epilogue.
    by rewrite analyze_slice_epilogue. }
  split; [done|].
  assert (Hal : aligned (remaining l k)).
  { apply aligned_track_all; [by apply Forall_drop|by split]. }
  pose proof (rule_of_found_correct _ Hal) as Hrule.
  destruct (rule_of_found (remaining l k)) as [rule|]; [|done].
  destruct Hrule as [Hrep Hden]. split_and!; [done|by eapply detected_epilogue_wf_aarch64|].
  intros mem r r' Hmem. apply Hden. apply (simulates_run mem r _ _ r); [|done].
  split; cbn; [lia|done|done].
Qed.

(** [ldp fp, lr, \[sp, #0x40\]; ldp x20, x19, \[sp, #0x30\]; ldp x22, x21, \[sp, #0x20\];
    add sp, sp, #0x50; ret]. *)
Definition example_epilogue_bytes : list Z :=
  [0xfd; 0x7b; 0x44; 0xa9; 0xf4; 0x4f; 0x43; 0xa9; 0xf6; 0x57; 0x42; 0xa9;
   0xff; 0x43; 0x01; 0x91; 0xc0; 0x03; 0x5f; 0xd6].
Definition example_epilogue_instrs : list epilogue_instr :=
  [Ldp SignedOffset 29 30 8; Ldp SignedOffset 20 19 6; Ldp SignedOffset 22 21 4;
   AddSp 0x50 false].

Lemma detected_epilogue_correct_aarch64_witness :
  ∃ rule,
    @Epilogue.unwind_rule_from_detected_epilogue debug_profile example_epilogue_bytes 0 =
      Val rule ∧
    match rule with
    | None => ¬ representable (remaining example_epilogue_instrs 0)
    | Some rule =>
        representable (remaining example_epilogue_instrs 0) ∧ wf_rule rule ∧
        ∀ mem r r', run_epilogue mem example_epilogue_instrs r = Some r' →
          denote mem rule true r = Some (lr r', sp r', fp r')
    end.
Proof.
  apply (@detected_epilogue_correct_aarch64 debug_profile [] [] example_epilogue_instrs Ret 0).
  - repeat constructor; done.
  - done.
  - simpl. lia.
  - simpl. lia.
  - done.
Defined.

Example epilogue_bytes_0 :
  @Epilogue.unwind_rule_from_detected_epilogue debug_profile example_epilogue_bytes 0 =
    Val (Some (OffsetSpAndRestoreFpAndLr 5 8 9)).
Proof. reflexivity. Qed.
Example epilogue_bytes_12 :
  @Epilogue.unwind_rule_from_detected_epilogue debug_profile example_epilogue_bytes 12 =
    Val (Some (OffsetSp 5)).
Proof. reflexivity. Qed.

(** A branch to a register is taken for a tail call only after a change of the stack
    pointer: [ldp x26, x25, \[sp\], #0x50; br x3]. *)
Example register_tail_call :
  @Epilogue.unwind_rule_from_detected_epilogue debug_profile
    [0xfa; 0x67; 0xc5; 0xa8; 0x60; 0x00; 0x1f; 0xd6] 4 = Val (Some NoOp).
Proof. reflexivity. Qed.

(** * Prologues *)

(** [pacibsp], [stp rt, rt2, \[sp\], #imm * 8] and its variants,
    [sub sp, sp, #imm{, lsl #12}]. *)
Inductive prologue_instr : Type :=
| Pacibsp
| Stp (m : addressing) (rt rt2 imm : Z)
| SubSp (imm : Z) (lsl_12 : bool).

Definition prologue_word (i : prologue_instr) : Z :=
  match i with
  | Pacibsp => 0xd503237f
  | Stp m rt rt2 imm => pair_word 0x2a0 m rt rt2 imm
  | SubSp imm lsl_12 => sp_word 0x1a2 imm lsl_12 31
  end.
Definition wf_prologue_instr (i : prologue_instr) : Prop :=
  match i with
  | Pacibsp => True
  | Stp m rt rt2 imm => wf_pair m rt rt2 imm
  | SubSp imm lsl_12 => wf_immediate imm lsl_12
  end.

(** How far an instruction moves the stack pointer down.  Stores change no register the
    unwinder follows. *)
Definition depth_instr (i : prologue_instr) : Z :=
  match i with
  | Pacibsp => 0
  | Stp m _ _ imm => if writes_back m then - (imm * 8) else 0
  | SubSp imm lsl_12 => immediate imm lsl_12
  end.
Definition run_prologue (l : list prologue_instr) (r : UnwindRegsAarch64) :
    UnwindRegsAarch64 :=
  fold_left (λ r i, set_sp r (sp r - depth_instr i)) l r.
Definition depth (l : list prologue_instr) : Z :=
  fold_right (λ i n, depth_instr i + n) 0 l.

(** The next instruction: one of these, or [add fp, sp, #imm], which is [mov fp, sp] for
    zero. *)
Inductive next_instr : Type :=
| NextInstr (i : prologue_instr)
| AddFp (imm : Z) (lsl_12 : bool).
Definition next_instr_word (n : next_instr) : Z :=
  match n with
  | NextInstr i => prologue_word i
  | AddFp imm lsl_12 => sp_word 0x122 imm lsl_12 29
  end.
Definition wf_next_instr (n : next_instr) : Prop :=
  match n with NextInstr i => wf_prologue_instr i | AddFp imm lsl_12 => wf_immediate imm lsl_12 end.
(** A store without writeback. *)
Definition is_plain_store (n : next_instr) : bool :=
  match n with NextInstr (Stp SignedOffset _ _ _) => true | _ => false end.

Lemma prologue_word_bounds i : wf_prologue_instr i →
  0xa8000000 ≤ prologue_word i < 2 ^ 32 ∧
  (prologue_word i = 0xd503237f → i = Pacibsp) ∧ prologue_word i ≠ 0x910003fd.
Proof.
  destruct i as [|m rt rt2 imm|imm sh]; cbn [wf_prologue_instr prologue_word].
  - done.
  - intros (? & ? & _). split_and!; [destruct m; word_arith..| |]; 
      intros Heq; exfalso; destruct m; word_arith.
  - intros (? & _). split_and!; [destruct sh; word_arith..| |];
      intros Heq; exfalso; destruct sh; word_arith.
Qed.

(** * The prologue detector *)

Section PrologueSteps.
Context `{Profile}.

(** An instruction the walk backwards stops at. *)
Definition stops_walk (w : Z) : Prop :=
  ∀ n, ∃ t, Prologue.reverse_step_instruction n w = Val (Prologue.UnexpectedInstruction t, n).

Lemma reverse_step_instr n i :
  wf_prologue_instr i → - 2 ^ 31 + 2 ^ 25 ≤ n < 2 ^ 31 - 2 ^ 25 →
  Prologue.reverse_step_instruction n (prologue_word i) =
    Val (Prologue.ValidPrologueInstruction, n + depth_instr i).
Proof.
  intros Hwf Hn. destruct (prologue_word_bounds i Hwf) as (_ & Hpac & _).
  unfold Prologue.reverse_step_instruction.
  destruct (Z.eqb_spec (prologue_word i) 0xd503237f) as [Heq|Hne].
  { rewrite (Hpac Heq). cbn. by rewrite Z.add_0_r. }
  clear Hpac. destruct i as [|m rt rt2 imm|imm sh]; cbn [wf_prologue_instr prologue_word] in *;
    [done| |].
  - pose proof (pair_word_shape 0x2a0 m rt rt2 imm Hwf) as [H22 H23 _ Hrn _ _ Himm].
    revert H22 H23 Hrn Himm. generalize (pair_word 0x2a0 m rt rt2 imm) as w.
    intros w H22 H23 Hrn Himm. destruct Hwf as (_ & _ & Hb & _).
    unfold field in *. rewrite H22, H23, Hrn, Himm.
    destruct m; cbn [mode_bits depth_instr writes_back]; closed_tests.
    all: try rewrite sarith_ok by range; cbn [mbind may_bind]; do 2 f_equal; lia.
  - pose proof (sp_word_shape 0x1a2 imm sh 31 Hwf ltac:(lia)) as [H22 H23 _ _ Hrn Hrd Himm].
    revert H22 H23 Hrn Hrd Himm. generalize (sp_word 0x1a2 imm sh 31) as w.
    intros w H22 H23 Hrn Hrd Himm. destruct Hwf as (Hb & _).
    unfold field in *. rewrite H22, H23, Hrn, Hrd, Himm.
    replace (Z.land (0x1a2 * 2 + (if sh then 1 else 0)) 0x2f9 =? 0x2a0) with false
      by (by destruct sh).
    closed_tests. rewrite sarith_ok; [done|]. unfold immediate. destruct sh; range.
Qed.

Lemma analyze_next_instr n : wf_next_instr n →
  Prologue.analyze_prologue_instruction_type (next_instr_word n) =
    if is_plain_store n then Prologue.CouldBePartOfPrologueIfThereIsAlsoAStackPointerSub
    else Prologue.VeryLikelyPartOfPrologue.
Proof.
  unfold Prologue.analyze_prologue_instruction_type.
  destruct n as [[|m rt rt2 imm|imm sh]|imm sh];
    cbn [wf_next_instr wf_prologue_instr next_instr_word prologue_word is_plain_store];
    intros Hwf; [done|..].
  - destruct (prologue_word_bounds (Stp m rt rt2 imm) Hwf) as (_ & Hpac & Hmov).
    cbn [prologue_word] in Hpac, Hmov.
    rewrite (proj2 (Z.eqb_neq _ 0xd503237f)) by (by intros Heq; discriminate (Hpac Heq)).
    rewrite (proj2 (Z.eqb_neq _ 0x910003fd)) by done.
    pose proof (pair_word_shape 0x2a0 m rt rt2 imm Hwf) as [H22 _ _ Hrn _ _ _].
    revert H22 Hrn. generalize (pair_word 0x2a0 m rt rt2 imm) as w. intros w H22 Hrn.
    unfold field in *. rewrite H22, Hrn. by destruct m.
  - destruct (prologue_word_bounds (SubSp imm sh) Hwf) as (_ & Hpac & Hmov).
    cbn [prologue_word] in Hpac, Hmov.
    rewrite (proj2 (Z.eqb_neq _ 0xd503237f)) by (by intros Heq; discriminate (Hpac Heq)).
    rewrite (proj2 (Z.eqb_neq _ 0x910003fd)) by done.
    pose proof (sp_word_shape 0x1a2 imm sh 31 Hwf ltac:(lia)) as [H22 _ _ H30 Hrn Hrd _].
    revert H22 H30 Hrn Hrd. generalize (sp_word 0x1a2 imm sh 31) as w. intros w H22 H30 Hrn Hrd.
    unfold field in *. rewrite H22, H30, Hrn, Hrd. by destruct sh.
  - pose proof (sp_word_shape 0x122 imm sh 29 Hwf ltac:(lia)) as [H22 _ _ H30 Hrn Hrd _].
    revert H22 H30 Hrn Hrd. generalize (sp_word 0x122 imm sh 29) as w. intros w H22 H30 Hrn Hrd.
    destruct ((w =? 0xd503237f) || (w =? 0x910003fd)); [done|].
    unfold field in *. rewrite H22, H30, Hrn, Hrd. by destruct sh.
Qed.

Lemma depth_instr_bound i : wf_prologue_instr i → - 2 ^ 24 ≤ depth_instr i ≤ 2 ^ 24.
Proof.
  destruct i as [|m rt rt2 imm|imm sh]; simpl; [lia| |].
  - intros (_ & _ & ? & _). destruct (writes_back m); lia.
  - intros (? & _). unfold immediate. destruct sh; lia.
Qed.

Lemma reverse_steps_code n l stop :
  Forall wf_prologue_instr l →
  - 2 ^ 31 + 2 ^ 25 + 2 ^ 24 * Z.of_nat (length l) ≤ n
    < 2 ^ 31 - 2 ^ 25 - 2 ^ 24 * Z.of_nat (length l) →
  Prologue.reverse_steps n ((prologue_word <$> l) ++ stop) =
    Prologue.reverse_steps (n + depth l) stop.
Proof.
  revert n. induction l as [|i l IH]; intros n Hwf Hn; [by rewrite Z.add_0_r|].
  apply Forall_cons in Hwf as [Hi Hl]. pose proof (depth_instr_bound i Hi).
  rewrite length_cons in Hn. cbn [fmap list_fmap app Prologue.reverse_steps].
  rewrite reverse_step_instr by (done || lia). cbn [mbind may_bind].
  rewrite IH by (done || lia). f_equal. simpl. lia.
Qed.

Lemma words_code ws : Forall is_u32 ws → Prologue.words (code ws) = ws.
Proof.
  induction ws as [|w ws IH]; [done|]. intros [Hw Hws]%Forall_cons.
  pose proof (le_bytes_word w Hw) as Hle. rewrite code_cons.
  unfold le_bytes in *. cbn [app Prologue.words]. by rewrite Hle, IH.
Qed.
End PrologueSteps.

Lemma depth_app l1 l2 : depth (l1 ++ l2) = depth l1 + depth l2.
Proof. induction l1 as [|i l1 IH]; simpl; lia. Qed.
Lemma depth_rev l : depth (rev l) = depth l.
Proof. induction l as [|i l IH]; [done|]. simpl. rewrite depth_app, IH. simpl. lia. Qed.

Lemma run_prologue_regs l r :
  run_prologue l r = set_sp r (sp r - depth l).
Proof.
  revert r. induction l as [|i l IH]; intros r; simpl.
  - destruct r as [m lr sp fp]. unfold set_sp. simpl. f_equal. lia.
  - rewrite IH. unfold set_sp. simpl. f_equal. lia.
Qed.

Lemma depth_aligned l : Forall wf_prologue_instr l → depth l mod 16 = 0.
Proof.
  induction 1 as [|i l Hi Hl IH]; [done|]. simpl.
  assert (Hd : depth_instr i mod 16 = 0).
  { destruct i as [|m rt rt2 imm|imm sh]; simpl in *; [done| |].
    - destruct Hi as (_ & _ & _ & Heven). destruct (writes_back m); [|done].
      specialize (Heven eq_refl). Z.to_euclidean_division_equations; lia.
    - destruct Hi as [_ Himm]. unfold immediate.
      destruct sh; [|by apply Himm]. Z.to_euclidean_division_equations; lia. }
  Z.to_euclidean_division_equations; lia.
Qed.

Lemma wf_prologue_words l : Forall wf_prologue_instr l → Forall is_u32 (prologue_word <$> l).
Proof.
  intros Hl. apply Forall_fmap. eapply Forall_impl; [exact Hl|]. intros i Hi.
  destruct (prologue_word_bounds i Hi) as ([? ?] & _). simpl. range.
Qed.
Lemma next_instr_word_u32 n : wf_next_instr n → is_u32 (next_instr_word n).
Proof.
  destruct n as [i|imm sh]; cbn [wf_next_instr next_instr_word].
  - intros Hi. destruct (prologue_word_bounds i Hi) as ([? ?] & _). range.
  - intros (? & _). destruct sh; word_arith.
Qed.


