(* ===== verification/Macho.v ===== *)
(** The generic unwinder for mach-O compact unwind info ([src/macho.rs]).

    The parser [macho_unwind_info] is a parameter: the class [MachoUnwindInfo] has the
    functions the crate calls, with the ranges their Rust types give; the opcode enums
    have the variants and fields the crate matches on. *)

From S2P Require Import Prelude Error Arch Dwarf GimliExample.
From stdpp Require Import list.
Local Open Scope Z_scope.

(** * The interface of the parser *)

(** [RegisterNameX86_64], of which only [Rbp] matters. *)
Inductive RegisterName : Type := Rbp | OtherRegister.
#[export] Instance RegisterName_eq_dec : EqDecision RegisterName.
Proof. solve_decision. Defined.

Inductive OpcodeX86_64 : Type :=
| X86Null
| X86FramelessImmediate (stack_size_in_bytes : Z) (saved_regs : list (option RegisterName))
| X86FramelessIndirect (immediate_offset_from_function_start stack_adjust_in_bytes : Z)
    (saved_regs : list (option RegisterName))
| X86Dwarf (eh_frame_fde : Z)
| X86FrameBased
| X86UnrecognizedKind (kind : Z)
| X86InvalidFrameless.

Inductive OpcodeArm64 : Type :=
| ArmNull
| ArmFrameless (stack_size_in_bytes : Z)
| ArmDwarf (eh_frame_fde : Z)
| ArmFrameBased
| ArmUnrecognizedKind (kind : Z).

(** The field types; there are six saved registers. *)
Definition wf_opcode_x86 (o : OpcodeX86_64) : Prop :=
  match o with
  | X86FramelessImmediate size saved => is_u16 size ∧ length saved = 6%nat
  | X86FramelessIndirect off adjust saved => is_u8 off ∧ is_u8 adjust ∧ length saved = 6%nat
  | X86Dwarf fde => is_u32 fde
  | _ => True
  end.
Definition wf_opcode_arm (o : OpcodeArm64) : Prop :=
  match o with
  | ArmFrameless size => is_u16 size
  | ArmDwarf fde => is_u32 fde
  | _ => True
  end.

Record Function : Type := mk_function {
  start_address : Z;
  end_address : Z;
  opcode : Z;
}.

Definition wf_function (f : Function) : Prop :=
  is_u32 (start_address f) ∧ is_u32 (end_address f) ∧ is_u32 (opcode f).

Class MachoUnwindInfo : Type := {
  macho_error : Type;
  UnwindInfo : Type;
  unwind_info_parse : list Z → result UnwindInfo macho_error;
  unwind_info_lookup : UnwindInfo → Z → result (option Function) macho_error;
  opcode_x86_parse : Z → OpcodeX86_64;
  opcode_arm64_parse : Z → OpcodeArm64;
  unwind_info_lookup_wf ui a f : unwind_info_lookup ui a = Ok (Some f) → wf_function f;
  opcode_x86_parse_wf o : wf_opcode_x86 (opcode_x86_parse o);
  opcode_arm64_parse_wf o : wf_opcode_arm (opcode_arm64_parse o);
}.

(** A lookup returns the function that covers the address. *)
Class MachoLookup `{MachoUnwindInfo} : Prop :=
  unwind_info_lookup_covers ui a f :
    unwind_info_lookup ui a = Ok (Some f) → start_address f ≤ a < end_address f.

(** * The trait and the unwinder *)

Inductive CuiUnwindResult (R : Type) : Type :=
| CuiExecRule (rule : R)
| NeedDwarf (eh_frame_fde : Z).
Arguments CuiExecRule {R}. Arguments NeedDwarf {R}.

Abbreviation cui_error :=
  (CompactUnwindInfoUnwinderError gimli_error macho_error).

Class CompactUnwindInfoUnwinding `{Gimli, MachoUnwindInfo, Arch} : Type := {
  (* The name of the trait's method is [unwind_frame]. *)
  cui_unwind_frame `{Profile} : Function → bool → Z → option (list Z) →
    may (result (CuiUnwindResult UnwindRule) cui_error);
  rule_for_stub_helper : Z → result (CuiUnwindResult UnwindRule) cui_error;
}.

Record TextBytes : Type := mk_text_bytes {
  offset_from_base_address : Z;
  bytes : list Z;
}.

Record CompactUnwindInfoUnwinder : Type := mk_cui_unwinder {
  unwind_info_data : list Z;
  text_bytes : option TextBytes;
  stubs_range : Z * Z;
  stub_helper_range : Z * Z;
}.

Section Unwinder.
Context `{Profile, Gimli, MachoUnwindInfo}.

Definition function_for_address (self : CompactUnwindInfoUnwinder) (address : Z) :
    result Function cui_error :=
  match unwind_info_parse (unwind_info_data self) with
  | Err e => Err (BadFormat e)
  | Ok unwind_info =>
      match unwind_info_lookup unwind_info address with
      | Err e => Err (BadFormat e)
      | Ok function => ok_or function (AddressOutsideRange address)
      end
  end.

(** The bytes of a function, where the text bytes cover it. *)
Definition function_bytes_of (self : CompactUnwindInfoUnwinder) (function : Function) :
    option (list Z) :=
  text ← text_bytes self;
  function_start_relative_to_text ←
    checked_uint 32 (start_address function - offset_from_base_address text);
  function_end_relative_to_text ←
    checked_uint 32 (end_address function - offset_from_base_address text);
  slice_get (bytes text) function_start_relative_to_text function_end_relative_to_text.

Definition in_range (range : Z * Z) (a : Z) : bool := (range.1 <=? a) && (a <? range.2).

Definition unwind_frame `{Arch, !CompactUnwindInfoUnwinding}
    (self : CompactUnwindInfoUnwinder) (rel_lookup_address : Z) (is_first_frame : bool) :
    may (result (CuiUnwindResult UnwindRule) cui_error) :=
  if in_range (stubs_range self) rel_lookup_address then
    if negb is_first_frame then Val (Err StubFunctionCannotBeCaller)
    else Val (Ok (CuiExecRule rule_for_stub_functions))
  else if in_range (stub_helper_range self) rel_lookup_address then
    if negb is_first_frame then Val (Err StubFunctionCannotBeCaller)
    else
      lookup_address_relative_to_section ←
        uarith 32 (rel_lookup_address - (stub_helper_range self).1);
      Val (rule_for_stub_helper lookup_address_relative_to_section)
  else
    match function_for_address self rel_lookup_address with
    | Err e =>
        match e with
        | AddressOutsideRange _ =>
            if is_first_frame then Val (Ok (CuiExecRule rule_for_stub_functions))
            else Val (Err e)
        | _ => Val (Err e)
        end
    | Ok function =>
        if is_first_frame && (rel_lookup_address =? start_address function) then
          Val (Ok (CuiExecRule rule_for_function_start))
        else
          address_offset_within_function ←
            uarith 32 (rel_lookup_address - start_address function);
          cui_unwind_frame function is_first_frame address_offset_within_function
            (function_bytes_of self function)
    end.
End Unwinder.

(** * A small executable parser for concrete instances

    Unwind info is a list of numbers, three per function: its start, its end, and an
    opcode, which is 0 for null, 1 for frame-based, 2 for a frameless function of 48
    bytes that saves [rbp] second from the outside, and an FDE offset otherwise. *)

Fixpoint toy_macho_lookup (l : list Z) (a : Z) (fuel : nat) : option Function :=
  match fuel, l with
  | S fuel, s :: e :: o :: rest =>
      if (wrap 32 s <=? a) && (a <? wrap 32 e)
      then Some (mk_function (wrap 32 s) (wrap 32 e) (wrap 32 o))
      else toy_macho_lookup rest a fuel
  | _, _ => None
  end.

Lemma toy_macho_lookup_spec l a fuel f :
  toy_macho_lookup l a fuel = Some f → wf_function f ∧ start_address f ≤ a < end_address f.
Proof.
  revert l. induction fuel as [|fuel IH]; intros [|s [|e [|o rest]]]; simpl; try done.
  destruct (Z.leb_spec (wrap 32 s) a), (Z.ltb_spec a (wrap 32 e)); simpl; try apply IH.
  intros [= <-]. split; [|done]. split_and!; by apply wrap_range.
Qed.

#[export] Instance toy_macho : MachoUnwindInfo.
Proof.
  refine {|
    macho_error := ();
    UnwindInfo := list Z;
    unwind_info_parse d := Ok d;
    unwind_info_lookup d a := Ok (toy_macho_lookup d a (length d));
    opcode_x86_parse o :=
      if o =? 0 then X86Null else if o =? 1 then X86FrameBased
      else if o =? 2 then
        X86FramelessImmediate 48 [None; None; Some OtherRegister; Some OtherRegister;
                                  Some Rbp; Some OtherRegister]
      else X86Dwarf (wrap 32 o);
    opcode_arm64_parse o :=
      if o =? 0 then ArmNull else if o =? 1 then ArmFrameBased
      else if o =? 2 then ArmFrameless 48 else ArmDwarf (wrap 32 o);
  |}.
  - intros ui a f [= Hf]. by apply toy_macho_lookup_spec in Hf as [? _].
  - intros o. repeat case_match; simpl; try done; by apply wrap_range.
  - intros o. repeat case_match; simpl; try done; by apply wrap_range.
Defined.

#[export] Instance toy_macho_lookup_covers : MachoLookup.
Proof. intros ui a f [= Hf]. by apply toy_macho_lookup_spec in Hf as [_ ?]. Qed.

(** * The caller's side of the instruction analysis contract *)

Lemma function_offset `{Profile, Gimli, MachoLookup}
    (self : CompactUnwindInfoUnwinder) (a : Z) (f : Function) :
  function_for_address self a = Ok f →
  uarith 32 (a - start_address f) = Val (a - start_address f) ∧
  (∀ fb, function_bytes_of self f = Some fb →
     0 ≤ a - start_address f < Z.of_nat (length fb) ∧
     Z.of_nat (length fb) = end_address f - start_address f).
Proof.
  unfold function_for_address.
  destruct (unwind_info_parse _) as [ui|]; [|done].
  destruct (unwind_info_lookup ui a) as [[f'|]|] eqn:Hl; [|done|done].
  intros [= ->]. pose proof (unwind_info_lookup_covers _ _ _ Hl) as Hcov.
  apply unwind_info_lookup_wf in Hl as (Hs & He & _).
  split; [apply uarith_ok; range|].
  unfold function_bytes_of. intros fb (text & _ & Hfb)%bind_Some.
  apply bind_Some in Hfb as (i & [-> Hi]%checked_uint_Some & Hfb).
  apply bind_Some in Hfb as (j & [-> Hj]%checked_uint_Some & Hfb).
  unfold slice_get in Hfb.
  destruct (Z.leb_spec 0 (start_address f - offset_from_base_address text)); [|done].
  destruct (Z.leb_spec (start_address f - offset_from_base_address text)
              (end_address f - offset_from_base_address text)); [|done].
  destruct (Z.leb_spec (end_address f - offset_from_base_address text)
              (Z.of_nat (length (bytes text)))); [|done].
  simpl in Hfb. injection Hfb as <-. rewrite length_take, length_drop. lia.
Qed.

(** [address_offset_within_function] is computed without an overflow, and it is an
    offset into the function's bytes: instruction analysis is only ever asked about a
    program counter inside them, as its interface requires. *)
Lemma offset_within_function_bytes `{Profile, Gimli, MachoLookup}
    (self : CompactUnwindInfoUnwinder) (a : Z) (f : Function) (fb : list Z) :
  function_for_address self a = Ok f →
  uarith 32 (a - start_address f) = Val (a - start_address f) ∧
  (function_bytes_of self f = Some fb →
     0 ≤ a - start_address f < Z.of_nat (length fb) ∧
     Z.of_nat (length fb) = end_address f - start_address f).
Proof. intros Hf. destruct (function_offset self a f Hf) as [Ho Hb]. auto. Qed.

Lemma offset_within_function_bytes_witness :
  let self := mk_cui_unwinder [0x100; 0x104; 1]
                (Some (mk_text_bytes 0xf0 (replicate 64 0))) (0, 0) (0, 0) in
  let f := mk_function 0x100 0x104 1 in
  @uarith debug_profile 32 (0x102 - 0x100) = Val (0x102 - 0x100) ∧
  (function_bytes_of self f = Some [0; 0; 0; 0] →
     0 ≤ 0x102 - 0x100 < Z.of_nat (length [0; 0; 0; 0]) ∧
     Z.of_nat (length [0; 0; 0; 0]) = 0x104 - 0x100).
Proof.
  intros self f.
  apply (@offset_within_function_bytes debug_profile GimliExample.toy_gimli toy_macho _
           self 0x102 f [0; 0; 0; 0]).
  reflexivity.
Defined.
