(* ===== verification/X86Macho.v ===== *)
(** Compact unwind info on x86_64 ([src/x86_64/macho.rs]). *)

From S2P Require Import Prelude Error Arch Dwarf Macho InstructionAnalysis.
From S2P Require Import X86UnwindRegs X86UnwindRule X86InstructionAnalysis.
From stdpp Require Import list.
Local Open Scope Z_scope.

Section Macho.
Context `{Gimli, MachoUnwindInfo}.

(** [saved_regs.iter().rev().flatten().position(|r| *r == Rbp)]. *)
Fixpoint position_of_rbp (regs : list (option RegisterName)) : option Z :=
  match regs with
  | [] => None
  | None :: regs => position_of_rbp regs
  | Some r :: regs =>
      if decide (r = Rbp) then Some 0 else pos ← position_of_rbp regs; Some (pos + 1)
  end.
Definition bp_position_from_outside (saved_regs : list (option RegisterName)) : option Z :=
  position_of_rbp (rev saved_regs).

Section Frame.
Context `{Profile}.

(** The rule of a frameless function, from its stack size and saved registers. *)
Definition frameless_rule (stack_size_in_bytes sp_offset_by_8 : Z)
    (saved_regs : list (option RegisterName)) :
    may (result (CuiUnwindResult UnwindRuleX86_64) cui_error) :=
  match bp_position_from_outside saved_regs with
  | Some pos =>
      bp_offset_from_sp ← sarith 32 (sext 32 stack_size_in_bytes - 16);
      bp_offset_from_sp ← sarith 32 (bp_offset_from_sp - pos * 8);
      match checked_sint 16 (Z.quot bp_offset_from_sp 8) with
      | None => Val (Err BpOffsetDoesNotFit)
      | Some bp_storage_offset_from_sp_by_8 =>
          Val (Ok (CuiExecRule (OffsetSpAndRestoreBp sp_offset_by_8
                                  bp_storage_offset_from_sp_by_8)))
      end
  | None => Val (Ok (CuiExecRule (OffsetSp sp_offset_by_8)))
  end.

(** The [match opcode] for an address in a function body. *)
Definition rule_for_body (opcode : OpcodeX86_64) (function_bytes : option (list Z)) :
    may (result (CuiUnwindResult UnwindRuleX86_64) cui_error) :=
  match opcode with
  | X86Null => Val (Err FunctionHasNoInfo)
  | X86FramelessImmediate stack_size_in_bytes saved_regs =>
      if stack_size_in_bytes =? 8 then Val (Ok (CuiExecRule JustReturn))
      else frameless_rule stack_size_in_bytes (stack_size_in_bytes / 8) saved_regs
  | X86FramelessIndirect immediate_offset_from_function_start stack_adjust_in_bytes
      saved_regs =>
      match function_bytes with
      | None => Val (Err NoTextBytesToLookUpIndirectStackOffset)
      | Some function_bytes =>
          match slice_get function_bytes immediate_offset_from_function_start
                  (immediate_offset_from_function_start + 4) with
          | Some [b0; b1; b2; b3] =>
              let sub_immediate := u32_from_le_bytes b0 b1 b2 b3 in
              match checked_uint 32 (sub_immediate + stack_adjust_in_bytes) with
              | None => Val (Err StackAdjustOverflow)
              | Some stack_size_in_bytes =>
                  match checked_uint 16 (stack_size_in_bytes / 8) with
                  | None => Val (Err StackSizeDoesNotFit)
                  | Some sp_offset_by_8 =>
                      frameless_rule stack_size_in_bytes sp_offset_by_8 saved_regs
                  end
              end
          | _ => Val (Err IndirectStackOffsetOutOfBounds)
          end
      end
  | X86Dwarf eh_frame_fde => Val (Ok (NeedDwarf eh_frame_fde))
  | X86FrameBased => Val (Ok (CuiExecRule UseFramePointer))
  | X86UnrecognizedKind kind => Val (Err (BadOpcodeKind kind))
  | X86InvalidFrameless => Val (Err InvalidFrameless)
  end.

Definition is_null (opcode : OpcodeX86_64) : bool :=
  match opcode with X86Null => true | _ => false end.

Definition unwind_frame (function : Function) (is_first_frame : bool)
    (address_offset_within_function : Z) (function_bytes : option (list Z)) :
    may (result (CuiUnwindResult UnwindRuleX86_64) cui_error) :=
  let opcode := opcode_x86_parse (opcode function) in
  if is_first_frame then
    detected ←
      match function_bytes with
      | Some function_bytes =>
          rule ← rule_from_instruction_analysis (H0 := ArchX86_64) function_bytes
                   address_offset_within_function;
          match rule with
          | Some rule => Val (Some rule)
          | None =>
              if is_null opcode &&
                 bool_decide (take 4 function_bytes = push_rbp_mov_rbp_rsp)
              then Val (Some UseFramePointer) else Val None
          end
      | None => Val None
      end;
    match detected with
    | Some rule => Val (Ok (CuiExecRule rule))
    | None =>
        if is_null opcode then Val (Ok (CuiExecRule JustReturn))
        else rule_for_body opcode function_bytes
    end
  else rule_for_body opcode function_bytes.
End Frame.

Definition rule_for_stub_helper (offset : Z) :
    result (CuiUnwindResult UnwindRuleX86_64) cui_error :=
  let rule :=
    if offset <? 0x7 then OffsetSp 2
    else if offset <? 0x10 then OffsetSp 3
    else
      let offset_after_shared := offset - 0x10 in
      let offset_within_stub := offset_after_shared mod 10 in
      if offset_within_stub <? 5 then JustReturn else OffsetSp 2 in
  Ok (CuiExecRule rule).
End Macho.

#[export] Instance MachoX86_64 `{Gimli, MachoUnwindInfo} :
    @CompactUnwindInfoUnwinding _ _ ArchX86_64 := {|
  cui_unwind_frame _ := unwind_frame :
    Function → bool → Z → option (list Z) →
    may (result (CuiUnwindResult (@UnwindRule ArchX86_64)) _);
  Macho.rule_for_stub_helper := rule_for_stub_helper :
    Z → result (CuiUnwindResult (@UnwindRule ArchX86_64)) _;
|}.

(** * Rules are well-formed *)

Section Wf.
Context `{Profile, Gimli, MachoUnwindInfo}.

Lemma frameless_rule_wf size x saved rule :
  is_u16 x → frameless_rule size x saved = Val (Ok (CuiExecRule rule)) → wf_rule rule.
Proof.
  intros Hx. unfold frameless_rule. destruct (bp_position_from_outside saved) as [pos|].
  - destruct (sarith 32 _) as [o|]; cbn [mbind may_bind]; [|done].
    destruct (sarith 32 _) as [o'|]; cbn [mbind may_bind]; [|done].
    destruct (checked_sint 16 _) as [y|] eqn:Hy; [|done].
    apply checked_sint_Some in Hy as [-> Hy]. by intros [= <-].
  - by intros [= <-].
Qed.

Lemma rule_for_body_wf op fb rule :
  wf_opcode_x86 op → rule_for_body op fb = Val (Ok (CuiExecRule rule)) → wf_rule rule.
Proof.
  intros Hop. destruct op as [|size saved|off adj saved|fde| |k|]; simpl in *; try done.
  - destruct (size =? 8); [by intros [= <-]|]. apply frameless_rule_wf.
    destruct Hop as [Hop _]. unfold is_uint in *.
    split; [apply Z.div_pos; lia|apply Z.div_lt_upper_bound; lia].
  - destruct fb as [fb|]; [|done].
    destruct (slice_get fb off (off + 4)) as [[|b0 [|b1 [|b2 [|b3 [|]]]]]|]; try done.
    destruct (checked_uint 32 _) as [size|]; [|done].
    destruct (checked_uint 16 _) as [x|] eqn:Hx; [|done].
    apply checked_uint_Some in Hx as [-> Hx]. by apply frameless_rule_wf.
  - by intros [= <-].
Qed.

Lemma unwind_frame_wf f first off fb rule :
  unwind_frame f first off fb = Val (Ok (CuiExecRule rule)) → wf_rule rule.
Proof.
  pose proof (opcode_x86_parse_wf (opcode f)) as Hop. unfold unwind_frame.
  destruct first; [|by apply rule_for_body_wf].
  assert (Hnone : (if is_null (opcode_x86_parse (opcode f)) then Val (Ok (CuiExecRule JustReturn))
                   else rule_for_body (opcode_x86_parse (opcode f)) fb) =
      Val (Ok (CuiExecRule rule)) → wf_rule rule).
  { destruct (is_null _); [by intros [= <-]|by apply rule_for_body_wf]. }
  destruct fb as [fb|]; cbn [mbind may_bind]; [|exact Hnone].
  destruct (rule_from_instruction_analysis fb off) as [[r|]|] eqn:Hr; cbn [mbind may_bind];
    [| |done].
  - apply instruction_analysis_wf in Hr. by intros [= <-].
  - destruct (is_null _ && _); cbn [mbind may_bind]; [by intros [= <-]|exact Hnone].
Qed.

Lemma stub_helper_wf off rule :
  rule_for_stub_helper off = Ok (CuiExecRule rule) → wf_rule rule.
Proof.
  unfold rule_for_stub_helper. intros [= <-]. by repeat case_match.
Qed.
End Wf.

(** * Frameless functions

    The frame of a function that keeps no frame pointer: [size] bytes, which count the
    return address, and the registers its prologue pushed, the first one next to the
    return address. *)

Definition pushed (saved_regs : list (option RegisterName)) : list RegisterName :=
  omap id (rev saved_regs).

(** The opcodes that describe such a function, with the code they refer to: the size is
    in the opcode, or in the [sub rsp, imm32] of the prologue up to an adjustment. *)
Inductive describes_frame (fb : option (list Z)) (size : Z)
    (saved : list (option RegisterName)) : OpcodeX86_64 → Prop :=
| immediate_size : is_u16 size → describes_frame fb size saved (X86FramelessImmediate size saved)
| indirect_size code offset adjust b0 b1 b2 b3 :
    fb = Some code → slice_get code offset (offset + 4) = Some [b0; b1; b2; b3] →
    u32_from_le_bytes b0 b1 b2 b3 + adjust = size →
    describes_frame fb size saved (X86FramelessIndirect offset adjust saved).

(** The state in the body of the function, called with the stack pointer [sp0] and the
    frame pointer [bp0]. *)
Definition frame_established (mem : Z → option Z) (size : Z)
    (saved : list (option RegisterName)) (sp0 bp0 : Z) (r : UnwindRegsX86_64) : Prop :=
  sp r = sp0 - (size - 8) ∧
  (∀ i : nat, pushed saved !! i = Some Rbp → mem (sp0 - 8 * (Z.of_nat i + 1)) = Some bp0) ∧
  (Rbp ∉ pushed saved → bp r = bp0).

(** The first pushed [rbp]. *)
Definition pushed_rbp (saved : list (option RegisterName)) : option nat :=
  fst <$> list_find (λ reg, reg = Rbp) (pushed saved).

Lemma pushed_rbp_spec saved :
  match pushed_rbp saved with
  | Some i => pushed saved !! i = Some Rbp
  | None => Rbp ∉ pushed saved
  end.
Proof.
  unfold pushed_rbp. destruct (list_find _ _) as [[i reg]|] eqn:Hf; simpl.
  - apply list_find_Some in Hf as (Hi & -> & _). done.
  - apply list_find_None in Hf. rewrite Forall_forall in Hf. intros Hin. by apply (Hf Rbp).
Qed.

Lemma bp_position_pushed saved :
  bp_position_from_outside saved = Z.of_nat <$> pushed_rbp saved.
Proof.
  unfold bp_position_from_outside, pushed_rbp, pushed.
  induction (rev saved) as [|[x|] l IH]; simpl; [done| |exact IH].
  destruct (decide (x = Rbp)) as [->|Hx]; [done|]. rewrite IH.
  destruct (list_find _ _) as [[i reg]|]; simpl; [f_equal; lia|done].
Qed.

(** The frames a rule cannot represent: the size must fit a [u32] and, in words, a [u16],
    and the slot of the frame pointer, in words from the stack pointer, an [i16]. *)
Definition frame_limit {G M} (size : Z) (saved : list (option RegisterName)) :
    option (CompactUnwindInfoUnwinderError G M) :=
  if 2 ^ 32 <=? size then Some StackAdjustOverflow
  else if 2 ^ 19 <=? size then Some StackSizeDoesNotFit
  else match pushed_rbp saved with
       | Some i => if 2 ^ 15 <=? size / 8 - 2 - Z.of_nat i then Some BpOffsetDoesNotFit else None
       | None => None
       end.

(** The rule computed from a size and the saved registers. *)
Lemma frameless_rule_correct `{Profile, Gimli, MachoUnwindInfo} size saved :
  0 ≤ size < 2 ^ 19 → (8 | size) → 8 * (Z.of_nat (length (pushed saved)) + 1) ≤ size →
  match frame_limit size saved with
  | Some e => frameless_rule size (size / 8) saved = Val (Err e)
  | None =>
      ∃ rule, frameless_rule size (size / 8) saved = Val (Ok (CuiExecRule rule)) ∧
        wf_rule rule ∧
        ∀ mem first r sp0 bp0, frame_established mem size saved sp0 bp0 r →
          denote mem rule first r = Some (sp0 + 8, set_bp r bp0)
  end.
Proof.
  intros Hsize [k Hk] Hroom. assert (Hdiv : size / 8 = k) by (by rewrite Hk, Z.div_mul).
  unfold frame_limit. destruct (Z.leb_spec (2 ^ 32) size), (Z.leb_spec (2 ^ 19) size); try lia.
  rewrite Hdiv. unfold frameless_rule. rewrite bp_position_pushed.
  pose proof (pushed_rbp_spec saved) as Hpos. destruct (pushed_rbp saved) as [i|]; simpl.
  - pose proof (lookup_lt_Some _ _ _ Hpos) as Hlen.
    rewrite sext_id by range. rewrite sarith_ok by range. cbn [mbind may_bind].
    rewrite sarith_ok by range. cbn [mbind may_bind].
    replace (size - 16 - Z.of_nat i * 8) with ((k - 2 - Z.of_nat i) * 8) by lia.
    rewrite Z.quot_mul by done. unfold checked_sint.
    destruct (in_sint_spec 16 (k - 2 - Z.of_nat i)) as [Hfit|Hfit];
      destruct (Z.leb_spec (2 ^ 15) (k - 2 - Z.of_nat i)); try (by exfalso; range).
    + eexists. split; [done|]. split; [split; range|].
      intros mem first r sp0 bp0 (Hsp & Hmem & _). unfold denote.
      replace (sp r + (k - 2 - Z.of_nat i) * 8) with (sp0 - 8 * (Z.of_nat i + 1)) by lia.
      rewrite (Hmem _ Hpos). do 2 f_equal. lia.
    + done.
  - eexists. split; [done|]. split; [simpl; range|].
    intros mem first r sp0 bp0 (Hsp & _ & Hbp). rewrite <- (Hbp Hpos), set_bp_id.
    simpl. do 2 f_equal. lia.
Qed.

(** C35.  In the body of a frameless function the rule of its compact unwind info denotes
    the caller, or the frame is too large for a rule and the error says why.  For both
    frameless opcodes, with the stack size (whole words, with room for the pushed
    registers) in the opcode or in the code of the function, and whatever registers the
    prologue saved: if the size in words fits a [u16] and the slot of a pushed frame
    pointer an [i16], the rule finds the stack pointer of the caller and its frame
    pointer, from the slot where the prologue pushed it or from the register; otherwise
    the result is [StackAdjustOverflow], [StackSizeDoesNotFit] or [BpOffsetDoesNotFit]. *)
Theorem frameless_correct `{Profile, Gimli, MachoUnwindInfo} op size saved fb :
  describes_frame fb size saved op → (8 | size) →
  8 * (Z.of_nat (length (pushed saved)) + 1) ≤ size →
  match frame_limit size saved with
  | Some e => rule_for_body op fb = Val (Err e)
  | None =>
      ∃ rule, rule_for_body op fb = Val (Ok (CuiExecRule rule)) ∧ wf_rule rule ∧
        ∀ mem first r sp0 bp0, frame_established mem size saved sp0 bp0 r →
          denote mem rule first r = Some (sp0 + 8, set_bp r bp0)
  end.
Proof.
  intros Hop Hk Hroom. destruct Hop as [Hu|code offset adjust b0 b1 b2 b3 -> Hcode <-]; simpl.
  - destruct (Z.eqb_spec size 8) as [->|]; [|apply frameless_rule_correct; [range|done..]].
    assert (Hno : pushed saved = []) by (by destruct (pushed saved); [|simpl in Hroom; lia]).
    unfold frame_limit, pushed_rbp. rewrite Hno. simpl. exists JustReturn. split_and!; [done|done|].
    intros mem first r sp0 bp0 (Hsp & _ & Hbp). rewrite Hno in Hbp.
    rewrite <- (Hbp (not_elem_of_nil _)), set_bp_id. simpl. do 2 f_equal. lia.
  - rewrite Hcode. set (size := u32_from_le_bytes b0 b1 b2 b3 + adjust) in *.
    destruct (Z.lt_ge_cases size (2 ^ 19)) as [Hlt|Hge].
    { rewrite checked_uint_ok by range.
      rewrite checked_uint_ok; [apply frameless_rule_correct; [lia|done..]|].
      split; [apply Z.div_pos; lia|apply Z.div_lt_upper_bound; lia]. }
    unfold frame_limit, checked_uint. destruct (Z.leb_spec (2 ^ 19) size); [|lia].
    destruct (Z.leb_spec (2 ^ 32) size), (in_uint_spec 32 size) as [Hfit|Hfit];
      try (by exfalso; range); [done|].
    destruct (in_uint_spec 16 (size / 8)) as [Hfit'|]; [|done].
    exfalso. destruct Hk as [k Hk]. rewrite Hk, Z.div_mul in Hfit' by done. range.
Qed.

(** [sub rsp, 0x1f8] after four pushes: [rbp] is the second of them. *)
Lemma frameless_correct_witness :
  ∃ rule, @rule_for_body GimliExample.toy_gimli toy_macho debug_profile
            (X86FramelessIndirect 9 40 [None; Some OtherRegister; Some OtherRegister; Some Rbp;
               Some OtherRegister])
            (Some [0x41; 0x57; 0x55; 0x41; 0x56; 0x53; 0x48; 0x81; 0xec; 0xf8; 1; 0; 0; 0x90]) =
            Val (Ok (CuiExecRule rule)) ∧ wf_rule rule ∧
    ∀ mem first r sp0 bp0,
      frame_established mem 0x220
        [None; Some OtherRegister; Some OtherRegister; Some Rbp; Some OtherRegister] sp0 bp0 r →
      denote mem rule first r = Some (sp0 + 8, set_bp r bp0).
Proof.
  apply (@frameless_correct debug_profile GimliExample.toy_gimli toy_macho
    (X86FramelessIndirect 9 40 [None; Some OtherRegister; Some OtherRegister; Some Rbp;
       Some OtherRegister]) 0x220 [None; Some OtherRegister; Some OtherRegister; Some Rbp;
       Some OtherRegister]
    (Some [0x41; 0x57; 0x55; 0x41; 0x56; 0x53; 0x48; 0x81; 0xec; 0xf8; 1; 0; 0; 0x90])).
  - by eapply indirect_size.
  - by exists 68.
  - simpl. lia.
Defined.

(** A frame of a megabyte has no rule. *)
Example frameless_too_large :
  @rule_for_body GimliExample.toy_gimli toy_macho release_profile
    (X86FramelessIndirect 0 8 []) (Some [0; 0; 0x10; 0]) = Val (Err StackSizeDoesNotFit).
Proof. done. Qed.

(** * The stub helper

    The instructions of [__stub_helper] the code's comment lists, as the number of words
    pushed before the instruction at an offset executes: a [lea], [push] and [jmp] shared
    by all stubs, which are entered after a stub's own push, then ten bytes of
    [push imm32; jmp] per stub. *)

Definition pushed_before (offset : Z) : option Z :=
  if offset =? 0 then Some 1
  else if offset =? 7 then Some 1
  else if offset =? 9 then Some 2
  else if offset <? 0x10 then None
  else if (offset - 0x10) mod 10 =? 0 then Some 0
  else if (offset - 0x10) mod 10 =? 5 then Some 1
  else None.

(** At the instructions of the stub helper the rule denotes the caller of the stub,
    with one exception: at the shared [push r11] it pops a word that has not been
    pushed yet. *)
Lemma stub_helper_rule_denotes `{Gimli, MachoUnwindInfo} offset n :
  pushed_before offset = Some n →
  ∃ rule, rule_for_stub_helper offset = Ok (CuiExecRule rule) ∧
    ∀ mem first r,
      denote mem rule first r =
        Some (sp r + 8 * (n + 1) + (if offset =? 7 then 8 else 0), r).
Proof.
  unfold pushed_before, rule_for_stub_helper. intros Hn. eexists. split; [done|].
  intros mem first r. revert Hn.
  destruct (Z.eqb_spec offset 0) as [->|]; [intros [= <-]; simpl; do 2 f_equal; lia|].
  destruct (Z.eqb_spec offset 7) as [->|]; [intros [= <-]; simpl; do 2 f_equal; lia|].
  destruct (Z.eqb_spec offset 9) as [->|]; [intros [= <-]; simpl; do 2 f_equal; lia|].
  destruct (Z.ltb_spec offset 0x10); [done|].
  destruct (Z.ltb_spec offset 0x7); [lia|].
  destruct (Z.eqb_spec ((offset - 0x10) mod 10) 0) as [->|];
    [intros [= <-]; simpl; do 2 f_equal; lia|].
  destruct (Z.eqb_spec ((offset - 0x10) mod 10) 5) as [->|]; [|done].
  intros [= <-]. simpl. do 2 f_equal. lia.
Qed.

Lemma stub_helper_rule_denotes_witness :
  ∃ rule, @rule_for_stub_helper GimliExample.toy_gimli toy_macho 7 = Ok (CuiExecRule rule) ∧
    ∀ mem first r,
      denote mem rule first r = Some (sp r + 8 * (1 + 1) + (if 7 =? 7 then 8 else 0), r).
Proof. apply (@stub_helper_rule_denotes GimliExample.toy_gimli toy_macho 7 1). reflexivity. Defined.
