(* ===== verification/A64Macho.v ===== *)
(** Compact unwind info on aarch64 ([src/aarch64/macho.rs]). *)

From S2P Require Import Prelude Error Arch Dwarf Macho InstructionAnalysis.
From S2P Require Import A64UnwindRegs A64UnwindRule A64InstructionAnalysis.
Local Open Scope Z_scope.

Section Macho.
Context `{Gimli, MachoUnwindInfo}.

(** The [match opcode] for an address in a function body. *)
Definition rule_for_body (opcode : OpcodeArm64) (is_first_frame : bool) :
    result (CuiUnwindResult UnwindRuleAarch64) cui_error :=
  match opcode with
  | ArmNull => Err FunctionHasNoInfo
  | ArmFrameless stack_size_in_bytes =>
      if is_first_frame then
        if stack_size_in_bytes =? 0 then Ok (CuiExecRule NoOp)
        else Ok (CuiExecRule (OffsetSp (stack_size_in_bytes / 16)))
      else Err CallerCannotBeFrameless
  | ArmDwarf eh_frame_fde => Ok (NeedDwarf eh_frame_fde)
  | ArmFrameBased => Ok (CuiExecRule UseFramePointer)
  | ArmUnrecognizedKind kind => Err (BadOpcodeKind kind)
  end.

Definition is_null (opcode : OpcodeArm64) : bool :=
  match opcode with ArmNull => true | _ => false end.

Definition unwind_frame `{Profile} (function : Function) (is_first_frame : bool)
    (address_offset_within_function : Z) (function_bytes : option (list Z)) :
    may (result (CuiUnwindResult UnwindRuleAarch64) cui_error) :=
  let opcode := opcode_arm64_parse (opcode function) in
  if is_first_frame then
    if is_null opcode then Val (Ok (CuiExecRule NoOp))
    else
      detected ←
        match function_bytes with
        | Some function_bytes =>
            rule_from_instruction_analysis (H0 := ArchAarch64) function_bytes
              address_offset_within_function
        | None => Val None
        end;
      match detected with
      | Some rule => Val (Ok (CuiExecRule rule))
      | None => Val (rule_for_body opcode is_first_frame)
      end
  else Val (rule_for_body opcode is_first_frame).

Definition rule_for_stub_helper (offset : Z) :
    result (CuiUnwindResult UnwindRuleAarch64) cui_error :=
  let rule :=
    if offset <? 0xc then NoOp else if offset <? 0x18 then OffsetSp 1 else NoOp in
  Ok (CuiExecRule rule).
End Macho.

#[export] Instance MachoAarch64 `{Gimli, MachoUnwindInfo} :
    @CompactUnwindInfoUnwinding _ _ ArchAarch64 := {|
  cui_unwind_frame _ := unwind_frame :
    Function → bool → Z → option (list Z) →
    may (result (CuiUnwindResult (@UnwindRule ArchAarch64)) _);
  Macho.rule_for_stub_helper := rule_for_stub_helper :
    Z → result (CuiUnwindResult (@UnwindRule ArchAarch64)) _;
|}.

(** * Rules are well-formed *)

Section Wf.
Context `{Profile, Gimli, MachoUnwindInfo}.

Lemma rule_for_body_wf_aarch64 op first rule :
  wf_opcode_arm op → rule_for_body op first = Ok (CuiExecRule rule) → wf_rule rule.
Proof.
  intros Hop. destruct op as [|size|fde| |k]; simpl in *; try done; [|by intros [= <-]].
  destruct first; [|done]. destruct (size =? 0); intros [= <-]; [done|].
  simpl. unfold is_uint in *.
  split; [apply Z.div_pos; lia|apply Z.div_lt_upper_bound; lia].
Qed.

Lemma unwind_frame_wf_aarch64 f first off fb rule :
  unwind_frame f first off fb = Val (Ok (CuiExecRule rule)) → wf_rule rule.
Proof.
  pose proof (opcode_arm64_parse_wf (opcode f)) as Hop. unfold unwind_frame.
  destruct first; [|intros [= Hr]; by apply rule_for_body_wf_aarch64 in Hr].
  destruct (is_null _); [by intros [= <-]|].
  destruct fb as [fb|]; cbn [mbind may_bind];
    [|intros [= Hr]; by apply rule_for_body_wf_aarch64 in Hr].
  destruct (rule_from_instruction_analysis fb off) as [[r|]|] eqn:Hr; cbn [mbind may_bind];
    [| |done].
  - apply instruction_analysis_wf_aarch64 in Hr. by intros [= <-].
  - clear Hr. intros [= Hr]. by apply rule_for_body_wf_aarch64 in Hr.
Qed.

Lemma stub_helper_wf_aarch64 off rule :
  rule_for_stub_helper off = Ok (CuiExecRule rule) → wf_rule rule.
Proof. unfold rule_for_stub_helper. intros [= <-]. by repeat case_match. Qed.
End Wf.

(** The instructions of [__stub_helper] on aarch64 the code's comment lists, as the bytes
    pushed before the instruction at an offset executes: the shared part pushes 16 bytes
    with its third instruction, a stub none. *)
Definition pushed_before (offset : Z) : Z :=
  if (0xc <=? offset) && (offset <? 0x18) then 16 else 0.

(** At every instruction of the stub helper, in the first frame, the rule denotes
    the caller of the stub: the stack pointer before the shared push, with the link
    and frame pointer registers unchanged. *)
Lemma stub_helper_rule_denotes_aarch64 `{Gimli, MachoUnwindInfo} offset :
  ∃ rule, rule_for_stub_helper offset = Ok (CuiExecRule rule) ∧
    ∀ mem r, denote mem rule true r = Some (lr r, sp r + pushed_before offset, fp r).
Proof.
  unfold rule_for_stub_helper, pushed_before. eexists. split; [done|]. intros mem r.
  destruct (Z.ltb_spec offset 0xc), (Z.leb_spec 0xc offset), (Z.ltb_spec offset 0x18);
    simpl; try lia; do 3 f_equal; lia.
Qed.

(** * Function bodies

    The state in the body of a function that was called with the stack pointer [sp0], the
    link register [lr0] and the frame pointer [fp0].  A frameless function only moved the
    stack pointer; a frame-based one stored the frame record below [sp0] and points to it.
    The frame pointer of the caller is the next record, or zero at the root of the stack. *)
Inductive frame_established (mem : Z → option Z) (lr0 sp0 fp0 : Z) (first : bool)
    (r : UnwindRegsAarch64) : OpcodeArm64 → Prop :=
| frameless_body size :
    first = true → (16 | size) → sp r = sp0 - size → lr r = lr0 → fp r = fp0 →
    frame_established mem lr0 sp0 fp0 first r (ArmFrameless size)
| frame_based_body :
    fp r = sp0 - 16 → mem (fp r) = Some fp0 → mem (fp r + 8) = Some lr0 →
    sp r < sp0 →
    frame_established mem lr0 sp0 fp0 first r ArmFrameBased.

(** Following the frame pointer where the caller's is not above. *)
Lemma exec_frame_pointer_ends `{Profile} {St} `{PureReader St} first r (st : St) f l :
  wf_regs r → is_u64 (fp r + 16) → memory st (fp r) = Some f →
  memory st (fp r + 8) = Some l → f ≤ fp r →
  exec UseFramePointer first (r, st) =
    Val (if f =? 0 then Ok None else Err FramepointerUnwindingMovedBackwards, (r, st)).
Proof.
  intros (_ & _ & _ & Hfp) Hsp Hf Hl Hle. unfold exec, new_regs, checked_add, get_regs.
  cbv [mbind M_bind lift try_]. cbn [fst snd].
  rewrite checked_uint_ok by done. rewrite uarith_ok by range. cbn [ok_or].
  rewrite read_or_memory by range. rewrite Hl. cbn. rewrite read_or_memory by range.
  rewrite Hf. cbn. destruct (f =? 0); [done|]. destruct (Z.leb_spec f (fp r)); [done|lia].
Qed.

(** C36.  In the body of a function the rule of its aarch64 compact unwind info denotes the
    caller: its link register, stack pointer and frame pointer, from the registers for
    the first frame of a frameless function, and from the frame record for a frame-based
    function whose caller has its frame record above.  A frame record that stores a null
    frame pointer, that of the root of the stack, ends the stack, and one that points
    down, or at itself, is an error; both leave the registers alone.  A frameless function
    that is not the first frame, which has no return address to offer, is an error. *)
Theorem compact_frame_correct_aarch64 `{Profile, Gimli, MachoUnwindInfo} {St}
    `{PureReader St} op lr0 sp0 fp0 first r (st : St) :
  wf_opcode_arm op → wf_regs r → is_u64 sp0 →
  frame_established (memory st) lr0 sp0 fp0 first r op →
  (∃ rule, rule_for_body op first = Ok (CuiExecRule rule) ∧ wf_rule rule ∧
     ((op = ArmFrameBased → fp r < fp0) →
        denote (memory st) rule first r = Some (lr0, sp0, fp0)) ∧
     (op = ArmFrameBased → fp0 = 0 →
        exec rule first (r, st) = Val (Ok None, (r, st))) ∧
     (op = ArmFrameBased → fp0 ≠ 0 → fp0 ≤ fp r →
        exec rule first (r, st) = Val (Err FramepointerUnwindingMovedBackwards, (r, st)))) ∧
  ∀ size, rule_for_body (ArmFrameless size) false = Err CallerCannotBeFrameless.
Proof.
  intros Hop Hr Hsp0 Hframe. split; [|done].
  destruct Hframe as [size -> [k Hk] Hsp <- <-|Hfp Hf Hl Hsp]; simpl.
  - destruct (Z.eqb_spec size 0) as [->|Hne].
    { exists NoOp. split_and!; [done|done| |done|done]. intros _. simpl. do 3 f_equal. lia. }
    assert (Hdiv : size / 16 = k) by (by rewrite Hk, Z.div_mul). rewrite Hdiv.
    simpl in Hop. exists (OffsetSp k). split_and!; [done|simpl; range| |done|done].
    intros _. simpl. do 3 f_equal. lia.
  - exists UseFramePointer.
    pose proof (exec_frame_pointer_ends first r st fp0 lr0 Hr ltac:(range) Hf Hl) as Hend.
    pose proof (memory_val _ _ _ Hf) as Hu. split_and!; [done|done| | |].
    + intros Hup. specialize (Hup eq_refl). simpl. rewrite Hl. simpl. rewrite Hf. simpl.
      destruct Hr as (_ & _ & _ & Hfpr).
      destruct (Z.eqb_spec fp0 0), (Z.leb_spec fp0 (fp r)), (Z.leb_spec (fp r + 16) (sp r));
        simpl; try range. do 3 f_equal. lia.
    + intros _ ->. apply Hend. destruct Hr as (_ & _ & _ & Hfpr). range.
    + intros _ Hne Hle. rewrite Hend by done. by destruct (Z.eqb_spec fp0 0).
Qed.

(** The stack of [main], called from the root of the stack. *)
Definition frame_record_stack : list Z := [0; 0; 0; 0; 0x50; 0x9000].

Lemma compact_frame_correct_aarch64_witness :
  let r := new 0x8000 0x10 0x20 in
  (∃ rule, @rule_for_body GimliExample.toy_gimli toy_macho ArmFrameBased false =
     Ok (CuiExecRule rule) ∧ wf_rule rule ∧
     ((ArmFrameBased = ArmFrameBased → 0x20 < 0x50) →
        denote (memory frame_record_stack) rule false r = Some (0x9000, 0x30, 0x50)) ∧
     (ArmFrameBased = ArmFrameBased → 0x50 = 0 →
        @exec debug_profile _ words_reader rule false (r, frame_record_stack) =
          Val (Ok None, (r, frame_record_stack))) ∧
     (ArmFrameBased = ArmFrameBased → 0x50 ≠ 0 → 0x50 ≤ 0x20 →
        @exec debug_profile _ words_reader rule false (r, frame_record_stack) =
          Val (Err FramepointerUnwindingMovedBackwards, (r, frame_record_stack)))) ∧
  ∀ size, @rule_for_body GimliExample.toy_gimli toy_macho (ArmFrameless size) false =
    Err CallerCannotBeFrameless.
Proof.
  intros r. apply (@compact_frame_correct_aarch64 debug_profile GimliExample.toy_gimli
    toy_macho (list Z) words_reader words_pure ArmFrameBased 0x9000 0x30 0x50 false r
    frame_record_stack); [done|apply wf_new_aarch64; range|range|].
  by apply frame_based_body.
Defined.
