(* ===== verification/Pe.v ===== *)
(** The generic part of PE unwinding ([src/pe.rs]).

    The parser [pe_unwind_info] is a parameter: the class [PeUnwindInfo] has the
    functions and types of it the crate uses. *)

From S2P Require Import Prelude Error Arch Dwarf X86UnwindRegs.
From stdpp Require Import list.
Local Open Scope Z_scope.

(** * Sections *)

(** [data] of a [DataAtRvaRange] and its range of relative addresses. *)
Record DataAtRvaRange : Type := mk_data_at { data : list Z; rva_start : Z; rva_end : Z }.

Record PeSections : Type := mk_pe_sections {
  pdata : list Z;
  rdata : option DataAtRvaRange;
  xdata : option DataAtRvaRange;
  text : option DataAtRvaRange;
}.

(** The index panics when the data is shorter than the range says. *)
Definition memory_at_rva (m : DataAtRvaRange) (address : Z) : may (option (list Z)) :=
  if (rva_start m <=? address) && (address <? rva_end m) then
    s ← slice_from (data m) (address - rva_start m); Val (Some s)
  else Val None.

Definition option_memory_at_rva (o : option DataAtRvaRange) (rva : Z) :
    may (option (list Z)) :=
  match o with Some m => memory_at_rva m rva | None => Val None end.

Definition unwind_info_memory_at_rva (self : PeSections) (rva : Z) :
    may (result (list Z) PeUnwinderError) :=
  m ← option_memory_at_rva (rdata self) rva;
  match m with
  | Some m => Val (Ok m)
  | None =>
      m ← option_memory_at_rva (xdata self) rva;
      Val (ok_or m (MissingUnwindInfoData rva))
  end.

Definition text_memory_at_rva (self : PeSections) (rva : Z) :
    may (result (list Z) PeUnwinderError) :=
  m ← option_memory_at_rva (text self) rva;
  Val (ok_or m (MissingInstructionData rva)).

(** * The interface of the parser *)

(** [pe_unwind_info::x86_64::Register] has the constructors of the crate's [Reg]. *)
Inductive Register : Type :=
| PE_RAX | PE_RCX | PE_RDX | PE_RBX | PE_RSP | PE_RBP | PE_RSI | PE_RDI
| PE_R8 | PE_R9 | PE_R10 | PE_R11 | PE_R12 | PE_R13 | PE_R14 | PE_R15.

Inductive FunctionEpilogInstruction : Type :=
| AddSP (offset : Z)
| AddSPFromFP (offset : Z)
| EpilogPop (reg : Register).

(** [UnwindOperation], with [O] for the operations the crate only passes on. *)
Inductive UnwindOperation (O : Type) : Type :=
| UnStackAlloc (offset : Z)
| PopNonVolatile (reg : Register)
| OtherOperation (o : O).
Arguments UnStackAlloc {O}. Arguments PopNonVolatile {O}. Arguments OtherOperation {O}.

Record RuntimeFunction : Type := mk_runtime_function {
  begin_address : Z;
  end_address : Z;
  unwind_info_address : Z;
}.

(** The trait [UnwindState], the callbacks of [resolve_operation] on a state [S]. *)
Record UnwindState (S : Type) : Type := mk_unwind_state {
  read_register : Register → S → Z * S;
  state_read_stack : Z → S → option Z * S;
  write_register : Register → Z → S → S;
  write_xmm_register : Z → Z → S → S;
}.
Arguments read_register {S}. Arguments state_read_stack {S}.
Arguments write_register {S}. Arguments write_xmm_register {S}.

Inductive ControlFlow : Type := Break (ra : Z) | Continue.

(** The callbacks keep an invariant and exchange machine words. *)
Definition state_preserves {S} (cb : UnwindState S) (I : S → Prop) : Prop :=
  (∀ reg s, I s → is_u64 (read_register cb reg s).1 ∧ I (read_register cb reg s).2) ∧
  (∀ a s, I s → (∀ v, (state_read_stack cb a s).1 = Some v → is_u64 v) ∧
                I (state_read_stack cb a s).2) ∧
  (∀ reg v s, I s → is_u64 v → I (write_register cb reg v s)) ∧
  (∀ reg v s, I s → I (write_xmm_register cb reg v s)).

Class PeUnwindInfo : Type := {
  PeUnwindInfoData : Type;
  OtherOp : Type;
  function_table_lookup : list Z → Z → option RuntimeFunction;
  pe_unwind_info_parse : list Z → option PeUnwindInfoData;
  frame_register : PeUnwindInfoData → option Register;
  (* The [unwind_info_address] of a chained-info trailer. *)
  chained_unwind_info_address : PeUnwindInfoData → option Z;
  unwind_operations : PeUnwindInfoData → list (Z * UnwindOperation OtherOp);
  parse_sequence : list Z → option Register → option (list FunctionEpilogInstruction);
  resolve_operation {S} : UnwindState S → PeUnwindInfoData → UnwindOperation OtherOp →
    S → option ControlFlow * S;
  (* What the Rust types promise: the operation is generic in the state and reaches it
     only through the callbacks. *)
  resolve_operation_preserves {S} (cb : UnwindState S) (I : S → Prop) info op s :
    state_preserves cb I → I s →
    I (resolve_operation cb info op s).2 ∧
    (∀ ra, (resolve_operation cb info op s).1 = Some (Break ra) → is_u64 ra);
}.

(** A lookup returns the function that covers the address. *)
Class PeLookup `{PeUnwindInfo} : Prop :=
  function_table_lookup_covers pdata a f :
    function_table_lookup pdata a = Some f →
    0 ≤ begin_address f ≤ a ∧ a < end_address f < 2 ^ 32.

(** What the parser's documentation says of the two operations the crate can turn into a
    rule, away from the end of the address space. *)
Class PeOperations `{PeUnwindInfo} : Prop := {
  resolve_stack_alloc {S} (cb : UnwindState S) info n s rsp s1 :
    read_register cb PE_RSP s = (rsp, s1) → 0 ≤ rsp → 0 ≤ n → rsp + n < 2 ^ 64 →
    resolve_operation cb info (UnStackAlloc n) s =
      (Some Continue, write_register cb PE_RSP (rsp + n) s1);
  resolve_pop {S} (cb : UnwindState S) info reg s rsp s1 :
    read_register cb PE_RSP s = (rsp, s1) → 0 ≤ rsp → rsp + 8 < 2 ^ 64 →
    resolve_operation cb info (PopNonVolatile reg) s =
      match state_read_stack cb rsp s1 with
      | (Some v, s2) =>
          (Some Continue, write_register cb PE_RSP (rsp + 8) (write_register cb reg v s2))
      | (None, s2) => (None, s2)
      end;
}.

(** How many chained unwind infos are followed before the unwinder counts as
    diverging. *)
Class ChainFuel : Type := chain_fuel : nat.

(** The trait [PeUnwinding]. *)
Class PeUnwinding `{PeUnwindInfo, Arch} : Type := {
  pe_unwind_frame `{Profile, ChainFuel} {St : Type} `{StackReader St} :
    PeSections → Z → bool → M (UnwindRegs * St) PeUnwinderError (UnwindResult UnwindRule);
}.

(** * Reading sections *)

(** Reading a section at a relative address yields the bytes from that address to the
    end of the section's data when its range contains the address, and nothing when it
    does not; it panics exactly when the range contains the address but the data ends
    before it. *)
Lemma memory_at_rva_correct (m : DataAtRvaRange) (a : Z) :
  match memory_at_rva m a with
  | Val (Some s) => rva_start m ≤ a < rva_end m ∧ s = drop (Z.to_nat (a - rva_start m)) (data m)
  | Val None => ¬ (rva_start m ≤ a < rva_end m)
  | Fault k => k = Panicking ∧ rva_start m ≤ a < rva_end m ∧
      Z.of_nat (length (data m)) < a - rva_start m
  end.
Proof.
  unfold memory_at_rva, slice_from.
  destruct (Z.leb_spec (rva_start m) a), (Z.ltb_spec a (rva_end m)); simpl; try lia.
  destruct (Z.leb_spec 0 (a - rva_start m)); [|lia].
  destruct (Z.leb_spec (a - rva_start m) (Z.of_nat (length (data m)))); simpl; [done|].
  split_and!; done || lia.
Qed.
