(* ===== verification/PeExample.v ===== *)
(** A small PE parser that meets the interface of [Pe.v], for the examples. *)

From S2P Require Import Prelude Error Dwarf Pe.
From stdpp Require Import list.
Local Open Scope Z_scope.

(** Unwind info is [1; address] for a chained one, and else [0] and pairs of a code offset
    and an operation: a register number or, from 16, an allocation; -1 is the operation that
    takes the stack pointer from the frame pointer. *)
Definition toy_register (n : Z) : Register :=
  if n =? 3 then PE_RBX else if n =? 5 then PE_RBP else PE_RAX.

Fixpoint toy_operations (l : list Z) : list (Z * UnwindOperation ()) :=
  match l with
  | o :: n :: l' =>
      (o, if n <? 0 then OtherOperation () else
          if n <? 16 then PopNonVolatile (toy_register n) else UnStackAlloc n)
        :: toy_operations l'
  | _ => []
  end.

Definition toy_function_lookup (pdata : list Z) (a : Z) : option RuntimeFunction :=
  match pdata with
  | [b; e; i] =>
      if (0 <=? b) && (b <=? a) && (a <? e) && (e <? 2 ^ 32)
      then Some (mk_runtime_function b e i) else None
  | _ => None
  end.

(** The machine code of [pop rax], [pop rbx], [pop rbp], [add rsp, n] and [ret]. *)
Fixpoint toy_sequence (bytes : list Z) : option (list FunctionEpilogInstruction) :=
  match bytes with
  | 0xc3 :: _ => Some []
  | 0x58 :: l => cons (EpilogPop PE_RAX) <$> toy_sequence l
  | 0x5b :: l => cons (EpilogPop PE_RBX) <$> toy_sequence l
  | 0x5d :: l => cons (EpilogPop PE_RBP) <$> toy_sequence l
  | 0x48 :: 0x83 :: 0xc4 :: n :: l => cons (AddSP n) <$> toy_sequence l
  | _ => None
  end.

Definition toy_resolve {S} (cb : UnwindState S) (info : list Z)
    (op : UnwindOperation ()) (s : S) : option ControlFlow * S :=
  match op with
  | UnStackAlloc n =>
      let '(rsp, s) := read_register cb PE_RSP s in
      (Some Continue, write_register cb PE_RSP (wrap 64 (rsp + n)) s)
  | PopNonVolatile reg =>
      let '(rsp, s) := read_register cb PE_RSP s in
      match state_read_stack cb rsp s with
      | (Some v, s) =>
          (Some Continue,
           write_register cb PE_RSP (wrap 64 (rsp + 8)) (write_register cb reg v s))
      | (None, s) => (None, s)
      end
  | OtherOperation _ =>
      let '(rbp, s) := read_register cb PE_RBP s in
      (Some Continue, write_register cb PE_RSP rbp s)
  end.

Lemma toy_resolve_preserves {S} (cb : UnwindState S) (I : S → Prop) info op s :
  state_preserves cb I → I s →
  I (toy_resolve cb info op s).2 ∧
  (∀ ra, (toy_resolve cb info op s).1 = Some (Break ra) → is_u64 ra).
Proof.
  intros (Hr & Hm & Hw & _) Hs. destruct op as [n|reg|o]; simpl.
  3: { pose proof (Hr PE_RBP s Hs) as [Hv HI].
       destruct (read_register cb PE_RBP s) as [rbp s1]; simpl in *. split; [by apply Hw|done]. }
  all: pose proof (Hr PE_RSP s Hs) as [_ HI];
    destruct (read_register cb PE_RSP s) as [rsp s1]; simpl in HI.
  - split; [|done]. by apply Hw, wrap_range.
  - pose proof (Hm rsp s1 HI) as [Hv HI'].
    destruct (state_read_stack cb rsp s1) as [[v|] s2]; simpl in *; [|done].
    split; [|done]. apply Hw, wrap_range; [|done]. by apply Hw; [|apply Hv].
Qed.

#[export] Instance toy_pe : PeUnwindInfo := {|
  PeUnwindInfoData := list Z;
  OtherOp := ();
  function_table_lookup := toy_function_lookup;
  pe_unwind_info_parse d := match d with [] => None | _ => Some d end;
  frame_register _ := None;
  chained_unwind_info_address d := match d with [1; a] => Some a | _ => None end;
  unwind_operations d := match d with 0 :: l => toy_operations l | _ => [] end;
  parse_sequence bytes _ := toy_sequence bytes;
  resolve_operation _ := toy_resolve;
  resolve_operation_preserves _ := toy_resolve_preserves;
|}.

#[export] Instance toy_pe_operations : PeOperations.
Proof.
  split.
  - intros S cb info n s rsp s1 Hread H0 Hn Hlt. simpl. rewrite Hread.
    by rewrite wrap_id by range.
  - intros S cb info reg s rsp s1 Hread H0 Hlt. simpl. rewrite Hread.
    by rewrite wrap_id by range.
Qed.
