(* ===== verification/X86Pe.v ===== *)
(** PE unwinding on x86_64 ([src/x86_64/pe.rs]). *)

From S2P Require Import Prelude Error Arch Dwarf Pe.
From S2P Require Import X86UnwindRegs X86RegisterOrdering X86UnwindRule PeExample.
From stdpp Require Import list.
Local Open Scope Z_scope.

Definition convert_pe_register (r : Register) : Reg :=
  match r with
  | PE_RAX => RAX | PE_RCX => RCX | PE_RDX => RDX | PE_RBX => RBX
  | PE_RSP => RSP | PE_RBP => RBP | PE_RSI => RSI | PE_RDI => RDI
  | PE_R8 => R8 | PE_R9 => R9 | PE_R10 => R10 | PE_R11 => R11
  | PE_R12 => R12 | PE_R13 => R13 | PE_R14 => R14 | PE_R15 => R15
  end.

(** [(offset / 8).try_into()]. *)
Definition offset_by_8 (offset : Z) : OffsetOrPop :=
  match checked_uint 16 (Z.quot offset 8) with
  | Some v => OffsetBy8 v
  | None => NotOffsetOrPop
  end.

(** The two [From] implementations for [OffsetOrPop]. *)
Definition of_epilog_instruction (value : FunctionEpilogInstruction) : OffsetOrPop :=
  match value with
  | AddSP offset => offset_by_8 offset
  | EpilogPop reg => Pop (convert_pe_register reg)
  | AddSPFromFP _ => NotOffsetOrPop
  end.
Definition of_unwind_operation {O} (value : UnwindOperation O) : OffsetOrPop :=
  match value with
  | UnStackAlloc offset => offset_by_8 offset
  | PopNonVolatile reg => Pop (convert_pe_register reg)
  | OtherOperation _ => NotOffsetOrPop
  end.

(** [iter.skip_while(p)]. *)
Fixpoint skip_while {A} (p : A → bool) (l : list A) : list A :=
  match l with
  | [] => []
  | x :: l' => if p x then skip_while p l' else l
  end.

Section Pe.
Context `{Profile, PeUnwindInfo} {St : Type} `{StackReader St}.
Abbreviation X := (M (UnwindRegsX86_64 * St) PeUnwinderError).

(** [State]: the callbacks on the registers and the reader. *)
Definition state : UnwindState (UnwindRegsX86_64 * St) := {|
  read_register reg s := (get s.1 (convert_pe_register reg), s);
  state_read_stack addr s :=
    let '(r, st) := read_stack addr s.2 in (result_ok r, (s.1, st));
  write_register reg value s := (set s.1 (convert_pe_register reg) value, s.2);
  write_xmm_register _ _ s := s;
|}.

(** The closure [read_stack_err]. *)
Definition read_stack_err (addr : Z) : X Z := read_or addr (MissingStackData (Some addr)).

(** One instruction of the epilog, simulated on the registers. *)
Definition simulate_instruction (unwind_info : PeUnwindInfoData)
    (instruction : FunctionEpilogInstruction) : X () :=
  match instruction with
  | AddSP offset =>
      regs ← get_regs;
      rsp ← lift (uarith 64 (get regs RSP + wrap 64 offset));
      put_regs (set regs RSP rsp)
  | AddSPFromFP offset =>
      fp ← lift (match frame_register unwind_info with Some fp => Val fp | None => Panic end);
      regs ← get_regs;
      rsp ← lift (uarith 64 (get regs (convert_pe_register fp) + wrap 64 offset));
      put_regs (set regs RSP rsp)
  | EpilogPop reg =>
      regs ← get_regs;
      let rsp := get regs RSP in
      val ← read_stack_err rsp;
      let regs := set regs (convert_pe_register reg) val in
      rsp ← lift (uarith 64 (rsp + 8));
      put_regs (set regs RSP rsp)
  end.

Fixpoint simulate (unwind_info : PeUnwindInfoData)
    (epilog_instructions : list FunctionEpilogInstruction) : X () :=
  match epilog_instructions with
  | [] => mret ()
  | instruction :: rest =>
      simulate_instruction unwind_info instruction ;; simulate unwind_info rest
  end.

(** The return address at the stack pointer, which is popped. *)
Definition pop_return_address : X (UnwindResult UnwindRuleX86_64) :=
  regs ← get_regs;
  let rsp := get regs RSP in
  ra ← read_stack_err rsp;
  rsp ← lift (uarith 64 (rsp + 8));
  put_regs (set regs RSP rsp) ;;
  mret (Uncacheable ra).

(** [core::iter::successors(..).collect::<Result<Vec<_>, _>>()]. *)
Fixpoint chained_info (fuel : nat) (sections : PeSections) (info : PeUnwindInfoData) :
    may (result (list PeUnwindInfoData) PeUnwinderError) :=
  match chained_unwind_info_address info with
  | None => Val (Ok [info])
  | Some unwind_info_address =>
      match fuel with
      | O => Diverge
      | S fuel =>
          data ← unwind_info_memory_at_rva sections unwind_info_address;
          match data with
          | Err e => Val (Err e)
          | Ok data =>
              match pe_unwind_info_parse data with
              | None => Val (Err UnwindInfoParseError)
              | Some next =>
                  rest ← chained_info fuel sections next;
                  Val (match rest with Ok rest => Ok (info :: rest) | Err e => Err e end)
              end
          end
      end
  end.

(** The operations of the chained infos; of the first, those at or before [offset]. *)
Definition operations_of (offset : Z) (infos : list PeUnwindInfoData) :
    list (UnwindOperation OtherOp) :=
  match infos with
  | [] => []
  | first :: rest =>
      (snd <$> skip_while (λ op, offset <? op.1) (unwind_operations first)) ++
      concat ((λ info, snd <$> unwind_operations info) <$> rest)
  end.

(** The loop over [resolve_operation]; [Some ra] is the early return. *)
Fixpoint resolve_operations (unwind_info : PeUnwindInfoData)
    (operations : list (UnwindOperation OtherOp)) : X (option Z) :=
  match operations with
  | [] => mret None
  | op :: rest => λ s,
      let '(r, s) := resolve_operation state unwind_info op s in
      match r with
      | None => Val (Err (MissingStackData None), s)
      | Some (Break ra) => Val (Ok (Some ra), s)
      | Some Continue => resolve_operations unwind_info rest s
      end
  end.

(** The epilog, simulated up to and including its return. *)
Definition unwind_by_simulation (unwind_info : PeUnwindInfoData)
    (epilog_instructions : list FunctionEpilogInstruction) :
    X (UnwindResult UnwindRuleX86_64) :=
  simulate unwind_info epilog_instructions ;; pop_return_address.

(** The operations of the function body, and the return. *)
Definition unwind_by_operations (unwind_info : PeUnwindInfoData)
    (operations : list (UnwindOperation OtherOp)) : X (UnwindResult UnwindRuleX86_64) :=
  ra ← resolve_operations unwind_info operations;
  match ra with
  | Some ra => mret (Uncacheable ra)
  | None => pop_return_address
  end.

(** The part for an address in the function's epilog; [None] when it is not in one. *)
Definition unwind_epilog (sections : PeSections) (address : Z) (function : RuntimeFunction)
    (unwind_info : PeUnwindInfoData) : X (option (UnwindResult UnwindRuleX86_64)) :=
  bytes ← lift (uarith 32 (end_address function - address));
  text ← lift (text_memory_at_rva sections address);
  text ← try_ text;
  instruction ← lift (slice_to text bytes);
  match parse_sequence instruction (frame_register unwind_info) with
  | None => mret None
  | Some epilog_instructions =>
      rule ← lift (for_sequence_of_offset_or_pop
                     (of_epilog_instruction <$> epilog_instructions));
      match rule with
      | Some rule => mret (Some (ExecRule rule))
      | None =>
          r ← unwind_by_simulation unwind_info epilog_instructions; mret (Some r)
      end
  end.

Definition unwind_body `{ChainFuel} (sections : PeSections) (address : Z)
    (function : RuntimeFunction) (unwind_info : PeUnwindInfoData) :
    X (UnwindResult UnwindRuleX86_64) :=
  infos ← lift (chained_info chain_fuel sections unwind_info);
  infos ← try_ infos;
  offset ← lift (uarith 32 (address - begin_address function));
  let operations := operations_of offset infos in
  rule ← lift (for_sequence_of_offset_or_pop (of_unwind_operation <$> operations));
  match rule with
  | Some rule => mret (ExecRule rule)
  | None => unwind_by_operations unwind_info operations
  end.

Definition unwind_frame `{ChainFuel} (sections : PeSections) (address : Z)
    (is_first_frame : bool) : X (UnwindResult UnwindRuleX86_64) :=
  match function_table_lookup (pdata sections) address with
  | None => mret (ExecRule JustReturn)
  | Some function =>
      data ← lift (unwind_info_memory_at_rva sections (unwind_info_address function));
      data ← try_ data;
      unwind_info ← try_ (ok_or (pe_unwind_info_parse data) UnwindInfoParseError);
      in_epilog ←
        (if is_first_frame then unwind_epilog sections address function unwind_info
         else mret None);
      match in_epilog with
      | Some r => mret r
      | None => unwind_body sections address function unwind_info
      end
  end.
End Pe.

#[export] Instance PeX86_64 `{PeUnwindInfo} : @PeUnwinding _ ArchX86_64 := {|
  pe_unwind_frame _ _ _ _ := unwind_frame :
    PeSections → Z → bool →
    M (@UnwindRegs ArchX86_64 * _) _ (UnwindResult (@UnwindRule ArchX86_64));
|}.

(** * What PE unwinding does to the registers *)

Section Preservation.
Context `{Profile, PeUnwindInfo} {St : Type} `{StackReader St}.
Context (i : Z).

(** Machine words, and an instruction pointer that stays [i]. *)
Definition kept (s : UnwindRegsX86_64 * St) : Prop := wf_regs s.1 ∧ ip s.1 = i.

Lemma state_preserves_kept : state_preserves state kept.
Proof.
  split_and!; unfold kept; simpl.
  - intros reg [r st] [Hwf Hip]; simpl. split; [apply Hwf|done].
  - intros a [r st] Hk; simpl. destruct (read_stack a st) as [[v|e] st'] eqn:Hr; simpl.
    + split; [|done]. intros ? [= <-]. by eapply read_stack_u64.
    + by split.
  - intros reg v [r st] [Hwf Hip] Hv; simpl. split; [by apply wf_set|done].
  - done.
Qed.

Definition stack_error {A} (res : result A PeUnwinderError) : Prop :=
  match res with Err (MissingStackData _) | Ok _ => True | Err _ => False end.

Lemma wp_simulate_instruction info instruction s :
  kept s →
  wp True (simulate_instruction info instruction)
    (λ res s', kept s' ∧ stack_error res) s.
Proof.
  unfold kept. intros [Hwf Hip].
  destruct instruction; simpl; unfold read_stack_err; wp_steps; try done;
    (split; [|done]); (split; [|done]); repeat apply wf_set; eauto using uarith_range with lia.
Qed.

Lemma wp_simulate info l s :
  kept s → wp True (simulate info l) (λ res s', kept s' ∧ stack_error res) s.
Proof.
  revert s. induction l as [|x l IH]; intros s Hs; simpl; [by wp_step|].
  wp_step. eapply wp_mono; [|by apply wp_simulate_instruction].
  intros [[]|e] s' [Hs' He]; [by apply IH|done].
Qed.

Lemma wp_pop_return_address s :
  kept s →
  wp True pop_return_address
    (λ res s', kept s' ∧
       match res with
       | Ok (Uncacheable ra) => is_u64 ra
       | Ok (ExecRule _) => False
       | Err e => ∃ a, e = MissingStackData (Some a)
       end) s.
Proof.
  unfold kept. intros [Hwf Hip]. unfold pop_return_address, read_stack_err. wp_steps; try done.
  - split_and!; [|done|done]. apply wf_set; eauto using uarith_range with lia.
  - eauto.
Qed.

Lemma wp_resolve_operations info ops s :
  kept s →
  wp True (resolve_operations info ops)
    (λ res s', kept s' ∧
       match res with
       | Ok (Some ra) => is_u64 ra
       | Ok None => True
       | Err e => e = MissingStackData None
       end) s.
Proof.
  revert s. induction ops as [|op ops IH]; intros s Hs; simpl; [by wp_step|].
  unfold wp.
  destruct (resolve_operation_preserves state kept info op s state_preserves_kept Hs)
    as [Hk Hra].
  destruct (resolve_operation state info op s) as [[[ra|]|] s']; simpl in *.
  - eauto.
  - by apply IH.
  - done.
Qed.
End Preservation.

Section Outcomes.
Context `{Profile, PeUnwindInfo, ChainFuel} {St : Type} `{StackReader St}.

(** A rule or an error about the sections leaves the registers and the reader alone. *)
Definition frame_post (s : UnwindRegsX86_64 * St)
    (res : result (UnwindResult UnwindRuleX86_64) PeUnwinderError)
    (s' : UnwindRegsX86_64 * St) : Prop :=
  kept (ip s.1) s' ∧
  match res with
  | Ok (ExecRule rule) => s' = s ∧ wf_rule rule
  | Ok (Uncacheable ra) => is_u64 ra
  | Err (MissingStackData _) => True
  | Err _ => s' = s
  end.

Lemma offset_by_8_u16 z n : offset_by_8 z = OffsetBy8 n → is_u16 n.
Proof.
  unfold offset_by_8. destruct (checked_uint _ _) eqn:Hc; [|done]. intros [= <-].
  by apply checked_uint_Some in Hc as [-> ?].
Qed.

Lemma epilog_rule_wf l rule :
  for_sequence_of_offset_or_pop (of_epilog_instruction <$> l) = Val (Some rule) →
  wf_rule rule.
Proof.
  apply for_sequence_wf. intros n (x & Hx & _)%list_elem_of_fmap.
  destruct x; try done. by apply (offset_by_8_u16 offset).
Qed.
Lemma operations_rule_wf {O} (l : list (UnwindOperation O)) rule :
  for_sequence_of_offset_or_pop (of_unwind_operation <$> l) = Val (Some rule) →
  wf_rule rule.
Proof.
  apply for_sequence_wf. intros n (x & Hx & _)%list_elem_of_fmap.
  destruct x; try done. by apply (offset_by_8_u16 offset).
Qed.

Lemma frame_post_pop s s' :
  kept (ip s.1) s' → wp True pop_return_address (frame_post s) s'.
Proof.
  intros Hs. eapply wp_mono; [|by apply wp_pop_return_address].
  intros [[]|e] s'' [Hk Hres]; [done|by split|]. destruct Hres as [a ->]. by split.
Qed.

Lemma wp_unwind_by_simulation info l s :
  kept (ip s.1) s → wp True (unwind_by_simulation info l) (frame_post s) s.
Proof.
  intros Hk. unfold unwind_by_simulation. wp_step.
  eapply wp_mono; [|by apply (wp_simulate (ip s.1))].
  intros [[]|e] s' [Hs' He]; [by apply frame_post_pop|]. split; [done|]. by destruct e.
Qed.

Lemma wp_unwind_by_operations info ops s :
  kept (ip s.1) s → wp True (unwind_by_operations info ops) (frame_post s) s.
Proof.
  intros Hk. unfold unwind_by_operations. wp_step.
  eapply wp_mono; [|by apply (wp_resolve_operations (ip s.1))].
  intros [[ra|]|e] s' [Hs' He]; [by wp_step|by apply frame_post_pop|].
  simplify_eq. by split.
Qed.

Lemma wp_unwind_epilog sections a function info s :
  wf_regs s.1 →
  wp True (unwind_epilog sections a function info)
    (λ res s', match res with
               | Ok None => s' = s
               | Ok (Some r) => frame_post s (Ok r) s'
               | Err e => frame_post s (Err e) s'
               end) s.
Proof.
  intros Hwf. assert (Hk : kept (ip s.1) s) by done.
  unfold unwind_epilog. wp_step. wp_step; [|done].
  wp_step. wp_step; [|done]. simpl. wp_step. wp_step. destruct a1 as [text|e].
  2:{ split; [done|]. by destruct e. }
  wp_step. wp_step; [|done]. simpl. destruct (parse_sequence _ _) as [l|]; [|done].
  wp_step. wp_step; [|done]. destruct a2 as [rule|].
  - wp_step. split; [done|]. split; [done|]. by eapply epilog_rule_wf.
  - wp_step. eapply wp_mono; [|by apply wp_unwind_by_simulation].
    intros [r|e] s' Hs'; [by wp_step|done].
Qed.

Lemma wp_unwind_body sections a function info s :
  wf_regs s.1 → wp True (unwind_body sections a function info) (frame_post s) s.
Proof.
  intros Hwf. assert (Hk : kept (ip s.1) s) by done.
  unfold unwind_body. wp_step. wp_step; [|done]. simpl. wp_step. wp_step.
  destruct a0 as [infos|e].
  2:{ split; [done|]. by destruct e. }
  wp_step. wp_step; [|done]. wp_step. wp_step; [|done]. destruct a1 as [rule|].
  - wp_step. split; [done|]. split; [done|]. by eapply operations_rule_wf.
  - by apply wp_unwind_by_operations.
Qed.

Lemma wp_pe_unwind_frame sections a first s :
  wf_regs s.1 → wp True (unwind_frame sections a first) (frame_post s) s.
Proof.
  intros Hwf. assert (Hk : kept (ip s.1) s) by done. unfold unwind_frame.
  destruct (function_table_lookup _ _) as [f|]; [|by wp_step].
  wp_step. wp_step; [|done]. simpl. wp_step. wp_step. destruct a0 as [d|e].
  2:{ split; [done|]. by destruct e. }
  wp_step. wp_step. destruct (pe_unwind_info_parse d) as [info|]; [|done]. simpl. wp_step.
  eapply wp_mono; [|destruct first; [by apply wp_unwind_epilog|by wp_step]].
  intros [[r|]|e] s' Hs'; simpl.
  - by wp_step.
  - subst s'. by apply wp_unwind_body.
  - done.
Qed.
End Outcomes.

(** * The rule and the simulation agree *)

(** How far a sequence moves the stack pointer. *)
Fixpoint room (ops : list OffsetOrPop) : Z :=
  match ops with
  | [] => 0
  | OffsetBy8 n :: ops' => n * 8 + room ops'
  | Pop _ :: ops' => 8 + room ops'
  | NotOffsetOrPop :: ops' => room ops'
  end.

(** An operand [offset_by_8] keeps exactly. *)
Definition aligned_offset (offset : Z) : Prop := 0 ≤ offset ∧ (8 | offset).
Definition aligned_instruction (x : FunctionEpilogInstruction) : Prop :=
  if x is AddSP offset then aligned_offset offset else True.
Definition aligned_operation {O} (x : UnwindOperation O) : Prop :=
  if x is UnStackAlloc offset then aligned_offset offset else True.

Lemma run_ops_sp mem ops r r' : run_ops mem ops r = Some r' → sp r' = sp r + room ops.
Proof.
  revert r. induction ops as [|[|n|reg] ops IH]; intros r; simpl.
  - intros [= ->]. lia.
  - done.
  - intros ->%IH. simpl_regs. lia.
  - destruct (mem (sp r)) as [v|]; simpl; [|done]. intros ->%IH. simpl_regs. lia.
Qed.

Lemma offset_by_8_aligned offset n :
  aligned_offset offset → offset_by_8 offset = OffsetBy8 n → n * 8 = offset.
Proof.
  intros [H0 [k ->]]. unfold offset_by_8. rewrite Z.quot_mul by lia.
  destruct (checked_uint 16 k) as [v|] eqn:Hc; [|done].
  apply checked_uint_Some in Hc as [-> _]. by intros [= ->].
Qed.

Lemma room_pops l : room (Pop <$> l) = 8 * Z.of_nat (length l).
Proof. induction l as [|x l IH]; csimpl; [done|]. rewrite IH. lia. Qed.

Lemma for_sequence_room `{Profile} ops rule :
  (∀ n, OffsetBy8 n ∈ ops → is_u16 n) →
  for_sequence_of_offset_or_pop ops = Val (Some rule) →
  Forall (λ op, op ≠ NotOffsetOrPop) ops ∧ 0 ≤ room ops ≤ 65535 * 8 + 64.
Proof.
  intros Hops Hseq.
  assert (Hrest : ∃ l, (split_offset ops).2 = Pop <$> l ∧ (length l ≤ 8)%nat).
  { revert Hseq. unfold for_sequence_of_offset_or_pop. fold (split_offset ops).
    destruct (split_offset ops) as [n rest]. simpl.
    destruct (collect_pops [] rest) as [to_pop|] eqn:Hc; [|done].
    apply collect_pops_Some in Hc as (l & -> & ->). intros Hm. exists l. split; [done|].
    destruct l as [|x l]; [simpl; lia|]. cbv iota in Hm. rewrite app_nil_l in Hm.
    destruct (encode (x :: l)) as [[[c e]|]|] eqn:He; cbn [mbind may_bind] in Hm; try done.
    by apply encode_sound in He as (_ & Hl & _). }
  destruct Hrest as (l & Hl & Hlen).
  assert (Hpops : Forall (λ op, op ≠ NotOffsetOrPop) (Pop <$> l)).
  { apply Forall_fmap, Forall_forall. by intros. }
  destruct ops as [|[|n|reg] ops]; simpl in Hl.
  - split; [done|]. simpl. lia.
  - rewrite <- Hl in Hpops. by apply Forall_cons in Hpops as [? _].
  - rewrite <- Hl in Hpops. split; [by constructor|].
    assert (is_u16 n) by (apply Hops; left). simpl. rewrite Hl, room_pops. range.
  - rewrite Hl. split; [done|]. rewrite room_pops. lia.
Qed.

Section Agreement.
Context `{Profile, PeUnwindInfo} {St : Type} `{PureReader St}.
Implicit Types (r : UnwindRegsX86_64) (st : St).

Lemma wf_sp r : wf_regs r → 0 ≤ sp r < 2 ^ 64.
Proof. intros [_ Hr]. apply (Hr RSP). Qed.

Lemma room_epilog_nonneg l : 0 ≤ room (of_epilog_instruction <$> l).
Proof.
  induction l as [|x l IH]; csimpl; [done|].
  destruct x as [o|o|reg]; simpl; [|done|lia].
  destruct (offset_by_8 o) as [|n|] eqn:Ho; try lia.
  apply offset_by_8_u16 in Ho. range.
Qed.

(** The simulated instructions do what their operations do. *)
Lemma simulate_run_ops info l r st :
  wf_regs r → Forall aligned_instruction l →
  Forall (λ op, op ≠ NotOffsetOrPop) (of_epilog_instruction <$> l) →
  sp r + room (of_epilog_instruction <$> l) < 2 ^ 64 →
  run_ok (simulate info l) (r, st) =
    (λ r', ((), (r', st))) <$> run_ops (memory st) (of_epilog_instruction <$> l) r.
Proof.
  revert r. induction l as [|x l IH]; intros r Hr Hal Hne Hroom; [done|].
  apply Forall_cons in Hal as [Hx Hal]. rewrite fmap_cons in *.
  apply Forall_cons in Hne as [Hnx Hne]. pose proof (wf_sp r Hr) as Hsp.
  pose proof (room_epilog_nonneg l) as Hl. cbn [simulate run_ops].
  rewrite run_ok_bind. destruct x as [o|o|reg]; simpl in Hx, Hnx; [|done|].
  - destruct (offset_by_8 o) as [|n|] eqn:Ho; [done| |].
    2:{ unfold offset_by_8 in Ho. by destruct (checked_uint _ _). }
    pose proof (offset_by_8_u16 _ _ Ho) as Hn.
    pose proof (offset_by_8_aligned _ _ Hx Ho) as <-.
    cbn [of_epilog_instruction simulate_instruction room run_op] in *. rewrite Ho in *.
    cbn [room run_op] in *.
    rewrite run_ok_bind, run_ok_get_regs. cbn [mbind option_bind fst snd].
    rewrite run_ok_bind, run_ok_lift. fold (sp r). rewrite wrap_id by range.
    rewrite uarith_ok by range. cbn [mbind option_bind fst snd].
    rewrite run_ok_put_regs. cbn [mbind option_bind fst snd].
    apply IH; try done; [apply wf_set; [done|range]|]. simpl_regs. lia.
  - cbn [of_epilog_instruction simulate_instruction room run_op] in *.
    rewrite run_ok_bind, run_ok_get_regs. cbn [mbind option_bind fst snd].
    unfold read_stack_err. fold (sp r). rewrite run_ok_bind, run_ok_read_or by range.
    destruct (memory st (sp r)) as [v|] eqn:Hm; cbn [mbind option_bind fmap option_fmap option_map fst snd]; [|done].
    rewrite run_ok_bind, run_ok_lift, uarith_ok by range.
    cbn [mbind option_bind fst snd]. rewrite run_ok_put_regs.
    cbn [mbind option_bind fst snd].
    apply IH; try done; [|unfold set_sp; simpl_regs; lia].
    repeat apply wf_set; [done|by eapply memory_val|range].
Qed.

Lemma pop_return_run r st :
  wf_regs r → sp r + 8 < 2 ^ 64 →
  run_ok pop_return_address (r, st) =
    (λ ra, (Uncacheable ra, (set_sp r (sp r + 8), st))) <$> memory st (sp r).
Proof.
  intros Hr Hlt. pose proof (wf_sp r Hr). unfold pop_return_address, read_stack_err.
  rewrite run_ok_bind, run_ok_get_regs. cbn [mbind option_bind fst snd]. fold (sp r).
  rewrite run_ok_bind, run_ok_read_or by range. destruct (memory st (sp r)); [|done].
  cbn [mbind option_bind fmap option_fmap option_map fst snd].
  by rewrite run_ok_bind, run_ok_lift, uarith_ok by range.
Qed.

Lemma exec_after_ops ops rule first r r1 st ra :
  wf_regs r → 8 ≤ sp r → sp r + 2 ^ 20 ≤ 2 ^ 64 →
  (∀ n, OffsetBy8 n ∈ ops → is_u16 n) →
  for_sequence_of_offset_or_pop ops = Val (Some rule) →
  run_ops (memory st) ops r = Some r1 → memory st (sp r1) = Some ra → ra ≠ 0 →
  exec rule first (r, st) =
    Val (Ok (Some ra), (set_ip (set_sp r1 (sp r1 + 8)) ra, st)).
Proof.
  intros Hr H8 Hhi Hops Hseq Hrun Hm Hnz.
  pose proof (for_sequence_room _ _ Hops Hseq) as [_ Hroom].
  pose proof (run_ops_sp _ _ _ _ Hrun) as Hsp.
  pose proof (for_sequence_denotes ops rule (memory st) first r Hseq) as Hd.
  rewrite Hrun in Hd. simpl in Hd.
  destruct (exec_denote rule first r st _ _ Hr (for_sequence_wf _ _ Hops Hseq) H8 Hd
    ltac:(lia)) as [r0 ->].
  replace (sp r1 + 8 - 8) with (sp r1) by lia. rewrite Hm.
  destruct (Z.eqb_spec ra 0), (Z.eqb_spec (sp r1 + 8) (sp r)); try done || lia.
  change (set_sp (set_ip ?x ra) ?y) with (set_ip (set_sp x y) ra).
  by rewrite set_sp_set_sp.
Qed.

Lemma epilog_operand_u16 (l : list FunctionEpilogInstruction) n : OffsetBy8 n ∈ of_epilog_instruction <$> l → is_u16 n.
Proof.
  intros (x & Hx & _)%list_elem_of_fmap. destruct x; try done.
  by apply (offset_by_8_u16 offset).
Qed.

Lemma operation_operand_u16 {O} (l : list (UnwindOperation O)) n :
  OffsetBy8 n ∈ of_unwind_operation <$> l → is_u16 n.
Proof.
  intros (x & Hx & _)%list_elem_of_fmap. destruct x; try done.
  by apply (offset_by_8_u16 offset).
Qed.

Lemma simulate_kept info l r st r' st' :
  wf_regs r → run_ok (simulate info l) (r, st) = Some ((), (r', st')) → wf_regs r'.
Proof.
  intros Hr Hrun%run_ok_Some.
  pose proof (wp_run _ _ _ _ _ _ (wp_simulate (ip r) info l (r, st) ltac:(done)) Hrun)
    as [[Hwf _] _]. done.
Qed.

(** The operations of an unwind info, likewise. *)
Lemma room_operations_nonneg {O} (l : list (UnwindOperation O)) :
  0 ≤ room (of_unwind_operation <$> l).
Proof.
  induction l as [|x l IH]; csimpl; [done|].
  destruct x as [o|reg|o]; simpl; [|lia|done].
  destruct (offset_by_8 o) as [|n|] eqn:Ho; try lia.
  apply offset_by_8_u16 in Ho. range.
Qed.

Lemma resolve_run_ops `{!PeOperations} info (l : list (UnwindOperation OtherOp)) r st :
  wf_regs r → Forall aligned_operation l →
  Forall (λ op, op ≠ NotOffsetOrPop) (of_unwind_operation <$> l) →
  sp r + room (of_unwind_operation <$> l) < 2 ^ 64 →
  run_ok (resolve_operations info l) (r, st) =
    (λ r', (None, (r', st))) <$> run_ops (memory st) (of_unwind_operation <$> l) r.
Proof.
  revert r. induction l as [|x l IH]; intros r Hr Hal Hne Hroom; [done|].
  apply Forall_cons in Hal as [Hx Hal]. rewrite fmap_cons in *.
  apply Forall_cons in Hne as [Hnx Hne]. pose proof (wf_sp r Hr) as Hsp.
  pose proof (room_operations_nonneg l) as Hl. cbn [resolve_operations run_ops].
  assert (Hread : read_register state PE_RSP (r, st) = (sp r, (r, st))) by done.
  unfold run_ok. destruct x as [o|reg|o]; simpl in Hx, Hnx; [| |done].
  - destruct (offset_by_8 o) as [|n|] eqn:Ho; [done| |].
    2:{ unfold offset_by_8 in Ho. by destruct (checked_uint _ _). }
    pose proof (offset_by_8_u16 _ _ Ho) as Hn.
    pose proof (offset_by_8_aligned _ _ Hx Ho) as <-.
    cbn [of_unwind_operation room run_op] in *. rewrite Ho in *. cbn [room run_op] in *.
    rewrite (resolve_stack_alloc _ _ _ _ _ _ Hread) by range.
    cbn [mbind option_bind]. apply IH; try done; [apply wf_set; [done|range]|].
    unfold state; simpl. simpl_regs. lia.
  - cbn [of_unwind_operation room run_op] in *.
    rewrite (resolve_pop _ _ _ _ _ _ Hread) by range. cbn [state_read_stack state fst snd].
    rewrite read_stack_memory by range.
    destruct (memory st (sp r)) as [v|] eqn:Hm; [|done].
    cbn [mbind option_bind result_ok]. apply IH; try done.
    + repeat apply wf_set; [done|by eapply memory_val|range].
    + unfold state; simpl. simpl_regs. lia.
Qed.
End Agreement.
(** * Chained unwind infos *)

Section Chains.
Context `{PeUnwindInfo}.

(** [next_info sections info info']: [info] is chained to [info']. *)
Definition next_info (sections : PeSections) (info info' : PeUnwindInfoData) : Prop :=
  ∃ a data, chained_unwind_info_address info = Some a ∧
    unwind_info_memory_at_rva sections a = Val (Ok data) ∧
    pe_unwind_info_parse data = Some info'.

(** A chain that ends. *)
Inductive info_chain (sections : PeSections) :
    PeUnwindInfoData → list PeUnwindInfoData → Prop :=
| chain_end info :
    chained_unwind_info_address info = None → info_chain sections info [info]
| chain_next info info' infos :
    next_info sections info info' → info_chain sections info' infos →
    info_chain sections info (info :: infos).

Lemma chained_info_complete fuel sections info infos :
  info_chain sections info infos → (length infos ≤ S fuel)%nat →
  chained_info fuel sections info = Val (Ok infos).
Proof.
  intros Hc. revert fuel.
  induction Hc as [info Hend|info info' infos (a & d & Ha & Hm & Hp) Hc IH];
    intros fuel Hlen; simpl in Hlen.
  - destruct fuel; simpl; by rewrite Hend.
  - destruct fuel as [|fuel]; [by inversion Hc; subst; simpl in *; lia|].
    simpl. rewrite Ha, Hm. simpl. rewrite Hp, IH by lia. done.
Qed.

Lemma chained_info_sound fuel sections info infos :
  chained_info fuel sections info = Val (Ok infos) → info_chain sections info infos.
Proof.
  revert info infos. induction fuel as [|fuel IH]; intros info infos; simpl;
    destruct (chained_unwind_info_address info) as [a|] eqn:Ha; try done.
  1, 3: intros [= <-]; by constructor.
  destruct (unwind_info_memory_at_rva sections a) as [[d|e']|] eqn:Hm; simpl; try done.
  destruct (pe_unwind_info_parse d) as [next|] eqn:Hp; [|done].
  destruct (chained_info fuel sections next) as [[l|e']|] eqn:Hc; simpl; try done.
  intros [= <-]. apply (chain_next _ _ next); [by exists a, d|by apply IH].
Qed.

(** A chain that never ends, given as the infos it visits. *)
Lemma chained_info_endless fuel sections (visit : nat → PeUnwindInfoData) n :
  (∀ i, next_info sections (visit i) (visit (S i))) →
  chained_info fuel sections (visit n) = Diverge.
Proof.
  intros Hv. revert n. induction fuel as [|fuel IH]; intros n; simpl;
    destruct (Hv n) as (a & d & -> & Hm & Hp); [done|].
  rewrite Hm. simpl. rewrite Hp, IH. done.
Qed.
End Chains.

(** * Examples *)

(** [push rbp; sub rsp, 32; ..] at 0x1000. *)
Definition example_sections (epilog : list Z) : PeSections := {|
  pdata := [0x1000; 0x1010; 0x2000];
  rdata := Some (mk_data_at [0; 5; 32; 1; 5] 0x2000 0x2005);
  xdata := Some (mk_data_at [1; 0x3000] 0x3000 0x3002);
  text := Some (mk_data_at (replicate (16 - length epilog) 0x90 ++ epilog) 0x1000 0x1010);
|}.

Definition example_frame : list Z := [1; 2; 3; 4; 0x20; 0x1042; 5; 6].

(** C33.  Whatever the sections hold, a PE frame leaves machine words in the registers and
    never updates the instruction pointer; a cacheable rule is well formed and comes with
    untouched registers, a return address is a machine word, and an error that is not
    about reading the stack leaves the registers and the reader as they were. *)
Theorem pe_unwind_frame_outcomes `{Profile, PeUnwindInfo, ChainFuel} {St} `{StackReader St}
    (sections : PeSections) (address : Z) (first : bool) (r r' : UnwindRegsX86_64)
    (st st' : St) (res : result (UnwindResult UnwindRuleX86_64) PeUnwinderError) :
  wf_regs r →
  unwind_frame sections address first (r, st) = Val (res, (r', st')) →
  wf_regs r' ∧ ip r' = ip r ∧
  match res with
  | Ok (ExecRule rule) => (r', st') = (r, st) ∧ wf_rule rule
  | Ok (Uncacheable ra) => is_u64 ra
  | Err (MissingStackData _) => True
  | Err _ => (r', st') = (r, st)
  end.
Proof.
  intros Hr Hrun. pose proof (wp_run _ _ _ _ _ _ (wp_pe_unwind_frame sections address first
    (r, st) Hr) Hrun) as [[Hwf Hip] Hres]. done.
Qed.

Lemma pe_unwind_frame_outcomes_witness :
  @unwind_frame release_profile toy_pe _ words_reader 4%nat
    (example_sections [0x58; 0x5d; 0xc3]) 0x100d true (new 0x100d 0x18 0x7, example_frame) =
  Val (Ok (Uncacheable 0x1042), (set (new 0x100d 0x30 0x20) RAX 4, example_frame)) ∧
  ip (set (new 0x100d 0x30 0x20) RAX 4) = 0x100d.
Proof.
  split; [reflexivity|].
  apply (@pe_unwind_frame_outcomes release_profile toy_pe 4%nat (list Z) words_reader
    (example_sections [0x58; 0x5d; 0xc3]) 0x100d true (new 0x100d 0x18 0x7)
    (set (new 0x100d 0x30 0x20) RAX 4) example_frame example_frame (Ok (Uncacheable 0x1042))
    ltac:(apply wf_new; range) ltac:(reflexivity)).
Defined.

(** C34.  The chain of unwind infos is collected exactly when it ends: with fuel for its
    length, [chained_info] returns [infos] if and only if they are the chain of the first
    info, and it runs forever on a chain that never ends. *)
Theorem chained_info_correct `{PeUnwindInfo} (sections : PeSections)
    (info : PeUnwindInfoData) :
  (∀ infos fuel, (length infos ≤ S fuel)%nat →
     chained_info fuel sections info = Val (Ok infos) ↔ info_chain sections info infos) ∧
  (∀ visit : nat → PeUnwindInfoData, visit 0%nat = info →
     (∀ i, next_info sections (visit i) (visit (S i))) →
     ∀ fuel, chained_info fuel sections info = Diverge).
Proof.
  split.
  - intros infos fuel Hlen. split; [apply chained_info_sound|].
    intros Hc. by apply chained_info_complete.
  - intros visit <- Hv fuel. by apply chained_info_endless.
Qed.

(** An unwind info that is chained to itself is followed forever. *)
Example self_chained fuel :
  chained_info fuel (example_sections []) [1; 0x3000] = Diverge.
Proof.
  apply (@chained_info_endless toy_pe fuel (example_sections []) (λ _, [1; 0x3000]) 0).
  intros _. exists 0x3000, [1; 0x3000]. by split_and!.
Qed.

(** * The rule and the slow path *)

(** C31.  Where the remaining epilog has a cacheable rule, the rule is as good as simulating
    the epilog: if the simulation finds a return address other than null, executing the
    rule finds the same address and the same registers, except that the rule also moves
    the instruction pointer.  (Adjustments are multiples of eight, and the stack pointer is
    at least 8 and not within a megabyte of the end of the address space.) *)
Theorem epilog_rule_agrees `{Profile, PeUnwindInfo} {St} `{PureReader St}
    (info : PeUnwindInfoData) (l : list FunctionEpilogInstruction)
    (rule : UnwindRuleX86_64) (first : bool) (r r' : UnwindRegsX86_64) (st st' : St)
    (ra : Z) :
  wf_regs r → 8 ≤ sp r → sp r + 2 ^ 20 ≤ 2 ^ 64 → Forall aligned_instruction l →
  for_sequence_of_offset_or_pop (of_epilog_instruction <$> l) = Val (Some rule) →
  unwind_by_simulation info l (r, st) = Val (Ok (Uncacheable ra), (r', st')) →
  ra ≠ 0 →
  exec rule first (r, st) = Val (Ok (Some ra), (set_ip r' ra, st')).
Proof.
  intros Hr H8 Hhi Hal Hseq Hrun%run_ok_Some Hnz.
  pose proof (epilog_operand_u16 l) as Hu16.
  pose proof (for_sequence_room _ _ Hu16 Hseq) as [Hne Hroom].
  unfold unwind_by_simulation in Hrun. rewrite run_ok_bind in Hrun.
  apply bind_Some in Hrun as ([[] [r1 st1]] & Hsim & Hpop).
  pose proof (simulate_kept _ _ _ _ _ _ Hr Hsim) as Hr1.
  rewrite simulate_run_ops in Hsim by done || lia.
  apply fmap_Some in Hsim as (r1' & Hops & [= <- <-]). cbn [fst snd] in Hpop.
  pose proof (run_ops_sp _ _ _ _ Hops) as Hsp.
  rewrite pop_return_run in Hpop by done || lia.
  apply fmap_Some in Hpop as (ra' & Hm & [= -> -> ->]).
  by eapply exec_after_ops.
Qed.

Lemma epilog_rule_agrees_witness :
  @exec release_profile _ words_reader (OffsetSpAndPopRegisters 3 1 1) true
    (new 0x100b 0x8 0x7, example_frame) =
  Val (Ok (Some 0x1042), (new 0x1042 0x30 0x20, example_frame)).
Proof.
  apply (@epilog_rule_agrees release_profile toy_pe (list Z) words_reader words_pure []
    [AddSP 24; EpilogPop PE_RBP] (OffsetSpAndPopRegisters 3 1 1) true
    (new 0x100b 0x8 0x7) (new 0x100b 0x30 0x20) example_frame example_frame 0x1042).
  - apply wf_new; range.
  - by vm_compute.
  - by vm_compute.
  - repeat constructor; try done. by exists 3.
  - reflexivity.
  - reflexivity.
  - done.
Defined.

(** C32.  The same for the unwind codes of a function body, under the same conditions: where
    they have a cacheable rule, executing it finds the return address, if it is not null,
    and the registers that resolving the codes one by one finds, and also moves the
    instruction pointer. *)
Theorem operations_rule_agrees `{Profile, PeUnwindInfo, !PeOperations} {St} `{PureReader St}
    (info : PeUnwindInfoData) (l : list (UnwindOperation OtherOp))
    (rule : UnwindRuleX86_64) (first : bool) (r r' : UnwindRegsX86_64) (st st' : St)
    (ra : Z) :
  wf_regs r → 8 ≤ sp r → sp r + 2 ^ 20 ≤ 2 ^ 64 → Forall aligned_operation l →
  for_sequence_of_offset_or_pop (of_unwind_operation <$> l) = Val (Some rule) →
  unwind_by_operations info l (r, st) = Val (Ok (Uncacheable ra), (r', st')) →
  ra ≠ 0 →
  exec rule first (r, st) = Val (Ok (Some ra), (set_ip r' ra, st')).
Proof.
  intros Hr H8 Hhi Hal Hseq Hrun%run_ok_Some Hnz.
  pose proof (operation_operand_u16 l) as Hu16.
  pose proof (for_sequence_room _ _ Hu16 Hseq) as [Hne Hroom].
  unfold unwind_by_operations in Hrun. rewrite run_ok_bind in Hrun.
  apply bind_Some in Hrun as ([o [r1 st1]] & Hres & Hpop).
  assert (Hr1 : wf_regs r1).
  { pose proof (wp_run _ _ _ _ _ _ (wp_resolve_operations (ip r) info l (r, st)
      ltac:(done)) (proj1 (run_ok_Some _ _ _ _) Hres)) as [[? _] _]. done. }
  rewrite resolve_run_ops in Hres by done || lia.
  apply fmap_Some in Hres as (r1' & Hops & [= -> <- <-]). cbn [fst snd] in Hpop.
  pose proof (run_ops_sp _ _ _ _ Hops) as Hsp.
  rewrite pop_return_run in Hpop by done || lia.
  apply fmap_Some in Hpop as (ra' & Hm & [= -> -> ->]).
  by eapply exec_after_ops.
Qed.

Lemma operations_rule_agrees_witness :
  @exec release_profile _ words_reader (OffsetSpAndPopRegisters 3 1 1) true
    (new 0x1008 0x8 0x7, example_frame) =
  Val (Ok (Some 0x1042), (new 0x1042 0x30 0x20, example_frame)).
Proof.
  apply (@operations_rule_agrees release_profile toy_pe toy_pe_operations (list Z)
    words_reader words_pure [] [UnStackAlloc 24; PopNonVolatile PE_RBP]
    (OffsetSpAndPopRegisters 3 1 1) true
    (new 0x1008 0x8 0x7) (new 0x1008 0x30 0x20) example_frame example_frame 0x1042).
  - apply wf_new; range.
  - by vm_compute.
  - by vm_compute.
  - repeat constructor; try done. by exists 3.
  - reflexivity.
  - reflexivity.
  - done.
Defined.
