(* ===== verification/A64Pe.v ===== *)
(** PE unwinding on aarch64 is not supported ([src/aarch64/pe.rs]). *)

From S2P Require Import Prelude Error Arch Dwarf Pe A64UnwindRegs A64UnwindRule.
Local Open Scope Z_scope.

Definition unwind_frame {St} (sections : PeSections) (address : Z) (is_first_frame : bool) :
    M (UnwindRegsAarch64 * St) PeUnwinderError (UnwindResult UnwindRuleAarch64) :=
  throw Aarch64Unsupported.

#[export] Instance PeAarch64 `{PeUnwindInfo} : @PeUnwinding _ ArchAarch64 := {|
  pe_unwind_frame _ _ _ _ := unwind_frame :
    PeSections → Z → bool →
    M (@UnwindRegs ArchAarch64 * _) _ (UnwindResult (@UnwindRule ArchAarch64));
|}.
