(* ===== verification/UnwindData.v ===== *)
(** Building the unwind data of a module from its sections
    ([ModuleUnwindDataInternal], [ModuleSectionInfo], [ExplicitModuleSectionInfo] and
    [Module::new] in [src/unwinder.rs]; [base_addresses_for_sections],
    [try_new_eh_frame] and [try_new_debug_frame] in [src/dwarf.rs]). *)

From S2P Require Import Prelude Dwarf DwarfCfiIndex GimliExample Modules Pe.
From stdpp Require Import strings list.
Local Open Scope Z_scope.

(** * The interface to the sections

    The trait's methods take [&mut self]: they return the section info they leave
    behind. *)

Class ModuleSectionInfo (I : Type) : Type := {
  base_svma : I → Z;
  section_svma_range : string → I → option Range * I;
  section_data : string → I → option (list Z) * I;
  segment_svma_range : string → I → option Range * I;
  segment_data : string → I → option (list Z) * I;
}.

(** [TextByteData<D>]. *)
Record TextByteData : Type := mk_text_byte_data { text_bytes : list Z; svma_range : Range }.

Section UnwindData.
Context `{Profile, Gimli, EntriesFuel}.

Inductive ModuleUnwindDataInternal : Type :=
| CompactUnwindInfoAndEhFrame (unwind_info : list Z) (eh_frame : option (list Z))
    (stubs_svma stub_helper_svma : option Range) (base_addresses : BaseAddresses)
    (text_data : option TextByteData)
| EhFrameHdrAndEhFrame (eh_frame_hdr eh_frame : list Z) (base_addresses : BaseAddresses)
| DwarfCfiIndexAndEhFrame (index : DwarfCfiIndex) (eh_frame : list Z)
    (base_addresses : BaseAddresses)
| DwarfCfiIndexAndDebugFrame (index : DwarfCfiIndex) (debug_frame : list Z)
    (base_addresses : BaseAddresses)
| PeUnwindData (pdata : list Z) (rdata xdata text : option DataAtRvaRange)
| NoUnwindData.

Section New.
Context {I : Type} `{ModuleSectionInfo I}.
(** A computation that may panic over the section info; it has no errors. *)
Abbreviation X := (M I Empty_set).

(** A call of one of the [&mut self] methods. *)
Definition ask {A} (f : I → A * I) : X A := λ s, let '(a, s) := f s in Val (Ok a, s).

(** [names.iter().find_map(|name| section_info.section_svma_range(name))]. *)
Fixpoint find_range (names : list string) : X (option Range) :=
  match names with
  | [] => mret None
  | name :: names =>
      r ← ask (section_svma_range name);
      match r with Some r => mret (Some r) | None => find_range names end
  end.

(** The closure [start_addr]. *)
Definition start_addr (names : list string) : X Z :=
  r ← find_range names; mret (default 0 (start <$> r)).

Definition base_addresses_for_sections : X BaseAddresses :=
  eh_frame ← start_addr ["__eh_frame"; ".eh_frame"]%string;
  eh_frame_hdr ← start_addr ["__eh_frame_hdr"; ".eh_frame_hdr"]%string;
  text ← start_addr ["__text"; ".text"]%string;
  got ← start_addr ["__got"; ".got"]%string;
  mret (set_got (set_text (set_eh_frame_hdr (set_eh_frame bases_default eh_frame)
    eh_frame_hdr) text) got).

Definition get_base_svma : X Z := λ s, Val (Ok (base_svma s), s).

Definition try_new_eh_frame (eh_frame_data : list Z) :
    X (result DwarfCfiIndex DwarfCfiIndexError) :=
  bases ← base_addresses_for_sections;
  let eh_frame := set_address_size (eh_frame_from eh_frame_data) 8 in
  base ← get_base_svma;
  lift (try_new eh_frame bases base).

Definition try_new_debug_frame (debug_frame_data : list Z) :
    X (result DwarfCfiIndex DwarfCfiIndexError) :=
  bases ← base_addresses_for_sections;
  let debug_frame := set_address_size (debug_frame_from debug_frame_data) 8 in
  base ← get_base_svma;
  lift (try_new debug_frame bases base).

(** [section_data(a).or_else(|| section_data(b))]. *)
Definition section_data_or (a b : string) : X (option (list Z)) :=
  d ← ask (section_data a);
  match d with Some d => mret (Some d) | None => ask (section_data b) end.

(** Bytes and range of the text: of the segment, or else of the section. *)
Definition text_data_of_sections : X (option TextByteData) :=
  bytes ← ask (segment_data "__TEXT");
  range ← ask (segment_svma_range "__TEXT");
  match bytes, range with
  | Some bytes, Some range => mret (Some (mk_text_byte_data bytes range))
  | _, _ =>
      bytes ← ask (section_data "__text");
      range ← ask (section_svma_range "__text");
      match bytes, range with
      | Some bytes, Some range => mret (Some (mk_text_byte_data bytes range))
      | _, _ => mret None
      end
  end.

(** The closure [range_and_data]. *)
Definition range_and_data (name : string) : X (option DataAtRvaRange) :=
  range ← ask (section_svma_range name);
  match range with
  | None => mret None
  | Some range =>
      base ← get_base_svma;
      s ← lift (uarith 64 (start range - base));
      match checked_uint 32 s with
      | None => mret None
      | Some s =>
          e ← lift (uarith 64 (end_ range - base));
          match checked_uint 32 e with
          | None => mret None
          | Some e =>
              data ← ask (section_data name);
              mret ((λ d, mk_data_at d s e) <$> data)
          end
      end
  end.

Definition new_dwarf : X ModuleUnwindDataInternal :=
  eh_frame ← section_data_or ".eh_frame" "__eh_frame";
  match eh_frame with
  | Some eh_frame =>
      eh_frame_hdr ← section_data_or ".eh_frame_hdr" "__eh_frame_hdr";
      match eh_frame_hdr with
      | Some eh_frame_hdr =>
          bases ← base_addresses_for_sections;
          mret (EhFrameHdrAndEhFrame eh_frame_hdr eh_frame bases)
      | None =>
          index ← try_new_eh_frame eh_frame;
          match index with
          | Ok index =>
              bases ← base_addresses_for_sections;
              mret (DwarfCfiIndexAndEhFrame index eh_frame bases)
          | Err _ => mret NoUnwindData
          end
      end
  | None =>
      debug_frame ← ask (section_data ".debug_frame");
      match debug_frame with
      | Some debug_frame =>
          index ← try_new_debug_frame debug_frame;
          match index with
          | Ok index =>
              bases ← base_addresses_for_sections;
              mret (DwarfCfiIndexAndDebugFrame index debug_frame bases)
          | Err _ => mret NoUnwindData
          end
      | None => mret NoUnwindData
      end
  end.

(** [ModuleUnwindDataInternal::new], with the features "macho" and "pe". *)
Definition unwind_data_new : X ModuleUnwindDataInternal :=
  unwind_info ← ask (section_data "__unwind_info");
  match unwind_info with
  | Some unwind_info =>
      eh_frame ← ask (section_data "__eh_frame");
      stubs ← ask (section_svma_range "__stubs");
      stub_helper ← ask (section_svma_range "__stub_helper");
      text_data ← text_data_of_sections;
      bases ← base_addresses_for_sections;
      mret (CompactUnwindInfoAndEhFrame unwind_info eh_frame stubs stub_helper bases
              text_data)
  | None =>
      pdata ← ask (section_data ".pdata");
      match pdata with
      | Some pdata =>
          rdata ← range_and_data ".rdata";
          xdata ← range_and_data ".xdata";
          text ← range_and_data ".text";
          mret (PeUnwindData pdata rdata xdata text)
      | None => new_dwarf
      end
  end.

(** [Module::new]. *)
Definition module_new (name : string) (avma_range : Range) (base_avma : Z) :
    X (Module ModuleUnwindDataInternal) :=
  unwind_data ← unwind_data_new;
  base ← get_base_svma;
  mret (mk_module _ name avma_range base_avma base unwind_data).
End New.
End UnwindData.

(** * Sections given explicitly *)

Record ExplicitModuleSectionInfo : Type := mk_explicit {
  explicit_base_svma : Z;
  text_svma : option Range;
  text : option (list Z);
  stubs_svma : option Range;
  stub_helper_svma : option Range;
  got_svma : option Range;
  unwind_info : option (list Z);
  eh_frame_svma : option Range;
  eh_frame : option (list Z);
  eh_frame_hdr_svma : option Range;
  eh_frame_hdr : option (list Z);
  debug_frame : option (list Z);
  text_segment_svma : option Range;
  text_segment : option (list Z);
}.

(** [#\[derive(Default)\]]. *)
Definition explicit_default : ExplicitModuleSectionInfo :=
  mk_explicit 0 None None None None None None None None None None None None None.

Definition explicit_section_svma_range (name : string) (self : ExplicitModuleSectionInfo) :
    option Range * ExplicitModuleSectionInfo :=
  (match name with
   | "__text" | ".text" => text_svma self
   | "__stubs" => stubs_svma self
   | "__stub_helper" => stub_helper_svma self
   | "__eh_frame" | ".eh_frame" => eh_frame_svma self
   | "__eh_frame_hdr" | ".eh_frame_hdr" => eh_frame_hdr_svma self
   | "__got" | ".got" => got_svma self
   | _ => None
   end%string, self).

(** [Option::take] on the field. *)
Definition explicit_section_data (name : string) (self : ExplicitModuleSectionInfo) :
    option (list Z) * ExplicitModuleSectionInfo :=
  match self with
  | mk_explicit base ts t ss sh g ui es e hs h d gs seg =>
      match name with
      | "__text" | ".text" => (t, mk_explicit base ts None ss sh g ui es e hs h d gs seg)
      | "__unwind_info" => (ui, mk_explicit base ts t ss sh g None es e hs h d gs seg)
      | "__eh_frame" | ".eh_frame" =>
          (e, mk_explicit base ts t ss sh g ui es None hs h d gs seg)
      | "__eh_frame_hdr" | ".eh_frame_hdr" =>
          (h, mk_explicit base ts t ss sh g ui es e hs None d gs seg)
      | "__debug_frame" | ".debug_frame" =>
          (d, mk_explicit base ts t ss sh g ui es e hs h None gs seg)
      | _ => (None, self)
      end%string
  end.

Definition explicit_segment_svma_range (name : string) (self : ExplicitModuleSectionInfo) :
    option Range * ExplicitModuleSectionInfo :=
  (match name with "__TEXT" => text_segment_svma self | _ => None end%string, self).

Definition explicit_segment_data (name : string) (self : ExplicitModuleSectionInfo) :
    option (list Z) * ExplicitModuleSectionInfo :=
  match self with
  | mk_explicit base ts t ss sh g ui es e hs h d gs seg =>
      match name with
      | "__TEXT" => (seg, mk_explicit base ts t ss sh g ui es e hs h d gs None)
      | _ => (None, self)
      end%string
  end.

#[export] Instance explicit_section_info : ModuleSectionInfo ExplicitModuleSectionInfo := {|
  base_svma := explicit_base_svma;
  section_svma_range := explicit_section_svma_range;
  section_data := explicit_section_data;
  segment_svma_range := explicit_segment_svma_range;
  segment_data := explicit_segment_data;
|}.

(** * What the explicit sections become *)

Section ExplicitSpec.
Context `{Profile, Gimli, EntriesFuel}.
Implicit Types (info : ExplicitModuleSectionInfo).

Definition start_or_zero (r : option Range) : Z := default 0 (start <$> r).

Definition bases_of info : BaseAddresses :=
  set_got (set_text (set_eh_frame_hdr (set_eh_frame bases_default
    (start_or_zero (eh_frame_svma info))) (start_or_zero (eh_frame_hdr_svma info)))
    (start_or_zero (text_svma info))) (start_or_zero (got_svma info)).

Definition text_data_of info : option TextByteData :=
  match text_segment info, text_segment_svma info with
  | Some bytes, Some range => Some (mk_text_byte_data bytes range)
  | _, _ => bytes ← text info; mk_text_byte_data bytes <$> text_svma info
  end.

(** The unwind data the documentation of [ModuleUnwindDataInternal] describes. *)
Definition unwind_data_of info : may ModuleUnwindDataInternal :=
  let index section :=
    try_new (set_address_size section 8) (bases_of info) (explicit_base_svma info) in
  match unwind_info info, eh_frame info, eh_frame_hdr info, debug_frame info with
  | Some ui, eh, _, _ =>
      Val (CompactUnwindInfoAndEhFrame ui eh (stubs_svma info) (stub_helper_svma info)
             (bases_of info) (text_data_of info))
  | None, Some eh, Some hdr, _ => Val (EhFrameHdrAndEhFrame hdr eh (bases_of info))
  | None, Some eh, None, _ =>
      i ← index (eh_frame_from eh);
      Val (match i with
           | Ok i => DwarfCfiIndexAndEhFrame i eh (bases_of info)
           | Err _ => NoUnwindData
           end)
  | None, None, _, Some d =>
      i ← index (debug_frame_from d);
      Val (match i with
           | Ok i => DwarfCfiIndexAndDebugFrame i d (bases_of info)
           | Err _ => NoUnwindData
           end)
  | None, None, _, None => Val NoUnwindData
  end.

Lemma ask_bind {I A B} (f : I → A * I) (k : A → M I Empty_set B) s :
  (ask f ≫= k) s = k (f s).1 (f s).2.
Proof. unfold mbind, M_bind, ask. by destruct (f s). Qed.

Lemma start_addr_run names info r :
  Forall (λ n, (explicit_section_svma_range n info).1 = r) names → names ≠ [] →
  start_addr names info = Val (Ok (start_or_zero r), info).
Proof.
  intros Hn Hne.
  assert (Hf : find_range names info = Val (Ok r, info)).
  { destruct r as [r|].
    - destruct names as [|n names]; [done|]. apply Forall_cons in Hn as [Hn _].
      cbn [find_range]. rewrite ask_bind. simpl. simpl in Hn. by rewrite Hn.
    - clear Hne. induction names as [|n names IH]; [done|].
      apply Forall_cons in Hn as [Hn Hns]. cbn [find_range]. rewrite ask_bind.
      simpl. simpl in Hn. rewrite Hn. by apply IH. }
  unfold start_addr. unfold mbind, M_bind. by rewrite Hf.
Qed.

Lemma base_addresses_run info :
  base_addresses_for_sections info = Val (Ok (bases_of info), info).
Proof.
  unfold base_addresses_for_sections. unfold mbind, M_bind.
  rewrite (start_addr_run _ _ (eh_frame_svma info)) by first [done|repeat constructor].
  rewrite (start_addr_run _ _ (eh_frame_hdr_svma info)) by first [done|repeat constructor].
  rewrite (start_addr_run _ _ (text_svma info)) by first [done|repeat constructor].
  by rewrite (start_addr_run _ _ (got_svma info)) by first [done|repeat constructor].
Qed.

Lemma base_addresses_bind {A} info (k : BaseAddresses → M _ Empty_set A) :
  (base_addresses_for_sections ≫= k) info = k (bases_of info) info.
Proof. unfold mbind, M_bind. by rewrite base_addresses_run. Qed.

Lemma text_data_run info :
  ∃ info', text_data_of_sections info = Val (Ok (text_data_of info), info') ∧
    bases_of info' = bases_of info ∧
    explicit_base_svma info' = explicit_base_svma info.
Proof.
  destruct info as [base ts t ss sh g ui es e hs h d gs seg].
  unfold text_data_of_sections, text_data_of. rewrite !ask_bind. simpl.
  destruct seg as [seg|], gs as [gs|]; simpl; try (by eexists);
    rewrite !ask_bind; simpl;
    destruct t as [t|], ts as [ts|]; simpl; by eexists.
Qed.

Lemma eh_frame_run base ts t ss sh g ui es e hs h d gs seg :
  section_data_or ".eh_frame" "__eh_frame"
    (mk_explicit base ts t ss sh g ui es e hs h d gs seg) =
  Val (Ok e, mk_explicit base ts t ss sh g ui es None hs h d gs seg).
Proof. unfold section_data_or. rewrite ask_bind. by destruct e. Qed.

Lemma eh_frame_hdr_run base ts t ss sh g ui es e hs h d gs seg :
  section_data_or ".eh_frame_hdr" "__eh_frame_hdr"
    (mk_explicit base ts t ss sh g ui es e hs h d gs seg) =
  Val (Ok h, mk_explicit base ts t ss sh g ui es e hs None d gs seg).
Proof. unfold section_data_or. rewrite ask_bind. by destruct h. Qed.

Lemma bind_run {I A B} (m : M I Empty_set A) (k : A → M I Empty_set B) s a s' :
  m s = Val (Ok a, s') → (m ≫= k) s = k a s'.
Proof. unfold mbind, M_bind. by intros ->. Qed.

Lemma bind_fault {I A B} (m : M I Empty_set A) (k : A → M I Empty_set B) s f :
  m s = Fault f → (m ≫= k) s = Fault f.
Proof. unfold mbind, M_bind. by intros ->. Qed.

Lemma index_run section info :
  (bases ← base_addresses_for_sections;
   base ← get_base_svma; lift (try_new section bases base)) info =
  match try_new section (bases_of info) (explicit_base_svma info) with
  | Val i => Val (Ok i : result _ Empty_set, info)
  | Fault k => Fault k
  end.
Proof. rewrite base_addresses_bind. unfold mbind, M_bind, get_base_svma, lift. done. Qed.

Lemma unwind_data_run info :
  match unwind_data_of info with
  | Val data => ∃ info', unwind_data_new info = Val (Ok data, info') ∧
                 explicit_base_svma info' = explicit_base_svma info
  | Fault k => unwind_data_new info = Fault k
  end.
Proof.
  destruct info as [base ts t ss sh g ui es e hs h d gs seg].
  unfold unwind_data_of, unwind_data_new. rewrite ask_bind.
  cbn [unwind_info UnwindData.eh_frame eh_frame_hdr debug_frame].
  cbn [section_data explicit_section_info explicit_section_data fst snd].
  destruct ui as [ui|].
  { rewrite !ask_bind. cbn [section_data section_svma_range explicit_section_info
      explicit_section_data explicit_section_svma_range fst snd].
    unfold mbind at 1, M_bind at 1.
    edestruct text_data_run as (info' & -> & Hb & Hbase).
    rewrite base_addresses_bind, Hb. exists info'. by split. }
  rewrite ask_bind. cbn [section_data explicit_section_info explicit_section_data fst snd].
  unfold new_dwarf. rewrite (bind_run _ _ _ _ _ (eh_frame_run _ _ _ _ _ _ _ _ _ _ _ _ _ _)).
  destruct e as [e|].
  - rewrite (bind_run _ _ _ _ _ (eh_frame_hdr_run _ _ _ _ _ _ _ _ _ _ _ _ _ _)).
    destruct h as [h|].
    { rewrite base_addresses_bind. eexists. by split. }
    pose proof (index_run (set_address_size (eh_frame_from e) 8)
      (mk_explicit base ts t ss sh g None es None hs None d gs seg)) as Hi.
    cbn [explicit_base_svma] in *.
    change (bases_of (mk_explicit base ts t ss sh g None es None hs None d gs seg)) with
      (bases_of (mk_explicit base ts t ss sh g None es (Some e) hs None d gs seg)) in Hi.
    destruct (try_new _ _ _) as [[i|err]|k]; cbn [mbind may_bind].
    + rewrite (bind_run _ _ _ _ _ Hi), base_addresses_bind. by eexists.
    + rewrite (bind_run _ _ _ _ _ Hi). by eexists.
    + by rewrite (bind_fault _ _ _ _ Hi).
  - rewrite ask_bind. cbn [section_data explicit_section_info explicit_section_data fst snd].
    destruct d as [d|]; [|by eexists].
    pose proof (index_run (set_address_size (debug_frame_from d) 8)
      (mk_explicit base ts t ss sh g None es None hs h None gs seg)) as Hi.
    cbn [explicit_base_svma] in *.
    change (bases_of (mk_explicit base ts t ss sh g None es None hs h None gs seg)) with
      (bases_of (mk_explicit base ts t ss sh g None es None hs h (Some d) gs seg)) in Hi.
    destruct (try_new _ _ _) as [[i|err]|k]; cbn [mbind may_bind].
    + rewrite (bind_run _ _ _ _ _ Hi), base_addresses_bind. by eexists.
    + rewrite (bind_run _ _ _ _ _ Hi). by eexists.
    + by rewrite (bind_fault _ _ _ _ Hi).
Qed.
End ExplicitSpec.

(** C30.  A module built from explicitly given sections has the unwind data its sections
    call for, with the base addresses of the given ranges: compact unwind info first, then
    [.eh_frame] with its header or with an index, then [.debug_frame].  It never has PE
    unwind data. *)
Theorem explicit_module_new `{Profile, Gimli, EntriesFuel} (name : string)
    (avma_range : Range) (base_avma : Z) (info : ExplicitModuleSectionInfo) :
  match unwind_data_of info with
  | Val data => ∃ info', module_new name avma_range base_avma info =
      Val (Ok (mk_module _ name avma_range base_avma (explicit_base_svma info) data), info')
  | Fault k => module_new name avma_range base_avma info = Fault k
  end.
Proof.
  unfold module_new. pose proof (unwind_data_run info) as Hdata.
  destruct (unwind_data_of info) as [data|k].
  - destruct Hdata as (info' & Hrun & Hbase). exists info'.
    rewrite (bind_run _ _ _ _ _ Hrun). unfold mbind, M_bind, get_base_svma. simpl.
    by rewrite Hbase.
  - unfold mbind, M_bind. by rewrite Hdata.
Qed.

(** * How often the sections are asked for

    The documentation of [ModuleSectionInfo] says that each method is called at most once
    with a particular argument, so that an implementation can move data out.  [recorded]
    keeps a record of the calls beside any section info. *)

Inductive call : Type :=
| SectionRange (name : string)
| SectionData (name : string)
| SegmentRange (name : string)
| SegmentData (name : string).

#[export] Instance call_eq_dec : EqDecision call.
Proof. solve_decision. Defined.

Definition record {I A} (c : call) (f : I → A * I) (s : I * list call) :
    A * (I * list call) :=
  let '(a, info) := f s.1 in (a, (info, s.2 ++ [c])).

#[export] Instance recorded {I} `{ModuleSectionInfo I} :
    ModuleSectionInfo (I * list call) := {|
  base_svma s := base_svma s.1;
  section_svma_range n := record (SectionRange n) (section_svma_range n);
  section_data n := record (SectionData n) (section_data n);
  segment_svma_range n := record (SegmentRange n) (segment_svma_range n);
  segment_data n := record (SegmentData n) (segment_data n);
|}.

(** The calls that may move data out. *)
Definition takes_data (c : call) : bool :=
  match c with SectionData _ | SegmentData _ => true | _ => false end.
Definition data_calls (calls : list call) : list call := filter takes_data calls.

(** Finds a list in another one by skipping. *)
Ltac sublist_tac :=
  repeat first [apply sublist_skip | apply sublist_nil_l | apply sublist_cons].

Section Calls.
Context `{Profile, Gimli, EntriesFuel} {I : Type} `{ModuleSectionInfo I}.
Implicit Types (s : I * list call).

(** [asks m taken]: [m] asks for no data but some of [taken], once each and in this
    order. *)
Definition asks {A} (m : M (I * list call) Empty_set A) (taken : list call) : Prop :=
  ∀ s, wp True m (λ _ s', ∃ l, l `sublist_of` taken ∧
                    data_calls s'.2 = data_calls s.2 ++ l) s.

Lemma asks_bind {A B} (m : M _ Empty_set A) (k : A → M _ Empty_set B) l1 l2 :
  asks m l1 → (∀ a, asks (k a) l2) → asks (m ≫= k) (l1 ++ l2).
Proof.
  intros Hm Hk s. apply wp_bind. eapply wp_mono; [|apply Hm].
  intros [a|[]] s' (l & Hl & Heq). eapply wp_mono; [|apply Hk].
  intros r s'' (l' & Hl' & Heq'). exists (l ++ l'). split; [by apply sublist_app|].
  by rewrite Heq', Heq, <- app_assoc.
Qed.
Lemma asks_nothing {A} (m : M _ Empty_set A) :
  (∀ s, wp True m (λ _ s', s' = s) s) → asks m [].
Proof.
  intros Hm s. eapply wp_mono; [|apply Hm]. intros r s' ->. exists [].
  by rewrite app_nil_r.
Qed.
Lemma asks_ret {A} (a : A) : asks (mret a) [].
Proof. by apply asks_nothing. Qed.
Lemma asks_weaken {A} (m : M _ Empty_set A) l l' :
  asks m l → l `sublist_of` l' → asks m l'.
Proof.
  intros Hm Hl s. eapply wp_mono; [|apply Hm]. intros r s' (l0 & Hl0 & Heq).
  exists l0. split; [by etrans|done].
Qed.
Lemma asks_record {A} c (f : I → A * I) :
  asks (ask (record c f)) (data_calls [c]).
Proof.
  intros [info calls]. unfold wp, ask, record. cbn [fst snd]. destruct (f info). simpl.
  eexists. split; [done|]. unfold data_calls. by rewrite filter_app.
Qed.
Lemma asks_bind_nil {A B} (m : M _ Empty_set A) (k : A → M _ Empty_set B) l :
  asks m [] → (∀ a, asks (k a) l) → asks (m ≫= k) l.
Proof. apply (asks_bind m k [] l). Qed.

Lemma asks_find_range names : asks (find_range names) [].
Proof.
  induction names as [|n names IH]; simpl; [apply asks_ret|].
  apply asks_bind_nil; [apply asks_record|]. intros [r|]; [apply asks_ret|done].
Qed.
Lemma asks_base_addresses : asks base_addresses_for_sections [].
Proof.
  unfold base_addresses_for_sections, start_addr.
  repeat (apply asks_bind_nil; [|intros ?]; try apply asks_find_range; try apply asks_ret).
Qed.
Lemma asks_base : asks get_base_svma [].
Proof. by apply asks_nothing. Qed.
Lemma asks_lift {A} (m : may A) : asks (lift m) [].
Proof. apply asks_nothing. intros s. by apply wp_lift. Qed.

Lemma asks_range_and_data name : asks (range_and_data name) [SectionData name].
Proof.
  unfold range_and_data.
  assert (Hnone : asks (mret (None : option DataAtRvaRange)) [SectionData name]).
  { eapply asks_weaken; [apply asks_ret|]. apply sublist_nil_l. }
  apply asks_bind_nil; [apply asks_record|]. intros [r|]; [|done].
  apply asks_bind_nil; [apply asks_base|]. intros b.
  apply asks_bind_nil; [apply asks_lift|]. intros x. destruct (checked_uint _ x); [|done].
  apply asks_bind_nil; [apply asks_lift|]. intros y. destruct (checked_uint _ y); [|done].
  apply (asks_bind _ _ [_] []); [apply asks_record|]. intros. apply asks_ret.
Qed.

Lemma asks_section_data_or a b :
  asks (section_data_or a b) [SectionData a; SectionData b].
Proof.
  apply (asks_bind _ _ [_] [_]); [apply asks_record|]. intros [d|]; [|apply asks_record].
  eapply asks_weaken; [apply asks_ret|]. apply sublist_nil_l.
Qed.

Lemma asks_text_data :
  asks text_data_of_sections [SegmentData "__TEXT"; SectionData "__text"].
Proof.
  apply (asks_bind _ _ [_] [_]); [apply asks_record|]. intros bytes.
  apply asks_bind_nil; [apply asks_record|]. intros range.
  assert (Hsome : ∀ o : option TextByteData, asks (mret o) [SectionData "__text"]).
  { intros o. eapply asks_weaken; [apply asks_ret|]. apply sublist_nil_l. }
  assert (Hsection : asks
    (bytes ← ask (section_data "__text");
     range ← ask (section_svma_range "__text");
     match bytes, range with
     | Some bytes, Some range => mret (Some (mk_text_byte_data bytes range))
     | _, _ => mret None
     end) [SectionData "__text"]).
  { apply (asks_bind _ _ [_] []); [apply asks_record|]. intros bytes'.
    apply asks_bind_nil; [apply asks_record|]. intros range'.
    destruct bytes', range'; apply asks_ret. }
  by destruct bytes, range.
Qed.

(** Every request for data, in an order in which they are made. *)
Definition known_data : list call :=
  (SectionData <$> ["__unwind_info"; ".pdata"; ".rdata"; ".xdata"; ".text"; ".eh_frame";
    "__eh_frame"; ".eh_frame_hdr"; "__eh_frame_hdr"; ".debug_frame"]%string) ++
  [SegmentData "__TEXT"; SectionData "__text"].

Lemma asks_index section :
  asks (bases ← base_addresses_for_sections;
        base ← get_base_svma; lift (try_new section bases base)) [].
Proof.
  apply asks_bind_nil; [apply asks_base_addresses|]. intros bases.
  apply asks_bind_nil; [apply asks_base|]. intros base. apply asks_lift.
Qed.

Lemma asks_with_bases {A} (f : BaseAddresses → A) :
  asks (bases ← base_addresses_for_sections; mret (f bases)) [].
Proof. apply asks_bind_nil; [apply asks_base_addresses|]. intros. apply asks_ret. Qed.

Lemma asks_new_dwarf :
  asks new_dwarf (SectionData <$>
    [".eh_frame"; "__eh_frame"; ".eh_frame_hdr"; "__eh_frame_hdr"; ".debug_frame"]%string).
Proof.
  apply (asks_bind _ _ [_; _] [_; _; _]); [apply asks_section_data_or|]. intros [e|].
  - apply (asks_bind _ _ [_; _] [_]); [apply asks_section_data_or|]. intros [h|].
    { eapply asks_weaken; [apply asks_with_bases|]. apply sublist_nil_l. }
    eapply asks_weaken; [|apply sublist_nil_l].
    apply asks_bind_nil; [apply asks_index|].
    intros [i|err]; [apply asks_with_bases|apply asks_ret].
  - apply (asks_weaken _ [SectionData ".debug_frame"]); [|sublist_tac].
    apply (asks_bind _ _ [_] []); [apply asks_record|]. intros [d|]; [|apply asks_ret].
    apply asks_bind_nil; [apply asks_index|].
    intros [i|err]; [apply asks_with_bases|apply asks_ret].
Qed.

Lemma asks_unwind_data_new : asks unwind_data_new known_data.
Proof.
  apply (asks_bind _ _ [_] (tail known_data)); [apply asks_record|]. intros [u|].
  - eapply (asks_weaken _ ([SectionData "__eh_frame"] ++
      [SegmentData "__TEXT"; SectionData "__text"])); [|sublist_tac].
    apply asks_bind; [apply asks_record|]. intros e.
    do 2 (apply asks_bind_nil; [apply asks_record|]; intros ?).
    apply (asks_bind _ _ [_; _] []); [apply asks_text_data|]. intros.
    apply asks_with_bases.
  - apply (asks_bind _ _ [_] (tail (tail known_data))); [apply asks_record|].
    intros [p|].
    + apply (asks_weaken _ (SectionData <$> [".rdata"; ".xdata"; ".text"]%string));
        [|sublist_tac].
      do 2 (apply (asks_bind _ _ [_]); [apply asks_range_and_data|]; intros ?).
      apply (asks_bind _ _ [_] []); [apply asks_range_and_data|]. intros.
      apply asks_ret.
    + eapply asks_weaken; [apply asks_new_dwarf|]. sublist_tac.
Qed.
End Calls.

(** C37.  Building a module asks for the data of each section and of each segment at most
    once, whatever the section info answers, so an implementation can move it out. *)
Theorem data_taken_at_most_once `{Profile, Gimli, EntriesFuel} {I} `{ModuleSectionInfo I}
    (info info' : I) (calls : list call) (name : string) (avma_range : Range)
    (base_avma : Z) (r : result (Module ModuleUnwindDataInternal) Empty_set) :
  module_new name avma_range base_avma (info, []) = Val (r, (info', calls)) →
  NoDup (data_calls calls) ∧ data_calls calls ⊆ known_data.
Proof.
  intros Hrun.
  assert (Hasks : asks (module_new name avma_range base_avma) (known_data ++ [])).
  { apply (asks_bind _ _ known_data []); [apply asks_unwind_data_new|]. intros data.
    apply asks_bind_nil; [apply asks_base|]. intros. apply asks_ret. }
  pose proof (wp_run _ _ _ _ _ _ (Hasks (info, [])) Hrun) as (l & Hl & Heq).
  simpl in Heq. rewrite Heq. rewrite app_nil_r in Hl. split.
  - apply (sublist_NoDup _ known_data); [|done]. by apply (bool_decide_unpack _).
  - by apply sublist_subseteq.
Qed.

(** A module with an [.eh_frame] at 0x2000 and no [.eh_frame_hdr]. *)
Definition example_info : ExplicitModuleSectionInfo := {|
  explicit_base_svma := 0x1000;
  text_svma := Some (mk_range 0x1000 0x2000); text := None;
  stubs_svma := None; stub_helper_svma := None; got_svma := None;
  unwind_info := None;
  eh_frame_svma := Some (mk_range 0x2000 0x2100);
  eh_frame := Some [0x1100; 0; 7; 8; 2 ^ 64 - 8; 0];
  eh_frame_hdr_svma := None; eh_frame_hdr := None; debug_frame := None;
  text_segment_svma := None; text_segment := None;
|}.

(** The calls made for it. *)
Definition example_calls : list call :=
  (SectionData <$> ["__unwind_info"; ".pdata"; ".eh_frame"; ".eh_frame_hdr";
                    "__eh_frame_hdr"]%string) ++
  (SectionRange <$> ["__eh_frame"; "__eh_frame_hdr"; ".eh_frame_hdr"; "__text"; "__got";
                     ".got"; "__eh_frame"; "__eh_frame_hdr"; ".eh_frame_hdr"; "__text";
                     "__got"; ".got"]%string).

Definition example_module : Module ModuleUnwindDataInternal :=
  mk_module _ "example" (mk_range 0x7000 0x8000) 0x7000 0x1000
    (DwarfCfiIndexAndEhFrame (mk_index [0x100] [0]) [0x1100; 0; 7; 8; 2 ^ 64 - 8; 0]
       [0x2000; 0; 0x1000; 0]).

(** The ranges are asked for twice, against the documentation. *)
Example svma_range_requested_twice :
  (∃ info', @module_new release_profile toy_gimli toy_entries_fuel _
     (@recorded _ explicit_section_info) "example" (mk_range 0x7000 0x8000) 0x7000
     (example_info, []) = Val (Ok example_module, (info', example_calls))) ∧
  ¬ NoDup example_calls.
Proof. split; [by eexists|]. apply (bool_decide_unpack _). by vm_compute. Qed.

Lemma data_taken_at_most_once_witness :
  ∃ info', @module_new release_profile toy_gimli toy_entries_fuel _
     (@recorded _ explicit_section_info) "example" (mk_range 0x7000 0x8000) 0x7000
     (example_info, []) = Val (Ok example_module, (info', example_calls)) ∧
  NoDup (data_calls example_calls).
Proof.
  eexists. split; [reflexivity|].
  eapply (@data_taken_at_most_once release_profile toy_gimli toy_entries_fuel
    _ explicit_section_info example_info _ example_calls "example" (mk_range 0x7000 0x8000)
    0x7000 (Ok example_module)). reflexivity.
Defined.

(** * The sections of a PE module *)

(** The address range of a PE section is made relative to the image base: a section
    at or above the base is used, with its data, exactly when both ends fit in 32 bits; a
    section that starts below the base panics in a debug build. *)
Lemma range_and_data_correct `{Profile} {I} `{ModuleSectionInfo I} (info info1 info2 : I)
    (name : string) (range : Range) (data : option (list Z)) :
  section_svma_range name info = (Some range, info1) →
  section_data name info1 = (data, info2) →
  let base := base_svma info1 in
  is_u64 base → is_u64 (start range) → is_u64 (end_ range) → start range ≤ end_ range →
  (base ≤ start range →
   range_and_data name info =
     if end_ range - base <? 2 ^ 32 then
       Val (Ok ((λ d, mk_data_at d (start range - base) (end_ range - base)) <$> data), info2)
     else Val (Ok None, info1)) ∧
  (start range < base → overflow_checks = true → range_and_data name info = Panic).
Proof.
  intros Hrange Hdata base Hb Hs He Hle. unfold range_and_data. rewrite ask_bind, Hrange.
  cbn [fst snd]. rewrite (bind_run get_base_svma _ info1 base info1 eq_refl). split.
  - intros Hbs.
    assert (Hlift : ∀ z, is_u64 z → lift (uarith 64 z) info1 = Val (Ok z : result Z Empty_set, info1)).
    { intros z Hz. unfold lift. by rewrite uarith_ok. }
    rewrite (bind_run _ _ _ _ _ (Hlift (start range - base) ltac:(range))).
    destruct (Z.ltb_spec (end_ range - base) (2 ^ 32)).
    + rewrite checked_uint_ok by range.
      rewrite (bind_run _ _ _ _ _ (Hlift (end_ range - base) ltac:(range))), checked_uint_ok by range.
      by rewrite ask_bind, Hdata.
    + destruct (checked_uint 32 (start range - base)); [|done].
      rewrite (bind_run _ _ _ _ _ (Hlift (end_ range - base) ltac:(range))).
      by rewrite (proj2 (checked_uint_None 32 (end_ range - base))) by range.
  - intros Hlt Hov. apply bind_fault. unfold lift, uarith.
    rewrite in_uint_false by range. by rewrite Hov.
Qed.

(** Sections of a PE file, answered by name. *)
Definition pe_sections_info (name : string) (self : list (string * Range * list Z)) :
    option (Range * list Z) :=
  (λ p, (p.1.2, p.2)) <$> head (filter (λ p, bool_decide (p.1.1 = name)) self).

#[export] Instance pe_section_info : ModuleSectionInfo (list (string * Range * list Z)) := {|
  base_svma _ := 0x1000;
  section_svma_range n s := (fst <$> pe_sections_info n s, s);
  section_data n s := (snd <$> pe_sections_info n s, s);
  segment_svma_range _ s := (None, s);
  segment_data _ s := (None, s);
|}.

Lemma range_and_data_correct_witness :
  let s := [(".text"%string, mk_range 0x1010 0x1020, [0xc3])] in
  range_and_data (H := debug_profile) ".text" s =
    Val (Ok (Some (mk_data_at [0xc3] 0x10 0x20)), s).
Proof.
  intros s. apply (@range_and_data_correct debug_profile _ pe_section_info s s s ".text"
    (mk_range 0x1010 0x1020) (Some [0xc3])); try reflexivity; range || (simpl; range).
Defined.
