(* ===== verification/Unwinder.v ===== *)
(** Unwinding one frame: the dispatch over the unwind data of a module and the rule
    cache ([unwind_frame_impl], [with_cache] and [unwind_frame] of [UnwinderInternal] in
    [src/unwinder.rs]; [Cache] in [src/cache.rs]). *)

From S2P Require Import Prelude CodeAddress Error Arch RuleCache Slices Modules.
From S2P Require Import Dwarf DwarfCfiIndex Macho Pe UnwindData.
From stdpp Require Import list.
Local Open Scope Z_scope.

Section Unwinder.
Context `{Profile, BinarySearch, Gimli, MachoUnwindInfo, PeUnwindInfo}.
Context `{ExprFuel, ChainFuel}.
(** The trait [Unwinding]: everything an architecture implements. *)
Context `{Arch, !DwarfUnwinding, !CompactUnwindInfoUnwinding, !PeUnwinding}.

(** [Cache]. *)
Record Cache : Type := mk_cache {
  gimli_unwind_context : UnwindContext;
  rule_cache : RuleCache UnwindRule;
}.

(** [Cache::new], given [UnwindContext::new_in()]. *)
Definition cache_new (context : UnwindContext) : Cache :=
  mk_cache context RuleCache.new.

Abbreviation error := (UnwinderError gimli_error macho_error).
Abbreviation module := (Module ModuleUnwindDataInternal).
Abbreviation unwinder := (UnwinderInternal ModuleUnwindDataInternal).

Section Frame.
Context {St : Type} `{StackReader St}.
(** What a frame computation can change: the cache, the registers and the reader. *)
Abbreviation state := (Cache * (UnwindRegs * St))%type.
Abbreviation X := (M state).

(** A call that uses the cache only for gimli's context. *)
Definition with_context {E A} (m : M (UnwindContext * (UnwindRegs * St)) E A) : X E A :=
  λ s, match m (gimli_unwind_context s.1, s.2) with
       | Val (r, (ctx, rs)) => Val (r, (mk_cache ctx (rule_cache s.1), rs))
       | Fault k => Fault k
       end.

(** The [?] operator with a [From] conversion of the error. *)
Definition with_error {S E F A} (f : E → F) (m : M S E A) : M S F A :=
  λ s, match m s with Val (r, s) => Val (map_err f r, s) | Fault k => Fault k end.

(** [(range.start - base_svma) as u32] and the same for the end. *)
Definition range_from_base (range : option Range) (base : Z) : may (Z * Z) :=
  match range with
  | Some range =>
      s ← uarith 64 (start range - base);
      e ← uarith 64 (end_ range - base);
      Val (wrap 32 s, wrap 32 e)
  | None => Val (0, 0)
  end.

(** [text_data.as_ref().and_then(..)]. *)
Definition text_bytes_of (text_data : option TextByteData) (base : Z) :
    option TextBytes :=
  data ← text_data;
  offset ← checked_uint 64 (start (svma_range data) - base);
  offset_from_base ← checked_uint 32 offset;
  Some (mk_text_bytes offset_from_base (UnwindData.text_bytes data)).

(** The DWARF unwinder on one FDE. *)
Definition unwind_with_fde (dwarf_unwinder : DwarfUnwinder) (is_first_frame : bool)
    (rel_lookup_address fde_offset : Z) : X error (UnwindResult UnwindRule) :=
  with_error UnwinderError_from_dwarf (with_context
    (unwind_frame_with_fde dwarf_unwinder is_first_frame rel_lookup_address fde_offset)).

Definition unwind_frame_impl (module : module) (address : FrameAddress)
    (rel_lookup_address : Z) : X error (UnwindResult UnwindRule) :=
  let is_first_frame := negb (is_return_address address) in
  let base := Modules.base_svma module in
  match unwind_data module with
  | CompactUnwindInfoAndEhFrame unwind_info eh_frame stubs stub_helper base_addresses
      text_data =>
      stubs_range ← lift (range_from_base stubs base);
      stub_helper_range ← lift (range_from_base stub_helper base);
      let cui_unwinder :=
        mk_cui_unwinder unwind_info (text_bytes_of text_data base) stubs_range
          stub_helper_range in
      unwind_result ←
        lift (Macho.unwind_frame cui_unwinder rel_lookup_address is_first_frame);
      unwind_result ← try_ (map_err UnwinderError_from_cui unwind_result);
      match unwind_result with
      | CuiExecRule rule => mret (ExecRule rule)
      | NeedDwarf fde_offset =>
          eh_frame_data ← try_ (ok_or eh_frame NoDwarfData);
          unwind_with_fde (Dwarf.new eh_frame_data EhFrame None base_addresses base)
            is_first_frame rel_lookup_address fde_offset
      end
  | EhFrameHdrAndEhFrame eh_frame_hdr eh_frame base_addresses =>
      let dwarf_unwinder :=
        Dwarf.new eh_frame EhFrame (Some eh_frame_hdr) base_addresses base in
      fde_offset ←
        lift (get_fde_offset_for_relative_address dwarf_unwinder rel_lookup_address);
      fde_offset ← try_ (ok_or fde_offset EhFrameHdrCouldNotFindAddress);
      unwind_with_fde dwarf_unwinder is_first_frame rel_lookup_address fde_offset
  | DwarfCfiIndexAndEhFrame index eh_frame base_addresses =>
      let dwarf_unwinder := Dwarf.new eh_frame EhFrame None base_addresses base in
      fde_offset ← lift (fde_offset_for_relative_address index rel_lookup_address);
      fde_offset ← try_ (ok_or fde_offset DwarfCfiIndexCouldNotFindAddress);
      unwind_with_fde dwarf_unwinder is_first_frame rel_lookup_address fde_offset
  | DwarfCfiIndexAndDebugFrame index debug_frame base_addresses =>
      let dwarf_unwinder := Dwarf.new debug_frame DebugFrame None base_addresses base in
      fde_offset ← lift (fde_offset_for_relative_address index rel_lookup_address);
      fde_offset ← try_ (ok_or fde_offset DwarfCfiIndexCouldNotFindAddress);
      unwind_with_fde dwarf_unwinder is_first_frame rel_lookup_address fde_offset
  | PeUnwindData pdata rdata xdata text =>
      with_error UnwinderError_from_pe (zoom_snd
        (pe_unwind_frame (mk_pe_sections pdata rdata xdata text) rel_lookup_address
           is_first_frame))
  | NoUnwindData => throw NoModuleUnwindData
  end.

(** A [match] on the [Result] of a call. *)
Definition catch {S E F A} (m : M S E A) : M S F (result A E) :=
  λ s, match m s with Val (r, s) => Val (Ok r, s) | Fault k => Fault k end.

Definition cache_lookup (address generation : Z) : X Error (CacheResult UnwindRule) :=
  λ s, match RuleCache.lookup (rule_cache s.1) address generation with
       | Val (r, c) => Val (Ok r, (mk_cache (gimli_unwind_context s.1) c, s.2))
       | Fault k => Fault k
       end.
Definition cache_insert (handle : CacheHandle) (rule : UnwindRule) : X Error () :=
  λ s, match RuleCache.insert (rule_cache s.1) handle rule with
       | Val c => Val (Ok (), (mk_cache (gimli_unwind_context s.1) c, s.2))
       | Fault k => Fault k
       end.

(** Storing a rule under the handle of the miss, and executing it. *)
Definition insert_and_exec (cache_handle : CacheHandle) (rule : UnwindRule)
    (is_first_frame : bool) : X Error (option Z) :=
  cache_insert cache_handle rule ;; zoom_snd (exec rule is_first_frame).

Definition with_cache (self : unwinder) (address : FrameAddress)
    (callback : module → FrameAddress → Z → X error (UnwindResult UnwindRule)) :
    X Error (option Z) :=
  lookup_address ← lift (address_for_lookup address);
  let is_first_frame := negb (is_return_address address) in
  cache_result ← cache_lookup lookup_address (modules_generation self);
  match cache_result with
  | Hit unwind_rule => zoom_snd (exec unwind_rule is_first_frame)
  | Miss cache_handle =>
      found ← lift (find_module_for_address self lookup_address);
      match found with
      | None => insert_and_exec cache_handle fallback_rule is_first_frame
      | Some (module_index, relative_lookup_address) =>
          module ← lift (index (modules self) (Z.of_nat module_index));
          r ← catch (callback module address relative_lookup_address);
          match r with
          | Ok (ExecRule rule) => insert_and_exec cache_handle rule is_first_frame
          | Ok (Uncacheable return_address) => mret (Some return_address)
          | Err _ => insert_and_exec cache_handle fallback_rule is_first_frame
          end
      end
  end.

Definition unwind_frame (self : unwinder) (address : FrameAddress) :
    X Error (option Z) :=
  with_cache self address unwind_frame_impl.
End Frame.
End Unwinder.
Arguments Cache : clear implicits.
Arguments Cache {_ _}.
