(* ===== verification/UnwinderSpec.v ===== *)
(** What unwinding one frame guarantees, for any architecture that meets the interface
    [UnwindingSpec]: the registers and the cache stay well formed, without PE modules the
    frame that is found is another one, and in a release build the call returns. *)

From S2P Require Import Prelude CodeAddress Error Arch RuleCache Slices Modules.
From S2P Require Import Dwarf DwarfCfiIndex DwarfCfiIndexSpec Macho Pe UnwindData Unwinder.
From stdpp Require Import list.
Local Open Scope Z_scope.

(** * The interface

    What the generic unwinder relies on from an architecture, beside the operations of
    [Arch], [DwarfUnwinding], [CompactUnwindInfoUnwinding] and [PeUnwinding]. *)

(** What one way of unwinding a frame leaves behind.  [advances first r ra r'] is the
    progress the architecture promises from a callee's registers to the return address and
    its caller's registers. *)
Definition frame_ok {Regs Rule St E} (regs_ok : Regs → Prop) (rule_ok : Rule → Prop)
    (advances : bool → Regs → Z → Regs → Prop) (first : bool) (r : Regs)
    (res : result (UnwindResult Rule) E) (s : Regs * St) : Prop :=
  regs_ok s.1 ∧
  match res with
  | Ok (ExecRule rule) => s.1 = r ∧ rule_ok rule
  | Ok (Uncacheable ra) => is_u64 ra ∧ advances first r ra s.1
  | Err _ => ∀ ra r', advances first s.1 ra r' → advances first r ra r'
  end.

Class UnwindingSpec `{Gimli, MachoUnwindInfo, PeUnwindInfo, Arch, !DwarfUnwinding,
    !CompactUnwindInfoUnwinding, !PeUnwinding} : Type := {
  regs_ok : UnwindRegs → Prop;
  rule_ok : UnwindRule → Prop;
  advances : bool → UnwindRegs → Z → UnwindRegs → Prop;
  (* DWARF expressions finish within the fuel. *)
  exprs_ok `{ExprFuel} : Prop;
  exec_ok `{Profile} {St} `{StackReader St} rule first r (st : St) :
    regs_ok r → rule_ok rule →
    wp (overflow_checks = true) (exec rule first)
      (λ res s, regs_ok s.1 ∧
         match res with
         | Ok (Some ra) => is_u64 ra ∧ ra ≠ 0 ∧ advances first r ra s.1
         | _ => True
         end) (r, st);
  fallback_rule_ok : rule_ok fallback_rule;
  stub_functions_rule_ok : rule_ok rule_for_stub_functions;
  function_start_rule_ok : rule_ok rule_for_function_start;
  uncovered_rule_ok : rule_ok rule_if_uncovered_by_fde;
  stub_helper_rule_ok off rule :
    Macho.rule_for_stub_helper off = Ok (CuiExecRule rule) → rule_ok rule;
  dwarf_frame_ok `{Profile, ExprFuel} {St} `{StackReader St} section row enc first r (st : St) :
    regs_ok r →
    wp (overflow_checks = true ∨ ¬ exprs_ok)
      (dwarf_unwind_frame section row enc first) (frame_ok regs_ok rule_ok advances first r) (r, st);
  cui_rule_ok `{Profile} f first off fb rule :
    cui_unwind_frame f first off fb = Val (Ok (CuiExecRule rule)) → rule_ok rule;
  cui_frame_returns `{Profile} f first off fb :
    overflow_checks = false → (∀ b, fb = Some b → 0 ≤ off ≤ Z.of_nat (length b)) →
    returns (cui_unwind_frame f first off fb);
  (* Nothing is promised of the progress of PE frames. *)
  pe_frame_ok `{Profile, ChainFuel} {St} `{StackReader St} sections a first r (st : St) :
    regs_ok r →
    wp True (pe_unwind_frame sections a first) (frame_ok regs_ok rule_ok (λ _ _ _ _, True) first r) (r, st);
}.

(** * Invariants *)

Section Invariants.
Context `{UnwindingSpec}.

(** A cache of full length with well-formed rules. *)
Definition cache_ok (c : Cache) : Prop :=
  wf_cache (rule_cache c) ∧
  ∀ a g rule, cached (rule_cache c) a g = Some rule → rule_ok rule.

Definition wf_unwind_data (d : ModuleUnwindDataInternal) : Prop :=
  match d with
  | DwarfCfiIndexAndEhFrame i _ _ | DwarfCfiIndexAndDebugFrame i _ _ =>
      ∃ ps, i = index_of_pairs ps
  | _ => True
  end.

(** Not a PE module, whose sections are read with unchecked slices. *)
Definition not_pe (d : ModuleUnwindDataInternal) : Prop :=
  match d with PeUnwindData _ _ _ _ => False | _ => True end.
Definition no_pe (u : UnwinderInternal ModuleUnwindDataInternal) : Prop :=
  Forall (λ m, not_pe (unwind_data m)) (modules u).
End Invariants.

Lemma fde_lookup_returns `{BinarySearch} ps a :
  returns (fde_offset_for_relative_address (index_of_pairs ps) a).
Proof.
  pose proof (binary_search_sorted _ a (index_of_pairs_sorted ps)) as Hb.
  unfold fde_offset_for_relative_address.
  destruct (binary_search _ a) as [i|[|i]]; [|by eexists|].
  - destruct (fde_offset_at ps i a Hb) as (off & -> & _). by eexists.
  - destruct Hb as (Hlen & _ & _).
    destruct (lookup_lt_is_Some_2 (sorted_fde_pc_starts (index_of_pairs ps)) i ltac:(lia))
      as [start Hstart].
    destruct (fde_offset_at ps i start Hstart) as (off & -> & _). by eexists.
Qed.

(** A lookup leaves the entries alone and answers from the map. *)
Lemma lookup_val `{Profile} {R} (c c' : RuleCache R) a g res :
  wf_cache c → RuleCache.lookup c a g = Val (res, c') →
  RuleCache.entries c' = RuleCache.entries c ∧
  res = match cached c a g with Some r => Hit r | None => Miss (handle_for a g) end.
Proof.
  intros Hwf. destruct (wf_cache_lookup c a Hwf) as (e & He & Hi).
  unfold RuleCache.lookup. fold (slot_of a). rewrite slot_of_u16, Hi. cbn [mbind may_bind].
  unfold cached. rewrite He.
  unfold count_hit, count_miss_empty_slot, count_miss_wrong_modules,
    count_miss_wrong_address.
  destruct e as [e|]; [destruct (entry_generation e =? g), (entry_address e =? a)|].
  all: destruct (uarith _ _); cbn [mbind may_bind]; [|done]; by intros [= <- <-].
Qed.
Lemma lookup_returns `{Profile} {R} (c : RuleCache R) a g :
  wf_cache c → overflow_checks = false → returns (RuleCache.lookup c a g).
Proof.
  intros Hwf Hrel. destruct (lookup_run c a g Hwf (or_introl Hrel)) as (c' & _ & ->).
  by eexists.
Qed.

(** * One frame *)

Section FrameOk.
Context `{Profile, BinarySearch, UnwindingSpec, ExprFuel, ChainFuel}.
Context {St : Type} `{StackReader St}.
Implicit Types (r : UnwindRegs) (st : St) (ctx : UnwindContext).

(** When the slow path may fail to return. *)
Definition may_fail (d : ModuleUnwindDataInternal) : Prop :=
  overflow_checks = true ∨ ¬ exprs_ok ∨ ¬ not_pe d ∨ ¬ MachoLookup ∨ ¬ wf_unwind_data d.

(** The progress of the frames of a module. *)
Definition module_advances (d : ModuleUnwindDataInternal) (first : bool) r (ra : Z) r' : Prop :=
  not_pe d → advances first r ra r'.

Abbreviation ok := (frame_ok (St := St) regs_ok rule_ok advances).
Abbreviation ok_in d := (frame_ok (St := St) regs_ok rule_ok (module_advances d)).

Lemma ok_in_module {E} d first r (res : result (UnwindResult UnwindRule) E) s :
  ok first r res s → ok_in d first r res s.
Proof.
  intros [? Hres]. split; [done|]. unfold module_advances.
  destruct res as [[rule|ra]|e]; [done|by destruct Hres|auto].
Qed.

Lemma wp_unwind_frame_with_fde d self first rel fde ctx r st :
  regs_ok r →
  wp (may_fail d) (unwind_frame_with_fde self first rel fde)
    (λ res s, ok first r res s.2) (ctx, (r, st)).
Proof.
  intros Hr. unfold wp, unwind_frame_with_fde. cbn [fst snd].
  destruct (uarith 64 _) as [svma|k] eqn:Hu.
  2:{ left. destruct overflow_checks eqn:Hov; [done|].
      destruct (uarith_returns 64 (Dwarf.base_svma self + rel) Hov) as [? Hv]. congruence. }
  unfold unwind_info_for_fde.
  destruct (fde_from_offset _ _ fde) as [f|e]; [|done].
  destruct (unwind_info_for_address _ _ _ ctx svma) as [[row|e] ctx'].
  2:{ split; [done|]. split; [done|]. apply uncovered_rule_ok. }
  unfold zoom_snd. cbn [fst snd].
  pose proof (dwarf_frame_ok
    (match unwind_section_type self with
     | EhFrame => set_address_size (eh_frame_from (unwind_section_data self)) 8
     | DebugFrame => set_address_size (debug_frame_from (unwind_section_data self)) 8
     end) row (cie_encoding (fde_cie f)) first r st Hr) as Hwp.
  unfold wp in Hwp. destruct (dwarf_unwind_frame _ _ _ _ _) as [[res s]|k]; [done|].
  destruct Hwp; [by left|by right; left].
Qed.

Lemma wp_unwind_with_fde d self first rel fde c r st :
  regs_ok r →
  wp (may_fail d) (unwind_with_fde self first rel fde)
    (λ res s, rule_cache s.1 = rule_cache c ∧ ok_in d first r res s.2) (c, (r, st)).
Proof.
  intros Hr. pose proof (wp_unwind_frame_with_fde d self first rel fde
    (gimli_unwind_context c) r st Hr) as Hwp.
  unfold wp, unwind_with_fde, with_error, with_context in *. cbn [fst snd].
  destruct (unwind_frame_with_fde _ _ _ _ _) as [[res [ctx s]]|k]; [|done].
  split; [done|]. apply ok_in_module. by destruct res as [[]|].
Qed.

Lemma macho_frame_rule_ok self rel first rule :
  Macho.unwind_frame self rel first = Val (Ok (CuiExecRule rule)) → rule_ok rule.
Proof.
  unfold Macho.unwind_frame.
  destruct (in_range (stubs_range self) rel).
  { destruct first; simpl; [|done]. intros [= <-]. apply stub_functions_rule_ok. }
  destruct (in_range (stub_helper_range self) rel).
  { destruct first; simpl; [|done]. destruct (uarith 32 _); [|done]. cbn [mbind may_bind].
    intros [= Hrule]. by apply stub_helper_rule_ok in Hrule. }
  destruct (function_for_address self rel) as [f|e].
  - destruct (first && _); [intros [= <-]; apply function_start_rule_ok|].
    destruct (uarith 32 _); [|done]. cbn [mbind may_bind]. apply cui_rule_ok.
  - destruct e; try done. destruct first; [|done]. intros [= <-].
    apply stub_functions_rule_ok.
Qed.

Lemma macho_frame_returns `{!MachoLookup} self rel first :
  overflow_checks = false → returns (Macho.unwind_frame self rel first).
Proof.
  intros Hrel. unfold Macho.unwind_frame.
  destruct (in_range (stubs_range self) rel); [by destruct first; eexists|].
  destruct (in_range (stub_helper_range self) rel).
  { destruct first; simpl; [|by eexists]. apply returns_bind; [by apply uarith_returns|].
    by eexists. }
  destruct (function_for_address self rel) as [f|e] eqn:Hf.
  2:{ destruct e; try by eexists. destruct first; by eexists. }
  destruct (first && _); [by eexists|].
  destruct (function_offset self rel f Hf) as [-> Hlen]. cbn [mbind may_bind].
  apply cui_frame_returns; [done|]. intros b Hb. destruct (Hlen b Hb). lia.
Qed.
(** A pure step that returns unless the slow path may fail. *)
Lemma wp_lift_or {S E A} d (m : may A) (Q : result A E → S → Prop) s :
  (∀ a, m = Val a → Q (Ok a) s) → (¬ returns m → may_fail d) → wp (may_fail d) (lift m) Q s.
Proof.
  intros Hq Hf. apply wp_lift; [done|]. intros k Hk. apply Hf. intros [a Ha]. congruence.
Qed.

Lemma range_from_base_fails d range base :
  ¬ returns (range_from_base range base) → may_fail d.
Proof.
  intros Hn. left. destruct overflow_checks eqn:Hov; [done|]. destruct Hn.
  unfold range_from_base. destruct range; repeat returns_step.
Qed.

Lemma wp_unwind_frame_impl m address rel c r st :
  regs_ok r →
  wp (may_fail (unwind_data m)) (unwind_frame_impl m address rel)
    (λ res s, rule_cache s.1 = rule_cache c ∧
       ok_in (unwind_data m) (negb (is_return_address address)) r res s.2) (c, (r, st)).
Proof.
  intros Hr. unfold unwind_frame_impl.
  assert (Herr : ∀ e : UnwinderError gimli_error macho_error,
    rule_cache c = rule_cache c ∧
    ok_in (unwind_data m) (negb (is_return_address address)) r (Err e) (r, st)) by done.
  destruct (unwind_data m) as [ui eh stubs helper bases td|hdr eh bases|i eh bases
    |i df bases|p rd xd tx|].
  - wp_step. apply wp_lift_or; [|apply range_from_base_fails]. intros rg1 _.
    wp_step. apply wp_lift_or; [|apply range_from_base_fails]. intros rg2 _.
    wp_step. apply wp_lift_or.
    2:{ intros Hn. destruct overflow_checks eqn:Hov; [by left|]. do 3 right. left.
        intros HL. apply Hn. by apply macho_frame_returns. }
    intros res Hres. wp_step. wp_step. destruct res as [[rule|fde]|e]; simpl; [| |done].
    + wp_step. split; [done|]. split; [done|]. split; [done|].
      by eapply macho_frame_rule_ok.
    + wp_step. wp_step. destruct eh as [eh|]; simpl; [|done].
      by apply wp_unwind_with_fde.
  - wp_step. apply wp_lift_or.
    2:{ intros Hn. left. destruct overflow_checks eqn:Hov; [done|]. destruct Hn.
        unfold get_fde_offset_for_relative_address. repeat returns_step. }
    intros o _. wp_step. wp_step. destruct o as [o|]; simpl; [|done].
    by apply wp_unwind_with_fde.
  - wp_step. apply wp_lift_or.
    2:{ intros Hn. do 4 right. intros [ps ->]. destruct Hn.
        apply fde_lookup_returns. }
    intros o _. wp_step. wp_step. destruct o as [o|]; simpl; [|done].
    by apply wp_unwind_with_fde.
  - wp_step. apply wp_lift_or.
    2:{ intros Hn. do 4 right. intros [ps ->]. destruct Hn.
        apply fde_lookup_returns. }
    intros o _. wp_step. wp_step. destruct o as [o|]; simpl; [|done].
    by apply wp_unwind_with_fde.
  - pose proof (pe_frame_ok (mk_pe_sections p rd xd tx) rel
      (negb (is_return_address address)) r st Hr) as Hwp.
    unfold wp, with_error, zoom_snd in *. cbn [fst snd].
    destruct (pe_unwind_frame _ _ _ _) as [[res s]|k].
    + destruct Hwp as [? Hres]. split; [done|]. split; [done|]. unfold module_advances.
      destruct res as [[rule|ra]|e]; [done| |by intros ? ? _ []].
      split; [apply Hres|by intros []].
    + do 2 right. left. by intros [].
  - by wp_step.
Qed.
Implicit Types (u : UnwinderInternal ModuleUnwindDataInternal) (c : Cache).

Definition unwinder_may_fail u : Prop :=
  overflow_checks = true ∨ ¬ exprs_ok ∨ ¬ MachoLookup ∨
  ¬ Forall (λ m, not_pe (unwind_data m) ∧ wf_unwind_data (unwind_data m)) (modules u).

Lemma module_may_fail u i m :
  modules u !! i = Some m → may_fail (unwind_data m) → unwinder_may_fail u.
Proof.
  intros Hi. unfold may_fail, unwinder_may_fail. rewrite Forall_lookup.
  assert (Hm : ¬ (not_pe (unwind_data m) ∧ wf_unwind_data (unwind_data m)) →
    ¬ ∀ i m, modules u !! i = Some m →
        not_pe (unwind_data m) ∧ wf_unwind_data (unwind_data m)).
  { intros Hn Hall. by apply Hn, (Hall i). }
  tauto.
Qed.

Definition unwound u (first : bool) r (res : result (option Z) Error)
    (s : Cache * (UnwindRegs * St)) : Prop :=
  cache_ok s.1 ∧ regs_ok s.2.1 ∧
  match res with
  | Ok (Some ra) => is_u64 ra ∧ (no_pe u → advances first r ra s.2.1)
  | _ => True
  end.

Lemma wp_zoom_exec u rule first c r st :
  cache_ok c → regs_ok r → rule_ok rule →
  wp (unwinder_may_fail u) (zoom_snd (exec rule first)) (unwound u first r)
    (c, (r, st)).
Proof.
  intros Hc Hr Hrule. apply wp_zoom_snd. cbn [fst snd].
  pose proof (exec_ok rule first r st Hr Hrule) as Hwp. unfold wp in *.
  destruct (exec rule first (r, st)) as [[res s]|k]; [|by left].
  destruct Hwp as [Hs Hres]. split; [done|]. split; [done|].
  destruct res as [[ra|]|e]; [by destruct Hres as (? & ? & ?)|done|done].
Qed.

Lemma wp_insert_and_exec u a g rule first c r st :
  cache_ok c → regs_ok r → rule_ok rule →
  wp (unwinder_may_fail u) (insert_and_exec (handle_for a g) rule first)
    (unwound u first r) (c, (r, st)).
Proof.
  intros [Hwf Hcached] Hr Hrule. unfold insert_and_exec. wp_step.
  destruct (insert_run (rule_cache c) a g rule Hwf) as (c' & Hi & Hwf' & _ & Hc').
  unfold wp at 1, cache_insert. cbn [fst snd]. rewrite Hi.
  apply wp_zoom_exec; [|done|done]. split; [done|]. cbn [rule_cache].
  intros a' g' rule'. rewrite Hc'. repeat case_decide; [by intros [= <-]|done|].
  apply Hcached.
Qed.

Lemma wp_unwind_frame u address c r st :
  wf_unwinder u → wf_frame_address address → cache_ok c → regs_ok r →
  wp (unwinder_may_fail u) (unwind_frame u address)
    (unwound u (negb (is_return_address address)) r) (c, (r, st)).
Proof.
  intros Hu Ha Hc Hr. pose proof Hc as [Hwf Hcached]. unfold unwind_frame, with_cache.
  destruct (address_for_lookup_wf address Ha) as [-> Hlookup].
  set (a := match address with InstructionPointer ip => ip | ReturnAddress ra => ra - 1 end)
    in *. wp_step. apply wp_lift; [|done]. intros ? [= <-]. wp_step.
  unfold wp at 1, cache_lookup. cbn [fst snd].
  destruct (RuleCache.lookup (rule_cache c) a (modules_generation u)) as [[res c']|k] eqn:Hl.
  2:{ left. destruct overflow_checks eqn:Hov; [done|].
      destruct (lookup_returns _ a (modules_generation u) Hwf Hov) as [? Hv]. congruence. }
  apply lookup_val in Hl as [Hent ->]; [|done].
  assert (Hc' : ∀ ctx, cache_ok (mk_cache ctx c')).
  { intros ctx. split; [unfold wf_cache; cbn [rule_cache]; by rewrite Hent|].
    intros a' g' rule. unfold cached; cbn [rule_cache]. rewrite Hent. apply Hcached. }
  destruct (cached _ a _) as [rule|] eqn:Hhit.
  { apply wp_zoom_exec; [done|done|]. by eapply Hcached. }
  assert (Hfind : ∃ found, find_module_for_address u a = Val found ∧
    ∀ i rel, found = Some (i, rel) → ∃ m, modules u !! i = Some m).
  { destruct (find_module_run u a Hu Hlookup) as [(i & m & Hm & _ & ->)|(_ & _ & ->)];
      (eexists; split; [done|]); [|done].
    intros i' rel. destruct (relative_address a m); [|done]. intros [= <- _]. by exists m. }
  assert (Hfallback : ∀ ctx rs, regs_ok rs.1 →
    (∀ ra r', no_pe u → advances (negb (is_return_address address)) rs.1 ra r' →
       advances (negb (is_return_address address)) r ra r') → wp (unwinder_may_fail u)
    (insert_and_exec (handle_for a (modules_generation u)) fallback_rule
       (negb (is_return_address address)))
    (unwound u (negb (is_return_address address)) r) (mk_cache ctx c', rs)).
  { intros ctx [r' st'] Hr' Hadv. eapply wp_mono;
      [|by apply wp_insert_and_exec; [..|apply fallback_rule_ok]].
    intros res s (? & ? & Hres). split_and!; [done|done|].
    destruct res as [[ra|]|e]; [|done|done]. destruct Hres as [? Hprog].
    split; [done|]. intros Hpe. apply Hadv; auto. }
  destruct Hfind as (found & Hfind & Hmod). rewrite Hfind.
  wp_step. apply wp_lift; [|done]. intros ? [= <-].
  destruct found as [[i rel]|]; [|by apply Hfallback].
  destruct (Hmod i rel eq_refl) as [m Hm]. rewrite (index_Some _ _ _ Hm).
  wp_step. apply wp_lift; [|done]. intros ? [= <-]. wp_step.
  pose proof (wp_unwind_frame_impl m address rel
    (mk_cache (gimli_unwind_context c) c') r st Hr) as Hwp.
  unfold wp at 1, catch. unfold wp in Hwp.
  destruct (unwind_frame_impl m address rel _) as [[res [c2 [r2 st2]]]|k].
  2:{ by eapply module_may_fail. }
  destruct Hwp as [Hc2 [Hr2 Hres]]. cbn [fst snd rule_cache] in *.
  assert (Hc2' : c2 = mk_cache (gimli_unwind_context c2) c').
  { destruct c2. simpl in *. by subst. }
  rewrite Hc2'. assert (Hpe : no_pe u → not_pe (unwind_data m)).
  { intros Hall. by apply (proj1 (Forall_lookup _ _) Hall i). }
  destruct res as [[rule|ra]|e].
  - destruct Hres as [-> Hrule]. by apply wp_insert_and_exec.
  - wp_step. destruct Hres as [Hra Hprog]. split_and!; [apply Hc'|done|done|].
    intros Hall. by apply Hprog, Hpe.
  - apply Hfallback; [done|]. intros ra r' Hall Hadv. apply Hres; auto.
    by intros _.
Qed.
End FrameOk.
