(* ===== verification/UnwindFrame.v ===== *)
(** Unwinding one frame: theorems ([unwind_frame] in [src/unwinder.rs]).

    First what a call leaves behind and that it returns; then that the rule cache is
    transparent, against a reference unwinder that has none. *)

From S2P Require Import Prelude CodeAddress Error Arch RuleCache Slices Modules.
From S2P Require Import Dwarf DwarfCfiIndex Macho Pe UnwindData Unwinder UnwinderSpec.
From stdpp Require Import list strings.
Local Open Scope Z_scope.

(** * What a call leaves behind *)

(** The registers and the cache stay well formed on every outcome, and without PE modules a
    return address comes with the progress of the architecture. *)
Lemma unwind_frame_progress `{Profile, BinarySearch, UnwindingSpec, ExprFuel, ChainFuel}
    {St} `{StackReader St} (u : UnwinderInternal ModuleUnwindDataInternal)
    (address : FrameAddress) (c c' : Cache) (r r' : UnwindRegs) (st st' : St)
    (res : result (option Z) Error) :
  wf_unwinder u → wf_frame_address address → cache_ok c → regs_ok r →
  unwind_frame u address (c, (r, st)) = Val (res, (c', (r', st'))) →
  cache_ok c' ∧ regs_ok r' ∧
  match res with
  | Ok (Some ra) =>
      is_u64 ra ∧ (no_pe u → advances (negb (is_return_address address)) r ra r')
  | _ => True
  end.
Proof.
  intros Hu Ha Hc Hr Hrun.
  by apply (wp_run _ _ _ _ _ _ (wp_unwind_frame u address c r st Hu Ha Hc Hr) Hrun).
Qed.

(** C12.  [unwind_frame] is total in a release build without PE modules: for every frame,
    every stack and every cache it returns a result, without a panic and without running
    forever, provided the DWARF expressions of the modules terminate. *)
Theorem unwind_frame_returns `{Profile, BinarySearch, UnwindingSpec, ExprFuel, ChainFuel}
    {St} `{StackReader St} `{!MachoLookup} (u : UnwinderInternal ModuleUnwindDataInternal)
    (address : FrameAddress) (c : Cache) (r : UnwindRegs) (st : St) :
  overflow_checks = false → exprs_ok → wf_unwinder u →
  Forall (λ m, not_pe (unwind_data m) ∧ wf_unwind_data (unwind_data m)) (modules u) →
  wf_frame_address address → cache_ok c → regs_ok r →
  ∃ res c' r' st', unwind_frame u address (c, (r, st)) = Val (res, (c', (r', st'))) ∧
    cache_ok c' ∧ regs_ok r' ∧ match res with Ok (Some ra) => is_u64 ra | _ => True end.
Proof.
  intros Hrel He Hu Hall Ha Hc Hr.
  pose proof (wp_unwind_frame u address c r st Hu Ha Hc Hr) as Hwp. unfold wp in Hwp.
  destruct (unwind_frame u address _) as [[res [c' [r' st']]]|k].
  - exists res, c', r', st'. destruct Hwp as (? & ? & Hres). split_and!; [done|done|done|].
    by destruct res as [[]|]; destruct_and?.
  - exfalso. destruct Hwp as [Hf|[Hf|[Hf|Hf]]]; [congruence|tauto..].
Qed.

(** * The reference: unwinding without a rule cache *)

Section Reference.
Context `{Profile, BinarySearch, Gimli, MachoUnwindInfo, PeUnwindInfo}.
Context `{ExprFuel, ChainFuel}.
Context `{Arch, !DwarfUnwinding, !CompactUnwindInfoUnwinding, !PeUnwinding}.
Context {St : Type} `{StackReader St}.

(** What the module of the address says of the frame. *)
Definition slow_path (self : UnwinderInternal ModuleUnwindDataInternal)
    (address : FrameAddress) : M (Cache * (UnwindRegs * St)) Error (UnwindResult UnwindRule) :=
  lookup_address ← lift (address_for_lookup address);
  found ← lift (find_module_for_address self lookup_address);
  match found with
  | None => mret (ExecRule fallback_rule)
  | Some (module_index, relative_lookup_address) =>
      module ← lift (index (modules self) (Z.of_nat module_index));
      r ← catch (unwind_frame_impl module address relative_lookup_address);
      match r with
      | Ok result => mret result
      | Err _ => mret (ExecRule fallback_rule)
      end
  end.

Definition uncached_unwind_frame (self : UnwinderInternal ModuleUnwindDataInternal)
    (address : FrameAddress) : M (Cache * (UnwindRegs * St)) Error (option Z) :=
  r ← slow_path self address;
  match r with
  | ExecRule rule => zoom_snd (exec rule (negb (is_return_address address)))
  | Uncacheable return_address => mret (Some return_address)
  end.

(** A run, with the cache it leaves behind forgotten. *)
Definition forget {A} (m : M (Cache * (UnwindRegs * St)) Error A)
    (s : Cache * (UnwindRegs * St)) : may (result A Error * (UnwindRegs * St)) :=
  match m s with Val (r, s) => Val (r, s.2) | Fault k => Fault k end.
End Reference.

(** gimli documents [UnwindContext] as storage that is reused to save allocations: it does
    not influence the row. *)
Class ContextReuse `{Gimli} : Prop :=
  unwind_info_for_address_context f section bases ctx ctx' a :
    (unwind_info_for_address f section bases ctx a).1 =
    (unwind_info_for_address f section bases ctx' a).1.

Section ContextFree.
Context `{Profile, BinarySearch, Gimli, MachoUnwindInfo, PeUnwindInfo, !ContextReuse}.
Context `{ExprFuel, ChainFuel}.
Context `{Arch, !DwarfUnwinding, !CompactUnwindInfoUnwinding, !PeUnwinding}.
Context {St : Type} `{StackReader St}.
Implicit Types (c : Cache) (rs : UnwindRegs * St).

(** Two runs, from the caches [c] and [c'], that agree on everything but gimli's
    context, and leave the rules in the caches alone. *)
Definition agree {E A} c c' (m m' : may (result A E * (Cache * (UnwindRegs * St)))) :
    Prop :=
  match m, m' with
  | Val (r, s), Val (r', s') =>
      r = r' ∧ s.2 = s'.2 ∧ rule_cache s.1 = rule_cache c ∧ rule_cache s'.1 = rule_cache c'
  | Fault k, Fault k' => k = k'
  | _, _ => False
  end.

(** A computation that does not look at the cache. *)
Definition context_free {E A} (m : M (Cache * (UnwindRegs * St)) E A) : Prop :=
  ∀ c c' rs, agree c c' (m (c, rs)) (m (c', rs)).

Lemma context_free_bind {E A B} (m : M (Cache * (UnwindRegs * St)) E A)
    (k : A → M (Cache * (UnwindRegs * St)) E B) :
  context_free m → (∀ a, context_free (k a)) → context_free (m ≫= k).
Proof.
  intros Hm Hk c c' rs. specialize (Hm c c' rs). unfold mbind, M_bind.
  destruct (m (c, rs)) as [[[a|e] [c1 rs1]]|], (m (c', rs)) as [[[a'|e'] [c1' rs1']]|];
    simpl in Hm; try done; try (by destruct Hm).
  - destruct Hm as ([= ->] & -> & Hc & Hc'). specialize (Hk a' c1 c1' rs1').
    unfold agree in *.
    destruct (k a' (c1, rs1')) as [[? ?]|], (k a' (c1', rs1')) as [[? ?]|]; try done.
    destruct Hk as (-> & -> & Hk & Hk'). split_and!; congruence.
  - by destruct Hm as ([= ->] & -> & Hc & Hc').
Qed.
Lemma context_free_ret {E A} (a : A) :
  context_free (mret a : M (Cache * (UnwindRegs * St)) E A).
Proof. by intros c c' rs. Qed.
Lemma context_free_throw {E A} (e : E) :
  context_free (throw e : M (Cache * (UnwindRegs * St)) E A).
Proof. by intros c c' rs. Qed.
Lemma context_free_try {E A} (r : result A E) :
  context_free (try_ r : M (Cache * (UnwindRegs * St)) E A).
Proof. by intros c c' rs. Qed.
Lemma context_free_lift {E A} (m : may A) :
  context_free (lift m : M (Cache * (UnwindRegs * St)) E A).
Proof. intros c c' rs. unfold lift. by destruct m. Qed.
Lemma context_free_zoom {E A} (m : M (UnwindRegs * St) E A) :
  context_free (zoom_snd m : M (Cache * (UnwindRegs * St)) E A).
Proof. intros c c' rs. unfold zoom_snd. simpl. by destruct (m rs) as [[? ?]|]. Qed.
Lemma context_free_error {E F A} (f : E → F) (m : M (Cache * (UnwindRegs * St)) E A) :
  context_free m → context_free (with_error f m).
Proof.
  intros Hm c c' rs. specialize (Hm c c' rs). unfold with_error.
  destruct (m (c, rs)) as [[? ?]|], (m (c', rs)) as [[? ?]|]; simpl in *; try done.
  by destruct Hm as (-> & -> & ? & ?).
Qed.
Lemma context_free_catch {E F A} (m : M (Cache * (UnwindRegs * St)) E A) :
  context_free m → context_free (catch m : M (Cache * (UnwindRegs * St)) F (result A E)).
Proof.
  intros Hm c c' rs. specialize (Hm c c' rs). unfold catch.
  destruct (m (c, rs)) as [[? ?]|], (m (c', rs)) as [[? ?]|]; simpl in *; try done.
  by destruct Hm as (-> & -> & ? & ?).
Qed.

Lemma context_free_with_fde self first rel fde :
  context_free (unwind_with_fde self first rel fde).
Proof.
  apply context_free_error. intros c c' rs.
  unfold with_context, unwind_frame_with_fde, unwind_info_for_fde. cbn [fst snd].
  destruct (uarith 64 _) as [svma|]; [|done].
  destruct (fde_from_offset _ _ fde) as [f|e]; [|done].
  pose proof (unwind_info_for_address_context f
    (match unwind_section_type self with
     | EhFrame => set_address_size (eh_frame_from (unwind_section_data self)) 8
     | DebugFrame => set_address_size (debug_frame_from (unwind_section_data self)) 8
     end) (bases self) (gimli_unwind_context c) (gimli_unwind_context c') svma) as Heq.
  destruct (unwind_info_for_address f _ _ (gimli_unwind_context c) svma) as [i ctx].
  destruct (unwind_info_for_address f _ _ (gimli_unwind_context c') svma) as [i' ctx'].
  simpl in Heq. subst i'. destruct i as [row|e]; [|done].
  unfold zoom_snd. cbn [fst snd]. by destruct (dwarf_unwind_frame _ _ _ _ rs) as [[? ?]|].
Qed.

Lemma context_free_impl m address rel : context_free (unwind_frame_impl m address rel).
Proof.
  unfold unwind_frame_impl.
  destruct (unwind_data m) as [ui eh stubs helper bases td|hdr eh bases|i eh bases
    |i df bases|p rd xd tx|].
  all: repeat first [apply context_free_bind; [|intros ?]|apply context_free_lift
    |apply context_free_try|apply context_free_with_fde|apply context_free_throw
    |apply context_free_ret|apply context_free_error, context_free_zoom
    |match goal with |- context_free (match ?x with _ => _ end) => destruct x end].
Qed.

Lemma context_free_slow_path self address : context_free (slow_path self address).
Proof.
  unfold slow_path.
  repeat first [apply context_free_bind; [|intros ?]|apply context_free_lift
    |apply context_free_ret|apply context_free_catch, context_free_impl
    |match goal with |- context_free (match ?x with _ => _ end) => destruct x end].
Qed.

Lemma context_free_uncached self address :
  context_free (uncached_unwind_frame self address).
Proof.
  apply context_free_bind; [apply context_free_slow_path|]. intros [rule|ra].
  - apply context_free_zoom.
  - apply context_free_ret.
Qed.
End ContextFree.

(** * The rule cache is transparent *)

Section Transparent.
Context `{Profile, BinarySearch, Gimli, MachoUnwindInfo, PeUnwindInfo, !ContextReuse}.
Context `{ExprFuel, ChainFuel}.
Context `{Arch, !DwarfUnwinding, !CompactUnwindInfoUnwinding, !PeUnwinding}.
Context {St : Type} `{StackReader St}.
Implicit Types (c : Cache) (rs : UnwindRegs * St).
Implicit Types (u : UnwinderInternal ModuleUnwindDataInternal).

(** The lookup address. *)
Definition lookup_of (address : FrameAddress) : Z :=
  match address with InstructionPointer ip => ip | ReturnAddress ra => ra - 1 end.

(** The slow path gives [rule], whatever the registers and the stack. *)
Definition always_rule u (address : FrameAddress) (rule : UnwindRule) : Prop :=
  ∀ c rs, forget (slow_path u address) (c, rs) = Val (Ok (ExecRule rule), rs).

(** What the cache holds for this list of modules is what the slow path would give. *)
Definition coherent u c : Prop :=
  ∀ address rule, wf_frame_address address →
    cached (rule_cache c) (lookup_of address) (modules_generation u) = Some rule →
    always_rule u address rule.

(** If the slow path gives a rule once, it always does, also for the other kind of
    frame with this lookup address. *)
Definition stable u (address : FrameAddress) : Prop :=
  ∀ c rs rule rs',
    forget (slow_path u address) (c, rs) = Val (Ok (ExecRule rule), rs') →
    ∀ address', wf_frame_address address' → lookup_of address' = lookup_of address →
    always_rule u address' rule.

(** What happens on a miss, from the outcome of the slow path. *)
Definition after_slow_path (handle : CacheHandle) (first : bool)
    (m : may (result (UnwindResult UnwindRule) Error * (Cache * (UnwindRegs * St)))) :
    may (result (option Z) Error * (Cache * (UnwindRegs * St))) :=
  match m with
  | Val (Ok (ExecRule rule), s) => insert_and_exec handle rule first s
  | Val (Ok (Uncacheable ra), s) => Val (Ok (Some ra), s)
  | Val (Err e, s) => Val (Err e, s)
  | Fault k => Fault k
  end.

Lemma unwind_frame_run u address c rs :
  wf_frame_address address → wf_cache (rule_cache c) → overflow_checks = false →
  let first := negb (is_return_address address) in
  let a := lookup_of address in
  ∃ c1, RuleCache.entries (rule_cache c1) = RuleCache.entries (rule_cache c) ∧
    unwind_frame u address (c, rs) =
      match cached (rule_cache c) a (modules_generation u) with
      | Some rule => zoom_snd (exec rule first) (c1, rs)
      | None => after_slow_path (handle_for a (modules_generation u)) first
                  (slow_path u address (c1, rs))
      end.
Proof.
  intros Ha Hwf Hrel first a.
  destruct (address_for_lookup_wf address Ha) as [Hlookup _]. fold (lookup_of address) in *.
  destruct (lookup_run (rule_cache c) a (modules_generation u) Hwf (or_introl Hrel))
    as (c' & Hent & Hl).
  exists (mk_cache (gimli_unwind_context c) c'). split; [done|].
  unfold unwind_frame, with_cache, slow_path. rewrite Hlookup.
  unfold mbind at 1, M_bind, lift at 1. unfold mbind at 1, M_bind, cache_lookup.
  cbn [fst snd]. fold a. rewrite Hl. fold first.
  destruct (cached (rule_cache c) a (modules_generation u)) as [rule|]; [done|].
  unfold mbind, M_bind, lift, catch.
  destruct (find_module_for_address u a) as [[[i rel]|]|k]; [|done|done].
  destruct (index (modules u) (Z.of_nat i)) as [m|k]; [|done].
  by destruct (unwind_frame_impl m address rel _) as [[[[rule|ra]|e] s]|k].
Qed.

Lemma forget_eq {A} (m : M (Cache * (UnwindRegs * St)) Error A) c c' rs :
  context_free m → forget m (c, rs) = forget m (c', rs).
Proof.
  intros Hm. specialize (Hm c c' rs). unfold forget.
  destruct (m (c, rs)) as [[? ?]|], (m (c', rs)) as [[? ?]|]; simpl in *; try done.
  - by destruct Hm as (-> & -> & _).
  - by rewrite Hm.
Qed.

(** Unwinding one frame through a coherent cache does what the reference does, and
    leaves a coherent cache. *)
Lemma unwind_frame_transparent u address c rs :
  wf_frame_address address → wf_cache (rule_cache c) → overflow_checks = false →
  coherent u c → stable u address →
  forget (unwind_frame u address) (c, rs) = forget (uncached_unwind_frame u address) (c, rs) ∧
  ∀ res s, unwind_frame u address (c, rs) = Val (res, s) →
    wf_cache (rule_cache s.1) ∧ coherent u s.1.
Proof.
  intros Ha Hwf Hrel Hcoh Hst.
  destruct (unwind_frame_run u address c rs Ha Hwf Hrel) as (c1 & Hent & Hrun).
  assert (Hcoh1 : wf_cache (rule_cache c1) ∧ coherent u c1).
  { split; [unfold wf_cache; by rewrite Hent|]. intros address' rule Ha'.
    unfold cached. rewrite Hent. by apply Hcoh. }
  unfold forget at 1. rewrite Hrun.
  destruct (cached (rule_cache c) (lookup_of address) (modules_generation u))
    as [rule|] eqn:Hhit.
  - pose proof (Hcoh address rule Ha Hhit c rs) as Hslow. unfold forget in Hslow.
    split.
    + unfold forget, uncached_unwind_frame, mbind, M_bind.
      destruct (slow_path u address (c, rs)) as [[[r|] [c2 rs2]]|]; try done.
      simpl in Hslow. injection Hslow as -> ->. unfold zoom_snd. simpl.
      by destruct (exec rule _ rs) as [[? ?]|].
    + intros res s. unfold zoom_snd. simpl. destruct (exec rule _ rs) as [[? ?]|]; [|done].
      by intros [= <- <-].
  - rewrite (forget_eq (uncached_unwind_frame u address) c c1 rs)
      by apply context_free_uncached.
    unfold forget, uncached_unwind_frame, mbind, M_bind.
    pose proof (Hst c1 rs) as Hstable. unfold forget in Hstable at 1.
    pose proof (context_free_slow_path u address c1 c1 rs) as Hcf.
    destruct (slow_path u address (c1, rs)) as [[[[rule|ra]|e] [c2 rs2]]|k] eqn:Hslow;
      cbn [after_slow_path]; [| | |done].
    2, 3: split; [done|]; intros res s [= <- <-]; destruct Hcf as (_ & _ & Hc2 & _);
      cbn [fst] in *; unfold coherent; by rewrite Hc2.
    destruct Hcf as (_ & _ & Hc2 & _). cbn [fst] in Hc2.
    specialize (Hstable rule rs2 eq_refl).
    destruct (insert_run (rule_cache c2) (lookup_of address) (modules_generation u) rule)
      as (c3 & Hi & Hwf3 & _ & Hc3); [by rewrite Hc2; apply Hcoh1|].
    unfold insert_and_exec, mbind, M_bind, cache_insert, zoom_snd. cbn [fst snd].
    rewrite Hi. cbn [fst snd].
    destruct (exec rule _ rs2) as [[res s]|k]; [|done]. split; [done|].
    intros ? ? [= <- <-]. split; [done|]. intros address' rule' Ha'. cbn [fst rule_cache].
    rewrite Hc3. destruct (decide _) as [[Hl _]|_].
    { intros [= <-]. by apply Hstable. }
    case_decide; [done|]. rewrite Hc2. by apply Hcoh1.
Qed.
(** A sequence of frames, of any number of stacks, unwound through one cache. *)
Fixpoint unwind_all u (frames : list (FrameAddress * (UnwindRegs * St))) c :
    may (list (result (option Z) Error * (UnwindRegs * St)) * Cache) :=
  match frames with
  | [] => Val ([], c)
  | (address, rs) :: frames =>
      '(res, s) ← unwind_frame u address (c, rs);
      '(out, c) ← unwind_all u frames s.1;
      Val ((res, s.2) :: out, c)
  end.

(** The same frames, each unwound by the reference. *)
Fixpoint uncached_unwind_all u (frames : list (FrameAddress * (UnwindRegs * St))) c :
    may (list (result (option Z) Error * (UnwindRegs * St))) :=
  match frames with
  | [] => Val []
  | (address, rs) :: frames =>
      r ← forget (uncached_unwind_frame u address) (c, rs);
      out ← uncached_unwind_all u frames c;
      Val (r :: out)
  end.

Definition drop_cache {A} (m : may (A * Cache)) : may A :=
  match m with Val (a, _) => Val a | Fault k => Fault k end.

Lemma uncached_unwind_all_context u frames c c' :
  uncached_unwind_all u frames c = uncached_unwind_all u frames c'.
Proof.
  induction frames as [|[address rs] frames IH]; cbn [uncached_unwind_all]; [done|].
  rewrite (forget_eq _ c c' rs) by apply context_free_uncached. by rewrite IH.
Qed.

Lemma unwind_all_transparent u frames c :
  overflow_checks = false → wf_cache (rule_cache c) → coherent u c →
  Forall (λ f, wf_frame_address f.1 ∧ stable u f.1) frames →
  drop_cache (unwind_all u frames c) = uncached_unwind_all u frames c.
Proof.
  intros Hrel. revert c. induction frames as [|[address rs] frames IH];
    intros c Hwf Hcoh Hall; cbn [unwind_all uncached_unwind_all]; [done|].
  apply Forall_cons in Hall as [[Ha Hst] Hall].
  destruct (unwind_frame_transparent u address c rs Ha Hwf Hrel Hcoh Hst) as [Heq Hnext].
  rewrite <- Heq. unfold forget.
  destruct (unwind_frame u address (c, rs)) as [[res s]|k]; cbn [mbind may_bind]; [|done].
  destruct (Hnext res s eq_refl) as [Hwf' Hcoh'].
  rewrite (uncached_unwind_all_context u frames c s.1). rewrite <- (IH s.1) by done.
  by destruct (unwind_all u frames s.1) as [[out c']|k].
Qed.
End Transparent.

(** C1.  The rule cache is transparent: in a release build, unwinding any sequence of
    frames, of any number of stacks, through one initially empty cache gives the results
    and registers of an unwinder without a rule cache, if the slow path gives the same
    rule for an address every time. *)
Theorem cache_transparent `{Profile, BinarySearch, Gimli, MachoUnwindInfo, PeUnwindInfo,
    !ContextReuse, ExprFuel, ChainFuel, Arch, !DwarfUnwinding, !CompactUnwindInfoUnwinding,
    !PeUnwinding} {St} `{StackReader St} (u : UnwinderInternal ModuleUnwindDataInternal)
    (context : UnwindContext) (frames : list (FrameAddress * (UnwindRegs * St))) :
  overflow_checks = false →
  Forall (λ f, wf_frame_address f.1 ∧ stable (St := St) u f.1) frames →
  drop_cache (unwind_all u frames (cache_new context)) =
    uncached_unwind_all u frames (cache_new context).
Proof.
  intros Hrel Hall. apply unwind_all_transparent; [done|apply wf_cache_new| |done].
  intros address rule _. unfold cache_new; cbn [rule_cache]. by rewrite cached_new.
Qed.

(** C39.  In a release build an error of the slow path is cached like a rule: after it, every
    frame at the address is unwound by the fallback rule, whatever its registers and
    stack, without another look at the module. *)
Theorem slow_path_error_is_cached `{Profile, BinarySearch, Gimli, MachoUnwindInfo,
    PeUnwindInfo, !ContextReuse, ExprFuel, ChainFuel, Arch, !DwarfUnwinding,
    !CompactUnwindInfoUnwinding, !PeUnwinding} {St} `{StackReader St}
    (u : UnwinderInternal ModuleUnwindDataInternal) (address : FrameAddress)
    (c c' : Cache) (rs rs' : UnwindRegs * St) (i : nat) (rel : Z)
    (m : Module ModuleUnwindDataInternal) (e : UnwinderError gimli_error macho_error)
    (s : Cache * (UnwindRegs * St)) (res : result (option Z) Error) :
  overflow_checks = false → wf_frame_address address → wf_cache (rule_cache c) →
  cached (rule_cache c) (lookup_of address) (modules_generation u) = None →
  find_module_for_address u (lookup_of address) = Val (Some (i, rel)) →
  modules u !! i = Some m → unwind_frame_impl m address rel (c, rs) = Val (Err e, s) →
  unwind_frame u address (c, rs) = Val (res, (c', rs')) →
  ∀ rs2, forget (unwind_frame u address) (c', rs2) =
    exec fallback_rule (negb (is_return_address address)) rs2.
Proof.
  intros Hrel Ha Hwf Hmiss Hfind Hm Herr Hrun rs2.
  destruct (unwind_frame_run u address c rs Ha Hwf Hrel) as (c1 & Hent & Heq).
  rewrite Hmiss in Heq.
  pose proof (context_free_impl m address rel c c1 rs) as Hcf. rewrite Herr in Hcf.
  destruct (unwind_frame_impl m address rel (c1, rs)) as [[r1 [c2 rs1]]|] eqn:Himpl; [|done].
  destruct Hcf as (<- & _ & _ & Hc2). cbn [fst] in Hc2.
  assert (Hslow : slow_path u address (c1, rs) = Val (Ok (ExecRule fallback_rule), (c2, rs1))).
  { unfold slow_path. destruct (address_for_lookup_wf address Ha) as [-> _].
    fold (lookup_of address). unfold mbind, M_bind, lift, catch. rewrite Hfind.
    by rewrite (index_Some _ _ _ Hm), Himpl. }
  rewrite Hslow in Heq. cbn [after_slow_path] in Heq.
  destruct (insert_run (rule_cache c2) (lookup_of address) (modules_generation u)
    (fallback_rule : UnwindRule)) as (c3 & Hi & Hwf3 & _ & Hc3).
  { rewrite Hc2. unfold wf_cache. by rewrite Hent. }
  assert (Hc' : rule_cache c' = c3).
  { rewrite Hrun in Heq. unfold insert_and_exec, mbind, M_bind, cache_insert, zoom_snd in Heq.
    cbn [fst snd] in Heq. rewrite Hi in Heq. cbn [fst snd] in Heq.
    destruct (exec fallback_rule _ rs1) as [[? ?]|]; [|done]. by injection Heq as -> -> _. }
  destruct (unwind_frame_run u address c' rs2 Ha) as (c4 & _ & Heq2); [by rewrite Hc'|done|].
  rewrite Hc', Hc3, decide_True in Heq2 by done. unfold forget. rewrite Heq2.
  unfold zoom_snd. cbn [fst snd]. by destruct (exec fallback_rule _ rs2) as [[? ?]|].
Qed.
