(* ===== verification/X86Unwinder.v ===== *)
(** The x86_64 unwinder ([UnwinderX86_64] in [src/x86_64/unwinder.rs] and [CacheX86_64]
    in [src/x86_64/cache.rs]): the generic unwinder at the architecture x86_64. *)

From S2P Require Import Prelude CodeAddress Error Arch RuleCache Slices Modules.
From S2P Require Import Dwarf DwarfCfiIndex Macho Pe UnwindData Unwinder UnwinderSpec.
From S2P Require Import UnwindFrame.
From S2P Require Import X86UnwindRegs X86UnwindRule X86Dwarf X86InstructionAnalysis.
From S2P Require Import X86Macho X86Pe GimliExample PeExample.
From stdpp Require Import list strings.
Local Open Scope Z_scope.

(** * The rules of a function body need no panic *)

Section Returns.
Context `{Profile, Gimli, MachoUnwindInfo} (Hrel : overflow_checks = false).

Lemma frameless_rule_returns size x saved : returns (frameless_rule size x saved).
Proof. unfold frameless_rule. repeat returns_step. Qed.

Lemma rule_for_body_returns op fb : returns (rule_for_body op fb).
Proof.
  unfold rule_for_body.
  repeat returns_step; apply frameless_rule_returns.
Qed.

Lemma cui_returns f first off fb :
  (∀ b, fb = Some b → 0 ≤ off ≤ Z.of_nat (length b)) →
  returns (X86Macho.unwind_frame f first off fb).
Proof.
  intros Hoff. unfold X86Macho.unwind_frame.
  destruct first; [|apply rule_for_body_returns]. apply returns_bind.
  - destruct fb as [b|]; [|by eexists].
    apply returns_bind; [by apply instruction_analysis_returns, Hoff|].
    intros o _. repeat returns_step.
  - intros o _. repeat returns_step. apply rule_for_body_returns.
Qed.
End Returns.

(** * The interface *)

#[export] Instance unwinding_spec_x86 `{Gimli, MachoUnwindInfo, PeUnwindInfo} :
  @UnwindingSpec _ _ _ ArchX86_64 _ _ _.
Proof.
  refine {|
    regs_ok := wf_regs : @UnwindRegs ArchX86_64 → Prop;
    rule_ok := wf_rule : @UnwindRule ArchX86_64 → Prop;
    advances first r ra r' :=
      ip r' = ra ∧ (first = false → sp r ≤ sp r') ∧ (sp r' = sp r → ra ≠ ip r);
    exprs_ok _ := expressions_terminate;
  |}.
  - intros ? St ? rule first r st Hr Hrule.
    eapply wp_conseq; [| |exact (wp_exec rule first r st Hr Hrule)]; [by intros []|].
    intros res s [Hs Hres]. split; [done|].
    destruct res as [[ra|]|e]; [by destruct Hres as (? & ? & ? & ? & ?)|done|done].
  - done.
  - done.
  - done.
  - done.
  - intros off rule. apply X86Macho.stub_helper_wf.
  - intros ? ? St ? section row enc first r st Hr.
    eapply wp_mono; [|apply (wp_dwarf_unwind_frame _ section row enc first r st Hr)].
    + intros res s [Hs Hres]. split; [done|].
      destruct res as [[rule|ra]|e]; [done|by destruct Hres as (? & ? & ? & ?)|by simpl in *; intros; rewrite <- Hres].
    + intros expr k Hk. right. intros Ht. by apply Ht in Hk.
    + by left.
  - intros ? f first off fb rule. apply X86Macho.unwind_frame_wf.
  - intros ? f first off fb Hrel Hoff. by apply cui_returns.
  - intros ? ? St ? sections a first r st Hr.
    eapply wp_mono; [|by apply (wp_pe_unwind_frame sections a first (r, st))].
    intros res s [[Hs _] Hres]. split; [done|]. destruct res as [[rule|ra]|e]; [|done|done].
    by destruct Hres as [-> Hrule].
Defined.


(** * Examples *)

#[export] Instance toy_context_reuse : @ContextReuse toy_gimli.
Proof. done. Qed.
#[export] Instance example_chain_fuel : ChainFuel := 4%nat.

(** The module of [example_info], whose only FDE says that the return address is on top
    of the stack. *)
Definition example_unwinder : UnwinderInternal (@ModuleUnwindDataInternal toy_gimli) :=
  mk_unwinder _ [example_module] 0.

Definition x86_cache := @Cache toy_gimli ArchX86_64.
Definition x86_new_cache : x86_cache := cache_new (0%nat : @UnwindContext toy_gimli).

Abbreviation x86_unwind :=
  (@Unwinder.unwind_frame release_profile scan_search toy_gimli toy_macho toy_pe toy_fuel
     example_chain_fuel ArchX86_64 _ _ _ (list Z) words_reader).
Abbreviation x86_stable :=
  (@stable release_profile scan_search toy_gimli toy_macho toy_pe toy_fuel
     example_chain_fuel ArchX86_64 _ _ _ (list Z) words_reader).
Abbreviation x86_always :=
  (@always_rule release_profile scan_search toy_gimli toy_macho toy_pe toy_fuel
     example_chain_fuel ArchX86_64 _ _ _ (list Z) words_reader).

Example x86_unwind_example :
  match x86_unwind example_unwinder (InstructionPointer 0x7180)
    (x86_new_cache, (X86UnwindRegs.new 0x7180 0x28 0x20, example_stack)) with
  | Val (r, (_, rs)) => (r, rs) = (Ok (Some 0x100200), (X86UnwindRegs.new 0x100200 0x30 0x20, example_stack))
  | _ => False
  end.
Proof. reflexivity. Qed.

Lemma example_always address :
  lookup_of address = 0x7180 → wf_frame_address address →
  x86_always example_unwinder address (OffsetSp 1).
Proof.
  intros Hl Ha.
  assert (address = InstructionPointer 0x7180 ∨ address = ReturnAddress 0x7181) as [->| ->].
  { destruct address; simpl in Hl; [left; by subst|right; f_equal; lia]. }
  all: intros [ctx rc] [r st]; vm_compute; reflexivity.
Qed.

Lemma always_stable u address rule :
  wf_frame_address address →
  (∀ address', lookup_of address' = lookup_of address → wf_frame_address address' →
     x86_always u address' rule) →
  x86_stable u address.
Proof.
  intros Ha Hall c rs rule' rs' Hrun address' Ha' Hl.
  rewrite (Hall address eq_refl Ha c rs) in Hrun. injection Hrun as <- _. by apply Hall.
Qed.

Lemma outside_stable address :
  wf_frame_address address → lookup_of address = 0x8fff → x86_stable example_unwinder address.
Proof.
  intros Ha Hl. apply (always_stable _ _ UseFramePointer Ha). rewrite Hl. clear.
  intros address Hl Ha.
  assert (address = InstructionPointer 0x8fff ∨ address = ReturnAddress 0x9000) as [->| ->].
  { destruct address; simpl in Hl; [left; by subst|right; f_equal; lia]. }
  all: intros [ctx rc] [r st]; vm_compute; reflexivity.
Qed.

Lemma example_unwinder_wf : wf_unwinder example_unwinder.
Proof.
  split_and!; [repeat constructor; by vm_compute| |by vm_compute].
  intros [|i] [|j] m m' Hij; simpl; try lia; done.
Qed.

Lemma cache_ok_new context : @cache_ok _ _ _ _ _ _ _ (unwinding_spec_x86) (cache_new context).
Proof.
  split; [apply wf_cache_new|]. intros a g rule. unfold cache_new; cbn [rule_cache].
  by rewrite cached_new.
Qed.

Lemma unwind_frame_returns_witness :
  ∃ res c' r' st', x86_unwind example_unwinder (InstructionPointer 0x7180)
    (x86_new_cache, (X86UnwindRegs.new 0x7180 0x28 0x20, example_stack)) =
      Val (res, (c', (r', st'))) ∧
    @cache_ok _ _ _ _ _ _ _ unwinding_spec_x86 c' ∧ wf_regs r' ∧
    match res with Ok (Some ra) => is_u64 ra | _ => True end.
Proof.
  apply (@unwind_frame_returns release_profile scan_search toy_gimli toy_macho toy_pe ArchX86_64
    _ _ _ unwinding_spec_x86 toy_fuel example_chain_fuel (list Z) words_reader
    toy_macho_lookup_covers example_unwinder (InstructionPointer 0x7180) x86_new_cache
    (X86UnwindRegs.new 0x7180 0x28 0x20) example_stack).
  - reflexivity.
  - apply toy_expressions_terminate.
  - apply example_unwinder_wf.
  - repeat constructor. by exists [(0x100, 0)].
  - by vm_compute.
  - apply cache_ok_new.
  - apply wf_new; range.
Defined.

(** The cache after a call. *)
Definition cache_after (m : may (result (option Z) Error *
    (x86_cache * (UnwindRegsX86_64 * list Z)))) : x86_cache :=
  match m with Val (_, s) => s.1 | Fault _ => x86_new_cache end.
Definition example_cache : x86_cache :=
  cache_after (x86_unwind example_unwinder (InstructionPointer 0x7180)
    (x86_new_cache, (X86UnwindRegs.new 0x7180 0x28 0x20, example_stack))).


(** Two stacks that are unwound through one cache. *)
Definition example_frames : list (FrameAddress * (UnwindRegsX86_64 * list Z)) :=
  [(InstructionPointer 0x7180, (X86UnwindRegs.new 0x7180 0x28 0x20, example_stack));
   (ReturnAddress 0x9000, (X86UnwindRegs.new 0x9000 0x18 0x20, example_stack));
   (InstructionPointer 0x7180, (X86UnwindRegs.new 0x7180 0x48 0x40, example_stack))].

Lemma cache_transparent_witness :
  drop_cache (@unwind_all release_profile scan_search toy_gimli toy_macho toy_pe toy_fuel
     example_chain_fuel ArchX86_64 _ _ _ (list Z) words_reader
     example_unwinder example_frames x86_new_cache) =
  Val [(Ok (Some 0x100200), (X86UnwindRegs.new 0x100200 0x30 0x20, example_stack));
       (Ok (Some 0x100200), (X86UnwindRegs.new 0x100200 0x30 0x40, example_stack));
       (Ok (Some 0x100100), (X86UnwindRegs.new 0x100100 0x50 0x40, example_stack))].
Proof.
  etrans; [apply (@cache_transparent release_profile scan_search toy_gimli toy_macho toy_pe
    toy_context_reuse toy_fuel example_chain_fuel ArchX86_64 _ _ _ (list Z) words_reader
    example_unwinder 0%nat example_frames)|reflexivity].
  - reflexivity.
  - assert (H1 : x86_stable example_unwinder (InstructionPointer 0x7180)).
    { apply (always_stable _ _ (OffsetSp 1)); [by vm_compute|]. apply example_always. }
    apply Forall_cons. split; [by split; [vm_compute|exact H1]|].
    apply Forall_cons. split; [|apply Forall_cons; split; [by split; [vm_compute|exact H1]|]].
    + by split; [vm_compute|apply outside_stable; vm_compute].
    + by apply Forall_nil.
Defined.

(** A module whose only FDE needs a DWARF expression, so no rule of it is cacheable. *)
Definition expression_module : Module (@ModuleUnwindDataInternal toy_gimli) :=
  mk_module _ "expression" (mk_range 0x7000 0x8000) 0x7000 0x1000
    (DwarfCfiIndexAndEhFrame (mk_index [0x100] [0]) [0x1100; 0; -1; 0; -8; 0]
       ([] : @BaseAddresses toy_gimli)).
Definition expression_unwinder : UnwinderInternal (@ModuleUnwindDataInternal toy_gimli) :=
  mk_unwinder _ [expression_module] 0.

Abbreviation x86_impl :=
  (@unwind_frame_impl release_profile scan_search toy_gimli toy_macho toy_pe toy_fuel
     example_chain_fuel ArchX86_64 _ _ _ (list Z) words_reader).
Abbreviation x86_uncached :=
  (@uncached_unwind_frame release_profile scan_search toy_gimli toy_macho toy_pe toy_fuel
     example_chain_fuel ArchX86_64 _ _ _ (list Z) words_reader).

(** The first frame has an unreadable stack. *)
Definition poisoned_cache : x86_cache :=
  cache_after (x86_unwind expression_unwinder (InstructionPointer 0x7180)
    (x86_new_cache, (X86UnwindRegs.new 0x7180 0x28 0x20, []))).

Lemma slow_path_error_is_cached_witness :
  forget (x86_unwind expression_unwinder (InstructionPointer 0x7180))
    (poisoned_cache, (X86UnwindRegs.new 0x7180 0x28 0x20, example_stack)) =
  X86UnwindRule.exec (H := release_profile) UseFramePointer true
    (X86UnwindRegs.new 0x7180 0x28 0x20, example_stack).
Proof.
  apply (@slow_path_error_is_cached release_profile scan_search toy_gimli toy_macho toy_pe
    toy_context_reuse toy_fuel example_chain_fuel ArchX86_64 _ _ _ (list Z) words_reader
    expression_unwinder (InstructionPointer 0x7180) x86_new_cache poisoned_cache
    (X86UnwindRegs.new 0x7180 0x28 0x20, []) (X86UnwindRegs.new 0x7180 0x28 0x20, [])
    0%nat 0x180 expression_module (Dwarf CouldNotRecoverReturnAddress)
    (mk_cache (1%nat : @UnwindContext toy_gimli) RuleCache.new,
     (X86UnwindRegs.new 0x7180 0x28 0x20, [])) (Err (CouldNotReadStack 0x20))).
  all: try reflexivity. by vm_compute.
Defined.

(** With a readable stack the same frame could have been unwound. *)
Example poisoned_cache_result :
  let rs := (X86UnwindRegs.new 0x7180 0x28 0x20, example_stack) in
  forget (x86_unwind expression_unwinder (InstructionPointer 0x7180)) (x86_new_cache, rs) =
    Val (Ok (Some 0x100200), (X86UnwindRegs.new 0x100200 0x30 0x20, example_stack)) ∧
  forget (x86_unwind expression_unwinder (InstructionPointer 0x7180)) (poisoned_cache, rs) ≠
    forget (x86_unwind expression_unwinder (InstructionPointer 0x7180)) (x86_new_cache, rs).
Proof. split; [reflexivity|]. vm_compute. congruence. Qed.
