(* ===== verification/A64Unwinder.v ===== *)
(** The aarch64 unwinder ([UnwinderAarch64] in [src/aarch64/unwinder.rs] and
    [CacheAarch64] in [src/aarch64/cache.rs]): the generic unwinder at the architecture
    aarch64. *)

From S2P Require Import Prelude CodeAddress Error Arch RuleCache Slices Modules.
From S2P Require Import Dwarf DwarfCfiIndex Macho Pe UnwindData Unwinder UnwinderSpec.
From S2P Require Import UnwindFrame.
From S2P Require Import A64UnwindRegs A64UnwindRule A64Dwarf A64InstructionAnalysis.
From S2P Require Import A64Macho A64Pe GimliExample PeExample.
From stdpp Require Import list strings.
Local Open Scope Z_scope.

Lemma cui_returns_aarch64 `{Profile, Gimli, MachoUnwindInfo} f first off fb :
  overflow_checks = false → (∀ b, fb = Some b → 0 ≤ off ≤ Z.of_nat (length b)) →
  returns (A64Macho.unwind_frame f first off fb).
Proof.
  intros Hrel Hoff. unfold A64Macho.unwind_frame. repeat returns_step.
  by apply instruction_analysis_returns_aarch64, Hoff.
Qed.

#[export] Instance unwinding_spec_aarch64 `{Gimli, MachoUnwindInfo, PeUnwindInfo} :
  @UnwindingSpec _ _ _ ArchAarch64 _ _ _.
Proof.
  refine {|
    regs_ok := wf_regs : @UnwindRegs ArchAarch64 → Prop;
    rule_ok := wf_rule : @UnwindRule ArchAarch64 → Prop;
    advances first r ra r' :=
      lr_mask r' = lr_mask r ∧ lr r' = strip_ptr_auth (lr_mask r) ra ∧
      (first = false → sp r < sp r');
    exprs_ok _ := expressions_terminate;
  |}.
  - intros ? St ? rule first r st Hr Hrule.
    eapply wp_conseq; [| |exact (wp_exec_aarch64 rule first r st Hr Hrule)]; [by intros []|].
    intros [[ra|]|e] [r' st'] Hs; [|by simpl in *; subst..].
    destruct Hs as (? & ? & ? & ? & ? & _ & ? & Hstrip). simpl in *. split_and!; congruence || done.
  - done.
  - done.
  - done.
  - done.
  - intros off rule. apply stub_helper_wf_aarch64.
  - intros ? ? St ? section row enc first r st Hr.
    eapply wp_mono; [|apply (wp_dwarf_unwind_frame_aarch64 _ section row enc first r st Hr)].
    + intros res [r' st'] (Hs & Hmask & Hres). split; [done|].
      destruct res as [[rule|ra]|e]; simpl in *;
        [done|by destruct Hres as (? & ? & ?)|by subst].
    + intros expr k Hk. right. intros Ht. by apply Ht in Hk.
    + by left.
  - intros ? f first off fb rule. apply unwind_frame_wf_aarch64.
  - intros ? f first off fb Hrel Hoff. by apply cui_returns_aarch64.
  - intros ? ? St ? sections a first r st Hr. by apply wp_throw.
Defined.

(** The same on aarch64: the link register is the stripped return address, and outside the
    first frame the stack pointer moves strictly up. *)
Lemma a64_frame_advances `{Profile, BinarySearch, Gimli, MachoUnwindInfo, PeUnwindInfo,
    ExprFuel, ChainFuel} {St} `{StackReader St} (u : UnwinderInternal ModuleUnwindDataInternal)
    (address : FrameAddress) (c c' : @Cache _ ArchAarch64) (r r' : UnwindRegsAarch64)
    (st st' : St) (ra : Z) :
  wf_unwinder u → no_pe u → wf_frame_address address →
  @cache_ok _ _ _ _ _ _ _ unwinding_spec_aarch64 c → wf_regs r →
  @Unwinder.unwind_frame _ _ _ _ _ _ _ ArchAarch64 _ _ _ St _ u address (c, (r, st)) =
    Val (Ok (Some ra), (c', (r', st'))) →
  wf_regs r' ∧ lr_mask r' = lr_mask r ∧ lr r' = strip_ptr_auth (lr_mask r) ra ∧
  (is_return_address address = true → sp r < sp r').
Proof.
  intros Hu Hpe Ha Hc Hr Hrun.
  destruct (@unwind_frame_progress _ _ _ _ _ _ _ _ _ unwinding_spec_aarch64 _ _ _ _ u address c c' r
    r' st st' _ Hu Ha Hc Hr Hrun) as (_ & Hr' & _ & Hadv).
  destruct (Hadv Hpe) as (Hmask & Hlr & Hsp). split_and!; [done..|].
  intros Hret. apply Hsp. by rewrite Hret.
Qed.
