(* ===== verification/Iterator.v ===== *)
(** Unwinding a whole stack: the iterator of [src/unwinder.rs] ([UnwindIterator]). *)

From S2P Require Import Prelude CodeAddress Error Arch RuleCache Slices Modules.
From S2P Require Import Dwarf DwarfCfiIndex Macho Pe UnwindData Unwinder UnwinderSpec.
From S2P Require Import UnwindFrame.
From stdpp Require Import list.
Local Open Scope Z_scope.

Inductive UnwindIteratorState : Type :=
| Initial (pc : Z)
| Unwinding (address : FrameAddress)
| Done.

Section Iterator.
Context `{Profile, BinarySearch, Gimli, MachoUnwindInfo, PeUnwindInfo}.
Context `{ExprFuel, ChainFuel}.
Context `{Arch, !DwarfUnwinding, !CompactUnwindInfoUnwinding, !PeUnwinding}.
Context {St : Type} `{StackReader St}.

(** What an iterator can change: its [state], the cache, the registers, the reader.
    The unwinder is borrowed. *)
Definition iterator : Type := UnwindIteratorState * (Cache * (UnwindRegs * St)).

(** [UnwindIterator::new]. *)
Definition iterator_new (pc : Z) (regs : UnwindRegs) (cache : Cache) (reader : St) :
    iterator :=
  (Initial pc, (cache, (regs, reader))).

Definition get_iterator_state {E} : M iterator E UnwindIteratorState :=
  λ s, Val (Ok s.1, s).
Definition put_iterator_state {E} (state : UnwindIteratorState) : M iterator E () :=
  λ s, Val (Ok (), (state, s.2)).

Definition next (unwinder : UnwinderInternal ModuleUnwindDataInternal) :
    M iterator Error (option FrameAddress) :=
  state ← get_iterator_state;
  match state with
  | Initial pc =>
      put_iterator_state (Unwinding (InstructionPointer pc)) ;;
      mret (Some (InstructionPointer pc))
  | Unwinding address =>
      next ← zoom_snd (unwind_frame unwinder address);
      match next with
      | Some return_address =>
          return_address ←
            try_ (ok_or (from_return_address return_address) ReturnAddressIsNull);
          put_iterator_state (Unwinding return_address) ;;
          mret (Some return_address)
      | None => put_iterator_state Done ;; mret None
      end
  | Done => mret None
  end.

(** How a loop over the iterator ends. *)
Inductive iteration_end : Type :=
| Finished
| Failed (e : Error)
| StillRunning.

(** The loop of a caller: it collects frames until [Ok(None)] or an [Err], for at most
    [fuel] calls. *)
Fixpoint collect_frames (fuel : nat)
    (unwinder : UnwinderInternal ModuleUnwindDataInternal) (it : iterator) :
    may (list FrameAddress * iteration_end * iterator) :=
  match fuel with
  | O => Val ([], StillRunning, it)
  | S fuel =>
      match next unwinder it with
      | Fault k => Fault k
      | Val (Err e, it) => Val ([], Failed e, it)
      | Val (Ok None, it) => Val ([], Finished, it)
      | Val (Ok (Some frame), it) =>
          '(frames, how, it) ← collect_frames fuel unwinder it;
          Val (frame :: frames, how, it)
      end
  end.
(** [next] at a frame, from what [unwind_frame] does there. *)
Lemma next_at_frame (unwinder : UnwinderInternal ModuleUnwindDataInternal)
    (address : FrameAddress) (it it' : Cache * (UnwindRegs * St)) (ra frame : Z) :
  unwind_frame unwinder address it = Val (Ok (Some ra), it') →
  from_return_address ra = Some (ReturnAddress frame) →
  next unwinder (Unwinding address, it) =
    Val (Ok (Some (ReturnAddress frame)), (Unwinding (ReturnAddress frame), it')).
Proof.
  intros Hrun Hra. cbv [next mbind M_bind get_iterator_state zoom_snd fst snd].
  rewrite Hrun. cbn. by rewrite Hra.
Qed.

(** [next] where [unwind_frame] finds no caller. *)
Lemma next_at_end (unwinder : UnwinderInternal ModuleUnwindDataInternal)
    (address : FrameAddress) (it it' : Cache * (UnwindRegs * St)) (res : result (option Z) Error) :
  unwind_frame unwinder address it = Val (res, it') →
  (∀ ra, res ≠ Ok (Some ra)) →
  ∃ res' it'', next unwinder (Unwinding address, it) = Val (res', it'') ∧
    ∀ frame, res' ≠ Ok (Some frame).
Proof.
  intros Hrun Hres. cbv [next mbind M_bind get_iterator_state zoom_snd fst snd].
  rewrite Hrun. destruct res as [[ra|]|e]; [by destruct (Hres ra)| |]; by eexists _, _.
Qed.

(** The loop after a call that yields a frame. *)
Lemma collect_frames_next fuel (unwinder : UnwinderInternal ModuleUnwindDataInternal)
    (it it' it'' : iterator) frame frames how :
  next unwinder it = Val (Ok (Some frame), it') →
  collect_frames fuel unwinder it' = Val (frames, how, it'') →
  collect_frames (S fuel) unwinder it = Val (frame :: frames, how, it'').
Proof. intros Hn Hc. cbn [collect_frames]. by rewrite Hn, Hc. Qed.
End Iterator.

(** * The protocol of the iterator *)

Section Protocol.
Context `{Profile, BinarySearch, UnwindingSpec, ExprFuel, ChainFuel}.
Context {St : Type} `{StackReader St}.
Implicit Types (u : UnwinderInternal ModuleUnwindDataInternal).

Definition wf_iterator_state (s : UnwindIteratorState) : Prop :=
  match s with
  | Initial pc => is_u64 pc
  | Unwinding address => wf_frame_address address
  | Done => True
  end.

Definition iterator_ok (it : iterator (St := St)) : Prop :=
  wf_iterator_state it.1 ∧ cache_ok it.2.1 ∧ regs_ok it.2.2.1.

(** What one call does, from the state it starts in. *)
Definition next_post (u : UnwinderInternal ModuleUnwindDataInternal) (it : iterator (St := St)) (res : result (option FrameAddress) Error)
    (it' : iterator (St := St)) : Prop :=
  iterator_ok it' ∧
  match it.1, res with
  | Initial pc, Ok (Some frame) =>
      frame = InstructionPointer pc ∧ it' = (Unwinding frame, it.2)
  | Unwinding address, Ok (Some frame) =>
      (∃ ra, frame = ReturnAddress ra ∧ is_u64 ra ∧ ra ≠ 0 ∧
         (no_pe u → advances (negb (is_return_address address)) it.2.2.1 ra it'.2.2.1)) ∧
      it'.1 = Unwinding frame
  | Unwinding address, Ok None => it'.1 = Done
  | Unwinding address, Err _ => it'.1 = it.1
  | Done, Ok None => it' = it
  | _, _ => False
  end.

Lemma wp_next u it :
  wf_unwinder u → iterator_ok it →
  wp (unwinder_may_fail u) (next u) (next_post u it) it.
Proof.
  intros Hu (Hs & Hc & Hr). destruct it as [state [c [r st]]]. cbn [fst snd] in *.
  unfold next. wp_step. unfold wp at 1, get_iterator_state. cbn [fst].
  destruct state as [pc|address|]; simpl in Hs.
  - wp_step. unfold wp at 1, put_iterator_state. wp_step. by split_and!.
  - wp_step. wp_step.
    eapply wp_mono; [|by apply (wp_unwind_frame u address c r st)].
    intros res [c' [r' st']] (Hc' & Hr' & Hres). cbn [fst snd] in *.
    destruct res as [[ra|]|e].
    + destruct Hres as [Hra Hadv]. wp_step. wp_step.
      destruct (from_return_address ra) as [frame|] eqn:Hf; simpl; [|by split_and!].
      apply from_return_address_wf in Hf as [-> Hf]; [|done]. simpl in Hf.
      wp_step. unfold wp at 1, put_iterator_state. wp_step.
      split; [by split_and!|]. simpl. split; [|done]. exists ra. by destruct Hf.
    + wp_step. unfold wp at 1, put_iterator_state. wp_step. by split_and!.
    + by split_and!.
  - wp_step. by split_and!.
Qed.
End Protocol.

(** C13.  The protocol of one call to [next], from any state and whatever the unwind data:
    the first call yields the instruction pointer and unwinds nothing; a later call yields
    a non-zero return address, from which the next call continues, or ends the iteration;
    an error leaves the iterator at the same frame; and a finished iterator stays
    finished, without touching the registers, the cache or the stack.  The registers and
    the cache stay well formed throughout. *)
Theorem iterator_protocol `{Profile, BinarySearch, UnwindingSpec, ExprFuel, ChainFuel} {St}
    `{StackReader St} (u : UnwinderInternal ModuleUnwindDataInternal)
    (it it' : iterator (St := St)) (res : result (option FrameAddress) Error) :
  wf_unwinder u → iterator_ok it → next u it = Val (res, it') →
  iterator_ok it' ∧
  match it.1, res with
  | Initial pc, Ok (Some frame) =>
      frame = InstructionPointer pc ∧ it' = (Unwinding frame, it.2)
  | Unwinding _, Ok (Some frame) =>
      (∃ ra, frame = ReturnAddress ra ∧ is_u64 ra ∧ ra ≠ 0) ∧ it'.1 = Unwinding frame
  | Unwinding _, Ok None => it'.1 = Done
  | Unwinding _, Err _ => it'.1 = it.1
  | Done, Ok None => it' = it
  | _, _ => False
  end.
Proof.
  intros Hu Hit Hrun.
  pose proof (wp_run _ _ _ _ _ _ (wp_next u it Hu Hit) Hrun) as [Hok Hpost].
  split; [done|]. destruct it.1, res as [[frame|]|e]; try done.
  destruct Hpost as [(ra & ? & ? & ? & _) ?]. split; [by exists ra|done].
Qed.

(** * Termination *)

(** The progress of an architecture is bounded. *)
Class BoundedProgress `{UnwindingSpec} : Type := {
  measure : UnwindRegs → Z;
  measure_u64 r : regs_ok r → is_u64 (measure r);
  measure_advances r ra r' : advances false r ra r' → measure r < measure r';
}.

Section Termination.
Context `{Profile, BinarySearch, UnwindingSpec, !BoundedProgress, !MachoLookup}.
Context `{ExprFuel, ChainFuel} {St : Type} `{StackReader St}.
Implicit Types (u : UnwinderInternal ModuleUnwindDataInternal) (it : iterator (St := St)).

(** The hypotheses under which one frame returns. *)
Definition unwinder_returns u : Prop :=
  overflow_checks = false ∧ exprs_ok ∧ wf_unwinder u ∧
  Forall (λ m, not_pe (unwind_data m) ∧ wf_unwind_data (unwind_data m)) (modules u).

Lemma unwinder_returns_no_pe u : unwinder_returns u → no_pe u.
Proof. intros (_ & _ & _ & Hall). eapply Forall_impl; [exact Hall|]. by intros m [? _]. Qed.

Definition iteration_ends u it : Prop :=
  ∃ fuel frames how it',
    collect_frames fuel u it = Val (frames, how, it') ∧ how ≠ StillRunning.

Lemma next_returns u it :
  unwinder_returns u → iterator_ok it →
  ∃ res it', next u it = Val (res, it') ∧ next_post u it res it'.
Proof.
  intros (Hrel & He & Hu & Hall) Hit. pose proof (wp_next u it Hu Hit) as Hwp.
  unfold wp in Hwp. destruct (next u it) as [[res it']|k]; [by exists res, it'|].
  exfalso. destruct Hwp as [Hf|[Hf|[Hf|Hf]]]; [congruence|tauto..].
Qed.

(** One more call. *)
Lemma iteration_ends_next u it frame it' :
  next u it = Val (Ok (Some frame), it') → iteration_ends u it' → iteration_ends u it.
Proof.
  intros Hn (fuel & frames & how & it'' & Hc & Hhow).
  exists (S fuel), (frame :: frames), how, it''. split; [|done].
  by apply (collect_frames_next _ _ _ it').
Qed.
Lemma iteration_ends_now u it res it' :
  next u it = Val (res, it') → (∀ frame, res ≠ Ok (Some frame)) → iteration_ends u it.
Proof.
  intros Hn Hres. destruct res as [[frame|]|e]; [by destruct (Hres frame)| |].
  - exists 1%nat, [], Finished, it'. cbn [collect_frames]. by rewrite Hn.
  - exists 1%nat, [], (Failed e), it'. cbn [collect_frames]. by rewrite Hn.
Qed.

(** From a return address on, the measure grows with each frame. *)
Lemma return_addresses_end u it ra :
  unwinder_returns u → iterator_ok it → it.1 = Unwinding (ReturnAddress ra) →
  iteration_ends u it.
Proof.
  intros Hu. remember (Z.to_nat (2 ^ 64 - measure it.2.2.1)) as n eqn:Hn.
  revert it ra Hn. induction n as [n IH] using lt_wf_ind. intros it ra Hn Hit Hst.
  destruct (next_returns u it Hu Hit) as (res & it' & Hrun & Hok & Hpost).
  rewrite Hst in Hpost. destruct res as [[frame|]|e].
  - destruct Hpost as ((ra' & -> & _ & _ & Hadv) & Hst').
    specialize (Hadv (unwinder_returns_no_pe u Hu)). apply measure_advances in Hadv.
    apply (iteration_ends_next _ _ _ _ Hrun).
    refine (IH _ _ it' ra' eq_refl Hok Hst'). subst n.
    destruct Hit as (_ & _ & Hr). destruct Hok as (_ & _ & Hr').
    apply measure_u64 in Hr, Hr'. range.
  - by apply (iteration_ends_now _ _ _ _ Hrun).
  - by apply (iteration_ends_now _ _ _ _ Hrun).
Qed.

Lemma iterator_ends u it : unwinder_returns u → iterator_ok it → iteration_ends u it.
Proof.
  intros Hu. assert (Hunw : ∀ it address, iterator_ok it → it.1 = Unwinding address →
    iteration_ends u it).
  { intros it0 address Hit Hst.
    destruct (next_returns u it0 Hu Hit) as (res & it' & Hrun & Hok & Hpost).
    rewrite Hst in Hpost. destruct res as [[frame|]|e].
    - destruct Hpost as ((ra & -> & _) & Hst').
      apply (iteration_ends_next _ _ _ _ Hrun). by eapply return_addresses_end.
    - by apply (iteration_ends_now _ _ _ _ Hrun).
    - by apply (iteration_ends_now _ _ _ _ Hrun). }
  intros Hit. destruct it.1 as [pc|address|] eqn:Hst; [|by eapply Hunw|].
  all: destruct (next_returns u it Hu Hit) as (res & it' & Hrun & Hok & Hpost);
    rewrite Hst in Hpost; destruct res as [[frame|]|e]; try done.
  - destruct Hpost as [_ ->]. apply (iteration_ends_next _ _ _ _ Hrun).
    by apply (Hunw _ frame).
  - by apply (iteration_ends_now _ _ _ _ Hrun).
Qed.
End Termination.

(** C3.  On an architecture whose frames make bounded progress (aarch64), unwinding a whole
    stack ends: in a release build, without PE modules, and if every DWARF expression the
    modules contain terminates, some number of calls reaches the end of the stack or an
    error, for every stack, however corrupt. *)
Theorem iteration_terminates `{Profile, BinarySearch, UnwindingSpec, !BoundedProgress,
    !MachoLookup, ExprFuel, ChainFuel} {St} `{StackReader St}
    (u : UnwinderInternal ModuleUnwindDataInternal) (pc : Z) (r : UnwindRegs) (c : Cache)
    (st : St) :
  overflow_checks = false → exprs_ok → wf_unwinder u →
  Forall (λ m, not_pe (unwind_data m) ∧ wf_unwind_data (unwind_data m)) (modules u) →
  is_u64 pc → cache_ok c → regs_ok r →
  ∃ fuel frames how it',
    collect_frames fuel u (iterator_new pc r c st) = Val (frames, how, it') ∧
    how ≠ StillRunning.
Proof. intros. by apply iterator_ends. Qed.
