(* ===== verification/X86Api.v ===== *)
(** The public types of the x86_64 architecture ([src/x86_64/unwinder.rs] and
    [src/x86_64/cache.rs]): newtypes around the generic unwinder and the generic cache,
    whose methods call the inner ones. *)

From S2P Require Import Prelude CodeAddress Error Arch RuleCache Slices Modules.
From S2P Require Import Dwarf DwarfCfiIndex Macho Pe UnwindData Unwinder Iterator.
From S2P Require Import X86UnwindRegs X86UnwindRule X86Dwarf X86Macho X86Pe.
Local Open Scope Z_scope.

Module CacheX86_64.
Section Cache.
Context `{Profile, Gimli}.

(** [CacheX86_64] is [Cache<UnwindRuleX86_64, P>]. *)
Definition t : Type := @Cache _ ArchX86_64.

(** [new_in()], from the context that gimli creates; [new()] and [default()] are the
    same. *)
Definition new_in (context : UnwindContext) : t := cache_new context.
Definition new (context : UnwindContext) : t := cache_new context.
Definition default (context : UnwindContext) : t := new_in context.

(** A snapshot of the statistics. *)
Definition stats (self : t) : CacheStats := RuleCache.stats (rule_cache self).
End Cache.
End CacheX86_64.

Module UnwinderX86_64.
Section Unwinder.
Context `{Profile, BinarySearch, Gimli, MachoUnwindInfo, PeUnwindInfo}.
Context `{ExprFuel, ChainFuel} {St : Type} `{StackReader St}.

(** [UnwinderX86_64] is [UnwinderInternal<D, ArchX86_64, P>]. *)
Definition t : Type := UnwinderInternal ModuleUnwindDataInternal.

(** The operations that change the modules draw generations from the process-wide
    counter. *)
Definition new (counter : Z) : t * Z := Modules.new counter.
Definition default (counter : Z) : t * Z := new counter.
Definition clone (self : t) : t := Modules.clone self.
Definition add_module (self : t) (module : Module ModuleUnwindDataInternal) (counter : Z) :
    may (t * Z) :=
  Modules.add_module self module counter.
Definition remove_module (self : t) (module_address_range_start counter : Z) :
    may (t * Z) :=
  Modules.remove_module self module_address_range_start counter.
Definition max_known_code_address (self : t) : Z := Modules.max_known_code_address self.

Definition unwind_frame (self : t) (address : FrameAddress) :
    M (CacheX86_64.t * (UnwindRegsX86_64 * St)) Error (option Z) :=
  @Unwinder.unwind_frame _ _ _ _ _ _ _ ArchX86_64 _ _ _ St _ self address.

(** [iter_frames] of the trait [Unwinder]; [next] takes the unwinder again. *)
Definition iter_frames (self : t) (pc : Z) (regs : UnwindRegsX86_64) (cache : CacheX86_64.t)
    (read_stack : St) : @iterator _ ArchX86_64 St :=
  iterator_new pc regs cache read_stack.
End Unwinder.
End UnwinderX86_64.
