(* ===== verification/A64Api.v ===== *)
(** The public types of the aarch64 architecture ([src/aarch64/unwinder.rs] and
    [src/aarch64/cache.rs]): newtypes around the generic unwinder and the generic cache,
    whose methods call the inner ones. *)

From S2P Require Import Prelude CodeAddress Error Arch RuleCache Slices Modules.
From S2P Require Import Dwarf DwarfCfiIndex Macho Pe UnwindData Unwinder Iterator.
From S2P Require Import A64UnwindRegs A64UnwindRule A64Dwarf A64Macho A64Pe.
From stdpp Require Import list.
Local Open Scope Z_scope.

Module CacheAarch64.
Section Cache.
Context `{Profile, Gimli}.

(** [CacheAarch64] is [Cache<UnwindRuleAarch64, P>]. *)
Definition t : Type := @Cache _ ArchAarch64.

(** [new_in()], from the context that gimli creates; [new()] and [default()] are the
    same. *)
Definition new_in (context : UnwindContext) : t := cache_new context.
Definition new (context : UnwindContext) : t := cache_new context.
Definition default (context : UnwindContext) : t := new_in context.

(** A snapshot of the statistics. *)
Definition stats (self : t) : CacheStats := RuleCache.stats (rule_cache self).
End Cache.
End CacheAarch64.

Module UnwinderAarch64.
Section Unwinder.
Context `{Profile, BinarySearch, Gimli, MachoUnwindInfo, PeUnwindInfo}.
Context `{ExprFuel, ChainFuel} {St : Type} `{StackReader St}.

(** [UnwinderAarch64] is [UnwinderInternal<D, ArchAarch64, P>]. *)
Definition t : Type := UnwinderInternal ModuleUnwindDataInternal.

(** The operations that change the modules draw generations from the process-wide
    counter. *)
Definition new (counter : Z) : t * Z := Modules.new counter.
Definition default (counter : Z) : t * Z := new counter.
Definition clone (self : t) : t := Modules.clone self.
Definition add_module (self : t) (module : Module ModuleUnwindDataInternal) (counter : Z) :
    may (t * Z) :=
  Modules.add_module self module counter.
Definition remove_module (self : t) (module_address_range_start counter : Z) :
    may (t * Z) :=
  Modules.remove_module self module_address_range_start counter.
Definition max_known_code_address (self : t) : Z := Modules.max_known_code_address self.

Definition unwind_frame (self : t) (address : FrameAddress) :
    M (CacheAarch64.t * (UnwindRegsAarch64 * St)) Error (option Z) :=
  @Unwinder.unwind_frame _ _ _ _ _ _ _ ArchAarch64 _ _ _ St _ self address.

(** [iter_frames] of the trait [Unwinder]; [next] takes the unwinder again. *)
Definition iter_frames (self : t) (pc : Z) (regs : UnwindRegsAarch64) (cache : CacheAarch64.t)
    (read_stack : St) : @iterator _ ArchAarch64 St :=
  iterator_new pc regs cache read_stack.
End Unwinder.
End UnwinderAarch64.

(** * The deduced pointer authentication mask

    [max_known_code_address] is documented as the argument of
    [PtrAuthMask::from_max_known_address]. *)

(** For modules that do not overlap, the mask keeps every code address. *)
Lemma deduced_mask_keeps_code `{Profile, Gimli} (u : UnwinderAarch64.t) :
  wf_unwinder u → disjoint_modules (modules u) → modules u ≠ [] →
  ∃ mask, from_max_known_address (UnwinderAarch64.max_known_code_address u) = Val mask ∧
    ∀ m p, m ∈ modules u → start (avma_range m) ≤ p < end_ (avma_range m) →
      strip_ptr_auth mask p = p.
Proof.
  intros (Hall & _ & _) Hd Hne. unfold UnwinderAarch64.max_known_code_address.
  destruct (max_known_code_address_correct u Hd) as [Hmax Hmem].
  assert (∃ m, m ∈ modules u ∧ Modules.max_known_code_address u = end_ (avma_range m))
    as (m & Hm & Heq) by (by destruct (modules u)).
  assert (Hwf : ∀ m, m ∈ modules u → wf_module m ∧ start_of m < end_ (avma_range m)).
  { intros m' Hm'. split; [by apply (proj1 (Forall_forall _ _) Hall)|].
    apply list_elem_of_lookup in Hm' as [i Hi]. by apply (proj1 Hd i). }
  rewrite Heq in *. destruct (Hwf m Hm) as [(Hs & He & _) Hlt].
  destruct (deduced_mask (end_ (avma_range m))) as (mask & Hrun & Hkeep & _); [range|].
  exists mask. split; [done|]. intros m' p Hm' Hp. apply Hkeep.
  specialize (Hmax m' Hm'). destruct (Hwf m' Hm') as [(Hs' & _) _]. unfold start_of in *. range.
Qed.

(** Without modules there is no mask to deduce. *)
Example deduced_mask_without_modules `{Gimli} counter :
  let u := (UnwinderAarch64.new counter).1 in
  from_max_known_address (H := debug_profile) (UnwinderAarch64.max_known_code_address u) = Panic ∧
  from_max_known_address (H := release_profile) (UnwinderAarch64.max_known_code_address u) =
    Val new_no_strip.
Proof. done. Qed.
