(* ===== verification/RuleFrames.v ===== *)
(** Unwinders whose frames are all unwound by rules: modules without PE data, whose call
    frame information is simple enough to be translated.

    Such an unwinder does nothing but execute rules, from the cache or from the slow path,
    so that what holds of the execution of one rule holds of a whole stack. *)

From S2P Require Import Prelude CodeAddress Error Arch RuleCache Slices Modules.
From S2P Require Import Dwarf DwarfCfiIndex Macho Pe UnwindData Unwinder UnwinderSpec.
From S2P Require Import UnwindFrame Iterator.
From stdpp Require Import list.
Local Open Scope Z_scope.

Section RuleFrames.
Context `{Profile, BinarySearch, UnwindingSpec, !ContextReuse, ExprFuel, ChainFuel}.
Context {St : Type} `{StackReader St}.
Implicit Types (u : UnwinderInternal ModuleUnwindDataInternal) (c : Cache).
Implicit Types (rs : UnwindRegs * St).

(** A row that the architecture translates into a rule. *)
Definition simple_row (row : UnwindTableRow) : Prop :=
  ∀ section enc first rs, ∃ rule, rule_ok rule ∧
    dwarf_unwind_frame section row enc first rs = Val (Ok (ExecRule rule), rs).

(** All rows of a section are simple. *)
Definition simple_cfi (type : UnwindSectionType) (data : list Z) (bases : BaseAddresses) :
    Prop :=
  let section :=
    match type with
    | EhFrame => set_address_size (eh_frame_from data) 8
    | DebugFrame => set_address_size (debug_frame_from data) 8
    end in
  ∀ off f ctx a row, fde_from_offset section bases off = Ok f →
    (unwind_info_for_address f section bases ctx a).1 = Ok row → simple_row row.

Definition rules_only (d : ModuleUnwindDataInternal) : Prop :=
  match d with
  | CompactUnwindInfoAndEhFrame _ eh_frame _ _ bases _ =>
      ∀ data, eh_frame = Some data → simple_cfi EhFrame data bases
  | EhFrameHdrAndEhFrame _ eh_frame bases => simple_cfi EhFrame eh_frame bases
  | DwarfCfiIndexAndEhFrame _ eh_frame bases => simple_cfi EhFrame eh_frame bases
  | DwarfCfiIndexAndDebugFrame _ debug_frame bases =>
      simple_cfi DebugFrame debug_frame bases
  | PeUnwindData _ _ _ _ => False
  | NoUnwindData => True
  end.

(** The outcome of the slow path: an error or a rule, and no other effect. *)
Definition gives_rule {E} rs
    (m : may (result (UnwindResult UnwindRule) E * (Cache * (UnwindRegs * St)))) : Prop :=
  match m with
  | Val (Ok (ExecRule rule), s) => rule_ok rule ∧ s.2 = rs
  | Val (Err _, s) => s.2 = rs
  | _ => False
  end.

Lemma fde_gives_rule self first rel fde c rs :
  overflow_checks = false →
  simple_cfi (unwind_section_type self) (unwind_section_data self) (bases self) →
  gives_rule rs (unwind_with_fde self first rel fde (c, rs)).
Proof.
  intros Hrel Hsimple.
  unfold unwind_with_fde, with_error, with_context, unwind_frame_with_fde. cbn [fst snd].
  destruct (uarith_returns 64 (Dwarf.base_svma self + rel) Hrel) as [svma ->].
  unfold unwind_info_for_fde. unfold simple_cfi in Hsimple.
  destruct (fde_from_offset _ _ fde) as [f|e] eqn:Hf; [|done].
  specialize (Hsimple fde f (gimli_unwind_context c) svma).
  destruct (unwind_info_for_address f _ _ _ svma) as [[row|e] ctx].
  2:{ split; [apply uncovered_rule_ok|done]. }
  specialize (Hsimple row Hf eq_refl). unfold zoom_snd. cbn [fst snd].
  match goal with
  | |- context [dwarf_unwind_frame ?section row ?enc ?first rs] =>
      destruct (Hsimple section enc first rs) as (rule & Hrule & ->)
  end.
  done.
Qed.

Lemma lifted {E A B} (m : may A) a (k : A → M (Cache * (UnwindRegs * St)) E B) s :
  m = Val a → (lift m ≫= k) s = k a s.
Proof. unfold mbind, M_bind, lift. by intros ->. Qed.

Lemma range_from_base_returns range base :
  overflow_checks = false → returns (range_from_base range base).
Proof. intros Hrel. unfold range_from_base. destruct range; repeat returns_step. Qed.

Lemma impl_gives_rule `{!MachoLookup} m address rel c rs :
  overflow_checks = false → rules_only (unwind_data m) → wf_unwind_data (unwind_data m) →
  gives_rule rs (unwind_frame_impl m address rel (c, rs)).
Proof.
  intros Hrel Honly Hwf. unfold unwind_frame_impl.
  destruct (unwind_data m) as [ui eh stubs helper bases td|hdr eh bases|i eh bases
    |i df bases|p rd xd tx|]; simpl in Honly, Hwf; [| | | |done|done].
  - destruct (range_from_base_returns stubs (Modules.base_svma m) Hrel) as [rg1 Hrg1].
    destruct (range_from_base_returns helper (Modules.base_svma m) Hrel) as [rg2 Hrg2].
    rewrite (lifted _ _ _ _ Hrg1), (lifted _ _ _ _ Hrg2).
    match goal with
    | |- context [Macho.unwind_frame ?s ?r ?f] =>
        destruct (macho_frame_returns s r f Hrel) as [res Hres]
    end.
    rewrite (lifted _ _ _ _ Hres). unfold mbind, M_bind, try_.
    destruct res as [[rule|fde]|e]; simpl; [|destruct eh as [eh|]; simpl; [|done]|done].
    + split; [by eapply macho_frame_rule_ok|done].
    + apply fde_gives_rule; [done|]. by apply Honly.
  - assert (Hr : returns (get_fde_offset_for_relative_address
      (Dwarf.new eh EhFrame (Some hdr) bases (Modules.base_svma m)) rel)).
    { unfold get_fde_offset_for_relative_address. repeat returns_step. }
    destruct Hr as [o Ho]. rewrite (lifted _ _ _ _ Ho). unfold mbind, M_bind, try_.
    destruct o as [o|]; simpl; [|done]. by apply fde_gives_rule.
  - destruct Hwf as [ps ->]. destruct (fde_lookup_returns ps rel) as [o Ho].
    rewrite (lifted _ _ _ _ Ho). unfold mbind, M_bind, try_.
    destruct o as [o|]; simpl; [|done]. by apply fde_gives_rule.
  - destruct Hwf as [ps ->]. destruct (fde_lookup_returns ps rel) as [o Ho].
    rewrite (lifted _ _ _ _ Ho). unfold mbind, M_bind, try_.
    destruct o as [o|]; simpl; [|done]. by apply fde_gives_rule.
Qed.

(** All modules of the unwinder are of this kind. *)
Definition all_rules u : Prop :=
  wf_unwinder u ∧
  Forall (λ m, rules_only (unwind_data m) ∧ wf_unwind_data (unwind_data m)) (modules u).

Lemma slow_path_gives_rule `{!MachoLookup} u address c rs :
  overflow_checks = false → all_rules u → wf_frame_address address →
  ∃ rule c', slow_path u address (c, rs) = Val (Ok (ExecRule rule), (c', rs)) ∧
    rule_ok rule.
Proof.
  intros Hrel [Hwf Hall] Ha. rewrite Forall_lookup in Hall. unfold slow_path.
  destruct (address_for_lookup_wf address Ha) as [Hl Hlookup]. rewrite (lifted _ _ _ _ Hl).
  destruct (find_module_run u _ Hwf Hlookup) as [(i & m & Hm & _ & Hfind)|(_ & _ & Hfind)];
    rewrite (lifted _ _ _ _ Hfind); [|eexists _, c; split; [done|apply fallback_rule_ok]].
  destruct (relative_address _ m) as [rel|]; cbn [fmap option_fmap option_map];
    [|eexists _, c; split; [done|apply fallback_rule_ok]].
  rewrite (lifted _ _ _ _ (index_Some _ _ m Hm)). destruct (Hall i m Hm) as [Honly Hdata].
  pose proof (impl_gives_rule m address rel c rs Hrel Honly Hdata) as Hg.
  unfold mbind, M_bind, catch.
  destruct (unwind_frame_impl m address rel (c, rs)) as [[[[rule|ra]|e] [c' rs']]|k];
    simpl in Hg; try done.
  - destruct Hg as [Hrule ->]. by exists rule, c'.
  - subst rs'. eexists _, c'. split; [done|apply fallback_rule_ok].
Qed.

(** Unwinding a frame is executing one well-formed rule. *)
Lemma unwind_frame_executes `{!MachoLookup} u address c rs :
  overflow_checks = false → all_rules u → wf_frame_address address → cache_ok c →
  ∃ rule c', rule_ok rule ∧ cache_ok c' ∧
    unwind_frame u address (c, rs) =
      zoom_snd (exec rule (negb (is_return_address address))) (c', rs).
Proof.
  intros Hrel Hall Ha [Hwf Hok].
  destruct (unwind_frame_run u address c rs Ha Hwf Hrel) as (c1 & Hent & Hrun).
  assert (Hok1 : cache_ok c1).
  { split; [unfold wf_cache; by rewrite Hent|]. intros a g rule. unfold cached.
    rewrite Hent. apply Hok. }
  rewrite Hrun. destruct (cached (rule_cache c) _ _) as [rule|] eqn:Hhit.
  { exists rule, c1. split_and!; [by eapply Hok|done|done]. }
  destruct (slow_path_gives_rule u address c1 rs Hrel Hall Ha) as (rule & c2 & Hslow & Hrule).
  pose proof (context_free_slow_path u address c1 c1 rs) as Hcf. rewrite Hslow in *.
  destruct Hcf as (_ & _ & Hc2 & _). cbn [fst] in Hc2. cbn [after_slow_path].
  destruct (insert_run (rule_cache c2) (lookup_of address) (modules_generation u) rule)
    as (c3 & Hi & Hwf3 & _ & Hc3); [rewrite Hc2; apply Hok1|].
  exists rule, (mk_cache (gimli_unwind_context c2) c3). split_and!; [done| |].
  - split; [done|]. cbn [rule_cache]. intros a g rule'. rewrite Hc3. repeat case_decide; [by intros [= <-]|done|].
    rewrite Hc2. apply Hok1.
  - unfold insert_and_exec, mbind, M_bind, cache_insert. cbn [fst snd]. by rewrite Hi.
Qed.
End RuleFrames.
