(* ===== verification/StackWalk.v ===== *)
(** Whole stacks: what the iterator of [src/unwinder.rs] yields when every frame of the
    stack has a rule.

    The walk is described without the cache, the modules and the unwind data: a table
    from lookup addresses to rules, and the execution of these rules one after the
    other.  The iterator, through a cache with any history, yields the frames of the
    walk.  The architectures instantiate the table and the execution. *)

From S2P Require Import Prelude CodeAddress Error Arch RuleCache Slices Modules.
From S2P Require Import Dwarf DwarfCfiIndex Macho Pe UnwindData Unwinder UnwinderSpec.
From S2P Require Import UnwindFrame Iterator.
From stdpp Require Import list.
Local Open Scope Z_scope.

Section Walk.
Context `{Profile, BinarySearch, Gimli, MachoUnwindInfo, PeUnwindInfo, !ContextReuse}.
Context `{ExprFuel, ChainFuel}.
Context `{Arch, !DwarfUnwinding, !CompactUnwindInfoUnwinding, !PeUnwinding}.
Context {St : Type} `{StackReader St}.
Implicit Types (u : UnwinderInternal ModuleUnwindDataInternal) (c : Cache).
Implicit Types (rs : UnwindRegs * St).

(** The slow path gives [rule] for every frame with this lookup address. *)
Definition rule_at u (a : Z) (rule : UnwindRule) : Prop :=
  ∀ address, wf_frame_address address → lookup_of address = a →
    always_rule (St := St) u address rule.

(** A table of rules that agrees with the modules. *)
Definition describes u (rules : Z → option UnwindRule) : Prop :=
  ∀ a rule, rules a = Some rule → rule_at u a rule.

(** A cache that is safe to share between walks with this list of modules. *)
Definition shareable u c : Prop := wf_cache (rule_cache c) ∧ coherent (St := St) u c.

(** The rules of the frames, executed one after the other until the first [Ok(None)]. *)
Inductive rule_walk (rules : Z → option UnwindRule) :
    FrameAddress → UnwindRegs * St → list FrameAddress → UnwindRegs * St → Prop :=
| walk_ends address rs rule rs' :
    wf_frame_address address → rules (lookup_of address) = Some rule →
    exec rule (negb (is_return_address address)) rs = Val (Ok None, rs') →
    rule_walk rules address rs [] rs'
| walk_steps address rs rule ra rs' frames rs'' :
    wf_frame_address address → rules (lookup_of address) = Some rule →
    exec rule (negb (is_return_address address)) rs = Val (Ok (Some ra), rs') →
    ra ≠ 0 → rule_walk rules (ReturnAddress ra) rs' frames rs'' →
    rule_walk rules address rs (ReturnAddress ra :: frames) rs''.

Lemma shareable_new u context : shareable u (cache_new context).
Proof.
  split; [apply wf_cache_new|]. intros address rule _.
  unfold cache_new; cbn [rule_cache]. by rewrite cached_new.
Qed.

(** Where the table has a rule, a frame is unwound by that rule. *)
Lemma unwind_frame_by_rule u rules address c rs rule res rs' :
  overflow_checks = false → describes u rules → shareable u c →
  wf_frame_address address → rules (lookup_of address) = Some rule →
  exec rule (negb (is_return_address address)) rs = Val (res, rs') →
  ∃ c', unwind_frame u address (c, rs) = Val (res, (c', rs')) ∧ shareable u c'.
Proof.
  intros Hrel Hdesc [Hwf Hcoh] Ha Hrule Hexec.
  pose proof (Hdesc _ _ Hrule) as Hat.
  assert (Hslow : always_rule (St := St) u address rule) by by apply Hat.
  destruct (unwind_frame_transparent u address c rs Ha Hwf Hrel Hcoh) as [Heq Hkeep].
  { intros c1 rs1 rule' rs2 Hrun address' Ha' Hl.
    rewrite Hslow in Hrun. injection Hrun as <- _. by apply Hat. }
  specialize (Hslow c rs). unfold forget, uncached_unwind_frame in Heq, Hslow.
  cbv [mbind M_bind] in Heq.
  destruct (slow_path u address (c, rs)) as [[r [c1 rs1]]|]; [|done].
  simpl in Hslow. injection Hslow as -> ->.
  unfold zoom_snd in Heq. cbn [fst snd] in Heq. rewrite Hexec in Heq. cbn [snd] in Heq.
  destruct (unwind_frame u address (c, rs)) as [[r2 [c' rs2]]|]; [|done].
  simpl in Heq. injection Heq as -> ->. exists c'. split; [done|].
  by apply (Hkeep res (c', rs')).
Qed.

(** The iterator yields the frames of the walk, and leaves a cache for the next one. *)
Lemma collect_walk u rules address c rs frames rs' :
  overflow_checks = false → describes u rules → shareable u c →
  rule_walk rules address rs frames rs' →
  ∃ c', collect_frames (S (length frames)) u (Unwinding address, (c, rs)) =
      Val (frames, Finished, (Done, (c', rs'))) ∧ shareable u c'.
Proof.
  intros Hrel Hdesc Hc Hwalk. revert c Hc.
  induction Hwalk as [address rs rule rs' Ha Hrule Hexec
    |address rs rule ra rs1 frames rs' Ha Hrule Hexec Hnz Hwalk IH]; intros c Hc;
    destruct (unwind_frame_by_rule u rules address c rs rule _ _ Hrel Hdesc Hc Ha Hrule
      Hexec) as (c1 & Hrun & Hc1).
  - exists c1. split; [|done]. cbn [length collect_frames next].
    cbv [next mbind M_bind get_iterator_state put_iterator_state zoom_snd mret M_ret fst snd].
    by rewrite Hrun.
  - destruct (IH c1 Hc1) as (c' & Hrest & Hc'). exists c'. split; [|done].
    apply (collect_frames_next _ _ _ (Unwinding (ReturnAddress ra), (c1, rs1))); [|done].
    apply (next_at_frame _ _ _ _ ra); [done|]. unfold from_return_address.
    by destruct (Z.eqb_spec ra 0).
Qed.

(** The same from a fresh iterator, whose first frame is the instruction pointer. *)
Lemma iterator_walks u rules pc r c st frames rs' :
  overflow_checks = false → describes u rules → shareable u c →
  rule_walk rules (InstructionPointer pc) (r, st) frames rs' →
  ∃ c', collect_frames (S (S (length frames))) u (iterator_new pc r c st) =
      Val (InstructionPointer pc :: frames, Finished, (Done, (c', rs'))) ∧ shareable u c'.
Proof.
  intros Hrel Hdesc Hc Hwalk.
  destruct (collect_walk u rules _ c _ _ _ Hrel Hdesc Hc Hwalk) as (c' & Hrun & Hc').
  exists c'. split; [|done].
  by apply (collect_frames_next _ _ _ (Unwinding (InstructionPointer pc), (c, (r, st)))).
Qed.

(** * Where the rules come from *)

(** An address outside all modules has the fallback rule. *)
Lemma rule_at_outside u a :
  find_module_for_address u a = Val None → rule_at u a fallback_rule.
Proof.
  intros Hfind address Ha <- c rs. unfold slow_path.
  destruct (address_for_lookup_wf address Ha) as [Hlookup _]. fold (lookup_of address) in *.
  unfold forget, mbind, M_bind. rewrite Hlookup. unfold lift at 1. rewrite Hfind. done.
Qed.

(** An address in a module has the rule that the unwinder of the module returns, when it
    returns the same for both kinds of frame and leaves the registers and the stack. *)
Lemma rule_at_module u a i rel m rule :
  find_module_for_address u a = Val (Some (i, rel)) → modules u !! i = Some m →
  (∀ address c rs, ∃ c', unwind_frame_impl (St := St) m address rel (c, rs) =
     Val (Ok (ExecRule rule), (c', rs))) →
  rule_at u a rule.
Proof.
  intros Hfind Hm Himpl address Ha <- c rs. destruct (Himpl address c rs) as [c' Hrun].
  unfold slow_path, forget in *.
  destruct (address_for_lookup_wf address Ha) as [Hlookup _]. fold (lookup_of address) in *.
  unfold mbind, M_bind. rewrite Hlookup. unfold lift at 1. rewrite Hfind.
  unfold lift. rewrite (index_Some _ _ m Hm). unfold catch. by rewrite Hrun.
Qed.

(** A module with a CFI index and an [.eh_frame] section: the row of the FDE decides, when
    the architecture turns the row into a rule. *)
Lemma rule_at_row u a i rel m index eh bases off svma fde row rule :
  let section := set_address_size (eh_frame_from eh) 8 in
  find_module_for_address u a = Val (Some (i, rel)) → modules u !! i = Some m →
  unwind_data m = DwarfCfiIndexAndEhFrame index eh bases →
  fde_offset_for_relative_address index rel = Val (Some off) →
  uarith 64 (Modules.base_svma m + rel) = Val svma →
  fde_from_offset section bases off = Ok fde →
  (∀ ctx, (unwind_info_for_address fde section bases ctx svma).1 = Ok row) →
  (∀ enc first rs, dwarf_unwind_frame (St := St) section row enc first rs =
     Val (Ok (ExecRule rule), rs)) →
  rule_at u a rule.
Proof.
  intros section Hfind Hm Hdata Hoff Hsvma Hfde Hrow Hrule.
  apply (rule_at_module u a i rel m); [done|done|]. intros address c rs.
  pose proof (Hrow (gimli_unwind_context c)) as Hinfo.
  unfold unwind_frame_impl. rewrite Hdata. unfold mbind, M_bind. unfold lift at 1.
  rewrite Hoff. cbn [try_ ok_or]. unfold unwind_with_fde, with_error, with_context.
  unfold unwind_frame_with_fde, unwind_info_for_fde. cbn [fst snd].
  cbn [Dwarf.base_svma Dwarf.new unwind_section_type unwind_section_data Dwarf.bases].
  rewrite Hsvma. fold section. rewrite Hfde.
  destruct (unwind_info_for_address _ _ _ _ _) as [info ctx]. cbn [fst] in Hinfo. subst info.
  unfold zoom_snd. cbn [fst snd]. rewrite Hrule. by eexists.
Qed.

(** The table of an unwinder at the addresses that no module covers. *)
Definition uncovered_rules u (a : Z) : option UnwindRule :=
  match find_module_for_address u a with
  | Val None => Some fallback_rule
  | _ => None
  end.

Lemma uncovered_rules_describe u : describes u (uncovered_rules u).
Proof.
  intros a rule. unfold uncovered_rules.
  destruct (find_module_for_address u a) as [[|]|] eqn:Hfind; [done| |done].
  intros [= <-]. by apply rule_at_outside.
Qed.

(** Below the module, or past its end (and past its start, if the module is empty). *)
Definition outside (a : Z) (m : Module ModuleUnwindDataInternal) : Prop :=
  a < start_of m ∨ (start_of m < a ∧ end_ (avma_range m) ≤ a).

Lemma uncovered_rules_outside u a :
  wf_unwinder u → is_u64 a → Forall (outside a) (modules u) →
  uncovered_rules u a = Some fallback_rule.
Proof.
  intros Hwf Ha Hout. rewrite Forall_forall in Hout. unfold uncovered_rules.
  destruct (find_module_run u a Hwf Ha) as [(i & m & Hm & Hin & _)|(_ & _ & ->)]; [|done].
  exfalso. pose proof (Hout m (list_elem_of_lookup_2 _ _ _ Hm)). unfold outside in *. lia.
Qed.
End Walk.
