(* ===== verification/Sessions.v ===== *)
(** Sessions: a process whose unwinders share one cache, while modules are loaded and
    unloaded.

    [src/cache.rs] promises that "a single unwinder cache can be used with multiple
    unwinders alternatingly", and [src/unwinder.rs] that the generation counter "makes it
    so that the cache can be shared".  A session interleaves the operations on the
    unwinders of [Modules] with frames that are unwound through the cache; the invariant
    says that no rule of the cache is stale for any of the unwinders. *)

From S2P Require Import Prelude CodeAddress Error Arch RuleCache Slices Modules.
From S2P Require Import Dwarf DwarfCfiIndex Macho Pe UnwindData Unwinder UnwinderSpec.
From S2P Require Import UnwindFrame StackWalk.
From stdpp Require Import list.
Local Open Scope Z_scope.

Section Sessions.
Context `{Profile, BinarySearch, Gimli, MachoUnwindInfo, PeUnwindInfo, !ContextReuse}.
Context `{ExprFuel, ChainFuel}.
Context `{Arch, !DwarfUnwinding, !CompactUnwindInfoUnwinding, !PeUnwinding}.
Context {St : Type} `{StackReader St}.
Implicit Types (u : UnwinderInternal ModuleUnwindDataInternal) (c : Cache).
Implicit Types (s : system ModuleUnwindDataInternal) (rs : UnwindRegs * St).

(** An operation on an unwinder, with the number of generations it draws, or a frame. *)
Inductive session_step : nat → system ModuleUnwindDataInternal * Cache →
    system ModuleUnwindDataInternal * Cache → Prop :=
| step_modules k s s' c : step k s s' → session_step k (s, c) (s', c)
| step_frame s c u address rs res c' rs' :
    u ∈ unwinders s → wf_frame_address address → stable (St := St) u address →
    unwind_frame u address (c, rs) = Val (res, (c', rs')) →
    session_step 0 (s, c) (s, c').

(** [session n (s, c)]: a process that started without unwinders and with an empty cache
    can be in this state after drawing [n] generations. *)
Inductive session : nat → system ModuleUnwindDataInternal * Cache → Prop :=
| session_starts context : session 0 (mk_system 0 [], cache_new context)
| session_continues n k x x' : session n x → session_step k x x' → session (k + n) x'.

(** The rules of the cache that were stored for a list of modules other than that of [u]
    were there before [u] unwound a frame. *)
Lemma unwind_frame_cached u address c rs res c' rs' a g rule :
  overflow_checks = false → wf_frame_address address → wf_cache (rule_cache c) →
  unwind_frame u address (c, rs) = Val (res, (c', rs')) → g ≠ modules_generation u →
  cached (rule_cache c') a g = Some rule → cached (rule_cache c) a g = Some rule.
Proof.
  intros Hrel Ha Hwf Hrun Hg.
  destruct (unwind_frame_run u address c rs Ha Hwf Hrel) as (c1 & Hent & Hrun').
  assert (Hc1 : ∀ a g, cached (rule_cache c1) a g = cached (rule_cache c) a g).
  { intros. unfold cached. by rewrite Hent. }
  assert (Hwf1 : wf_cache (rule_cache c1)) by (unfold wf_cache; by rewrite Hent).
  rewrite Hrun in Hrun'. rewrite <- Hc1.
  destruct (cached (rule_cache c) (lookup_of address) (modules_generation u)) as [r|].
  { unfold zoom_snd in Hrun'. cbn [fst snd] in Hrun'.
    destruct (exec r _ rs) as [[? ?]|]; by simplify_eq/=. }
  pose proof (context_free_slow_path u address c1 c1 rs) as Hcf.
  destruct (slow_path u address (c1, rs)) as [[[[r|ra]|e] [c2 rs2]]|k];
    cbn [after_slow_path] in Hrun'; [|simplify_eq; destruct Hcf as (_ & _ & Hc2 & _);
      cbn [fst] in Hc2; by rewrite Hc2..|done].
  destruct Hcf as (_ & _ & Hc2 & _). cbn [fst] in Hc2.
  destruct (insert_run (rule_cache c2) (lookup_of address) (modules_generation u) r)
    as (c3 & Hi & _ & _ & Hc3); [by rewrite Hc2|].
  unfold insert_and_exec, mbind, M_bind, cache_insert, zoom_snd in Hrun'.
  cbn [fst snd] in Hrun'. rewrite Hi in Hrun'. cbn [fst snd] in Hrun'.
  destruct (exec r _ rs2) as [[? ?]|]; [|done]. simplify_eq/=.
  rewrite Hc3. destruct (decide _) as [[_ ->]|_]; [done|]. case_decide; [done|].
  by rewrite Hc2.
Qed.

(** No rule of the cache is stale, and all of them were stored for a generation that has
    been drawn. *)
Record session_ok (n : nat) (x : system ModuleUnwindDataInternal * Cache) : Prop := {
  session_generations : generations_ok n x.1;
  session_wf : wf_cache (rule_cache x.2);
  session_drawn a g rule : Z.of_nat n ≤ 65536 →
    cached (rule_cache x.2) a g = Some rule → g < Z.of_nat n;
  session_coherent u : Z.of_nat n ≤ 65536 → u ∈ unwinders x.1 → coherent (St := St) u x.2;
}.

Lemma session_ok_start context : session_ok 0 (mk_system 0 [], cache_new context).
Proof.
  split; cbn [fst snd].
  - apply generations_init.
  - apply wf_cache_new.
  - intros a g rule _. unfold cache_new; cbn [rule_cache]. by rewrite cached_new.
  - intros u _ Hu. by apply elem_of_nil in Hu.
Qed.

Lemma session_ok_modules n k s s' c :
  session_ok n (s, c) → step k s s' → session_ok (k + n) (s', c).
Proof.
  intros [Hgen Hwf Hdrawn Hcoh] Hstep. cbn [fst snd] in *.
  pose proof (generations_step n k s s' Hgen Hstep) as Hgen'.
  split; cbn [fst snd]; [done|done| |].
  - intros a g rule Hn Hr. specialize (Hdrawn a g rule ltac:(lia) Hr). lia.
  - intros u Hn Hu.
    destruct (step_origin n k s s' u Hgen Hstep Hu) as [Hu'|[-> Hg]];
      [apply Hcoh; by lia || done|].
    intros address rule Ha Hr. exfalso. rewrite (gen_counter _ _ Hgen) in Hg.
    rewrite wrap_id in Hg by range. apply Hdrawn in Hr; lia.
Qed.

Lemma session_ok_frame n s c u address rs res c' rs' :
  overflow_checks = false → session_ok n (s, c) → u ∈ unwinders s →
  wf_frame_address address → stable (St := St) u address →
  unwind_frame u address (c, rs) = Val (res, (c', rs')) → Z.of_nat n ≤ 65536 →
  session_ok n (s, c').
Proof.
  intros Hrel [Hgen Hwf Hdrawn Hcoh] Hu Ha Hst Hrun Hn. cbn [fst snd] in *.
  destruct (unwind_frame_transparent u address c rs Ha Hwf Hrel (Hcoh u Hn Hu) Hst)
    as [_ Hkeep]. apply Hkeep in Hrun as Hok. destruct Hok as [Hwf' Hcoh'].
  pose proof (λ a g rule, unwind_frame_cached u address c rs res c' rs' a g rule Hrel Ha Hwf
    Hrun) as Hold.
  split; cbn [fst snd]; [done|done| |].
  - intros a g rule _ Hr. destruct (decide (g = modules_generation u)) as [->|Hg].
    + by apply (gen_drawn _ _ Hgen).
    + by apply (Hdrawn a g rule), Hold.
  - intros u' _ Hu'.
    destruct (decide (modules_generation u' = modules_generation u)) as [Hg|Hg].
    + pose proof (gen_unique _ _ Hgen u' u Hn Hu' Hu Hg) as Hm.
      destruct u as [ms g], u' as [ms' g']; simpl in Hm, Hg; by subst.
    + intros address' rule Ha' Hr. by apply (Hcoh u' Hn Hu'), Hold.
Qed.

Lemma session_sound n x :
  overflow_checks = false → session n x → Z.of_nat n ≤ 65536 → session_ok n x.
Proof.
  intros Hrel. induction 1 as [context|n k x x' Hx IH Hstep]; intros Hn.
  { apply session_ok_start. }
  specialize (IH ltac:(lia)).
  destruct Hstep as [k s s' c Hstep|s c u address rs res c' rs' Hu Ha Hst Hrun].
  - by eapply session_ok_modules.
  - by eapply session_ok_frame.
Qed.

(** The cache of a session can be used for a walk with any unwinder of the session. *)
Lemma session_shareable n s c u :
  overflow_checks = false → session n (s, c) → Z.of_nat n ≤ 65536 → u ∈ unwinders s →
  shareable (St := St) u c.
Proof.
  intros Hrel Hs Hn Hu. destruct (session_sound n (s, c) Hrel Hs Hn) as [_ Hwf _ Hcoh].
  split; [done|by apply Hcoh].
Qed.
End Sessions.

(** C2.  A cache can be shared between unwinders while modules are loaded and unloaded: in
    a release build and a process that has drawn at most [2^16] generations, whatever
    modules were added and removed, whatever unwinders were created and cloned and whatever
    frames they unwound through the cache, unwinding a frame with any of the unwinders gives
    the result and the registers that an unwinder without a cache gives for its current
    modules.  (The slow path has to give the same rule for an address every time.) *)
Theorem shared_cache_never_stale `{Profile, BinarySearch, Gimli, MachoUnwindInfo,
    PeUnwindInfo, !ContextReuse, ExprFuel, ChainFuel, Arch, !DwarfUnwinding,
    !CompactUnwindInfoUnwinding, !PeUnwinding} {St} `{StackReader St} (n : nat)
    (s : system ModuleUnwindDataInternal) (c : Cache)
    (u : UnwinderInternal ModuleUnwindDataInternal) (address : FrameAddress)
    (rs : UnwindRegs * St) :
  overflow_checks = false → session (St := St) n (s, c) → Z.of_nat n ≤ 65536 →
  u ∈ unwinders s → wf_frame_address address → stable (St := St) u address →
  forget (unwind_frame u address) (c, rs) = forget (uncached_unwind_frame u address) (c, rs).
Proof.
  intros Hrel Hs Hn Hu Ha Hst.
  destruct (session_shareable n s c u Hrel Hs Hn Hu) as [Hwf Hcoh].
  by apply unwind_frame_transparent.
Qed.
