(* ===== verification/A64Iterator.v ===== *)
(** Whole stacks on aarch64: every frame but the first moves the stack pointer up. *)

From S2P Require Import Prelude CodeAddress Error Arch RuleCache Slices Modules.
From S2P Require Import Dwarf DwarfCfiIndex Macho Pe UnwindData Unwinder UnwinderSpec.
From S2P Require Import UnwindFrame Iterator.
From S2P Require Import A64UnwindRegs A64UnwindRule A64Dwarf A64Macho A64Pe A64Unwinder.
From S2P Require Import GimliExample PeExample.
From stdpp Require Import list strings.
Local Open Scope Z_scope.

#[export] Instance bounded_progress_aarch64 `{Gimli, MachoUnwindInfo, PeUnwindInfo} :
  @BoundedProgress _ _ _ ArchAarch64 _ _ _ unwinding_spec_aarch64.
Proof.
  refine {| measure := sp : @UnwindRegs ArchAarch64 → Z |}.
  - by intros r (_ & _ & Hs & _).
  - intros r ra r' (_ & _ & Hsp). by apply Hsp.
Defined.

#[export] Instance example_chain_fuel_aarch64 : ChainFuel := 4%nat.

(** A module whose only FDE has the frame pointer rule of the platform. *)
Definition example_module_aarch64 : Module (@ModuleUnwindDataInternal toy_gimli) :=
  mk_module _ "example" (mk_range 0x7000 0x8000) 0x7000 0x1000
    (DwarfCfiIndexAndEhFrame (mk_index [0x100] [0]) [0x1100; 0; 29; 16; -8; -16]
       ([] : @BaseAddresses toy_gimli)).
Definition example_unwinder_aarch64 : UnwinderInternal (@ModuleUnwindDataInternal toy_gimli) :=
  mk_unwinder _ [example_module_aarch64] 0.

Definition aarch64_cache := @Cache toy_gimli ArchAarch64.
Definition aarch64_new_cache : aarch64_cache :=
  cache_new (0%nat : @UnwindContext toy_gimli).

Abbreviation aarch64_collect :=
  (@collect_frames release_profile scan_search toy_gimli toy_macho toy_pe toy_fuel
     example_chain_fuel_aarch64 ArchAarch64 _ _ _ (list Z) words_reader).

(** A stack of four frames. *)
Definition example_stack_aarch64 : list Z :=
  [0; 0; 0x20; 0x7200; 0x30; 0x7300; 0x40; 0x7400; 0; 0].

Example aarch64_stack_example :
  match aarch64_collect 10 example_unwinder_aarch64
    (iterator_new 0x7180 (A64UnwindRegs.new 0x7200 0x10 0x10) aarch64_new_cache
       example_stack_aarch64) with
  | Val (frames, how, _) => (frames, how) =
      ([InstructionPointer 0x7180; ReturnAddress 0x7200; ReturnAddress 0x7300;
        ReturnAddress 0x7400], Finished)
  | Fault _ => False
  end.
Proof. by vm_compute. Qed.

Lemma iteration_terminates_witness :
  ∃ fuel frames how it',
    aarch64_collect fuel example_unwinder_aarch64
      (iterator_new 0x7180 (A64UnwindRegs.new 0x7200 0x10 0x10) aarch64_new_cache
         example_stack_aarch64) = Val (frames, how, it') ∧ how ≠ StillRunning.
Proof.
  apply (@iteration_terminates release_profile scan_search toy_gimli toy_macho toy_pe
    ArchAarch64 _ _ _ unwinding_spec_aarch64 bounded_progress_aarch64
    toy_macho_lookup_covers toy_fuel example_chain_fuel_aarch64 (list Z) words_reader).
  - reflexivity.
  - apply toy_expressions_terminate_aarch64.
  - split_and!; [repeat constructor; by vm_compute| |by vm_compute].
    intros [|i] [|j] m m' Hij; simpl; try lia; done.
  - repeat constructor. by exists [(0x100, 0)].
  - by vm_compute.
  - split; [apply wf_cache_new|]. intros a g rule.
    unfold aarch64_new_cache, cache_new; cbn [rule_cache]. by rewrite cached_new.
  - apply wf_new_aarch64; range.
Defined.
