(* ===== verification/A64StackWalk.v ===== *)
(** Whole stacks on aarch64: the iterator yields the callers that the rules denote, in
    particular the linked list of the frame records. *)

From S2P Require Import Prelude CodeAddress Error Arch RuleCache Slices Modules.
From S2P Require Import Dwarf DwarfCfiIndex Macho Pe UnwindData Unwinder UnwinderSpec.
From S2P Require Import UnwindFrame Iterator A64Api StackWalk.
From S2P Require Import A64UnwindRegs A64UnwindRule A64Dwarf A64Macho A64Pe A64Unwinder.
From S2P Require Import GimliExample PeExample A64Iterator.
From stdpp Require Import list strings.
Local Open Scope Z_scope.

(** * Call stacks

    A table gives the rule of each address and a rule denotes the caller's frame.  The
    outermost frame is one whose rule ends the stack, whose saved frame pointer is null,
    or whose return address is null once the authentication bits are stripped. *)

Section CallStack.
Context (rules : Z → option UnwindRuleAarch64) (mem : Z → option Z).

(** The frame of [address] has no caller. *)
Inductive outermost (address : FrameAddress) (r : UnwindRegsAarch64) : Prop :=
| outermost_by_rule x :
    rules (lookup_of address) = Some (OffsetSpIfFirstFrameOtherwiseStackEndsHere x) →
    is_return_address address = true → outermost address r
| outermost_frame_record l :
    rules (lookup_of address) = Some UseFramePointer →
    fp r + 16 < 2 ^ 64 → mem (fp r + 8) = Some l → mem (fp r) = Some 0 →
    outermost address r
| outermost_saved_pointer x y z l :
    rules (lookup_of address) = Some (UseFramepointerWithOffsets x y z) →
    fp r + x * 8 < 2 ^ 64 → mem (fp r + z * 8) = Some l → mem (fp r + y * 8) = Some 0 →
    outermost address r
| outermost_null_caller rule l s f :
    rules (lookup_of address) = Some rule →
    denote mem rule (negb (is_return_address address)) r = Some (l, s, f) → s < 2 ^ 64 →
    strip_ptr_auth (lr_mask r) l = 0 → outermost address r.

Inductive call_stack : FrameAddress → UnwindRegsAarch64 → list FrameAddress → Prop :=
| no_caller address r : outermost address r → call_stack address r []
| called_from address r rule l s f ra frames :
    rules (lookup_of address) = Some rule →
    denote mem rule (negb (is_return_address address)) r = Some (l, s, f) → s < 2 ^ 64 →
    strip_ptr_auth (lr_mask r) l = ra → ra ≠ 0 →
    (is_return_address address = true → s ≠ sp r) →
    call_stack (ReturnAddress ra) (mk_regs (lr_mask r) ra s f) frames →
    call_stack address r (ReturnAddress ra :: frames).

Definition wf_rules : Prop := ∀ a rule, rules a = Some rule → wf_rule rule.

(** The linked list of frame records at [fp]: a saved frame pointer and a return address
    each, up to a record whose saved frame pointer is null. *)
Inductive frame_chain (mask : PtrAuthMask) : Z → list Z → Prop :=
| chain_ends fp l :
    fp + 16 < 2 ^ 64 → mem fp = Some 0 → mem (fp + 8) = Some l → frame_chain mask fp []
| chain_links fp caller_fp l ra ras :
    fp + 16 < 2 ^ 64 → mem fp = Some caller_fp → mem (fp + 8) = Some l →
    caller_fp ≠ 0 → fp < caller_fp → strip_ptr_auth mask l = ra → ra ≠ 0 →
    frame_chain mask caller_fp ras → frame_chain mask fp (ra :: ras).

(** The chain of frame records is the call stack of the frame pointer rule. *)
Lemma frame_chain_stack_aarch64 address r ras :
  rules (lookup_of address) = Some UseFramePointer →
  Forall (λ ra, rules (ra - 1) = Some UseFramePointer) ras →
  sp r < fp r + 16 → frame_chain (lr_mask r) (fp r) ras →
  call_stack address r (ReturnAddress <$> ras).
Proof.
  intros Hrule Hras Hsp Hchain. remember (fp r) as b eqn:Hb. remember (lr_mask r) as m eqn:Hm.
  revert address r Hrule Hsp Hb Hm. induction Hchain as [b l Hlt H0 Hl
    |b b' l ra ras Hlt Hb' Hl Hnz Hup Hra Hra0 Hchain IH]; intros address r Hrule Hsp -> ->.
  { by eapply no_caller, outermost_frame_record. }
  apply Forall_cons in Hras as [Hra_rule Hras].
  eapply (called_from _ _ UseFramePointer l (fp r + 16) b'); try done.
  - simpl. rewrite Hl, Hb'. simpl.
    destruct (Z.eqb_spec b' 0), (Z.leb_spec b' (fp r)), (Z.leb_spec (fp r + 16) (sp r));
      try lia; done.
  - lia.
  - apply IH; try done; simpl; lia.
Qed.
End CallStack.

Section Walk.
Context `{Profile, BinarySearch, Gimli, MachoUnwindInfo, PeUnwindInfo}.
Context `{ExprFuel, ChainFuel} {St : Type} `{PureReader St}.
Implicit Types (r : UnwindRegsAarch64) (st : St).

Lemma exec_outermost_aarch64 rules address r st :
  wf_rules rules → wf_regs r → outermost rules (memory st) address r →
  ∃ rule, rules (lookup_of address) = Some rule ∧
    A64UnwindRule.exec rule (negb (is_return_address address)) (r, st) =
      Val (Ok None, (r, st)).
Proof.
  intros Hrules Hr Hout. pose proof Hr as (_ & _ & _ & Hfp).
  destruct Hout as [x Hrule Hra|l Hrule Hlt Hl Hf|x y z l Hrule Hlt Hl Hf
    |rule l s f Hrule Hd Hlt Hs]; eexists; (split; [exact Hrule|]);
    pose proof (Hrules _ _ Hrule) as Hwf; apply run_ok_Some; unfold A64UnwindRule.exec;
    rewrite run_ok_bind, run_ok_get_regs; simpl; rewrite run_ok_bind.
  - by rewrite Hra.
  - unfold new_regs. autorewrite with run_ok. simpl. autorewrite with run_ok.
    rewrite run_ok_checked_add, checked_uint_ok by range. simpl. autorewrite with run_ok.
    rewrite uarith_ok by range. simpl. autorewrite with run_ok.
    rewrite run_ok_read_or, Hl by range. simpl. autorewrite with run_ok.
    by rewrite run_ok_read_or, Hf by range.
  - destruct Hwf as (Hx & Hy & Hz).
    unfold new_regs. autorewrite with run_ok. simpl. autorewrite with run_ok.
    rewrite run_ok_checked_add, checked_uint_ok by range. simpl. autorewrite with run_ok.
    rewrite run_ok_read_slot, Hl by done. simpl. autorewrite with run_ok.
    by rewrite run_ok_read_slot, Hf by done.
  - rewrite (proj2 (run_new_regs _ _ r st (l, s, f) (r, st) Hr Hwf)) by done. simpl.
    by rewrite Hs.
Qed.

(** A call stack is walked by its rules. *)
Lemma call_stack_walk_aarch64 rules address r st frames :
  wf_rules rules → wf_frame_address address → wf_regs r →
  call_stack rules (memory st) address r frames →
  ∃ r', rule_walk (St := St) rules address (r, st) frames (r', st).
Proof.
  intros Hrules Ha Hr Hstack.
  induction Hstack as [address r Hout|address r rule l s f ra frames Hrule Hd Hlt Hra Hnz
    Hadv Hstack IH].
  - destruct (exec_outermost_aarch64 _ _ r st Hrules Hr Hout) as (rule & Hrule & Hexec).
    exists r. by eapply walk_ends.
  - pose proof (Hrules _ _ Hrule) as Hwf.
    assert (Hexec : A64UnwindRule.exec rule (negb (is_return_address address)) (r, st) =
      Val (Ok (Some ra), (mk_regs (lr_mask r) ra s f, st))).
    { rewrite <- Hra. apply exec_of_denote_aarch64; try done; [by rewrite Hra|].
      intros Hf. apply Hadv. by destruct (is_return_address address). }
    pose proof (wp_run _ _ _ _ _ _ (wp_exec_aarch64 _ _ r st Hr Hwf) Hexec)
      as (Hr' & Hu & _). simpl in Hr'.
    destruct IH as [r' Hwalk]; [by split|done|].
    exists r'. by eapply walk_steps.
Qed.

(** The addresses looked up for the callers are machine words. *)
Lemma frame_chain_words_aarch64 st mask b ras :
  is_u64 (A64UnwindRegs.mask mask) → frame_chain (memory st) mask b ras →
  Forall (λ ra, is_u64 (ra - 1)) ras.
Proof.
  intros Hmask. induction 1 as [|b b' l ra ras Hlt Hb' Hl Hnz Hup <- Hra0 Hchain IH];
    constructor; [|done].
  apply memory_val in Hl. pose proof (strip_u64 mask l Hmask Hl). range.
Qed.
End Walk.

(** * The theorems *)

(** C8.  End to end on aarch64, in a release build: let a table give the rule of every frame's
    address, as the unwind data of the modules does, and let the stack and the registers
    hold a call stack, each rule denoting the caller in terms of the memory.  Then a loop
    over the iterator, through a rule cache with any history of walks of these modules,
    yields exactly the instruction pointer and the return addresses of the call stack,
    stripped of their authentication bits, finishes without an error after one more call,
    and leaves a cache that can be used for the next walk. *)
Theorem iterator_yields_call_stack_aarch64 `{Profile, BinarySearch, Gimli, MachoUnwindInfo,
    PeUnwindInfo, !ContextReuse, ExprFuel, ChainFuel} {St} `{PureReader St}
    (u : UnwinderAarch64.t) (rules : Z → option UnwindRuleAarch64)
    (pc : Z) (r : UnwindRegsAarch64) (c : CacheAarch64.t) (st : St) (frames : list FrameAddress) :
  overflow_checks = false → describes (St := St) u rules → wf_rules rules →
  shareable (St := St) u c → is_u64 pc → wf_regs r →
  call_stack rules (memory st) (InstructionPointer pc) r frames →
  ∃ c' r', collect_frames (2 + length frames) u (UnwinderAarch64.iter_frames u pc r c st) =
      Val (InstructionPointer pc :: frames, Finished, (Done, (c', (r', st)))) ∧
    shareable (St := St) u c'.
Proof.
  intros Hrel Hdesc Hrules Hc Hpc Hr Hstack.
  destruct (call_stack_walk_aarch64 rules (InstructionPointer pc) r st frames Hrules Hpc Hr
    Hstack) as [r' Hwalk].
  destruct (iterator_walks u _ pc _ c st frames _ Hrel Hdesc Hc Hwalk) as (c' & Hrun & Hc').
  by exists c', r'.
Qed.

(** C10.  Without unwind data an aarch64 stack is unwound by frame pointers: in a release
    build, if no module covers the code and the frame pointer register heads a linked list
    of frame records that lies above the stack pointer, ascends in memory and ends in a
    record with a null frame pointer, the iterator yields the instruction pointer and the
    stripped return addresses of the list, except that of the last record, and finishes
    without an error. *)
Theorem iterator_follows_frame_records `{Profile, BinarySearch, Gimli, MachoUnwindInfo,
    PeUnwindInfo, !ContextReuse, ExprFuel, ChainFuel} {St} `{PureReader St}
    (u : UnwinderAarch64.t) (pc : Z) (r : UnwindRegsAarch64)
    (c : CacheAarch64.t) (st : St) (ras : list Z) :
  overflow_checks = false → wf_unwinder u → shareable (St := St) u c →
  is_u64 pc → wf_regs r → sp r < fp r + 16 →
  frame_chain (memory st) (lr_mask r) (fp r) ras →
  Forall (λ a, Forall (outside a) (modules u)) (pc :: (Z.pred <$> ras)) →
  ∃ c' r', collect_frames (2 + length ras) u (UnwinderAarch64.iter_frames u pc r c st) =
      Val (InstructionPointer pc :: (ReturnAddress <$> ras), Finished,
           (Done, (c', (r', st)))) ∧
    shareable (St := St) u c'.
Proof.
  intros Hrel Hu Hc Hpc Hr Hsp Hchain [Hout Houts]%Forall_cons.
  assert (Hrule : ∀ a, is_u64 a → Forall (outside a) (modules u) →
    uncovered_rules u a = Some UseFramePointer).
  { intros a. by apply (@uncovered_rules_outside _ _ _ ArchAarch64 u a). }
  assert (Hstack : call_stack (uncovered_rules u) (memory st) (InstructionPointer pc) r
    (ReturnAddress <$> ras)).
  { apply frame_chain_stack_aarch64; [by apply Hrule| |done|done].
    rewrite Forall_fmap in Houts. apply frame_chain_words_aarch64 in Hchain; [|apply Hr].
    rewrite Forall_forall in *. intros ra Hra. apply Hrule; [by apply Hchain|].
    by apply Houts. }
  assert (Hrules : wf_rules (uncovered_rules u)).
  { intros a rule. unfold uncovered_rules. repeat case_match; by intros; simplify_eq. }
  destruct (call_stack_walk_aarch64 _ (InstructionPointer pc) r st _ Hrules Hpc Hr Hstack)
    as [r' Hwalk].
  destruct (iterator_walks u _ pc _ c st _ _ Hrel (uncovered_rules_describe u) Hc Hwalk)
    as (c' & Hrun & Hc').
  exists c', r'. by rewrite length_fmap in Hrun.
Qed.

(** * A stack whose code pointers are authenticated

    The innermost frame has DWARF data, the callers have none. *)

Abbreviation aarch64_shareable :=
  (@shareable release_profile scan_search toy_gimli toy_macho toy_pe toy_fuel
     example_chain_fuel_aarch64 ArchAarch64 _ _ _ (list Z) words_reader).
Abbreviation aarch64_describes :=
  (@describes release_profile scan_search toy_gimli toy_macho toy_pe toy_fuel
     example_chain_fuel_aarch64 ArchAarch64 _ _ _ (list Z) words_reader).

Definition example_rules_aarch64 (a : Z) : option UnwindRuleAarch64 :=
  if a =? 0x7180 then Some UseFramePointer
  else @uncovered_rules release_profile scan_search toy_gimli ArchAarch64
         example_unwinder_aarch64 a.

(** A row that translates gives its rule, whatever the frame. *)
Lemma row_gives_rule_aarch64 `{Profile, Gimli, ExprFuel} {St} `{StackReader St} section row
    enc (first : bool) (rs : UnwindRegsAarch64 * St) rule :
  translate_into_unwind_rule (row_cfa row) (row_register row AArch64_X29)
    (row_register row AArch64_X30) = Val (Ok rule) →
  dwarf_unwind_frame section row enc first rs = Val (Ok (ExecRule rule), rs).
Proof.
  intros Htr. unfold dwarf_unwind_frame; cbn [DwarfAarch64]. unfold A64Dwarf.unwind_frame.
  unfold mbind, M_bind, lift. by rewrite Htr.
Qed.

(** The rule of the innermost frame is that of the FDE's row. *)
Lemma example_rules_describe_aarch64 :
  aarch64_describes example_unwinder_aarch64 example_rules_aarch64.
Proof.
  intros a rule. unfold example_rules_aarch64. destruct (Z.eqb_spec a 0x7180) as [->|Hne].
  - intros [= <-].
    refine (@rule_at_row release_profile scan_search toy_gimli toy_macho toy_pe toy_fuel
      example_chain_fuel_aarch64 ArchAarch64 _ _ _ (list Z) words_reader
      example_unwinder_aarch64 0x7180 0%nat 0x180 example_module_aarch64
      (mk_index [0x100] [0]) [0x1100; 0; 29; 16; -8; -16] [] 0 0x1180
      [0x1100; 0; 29; 16; -8; -16] [0x1100; 0; 29; 16; -8; -16] UseFramePointer
      _ _ _ _ _ _ _ _).
    8: by intros enc first rs; apply row_gives_rule_aarch64.
    all: reflexivity.
  - by apply uncovered_rules_describe.
Qed.

Lemma example_rules_wf_aarch64 : wf_rules example_rules_aarch64.
Proof.
  intros a rule. unfold example_rules_aarch64, uncovered_rules.
  repeat case_match; by intros; simplify_eq.
Qed.

#[local] Instance toy_context_irrelevant : @ContextReuse toy_gimli.
Proof. done. Qed.

(** The user address space has 48 bits; the first return address is signed. *)
Definition signed_regs : UnwindRegsAarch64 :=
  mk_regs (mk_mask (Z.ones 48)) 0x9000 0x10 0x10.
Definition signed_stack : list Z :=
  [0; 0; 0x20; 0x25000000009200; 0x30; 0x9300; 0; 0x9400].

Example example_call_stack_aarch64 :
  call_stack example_rules_aarch64 (memory signed_stack) (InstructionPointer 0x7180)
    signed_regs [ReturnAddress 0x9200; ReturnAddress 0x9300].
Proof.
  do 2 (eapply (called_from _ _ _ _ UseFramePointer);
    [reflexivity..|discriminate|intros; discriminate|]).
  eapply no_caller, (outermost_frame_record _ _ _ _ 0x9400); reflexivity.
Qed.

Lemma example_unwinder_wf_aarch64 : wf_unwinder example_unwinder_aarch64.
Proof.
  split_and!; [repeat constructor; by vm_compute| |by vm_compute].
  intros [|i] [|j] m m' Hij; simpl; try lia; done.
Qed.

Lemma iterator_yields_call_stack_aarch64_witness :
  ∃ c' r', aarch64_collect 4 example_unwinder_aarch64
      (iterator_new 0x7180 signed_regs aarch64_new_cache signed_stack) =
      Val ([InstructionPointer 0x7180; ReturnAddress 0x9200; ReturnAddress 0x9300], Finished,
           (Done, (c', (r', signed_stack)))) ∧
    aarch64_shareable example_unwinder_aarch64 c'.
Proof.
  apply (@iterator_yields_call_stack_aarch64 release_profile scan_search toy_gimli toy_macho
    toy_pe toy_context_irrelevant toy_fuel example_chain_fuel_aarch64 (list Z) words_reader
    words_pure example_unwinder_aarch64 example_rules_aarch64 0x7180 signed_regs
    aarch64_new_cache signed_stack [ReturnAddress 0x9200; ReturnAddress 0x9300]).
  - reflexivity.
  - apply example_rules_describe_aarch64.
  - apply example_rules_wf_aarch64.
  - apply shareable_new.
  - range.
  - split_and!; by vm_compute.
  - apply example_call_stack_aarch64.
Defined.

Lemma iterator_follows_frame_records_witness :
  ∃ c' r', aarch64_collect 4 example_unwinder_aarch64
      (iterator_new 0x9100 signed_regs aarch64_new_cache signed_stack) =
      Val ([InstructionPointer 0x9100; ReturnAddress 0x9200; ReturnAddress 0x9300], Finished,
           (Done, (c', (r', signed_stack)))) ∧
    aarch64_shareable example_unwinder_aarch64 c'.
Proof.
  apply (@iterator_follows_frame_records release_profile scan_search toy_gimli toy_macho
    toy_pe toy_context_irrelevant toy_fuel example_chain_fuel_aarch64 (list Z) words_reader
    words_pure example_unwinder_aarch64 0x9100 signed_regs aarch64_new_cache signed_stack
    [0x9200; 0x9300]).
  - reflexivity.
  - apply example_unwinder_wf_aarch64.
  - apply shareable_new.
  - range.
  - split_and!; by vm_compute.
  - by vm_compute.
  - apply (chain_links _ _ _ 0x20 0x25000000009200); try done.
    apply (chain_links _ _ _ 0x30 0x9300); try done.
    by apply (chain_ends _ _ _ 0x9400).
  - assert (Hout : ∀ a, 0x8000 <= a → Forall (outside a) (modules example_unwinder_aarch64)).
    { intros a Ha. apply Forall_singleton. right. cbn. lia. }
    do 3 (apply Forall_cons; split; [by apply Hout|]). by apply Forall_nil.
Defined.
