(* ===== verification/X86StackWalk.v ===== *)
(** Whole stacks on x86_64: the iterator yields the callers that the rules denote, in
    particular the linked list of the frame pointers. *)

From S2P Require Import Prelude CodeAddress Error Arch RuleCache Slices Modules.
From S2P Require Import Dwarf DwarfCfiIndex Macho Pe UnwindData Unwinder UnwinderSpec.
From S2P Require Import UnwindFrame Iterator X86Api StackWalk.
From S2P Require Import X86UnwindRegs X86UnwindRule X86Dwarf X86Macho X86Pe X86Unwinder.
From S2P Require Import GimliExample PeExample.
From stdpp Require Import list strings.
Local Open Scope Z_scope.

(** * Call stacks

    What a debugger would show: a table gives the rule of each address, a rule denotes
    the caller's frame in terms of the memory, and the outermost frame is one whose rule
    ends the stack, whose frame pointer is null, or whose return address is null. *)

Inductive call_stack (rules : Z → option UnwindRuleX86_64) (mem : Z → option Z) :
    FrameAddress → UnwindRegsX86_64 → list FrameAddress → Prop :=
| outermost_by_rule address r :
    rules (lookup_of address) = Some EndOfStack → call_stack rules mem address r []
| outermost_frame_pointer address r :
    rules (lookup_of address) = Some UseFramePointer → bp r = 0 →
    call_stack rules mem address r []
| outermost_null_caller address r rule nsp r1 :
    rules (lookup_of address) = Some rule →
    denote mem rule (negb (is_return_address address)) r = Some (nsp, r1) →
    nsp < 2 ^ 64 → mem (nsp - 8) = Some 0 → call_stack rules mem address r []
| called_from address r rule nsp r1 ra frames :
    rules (lookup_of address) = Some rule →
    denote mem rule (negb (is_return_address address)) r = Some (nsp, r1) →
    nsp < 2 ^ 64 → mem (nsp - 8) = Some ra → ra ≠ 0 → (nsp = sp r → ra ≠ ip r) →
    call_stack rules mem (ReturnAddress ra) (set_sp (set_ip r1 ra) nsp) frames →
    call_stack rules mem address r (ReturnAddress ra :: frames).

(** The rules of a table are values of the Rust type. *)
Definition wf_rules (rules : Z → option UnwindRuleX86_64) : Prop :=
  ∀ a rule, rules a = Some rule → wf_rule rule.

(** The linked list of saved frame pointers at [bp], each below the return address, from
    the innermost frame to a null frame pointer. *)
Inductive frame_chain (mem : Z → option Z) : Z → list Z → Prop :=
| chain_ends : frame_chain mem 0 []
| chain_links bp caller_bp ra ras :
    bp ≠ 0 → bp + 16 < 2 ^ 64 → mem bp = Some caller_bp → mem (bp + 8) = Some ra →
    ra ≠ 0 → caller_bp = 0 ∨ bp < caller_bp →
    frame_chain mem caller_bp ras → frame_chain mem bp (ra :: ras).

Section Walk.
Context `{Profile, BinarySearch, Gimli, MachoUnwindInfo, PeUnwindInfo}.
Context `{ExprFuel, ChainFuel} {St : Type} `{PureReader St}.
Implicit Types (r : UnwindRegsX86_64) (st : St).

Lemma exec_outermost rule first r st :
  rule = EndOfStack ∨ (rule = UseFramePointer ∧ bp r = 0) →
  X86UnwindRule.exec rule first (r, st) = Val (Ok None, (r, st)).
Proof.
  intros [->|[-> Hbp]]; [done|].
  cbv [X86UnwindRule.exec new_sp_and_bp mbind M_bind get_regs fst snd]. by rewrite Hbp.
Qed.

(** A call stack is walked by its rules. *)
Lemma call_stack_walk rules address r st frames :
  wf_rules rules → wf_frame_address address → wf_regs r → 8 ≤ sp r →
  call_stack rules (memory st) address r frames →
  ∃ r', rule_walk (St := St) rules address (r, st) frames (r', st).
Proof.
  intros Hrules Ha Hr H8 Hstack.
  induction Hstack as [address r Hrule|address r Hrule Hbp
    |address r rule nsp r1 Hrule Hd Hlt Hm|address r rule nsp r1 ra frames Hrule Hd Hlt Hm
     Hnz Hadv Hstack IH].
  - exists r. eapply walk_ends; [done|done|]. apply exec_outermost. auto.
  - exists r. eapply walk_ends; [done|done|]. apply exec_outermost. auto.
  - destruct (exec_denote _ _ r st nsp r1 Hr (Hrules _ _ Hrule) H8 Hd Hlt) as [r0 Hexec].
    rewrite Hm in Hexec. exists r0. by eapply walk_ends.
  - pose proof (Hrules _ _ Hrule) as Hwf.
    pose proof (denote_sp_le _ _ r st nsp r1 Hr Hwf Hd Hlt) as Hle.
    destruct (exec_denote _ _ r st nsp r1 Hr Hwf H8 Hd Hlt) as [r0 Hexec].
    rewrite Hm in Hexec. destruct (Z.eqb_spec ra 0); [done|].
    replace ((nsp =? sp r) && (ra =? ip r)) with false in Hexec
      by (destruct (Z.eqb_spec nsp (sp r)), (Z.eqb_spec ra (ip r)); naive_solver).
    pose proof (wp_run _ _ _ _ _ _ (wp_exec _ _ r st Hr Hwf) Hexec) as [Hr' (Hra & _)].
    destruct IH as [r' Hwalk]; [by split|done|by simpl_regs; lia|].
    exists r'. by eapply walk_steps.
Qed.

(** The chain of frame pointers is the call stack of the frame pointer rule. *)
Lemma frame_chain_stack rules mem address r ras :
  rules (lookup_of address) = Some UseFramePointer →
  Forall (λ ra, rules (ra - 1) = Some UseFramePointer) ras →
  bp r = 0 ∨ sp r < bp r + 16 → frame_chain mem (bp r) ras →
  call_stack rules mem address r (ReturnAddress <$> ras).
Proof.
  intros Hrule Hras Hsp Hchain. remember (bp r) as b eqn:Hb.
  revert address r Hrule Hsp Hb. induction Hchain as [|b b' ra ras Hnz Hlt Hm Hra Hra0 Hup
    Hchain IH]; intros address r Hrule Hsp Hb.
  { by eapply outermost_frame_pointer. }
  apply Forall_cons in Hras as [Hra_rule Hras].
  eapply (called_from _ _ _ _ UseFramePointer (b + 16) (set_bp r b')); try done.
  - simpl. rewrite <- Hb. destruct (Z.eqb_spec b 0); [done|].
    destruct (Z.leb_spec (b + 16) (sp r)); [lia|]. by rewrite Hm.
  - by replace (b + 16 - 8) with (b + 8) by lia.
  - lia.
  - apply IH; [done|done| |by simpl_regs]. simpl_regs. lia.
Qed.

(** The addresses looked up for the callers are machine words. *)
Lemma frame_chain_words st b ras :
  frame_chain (memory st) b ras → Forall (λ ra, is_u64 (ra - 1)) ras.
Proof.
  induction 1 as [|b b' ra ras Hnz Hlt Hm Hra Hra0 Hup Hchain IH]; constructor; [|done].
  apply memory_u64 in Hra. range.
Qed.
End Walk.

(** * The theorems *)

(** A row that translates gives its rule, whatever the frame. *)
Lemma row_gives_rule `{Profile, Gimli, ExprFuel} {St} `{StackReader St} section row enc
    (first : bool) (rs : UnwindRegsX86_64 * St) rule :
  translate_into_unwind_rule (row_cfa row) (row_register row X86_64_RBP)
    (row_register row X86_64_RA) = Val (Ok rule) →
  dwarf_unwind_frame section row enc first rs = Val (Ok (ExecRule rule), rs).
Proof.
  intros Htr. unfold dwarf_unwind_frame; cbn [DwarfX86_64]. unfold X86Dwarf.unwind_frame.
  unfold mbind, M_bind, lift. by rewrite Htr.
Qed.

(** C7.  End to end on x86_64, in a release build: let a table give the rule of every frame's
    address, as the unwind data of the modules does, and let the stack hold a call stack,
    each rule denoting the caller in terms of the memory, from a stack pointer of at least
    8.  Then a loop over the iterator, through a rule cache with any history of walks of
    these modules, yields exactly the instruction pointer and the return addresses of the
    call stack, finishes without an error after one more call, reads the memory only, and
    leaves a cache that can be used for the next walk. *)
Theorem iterator_yields_call_stack `{Profile, BinarySearch, Gimli, MachoUnwindInfo,
    PeUnwindInfo, !ContextReuse, ExprFuel, ChainFuel} {St} `{PureReader St}
    (u : UnwinderX86_64.t) (rules : Z → option UnwindRuleX86_64)
    (pc : Z) (r : UnwindRegsX86_64) (c : CacheX86_64.t) (st : St) (frames : list FrameAddress) :
  overflow_checks = false → describes (St := St) u rules → wf_rules rules →
  shareable (St := St) u c → is_u64 pc → wf_regs r → 8 ≤ sp r →
  call_stack rules (memory st) (InstructionPointer pc) r frames →
  ∃ c' r', collect_frames (2 + length frames) u (UnwinderX86_64.iter_frames u pc r c st) =
      Val (InstructionPointer pc :: frames, Finished, (Done, (c', (r', st)))) ∧
    shareable (St := St) u c'.
Proof.
  intros Hrel Hdesc Hrules Hc Hpc Hr Hsp8 Hstack.
  destruct (call_stack_walk rules (InstructionPointer pc) r st frames Hrules Hpc Hr Hsp8 Hstack)
    as [r' Hwalk].
  destruct (iterator_walks u _ pc _ c st frames _ Hrel Hdesc Hc Hwalk)
    as (c' & Hrun & Hc').
  by exists c', r'.
Qed.

(** C9.  Without unwind data an x86_64 stack is unwound by frame pointers: in a release build,
    if no module covers the code and the frame pointer register is null or heads a linked
    list of frames that lies above the stack pointer (which is at least 8), ascends in
    memory and ends in a null pointer, the iterator yields the instruction pointer and the
    return addresses of the list, all of them and in order, and finishes without an
    error. *)
Theorem iterator_follows_frame_pointers `{Profile, BinarySearch, Gimli, MachoUnwindInfo,
    PeUnwindInfo, !ContextReuse, ExprFuel, ChainFuel} {St} `{PureReader St}
    (u : UnwinderX86_64.t) (pc : Z) (r : UnwindRegsX86_64)
    (c : CacheX86_64.t) (st : St) (ras : list Z) :
  overflow_checks = false → wf_unwinder u → shareable (St := St) u c →
  is_u64 pc → wf_regs r → 8 ≤ sp r → bp r = 0 ∨ sp r < bp r + 16 →
  frame_chain (memory st) (bp r) ras →
  Forall (λ a, Forall (outside a) (modules u)) (pc :: (Z.pred <$> ras)) →
  ∃ c' r', collect_frames (2 + length ras) u (UnwinderX86_64.iter_frames u pc r c st) =
      Val (InstructionPointer pc :: (ReturnAddress <$> ras), Finished,
           (Done, (c', (r', st)))) ∧
    shareable (St := St) u c'.
Proof.
  intros Hrel Hu Hc Hpc Hr Hsp8 Hsp Hchain [Hout Houts]%Forall_cons.
  assert (Hrule : ∀ a, is_u64 a → Forall (outside a) (modules u) →
    uncovered_rules u a = Some UseFramePointer).
  { intros a. by apply (@uncovered_rules_outside _ _ _ ArchX86_64 u a). }
  assert (Hstack : call_stack (uncovered_rules u) (memory st) (InstructionPointer pc) r
    (ReturnAddress <$> ras)).
  { apply frame_chain_stack; [by apply Hrule| |done|done].
    rewrite Forall_fmap in Houts. apply frame_chain_words in Hchain.
    rewrite Forall_forall in *. intros ra Hra. apply Hrule; [by apply Hchain|].
    by apply Houts. }
  assert (Hrules : wf_rules (uncovered_rules u)).
  { intros a rule. unfold uncovered_rules. repeat case_match; by intros; simplify_eq. }
  destruct (call_stack_walk _ (InstructionPointer pc) r st _ Hrules Hpc Hr Hsp8 Hstack)
    as [r' Hwalk].
  destruct (iterator_walks u _ pc _ c st _ _ Hrel (uncovered_rules_describe u) Hc Hwalk)
    as (c' & Hrun & Hc').
  exists c', r'. by rewrite length_fmap in Hrun.
Qed.

(** * A stack whose innermost frame has DWARF data and whose callers have none *)

Abbreviation x86_collect_frames :=
  (@collect_frames release_profile scan_search toy_gimli toy_macho toy_pe toy_fuel
     example_chain_fuel ArchX86_64 _ _ _ (list Z) words_reader).
Abbreviation x86_shareable :=
  (@shareable release_profile scan_search toy_gimli toy_macho toy_pe toy_fuel
     example_chain_fuel ArchX86_64 _ _ _ (list Z) words_reader).
Abbreviation x86_describes :=
  (@describes release_profile scan_search toy_gimli toy_macho toy_pe toy_fuel
     example_chain_fuel ArchX86_64 _ _ _ (list Z) words_reader).

Definition example_rules (a : Z) : option UnwindRuleX86_64 :=
  if a =? 0x7180 then Some (OffsetSp 1) 
  else @uncovered_rules release_profile scan_search toy_gimli ArchX86_64 example_unwinder a.

(** The rule of the innermost frame is that of the FDE's row. *)
Lemma example_rules_describe : x86_describes example_unwinder example_rules.
Proof.
  intros a rule. unfold example_rules. destruct (Z.eqb_spec a 0x7180) as [->|Hne].
  - intros [= <-].
    refine (@rule_at_row release_profile scan_search toy_gimli toy_macho toy_pe toy_fuel
      example_chain_fuel ArchX86_64 _ _ _ (list Z) words_reader example_unwinder 0x7180 0%nat
      0x180 example_module (mk_index [0x100] [0]) [0x1100; 0; 7; 8; 2 ^ 64 - 8; 0]
      [0x2000; 0; 0x1000; 0] 0 0x1180 [0x1100; 0; 7; 8; 2 ^ 64 - 8; 0]
      [0x1100; 0; 7; 8; 2 ^ 64 - 8; 0] (OffsetSp 1) _ _ _ _ _ _ _ _).
    8: by intros enc first rs; apply row_gives_rule.
    all: reflexivity.
  - by apply uncovered_rules_describe.
Qed.

Lemma example_rules_wf : wf_rules example_rules.
Proof.
  intros a rule. unfold example_rules, uncovered_rules.
  repeat case_match; intros; simplify_eq; [by vm_compute|done].
Qed.

Definition walked_stack : list Z :=
  [1; 2; 3; 4; 5; 0x100200; 0; 0; 0x60; 0x100100; 7; 8; 0x80; 0x100000; 9; 10; 0; 0].

Example example_call_stack :
  call_stack example_rules (memory walked_stack) (InstructionPointer 0x7180)
    (X86UnwindRegs.new 0x7180 0x28 0x40)
    [ReturnAddress 0x100200; ReturnAddress 0x100100; ReturnAddress 0x100000].
Proof.
  eapply (called_from _ _ _ _ (OffsetSp 1)); [reflexivity..|discriminate| |].
  { intros [=]. }
  do 2 (eapply (called_from _ _ _ _ UseFramePointer);
    [reflexivity..|discriminate|intros [=]|]).
  eapply (outermost_null_caller _ _ _ _ UseFramePointer); reflexivity.
Qed.

Lemma iterator_yields_call_stack_witness :
  ∃ c' r', x86_collect_frames 5 example_unwinder
      (iterator_new 0x7180 (X86UnwindRegs.new 0x7180 0x28 0x40) x86_new_cache walked_stack) =
      Val ([InstructionPointer 0x7180; ReturnAddress 0x100200; ReturnAddress 0x100100;
            ReturnAddress 0x100000], Finished, (Done, (c', (r', walked_stack)))) ∧
    x86_shareable example_unwinder c'.
Proof.
  apply (@iterator_yields_call_stack release_profile scan_search toy_gimli toy_macho toy_pe
    toy_context_reuse toy_fuel example_chain_fuel (list Z) words_reader words_pure
    example_unwinder example_rules 0x7180 (X86UnwindRegs.new 0x7180 0x28 0x40) x86_new_cache
    walked_stack [ReturnAddress 0x100200; ReturnAddress 0x100100; ReturnAddress 0x100000]).
  - reflexivity.
  - apply example_rules_describe.
  - apply example_rules_wf.
  - apply shareable_new.
  - range.
  - apply wf_new; range.
  - by vm_compute.
  - apply example_call_stack.
Defined.

(** The callers of that stack, as a stack of their own. *)
Lemma iterator_follows_frame_pointers_witness :
  ∃ c' r', x86_collect_frames 4 example_unwinder
      (iterator_new 0x100200 (X86UnwindRegs.new 0x100200 0x30 0x40) x86_new_cache
         [1; 2; 3; 4; 5; 6; 0; 0; 0x60; 0x100100; 7; 8; 0; 0x9000]) =
      Val ([InstructionPointer 0x100200; ReturnAddress 0x100100; ReturnAddress 0x9000],
           Finished, (Done, (c', (r', [1; 2; 3; 4; 5; 6; 0; 0; 0x60; 0x100100; 7; 8; 0; 0x9000])))) ∧
    x86_shareable example_unwinder c'.
Proof.
  apply (@iterator_follows_frame_pointers release_profile scan_search toy_gimli toy_macho
    toy_pe toy_context_reuse toy_fuel example_chain_fuel (list Z) words_reader words_pure
    example_unwinder 0x100200 (X86UnwindRegs.new 0x100200 0x30 0x40) x86_new_cache
    [1; 2; 3; 4; 5; 6; 0; 0; 0x60; 0x100100; 7; 8; 0; 0x9000] [0x100100; 0x9000]).
  - reflexivity.
  - apply example_unwinder_wf.
  - apply shareable_new.
  - range.
  - apply wf_new; range.
  - by vm_compute.
  - right. by vm_compute.
  - apply (chain_links _ _ 0x60 0x100100); [done|done|done|done|done|by right; vm_compute|].
    apply (chain_links _ _ 0 0x9000); [done|done|done|done|done|by left|]. apply chain_ends.
  - assert (Hout : ∀ a, 0x8000 <= a → Forall (outside a) (modules example_unwinder)).
    { intros a Ha. apply Forall_singleton. right. cbn. lia. }
    do 3 (apply Forall_cons; split; [by apply Hout|]). by apply Forall_nil.
Defined.
