(* ===== verification/X86Iterator.v ===== *)
(** Whole stacks on x86_64: an example, and a stack that is unwound forever. *)

From S2P Require Import Prelude CodeAddress Error Arch RuleCache Slices Modules.
From S2P Require Import Dwarf DwarfCfiIndex Macho Pe UnwindData Unwinder UnwinderSpec.
From S2P Require Import UnwindFrame Iterator.
From S2P Require Import X86UnwindRegs X86UnwindRule X86Dwarf X86Macho X86Pe X86Unwinder.
From S2P Require Import GimliExample PeExample.
From stdpp Require Import list strings.
Local Open Scope Z_scope.

Abbreviation x86_next :=
  (@next release_profile scan_search toy_gimli toy_macho toy_pe toy_fuel
     example_chain_fuel ArchX86_64 _ _ _ (list Z) words_reader).
Abbreviation x86_collect :=
  (@collect_frames release_profile scan_search toy_gimli toy_macho toy_pe toy_fuel
     example_chain_fuel ArchX86_64 _ _ _ (list Z) words_reader).

Lemma iterator_protocol_witness :
  let it : @iterator toy_gimli ArchX86_64 (list Z) :=
    iterator_new 0x7180 (X86UnwindRegs.new 0x7180 0x28 0x20) x86_new_cache example_stack in
  x86_next example_unwinder it =
    Val (Ok (Some (InstructionPointer 0x7180)), (Unwinding (InstructionPointer 0x7180), it.2)).
Proof.
  intros it.
  assert (Hrun : x86_next example_unwinder it =
    Val (Ok (Some (InstructionPointer 0x7180)),
         (Unwinding (InstructionPointer 0x7180), it.2))) by reflexivity.
  apply (@iterator_protocol release_profile scan_search toy_gimli toy_macho toy_pe ArchX86_64
    _ _ _ unwinding_spec_x86 toy_fuel example_chain_fuel (list Z) words_reader) in Hrun.
  - destruct Hrun as [_ [_ Heq]]. reflexivity.
  - apply example_unwinder_wf.
  - split_and!; [by vm_compute|apply cache_ok_new|apply wf_new; range].
Defined.

(** * Frames need not make progress *)

Abbreviation x86_slow_path :=
  (@slow_path release_profile scan_search toy_gimli toy_macho toy_pe toy_fuel
     example_chain_fuel ArchX86_64 _ _ _ (list Z) words_reader).

(** A cache without a rule. *)
Definition no_rules (c : x86_cache) : Prop :=
  RuleCache.entries (rule_cache c) = RuleCache.entries (R := UnwindRuleX86_64) RuleCache.new.

(** A frame that the slow path unwinds without a rule. *)
Definition unwinds_uncached (u : UnwinderInternal (@ModuleUnwindDataInternal toy_gimli))
    (a : Z) (rs : UnwindRegsX86_64 * list Z) (ra : Z) (rs' : UnwindRegsX86_64 * list Z) :
    Prop :=
  ∀ c, match x86_slow_path u (ReturnAddress a) (c, rs) with
       | Val (res, (c', rs1)) => res = Ok (Uncacheable ra) ∧ rs1 = rs' ∧
           RuleCache.entries (rule_cache c') = RuleCache.entries (rule_cache c)
       | Fault _ => False
       end.

Lemma next_uncached u a rs ra rs' (c : x86_cache) :
  wf_frame_address (ReturnAddress a) → unwinds_uncached u a rs ra rs' → ra ≠ 0 →
  no_rules c →
  ∃ c', no_rules c' ∧
    x86_next u (Unwinding (ReturnAddress a), (c, rs)) =
      Val (Ok (Some (ReturnAddress ra)), (Unwinding (ReturnAddress ra), (c', rs'))).
Proof.
  intros Ha Hslow Hra Hc. unfold no_rules in *.
  destruct (@unwind_frame_run release_profile scan_search toy_gimli toy_macho toy_pe toy_fuel
    example_chain_fuel ArchX86_64 _ _ _ (list Z) words_reader u
    (ReturnAddress a) c rs) as (c1 & Hent & Hrun);
    [done|unfold wf_cache; by rewrite Hc|done|].
  assert (Hmiss : cached (rule_cache c) (lookup_of (ReturnAddress a))
    (modules_generation u) = None).
  { unfold cached. rewrite Hc. by apply cached_new. }
  rewrite Hmiss in Hrun. specialize (Hslow c1).
  destruct (slow_path _ _ _) as [[res [c2 rs2]]|]; [|done].
  destruct Hslow as (-> & -> & Hent2). cbn [after_slow_path] in Hrun.
  exists c2. split; [by rewrite Hent2, Hent|].
  apply (@next_at_frame release_profile scan_search toy_gimli toy_macho toy_pe toy_fuel
    example_chain_fuel ArchX86_64 _ _ _ (list Z) words_reader _ _ _ _ ra); [done|].
  unfold from_return_address. by destruct (Z.eqb_spec ra 0).
Qed.

(** A set of frames that is closed under unwinding is never left. *)
Lemma uncached_frames_repeat u (frame : Z → UnwindRegsX86_64 * list Z → Prop) n a rs c :
  (∀ a rs, frame a rs → wf_frame_address (ReturnAddress a) ∧
     ∃ ra rs', unwinds_uncached u a rs ra rs' ∧ ra ≠ 0 ∧ frame ra rs') →
  frame a rs → no_rules c →
  ∃ frames it',
    x86_collect n u (Unwinding (ReturnAddress a), (c, rs)) = Val (frames, StillRunning, it') ∧
    length frames = n.
Proof.
  intros Hclosed. revert a rs c. induction n as [|n IH]; intros a rs c Hframe Hc.
  { by eexists [], _. }
  destruct (Hclosed a rs Hframe) as (Ha & ra & rs' & Hun & Hra & Hframe').
  destruct (next_uncached u a rs ra rs' c Ha Hun Hra Hc) as (c' & Hc' & Hnext).
  destruct (IH ra rs' c' Hframe' Hc') as (frames & it' & Hrun & Hlen).
  exists (ReturnAddress ra :: frames), it'. split; [|simpl; by rewrite Hlen].
  by apply (@collect_frames_next release_profile scan_search toy_gimli toy_macho toy_pe
    toy_fuel example_chain_fuel ArchX86_64 _ _ _ (list Z) words_reader _ _ _ _ _ _ _ _
    Hnext).
Qed.

(** A function of a PE module that restores the stack pointer from the frame pointer, on a
    stack whose saved frame pointer points at itself. *)
Definition pe_module : Module (@ModuleUnwindDataInternal toy_gimli) :=
  mk_module _ "pe" (mk_range 0x400000 0x410000) 0x400000 0
    (PeUnwindData [0x1000; 0x1010; 0x2000]
       (Some (mk_data_at [0; 0; -1; 0; 5] 0x2000 0x2005)) None None).
Definition pe_unwinder : UnwinderInternal (@ModuleUnwindDataInternal toy_gimli) :=
  mk_unwinder _ [pe_module] 0.
Definition cyclic_stack : list Z := [0; 0; 0; 0; 0x20; 0x401005].
Definition cyclic_regs : UnwindRegsX86_64 * list Z :=
  (X86UnwindRegs.new 0x401005 0x30 0x20, cyclic_stack).

Lemma pe_frame_cycles : unwinds_uncached pe_unwinder 0x401005 cyclic_regs 0x401005 cyclic_regs.
Proof. intros [ctx rc]. vm_compute. done. Qed.

(** A module whose FDE says that the caller's stack pointer is the callee's, and that each
    of the return address and the frame pointer is in the register of the other. *)
Definition swap_module : Module (@ModuleUnwindDataInternal toy_gimli) :=
  mk_module _ "swap" (mk_range 0x7000 0x8000) 0x7000 0x1000
    (DwarfCfiIndexAndEhFrame (mk_index [0x100] [0]) [0x1100; 0; 7; 0; 3; 4]
       ([] : @BaseAddresses toy_gimli)).
Definition swap_unwinder : UnwinderInternal (@ModuleUnwindDataInternal toy_gimli) :=
  mk_unwinder _ [swap_module] 0.
Definition swap_regs (a b : Z) : UnwindRegsX86_64 * list Z :=
  (set_bp (set_sp (set_ip (X86UnwindRegs.new 0 0x40 0) a) 0x40) b, []).

Lemma dwarf_frame_swaps a b :
  a = 0x7180 ∧ b = 0x7280 ∨ a = 0x7280 ∧ b = 0x7180 →
  unwinds_uncached swap_unwinder a (swap_regs a b) b (swap_regs b a).
Proof. intros [[-> ->]|[-> ->]] [ctx rc]; vm_compute; done. Qed.

(** C40.  On x86_64 unwinding a stack need not end.  The PE path ([src/x86_64/pe.rs]) does
    not check at all that a frame moved up the stack: a saved frame pointer that points at
    itself is unwound forever.  The check of the DWARF path ([src/x86_64/dwarf.rs]) only
    compares with the previous frame: a rule that swaps the return address and the frame
    pointer is followed forever, without reading the stack. *)
Theorem x86_iteration_diverges (n : nat) :
  (∃ frames it',
     x86_collect n pe_unwinder
       (Unwinding (ReturnAddress 0x401005), (x86_new_cache, cyclic_regs)) =
       Val (frames, StillRunning, it') ∧ length frames = n) ∧
  (∃ frames it',
     x86_collect n swap_unwinder
       (Unwinding (ReturnAddress 0x7180), (x86_new_cache, swap_regs 0x7180 0x7280)) =
       Val (frames, StillRunning, it') ∧ length frames = n).
Proof.
  split.
  - apply (uncached_frames_repeat _ (λ a rs, a = 0x401005 ∧ rs = cyclic_regs)); [|done|done].
    intros a rs [-> ->]. split; [by vm_compute|].
    exists 0x401005, cyclic_regs. split_and!; [apply pe_frame_cycles|done..].
  - apply (uncached_frames_repeat _ (λ a rs, ∃ b, rs = swap_regs a b ∧
      (a = 0x7180 ∧ b = 0x7280 ∨ a = 0x7280 ∧ b = 0x7180))); [|by exists 0x7280; auto|done].
    intros a rs (b & -> & Hab). split; [by destruct Hab as [[-> ->]|[-> ->]]; vm_compute|].
    exists b, (swap_regs b a). split_and!; [by apply dwarf_frame_swaps| |].
    + by destruct Hab as [[-> ->]|[-> ->]].
    + exists a. split; [done|]. tauto.
Qed.

(** An epilog that adjusts the stack pointer, pops and returns, over a stack that ends
    before the pop.  The error leaves the registers of the half simulated epilog, and the
    fallback rule runs on them: it fails, where on the registers of the frame it finds the
    caller. *)
Definition epilog_module : Module (@ModuleUnwindDataInternal toy_gimli) :=
  let sections := example_sections [0x48; 0x83; 0xc4; 0x40; 0x58; 0xc3] in
  mk_module _ "pe" (mk_range 0x400000 0x410000) 0x400000 0
    (PeUnwindData (pdata sections) (rdata sections) (xdata sections) (Pe.text sections)).

Example pe_error_half_unwound :
  let r := X86UnwindRegs.new 0x40100a 0x18 0x20 in
  forget (x86_unwind (mk_unwinder _ [epilog_module] 0) (InstructionPointer 0x40100a))
    (x86_new_cache, (r, example_frame)) =
      Val (Err FramepointerUnwindingMovedBackwards, (set_sp r 0x58, example_frame)) ∧
  X86UnwindRule.exec (H := release_profile) UseFramePointer true (r, example_frame) =
    Val (Ok (Some 0x1042), (X86UnwindRegs.new 0x1042 0x30 0x20, example_frame)).
Proof. by vm_compute. Qed.
