(* ===== verification/X86Termination.v ===== *)
(** Whole stacks on x86_64 end when every frame is unwound by a rule. *)

From S2P Require Import Prelude CodeAddress Error Arch RuleCache Slices Modules.
From S2P Require Import Dwarf DwarfCfiIndex Macho Pe UnwindData Unwinder UnwinderSpec.
From S2P Require Import UnwindFrame Iterator X86Api RuleFrames StackWalk.
From S2P Require Import X86UnwindRegs X86UnwindRule X86Dwarf X86Macho X86Pe X86Unwinder.
From S2P Require Import GimliExample PeExample.
From S2P Require Import X86StackWalk.
From stdpp Require Import list strings.
Local Open Scope Z_scope.

(** * One rule *)

Section Rule.
Context `{Profile} {St : Type} `{PureReader St}.
Implicit Types (r : UnwindRegsX86_64) (st : St).

(** What a successful rule leaves behind: the return address is the word below the new
    stack pointer, and the frame is not the old one. *)
Lemma exec_frame rule first r st ra r' st' :
  wf_regs r → wf_rule rule → 8 ≤ sp r →
  X86UnwindRule.exec rule first (r, st) = Val (Ok (Some ra), (r', st')) →
  st' = st ∧ memory st (sp r' - 8) = Some ra ∧ is_u64 ra ∧ ra ≠ 0 ∧ ip r' = ra ∧
  sp r ≤ sp r' ∧ (sp r' = sp r → ra ≠ ip r) ∧ wf_regs r'.
Proof.
  intros Hr Hrule H8 Hrun.
  pose proof (wp_run _ _ _ _ _ _ (wp_exec rule first r st Hr Hrule) Hrun)
    as (Hr' & Hra & Hnz & Hip & Hle & Hadv).
  destruct (exec_only_denote rule first r st ra _ Hr Hrule Hrun) as (nsp & r1 & Hd & Hlt).
  destruct (exec_denote rule first r st nsp r1 Hr Hrule H8 Hd Hlt) as [r0 He].
  rewrite He in Hrun. destruct (memory st (nsp - 8)) as [ra'|] eqn:Hm; [|done].
  destruct (ra' =? 0); [done|]. destruct ((nsp =? sp r) && (ra' =? ip r)); [done|].
  assert (Hsp : sp (set_sp (set_ip r1 ra') nsp) = nsp) by (by simpl_regs).
  injection Hrun as -> <- <-. cbn [fst] in *. rewrite Hsp in *. do 7 (split; [done|]). exact Hr'.
Qed.

Lemma exec_returns rule first r st :
  overflow_checks = false → wf_regs r → wf_rule rule →
  ∃ res r' st', X86UnwindRule.exec rule first (r, st) = Val (res, (r', st')).
Proof.
  intros Hrel Hr Hrule. pose proof (wp_exec rule first r st Hr Hrule) as Hwp.
  unfold wp in Hwp. destruct (X86UnwindRule.exec rule first (r, st)) as [[res [r' st']]|k];
    [by exists res, r', st'|]. destruct Hwp. congruence.
Qed.
End Rule.

(** * Whole stacks *)

Section Walk.
Context `{Profile, BinarySearch, Gimli, MachoUnwindInfo, PeUnwindInfo, !ContextReuse}.
Context `{!MachoLookup, ExprFuel, ChainFuel} {St : Type} `{PureReader St}.
Implicit Types (r : UnwindRegsX86_64) (st : St).
Context (u : UnwinderX86_64.t) (Hrel : overflow_checks = false) (Hall : all_rules (St := St) u).

(** One call: the iteration ends, or goes on above a return address. *)
Lemma rule_frame_next address (c : CacheX86_64.t) r st :
  wf_frame_address address → cache_ok c → wf_regs r → 8 ≤ sp r →
  (∀ ra r' (c' : CacheX86_64.t), cache_ok c' → wf_regs r' →
     memory st (sp r' - 8) = Some (ip r') → ip r' = ra → is_u64 ra → ra ≠ 0 →
     sp r ≤ sp r' → (sp r' = sp r → ra ≠ ip r) →
     iteration_ends u (Unwinding (ReturnAddress ra), (c', (r', st)))) →
  iteration_ends u (Unwinding address, (c, (r, st))).
Proof.
  intros Ha Hc Hr Hsp8 Hnext.
  destruct (unwind_frame_executes u address c (r, st) Hrel Hall Ha Hc)
    as (rule & c' & Hrule & Hc' & Hrun).
  destruct (exec_returns rule (negb (is_return_address address)) r st Hrel Hr Hrule)
    as (res & r' & st' & Hexec).
  assert (Hframe : Unwinder.unwind_frame u address (c, (r, st)) = Val (res, (c', (r', st')))).
  { etrans; [exact Hrun|]. unfold zoom_snd. cbn [fst snd Arch.exec ArchX86_64].
    by rewrite Hexec. }
  destruct res as [[ra|]|e].
  - destruct (exec_frame _ _ r st ra r' st' Hr Hrule Hsp8 Hexec)
      as (-> & Hm & Hra & Hnz & Hip & Hle & Hadv & Hr').
    eapply iteration_ends_next.
    + apply (next_at_frame _ _ _ _ ra ra Hframe). unfold from_return_address.
      by destruct (Z.eqb_spec ra 0).
    + apply Hnext; try done. by rewrite Hip.
  - destruct (next_at_end _ _ _ _ _ Hframe) as (res & it' & Hend & Hno); [done|].
    exact (iteration_ends_now _ _ _ _ Hend Hno).
  - destruct (next_at_end _ _ _ _ _ Hframe) as (res & it' & Hend & Hno); [done|].
    exact (iteration_ends_now _ _ _ _ Hend Hno).
Qed.

(** Where the return address is the word below the stack pointer, the next rule either
    finds the same frame again, which is an error, or moves the stack pointer up. *)
Lemma returned_frames_end n ra (c : CacheX86_64.t) r st :
  (Z.to_nat (2 ^ 64 - sp r) < n)%nat →
  cache_ok c → wf_regs r → 8 ≤ sp r → memory st (sp r - 8) = Some (ip r) → ip r = ra →
  is_u64 ra → ra ≠ 0 → iteration_ends u (Unwinding (ReturnAddress ra), (c, (r, st))).
Proof.
  revert ra c r. induction n as [|n IH]; intros ra c r Hn Hc Hr Hsp8 Hm Hip Hra Hnz; [lia|].
  apply rule_frame_next; [by split|done|done|done|].
  intros ra' r' c' Hc' Hr' Hm' Hip' Hra' Hnz' Hle Hadv.
  pose proof (proj2 Hr' RSP) as Hsp'. fold (sp r') in Hsp'.
  apply IH; try done; [|lia].
  destruct (decide (sp r' = sp r)) as [Heq|]; [|range].
  exfalso. apply (Hadv Heq). rewrite Heq in Hm'. congruence.
Qed.

Lemma rule_frames_end address (c : CacheX86_64.t) r st :
  wf_frame_address address → cache_ok c → wf_regs r → 8 ≤ sp r →
  iteration_ends u (Unwinding address, (c, (r, st))).
Proof.
  intros Ha Hc Hr Hsp8. apply rule_frame_next; [done..|].
  intros ra' r' c' Hc' Hr' Hm' Hip' Hra' Hnz' Hle Hadv.
  apply (returned_frames_end (S (Z.to_nat (2 ^ 64 - sp r')))); try done; lia.
Qed.
End Walk.

(** C4.  On x86_64 unwinding a whole stack ends when every frame is unwound by a rule: in a
    release build, without PE modules and with call frame information that translates
    into rules, for every stack, however corrupt, whose stack pointer is at least 8, some
    number of calls reaches the end of the stack or an error.  (The reader answers the
    same question the same way; without these conditions the iteration may go on
    forever.) *)
Theorem x86_iteration_terminates `{Profile, BinarySearch, Gimli, MachoUnwindInfo,
    PeUnwindInfo, !ContextReuse, !MachoLookup, ExprFuel, ChainFuel} {St} `{PureReader St}
    (u : UnwinderX86_64.t) (pc : Z) (r : UnwindRegsX86_64) (c : CacheX86_64.t) (st : St) :
  overflow_checks = false → wf_unwinder u →
  Forall (λ m, rules_only (St := St) (unwind_data m) ∧ wf_unwind_data (unwind_data m))
    (modules u) →
  is_u64 pc → cache_ok c → wf_regs r → 8 ≤ sp r →
  ∃ fuel frames how it',
    collect_frames fuel u (UnwinderX86_64.iter_frames u pc r c st) =
      Val (frames, how, it') ∧ how ≠ StillRunning.
Proof.
  intros Hrel Hu Hall Hpc Hc Hr Hsp8.
  apply (iteration_ends_next u _ (InstructionPointer pc)
    (Unwinding (InstructionPointer pc), (c, (r, st)))); [done|].
  by apply rule_frames_end.
Qed.

(** The one row of the example's section says that the return address is on top of the
    stack. *)
Lemma example_rules_only :
  @rules_only release_profile toy_gimli toy_macho toy_pe ArchX86_64 _ _ _ unwinding_spec_x86 toy_fuel
    (list Z) words_reader (unwind_data example_module).
Proof.
  intros off f ctx a row Hf Hrow. cbn in Hf. unfold toy_fde in Hf.
  destruct (Z.to_nat off) as [|n].
  2:{ do 6 (destruct n as [|n]; [done|]). by rewrite drop_ge in Hf by (simpl; lia). }
  injection Hf as <-. cbn in Hrow. destruct (_ <=? a); [|done]. injection Hrow as <-.
  intros section enc first rs. exists (OffsetSp 1). split; [by vm_compute|].
  by apply row_gives_rule.
Qed.

(** A stack whose frames have the rule of the module, on a stack without an end. *)
Lemma x86_iteration_terminates_witness :
  ∃ fuel frames how it',
    x86_collect_frames fuel example_unwinder
      (UnwinderX86_64.iter_frames example_unwinder 0x7180
         (X86UnwindRegs.new 0x7180 0x10 0x10) x86_new_cache
         [0x7200; 0x7300; 0x7180; 0x7180; 0x7200]) = Val (frames, how, it') ∧
    how ≠ StillRunning.
Proof.
  apply (@x86_iteration_terminates release_profile scan_search toy_gimli toy_macho toy_pe
    toy_context_reuse toy_macho_lookup_covers toy_fuel example_chain_fuel (list Z)
    words_reader words_pure).
  - reflexivity.
  - apply example_unwinder_wf.
  - apply Forall_singleton. split; [apply example_rules_only|]. by exists [(0x100, 0)].
  - by vm_compute.
  - apply cache_ok_new.
  - apply wf_new; range.
  - by vm_compute.
Defined.
