(* ===== verification/X86Sessions.v ===== *)
(** A session on x86_64: a module is loaded, a frame in it is unwound, the module is
    unloaded, and the same address is unwound again through the same cache. *)

From S2P Require Import Prelude CodeAddress Error Arch RuleCache Slices Modules.
From S2P Require Import Dwarf DwarfCfiIndex Macho Pe UnwindData Unwinder UnwinderSpec.
From S2P Require Import UnwindFrame StackWalk Sessions.
From S2P Require Import X86UnwindRegs X86UnwindRule X86Dwarf X86Macho X86Pe X86Unwinder.
From S2P Require Import GimliExample PeExample.
From stdpp Require Import list strings.
Local Open Scope Z_scope.

Abbreviation x86_session :=
  (@session release_profile scan_search toy_gimli toy_macho toy_pe toy_fuel
     example_chain_fuel ArchX86_64 _ _ _ (list Z) words_reader).
Abbreviation x86_rule_at :=
  (@rule_at release_profile scan_search toy_gimli toy_macho toy_pe toy_fuel
     example_chain_fuel ArchX86_64 _ _ _ (list Z) words_reader).

Abbreviation x86_continues :=
  (@session_continues release_profile scan_search toy_gimli toy_macho toy_pe toy_fuel
    example_chain_fuel ArchX86_64 _ _ _ (list Z) words_reader).
Abbreviation x86_step_frame :=
  (@step_frame release_profile scan_search toy_gimli toy_macho toy_pe toy_fuel
    example_chain_fuel ArchX86_64 _ _ _ (list Z) words_reader).

Definition loaded : UnwinderInternal (@ModuleUnwindDataInternal toy_gimli) :=
  mk_unwinder _ [example_module] 1.
Definition unloaded : UnwinderInternal (@ModuleUnwindDataInternal toy_gimli) :=
  mk_unwinder _ [] 2.

Definition session_frame : UnwindRegsX86_64 * list Z :=
  (X86UnwindRegs.new 0x7180 0x28 0x20, example_stack).
Definition session_cache : x86_cache :=
  cache_after (x86_unwind loaded (InstructionPointer 0x7180) (x86_new_cache, session_frame)).

Lemma rule_at_stable u a rule :
  x86_rule_at u a rule → ∀ address, wf_frame_address address → lookup_of address = a →
  x86_stable u address.
Proof.
  intros Hat address Ha Hl. apply (always_stable _ _ rule Ha).
  intros address' Hl' Ha'. apply Hat; [done|congruence].
Qed.

Lemma loaded_rule : x86_rule_at loaded 0x7180 (OffsetSp 1).
Proof.
  intros address Ha Hl.
  assert (address = InstructionPointer 0x7180 ∨ address = ReturnAddress 0x7181) as [->| ->].
  { destruct address; simpl in Hl; [left; by subst|right; f_equal; lia]. }
  all: intros [ctx rc] [r st]; vm_compute; reflexivity.
Qed.

Lemma unloaded_rule a : x86_rule_at unloaded a UseFramePointer.
Proof. by apply (@rule_at_outside release_profile scan_search toy_gimli toy_macho toy_pe toy_fuel
     example_chain_fuel ArchX86_64). Qed.

Lemma example_session : x86_session 3 (mk_system 3 [unloaded], session_cache).
Proof.
  apply (x86_continues 2 1 (mk_system 2 [loaded], session_cache)).
  2:{ apply step_modules.
      by apply (@step_remove scan_search _ 2 [loaded] 0 loaded 0x7000 unloaded 3). }
  apply (x86_continues 2 0 (mk_system 2 [loaded], x86_new_cache)).
  2:{ apply (x86_step_frame _ _ loaded (InstructionPointer 0x7180) session_frame
        (Ok (Some 0x100200)) _ (X86UnwindRegs.new 0x100200 0x30 0x20, example_stack)).
      - by left.
      - by vm_compute.
      - by apply (rule_at_stable _ _ _ loaded_rule); [vm_compute|].
      - reflexivity. }
  apply (x86_continues 1 1 (mk_system 1 [mk_unwinder _ [] 0], x86_new_cache)).
  2:{ apply step_modules.
      apply (@step_add scan_search _ 1 [mk_unwinder _ [] 0] 0 (mk_unwinder _ [] 0)
        example_module loaded 2); [done|by vm_compute|done]. }
  apply (x86_continues 0 1 (mk_system 0 [], x86_new_cache)).
  - apply session_starts.
  - apply step_modules. by apply (@step_new scan_search _ 0 [] (mk_unwinder _ [] 0) 1).
Qed.

(** The rule of the unloaded module, which is still in the cache, is not used. *)
Lemma shared_cache_never_stale_witness :
  cached (rule_cache session_cache) 0x7180 1 = Some (OffsetSp 1) ∧
  forget (x86_unwind unloaded (InstructionPointer 0x7180)) (session_cache, session_frame) =
    X86UnwindRule.exec (H := release_profile) UseFramePointer true session_frame.
Proof.
  split; [reflexivity|].
  etrans; [apply (@shared_cache_never_stale release_profile scan_search toy_gimli toy_macho
    toy_pe toy_context_reuse toy_fuel example_chain_fuel ArchX86_64 _ _ _ (list Z)
    words_reader 3 (mk_system 3 [unloaded]) session_cache unloaded
    (InstructionPointer 0x7180) session_frame)|reflexivity].
  - reflexivity.
  - apply example_session.
  - by vm_compute.
  - by left.
  - by vm_compute.
  - by apply (rule_at_stable _ _ _ (unloaded_rule 0x7180)); [vm_compute|].
Defined.
