(* ===== verification/ErrorDisplay.v ===== *)
(** What the crate prints: the [Display] texts and the [source] of the errors
    ([src/error.rs], [src/dwarf.rs], [src/macho.rs], [src/pe.rs]) and the [Debug] texts of
    the registers ([src/display_utils.rs] and the [unwindregs.rs] files).

    [write!] is string concatenation; [{n:x}], [{n}] and [{n:b}] of an unsigned integer
    are its digits without leading zeros.  How gimli and macho-unwind-info display their
    own errors is a parameter. *)

From S2P Require Import Prelude Error Dwarf Macho DwarfCfiIndex.
From S2P Require X86UnwindRegs A64UnwindRegs.
From stdpp Require Import list strings.
From Stdlib Require Import Ascii.
Local Open Scope string_scope.
Local Open Scope Z_scope.

(** * Digits of an unsigned integer *)

Definition digit (n : Z) : ascii :=
  default "?"%char (String.get (Z.to_nat n) "0123456789abcdef").

Fixpoint format_radix (radix : Z) (width : nat) (n : Z) (acc : string) : string :=
  match width with
  | O => acc
  | S width =>
      let acc := String (digit (n mod radix)) acc in
      if n / radix =? 0 then acc else format_radix radix width (n / radix) acc
  end.

(** A [u64] has at most 16 hexadecimal, 20 decimal and 64 binary digits. *)
Definition lower_hex (n : Z) : string := format_radix 16 16 n "".
Definition decimal (n : Z) : string := format_radix 10 20 n "".
Definition binary (n : Z) : string := format_radix 2 64 n "".

(** The [Debug] implementations of [HexNum] and [BinNum]. *)
Definition HexNum (n : Z) : string := lower_hex n.
Definition BinNum (n : Z) : string := binary n.

(** * [Display] *)

Definition Error_display (self : Error) : string :=
  match self with
  | CouldNotReadStack addr => "Could not read stack memory at 0x" +:+ lower_hex addr
  | FramepointerUnwindingMovedBackwards => "Frame pointer unwinding moved backwards"
  | DidNotAdvance => "Neither the code address nor the stack pointer changed, would loop"
  | IntegerOverflow => "Unwinding caused integer overflow"
  | ReturnAddressIsNull => "Return address is null"
  end.

Definition PeUnwinderError_display (self : PeUnwinderError) : string :=
  match self with
  | MissingUnwindInfoData rva =>
      "failed to read unwind info memory at RVA " +:+ lower_hex rva
  | MissingInstructionData rva =>
      "failed to read instruction memory at RVA " +:+ lower_hex rva
  | MissingStackData addr =>
      "failed to read stack" +:+
      match addr with
      | Some addr => " at address " +:+ lower_hex addr
      | None => ""
      end
  | UnwindInfoParseError => "failed to parse UnwindInfo"
  | Aarch64Unsupported => "AArch64 is not yet supported"
  end.

Section Display.
Context `{Gimli, MachoUnwindInfo} (gimli_display : gimli_error → string)
  (macho_display : macho_error → string).

Definition DwarfUnwinderError_display (self : DwarfUnwinderError gimli_error) : string :=
  match self with
  | FdeFromOffsetFailed err =>
      "Could not get the FDE for the supplied offset: " +:+ gimli_display err
  | UnwindInfoForAddressFailed err =>
      "Could not find DWARF unwind info for the requested address: " +:+ gimli_display err
  | DwarfStackPointerMovedBackwards => "Stack pointer moved backwards"
  | DwarfDidNotAdvance => "Did not advance"
  | CouldNotRecoverCfa => "Could not recover the CFA"
  | CouldNotRecoverReturnAddress => "Could not recover the return address"
  | CouldNotRecoverFramePointer => "Could not recover the frame pointer"
  end.

Definition CompactUnwindInfoUnwinderError_display
    (self : CompactUnwindInfoUnwinderError gimli_error macho_error) : string :=
  match self with
  | BadFormat err => "Bad __unwind_info format: " +:+ macho_display err
  | AddressOutsideRange addr =>
      "Address 0x" +:+ lower_hex addr +:+ " outside of the range covered by __unwind_info"
  | CallerCannotBeFrameless =>
      "Encountered a non-leaf function which was marked as frameless."
  | FunctionHasNoInfo =>
      "No unwind info (null opcode) for this function in __unwind_info"
  | BpOffsetDoesNotFit =>
      "rbp offset from the stack pointer divided by 8 does not fit into i16"
  | BadOpcodeKind kind => "Unrecognized __unwind_info opcode kind " +:+ decimal kind
  | BadDwarfUnwinding err => "DWARF unwinding failed: " +:+ DwarfUnwinderError_display err
  | NoTextBytesToLookUpIndirectStackOffset =>
      "Don't have the function bytes to look up the offset for frameless function with indirect stack offset"
  | IndirectStackOffsetOutOfBounds =>
      "Stack offset not found inside the bounds of the text bytes"
  | StackAdjustOverflow => "Stack adjust addition overflowed"
  | StackSizeDoesNotFit => "Stack size does not fit into the rule representation"
  | StubFunctionCannotBeCaller => "A caller had its address in the __stubs section"
  | InvalidFrameless => "Encountered invalid unwind entry"
  end.

Definition UnwinderError_display (self : UnwinderError gimli_error macho_error) : string :=
  match self with
  | CompactUnwindInfo err =>
      "Compact Unwind Info unwinding failed: " +:+ CompactUnwindInfoUnwinderError_display err
  | Error.Dwarf err => "DWARF unwinding failed: " +:+ DwarfUnwinderError_display err
  | Error.Pe err => "PE unwinding failed: " +:+ PeUnwinderError_display err
  | NoDwarfData =>
      "__unwind_info referred to DWARF FDE but we do not have __eh_frame data"
  | NoModuleUnwindData => "No unwind data for the module containing the address"
  | EhFrameHdrCouldNotFindAddress =>
      ".eh_frame_hdr was not successful in looking up the address in the table"
  | DwarfCfiIndexCouldNotFindAddress =>
      "Failed to look up the address in the DwarfCfiIndex search table"
  end.

Definition DwarfCfiIndexError_display (self : DwarfCfiIndexError) : string :=
  match self with
  | GimliError e => "EhFrame processing failed: " +:+ gimli_display e
  | CouldNotSubtractBaseAddress =>
      "Could not subtract base address to create relative pc"
  | RelativeAddressTooBig => "Relative address did not fit into u32"
  | FdeOffsetTooBig => "FDE offset did not fit into u32"
  end.

(** * [source] *)

(** The [dyn Error] values that [source] returns. *)
Inductive AnyError : Type :=
| AGimli (e : gimli_error)
| AMacho (e : macho_error)
| ADwarf (e : DwarfUnwinderError gimli_error)
| ACompactUnwindInfo (e : CompactUnwindInfoUnwinderError gimli_error macho_error)
| APe (e : PeUnwinderError).

Definition any_display (e : AnyError) : string :=
  match e with
  | AGimli e => gimli_display e
  | AMacho e => macho_display e
  | ADwarf e => DwarfUnwinderError_display e
  | ACompactUnwindInfo e => CompactUnwindInfoUnwinderError_display e
  | APe e => PeUnwinderError_display e
  end.

Definition DwarfUnwinderError_source (self : DwarfUnwinderError gimli_error) :
    option AnyError :=
  match self with
  | FdeFromOffsetFailed e => Some (AGimli e)
  | UnwindInfoForAddressFailed e => Some (AGimli e)
  | _ => None
  end.

Definition CompactUnwindInfoUnwinderError_source
    (self : CompactUnwindInfoUnwinderError gimli_error macho_error) : option AnyError :=
  match self with
  | BadFormat e => Some (AMacho e)
  | BadDwarfUnwinding e => Some (ADwarf e)
  | _ => None
  end.

Definition UnwinderError_source (self : UnwinderError gimli_error macho_error) :
    option AnyError :=
  match self with
  | CompactUnwindInfo e => Some (ACompactUnwindInfo e)
  | Error.Dwarf e => Some (ADwarf e)
  | Error.Pe e => Some (APe e)
  | _ => None
  end.

Definition DwarfCfiIndexError_source (self : DwarfCfiIndexError) : option AnyError :=
  match self with
  | GimliError e => Some (AGimli e)
  | _ => None
  end.

(** The remaining [From] implementations. *)
Definition CompactUnwindInfoUnwinderError_from_macho (e : macho_error) :
    CompactUnwindInfoUnwinderError gimli_error macho_error := BadFormat e.
Definition CompactUnwindInfoUnwinderError_from_dwarf (e : DwarfUnwinderError gimli_error) :
    CompactUnwindInfoUnwinderError gimli_error macho_error := BadDwarfUnwinding e.
Definition DwarfCfiIndexError_from_gimli (e : gimli_error) : DwarfCfiIndexError :=
  GimliError e.
End Display.

(** * [Debug] of the registers *)

(** [debug_struct(name).field(..)...finish()] without the alternate flag. *)
Definition debug_struct (name : string) (fields : list (string * string)) : string :=
  name +:+ " { " +:+
  String.concat ", " ((λ f, f.1 +:+ ": " +:+ f.2) <$> fields) +:+ " }".

Module X86.
Import X86UnwindRegs.
Definition debug_fields (self : UnwindRegsX86_64) : list (string * string) :=
  [("ip", HexNum (ip self)); ("rax", HexNum (get self RAX));
   ("rdx", HexNum (get self RDX)); ("rcx", HexNum (get self RCX));
   ("rbx", HexNum (get self RBX)); ("rsi", HexNum (get self RSI));
   ("rdi", HexNum (get self RDI)); ("rbp", HexNum (get self RBP));
   ("rsp", HexNum (get self RSP)); ("r8", HexNum (get self R8));
   ("r9", HexNum (get self R9)); ("r10", HexNum (get self R10));
   ("r11", HexNum (get self R11)); ("r12", HexNum (get self R12));
   ("r13", HexNum (get self R13)); ("r14", HexNum (get self R14));
   ("r15", HexNum (get self R15))].
Definition debug (self : UnwindRegsX86_64) : string :=
  debug_struct "UnwindRegsX86_64" (debug_fields self).
End X86.

Module A64.
Import A64UnwindRegs.
Definition debug (self : UnwindRegsAarch64) : string :=
  debug_struct "UnwindRegsAarch64"
    [("lr", HexNum (lr self)); ("sp", HexNum (sp self)); ("fp", HexNum (fp self))].
End A64.

(** * Digits identify the number *)

(** Reading digits back, most significant first. *)
Definition digit_value (c : ascii) : Z :=
  match String.index 0 (String c "") "0123456789abcdef" with
  | Some n => Z.of_nat n
  | None => 0
  end.
Fixpoint value (radix acc : Z) (s : string) : Z :=
  match s with
  | "" => acc
  | String c s => value radix (radix * acc + digit_value c) s
  end.

Lemma digit_value_digit n : 0 ≤ n < 16 → digit_value (digit n) = n.
Proof.
  intros Hn. assert (n ∈ seqZ 0 16) as Hin by (apply elem_of_seqZ; lia).
  clear Hn. revert n Hin. apply Forall_forall. by repeat constructor.
Qed.

Lemma format_radix_S radix width n acc :
  format_radix radix (S width) n acc =
  if n / radix =? 0 then String (digit (n mod radix)) acc
  else format_radix radix width (n / radix) (String (digit (n mod radix)) acc).
Proof. done. Qed.

Lemma value_format_radix radix width n acc :
  1 < radix ≤ 16 → 0 ≤ n < radix ^ Z.of_nat (S width) →
  value radix 0 (format_radix radix (S width) n acc) = value radix n acc.
Proof.
  intros Hr. revert n acc. induction width as [|width IH]; intros n acc Hn.
  all: pose proof (Z.mod_pos_bound n radix) as Hd.
  all: pose proof (Z.div_mod n radix) as Hdm.
  all: assert (value radix (n / radix) (String (digit (n mod radix)) acc) = value radix n acc)
    as Hlast by (cbn [value]; rewrite digit_value_digit by lia; f_equal; lia).
  all: rewrite format_radix_S.
  - destruct (Z.eqb_spec (n / radix) 0) as [Hz|Hz']; [by rewrite Hz in Hlast|].
    destruct Hz'. apply Z.div_small. rewrite Z.pow_1_r in Hn. lia.
  - destruct (Z.eqb_spec (n / radix) 0) as [Hz|Hz].
    { by rewrite Hz in Hlast. }
    rewrite <-Hlast. apply IH. split; [apply Z.div_pos; lia|]. apply Z.div_lt_upper_bound; [lia|].
    rewrite Nat2Z.inj_succ, Z.pow_succ_r in Hn by lia. lia.
Qed.

(** The texts of a number are read back as the number. *)
Lemma value_lower_hex n : is_u64 n → value 16 0 (lower_hex n) = n.
Proof. intros. apply value_format_radix; [lia|done]. Qed.
Lemma value_decimal n : is_u64 n → value 10 0 (decimal n) = n.
Proof. unfold is_uint. intros. apply value_format_radix; lia. Qed.
Lemma value_binary n : is_u64 n → value 2 0 (binary n) = n.
Proof. intros. apply value_format_radix; [lia|done]. Qed.

Lemma lower_hex_inj n m : is_u64 n → is_u64 m → lower_hex n = lower_hex m → n = m.
Proof. intros Hn Hm Heq. by rewrite <-(value_lower_hex n), Heq, value_lower_hex. Qed.
Lemma decimal_inj n m : is_u64 n → is_u64 m → decimal n = decimal m → n = m.
Proof. intros Hn Hm Heq. by rewrite <-(value_decimal n), Heq, value_decimal. Qed.

(** * Texts identify the error *)

(** The numbers an error carries fit the types of its fields. *)
Definition wf_Error (e : Error) : Prop :=
  match e with CouldNotReadStack addr => is_u64 addr | _ => True end.
Definition wf_PeUnwinderError (e : PeUnwinderError) : Prop :=
  match e with
  | MissingUnwindInfoData rva | MissingInstructionData rva => is_u32 rva
  | MissingStackData (Some addr) => is_u64 addr
  | _ => True
  end.
Definition wf_CompactUnwindInfoUnwinderError {G M}
    (e : CompactUnwindInfoUnwinderError G M) : Prop :=
  match e with
  | AddressOutsideRange addr => is_u32 addr
  | BadOpcodeKind kind => is_u8 kind
  | _ => True
  end.
Definition wf_UnwinderError {G M} (e : UnwinderError G M) : Prop :=
  match e with
  | CompactUnwindInfo e => wf_CompactUnwindInfoUnwinderError e
  | Error.Pe e => wf_PeUnwinderError e
  | _ => True
  end.

Lemma u32_u64 n : is_u32 n → is_u64 n.
Proof. unfold is_uint. lia. Qed.
Lemma u8_u64 n : is_u8 n → is_u64 n.
Proof. unfold is_uint. lia. Qed.

(** [s] does not contain [sep]. *)
Fixpoint free_of (sep : ascii) (s : string) : Prop :=
  match s with
  | "" => True
  | String c s => c ≠ sep ∧ free_of sep s
  end.

Lemma free_of_split sep s1 s2 t1 t2 :
  free_of sep s1 → free_of sep s2 →
  s1 +:+ String sep t1 = s2 +:+ String sep t2 → s1 = s2 ∧ t1 = t2.
Proof.
  revert s2. induction s1 as [|c1 s1 IH]; intros [|c2 s2]; simpl; intros H1 H2 Heq;
    simplify_eq; try tauto.
  destruct (IH s2) as [-> ->]; tauto.
Qed.

Lemma free_of_format_radix sep radix width n acc :
  1 < radix ≤ 16 → sep ∉ digit <$> seqZ 0 16 → free_of sep acc →
  free_of sep (format_radix radix width n acc).
Proof.
  intros Hr Hsep. revert n acc. induction width as [|width IH]; intros n acc Hacc; [done|].
  pose proof (Z.mod_pos_bound n radix) as Hd.
  assert (free_of sep (String (digit (n mod radix)) acc)).
  { split; [|done]. intros <-. apply Hsep, list_elem_of_fmap_2, elem_of_seqZ. lia. }
  rewrite format_radix_S. case_match; auto.
Qed.
Lemma free_of_lower_hex sep n :
  bool_decide (sep ∉ digit <$> seqZ 0 16) → free_of sep (lower_hex n).
Proof. intros Hsep%bool_decide_unpack. by apply free_of_format_radix. Qed.

Lemma Error_display_inj e1 e2 :
  wf_Error e1 → wf_Error e2 → Error_display e1 = Error_display e2 → e1 = e2.
Proof.
  destruct e1, e2; simpl; intros; simplify_eq; try done.
  f_equal. by apply lower_hex_inj.
Qed.

Lemma PeUnwinderError_display_inj e1 e2 :
  wf_PeUnwinderError e1 → wf_PeUnwinderError e2 →
  PeUnwinderError_display e1 = PeUnwinderError_display e2 → e1 = e2.
Proof.
  destruct e1 as [| |[]| |], e2 as [| |[]| |]; simpl; intros; simplify_eq; try done.
  all: repeat f_equal; apply lower_hex_inj; auto using u32_u64.
Qed.

Section DisplayInj.
Context `{Gimli, MachoUnwindInfo} (gimli_display : gimli_error → string)
  (macho_display : macho_error → string).
Context `{!Inj (=) (=) gimli_display, !Inj (=) (=) macho_display}.

#[local] Instance DwarfUnwinderError_display_inj :
  Inj (=) (=) (DwarfUnwinderError_display gimli_display).
Proof. intros [] []; simpl; intros; simplify_eq; done. Qed.

Lemma DwarfCfiIndexError_display_inj :
  Inj (=) (=) (DwarfCfiIndexError_display gimli_display).
Proof. intros [] []; simpl; intros; simplify_eq; done. Qed.

Lemma CompactUnwindInfoUnwinderError_display_inj e1 e2 :
  wf_CompactUnwindInfoUnwinderError e1 → wf_CompactUnwindInfoUnwinderError e2 →
  CompactUnwindInfoUnwinderError_display gimli_display macho_display e1 =
  CompactUnwindInfoUnwinderError_display gimli_display macho_display e2 → e1 = e2.
Proof.
  destruct e1, e2; simpl; intros; simplify_eq; try done.
  - destruct (free_of_split " " (lower_hex address) (lower_hex address0)
      "outside of the range covered by __unwind_info"
      "outside of the range covered by __unwind_info"); [..|done|].
    1, 2: by apply free_of_lower_hex.
    f_equal. apply lower_hex_inj; auto using u32_u64.
  - f_equal. apply decimal_inj; auto using u8_u64.
Qed.

(** No two errors of the unwinder have the same text, as long as the parsers' own
    errors have different texts. *)
Lemma UnwinderError_display_inj e1 e2 :
  wf_UnwinderError e1 → wf_UnwinderError e2 →
  UnwinderError_display gimli_display macho_display e1 =
  UnwinderError_display gimli_display macho_display e2 → e1 = e2.
Proof.
  destruct e1, e2; simpl; intros; simplify_eq; try done.
  - f_equal. by apply CompactUnwindInfoUnwinderError_display_inj.
  - f_equal. by apply PeUnwinderError_display_inj.
Qed.
End DisplayInj.

(** An error that has a source ends in the text of its source. *)
Section SourceText.
Context `{Gimli, MachoUnwindInfo} (gimli_display : gimli_error → string)
  (macho_display : macho_error → string).

Definition ends_in (text : string) (source : AnyError) : Prop :=
  ∃ prefix, text = prefix +:+ any_display gimli_display macho_display source.

Lemma source_text e source :
  UnwinderError_source e = Some source →
  ends_in (UnwinderError_display gimli_display macho_display e) source.
Proof. destruct e; intros [= <-]; by eexists. Qed.
Lemma compact_source_text e source :
  CompactUnwindInfoUnwinderError_source e = Some source →
  ends_in (CompactUnwindInfoUnwinderError_display gimli_display macho_display e) source.
Proof. destruct e; intros [= <-]; by eexists. Qed.
Lemma dwarf_source_text e source :
  DwarfUnwinderError_source e = Some source →
  ends_in (DwarfUnwinderError_display gimli_display e) source.
Proof. destruct e; intros [= <-]; by eexists. Qed.
Lemma index_source_text e source :
  DwarfCfiIndexError_source e = Some source →
  ends_in (DwarfCfiIndexError_display gimli_display e) source.
Proof. destruct e; intros [= <-]; by eexists. Qed.

(** Whether DWARF was reached directly or through [__unwind_info], its error is the
    source of the error the caller sees. *)
Lemma dwarf_error_is_the_source e :
  UnwinderError_source (UnwinderError_from_cui (CompactUnwindInfoUnwinderError_from_dwarf e)) =
  UnwinderError_source (UnwinderError_from_dwarf e).
Proof. done. Qed.
End SourceText.

(** * [Debug] texts identify the registers *)

Import X86UnwindRegs(Reg(..)).

Definition plain (s : string) : Prop := free_of "," s ∧ free_of " " s.

Lemma plain_HexNum n : plain (HexNum n).
Proof. split; by apply free_of_lower_hex. Qed.

Lemma string_app_assoc (s1 s2 s3 : string) : (s1 +:+ s2) +:+ s3 = s1 +:+ (s2 +:+ s3).
Proof. induction s1 as [|c s1 IH]; [done|]. exact (f_equal (String c) IH). Qed.

Definition debug_body (fields : list (string * string)) : string :=
  String.concat ", " ((λ f, f.1 +:+ ": " +:+ f.2) <$> fields) +:+ " }".

Lemma debug_body_last n v : debug_body [(n, v)] = n +:+ ": " +:+ v +:+ " }".
Proof. unfold debug_body. simpl. by rewrite !string_app_assoc. Qed.
Lemma debug_body_cons n v f fs :
  debug_body ((n, v) :: f :: fs) = n +:+ ": " +:+ v +:+ ", " +:+ debug_body (f :: fs).
Proof.
  change (debug_body ((n, v) :: f :: fs)) with
    (((n +:+ ": " +:+ v) +:+ ", " +:+
      String.concat ", " ((λ f, f.1 +:+ ": " +:+ f.2) <$> f :: fs)) +:+ " }").
  by rewrite !string_app_assoc.
Qed.

Lemma debug_body_inj fs1 fs2 :
  fs1.*1 = fs2.*1 → Forall plain fs1.*2 → Forall plain fs2.*2 →
  debug_body fs1 = debug_body fs2 → fs1 = fs2.
Proof.
  revert fs2. induction fs1 as [|[n v1] fs1 IH]; intros [|[n' v2] fs2] Hns; try done.
  injection Hns as <- Hn.
  intros [[Hc1 Hs1] H1]%Forall_cons_1 [[Hc2 Hs2] H2]%Forall_cons_1 Heq.
  specialize (IH fs2 Hn H1 H2).
  destruct fs1 as [|f1 fs1], fs2 as [|f2 fs2]; try done.
  - rewrite !debug_body_last in Heq.
    apply (inj (String.append n)), (inj (String.append ": ")) in Heq.
    by apply free_of_split in Heq as [-> _].
  - rewrite !debug_body_cons in Heq.
    apply (inj (String.append n)), (inj (String.append ": ")) in Heq.
    apply free_of_split in Heq as [-> Heq]; [|done..].
    injection Heq as Heq. by rewrite IH.
Qed.

Lemma debug_struct_inj name fs1 fs2 :
  fs1.*1 = fs2.*1 → Forall plain fs1.*2 → Forall plain fs2.*2 →
  debug_struct name fs1 = debug_struct name fs2 → fs1 = fs2.
Proof.
  intros ??? Heq%(inj (String.append name))%(inj (String.append " { ")).
  by apply debug_body_inj.
Qed.

(** The structs printed here have hexadecimal fields only. *)
Lemma debug_hex_inj name (names : list string) ns1 ns2 :
  length ns1 = length names → length ns2 = length names →
  Forall (is_uint 64) ns1 → Forall (is_uint 64) ns2 →
  debug_struct name (zip names (HexNum <$> ns1)) =
  debug_struct name (zip names (HexNum <$> ns2)) → ns1 = ns2.
Proof.
  intros Hl1 Hl2 H1 H2 Heq%debug_struct_inj.
  - apply (f_equal (fmap snd)) in Heq.
    rewrite !snd_zip in Heq by (rewrite length_fmap; lia).
    clear -H1 H2 Heq. revert ns2 H2 Heq. induction H1; intros ? [] [=]; [done|].
    f_equal; [by apply lower_hex_inj|auto].
  - by rewrite !fst_zip by (rewrite length_fmap; lia).
  - rewrite snd_zip by (rewrite length_fmap; lia).
    apply Forall_fmap, Forall_true. intros. apply plain_HexNum.
  - rewrite snd_zip by (rewrite length_fmap; lia).
    apply Forall_fmap, Forall_true. intros. apply plain_HexNum.
Qed.

Lemma x86_debug_inj r1 r2 :
  X86UnwindRegs.wf_regs r1 → X86UnwindRegs.wf_regs r2 →
  X86.debug r1 = X86.debug r2 → r1 = r2.
Proof.
  intros [Hip1 H1] [Hip2 H2] Heq.
  assert (∀ r, X86.debug_fields r =
    zip ["ip"; "rax"; "rdx"; "rcx"; "rbx"; "rsi"; "rdi"; "rbp"; "rsp"; "r8"; "r9"; "r10";
         "r11"; "r12"; "r13"; "r14"; "r15"]
      (HexNum <$> X86UnwindRegs.ip r :: (X86UnwindRegs.get r <$>
        [RAX; RDX; RCX; RBX; RSI; RDI; RBP; RSP; R8; R9; R10; R11; R12;
                       R13; R14; R15])))
    as Hfields by done.
  unfold X86.debug in Heq. rewrite !Hfields in Heq.
  apply debug_hex_inj in Heq; [|done..| |].
  2, 3: constructor; [done|]; apply Forall_fmap, Forall_true; done.
  injection Heq; intros. apply X86UnwindRegs.regs_ext; [|intros []]; assumption.
Qed.

(** The [Debug] text of the aarch64 registers does not show the mask. *)
Lemma a64_debug_inj r1 r2 :
  A64UnwindRegs.wf_regs r1 → A64UnwindRegs.wf_regs r2 →
  A64.debug r1 = A64.debug r2 →
  A64UnwindRegs.mk_regs (A64UnwindRegs.lr_mask r2) (A64UnwindRegs.lr r1)
    (A64UnwindRegs.sp r1) (A64UnwindRegs.fp r1) = r2.
Proof.
  intros (_ & ? & ? & ?) (_ & ? & ? & ?) Heq.
  destruct r1 as [m1 l1 s1 f1], r2 as [m2 l2 s2 f2]; simpl in *.
  apply (debug_hex_inj _ ["lr"; "sp"; "fp"] [l1; s1; f1] [l2; s2; f2]) in Heq; [|by auto..].
  by simplify_eq.
Qed.

Example error_text_example :
  Error_display (CouldNotReadStack 0x7ffee4b0) = "Could not read stack memory at 0x7ffee4b0" ∧
  PeUnwinderError_display (MissingStackData None) = "failed to read stack" ∧
  PeUnwinderError_display (MissingStackData (Some 0)) = "failed to read stack at address 0".
Proof. done. Qed.
Example digits_example :
  decimal 255 = "255" ∧ BinNum 10 = "1010" ∧ lower_hex (2 ^ 64 - 1) = "ffffffffffffffff".
Proof. done. Qed.
Example debug_example :
  A64.debug (A64UnwindRegs.new 0x1003fc000 0x10 0x20) =
  "UnwindRegsAarch64 { lr: 1003fc000, sp: 10, fp: 20 }".
Proof. done. Qed.
