(* ===== verification/UnitTests.v ===== *)
(** The unit tests of the crate, run on the model.

    Each test is the list of its assertions as booleans, and each [_passes] says that all
    of them hold, so that the model and the compiled code agree on the values the authors
    of the crate chose.  The tests run in a build with overflow checks.  [roundtrip_all]
    of [x86_64/register_ordering.rs], which enumerates all orderings, is the theorem
    [encode_decode_bijection]; [test_cache_entry_size] is about memory layout. *)

From S2P Require Import Prelude AddSigned Error Arch.
From S2P Require Import X86UnwindRegs X86RegisterOrdering X86UnwindRule.
From S2P Require Import A64UnwindRegs A64UnwindRule A64InstructionAnalysis.
From stdpp Require Import list.
Local Open Scope Z_scope.

#[local] Existing Instance debug_profile.

(** * [add_signed.rs] *)

Definition test_wrapping : list bool :=
  [wrapping_add_signed 64 1 2 =? 3;
   wrapping_add_signed 64 2 1 =? 3;
   wrapping_add_signed 64 5 (-4) =? 1;
   wrapping_add_signed 64 5 (-5) =? 0;
   wrapping_add_signed 64 (u64_max - 5) 3 =? u64_max - 2;
   wrapping_add_signed 64 (u64_max - 5) 5 =? u64_max;
   wrapping_add_signed 64 (u64_max - 5) (-5) =? u64_max - 10;
   wrapping_add_signed 64 1 (-2) =? u64_max;
   wrapping_add_signed 64 2 (-4) =? u64_max - 1;
   wrapping_add_signed 64 u64_max 1 =? 0;
   wrapping_add_signed 64 (u64_max - 5) 6 =? 0;
   wrapping_add_signed 64 (u64_max - 5) 9 =? 3].

Definition test_checked : list bool :=
  [bool_decide (checked_add_signed 64 1 2 = Some 3);
   bool_decide (checked_add_signed 64 2 1 = Some 3);
   bool_decide (checked_add_signed 64 5 (-4) = Some 1);
   bool_decide (checked_add_signed 64 5 (-5) = Some 0);
   bool_decide (checked_add_signed 64 (u64_max - 5) 3 = Some (u64_max - 2));
   bool_decide (checked_add_signed 64 (u64_max - 5) 5 = Some u64_max);
   bool_decide (checked_add_signed 64 (u64_max - 5) (-5) = Some (u64_max - 10));
   bool_decide (checked_add_signed 64 1 (-2) = None);
   bool_decide (checked_add_signed 64 2 (-4) = None);
   bool_decide (checked_add_signed 64 u64_max 1 = None);
   bool_decide (checked_add_signed 64 (u64_max - 5) 6 = None);
   bool_decide (checked_add_signed 64 (u64_max - 5) 9 = None)].

Example add_signed_tests_pass : forallb id (test_wrapping ++ test_checked) = true.
Proof. by vm_compute. Qed.

(** * [aarch64/unwindregs.rs] *)

Definition mask_is (m : may PtrAuthMask) (v : Z) : bool :=
  bool_decide ((m ← m; Val (A64UnwindRegs.mask m)) = Val v).

Definition test_ptr_auth_mask : list bool :=
  [mask_is new_24_40 (Z.shiftr u64_max 24);
   mask_is new_24_40 (Z.shiftl 1 40 - 1);
   mask_is (from_max_known_address 0x0000aaaab54f7000) 0x0000ffffffffffff;
   mask_is (from_max_known_address 0x0000ffffa3206000) 0x0000ffffffffffff;
   mask_is (from_max_known_address 0xffffffffc05a9000) 0xffffffffffffffff;
   mask_is (from_max_known_address 0x000055ba9f07e000) 0x00007fffffffffff;
   mask_is (from_max_known_address 0x00007f76b8019000) 0x00007fffffffffff;
   mask_is (from_max_known_address 0x000000022a3ccff7) 0x00000003ffffffff].

Example ptr_auth_mask_test_passes : forallb id test_ptr_auth_mask = true.
Proof. by vm_compute. Qed.

(** * [x86_64/register_ordering.rs] *)

Definition unhandled_orderings : list bool :=
  [bool_decide (X86RegisterOrdering.encode [X86UnwindRegs.RAX] = Val None);
   bool_decide (X86RegisterOrdering.encode [X86UnwindRegs.RSI; X86UnwindRegs.RSI] = Val None)].

Example unhandled_orderings_pass : forallb id unhandled_orderings = true.
Proof. by vm_compute. Qed.

(** * [aarch64/unwind_rule.rs] and [x86_64/unwind_rule.rs]

    A test executes rules one after the other and asserts the result of each and some of
    the registers after it. *)

Section Calls.
Context {Rule Regs : Type}.
Context (exec : Rule → bool → M (Regs * list Z) Error (option Z)).

Record call : Type := mk_call {
  call_rule : Rule;
  call_is_first_frame : bool;
  call_result : result (option Z) Error;
  call_registers : list ((Regs → Z) * Z);
}.

Fixpoint run_calls (calls : list call) (s : Regs * list Z) : list bool :=
  match calls with
  | [] => []
  | c :: calls =>
      match exec (call_rule c) (call_is_first_frame c) s with
      | Val (res, s) =>
          bool_decide (res = call_result c) ::
          ((λ '(get, v), get s.1 =? v) <$> call_registers c) ++ run_calls calls s
      | Fault _ => [false]
      end
  end.
End Calls.
Arguments mk_call {Rule Regs}.

Module Aarch64.
Definition test_basic : list bool :=
  run_calls exec
    [mk_call NoOp true (Ok (Some 0x100300)) [(sp, 0x10)];
     mk_call UseFramePointer false (Ok (Some 0x100200)) [(sp, 0x30); (fp, 0x40)];
     mk_call UseFramePointer false (Ok (Some 0x100100)) [(sp, 0x50); (fp, 0x70)];
     mk_call UseFramePointer false (Ok None) []]
    (new 0x100300 0x10 0x20,
     [1; 2; 3; 4; 0x40; 0x100200; 5; 6; 0x70; 0x100100; 7; 8; 9; 10; 0x0; 0x0]).

Example test_basic_passes_aarch64 : forallb id test_basic = true.
Proof. by vm_compute. Qed.
End Aarch64.

Module X86_64.
Import X86UnwindRegs X86UnwindRule.

Definition test_basic : list bool :=
  run_calls exec
    [mk_call (OffsetSp 1) true (Ok (Some 0x100300)) [(ip, 0x100300); (sp, 0x18); (bp, 0x20)];
     mk_call UseFramePointer true (Ok (Some 0x100200))
       [(ip, 0x100200); (sp, 0x30); (bp, 0x40)];
     mk_call UseFramePointer false (Ok (Some 0x100100))
       [(ip, 0x100100); (sp, 0x50); (bp, 0x70)];
     mk_call UseFramePointer false (Ok None) []]
    (new 0x100400 0x10 0x20,
     [1; 2; 0x100300; 4; 0x40; 0x100200; 5; 6; 0x70; 0x100100; 7; 8; 9; 10; 0x0; 0x0]).

Example test_basic_passes : forallb id test_basic = true.
Proof. by vm_compute. Qed.

Definition test_overflow : list bool :=
  run_calls exec
    [mk_call JustReturn true (Err IntegerOverflow) [];
     mk_call (OffsetSp 1) true (Err IntegerOverflow) [];
     mk_call (OffsetSpAndRestoreBp 1 2) true (Err IntegerOverflow) [];
     mk_call UseFramePointer true (Err IntegerOverflow) []]
    (new 0x100400 (u64_max / 8 * 8) u64_max,
     [1; 2; 0x100300; 4; 0x40; 0x100200; 5; 6; 0x70; 0x100100; 7; 8; 9; 10; 0x0; 0x0]).

Example test_overflow_passes : forallb id test_overflow = true.
Proof. by vm_compute. Qed.
End X86_64.

(** * [aarch64/instruction_analysis/epilogue.rs] and [prologue.rs] *)

Module Epilogue.
(** An assertion of a test. *)
Definition detects (bytes : list Z) (pc_offset : Z) (rule : option UnwindRuleAarch64) : bool :=
  bool_decide (A64InstructionAnalysis.Epilogue.unwind_rule_from_detected_epilogue bytes pc_offset =
    Val rule).

Definition test_epilogue_1 : list bool :=
  let bytes :=
    [0xfd; 0x7b; 0x44; 0xa9; 0xf4; 0x4f; 0x43; 0xa9; 0xf6; 0x57; 0x42; 0xa9; 0xff;
    0x43; 0x01; 0x91; 0xc0; 0x03; 0x5f; 0xd6] in
  [detects bytes 0 (Some (OffsetSpAndRestoreFpAndLr 5 8 9));
   detects bytes 4 (Some (OffsetSp 5));
   detects bytes 8 (Some (OffsetSp 5));
   detects bytes 12 (Some (OffsetSp 5));
   detects bytes 16 (Some NoOp);
   detects bytes 20 None].

Example test_epilogue_1_passes : forallb id test_epilogue_1 = true.
Proof. by vm_compute. Qed.

Definition test_epilogue_with_retab : list bool :=
  let bytes :=
    [0xe0; 0x03; 0x16; 0xaa; 0xfd; 0x7b; 0x43; 0xa9; 0xf4; 0x4f; 0x42; 0xa9; 0xf6;
    0x57; 0x41; 0xa9; 0xf8; 0x5f; 0xc4; 0xa8; 0xff; 0x0f; 0x5f; 0xd6; 0xa0; 0x01;
    0x80; 0x52; 0x20; 0x60; 0xa6; 0x72] in
  [detects bytes 0 None;
   detects bytes 4 (Some (OffsetSpAndRestoreFpAndLr 4 6 7));
   detects bytes 8 (Some (OffsetSp 4));
   detects bytes 12 (Some (OffsetSp 4));
   detects bytes 16 (Some (OffsetSp 4));
   detects bytes 20 (Some NoOp);
   detects bytes 24 None].

Example test_epilogue_with_retab_passes : forallb id test_epilogue_with_retab = true.
Proof. by vm_compute. Qed.

Definition test_epilogue_with_retab_2 : list bool :=
  let bytes :=
    [0x28; 0x01; 0x00; 0x79; 0xfd; 0x7b; 0xc1; 0xa8; 0xff; 0x0f; 0x5f; 0xd6; 0xe2;
    0x03; 0x08; 0xaa; 0x38; 0x76; 0x00; 0x94] in
  [detects bytes 0 None;
   detects bytes 4 (Some (OffsetSpAndRestoreFpAndLr 1 0 1));
   detects bytes 8 (Some NoOp);
   detects bytes 12 None;
   detects bytes 16 None].

Example test_epilogue_with_retab_2_passes :
  forallb id test_epilogue_with_retab_2 = true.
Proof. by vm_compute. Qed.

Definition test_epilogue_with_regular_tail_call : list bool :=
  let bytes :=
    [0xfc; 0x6f; 0xc6; 0xa8; 0xbc; 0xba; 0xff; 0x17] in
  [detects bytes 0 (Some (OffsetSp 6))].

Example test_epilogue_with_regular_tail_call_passes :
  forallb id test_epilogue_with_regular_tail_call = true.
Proof. by vm_compute. Qed.

Definition test_epilogue_with_register_tail_call : list bool :=
  let bytes :=
    [0xfa; 0x67; 0xc5; 0xa8; 0x60; 0x00; 0x1f; 0xd6] in
  [detects bytes 4 (Some NoOp)].

Example test_epilogue_with_register_tail_call_passes :
  forallb id test_epilogue_with_register_tail_call = true.
Proof. by vm_compute. Qed.

Definition test_epilogue_with_auth_tail_call : list bool :=
  let bytes :=
    [0xe1; 0x03; 0x13; 0xaa; 0xfd; 0x7b; 0x42; 0xa9; 0xf4; 0x4f; 0x41; 0xa9; 0xf6;
    0x57; 0xc3; 0xa8; 0xff; 0x23; 0x03; 0xd5; 0xd0; 0x07; 0x1e; 0xca; 0x50; 0x00;
    0xf0; 0xb6; 0x20; 0x8e; 0x38; 0xd4; 0x13; 0x00; 0x00; 0x14; 0xa0; 0x16; 0x78;
    0xf9; 0x03; 0x3c; 0x40; 0xf9] in
  [detects bytes 0 None;
   detects bytes 4 (Some (OffsetSpAndRestoreFpAndLr 3 4 5));
   detects bytes 8 (Some (OffsetSp 3));
   detects bytes 12 (Some (OffsetSp 3));
   detects bytes 16 (Some NoOp);
   detects bytes 20 (Some NoOp);
   detects bytes 24 (Some NoOp);
   detects bytes 28 (Some NoOp)].

Example test_epilogue_with_auth_tail_call_passes :
  forallb id test_epilogue_with_auth_tail_call = true.
Proof. by vm_compute. Qed.

Definition test_epilogue_with_auth_tail_call_2 : list bool :=
  let bytes :=
    [0xe1; 0x03; 0x13; 0xaa; 0xfd; 0x7b; 0x41; 0xa9; 0xf4; 0x4f; 0xc2; 0xa8; 0xff;
    0x23; 0x03; 0xd5; 0xd0; 0x07; 0x1e; 0xca; 0x50; 0x00; 0xf0; 0xb6; 0x20; 0x8e;
    0x38; 0xd4; 0xf0; 0x77; 0x9c; 0xd2; 0x50; 0x08; 0x1f; 0xd7] in
  [detects bytes 0 None;
   detects bytes 4 (Some (OffsetSpAndRestoreFpAndLr 2 2 3));
   detects bytes 8 (Some (OffsetSp 2));
   detects bytes 12 (Some NoOp);
   detects bytes 16 (Some NoOp);
   detects bytes 20 (Some NoOp);
   detects bytes 24 (Some NoOp);
   detects bytes 28 (Some NoOp)].

Example test_epilogue_with_auth_tail_call_2_passes :
  forallb id test_epilogue_with_auth_tail_call_2 = true.
Proof. by vm_compute. Qed.

End Epilogue.

Module Prologue.
(** An assertion of a test: the bytes before and from a position. *)
Definition detects (bytes : list Z) (n : nat) (rule : option UnwindRuleAarch64) : bool :=
  bool_decide (A64InstructionAnalysis.Prologue.unwind_rule_from_detected_prologue (take n bytes) (drop n bytes) =
    Val rule).

Definition test_prologue_1 : list bool :=
  let bytes :=
    [0xff; 0x43; 0x01; 0xd1; 0xf6; 0x57; 0x02; 0xa9; 0xf4; 0x4f; 0x03; 0xa9; 0xfd;
    0x7b; 0x04; 0xa9; 0xfd; 0x03; 0x01; 0x91; 0xf4; 0x03; 0x04; 0xaa; 0xf5; 0x03;
    0x01; 0xaa] in
  [detects bytes 0 (Some NoOp);
   detects bytes 4 (Some (OffsetSp 5));
   detects bytes 8 (Some (OffsetSp 5));
   detects bytes 12 (Some (OffsetSp 5));
   detects bytes 16 (Some (OffsetSp 5));
   detects bytes 20 None;
   detects bytes 24 None;
   detects bytes 28 None].

Example test_prologue_1_passes : forallb id test_prologue_1 = true.
Proof. by vm_compute. Qed.

Definition test_prologue_with_pacibsp : list bool :=
  let bytes :=
    [0x08; 0x58; 0x29; 0xb8; 0xc0; 0x03; 0x5f; 0xd6; 0x7f; 0x23; 0x03; 0xd5; 0xf8;
    0x5f; 0xbc; 0xa9; 0xf6; 0x57; 0x01; 0xa9; 0xf4; 0x4f; 0x02; 0xa9; 0xfd; 0x7b;
    0x03; 0xa9; 0xfd; 0xc3; 0x00; 0x91; 0xf3; 0x03; 0x02; 0xaa; 0xf4; 0x03; 0x01;
    0xaa] in
  [detects bytes 0 None;
   detects bytes 4 None;
   detects bytes 8 (Some NoOp);
   detects bytes 12 (Some NoOp);
   detects bytes 16 (Some (OffsetSp 4));
   detects bytes 20 (Some (OffsetSp 4));
   detects bytes 24 (Some (OffsetSp 4));
   detects bytes 28 (Some (OffsetSp 4));
   detects bytes 32 None].

Example test_prologue_with_pacibsp_passes :
  forallb id test_prologue_with_pacibsp = true.
Proof. by vm_compute. Qed.

Definition test_prologue_with_mov_fp_sp : list bool :=
  let bytes :=
    [0x7f; 0x23; 0x03; 0xd5; 0xfd; 0x7b; 0xbf; 0xa9; 0xfd; 0x03; 0x00; 0x91; 0x68;
    0x04; 0x00; 0x51] in
  [detects bytes 0 (Some NoOp);
   detects bytes 4 (Some NoOp);
   detects bytes 8 (Some (OffsetSp 1));
   detects bytes 12 None].

Example test_prologue_with_mov_fp_sp_passes :
  forallb id test_prologue_with_mov_fp_sp = true.
Proof. by vm_compute. Qed.

Definition test_no_prologue_despite_stack_store : list bool :=
  let bytes :=
    [0xe8; 0x17; 0x00; 0xf9; 0x03; 0x00; 0x00; 0x14; 0xff; 0xff; 0x01; 0xa9; 0xff;
    0x17; 0x00; 0xf9; 0xe0; 0x03; 0x00; 0x91] in
  [detects bytes 0 None;
   detects bytes 4 None;
   detects bytes 8 None;
   detects bytes 12 None;
   detects bytes 16 None].

Example test_no_prologue_despite_stack_store_passes :
  forallb id test_no_prologue_despite_stack_store = true.
Proof. by vm_compute. Qed.

End Prologue.
